(* ===== verification/_CoqProject ===== *)
-Q . S2P
Prelude.v
Float.v
Conc.v
Kv.v
Badger.v
Alias.v
Cursor.v
Lifecycle.v
Wire.v
Rescan.v
Scan.v
Syncer.v
Inventory.v
GetData.v
Backend.v
SyncerRun.v
ChainSync.v
Startup.v
TxHelper.v
Decode.v
TxIndex.v
Loader.v
Config.v
Utils.v
Dates.v
Encoding.v
Json.v
JsonTypes.v
Proposals.v
Shutdown.v
Wallet.v
MultiWallet.v
TxAuthor.v
Accounts.v
Ticket.v
SyncData.v
SyncNotify.v
SyncRun.v
SyncCancel.v
SyncSpec.v
RescanBlocks.v
TxNotify.v
JsonData.v
Vsp.v
Message.v
Log.v
Words.v
NewMulti.v
Files.v
