(* ===== verification/Prelude.v ===== *)
(** * dcrlibwallet: a verification development

    dcrlibwallet is a Go library for light (SPV) Decred wallets: a multiwallet
    keeps several wallets, opens them through a loader, syncs them over the
    peer-to-peer network by testing compact block filters, indexes their
    transactions, and can store them in badger through a bucket layer of its
    own.  This development translates its logic by hand into executable Rocq
    definitions, one file per part, and proves what makes each part correct.
    Names follow the Go code.

    ** How code is modelled

    - A Go call is a function that returns an [outcome]: a value, an error or a
      panic (slice bounds, nil dereference).  Stateful code is in the monad
      [GM]: a function of the state that also gives the state it leaves behind
      on errors and panics.  [let! x := m in k] and [m ;; k] stop at the first
      error, as [if err != nil { return err }] does.
    - Errors are [goerr]: their kind where the errors package gives one, the
      text or name otherwise.  Log output and contexts are left out, except
      where a cancelled context decides what happens: then it is a function of
      the place in the run.
    - Integers are [Z]; [int32] and [int64] arithmetic is wrapped with [wrap]
      where it can overflow.  Floating-point numbers are binary64 of the
      Standard Library ([Float]); a conversion to an integer that the language
      leaves open is a parameter.  The one comparison of an amount as a
      [float64] has its rounding written out ([TxHelper.float64]).
    - Bytes are [list byte].  Go maps are [gmap]; where the iteration order of
      a map matters it is an argument.
    - Code that is not in the repository (badger, storm, dcrwallet, dcrd,
      bcrypt, nacl) is a type class of operations, with a class of laws that
      state what is documented of it.  Each class of laws has an instance over
      finite maps or lists, at the end of the file that declares it or in a
      [Toy] module; witnesses evaluate the definitions on these instances.
    - Goroutines are modelled where the code coordinates them.  The dial loop
      ([Syncer.conn_step]) and the loader ([Loader.lstep]) are step relations
      over all interleavings; parallel requests of one call are functions of
      the schedule.  The calls of sync.go and syncnotification.go are programs
      of atomic sections ([Conc.prog]), which [Conc.run] interleaves by a
      schedule and [Conc.eventually] quantifies over all schedules of; a channel
      is a number, and receiving from [nil] blocks for ever.

    ** The files, from the bottom up

    - [Kv]: badger itself, a sorted map with transactions ([World] holds the
      committed map and the open transaction) and iterators.
    - [Badger], [Cursor] (badgerdb/bucket.go, badgerdb/db.go): buckets as key
      prefixes.  An entry holds one byte with the length of its bucket's
      prefix.  [Put_refines_insert] and [ForEach_lists_bucket] relate the flat
      store to a map per bucket; [bucket_ops_safe] shows that no sequence of
      bucket and transaction operations, iterations with their callbacks and
      what is called after a commit included, panics on a store they built
      (cursors can, [Cursor.cursor_Last_fresh_panics]); [cursor_walk_is_ForEach] that a
      cursor visits what [ForEach] does; [DeleteNestedBucket_keeps_contents]
      and [DeleteTopLevelBucket_spec] what deletion leaves behind.
      [Alias]: the operations that build keys once more, on a heap of arrays;
      [session_refines] says for which buckets taking keys for values is right,
      [room_loses_keys] what [append] does to the others.
      [Lifecycle] (badgerdb/db.go, badgerdb/driver.go): opening and closing,
      interleaved with the goroutine that collects garbage.
    - [Wire]: transactions and blocks, and the interfaces of the chain library
      and of the rescan filter ([RescanFilter]).
    - [Rescan] (spv/rescan.go, [LoadTxFilter] of spv/backend.go): scanning a
      block for the transactions of a wallet.
    - [Scan] ([scanChain] of spv/sync.go, [Rescan] of spv/backend.go): the loop
      that tests block filters, fetches the blocks that match and scans them,
      and starts over with what a block added.  Both callers run [filterLoop].
      Completeness: the result is that of scanning every block of the chain,
      if filters have no false negatives.  The fuel is the length of the chain
      plus one: every restart goes past the block that caused it.
    - [Syncer] (spv/sync.go): notifications, synced flags, chain tips, choice
      of peers, and the goroutines that dial them: [peers_bounded] bounds the
      goroutines and the live peers, not only the maps that list them.
    - [Inventory] (spv/sync.go): answering [getdata], handling [inv].  The
      library is only assumed to answer with transactions that it was asked for,
      each at most as often as it was.
    - [GetData] ([receiveGetData] of spv/sync.go): the loop that receives
      [getdata] messages and the goroutines that answer them, as steps in any
      order; every run ends, and one that returns has answered everything.
    - [ChainSync] (spv/sync.go): [getHeaders] and announced blocks, with the
      two mutexes; the triples [tri] prove that every path releases them and
      never unlocks twice.  The fuel bounds the replies of the peer;
      [getHeaders_total] shows that one more than it sends is enough.
    - [Backend] (spv/backend.go): requests that are tried on one peer after the
      other ([Blocks_spec]: whose answer is returned, when the loop ends and
      when it does not), and announcing transactions, up to the [getdata] that
      asks for them ([PublishTransactions_spec]).
    - [SyncerRun] (spv/sync.go): creating a syncer, what [Run] starts, and the
      goroutines of persistent peers, interleaved.
    - [Startup] (spv/sync.go): missing filters, the catch-up of each wallet
      and its lock, and [startupSync] on top of [ChainSync].
    - [TxHelper] (txhelper/, addresshelper/, utils/netparams.go): amounts,
      directions, scripts, network parameters.
    - [Decode] (decodetx.go, txparser.go): from the wallet's report of a
      transaction to the indexed record.  [decodeTransactionWithTxSummary] and
      [GetTransactionRaw] call each other; fuel 2 is enough for a vote on a
      ticket ([decode_vote_reward]).
    - [TxIndex] (txindex/, txindex.go, transactions.go): the index of
      transactions over storm: opening and versions, saving, indexing from the
      last index point, queries, the pages of all wallets.
    - [Loader] (internal/loader/loader.go): creating, opening and unloading the
      wallet database; callbacks.  [OpenExistingWallet] and [RunAfterLoad] are in
      pieces, as they release the mutex on the way.
    - [Config] (multiwallet_config.go, wallet_config.go): user configuration
      and the keys of wallets in the shared bucket.
    - [Wallet] (wallet.go, errors.go, parts of utils.go and
      multiwallet_utils.go): one wallet, composed of its loader, its index and
      the library's wallet; backups of files; encryption of the seed.
    - [MultiWallet] (multiwallet.go, multiwallet_utils.go): adding, linking,
      renaming, deleting wallets, passphrases, over the wallets database.  The
      fuel of [backupFile] is one more than the number of files, which
      [Wallet.backupFile_ends] shows to be enough.
    - [Shutdown] (multiwallet.go, wallet.go, utils.go, sync.go): shutting down,
      interleaved with the goroutines that cancel contexts and with the end of a
      running sync, for which [CancelSync] waits ([Shutdown_spec] says when the
      call can go on to its end, [shutdown_can_hang] how it does not).
    - [TxAuthor] (txauthor.go): the destinations of a transaction, its inputs
      and change, fee estimates, signing and publishing; what is published,
      and when.
    - [Float], [Conc]: binary64 numbers and goroutines, for the files below.
    - [Utils] (utils.go): peer addresses, with Go's splitting and joining of
      host and port written out; names and times.  [Encoding] (utils.go
      and its callers): hexadecimal, base64 and query strings, with their
      round trips, and the entropy of a text.
    - [Dates] (utils.go): printing times; the date is shown to be that of the
      calendar ([civil_correct]) and the text to be readable.
    - [Accounts] (accounts.go, address.go, wallets.go): accounts, their paths,
      addresses, the iterators.  [Ticket] (ticket.go, ticketstatus.go): listing
      tickets, buying them, and the voting service provider.  [Proposals]
      (proposals.go): requests to the proposal server, page by page;
      [GetAllProposals_spec] shows when the pages end, [GetAllProposals_iff]
      what a call that returns has requested, from any server.
    - [Json], [JsonTypes]: the package encoding/json, as far as the source uses
      it: texts and values with UTF-8, escapes and numbers ([json_roundtrip]),
      and Go types as combinators ([jtype]) whose laws ([jtype_ok]: what is
      encoded is decoded again, and whatever is decoded fits the type) are
      proved once per combinator.  The fuel of the parser is the length of the
      text plus one.  [JsonData] (types.go and the calls of [json]): the types
      of the source, field by field, the texts of transactions, accounts and
      proposals, and [Proposals] from end to end ([GetAllProposals_complete],
      [GetAllProposals_walks]).  [Vsp] (ticket.go): the reply of the voting
      service provider from its text.
    - [SyncData] (sync.go): the sync data on top of [MultiWallet], and the calls
      that start, cancel and restart a sync.  [SyncNotify]
      (syncnotification.go): the handlers of the notifications of [Syncer], the
      estimates, the goroutine that reports address discovery.
    - [SyncRun]: an invariant of every interleaving of all of these.
      [SyncCancel]: [cancel_completes] shows that canceling ends under every
      schedule once the channel is read; [cancel_can_hang] and
      [restart_can_fail] are schedules that go wrong.  [SyncSpec]: what starting
      a sync and each first notification do.
    - [RescanBlocks] (rescan.go): a rescan, the goroutine of the library that
      sends its progress and the one that reports it, interleaved;
      [rescan_completes] shows that it ends under every schedule.  [TxNotify]
      (txandblocknotifications.go): what is indexed and reported for a
      notification of the library, and the goroutine of a wallet; there a
      transaction stands for its text, which [transactions_text_roundtrip] shows
      to say the same.
    - [Message] (message.go): signing with the wallet unlocked, what is left
      unlocked, and what the verifier of the library is asked.
      [Log] (log.go and the log.go of the packages): loggers, levels, the
      rotator.  [Words] (wordlist.go): the words of seeds, line by line.
    - [NewMulti] (multiwallet.go): [NewMultiWallet], which composes the network,
      the log, the database, the saved wallets, the configuration and the
      goroutines of a shutdown.  [Files] (multiwallet_utils.go, utils.go): the
      size of the root directory, and whether a wallet is there.

    ** What is not modelled, and why

    - Of the modelled parts: in badgerdb, the lists of buckets (written, and only
      read by [setTx], which nothing calls), iterator items kept past [Next]; in
      spv/sync.go, the pauses between dials; in [Shutdown], a sync that is
      started meanwhile, and the network backends that [CancelSync] unsets.
    - In sync.go and syncnotification.go, unsynchronised loops over the wallets
      are one action each, and what a listener does when it is called.
    - Of encoding/json: an array of numbers for [[]byte], elements left behind
      the length of a slice that is decoded into twice, the limit on nesting.
    - Lines that are only logged, except for the loggers themselves; tests.

    This file is the prelude of the others: bytes, errors, the monad, machine
    integers and lemmas on lists. *)
From Stdlib Require Import ZArith Lia.
From Stdlib Require Export Strings.Byte.
From stdpp Require Export base tactics numbers option list gmap strings sorting.

#[global] Set Default Goal Selector "!".

(** ** Bytes *)

#[export] Instance byte_eq_dec : EqDecision byte := Byte.byte_eq_dec.

#[export] Program Instance byte_countable : Countable byte :=
  inj_countable Byte.to_N Byte.of_N _.
Next Obligation. intros b; apply Byte.of_to_N. Qed.

Abbreviation bytes := (list byte).

(** [bs "text"] is Go's [[]byte("text")]. *)
Definition bs (s : string) : bytes := String.list_byte_of_string s.

(** Go's conversion [byte(n)] of a non-negative [int]: truncation to 8 bits. *)
Definition byte_of_nat (n : nat) : byte :=
  default x00 (Byte.of_N (N.of_nat n `mod` 256)).

(** Go's conversion [int(b)] of a byte. *)
Definition nat_of_byte (b : byte) : nat := N.to_nat (Byte.to_N b).

Lemma nat_of_byte_of_nat (n : nat) : nat_of_byte (byte_of_nat n) = n `mod` 256.
Proof.
  unfold nat_of_byte, byte_of_nat.
  assert (Hlt : (N.of_nat n `mod` 256 < 256)%N) by (apply N.mod_lt; lia).
  destruct (Byte.of_N (N.of_nat n `mod` 256)) as [b|] eqn:Hb; simpl.
  - apply Byte.to_of_N in Hb. rewrite Hb.
    rewrite N2Nat.inj_mod, Nat2N.id. done.
  - apply Byte.of_N_None_iff in Hb. lia.
Qed.

Lemma nat_of_byte_of_nat_small (n : nat) :
  n < 256 → nat_of_byte (byte_of_nat n) = n.
Proof. intros. rewrite nat_of_byte_of_nat. by apply Nat.mod_small. Qed.

(** ** Go errors

    An [error] value is [option goerr] ([None] is [nil]).  The constructors
    record how the source builds the error; a value of a library is known by
    its name only and is compared by identity, as [==] does. *)

(** The error kinds of the errors package that the source names. *)
Inductive Kind :=
| KOther | KInvalid | KIO | KExist | KNotExist | KPassphrase
| KInsufficientBalance | KNoPeers | KProtocol | KConsensus.

#[export] Instance Kind_eq_dec : EqDecision Kind.
Proof. solve_decision. Defined.

Inductive goerr :=
| EKind (k : Kind) (msg : string)   (* errors.E(kind, "msg") *)
| EWrap (k : Kind) (inner : goerr)  (* errors.E(kind, err) or errors.E(op, err) *)
| ENew (code : string)              (* errors.New, errors.Errorf, fmt.Errorf *)
| ELib (name : string).             (* an error value declared by a library *)

#[export] Instance goerr_eq_dec : EqDecision goerr.
Proof. solve_decision. Defined.

(** [errors.Is(err, kind)]: some error of the chain has the kind. *)
Fixpoint is_kind (k : Kind) (e : goerr) : bool :=
  match e with
  | EKind k' _ => bool_decide (k' = k)
  | EWrap k' inner => bool_decide (k' = k) || is_kind k inner
  | _ => false
  end.

(** ** Results and state passing

    A call returns, returns an error, or panics (slice bounds, nil map, ...).
    A stateful call also yields the state it leaves behind, on every branch. *)

Inductive outcome (A : Type) :=
| Ok (a : A)
| Err (e : goerr)
| Panic.
Arguments Ok {A} a.
Arguments Err {A} e.
Arguments Panic {A}.

#[export] Instance outcome_fmap : FMap outcome := λ A B f o,
  match o with Ok a => Ok (f a) | Err e => Err e | Panic => Panic end.

Definition GM (S A : Type) : Type := S → outcome A * S.

Definition ret {S A} (a : A) : GM S A := λ s, (Ok a, s).
Definition fail {S A} (e : goerr) : GM S A := λ s, (Err e, s).
Definition panic {S A} : GM S A := λ s, (Panic, s).
Definition bind {S A B} (m : GM S A) (k : A → GM S B) : GM S B :=
  λ s, match m s with
       | (Ok a, s') => k a s'
       | (Err e, s') => (Err e, s')
       | (Panic, s') => (Panic, s')
       end.
Definition getS {S} : GM S S := λ s, (Ok s, s).
Definition gets {S A} (f : S → A) : GM S A := λ s, (Ok (f s), s).
Definition modify {S} (f : S → S) : GM S unit := λ s, (Ok tt, f s).

(** [try m]: call [m] and look at its error instead of returning it. *)
Definition try {S A} (m : GM S A) : GM S (goerr + A) :=
  λ s, match m s with
       | (Ok a, s') => (Ok (inr a), s')
       | (Err e, s') => (Ok (inl e), s')
       | (Panic, s') => (Panic, s')
       end.

(** Return the error when there is one: [if err != nil { return err }]. *)
Definition check {S} (e : option goerr) : GM S unit :=
  match e with Some e => fail e | None => ret tt end.

Declare Scope go_scope.
Delimit Scope go_scope with go.
Notation "'let!' x := m 'in' k" := (bind m (λ x, k))
  (at level 10, x pattern, k at level 200) : go_scope.
Notation "m ';;' k" := (bind m (λ _, k))
  (at level 100, right associativity) : go_scope.
Open Scope go_scope.

Lemma bind_Ok {S A B} (m : GM S A) (k : A → GM S B) s s' b :
  bind m k s = (Ok b, s') → ∃ a s1, m s = (Ok a, s1) ∧ k a s1 = (Ok b, s').
Proof.
  unfold bind. destruct (m s) as [[a|e|] s1] eqn:?; intros [=]; eauto.
Qed.

(** Split a hypothesis [bind m k s = (Ok b, s')] into its two calls. *)
Ltac inv_bind H :=
  let a := fresh "a" in let s1 := fresh "s" in let Hm := fresh "Hm" in
  apply bind_Ok in H as (a & s1 & Hm & H).

(** ** Machine integers *)

Definition wrap (w : Z) (z : Z) : Z := (z + 2 ^ (w - 1)) `mod` 2 ^ w - 2 ^ (w - 1).
Abbreviation wrap32 := (wrap 32).
Abbreviation wrap64 := (wrap 64).
Definition uwrap (w : Z) (z : Z) : Z := z `mod` 2 ^ w.

Definition in_int (w z : Z) : Prop := (- 2 ^ (w - 1) ≤ z < 2 ^ (w - 1))%Z.

Lemma wrap_range (w z : Z) : (0 < w)%Z → in_int w (wrap w z).
Proof.
  intros Hw. unfold in_int, wrap.
  assert (H2 : (2 ^ w = 2 * 2 ^ (w - 1))%Z).
  { rewrite <- Z.pow_succ_r by lia. f_equal; lia. }
  assert (0 < 2 ^ (w - 1))%Z by (apply Z.pow_pos_nonneg; lia).
  pose proof (Z.mod_pos_bound (z + 2 ^ (w - 1)) (2 ^ w)). lia.
Qed.

Lemma wrap_id (w z : Z) : (0 < w)%Z → in_int w z → wrap w z = z.
Proof.
  intros Hw [Hl Hu]. unfold wrap.
  assert (H2 : (2 ^ w = 2 * 2 ^ (w - 1))%Z).
  { rewrite <- Z.pow_succ_r by lia. f_equal; lia. }
  rewrite Z.mod_small by lia. lia.
Qed.

(** Arithmetic modulo [2 ^ w]: an intermediate wrap does not matter. *)
Lemma wrap_add_l (w a b : Z) : wrap w (wrap w a + b) = wrap w (a + b).
Proof.
  unfold wrap. f_equal.
  replace ((a + 2 ^ (w - 1)) `mod` 2 ^ w - 2 ^ (w - 1) + b + 2 ^ (w - 1))%Z
    with ((a + 2 ^ (w - 1)) `mod` 2 ^ w + b)%Z by lia.
  rewrite Zplus_mod_idemp_l. f_equal. lia.
Qed.

(** Wrapping adds a multiple of [2 ^ w], and does not see such multiples. *)
Lemma wrap_shift (w z : Z) : ∃ k, wrap w z = (z + k * 2 ^ w)%Z.
Proof.
  exists (- ((z + 2 ^ (w - 1)) / 2 ^ w))%Z. unfold wrap.
  destruct (decide (2 ^ w = 0)%Z) as [->|H0].
  - rewrite Zdiv_0_r, Zmod_0_r. lia.
  - rewrite Z.mod_eq by done. lia.
Qed.

Lemma wrap_mult (w z k : Z) : wrap w (z + k * 2 ^ w) = wrap w z.
Proof.
  unfold wrap. f_equal. replace (z + k * 2 ^ w + 2 ^ (w - 1))%Z
    with (z + 2 ^ (w - 1) + k * 2 ^ w)%Z by lia. apply Z_mod_plus_full.
Qed.

Lemma wrap_sub (w a b : Z) : wrap w (wrap w a - wrap w b) = wrap w (a - b).
Proof.
  destruct (wrap_shift w a) as [k ->], (wrap_shift w b) as [j ->].
  rewrite <- (wrap_mult w (a - b) (k - j)). f_equal. lia.
Qed.

Create HintDb ints.
#[export] Hint Resolve wrap_range : ints.
#[export] Hint Rewrite wrap_add_l wrap_mult wrap_sub : wrap.

Lemma wrap64_id z : in_int 64 z → wrap64 z = z.
Proof. apply wrap_id; lia. Qed.
Lemma wrap32_id z : in_int 32 z → wrap32 z = z.
Proof. apply wrap_id; lia. Qed.

(** The sum of a list of [int64] computed with wrap-around, as the loops
    [total += x.Amount] do, is the wrapped sum. *)
Definition sum64 (l : list Z) : Z := foldl (λ acc x, wrap64 (acc + x)) 0%Z l.
Definition sumZ (l : list Z) : Z := foldr Z.add 0%Z l.

Lemma foldl_wrap64 (l : list Z) (a : Z) :
  wrap64 (foldl (λ acc x, wrap64 (acc + x)) a l) = wrap64 (a + sumZ l).
Proof.
  revert a. induction l as [|x l IH]; intros a; simpl.
  - f_equal. lia.
  - rewrite IH. autorewrite with wrap. f_equal. lia.
Qed.

Lemma foldl_wrap64_range (l : list Z) (a : Z) :
  in_int 64 a → in_int 64 (foldl (λ acc x, wrap64 (acc + x)) a l).
Proof.
  revert a. induction l as [|x l IH]; intros a Ha; simpl; [done|].
  apply IH, wrap_range. lia.
Qed.

Lemma sum64_spec (l : list Z) : sum64 l = wrap64 (sumZ l).
Proof.
  unfold sum64.
  rewrite <- (wrap64_id (foldl _ _ _)) by (apply foldl_wrap64_range; done).
  by rewrite foldl_wrap64.
Qed.



(** ** Lists *)

(** Go's [len], as an integer. *)
Abbreviation zlen l := (Z.of_nat (length l)).

Section lists.
Context {A : Type} (P : A → Prop) `{HP : ∀ x, Decision (P x)}.

Lemma filter_none (l : list A) : (∀ x, x ∈ l → ¬ P x) → filter P l = [].
Proof.
  induction l as [|x l IH]; intros H; [done|].
  rewrite filter_cons_False by (apply H; set_solver).
  apply IH. set_solver.
Qed.

Lemma filter_all (l : list A) : (∀ x, x ∈ l → P x) → filter P l = l.
Proof.
  induction l as [|x l IH]; intros H; [done|].
  rewrite filter_cons_True by (apply H; set_solver).
  f_equal. apply IH. set_solver.
Qed.

Lemma StronglySorted_filter (R : relation A) (l : list A) :
  StronglySorted R l → StronglySorted R (filter P l).
Proof.
  induction 1 as [|x l Hss IH Hall]; [constructor|]. rewrite filter_cons.
  destruct (decide (P x)); [|done]. constructor; [done|].
  apply Forall_forall. intros y [_ Hy]%list_elem_of_filter.
  by eapply Forall_forall in Hall.
Qed.

Lemma filter_length_submseteq (l k : list A) :
  l ⊆+ k → length (filter P l) ≤ length (filter P k).
Proof.
  intros [r ->]%submseteq_Permutation. rewrite filter_app, length_app. lia.
Qed.
End lists.
