(* ===== verification/Float.v ===== *)
(** * Floating-point numbers

    Go's [float64] is binary64 of IEEE 754; its arithmetic is the Standard
    Library's specification of it, with rounding to nearest even.  Here are the
    conversions and the functions of package [math] that the source calls. *)
From Stdlib Require Import Floats.SpecFloat.
From S2P Require Import Prelude.

Abbreviation f64 := spec_float.

Definition fadd : f64 → f64 → f64 := SFadd 53 1024.
Definition fsub : f64 → f64 → f64 := SFsub 53 1024.
Definition fmul : f64 → f64 → f64 := SFmul 53 1024.
Definition fdiv : f64 → f64 → f64 := SFdiv 53 1024.
Definition fltb : f64 → f64 → bool := SFltb.

(** [float64(z)] *)
Definition of_int (z : Z) : f64 := binary_normalize 53 1024 z 0 false.

(** A decimal constant [n/d] of the source. *)
Definition of_ratio (n d : Z) : f64 := fdiv (of_int n) (of_int d).

(** The integer of a number without a fraction, toward zero otherwise. *)
Definition trunc (x : f64) : option Z :=
  match x with
  | S754_zero _ => Some 0%Z
  | S754_infinity _ | S754_nan => None
  | S754_finite s m e =>
      let a := if decide (0 ≤ e)%Z then (Zpos m * 2 ^ e)%Z else (Zpos m / 2 ^ (- e))%Z in
      Some (if s then (- a)%Z else a)
  end.

(** [math.Round]: halves away from zero; a zero keeps its sign. *)
Definition signed_int (s : bool) (a : Z) : f64 :=
  if decide (a = 0)%Z then S754_zero s else of_int (if s then - a else a).
Definition Round (x : f64) : f64 :=
  match x with
  | S754_finite s m e =>
      if decide (0 ≤ e)%Z then x
      else signed_int s ((2 * Zpos m + 2 ^ (- e)) / 2 ^ (- e + 1))
  | _ => x
  end.

(** [math.Ceil] *)
Definition Ceil (x : f64) : f64 :=
  match x with
  | S754_finite s m e =>
      if decide (0 ≤ e)%Z then x
      else signed_int s (if s then Zpos m / 2 ^ (- e) else - (- Zpos m / 2 ^ (- e)))
  | _ => x
  end.

(** A conversion to an integer of [w] bits.  The language leaves the result
    open for infinities, NaN and numbers out of range: it is [conv w x]. *)
Definition to_int (conv : Z → f64 → Z) (w : Z) (x : f64) : Z :=
  match trunc x with
  | Some z => if decide (- 2 ^ (w - 1) ≤ z < 2 ^ (w - 1))%Z then z else conv w x
  | None => conv w x
  end.

Example round_half : Round (of_ratio 5 2) = of_int 3 ∧ Round (of_ratio (-5) 2) = of_int (-3).
Proof. split; reflexivity. Qed.
Example ceil_half : Ceil (of_ratio 5 2) = of_int 3 ∧ Ceil (of_ratio (-5) 2) = of_int (-2).
Proof. split; reflexivity. Qed.

(** ** Small integers are numbers *)
Lemma digits_iter (p : positive) (d : positive) :
  digits2_pos (Pos.iter xO p d) = (digits2_pos p + d)%positive.
Proof.
  revert p. induction d as [|d IH] using Pos.peano_ind; intros p.
  - simpl. by rewrite Pos.add_1_r.
  - rewrite Pos.iter_succ. simpl. rewrite IH. lia.
Qed.

Lemma digits_bound (p : positive) (n : Z) :
  (0 < n → Zpos p < 2 ^ n → Zpos (digits2_pos p) ≤ n)%Z.
Proof.
  revert n. induction p as [p IH|p IH|]; intros n Hn Hp; simpl; [| |lia].
  1, 2: assert (H2 : (2 ^ n = 2 * 2 ^ (n - 1))%Z) by (rewrite <- Z.pow_succ_r by lia; f_equal; lia).
  1, 2: assert (Hn1 : (0 < n - 1)%Z) by (destruct (decide (n = 1%Z)) as [->|]; [simpl in *; lia|lia]).
  1, 2: specialize (IH (n - 1)%Z Hn1 ltac:(lia)); lia.
Qed.

(** The number of a positive integer below [2 ^ 53]. *)
Lemma of_int_finite (p : positive) :
  (Zpos p < 2 ^ 53)%Z → ∃ m e, of_int (Zpos p) = S754_finite false m e.
Proof.
  intros Hp. pose proof (digits_bound p 53 ltac:(lia) Hp) as Hd.
  set (g := digits2_pos p) in *. cbv zeta.
  assert (Hf : ∀ z, (1 ≤ z ≤ 53)%Z → fexp 53 1024 z = (z - 53)%Z) by (intros z ?; unfold fexp, emin; lia).
  assert (Haux : ∀ m e, (Zpos (digits2_pos m) + e = Zpos g)%Z → (e = Zpos g - 53)%Z →
    binary_round_aux 53 1024 false (Zpos m) e loc_Exact = S754_finite false m e).
  { intros m e Hm He. unfold binary_round_aux, shr_fexp, Zdigits2. simpl.
    rewrite Hm, Hf by lia. replace (Zpos g - 53 - e)%Z with 0%Z by lia. simpl.
    rewrite Hm, Hf by lia. replace (Zpos g - 53 - e)%Z with 0%Z by lia. simpl.
    rewrite (proj2 (Z.leb_le _ _)) by lia. done. }
  unfold of_int, binary_normalize, binary_round, shl_align.
  rewrite Z.add_0_r, Hf by (fold g; lia). fold g. rewrite Z.sub_0_r.
  destruct (Zpos g - 53)%Z as [|d|d] eqn:Ed; [|lia|].
  - exists p, 0%Z. apply Haux; fold g; lia.
  - eexists _, _. apply Haux; [rewrite digits_iter; fold g; lia|lia].
Qed.
