(* ===== verification/Conc.v ===== *)
(** * Goroutines

    A call is a program of atomic sections: what runs under a mutex, or reads
    or writes one variable without it, is one action on the shared state.
    Between the actions other goroutines run.  Goroutines are started by name,
    so that they can be loops.  [alone] runs a program without interference;
    [step] and [run] interleave a pool of goroutines, and [eventually] says
    that every schedule that goes on reaches a goal. *)
From S2P Require Import Prelude.

Section prog.
Context {S L : Type}.

Inductive prog (A : Type) : Type :=
| Ret (a : A)
| Stop (e : goerr)                              (* the call returns an error *)
| Act {B : Type} (m : GM S B) (k : B → prog A)  (* an atomic section *)
| Wait (ready : S → bool) (k : prog A)          (* blocked until [ready] *)
| Select (ready : S → bool) (k other : prog A)  (* [k] when [ready], or [other] *)
| Go (l : L) (k : prog A)                       (* starts the goroutine [l] *)
| Goto (l : L).                                 (* goes on as the goroutine [l] *)
Arguments Ret {A} a.
Arguments Stop {A} e.
Arguments Act {A B} m k.
Arguments Wait {A} ready k.
Arguments Select {A} ready k other.
Arguments Go {A} l k.
Arguments Goto {A} l.

Fixpoint seq {A B} (p : prog A) (q : A → prog B) : prog B :=
  match p with
  | Ret a => q a
  | Stop e => Stop e
  | Act m k => Act m (λ b, seq (k b) q)
  | Wait g k => Wait g (seq k q)
  | Select g k o => Select g (seq k q) (seq o q)
  | Go l k => Go l (seq k q)
  | Goto l => Goto l
  end.

Definition act {B} (m : GM S B) : prog B := Act m Ret.

(** A call of which only the effect matters to its caller. *)
Fixpoint ignore {A} (p : prog A) : prog unit :=
  match p with
  | Ret _ | Stop _ => Ret tt
  | Act m k => Act (try m) (λ r, match r with inl _ => Ret tt | inr b => ignore (k b) end)
  | Wait g k => Wait g (ignore k)
  | Select g k o => Select g (ignore k) (ignore o)
  | Go l k => Go l (ignore k)
  | Goto l => Goto l
  end.

(** ** Without interference *)

(** The call returned, with the goroutines it started, or waits, or has become
    the goroutine [l]. *)
Inductive ran (A : Type) :=
| Returned (r : outcome A) (s : S) (started : list L)
| Blocked (s : S)
| Became (l : L) (s : S).
Arguments Returned {A} r s started.
Arguments Blocked {A} s.
Arguments Became {A} l s.

Fixpoint alone {A} (p : prog A) (s : S) (started : list L) : ran A :=
  match p with
  | Ret a => Returned (Ok a) s started
  | Stop e => Returned (Err e) s started
  | Act m k =>
      match m s with
      | (Ok b, s') => alone (k b) s' started
      | (Err e, s') => Returned (Err e) s' started
      | (Panic, s') => Returned Panic s' started
      end
  | Wait g k => if g s then alone k s started else Blocked s
  | Select g k o => if g s then alone k s started else alone o s started
  | Go l k => alone k s (started ++ [l])
  | Goto l => Became l s
  end.

Lemma alone_seq {A B} (p : prog A) (q : A → prog B) (s : S) (started : list L) :
  alone (seq p q) s started =
    match alone p s started with
    | Returned (Ok a) s' started' => alone (q a) s' started'
    | Returned (Err e) s' started' => Returned (Err e) s' started'
    | Returned Panic s' started' => Returned Panic s' started'
    | Blocked s' => Blocked s'
    | Became l s' => Became l s'
    end.
Proof.
  revert s started. induction p as [a|e|C m k IH|g k IH|g k IHk o IHo|l k IH|l]; intros s started; simpl.
  - done.
  - done.
  - destruct (m s) as [[c|e|] s']; [apply IH|done..].
  - destruct (g s); [apply IH|done].
  - destruct (g s); [apply IHk|apply IHo].
  - apply IH.
  - done.
Qed.

(** ** A pool of goroutines *)
Context (body : L → prog unit).

Record conf := mkConf { shared : S; pool : list (prog unit) }.

(** One step of a goroutine: it goes on as another program, with the
    goroutines it starts; [sel] is the case it selects. *)
Inductive nxt := Goes (s : S) (p : prog unit) (started : list L) | Panics | Blocks.

Definition next (sel : bool) (p : prog unit) (s : S) : nxt :=
  match p with
  | Ret _ | Stop _ => Blocks
  | Act m k => match m s with
               | (Ok b, s') => Goes s' (k b) []
               | (Err e, s') => Goes s' (Stop e) []
               | (Panic, _) => Panics
               end
  | Wait g k => if g s then Goes s k [] else Blocks
  | Select g k o => if sel then if g s then Goes s k [] else Blocks else Goes s o []
  | Go l k => Goes s k [l]
  | Goto l => Goes s (body l) []
  end.

(** A panic ends the process. *)
Inductive move := Moved (c : conf) | Crashed | Stuck.

Definition step_at (i : nat * bool) (c : conf) : move :=
  match pool c !! i.1 with
  | None => Stuck
  | Some p =>
      match next i.2 p (shared c) with
      | Goes s p l => Moved (mkConf s (<[i.1 := p]> (pool c) ++ (body <$> l)))
      | Panics => Crashed
      | Blocks => Stuck
      end
  end.

Definition step (c c' : conf) : Prop := ∃ i, step_at i c = Moved c'.
Definition crashes (c : conf) : Prop := ∃ i, step_at i c = Crashed.

(** A schedule: the goroutine that runs next, and the case it selects. *)
Fixpoint run (sched : list (nat * bool)) (c : conf) : move :=
  match sched with
  | [] => Moved c
  | i :: sched' => match step_at i c with Moved c' => run sched' c' | r => r end
  end.

Lemma run_app (s1 s2 : list (nat * bool)) (c c1 : conf) :
  run s1 c = Moved c1 → run (s1 ++ s2) c = run s2 c1.
Proof.
  revert c. induction s1 as [|i s1 IH]; intros c; simpl; [by intros [= ->]|].
  destruct (step_at i c); [apply IH|done..].
Qed.

(** Every way to go on reaches [P], without a crash, and some way there is. *)
Inductive eventually (P : conf → Prop) (c : conf) : Prop :=
| ev_now : P c → eventually P c
| ev_step : (∃ c', step c c') → ¬ crashes c →
    (∀ c', step c c' → eventually P c') → eventually P c.

Lemma eventually_trans (P Q : conf → Prop) (c : conf) :
  eventually P c → (∀ c', P c' → eventually Q c') → eventually Q c.
Proof. induction 1 as [c Hp|c He Hc _ IH]; intros Hq; [by apply Hq|]. apply ev_step; auto. Qed.

Lemma eventually_weaken (P Q : conf → Prop) (c : conf) :
  eventually P c → (∀ c', P c' → Q c') → eventually Q c.
Proof. intros H Hpq. eapply eventually_trans; [done|]. intros c' ?. apply ev_now. auto. Qed.

(** Every step reaches a smaller measure: it goes on until [P]. *)
Lemma eventually_measure (I : nat → conf → Prop) (P : conf → Prop) :
  (∀ n c, I n c → P c ∨ (∃ c', step c c') ∧ ¬ crashes c ∧
                        ∀ c', step c c' → ∃ m, m < n ∧ I m c') →
  ∀ n c, I n c → eventually P c.
Proof.
  intros H n. induction (lt_wf n) as [n _ IH]. intros c Hc.
  destruct (H n c Hc) as [Hp|(He & Hcr & Hs)]; [by apply ev_now|].
  apply ev_step; [done..|]. intros c' (m & Hm & Hc')%Hs. by apply (IH m).
Qed.

(** Two goroutines. *)
Lemma step_pair (p q : prog unit) (s : S) (c : conf) :
  step (mkConf s [p; q]) c →
  (∃ sel s' p' l, next sel p s = Goes s' p' l ∧ c = mkConf s' ([p'; q] ++ (body <$> l))) ∨
  (∃ sel s' q' l, next sel q s = Goes s' q' l ∧ c = mkConf s' ([p; q'] ++ (body <$> l))).
Proof.
  intros [[i sel] Hs]. unfold step_at in Hs. simpl in Hs.
  destruct i as [|[|i]]; simpl in Hs; [| |done].
  - destruct (next sel p s) as [s' p' l| |] eqn:E; [|done..]. injection Hs as <-. left. by eauto 8.
  - destruct (next sel q s) as [s' p' l| |] eqn:E; [|done..]. injection Hs as <-. right. by eauto 8.
Qed.

Lemma crash_pair (p q : prog unit) (s : S) :
  crashes (mkConf s [p; q]) → ∃ sel, next sel p s = Panics ∨ next sel q s = Panics.
Proof.
  intros [[i sel] Hs]. unfold step_at in Hs. simpl in Hs. exists sel.
  destruct i as [|[|i]]; simpl in Hs; [| |done].
  - left. by destruct (next sel p s).
  - right. by destruct (next sel q s).
Qed.

Lemma pair_left (p q p' : prog unit) (s s' : S) sel l :
  next sel p s = Goes s' p' l → step (mkConf s [p; q]) (mkConf s' ([p'; q] ++ (body <$> l))).
Proof. intros H. exists (0, sel). unfold step_at. simpl. by rewrite H. Qed.
Lemma pair_right (p q q' : prog unit) (s s' : S) sel l :
  next sel q s = Goes s' q' l → step (mkConf s [p; q]) (mkConf s' ([p; q'] ++ (body <$> l))).
Proof. intros H. exists (1, sel). unfold step_at. simpl. by rewrite H. Qed.

Lemma run_left (p q p' : prog unit) (s s' : S) sel sched :
  next sel p s = Goes s' p' [] →
  run ((0, sel) :: sched) (mkConf s [p; q]) = run sched (mkConf s' [p'; q]).
Proof. intros H. simpl. unfold step_at. simpl. by rewrite H. Qed.
Lemma run_right (p q q' : prog unit) (s s' : S) sel sched :
  next sel q s = Goes s' q' [] →
  run ((1, sel) :: sched) (mkConf s [p; q]) = run sched (mkConf s' [p; q']).
Proof. intros H. simpl. unfold step_at. simpl. by rewrite H. Qed.

(** *** Invariants

    What every action of every goroutine preserves, whatever happened before,
    holds in every interleaving. *)
Fixpoint actions_ok (I : S → Prop) {A} (p : prog A) : Prop :=
  match p with
  | Ret _ | Stop _ | Goto _ => True
  | Act m k => ∀ s, I s → I (m s).2 ∧ ∀ b, (m s).1 = Ok b → actions_ok I (k b)
  | Wait _ k | Go _ k => actions_ok I k
  | Select _ k o => actions_ok I k ∧ actions_ok I o
  end.

Lemma actions_seq (I : S → Prop) {A B} (p : prog A) (q : A → prog B) :
  actions_ok I p → (∀ a, actions_ok I (q a)) → actions_ok I (seq p q).
Proof. intros Hp Hq. induction p; simpl in *; naive_solver. Qed.

Definition conf_ok (I : S → Prop) (c : conf) : Prop :=
  I (shared c) ∧ Forall (actions_ok I) (pool c).

Lemma actions_next (I : S → Prop) (sel : bool) (p p' : prog unit) (s s' : S) (l : list L) :
  (∀ l, actions_ok I (body l)) → actions_ok I p → I s → next sel p s = Goes s' p' l →
  I s' ∧ actions_ok I p'.
Proof.
  intros Hb Hok Hi. destruct p as [a|e|B m k|g k|g k o|g k|g]; simpl in *; try done.
  - destruct (Hok _ Hi) as [Hm Hk].
    destruct (m s) as [[b|e|] s1]; [|by intros [= <- <- <-]|done]. intros [= <- <- <-]. auto.
  - destruct (g s); [|done]. by intros [= <- <- <-].
  - destruct Hok as [Hk Ho]. destruct sel; [destruct (g s); [|done]|]; by intros [= <- <- <-].
  - by intros [= <- <- <-].
  - by intros [= <- <- <-].
Qed.

Lemma conf_ok_step (I : S → Prop) (c c' : conf) :
  (∀ l, actions_ok I (body l)) → step c c' → conf_ok I c → conf_ok I c'.
Proof.
  intros Hb [i Hs] [Hi Hp]. unfold step_at in Hs.
  destruct (pool c !! i.1) as [p|] eqn:El; [|done].
  destruct (next i.2 p (shared c)) as [s p' l| |] eqn:En; [|done..]. injection Hs as <-.
  pose proof (proj1 (Forall_lookup _ _) Hp _ _ El) as Hok.
  destruct (actions_next _ _ _ _ _ _ _ Hb Hok Hi En) as [Hi' Hp']. split; [done|].
  apply Forall_app. split; [by apply Forall_insert|]. apply Forall_fmap, Forall_forall. auto.
Qed.

Lemma conf_ok_run (I : S → Prop) (sched : list (nat * bool)) (c c' : conf) :
  (∀ l, actions_ok I (body l)) → run sched c = Moved c' → conf_ok I c → conf_ok I c'.
Proof.
  intros Hb. revert c. induction sched as [|i sched IH]; intros c; simpl; [by intros [= ->]|].
  destruct (step_at i c) as [c1| |] eqn:E; intros Hr Hc; try done.
  apply (IH c1 Hr). eapply conf_ok_step; [done|by exists i|done].
Qed.
End prog.
Arguments prog : clear implicits.
Arguments Ret {S L A} a.
Arguments Stop {S L A} e.
Arguments Act {S L A B} m k.
Arguments Wait {S L A} ready k.
Arguments Select {S L A} ready k other.
Arguments Go {S L A} l k.
Arguments Goto {S L A} l.
Arguments Returned {S L A} r s started.
Arguments Blocked {S L A} s.
Arguments Became {S L A} l s.
Arguments ran : clear implicits.
Arguments conf : clear implicits.
Arguments move : clear implicits.
Arguments nxt : clear implicits.
Arguments Goes {S L} s p started.
Arguments Panics {S L}.
Arguments Blocks {S L}.
Arguments Moved {S L} c.
Arguments Crashed {S L}.
Arguments Stuck {S L}.

Notation "'do!' x := p 'in' k" := (seq p (λ x, k))
  (at level 10, x pattern, k at level 200) : go_scope.
Notation "p '>>' k" := (seq p (λ _, k)) (at level 100, right associativity) : go_scope.
