(* ===== verification/Kv.v ===== *)
(** * The badger key/value store, as an interface

    Package badger is not part of the repository: [badgerdb/] calls it through
    [badger.Txn] and its iterators.  This file states what the calls promise
    (a typeclass of operations and a typeclass of their laws) and gives an
    instance over finite maps that meets the laws. *)
From S2P Require Import Prelude.

(** ** Byte-wise key order *)

Fixpoint blt (a b : bytes) : bool :=
  match a, b with
  | [], [] => false
  | [], _ :: _ => true
  | _ :: _, [] => false
  | x :: a', y :: b' =>
      if decide (x = y) then blt a' b' else (Byte.to_N x <? Byte.to_N y)%N
  end.

Lemma byte_to_N_inj x y : Byte.to_N x = Byte.to_N y → x = y.
Proof.
  intros H. apply (f_equal Byte.of_N) in H. rewrite !Byte.of_to_N in H. congruence.
Qed.

Lemma blt_irrefl a : blt a a = false.
Proof. induction a; simpl; [done|]. by rewrite decide_True by done. Qed.

Lemma blt_trans a b c : blt a b = true → blt b c = true → blt a c = true.
Proof.
  revert b c. induction a as [|x a IH]; intros [|y b] [|z c]; simpl; try done.
  destruct (decide (x = y)), (decide (y = z)), (decide (x = z));
    subst; try done; rewrite ?N.ltb_lt; eauto; try lia.
Qed.

Lemma blt_total a b : blt a b = false → blt b a = false → a = b.
Proof.
  revert b. induction a as [|x a IH]; intros [|y b]; simpl; try done.
  destruct (decide (x = y)), (decide (y = x)); subst; try done.
  - intros. f_equal. by apply IH.
  - rewrite !N.ltb_ge. intros. exfalso. assert (x = y); [|done].
    apply byte_to_N_inj. lia.
Qed.

Lemma blt_prefix p k : p `prefix_of` k → blt k p = false.
Proof.
  intros [k' ->]. induction p; simpl; [by destruct k'|].
  by rewrite decide_True by done.
Qed.

(** Past the last key with prefix [p] no key has prefix [p]. *)
Lemma blt_past_prefix p k k' :
  blt k p = false → ¬ p `prefix_of` k → blt k k' = true → ¬ p `prefix_of` k'.
Proof.
  intros Hkp Hnp Hkk' [q ->]. revert k Hkp Hnp Hkk'.
  induction p as [|x p IH]; intros k Hkp Hnp Hkk'.
  - apply Hnp, prefix_nil.
  - destruct k as [|y k]; [done|]. revert Hkp Hnp Hkk'. simpl.
    destruct (decide (y = x)) as [->|Hne]; [|rewrite N.ltb_ge, N.ltb_lt; lia].
    intros Hkp Hnp. apply IH; [done|]. intros Hpre. by apply Hnp, prefix_cons.
Qed.

(** ** Items and iterators *)

Record Item := mkItem { item_key : bytes; item_meta : byte; item_value : goerr + bytes }.

Definition item_lt (i j : Item) : Prop := blt (item_key i) (item_key j) = true.

#[export] Instance item_lt_trans : Transitive item_lt.
Proof. intros i j k. apply blt_trans. Qed.

(** [it.Seek(p)]: go to the first key not below [p]. *)
Fixpoint it_seek (p : bytes) (l : list Item) : list Item :=
  match l with
  | [] => []
  | i :: l' => if blt (item_key i) p then it_seek p l' else l
  end.

Definition has_prefix (p : bytes) (i : Item) : Prop := p `prefix_of` item_key i.
#[export] Instance has_prefix_dec p i : Decision (has_prefix p i).
Proof. unfold has_prefix. apply _. Defined.

(** [it.ValidForPrefix(p)] at the head of what is left to visit. *)
Definition valid_for_prefix (p : bytes) (l : list Item) : bool :=
  match l with [] => false | i :: _ => bool_decide (has_prefix p i) end.

(** The items visited by [for it.Seek(p); it.ValidForPrefix(p); it.Next()]. *)
Fixpoint it_while (p : bytes) (l : list Item) : list Item :=
  match l with
  | [] => []
  | i :: l' => if decide (has_prefix p i) then i :: it_while p l' else []
  end.

Definition it_scan (p : bytes) (l : list Item) : list Item := it_while p (it_seek p l).

Lemma it_while_filter p l :
  StronglySorted item_lt l → Forall (λ i, blt (item_key i) p = false) l →
  it_while p l = filter (has_prefix p) l.
Proof.
  induction 1 as [|i l Hss IH Hall]; intros Hge; [done|].
  apply Forall_cons in Hge as [Hi Hge]. simpl.
  rewrite filter_cons. destruct (decide (has_prefix p i)) as [Hp|Hp].
  - f_equal. by apply IH.
  - symmetry. apply filter_none. intros j Hj.
    rewrite Forall_forall in Hall. specialize (Hall j Hj).
    by eapply blt_past_prefix.
Qed.

(** A prefix scan of a sorted store visits exactly the keys with the prefix. *)
Lemma it_scan_filter p l :
  StronglySorted item_lt l → it_scan p l = filter (has_prefix p) l.
Proof.
  unfold it_scan. induction 1 as [|i l Hss IH Hall]; [done|]. simpl.
  rewrite filter_cons.
  destruct (blt (item_key i) p) eqn:Hlt.
  - rewrite IH, decide_False; [done|]. intros Hp.
    apply blt_prefix in Hp. congruence.
  - assert (Hge : Forall (λ j, blt (item_key j) p = false) (i :: l)).
    { constructor; [done|]. eapply Forall_impl; [exact Hall|]. intros j Hij.
      destruct (blt (item_key j) p) eqn:Hjp; [|done].
      rewrite (blt_trans _ _ _ Hij Hjp) in Hlt. done. }
    rewrite it_while_filter, filter_cons by (done || by constructor).
    done.
Qed.

(** ** The interface

    [txn_set] is [Txn.SetWithMeta] ([Txn.Set] passes meta 0), [txn_items] what a
    forward iterator created now visits, in order, and [txn_snapshot] the
    transaction [DB.NewTransaction(false)] would return now: it sees the
    committed pairs only. *)
Class BadgerTxn (T : Type) := {
  txn_get : T → bytes → goerr + Item;
  txn_set : T → bytes → bytes → byte → option goerr * T;
  txn_delete : T → bytes → option goerr * T;
  txn_items : T → list Item;
  txn_snapshot : T → T;
  txn_commit : T → option goerr * T;
  txn_discard : T → T
}.

Definition ErrKeyNotFound : goerr := ELib "badger.ErrKeyNotFound".

Class BadgerLaws (T : Type) `{!BadgerTxn T} := {
  get_key t k i : txn_get t k = inr i → item_key i = k;
  set_ok t k v m t' : txn_set t k v m = (None, t') →
    ∀ k', txn_get t' k' =
      if decide (k' = k) then inr (mkItem k m (inr v)) else txn_get t k';
  set_fail t k v m e t' : txn_set t k v m = (Some e, t') → t' = t;
  delete_ok t k t' : txn_delete t k = (None, t') →
    ∀ k', txn_get t' k' = if decide (k' = k) then inl ErrKeyNotFound else txn_get t k';
  delete_fail t k e t' : txn_delete t k = (Some e, t') → t' = t;
  items_get t i : i ∈ txn_items t ↔ txn_get t (item_key i) = inr i;
  items_sorted t : StronglySorted item_lt (txn_items t);
  set_snapshot t k v m : txn_snapshot (txn_set t k v m).2 = txn_snapshot t;
  delete_snapshot t k : txn_snapshot (txn_delete t k).2 = txn_snapshot t;
  (* a transaction that is committed or discarded shows nothing new; what is
     committed was so before, or is the transaction's *)
  commit_reads t e t' k i : txn_commit t = (e, t') → txn_get t' k = inr i → txn_get t k = inr i;
  commit_snapshot t e t' k i : txn_commit t = (e, t') → txn_get (txn_snapshot t') k = inr i →
    txn_get t k = inr i ∨ txn_get (txn_snapshot t) k = inr i;
  discard_reads t k i : txn_get (txn_discard t) k = inr i → txn_get t k = inr i;
  discard_snapshot t : txn_snapshot (txn_discard t) = txn_snapshot t
}.

(** ** An instance: a transaction as two finite maps *)

Record MemTxn := mkMemTxn {
  mem_committed : gmap bytes (byte * bytes);
  mem_view : gmap bytes (byte * bytes);
  mem_writable : bool
}.

(** The total preorder of items by key, for sorting. *)
Definition item_le (i j : Item) : Prop := blt (item_key j) (item_key i) = false.

#[export] Instance item_le_dec i j : Decision (item_le i j).
Proof. unfold item_le. apply _. Defined.

#[export] Instance item_le_trans : Transitive item_le.
Proof.
  intros i j k. unfold item_le. intros Hij Hjk.
  destruct (blt (item_key k) (item_key i)) eqn:Hki; [|done].
  destruct (blt (item_key j) (item_key k)) eqn:Hjk'.
  - rewrite (blt_trans _ _ _ Hjk' Hki) in Hij. done.
  - rewrite (blt_total _ _ Hjk' Hjk) in Hij. congruence.
Qed.

#[export] Instance item_le_total : Total item_le.
Proof.
  intros i j. unfold item_le.
  destruct (blt (item_key j) (item_key i)) eqn:Hji; [|by left].
  right. destruct (blt (item_key i) (item_key j)) eqn:Hij; [|done].
  pose proof (blt_trans _ _ _ Hij Hji). by rewrite blt_irrefl in *.
Qed.

Definition mem_items (m : gmap bytes (byte * bytes)) : list Item :=
  merge_sort item_le
    ((λ '(k, (mt, v)), mkItem k mt (inr v)) <$> map_to_list m).

#[export] Instance mem_badger : BadgerTxn MemTxn := {
  txn_get t k :=
    match mem_view t !! k with
    | Some (mt, v) => inr (mkItem k mt (inr v))
    | None => inl ErrKeyNotFound
    end;
  txn_set t k v mt :=
    if mem_writable t then
      (None, mkMemTxn (mem_committed t) (<[k := (mt, v)]> (mem_view t)) true)
    else (Some (ELib "badger.ErrReadOnlyTxn"), t);
  txn_delete t k :=
    if mem_writable t then
      (None, mkMemTxn (mem_committed t) (delete k (mem_view t)) true)
    else (Some (ELib "badger.ErrReadOnlyTxn"), t);
  txn_items t := mem_items (mem_view t);
  txn_snapshot t := mkMemTxn (mem_committed t) (mem_committed t) false;
  txn_commit t :=
    (None, mkMemTxn (if mem_writable t then mem_view t else mem_committed t) ∅ false);
  txn_discard t := mkMemTxn (mem_committed t) ∅ false
}.

Lemma elem_of_mem_items m i :
  i ∈ mem_items m ↔ ∃ mt v, m !! item_key i = Some (mt, v)
                            ∧ i = mkItem (item_key i) mt (inr v).
Proof.
  unfold mem_items. rewrite merge_sort_Permutation, list_elem_of_fmap. split.
  - intros ([k [mt v]] & -> & Hin). apply elem_of_map_to_list in Hin. simpl. eauto.
  - intros (mt & v & Hl & Heq). exists (item_key i, (mt, v)).
    by rewrite elem_of_map_to_list.
Qed.

Lemma mem_items_sorted m : StronglySorted item_lt (mem_items m).
Proof.
  unfold mem_items.
  set (l := _ <$> map_to_list m).
  assert (Hnd : NoDup (item_key <$> merge_sort item_le l)).
  { rewrite merge_sort_Permutation. subst l. rewrite <- list_fmap_compose.
    replace (_ <$> map_to_list m) with (fst <$> map_to_list m).
    - apply NoDup_fst_map_to_list.
    - apply list_fmap_ext. by intros _ [k [mt v]] _. }
  pose proof (StronglySorted_merge_sort item_le l) as Hss.
  induction Hss as [|i l' Hss IH Hall]; [constructor|].
  apply NoDup_cons in Hnd as [Hni Hnd]. constructor; [by apply IH|].
  apply Forall_forall. intros j Hj. rewrite Forall_forall in Hall.
  specialize (Hall j Hj). unfold item_le in Hall. unfold item_lt.
  destruct (blt (item_key i) (item_key j)) eqn:Hij; [done|].
  destruct Hni. rewrite (blt_total _ _ Hij Hall). by apply list_elem_of_fmap_2.
Qed.

#[export] Instance mem_badger_laws : BadgerLaws MemTxn.
Proof.
  split; simpl.
  - intros t k i. destruct (mem_view t !! k) as [[mt v]|]; by intros [= <-].
  - intros t k v m t' H k'. destruct (mem_writable t); simplify_eq/=.
    rewrite lookup_insert. repeat case_decide; congruence.
  - intros t k v m e t' H. by destruct (mem_writable t); simplify_eq/=.
  - intros t k t' H k'. destruct (mem_writable t); simplify_eq/=.
    rewrite lookup_delete. repeat case_decide; congruence.
  - intros t k e t' H. by destruct (mem_writable t); simplify_eq/=.
  - intros t [k mt v]. rewrite elem_of_mem_items. simpl. split.
    + intros (mt' & v' & Hl & Heq). simplify_eq. by rewrite Hl.
    + destruct (mem_view t !! k) as [[mt' v']|]; intros; simplify_eq. eauto.
  - intros t. apply mem_items_sorted.
  - intros t k v m. by destruct (mem_writable t).
  - intros t k. by destruct (mem_writable t).
  - intros t e t' k i [= <- <-]. simpl. by rewrite lookup_empty.
  - intros t e t' k i [= <- <-]. simpl. destruct (mem_writable t); auto.
  - intros t k i. simpl. by rewrite lookup_empty.
  - done.
Qed.

(** An empty database with an open transaction. *)
Definition mem_empty (writable : bool) : MemTxn := mkMemTxn ∅ ∅ writable.
