(* ===== verification/Badger.v ===== *)
(** * [badgerdb/]: wallet database buckets on top of badger

    [badgerdb/bucket.go] and [badgerdb/db.go] keep nested buckets in one flat
    key space.  A bucket is a key prefix; the entry of key [k] of bucket [p] is
    stored under [p ++ k], its value starting with one byte that holds the
    length of [p].  [World] is what a [transaction] and its buckets share: the
    [closed] flag of the database, the badger transaction, and the fields of
    [transaction].  [Bucket.buckets] is only read by [setTx], which nothing
    calls; both are left out.  Keys are values here; [Alias] shows when that is
    right. *)
From S2P Require Import Prelude Kv.

Definition maxKeySize : Z := 65378.
Definition metaBucket : byte := x05.

(** A [Bucket] is its prefix: the other fields are the transaction's. *)
Record Bucket := mkBucket { b_prefix : bytes }.

#[export] Instance Bucket_eq_dec : EqDecision Bucket.
Proof. solve_decision. Defined.

(** ** Errors *)

Definition invalidErrs : list goerr := ELib <$>
  ["badger.ErrValueLogSize"; "badger.ErrValueThreshold"; "badger.ErrTxnTooBig";
   "badger.ErrReadOnlyTxn"; "badger.ErrDiscardedTxn"; "badger.ErrEmptyKey";
   "badger.ErrThresholdZero"; "badger.ErrRejected"; "badger.ErrInvalidRequest";
   "badger.ErrManagedTxn"; "badger.ErrInvalidDump"; "badger.ErrZeroBandwidth";
   "badger.ErrInvalidLoadingMode"; "badger.ErrWindowsNotSupported";
   "badger.ErrReplayNeeded"; "badger.ErrTruncateNeeded"]%string.

Definition ioErrs : list goerr := ELib <$>
  ["badger.ErrConflict"; "badger.ErrRetry"; "badger.ErrNoRewrite"]%string.

Definition convertErr1 (err : goerr) : goerr :=
  let kind :=
    if decide (err ∈ invalidErrs) then KInvalid
    else if decide (err = ErrKeyNotFound) then KNotExist
    else if decide (err ∈ ioErrs) then KIO
    else KOther in
  EWrap kind err.

(** [convertErr(nil)] is [nil]. *)
Definition convertErr (err : option goerr) : option goerr := convertErr1 <$> err.

(** [return convertErr(m)]: the error of [m] goes through [convertErr]. *)
Definition converting {S A} (m : GM S A) : GM S A := λ s,
  match m s with
  | (Err e, s') => (Err (convertErr1 e), s')
  | r => r
  end.

(** ** Keys and values *)

Definition insertPrefixLength (val : bytes) (len : nat) : bytes :=
  byte_of_nat len :: val.

Definition addPrefix (prefix key : bytes) : goerr + bytes :=
  if decide ((maxKeySize < zlen key)%Z) then inl (EKind KInvalid "key too long")
  else inr (prefix ++ key).

(** [k[:n]] on a slice of the length of [k]; [None] is the bounds panic. *)
Definition slice_to (k : bytes) (n : nat) : option bytes :=
  if decide (n ≤ length k) then Some (take n k) else None.

(** The test [prefixLength := int(v[0]); bytes.Equal(key[:prefixLength], p)]
    that the loops make on each item, with the length it read. *)
Definition owned_by (p key v : bytes) : outcome (bool * nat) :=
  match v with
  | [] => Panic
  | n :: _ =>
      match slice_to key (nat_of_byte n) with
      | None => Panic
      | Some owner => Ok (bool_decide (owner = p), nat_of_byte n)
      end
  end.

Section Badger.
Context {T : Type} `{!BadgerTxn T}.

Record World := mkWorld {
  w_closed : bool;          (* db.closed *)
  w_txn : T;                (* tx.badgerTx, and the txn of each bucket *)
  w_writable : bool;        (* tx.writable *)
  w_discarded : bool;       (* tx.isDiscarded *)
  w_buckets : list Bucket   (* tx.buckets *)
}.

Definition set_txn (t : T) (w : World) : World :=
  mkWorld (w_closed w) t (w_writable w) (w_discarded w) (w_buckets w).
Definition set_buckets (l : list Bucket) (w : World) : World :=
  mkWorld (w_closed w) (w_txn w) (w_writable w) (w_discarded w) l.

Definition txnSet (k v : bytes) (m : byte) : GM World (option goerr) := λ w,
  let '(e, t) := txn_set (w_txn w) k v m in (Ok e, set_txn t w).
Definition txnDelete (k : bytes) : GM World (option goerr) := λ w,
  let '(e, t) := txn_delete (w_txn w) k in (Ok e, set_txn t w).

(** ** bucket.go *)

(** The error for a key that is no bucket is built and dropped. *)
Definition newBucket (badgerKey : bytes) : GM World Bucket :=
  let! r := gets (λ w, txn_get (w_txn w) badgerKey) in
  match r with
  | inl err =>
      if decide (err = ErrKeyNotFound) then
        let! err := txnSet badgerKey (insertPrefixLength [] (length badgerKey)) metaBucket in
        match err with
        | Some err => fail (convertErr1 err)
        | None => ret (mkBucket badgerKey)
        end
      else fail (convertErr1 err)
  | inr item =>
      let _dropped := if decide (item_meta item = metaBucket) then None
                      else Some (EKind KInvalid "key is not associated with a bucket") in
      ret (mkBucket badgerKey)
  end.

Definition bucket (b : Bucket) (key : bytes) (errorIfExists : bool) : GM World Bucket :=
  if decide (length key = 0) then fail (EKind KInvalid "key is empty")
  else match addPrefix (b_prefix b) key with
  | inl err => fail err
  | inr copiedKey =>
      let! r := gets (λ w, txn_get (w_txn w) copiedKey) in
      match r with
      | inl _ =>
          let! err := txnSet copiedKey
            (insertPrefixLength [] (length (b_prefix b))) metaBucket in
          match err with
          | Some err => fail (convertErr1 err)
          | None => ret (mkBucket copiedKey)
          end
      | inr item =>
          if decide (item_meta item = metaBucket) then
            if errorIfExists then fail (EKind KExist "bucket already exists")
            else ret (mkBucket copiedKey)
          else fail (EKind KInvalid "key is not associated with a bucket")
      end
  end.

(** The deletion loop of [dropBucket] and [DeleteTopLevelBucket]: delete the
    visited items whose owner is [owner]; results of [Delete] are ignored. *)
Fixpoint delete_owned (owner : bytes) (items : list Item) : GM World unit :=
  match items with
  | [] => ret tt
  | item :: items' =>
      match item_value item with
      | inl _ => delete_owned owner items'
      | inr val =>
          match owned_by owner (item_key item) val with
          | Ok (true, _) => txnDelete (item_key item) ;; delete_owned owner items'
          | Ok (false, _) => delete_owned owner items'
          | _ => panic
          end
      end
  end.

(** The loop reads a fresh read-only transaction, and compares with the prefix
    of the parent bucket [b]. *)
Definition dropBucket (b : Bucket) (key : bytes) : GM World unit :=
  let! writable := gets w_writable in
  if negb writable then
    fail (EKind KInvalid "cannot delete nested bucket in a read-only transaction")
  else match addPrefix (b_prefix b) key with
  | inl err => fail err
  | inr prefix =>
      let! r := gets (λ w, txn_get (w_txn w) prefix) in
      match r with
      | inl err => fail (convertErr1 err)
      | inr item =>
          if decide (item_meta item ≠ metaBucket) then
            fail (EKind KInvalid "key is not associated with a bucket")
          else
            txnDelete (item_key item) ;;
            let! items := gets (λ w, txn_items (txn_snapshot (w_txn w))) in
            delete_owned (b_prefix b) (it_scan prefix items)
      end
  end.

(** [None] is the nil slice. *)
Definition get (b : Bucket) (key : bytes) : GM World (option bytes) :=
  if decide (length key = 0) then ret None
  else match addPrefix (b_prefix b) key with
  | inl _ => ret None
  | inr k =>
      let! r := gets (λ w, txn_get (w_txn w) k) in
      match r with
      | inl _ => ret None
      | inr item =>
          match item_value item with
          | inl _ => ret None
          | inr [] => panic
          | inr (_ :: val) => ret (Some val)
          end
      end
  end.

Definition put (b : Bucket) (key value : bytes) : GM World unit :=
  if decide (length key = 0) then fail (EKind KInvalid "key is empty")
  else if decide ((maxKeySize < zlen key)%Z) then fail (EKind KInvalid "key is too large")
  else match addPrefix (b_prefix b) key with
  | inl err => fail err
  | inr k =>
      let! err := txnSet k (insertPrefixLength value (length (b_prefix b))) x00 in
      check err
  end.

Definition delete (b : Bucket) (key : bytes) : GM World unit :=
  if decide (length key = 0) then ret tt
  else match addPrefix (b_prefix b) key with
  | inl err => fail err
  | inr k =>
      let! err := txnDelete k in
      if decide (err = Some ErrKeyNotFound) then ret tt else check err
  end.

(** The callback threads a state of its own, and may fail.  The pair it gets
    has a nil value for a nested bucket. *)
Fixpoint forEach_loop {A} (p : bytes) (fn : bytes → option bytes → GM A unit)
    (items : list Item) : GM A unit :=
  match items with
  | [] => ret tt
  | item :: items' =>
      let k := item_key item in
      if decide (k = p) then forEach_loop p fn items'
      else match item_value item with
      | inl err => fail (convertErr1 err)
      | inr v =>
          match owned_by p k v with
          | Ok (true, prefixLength) =>
              fn (drop prefixLength k)
                 (if decide (item_meta item = metaBucket) then None else Some (drop 1 v)) ;;
              forEach_loop p fn items'
          | Ok (false, _) => forEach_loop p fn items'
          | _ => panic
          end
      end
  end.

Definition forEach {A} (b : Bucket) (fn : bytes → option bytes → GM A unit)
    (w : World) : GM A unit :=
  forEach_loop (b_prefix b) fn (it_scan (b_prefix b) (txn_items (w_txn w))).

(** ** db.go: transactions *)

Definition appendBucket (b : Bucket) : GM World unit :=
  modify (λ w, set_buckets (w_buckets w ++ [b]) w).

Definition ReadWriteBucket (key : bytes) : GM World (option Bucket) :=
  let! closed := gets w_closed in
  if (closed : bool) then ret None else
  let! r := gets (λ w, txn_get (w_txn w) key) in
  match r with
  | inl _ => ret None
  | inr item =>
      if decide (item_meta item ≠ metaBucket) then ret None
      else appendBucket (mkBucket key) ;; ret (Some (mkBucket key))
  end.

Definition ReadBucket (key : bytes) : GM World (option Bucket) :=
  let! closed := gets w_closed in
  if (closed : bool) then ret None else ReadWriteBucket key.

Definition CreateTopLevelBucket (key : bytes) : GM World Bucket :=
  let! closed := gets w_closed in
  if (closed : bool) then fail (EKind KInvalid "") else
  let! bucket := newBucket key in
  appendBucket bucket ;; ret bucket.

(** [for i := range tx.buckets { if prefix == key { remove i; break } }] *)
Fixpoint remove_first (key : bytes) (l : list Bucket) : list Bucket :=
  match l with
  | [] => []
  | b :: l' => if decide (b_prefix b = key) then l' else b :: remove_first key l'
  end.

Definition DeleteTopLevelBucket (key : bytes) : GM World unit :=
  let! closed := gets w_closed in
  if (closed : bool) then fail (EKind KInvalid "") else
  let! r := gets (λ w, txn_get (w_txn w) key) in
  match r with
  | inl err => fail (convertErr1 err)
  | inr item =>
      if decide (item_meta item ≠ metaBucket) then fail (EKind KInvalid "")
      else
        txnDelete (item_key item) ;;
        let! items := gets (λ w, txn_items (w_txn w)) in
        delete_owned key (it_scan key items) ;;
        modify (λ w, set_buckets (remove_first key (w_buckets w)) w)
  end.

Definition Commit : GM World unit :=
  let! closed := gets w_closed in
  if (closed : bool) then fail (EKind KInvalid "") else
  let! err := (λ w, let '(e, t) := txn_commit (w_txn w) in (Ok e, set_txn t w)) in
  check (convertErr err).

Definition Rollback : GM World unit :=
  let! closed := gets w_closed in
  let! discarded := gets w_discarded in
  if (closed : bool) || (discarded : bool) then fail (EKind KInvalid "") else
  modify (λ w, mkWorld (w_closed w) (txn_discard (w_txn w)) (w_writable w) true
                       (w_buckets w)).

(** ** db.go: the exported methods of [Bucket] *)

Definition NestedReadWriteBucket (b : Bucket) (key : bytes) : GM World (option Bucket) :=
  let! closed := gets w_closed in
  if (closed : bool) then ret None else
  match addPrefix (b_prefix b) key with
  | inl _ => ret None
  | inr k =>
      let! r := gets (λ w, txn_get (w_txn w) k) in
      match r with
      | inl _ => ret None
      | inr item =>
          if decide (item_meta item ≠ metaBucket) then ret None
          else appendBucket (mkBucket k) ;; ret (Some (mkBucket k))
      end
  end.

Definition NestedReadBucket (b : Bucket) (key : bytes) : GM World (option Bucket) :=
  let! closed := gets w_closed in
  if (closed : bool) then ret None else NestedReadWriteBucket b key.

(** [if closed { return errors.E(errors.Invalid) }] in front of [m]. *)
Definition unless_closed {A} (m : GM World A) : GM World A :=
  let! closed := gets w_closed in
  if (closed : bool) then fail (EKind KInvalid "") else m.

Definition CreateBucket (b : Bucket) (key : bytes) : GM World Bucket :=
  unless_closed (bucket b key true).

Definition CreateBucketIfNotExists (b : Bucket) (key : bytes) : GM World Bucket :=
  unless_closed (bucket b key false).

(** [None] is the nil key. *)
Definition DeleteNestedBucket (b : Bucket) (key : option bytes) : GM World unit :=
  match key with
  | None => fail (EKind KInvalid "")
  | Some key => unless_closed (dropBucket b key)
  end.

Definition ForEach {A} (b : Bucket) (fn : bytes → option bytes → GM A unit)
    (w : World) : GM A unit :=
  if w_closed w then fail (EKind KInvalid "") else converting (forEach b fn w).

Definition Put (b : Bucket) (key value : bytes) : GM World unit :=
  unless_closed (converting (put b key value)).

Definition Get (b : Bucket) (key : bytes) : GM World (option bytes) :=
  let! closed := gets w_closed in
  if (closed : bool) then ret None else get b key.

Definition Delete (b : Bucket) (key : bytes) : GM World unit :=
  unless_closed (converting (delete b key)).

(** ** Well-formed stores

    Every stored value carries an owner length that fits its key.  All
    operations keep this, and under it no operation panics. *)
Definition wf_item (i : Item) : Prop :=
  match item_value i with
  | inl _ => True
  | inr v => ∃ n rest, v = n :: rest ∧ nat_of_byte n ≤ length (item_key i)
  end.

Definition wf_txn (t : T) : Prop := ∀ k i, txn_get t k = inr i → wf_item i.

Definition wf (w : World) : Prop := wf_txn (w_txn w) ∧ wf_txn (txn_snapshot (w_txn w)).

(** What a computation does to the world, and that it does not panic. *)
Definition safe_at {A} (w : World) (m : GM World A) : Prop :=
  ∀ r w', m w = (r, w') → wf w' ∧ r ≠ Panic.
Definition safe {A} (m : GM World A) : Prop := ∀ w, wf w → safe_at w m.

(** The item is recorded as an entry of the bucket with prefix [p]. *)
Definition is_owned (p : bytes) (i : Item) : bool :=
  match item_value i with
  | inr (n :: _) => bool_decide (take (nat_of_byte n) (item_key i) = p)
  | _ => false
  end.

(** ** The abstract view: nested maps

    [bview w p k] is the entry of local key [k] in bucket [p]: [Some None] for
    a nested bucket, [Some (Some v)] for a value. *)
Definition bview (w : World) (p k : bytes) : option (option bytes) :=
  match txn_get (w_txn w) (p ++ k) with
  | inr (mkItem _ m (inr (n :: rest))) =>
      if bool_decide (nat_of_byte n = length p ∧ k ≠ [])
      then Some (if decide (m = metaBucket) then None else Some rest)
      else None
  | _ => None
  end.

(** A callback that collects the pairs it is given. *)
Definition collect (k : bytes) (v : option bytes)
  : GM (list (bytes * option bytes)) unit := λ l, (Ok tt, l ++ [(k, v)]).

(** The calls of buckets and transactions, for statements over any sequence of
    them.  These open no iterator of the transaction, of which badger allows
    one at a time: a callback of [ForEach] can make them. *)
Inductive call :=
| OpPut (b : Bucket) (k v : bytes)
| OpGet (b : Bucket) (k : bytes)
| OpDelete (b : Bucket) (k : bytes)
| OpCreateBucket (b : Bucket) (k : bytes)
| OpCreateBucketIfNotExists (b : Bucket) (k : bytes)
| OpDeleteNestedBucket (b : Bucket) (k : option bytes)
| OpNestedReadWriteBucket (b : Bucket) (k : bytes)
| OpNestedReadBucket (b : Bucket) (k : bytes)
| OpReadWriteBucket (k : bytes)
| OpReadBucket (k : bytes)
| OpCreateTopLevelBucket (k : bytes).

(** A callback is given by the calls it makes for a pair, and the error it
    returns. *)
Inductive op :=
| OpCall (c : call)
| OpForEach (b : Bucket) (fn : bytes → option bytes → list call * option goerr)
| OpDeleteTopLevelBucket (k : bytes)
| OpCommit
| OpRollback.

Definition discard_result {A} (m : GM World A) : GM World unit := m ;; ret tt.

Definition run_call (c : call) : GM World unit :=
  match c with
  | OpPut b k v => Put b k v
  | OpGet b k => discard_result (Get b k)
  | OpDelete b k => Delete b k
  | OpCreateBucket b k => discard_result (CreateBucket b k)
  | OpCreateBucketIfNotExists b k => discard_result (CreateBucketIfNotExists b k)
  | OpDeleteNestedBucket b k => DeleteNestedBucket b k
  | OpNestedReadWriteBucket b k => discard_result (NestedReadWriteBucket b k)
  | OpNestedReadBucket b k => discard_result (NestedReadBucket b k)
  | OpReadWriteBucket k => discard_result (ReadWriteBucket k)
  | OpReadBucket k => discard_result (ReadBucket k)
  | OpCreateTopLevelBucket k => discard_result (CreateTopLevelBucket k)
  end.

(** The callback goes on after a call that fails. *)
Fixpoint run_calls (cs : list call) : GM World unit :=
  match cs with
  | [] => ret tt
  | c :: cs => λ w, match run_call c w with
                    | (Panic, w) => (Panic, w)
                    | (_, w) => run_calls cs w
                    end
  end.

Definition run_op (o : op) : GM World unit :=
  match o with
  | OpCall c => run_call c
  | OpForEach b fn => λ w, ForEach b (λ k v, run_calls (fn k v).1 ;; check (fn k v).2) w w
  | OpDeleteTopLevelBucket k => DeleteTopLevelBucket k
  | OpCommit => Commit
  | OpRollback => Rollback
  end.

(** One call; an error leaves the world the call left and the caller goes on. *)
Definition step (w : World) (o : op) : World := (run_op o w).2.

(** ** Lemmas *)

Context `{!BadgerLaws T}.

Lemma safe_ret {A} (a : A) : safe (ret a).
Proof. by intros w Hw r w' [= <- <-]. Qed.
Lemma safe_fail {A} e : safe (@fail World A e).
Proof. by intros w Hw r w' [= <- <-]. Qed.
Lemma safe_gets {A} (f : World → A) : safe (gets f).
Proof. by intros w Hw r w' [= <- <-]. Qed.

(** [bind] under what its first call can return in a well-formed world. *)
Lemma safe_bind_gets {A B} (f : World → A) (k : A → GM World B) :
  (∀ w, wf w → safe_at w (k (f w))) → safe (bind (gets f) k).
Proof. intros Hk w Hw. by apply (Hk w Hw). Qed.

Lemma safe_bind {A B} (m : GM World A) (k : A → GM World B) :
  safe m → (∀ a, safe (k a)) → safe (bind m k).
Proof.
  intros Hm Hk w Hw r w'. unfold bind.
  destruct (m w) as [r1 w1] eqn:E. destruct (Hm _ Hw _ _ E) as [Hw1 Hr].
  destruct r1 as [a|e|]; [|by intros [= <- <-]|done]. by apply Hk.
Qed.

Lemma safe_check e : safe (check e).
Proof. destruct e; [apply safe_fail|apply safe_ret]. Qed.

Lemma safe_converting {A} (m : GM World A) : safe m → safe (converting m).
Proof.
  intros Hm w Hw r w'. unfold converting.
  destruct (m w) as [[a|e|] w1] eqn:E; intros [= <- <-];
    destruct (Hm _ Hw _ _ E); done.
Qed.

Lemma wf_txn_set t k v m n rest :
  v = n :: rest → nat_of_byte n ≤ length k → wf_txn t → wf_txn (txn_set t k v m).2.
Proof.
  intros -> Hn Hwf k' i. destruct (txn_set t k (n :: rest) m) as [[e|] t'] eqn:E; simpl.
  - apply set_fail in E as ->. apply Hwf.
  - rewrite (set_ok _ _ _ _ _ E). case_decide as Hk; [|apply Hwf].
    intros [= <-]. unfold wf_item; simpl. eauto.
Qed.

Lemma wf_txn_delete t k : wf_txn t → wf_txn (txn_delete t k).2.
Proof.
  intros Hwf k' i. destruct (txn_delete t k) as [[e|] t'] eqn:E; simpl.
  - apply delete_fail in E as ->. apply Hwf.
  - rewrite (delete_ok _ _ _ E). case_decide; [done|apply Hwf].
Qed.

Lemma byte_of_nat_le n : nat_of_byte (byte_of_nat n) ≤ n.
Proof. rewrite nat_of_byte_of_nat. apply Nat.Div0.mod_le. Qed.

Lemma safe_txnSet k val len m :
  len ≤ length k → safe (txnSet k (insertPrefixLength val len) m).
Proof.
  intros Hlen w [Hw Hs] r w'. unfold txnSet.
  pose proof (wf_txn_set (w_txn w) k (insertPrefixLength val len) m _ _ eq_refl
    (Nat.le_trans _ _ _ (byte_of_nat_le len) Hlen) Hw) as Hw'.
  pose proof (set_snapshot (w_txn w) k (insertPrefixLength val len) m) as Hsn.
  destruct (txn_set _ _ _ _) as [e t]. intros [= <- <-]. simpl in *.
  unfold wf; simpl. by rewrite Hsn.
Qed.

Lemma safe_txnDelete k : safe (txnDelete k).
Proof.
  intros w [Hw Hs] r w'. unfold txnDelete.
  pose proof (wf_txn_delete (w_txn w) k Hw) as Hw'.
  pose proof (delete_snapshot (w_txn w) k) as Hsn.
  destruct (txn_delete _ _) as [e t]. intros [= <- <-]. simpl in *.
  unfold wf; simpl. by rewrite Hsn.
Qed.

Lemma wf_owned p i v : wf_item i → item_value i = inr v →
  ∃ n rest, v = n :: rest ∧
    owned_by p (item_key i) v =
      Ok (is_owned p i, nat_of_byte n).
Proof.
  unfold wf_item, is_owned. intros Hi Hv. rewrite Hv in Hi |- *.
  destruct Hi as (n & rest & -> & Hn).
  exists n, rest. split; [done|]. unfold owned_by, slice_to. by rewrite decide_True by done.
Qed.

Lemma safe_delete_owned p l : Forall wf_item l → safe (delete_owned p l).
Proof.
  induction 1 as [|i l Hi Hl IH]; [apply safe_ret|]. simpl.
  destruct (item_value i) as [e|v] eqn:Hv; [done|].
  destruct (wf_owned p i v Hi Hv) as (n & rest & -> & ->).
  destruct (is_owned p i); [|done].
  apply safe_bind; [apply safe_txnDelete|]. intros _. apply IH.
Qed.

Lemma wf_scan t p : wf_txn t → Forall wf_item (it_scan p (txn_items t)).
Proof.
  intros Hwf. rewrite it_scan_filter by apply items_sorted.
  apply Forall_forall. intros i [_ Hi]%list_elem_of_filter.
  apply items_get in Hi. by eapply Hwf.
Qed.

Create HintDb safe.
Hint Resolve safe_ret safe_fail safe_gets safe_bind safe_check safe_converting
  safe_txnDelete safe_txnSet : safe.

(** Case analysis on the tests of an operation's body. *)
Ltac safe_step :=
  first
    [ progress intros
    | match goal with
      | |- safe (bind (gets (λ w, txn_items (@?f w))) _) => apply safe_bind_gets
      | |- safe (if decide ?P then _ else _) => destruct (decide P)
      | |- safe (if ?b then _ else _) => destruct b
      | |- safe (match addPrefix ?p ?k with _ => _ end) =>
          let E := fresh "E" in destruct (addPrefix p k) eqn:E
      | |- safe (match ?x with _ => _ end) => destruct x
      | |- safe (bind _ _) => apply safe_bind
      end
    | solve [eauto with safe] ].

Lemma addPrefix_inr p k k' : addPrefix p k = inr k' → k' = p ++ k.
Proof. unfold addPrefix. case_decide; naive_solver. Qed.

Lemma safe_bucket b k e : safe (bucket b k e).
Proof.
  unfold bucket. repeat safe_step; apply safe_txnSet.
  apply addPrefix_inr in E as ->. rewrite length_app. lia.
Qed.

Lemma safe_newBucket k : safe (newBucket k).
Proof. unfold newBucket. repeat safe_step; by apply safe_txnSet. Qed.

Lemma safe_put b k v : safe (put b k v).
Proof.
  unfold put. repeat safe_step. apply safe_txnSet.
  apply addPrefix_inr in E as ->. rewrite length_app. lia.
Qed.

Lemma safe_get b k : safe (get b k).
Proof.
  unfold get. case_decide; [apply safe_ret|].
  destruct (addPrefix _ _) as [e|k']; [apply safe_ret|].
  apply safe_bind_gets. intros w Hw.
  destruct (txn_get (w_txn w) k') as [e|i] eqn:Hg; [by apply safe_ret|].
  pose proof (proj1 Hw _ _ Hg) as Hi. unfold wf_item in Hi.
  destruct (item_value i); [by apply safe_ret|].
  destruct Hi as (n & rest & -> & _). by apply safe_ret.
Qed.

Lemma safe_delete b k : safe (delete b k).
Proof. unfold delete. repeat safe_step. Qed.

Lemma safe_dropBucket b k : safe (dropBucket b k).
Proof.
  unfold dropBucket. repeat safe_step.
  apply safe_delete_owned; [|done]. by apply wf_scan, H.
Qed.

Lemma safe_modify f :
  (∀ w, w_txn (f w) = w_txn w) → safe (modify f).
Proof.
  intros Hf w [Hw Hs] r w' [= <- <-]. unfold wf. by rewrite Hf.
Qed.

Lemma safe_DeleteTopLevelBucket k : safe (DeleteTopLevelBucket k).
Proof.
  unfold DeleteTopLevelBucket. repeat safe_step.
  apply safe_bind; [|intros _; by apply safe_modify|done].
  by apply safe_delete_owned, wf_scan, H.
Qed.

Lemma safe_run_call c : safe (run_call c).
Proof.
  destruct c; simpl; unfold discard_result, Put, Get, Delete, CreateBucket,
    CreateBucketIfNotExists, DeleteNestedBucket, NestedReadBucket, NestedReadWriteBucket,
    ReadBucket, ReadWriteBucket, CreateTopLevelBucket, unless_closed, appendBucket;
    repeat safe_step;
    first [apply safe_converting | idtac];
    first [ apply safe_put | apply safe_get | apply safe_delete | apply safe_bucket
          | apply safe_dropBucket | apply safe_newBucket | by apply safe_modify ].
Qed.

Lemma safe_run_calls cs : safe (run_calls cs).
Proof.
  induction cs as [|c cs IH]; [apply safe_ret|]. intros w Hw r w'. simpl.
  destruct (run_call c w) as [r1 w1] eqn:E. destruct (safe_run_call c _ Hw _ _ E) as [Hw1 Hr].
  destruct r1; [by apply IH..|done].
Qed.

Lemma safe_forEach_loop p (fn : bytes → option bytes → GM World unit) l :
  (∀ k v, safe (fn k v)) → Forall wf_item l → safe (forEach_loop p fn l).
Proof.
  intros Hfn. induction 1 as [|i l Hi Hl IH]; [apply safe_ret|]. cbn [forEach_loop].
  case_decide; [done|]. destruct (item_value i) as [e|v] eqn:Hv; [apply safe_fail|].
  destruct (wf_owned p i v Hi Hv) as (n & rest & -> & ->).
  destruct (is_owned p i); [|done]. apply safe_bind; [apply Hfn|]. intros _. apply IH.
Qed.

Lemma safe_ForEach b (fn : bytes → option bytes → GM World unit) :
  (∀ k v, safe (fn k v)) → safe (λ w, ForEach b fn w w).
Proof.
  intros Hfn w Hw. unfold safe_at, ForEach. destruct (w_closed w); [by apply safe_fail|].
  apply (safe_converting (forEach b fn w)); [|done].
  apply safe_forEach_loop; [done|]. apply wf_scan, Hw.
Qed.

Lemma safe_Commit : safe Commit.
Proof.
  unfold Commit. apply safe_bind; [apply safe_gets|]. intros [|]; [apply safe_fail|].
  apply safe_bind; [|intros e; apply safe_check]. intros w [Hw Hs] r w'.
  destruct (txn_commit (w_txn w)) as [e t] eqn:E. intros [= <- <-]. split; [|done].
  split; intros k i; simpl; intros Hg.
  - eapply Hw, commit_reads; eauto.
  - destruct (commit_snapshot _ _ _ _ _ E Hg) as [H|H]; [by eapply Hw|by eapply Hs].
Qed.

Lemma safe_Rollback : safe Rollback.
Proof.
  unfold Rollback. apply safe_bind; [apply safe_gets|]. intros c.
  apply safe_bind; [apply safe_gets|]. intros d. destruct (c || d); [apply safe_fail|].
  intros w [Hw Hs] r w' [= <- <-]. split; [|done]. split; simpl.
  - intros k i Hg. by eapply Hw, discard_reads.
  - by rewrite discard_snapshot.
Qed.

Lemma safe_run_op o : safe (run_op o).
Proof.
  destruct o; cbn [run_op].
  - apply safe_run_call.
  - apply safe_ForEach. intros k v. apply safe_bind; [apply safe_run_calls|].
    intros _. apply safe_check.
  - apply safe_DeleteTopLevelBucket.
  - apply safe_Commit.
  - apply safe_Rollback.
Qed.

(** *** The deletion loop *)

(** No deletion of a sequence fails: the transaction is open for writing and
    the sequence stays within its size limit. *)
Fixpoint deletes_ok (t : T) (ks : list bytes) : Prop :=
  match ks with
  | [] => True
  | k :: ks' => (txn_delete t k).1 = None ∧ deletes_ok (txn_delete t k).2 ks'
  end.

Lemma txnDelete_ok k w : (txn_delete (w_txn w) k).1 = None →
  ∃ t, txnDelete k w = (Ok None, set_txn t w) ∧
    t = (txn_delete (w_txn w) k).2 ∧
    ∀ k', txn_get t k' =
      if decide (k' = k) then inl ErrKeyNotFound else txn_get (w_txn w) k'.
Proof.
  unfold txnDelete. destruct (txn_delete _ _) as [e t] eqn:E. simpl. intros ->.
  exists t. split; [done|]. split; [done|]. by apply delete_ok.
Qed.

Lemma delete_owned_spec p l w :
  Forall wf_item l → (∀ ks, deletes_ok (w_txn w) ks) →
  ∃ t, delete_owned p l w = (Ok tt, set_txn t w) ∧
    ∀ k, txn_get t k =
      if decide (k ∈ item_key <$> filter (λ i, is_owned p i = true) l)
      then inl ErrKeyNotFound else txn_get (w_txn w) k.
Proof.
  intros Hl. revert w. induction Hl as [|i l Hi Hl IH]; intros w Hok.
  { exists (w_txn w). by destruct w. }
  cbn [delete_owned]. destruct (item_value i) as [e|v] eqn:Hv.
  { rewrite filter_cons_False; [by apply IH|]. unfold is_owned. by rewrite Hv. }
  destruct (wf_owned p i v Hi Hv) as (n & rest & -> & ->).
  destruct (is_owned p i) eqn:Ho.
  - rewrite filter_cons_True by done.
    destruct (txnDelete_ok (item_key i) w) as (t1 & Hd & Ht1 & Hget).
    { by destruct (Hok [item_key i]). }
    unfold bind at 1. rewrite Hd.
    destruct (IH (set_txn t1 w)) as (t & -> & Ht).
    { intros ks. simpl. rewrite Ht1. by destruct (Hok (item_key i :: ks)). }
    exists t. split; [by destruct w|]. intros k. rewrite Ht. simpl. rewrite Hget.
    repeat case_decide; set_solver.
  - rewrite filter_cons_False by congruence. by apply IH.
Qed.

(** The entry at [k] is recorded as an entry of bucket [p]. *)
Definition owned_at (t : T) (p k : bytes) : bool :=
  match txn_get t k with inr i => is_owned p i | inl _ => false end.

Lemma elem_of_owned_scan p q t k :
  k ∈ item_key <$> filter (λ i, is_owned p i = true) (it_scan q (txn_items t)) ↔
  q `prefix_of` k ∧ owned_at t p k = true.
Proof.
  rewrite it_scan_filter by apply items_sorted. unfold owned_at.
  rewrite list_elem_of_fmap. setoid_rewrite list_elem_of_filter.
  setoid_rewrite list_elem_of_filter. setoid_rewrite items_get. split.
  - intros (i & -> & Ho & Hp & Hg). by rewrite Hg.
  - intros (Hp & Ho). destruct (txn_get t k) as [e|i] eqn:Hg; [done|].
    pose proof (get_key _ _ _ Hg) as <-. eauto.
Qed.

(** The two deletion handlers: delete the bucket's own entry [q], then the
    items at or below [q] that [p] owns in the transaction [src] reads. *)
Lemma drop_run p q w (src : T → T) :
  let t1 := (txn_delete (w_txn w) q).2 in
  wf_txn (src t1) → (∀ ks, deletes_ok (w_txn w) ks) →
  ∃ t, (txnDelete q ;;
        let! items := gets (λ w, txn_items (src (w_txn w))) in
        delete_owned p (it_scan q items)) w = (Ok tt, set_txn t w) ∧
    ∀ k, txn_get t k =
      if decide (k = q ∨ q `prefix_of` k ∧ owned_at (src t1) p k = true)
      then inl ErrKeyNotFound else txn_get (w_txn w) k.
Proof.
  intros t1 Hwf Hok.
  destruct (txnDelete_ok q w) as (t1' & Hd & Ht1 & Hget1); [by destruct (Hok [q])|].
  subst t1'. fold t1 in Hd, Hget1.
  destruct (delete_owned_spec p (it_scan q (txn_items (src t1))) (set_txn t1 w))
    as (t & Hrun & Ht).
  { by apply wf_scan. }
  { intros ks. by destruct (Hok (q :: ks)). }
  exists t. unfold bind at 1. rewrite Hd. unfold bind, gets. simpl.
  rewrite Hrun. split; [by destruct w|]. intros k. rewrite Ht. simpl. rewrite Hget1.
  pose proof (elem_of_owned_scan p q (src t1) k). repeat case_decide; naive_solver.
Qed.

(** *** Views *)

Lemma bview_ext w w' p k :
  txn_get (w_txn w) (p ++ k) = txn_get (w_txn w') (p ++ k) →
  bview w p k = bview w' p k.
Proof. unfold bview. by intros ->. Qed.

(** An item in the view of [p] is owned by [p]. *)
Lemma bview_Some w p k x : bview w p k = Some x ↔
  ∃ m n rest, txn_get (w_txn w) (p ++ k) = inr (mkItem (p ++ k) m (inr (n :: rest))) ∧
    nat_of_byte n = length p ∧ k ≠ [] ∧
    x = if decide (m = metaBucket) then None else Some rest.
Proof.
  unfold bview. destruct (txn_get (w_txn w) (p ++ k)) as [e|[k' m v]] eqn:E.
  { naive_solver. }
  pose proof (get_key _ _ _ E) as Hk. simpl in Hk. subst k'.
  destruct v as [e|[|n rest]]; [naive_solver..|].
  case_bool_decide as Hn; [|naive_solver].
  split; [intros [= <-]; destruct Hn; eauto 10|naive_solver].
Qed.

Lemma is_owned_view p i k : is_owned p i = true → item_key i = p ++ k →
  ∃ n rest, item_value i = inr (n :: rest) ∧
    (nat_of_byte n ≤ length (item_key i) → nat_of_byte n = length p).
Proof.
  unfold is_owned. destruct (item_value i) as [e|[|n rest]]; try done.
  intros Hb%bool_decide_eq_true Hk. exists n, rest. split; [done|]. intros Hn.
  apply (f_equal length) in Hb. rewrite length_take in Hb. lia.
Qed.

(** *** Listing a bucket *)

(** Every value of the store can be read. *)
Definition readable (w : World) : Prop :=
  ∀ k i, txn_get (w_txn w) k = inr i → ∃ v, item_value i = inr v.

(** The pair [forEach] passes for an item of bucket [p], if any. *)
Definition entry (p : bytes) (i : Item) : option (bytes * option bytes) :=
  if decide (item_key i = p) then None
  else if is_owned p i then
    match item_value i with
    | inr v => Some (drop (length p) (item_key i),
                     if decide (item_meta i = metaBucket) then None else Some (drop 1 v))
    | inl _ => None
    end
  else None.

Lemma owned_length p i n rest :
  wf_item i → item_value i = inr (n :: rest) → is_owned p i = true →
  nat_of_byte n = length p ∧ item_key i = p ++ drop (length p) (item_key i).
Proof.
  unfold wf_item, is_owned. intros Hi Hv. rewrite Hv in Hi |- *.
  destruct Hi as (n' & rest' & Heq & Hn). simplify_eq.
  intros <-%bool_decide_eq_true. rewrite length_take, Nat.min_l by done.
  by rewrite take_drop.
Qed.

Lemma forEach_loop_collect p l acc :
  Forall (λ i, wf_item i ∧ ∃ v, item_value i = inr v) l →
  forEach_loop p collect l acc = (Ok tt, acc ++ omap (entry p) l).
Proof.
  intros Hl. revert acc. induction Hl as [|i l [Hi [v Hv]] Hl IH]; intros acc.
  { by rewrite app_nil_r. }
  simpl. unfold entry at 1. destruct (decide (item_key i = p)) as [Hk|Hk].
  { apply IH. }
  rewrite Hv. destruct (wf_owned p i v Hi Hv) as (n & rest & -> & ->).
  destruct (is_owned p i) eqn:Ho; [|apply IH].
  destruct (owned_length p i n rest Hi Hv Ho) as [Hn _].
  unfold bind, collect. rewrite IH, Hn, <- app_assoc. done.
Qed.

Lemma entry_Some p i k x : wf_item i →
  entry p i = Some (k, x) ↔
    item_key i = p ++ k ∧ k ≠ [] ∧ is_owned p i = true ∧
    ∃ v, item_value i = inr v ∧
         x = if decide (item_meta i = metaBucket) then None else Some (drop 1 v).
Proof.
  intros Hi. unfold entry. destruct (decide (item_key i = p)) as [Hk|Hk].
  { split; [done|]. intros (Hk' & Hne & _). rewrite Hk' in Hk.
    destruct Hne. by apply (app_inv_head p); rewrite app_nil_r. }
  destruct (is_owned p i) eqn:Ho; [|naive_solver].
  pose proof Hi as Hi'. unfold wf_item in Hi'.
  destruct (item_value i) as [e|v] eqn:Hv; [naive_solver|].
  destruct Hi' as (n & rest & -> & Hn).
  destruct (owned_length p i n rest Hi Hv Ho) as [_ Hsplit]. split.
  - intros [= <- <-]. rewrite <- Hsplit. repeat split; eauto.
    intros Hnil. rewrite Hnil, app_nil_r in Hsplit. done.
  - intros (Hk' & _ & _ & v & [= <-] & ->). by rewrite Hk', drop_app_length.
Qed.

Lemma blt_app_l p a b : blt (p ++ a) (p ++ b) = blt a b.
Proof. induction p; simpl; [done|]. by rewrite decide_True by done. Qed.

Lemma entries_sorted p l :
  Forall wf_item l → StronglySorted item_lt l →
  StronglySorted (λ x y : bytes * option bytes, blt x.1 y.1 = true) (omap (entry p) l).
Proof.
  intros Hwf. induction 1 as [|i l Hss IH Hall]; [constructor|].
  apply Forall_cons in Hwf as [Hi Hwf]. simpl. specialize (IH Hwf).
  destruct (entry p i) as [[k x]|] eqn:E; [|done]. constructor; [done|].
  apply entry_Some in E as (Hk & _); [|done].
  apply Forall_forall. intros [k' x'] (j & Hj & E')%list_elem_of_omap.
  rewrite Forall_forall in Hwf, Hall.
  apply entry_Some in E' as (Hk' & _); [|by apply Hwf].
  specialize (Hall j Hj). unfold item_lt in Hall. simpl.
  by rewrite Hk, Hk', blt_app_l in Hall.
Qed.

Lemma is_owned_intro p k m n rest :
  nat_of_byte n = length p → is_owned p (mkItem (p ++ k) m (inr (n :: rest))) = true.
Proof. intros Hn. unfold is_owned. simpl. by rewrite Hn, take_app_length, bool_decide_true. Qed.

Lemma elem_of_entries w p k x : wf w →
  (k, x) ∈ omap (entry p) (it_scan p (txn_items (w_txn w))) ↔ bview w p k = Some x.
Proof.
  intros [Hw _]. rewrite it_scan_filter by apply items_sorted.
  rewrite list_elem_of_omap, bview_Some. split.
  - intros (i & [Hp Hi]%list_elem_of_filter & He). apply items_get in Hi.
    pose proof (Hw _ _ Hi) as Hwf. apply entry_Some in He; [|done].
    destruct He as (Hk & Hne & Ho & v & Hv & ->).
    pose proof Hwf as Hwf'. unfold wf_item in Hwf'. rewrite Hv in Hwf'.
    destruct Hwf' as (n & rest & -> & _).
    destruct (owned_length _ _ _ _ Hwf Hv Ho) as [Hn _].
    rewrite Hk in Hi. exists (item_meta i), n, rest. rewrite Hi.
    split; [|done]. destruct i; simpl in *; congruence.
  - intros (m & n & rest & Hg & Hn & Hne & ->).
    exists (mkItem (p ++ k) m (inr (n :: rest))).
    rewrite list_elem_of_filter, items_get. split.
    + split; [by exists k|done].
    + apply entry_Some; [by eapply Hw|]. simpl.
      split_and!; eauto using is_owned_intro.
Qed.

Lemma Put_inv b k v w w' : Put b k v w = (Ok tt, w') →
  w_closed w = false ∧ k ≠ [] ∧ (zlen k ≤ maxKeySize)%Z ∧
  ∃ t, txn_set (w_txn w) (b_prefix b ++ k)
         (insertPrefixLength v (length (b_prefix b))) x00 = (None, t) ∧ w' = set_txn t w.
Proof.
  unfold Put, unless_closed, converting, put, bind, gets, fail.
  destruct (w_closed w) eqn:Hc; [done|]. unfold addPrefix.
  case_decide; [done|]. case_decide; [done|].
  unfold txnSet. destruct (txn_set _ _ _ _) as [[e|] t] eqn:E; [done|].
  intros [= <-]. split_and!; eauto; [by destruct k|lia].
Qed.

Lemma Put_intro b k v w t :
  w_closed w = false → k ≠ [] → (zlen k ≤ maxKeySize)%Z →
  txn_set (w_txn w) (b_prefix b ++ k)
    (insertPrefixLength v (length (b_prefix b))) x00 = (None, t) →
  Put b k v w = (Ok tt, set_txn t w).
Proof.
  intros Hc Hk Hmax Hset. unfold Put, unless_closed, converting, put, bind, gets, addPrefix.
  rewrite Hc. rewrite decide_False by (by destruct k). rewrite !decide_False by lia.
  unfold txnSet. by rewrite Hset.
Qed.

Lemma bview_put b k v w w' p k' :
  Put b k v w = (Ok tt, w') →
  bview w' p k' =
    if decide (p ++ k' = b_prefix b ++ k)
    then if bool_decide (length (b_prefix b) `mod` 256 = length p ∧ k' ≠ [])
         then Some (Some v) else None
    else bview w p k'.
Proof.
  intros (_ & _ & _ & t & Hset & ->)%Put_inv. unfold bview. simpl.
  rewrite (set_ok _ _ _ _ _ Hset). destruct (decide (_ = _)); [|done].
  unfold insertPrefixLength. by rewrite nat_of_byte_of_nat.
Qed.

Lemma get_at b k w : k ≠ [] → (zlen k ≤ maxKeySize)%Z →
  get b k w =
    (match txn_get (w_txn w) (b_prefix b ++ k) with
     | inl _ => Ok None
     | inr i => match item_value i with
                | inl _ => Ok None
                | inr [] => Panic
                | inr (_ :: val) => Ok (Some val)
                end
     end, w).
Proof.
  intros Hne Hlen. unfold get, bind, gets, addPrefix.
  rewrite decide_False by (by destruct k). rewrite decide_False by lia.
  destruct (txn_get _ _) as [e|i]; [done|]. by destruct (item_value i) as [e|[|n val]].
Qed.

(** ** Properties *)

(** C14. No sequence of bucket and transaction operations breaks the store, or
    makes this package panic: from a well-formed store, after any calls on any
    buckets (failing ones, [ForEach] with any callback, [Commit] and [Rollback]
    and what is called after them included), every value that a transaction
    sees still starts with an owner length that fits its key, and the next call
    returns a result or an error.  Callbacks of [ForEach] make any calls that
    open no second iterator, which badger does not allow.  Cursors are not among
    the operations: moving one can panic. *)
Theorem bucket_ops_safe (w : World) (os : list op) (o : op) :
  wf w → wf (foldl step w os) ∧ (run_op o (foldl step w os)).1 ≠ Panic.
Proof.
  intros Hw. assert (Hws : wf (foldl step w os)).
  { revert w Hw. induction os as [|o' os IH]; intros w Hw; [done|]. simpl. apply IH.
    unfold step. destruct (run_op o' w) as [r w'] eqn:E. by eapply safe_run_op. }
  split; [done|]. destruct (run_op o _) as [r w'] eqn:E. by eapply safe_run_op.
Qed.

(** C3. [Put] refines insertion into a nested map.  A successful [Put] on a
    bucket whose prefix is shorter than 256 bytes sets that key of that bucket
    to that value, [Get] then returns it, and every entry of every bucket at
    another flat key is unchanged; an entry of another bucket at the same flat
    key is overwritten, and disappears from that bucket. *)
Theorem Put_refines_insert (b : Bucket) (k v : bytes) (w w' : World) :
  length (b_prefix b) < 256 →
  Put b k v w = (Ok tt, w') →
  Get b k w' = (Ok (Some v), w') ∧
  ∀ p k', bview w' p k' =
    if decide (p ++ k' = b_prefix b ++ k)
    then if decide (p = b_prefix b) then Some (Some v) else None
    else bview w p k'.
Proof.
  intros Hlen HPut. pose proof (Put_inv _ _ _ _ _ HPut) as (Hc & Hk & Hmax & t & Hset & ->).
  split.
  - unfold Get, bind, gets. simpl. rewrite Hc, get_at by done. simpl.
    by rewrite (set_ok _ _ _ _ _ Hset), decide_True.
  - intros p k'. rewrite (bview_put _ _ _ _ _ _ _ HPut).
    destruct (decide (_ = _)) as [Heq|]; [|done]. rewrite Nat.mod_small by done.
    destruct (decide (p = b_prefix b)) as [->|Hp].
    + apply app_inv_head in Heq as ->. by rewrite bool_decide_true.
    + rewrite bool_decide_false; [done|]. intros [Hl _]. apply Hp.
      by apply app_inj_1 in Heq as [].
Qed.

(** C4. [ForEach] visits exactly the entries of the bucket: each key of the
    bucket once, in byte order, with its value (nil for a nested bucket), and
    nothing of a nested bucket or of a bucket whose name merely extends the
    prefix. *)
Theorem ForEach_lists_bucket (b : Bucket) (w : World) :
  wf w → readable w → w_closed w = false →
  ∃ l, ForEach b collect w [] = (Ok tt, l) ∧
    StronglySorted (λ x y : bytes * option bytes, blt x.1 y.1 = true) l ∧
    ∀ k x, (k, x) ∈ l ↔ bview w (b_prefix b) k = Some x.
Proof.
  intros Hw Hr Hc. pose proof (wf_scan _ (b_prefix b) (proj1 Hw)) as Hs.
  exists (omap (entry (b_prefix b)) (it_scan (b_prefix b) (txn_items (w_txn w)))).
  split_and!.
  - unfold ForEach, converting, forEach. rewrite Hc, forEach_loop_collect; [done|].
    rewrite it_scan_filter in * by apply items_sorted.
    apply Forall_forall. intros i Hi. split; [by eapply Forall_forall in Hs|].
    apply list_elem_of_filter in Hi as [_ Hi]. apply items_get in Hi. by eapply Hr.
  - apply entries_sorted; [done|]. rewrite it_scan_filter by apply items_sorted.
    by apply StronglySorted_filter, items_sorted.
  - intros k x. by apply elem_of_entries.
Qed.

(** A bucket whose prefix is 256 bytes or longer loses its entries: the
    owner length is stored in one byte, so a [Put] that succeeds stores a value
    [Get] returns, but that is no entry of the bucket for [ForEach]. *)
Theorem Put_long_prefix_unlisted (b : Bucket) (k v : bytes) (w w' : World) :
  256 ≤ length (b_prefix b) →
  Put b k v w = (Ok tt, w') →
  Get b k w' = (Ok (Some v), w') ∧ bview w' (b_prefix b) k = None.
Proof.
  intros Hlen HPut. split.
  - pose proof (Put_inv _ _ _ _ _ HPut) as (Hc & Hk & Hmax & t & Hset & ->).
    unfold Get, bind, gets. simpl. rewrite Hc, get_at by done. simpl.
    by rewrite (set_ok _ _ _ _ _ Hset), decide_True.
  - rewrite (bview_put _ _ _ _ _ _ _ HPut), decide_True by done.
    rewrite bool_decide_false; [done|]. intros [Hmod _].
    pose proof (Nat.mod_upper_bound (length (b_prefix b)) 256). lia.
Qed.

(** The views after a deletion handler: [s] is the transaction it read. *)
Section after_drop.
Context (w : World) (t s : T) (p q : bytes).
Hypothesis Hw : wf w.
Hypothesis Ht : ∀ k, txn_get t k =
  if decide (k = q ∨ q `prefix_of` k ∧ owned_at s p k = true)
  then inl ErrKeyNotFound else txn_get (w_txn w) k.
Hypothesis Hs : ∀ k, k ≠ q → owned_at s p k = owned_at (w_txn w) p k.

(** Entries of [p] at or below [q] are gone. *)
Lemma bview_drop_owned k : q `prefix_of` p ++ k → bview (set_txn t w) p k = None.
Proof.
  intros Hq. destruct (bview _ _ _) as [x|] eqn:E; [|done].
  apply bview_Some in E as (m & n & rest & Hg & Hn & _ & _). simpl in Hg.
  rewrite Ht in Hg. case_decide as HD; [done|]. destruct HD.
  destruct (decide (p ++ k = q)) as [|Hne]; [by left|right]. split; [done|].
  rewrite Hs by done. unfold owned_at. rewrite Hg. by apply is_owned_intro.
Qed.

(** Entries of other buckets stay, but for the one stored at [q]. *)
Lemma bview_drop_other p' k :
  p' ≠ p → p' ++ k ≠ q → bview (set_txn t w) p' k = bview w p' k.
Proof.
  intros Hp Hne. pose proof (Ht (p' ++ k)) as Hg. case_decide as HD.
  - destruct HD as [|[_ Ho]]; [done|]. rewrite Hs in Ho by done.
    transitivity (@None (option bytes)); [unfold bview; simpl; by rewrite Hg|].
    symmetry. destruct (bview w p' k) as [x|] eqn:E; [|done].
    apply bview_Some in E as (m & n & rest & Hg' & Hn & _ & _).
    unfold owned_at in Ho. rewrite Hg' in Ho.
    destruct (owned_length p _ n rest (proj1 Hw _ _ Hg') eq_refl Ho) as [Hn' Hk].
    simpl in Hk. apply app_inj_1 in Hk as [? _]; [done|lia].
  - by apply bview_ext.
Qed.
End after_drop.

(** [DeleteNestedBucket] does not delete what it says it deletes.  In a
    transaction with no pending writes it removes the bucket's own entry and
    every entry of the {e parent} whose key extends the name of the bucket,
    but leaves all entries of the nested bucket in the store. *)
Theorem DeleteNestedBucket_keeps_contents (b : Bucket) (key : bytes) (w : World) item :
  wf w → w_closed w = false → w_writable w = true →
  key ≠ [] → (zlen key ≤ maxKeySize)%Z →
  txn_get (w_txn w) (b_prefix b ++ key) = inr item → item_meta item = metaBucket →
  (∀ ks, deletes_ok (w_txn w) ks) →
  (∀ k, txn_get (txn_snapshot (w_txn w)) k = txn_get (w_txn w) k) →
  ∃ w', DeleteNestedBucket b (Some key) w = (Ok tt, w') ∧
    txn_get (w_txn w') (b_prefix b ++ key) = inl ErrKeyNotFound ∧
    (∀ k, bview w' (b_prefix b) (key ++ k) = None) ∧
    (∀ k, k ≠ [] → bview w' (b_prefix b ++ key) k = bview w (b_prefix b ++ key) k).
Proof.
  intros Hw Hc Hwr Hne Hlen Hg Hm Hok Hsn.
  pose proof (get_key _ _ _ Hg) as Hk.
  destruct (drop_run (b_prefix b) (b_prefix b ++ key) w txn_snapshot) as (t & Hrun & Ht).
  { rewrite delete_snapshot. apply Hw. }
  { done. }
  rewrite delete_snapshot in Ht.
  assert (Howned : ∀ k, owned_at (txn_snapshot (w_txn w)) (b_prefix b) k =
                        owned_at (w_txn w) (b_prefix b) k).
  { intros k. unfold owned_at. by rewrite Hsn. }
  exists (set_txn t w). split_and!.
  - unfold DeleteNestedBucket, unless_closed, dropBucket. unfold bind at 1 2, gets at 1 2.
    rewrite Hc, Hwr. simpl. unfold addPrefix. rewrite decide_False by lia.
    unfold bind at 1, gets at 1. by rewrite Hg, decide_False, Hk by (rewrite Hm; auto).
  - simpl. rewrite Ht. by rewrite decide_True by auto.
  - intros k. eapply bview_drop_owned; [exact Ht|done|]. exists k. by rewrite app_assoc.
  - intros k Hk'. eapply bview_drop_other; [done|exact Ht|done|..].
    + intros Heq. destruct Hne. apply (app_inv_head (b_prefix b)). by rewrite app_nil_r.
    + intros Heq. destruct Hk'. apply (app_inv_head (b_prefix b ++ key)). by rewrite app_nil_r.
Qed.

(** [DeleteTopLevelBucket] removes the bucket and its direct entries, for
    keys written in this transaction too, and leaves every other key of the
    store: in particular the contents of nested buckets survive it. *)
Theorem DeleteTopLevelBucket_spec (key : bytes) (w : World) item :
  wf w → w_closed w = false →
  txn_get (w_txn w) key = inr item → item_meta item = metaBucket →
  (∀ ks, deletes_ok (w_txn w) ks) →
  ∃ w', DeleteTopLevelBucket key w = (Ok tt, w') ∧
    txn_get (w_txn w') key = inl ErrKeyNotFound ∧
    (∀ k, bview w' key k = None) ∧
    (∀ p k, p ≠ key → p ++ k ≠ key → bview w' p k = bview w p k) ∧
    w_buckets w' = remove_first key (w_buckets w).
Proof.
  intros Hw Hc Hg Hm Hok. pose proof (get_key _ _ _ Hg) as Hk.
  destruct (drop_run key key w id) as (t & Hrun & Ht).
  { apply wf_txn_delete, Hw. }
  { done. }
  assert (Hs : ∀ k, k ≠ key →
    owned_at (id (txn_delete (w_txn w) key).2) key k = owned_at (w_txn w) key k).
  { intros k Hk'. destruct (txnDelete_ok key w) as (t1 & _ & -> & Hg1).
    - by destruct (Hok [key]).
    - unfold owned_at, id. by rewrite Hg1, decide_False. }
  exists (set_buckets (remove_first key (w_buckets w)) (set_txn t w)). split_and!.
  - unfold DeleteTopLevelBucket. unfold bind at 1 2, gets at 1 2. rewrite Hc, Hg.
    rewrite decide_False, Hk by (rewrite Hm; auto).
    unfold bind at 1. unfold bind at 1 in Hrun.
    destruct (txnDelete key w) as [[e|e|] w1]; try done.
    unfold bind at 1. unfold bind at 1 in Hrun. simpl in *.
    unfold bind. unfold id in Hrun. by rewrite Hrun.
  - simpl. rewrite Ht. by rewrite decide_True by auto.
  - intros k. rewrite <- (bview_drop_owned w t _ key key Ht Hs k); [done|by exists k].
  - intros p k Hp Hne. by rewrite <- (bview_drop_other w t _ key key Hw Ht Hs p k).
  - done.
Qed.

Lemma unless_closed_open {A} (m : GM World A) w :
  w_closed w = false → unless_closed m w = m w.
Proof. intros Hc. unfold unless_closed, bind, gets. by rewrite Hc. Qed.

Lemma unless_closed_Ok {A} (m : GM World A) w a w' :
  unless_closed m w = (Ok a, w') → w_closed w = false ∧ m w = (Ok a, w').
Proof. unfold unless_closed, bind, gets. by destruct (w_closed w). Qed.

Lemma bucket_existing b key (e : bool) w item :
  key ≠ [] → (zlen key ≤ maxKeySize)%Z →
  txn_get (w_txn w) (b_prefix b ++ key) = inr item → item_meta item = metaBucket →
  bucket b key e w =
    (if e then Err (EKind KExist "bucket already exists")
     else Ok (mkBucket (b_prefix b ++ key)), w).
Proof.
  intros Hne Hmax Hg Hm. unfold bucket, addPrefix, bind, gets.
  rewrite decide_False by (by destruct key). rewrite decide_False by lia.
  rewrite Hg, decide_True by done. by destruct e.
Qed.

Lemma bucket_create_inv b key w nb w' :
  bucket b key true w = (Ok nb, w') →
  key ≠ [] ∧ (zlen key ≤ maxKeySize)%Z ∧ ∃ e t,
    txn_get (w_txn w) (b_prefix b ++ key) = inl e ∧
    txn_set (w_txn w) (b_prefix b ++ key)
      (insertPrefixLength [] (length (b_prefix b))) metaBucket = (None, t) ∧
    nb = mkBucket (b_prefix b ++ key) ∧ w' = set_txn t w.
Proof.
  unfold bucket, addPrefix, bind, gets, txnSet.
  case_decide as Hne; [done|]. case_decide; [done|].
  destruct (txn_get _ _) as [e|i]; [|by case_decide].
  destruct (txn_set _ _ _ _) as [[e'|] t]; [done|]. intros [= <- <-].
  split_and!; [by destruct key|lia|eauto 10].
Qed.

(** [CreateBucket] succeeds only on a key with no readable entry, and then
    the bucket exists: it is listed in its parent as a nested bucket, opens
    with [NestedReadWriteBucket], a second [CreateBucket] fails with [Exist]
    and [CreateBucketIfNotExists] returns the same bucket, the store
    unchanged by both. *)
Theorem CreateBucket_then_exists (b nb : Bucket) (key : bytes) (w w' : World) :
  length (b_prefix b) < 256 →
  CreateBucket b key w = (Ok nb, w') →
  b_prefix nb = b_prefix b ++ key ∧
  (∃ e, txn_get (w_txn w) (b_prefix nb) = inl e) ∧
  bview w' (b_prefix b) key = Some None ∧
  CreateBucket b key w' = (Err (EKind KExist "bucket already exists"), w') ∧
  CreateBucketIfNotExists b key w' = (Ok nb, w') ∧
  NestedReadWriteBucket b key w' = (Ok (Some nb), set_buckets (w_buckets w' ++ [nb]) w').
Proof.
  intros Hlen. unfold CreateBucket. intros H. apply unless_closed_Ok in H as [Hc H].
  apply bucket_create_inv in H as (Hne & Hmax & e & t & Hg & Hset & -> & ->).
  pose proof (set_ok _ _ _ _ _ Hset (b_prefix b ++ key)) as Hgk.
  rewrite decide_True in Hgk by done. simpl. split_and!; eauto.
  - apply bview_Some. simpl. rewrite Hgk. unfold insertPrefixLength.
    eexists _, _, _. split; [done|]. rewrite nat_of_byte_of_nat_small by done.
    split_and!; [done|done|by rewrite decide_True].
  - rewrite unless_closed_open by done. by apply (bucket_existing b key true (set_txn t w) _ Hne Hmax Hgk).
  - unfold CreateBucketIfNotExists. rewrite unless_closed_open by done.
    by apply (bucket_existing b key false (set_txn t w) _ Hne Hmax Hgk).
  - unfold NestedReadWriteBucket, bind, gets, addPrefix. rewrite decide_False by lia.
    simpl. rewrite Hc. simpl. by rewrite Hgk.
Qed.

(** After [db.Close] no operation reads or changes the store: every
    mutating call returns [Invalid] and every lookup returns nil. *)
Theorem closed_rejects (w : World) (o : op) :
  w_closed w = true →
  run_op o w =
    (match o with
     | OpCall (OpGet _ _ | OpNestedReadWriteBucket _ _ | OpNestedReadBucket _ _
              | OpReadWriteBucket _ | OpReadBucket _) => Ok tt
     | _ => Err (EKind KInvalid "")
     end, w).
Proof.
  intros Hc. destruct o as [c|b fn|k| |].
  - destruct c as [| | | | |b [k|]| | | | |]; cbn [run_op run_call]; unfold discard_result, Put, Get,
      Delete, CreateBucket, CreateBucketIfNotExists, DeleteNestedBucket, NestedReadBucket,
      NestedReadWriteBucket, ReadBucket, ReadWriteBucket, CreateTopLevelBucket, unless_closed, bind,
      gets; rewrite ?Hc; done.
  - cbn [run_op]. unfold ForEach. by rewrite Hc.
  - cbn [run_op]. unfold DeleteTopLevelBucket, bind, gets. by rewrite Hc.
  - cbn [run_op]. unfold Commit, bind, gets. by rewrite Hc.
  - cbn [run_op]. unfold Rollback, bind, gets. by rewrite Hc.
Qed.

(** [CreateTopLevelBucket] accepts a key that holds a plain value: the error it
    builds for this case is dropped. *)
Lemma CreateTopLevelBucket_over_value (key : bytes) (w : World) item :
  w_closed w = false → txn_get (w_txn w) key = inr item →
  CreateTopLevelBucket key w =
    (Ok (mkBucket key), set_buckets (w_buckets w ++ [mkBucket key]) w).
Proof.
  intros Hc Hg. unfold CreateTopLevelBucket, newBucket, bind, gets. by rewrite Hc, Hg.
Qed.

(** Flat keys of different buckets collide: what [Put] stores for one bucket is
    what [Get] returns for the other. *)
Lemma Get_other_bucket (b b' : Bucket) (k k' v : bytes) (w w' : World) :
  Put b k v w = (Ok tt, w') → b_prefix b' ++ k' = b_prefix b ++ k →
  k' ≠ [] → (zlen k' ≤ maxKeySize)%Z → Get b' k' w' = (Ok (Some v), w').
Proof.
  intros (Hc & _ & _ & t & Hset & ->)%Put_inv Heq Hk' Hlen.
  unfold Get, bind, gets. simpl. rewrite Hc, get_at, Heq by done. simpl.
  by rewrite (set_ok _ _ _ _ _ Hset), decide_True.
Qed.

End Badger.

(** ** Witnesses, on the finite-map store *)

Section witnesses.
Definition w0 : World (T := MemTxn) := mkWorld false (mem_empty true) true false [].
Definition root : Bucket := mkBucket (bs "root").

(** A store after a committed transaction: [root] holds a nested bucket [a]
    with one entry, and an entry [ab] of its own. *)
Definition m1 : gmap bytes (byte * bytes) :=
  list_to_map [(bs "root", (metaBucket, [x04])); (bs "roota", (metaBucket, [x04]));
               (bs "rootax", (x00, [x05; x2a])); (bs "rootab", (x00, [x04; x2b]))].
Definition w1 : World (T := MemTxn) := mkWorld false (mkMemTxn m1 m1 true) true false [].

Lemma wf_mem (w : World (T := MemTxn)) :
  map_Forall (λ k '(m, v), wf_item (mkItem k m (inr v))) (mem_view (w_txn w)) →
  map_Forall (λ k '(m, v), wf_item (mkItem k m (inr v))) (mem_committed (w_txn w)) →
  wf w.
Proof.
  intros H1 H2. split; intros k i; simpl.
  - destruct (mem_view _ !! k) as [[m v]|] eqn:E; [|done]. intros [= <-]. apply (H1 _ _ E).
  - destruct (mem_committed _ !! k) as [[m v]|] eqn:E; [|done]. intros [= <-]. apply (H2 _ _ E).
Qed.

Lemma mem_deletes_ok t ks : mem_writable t = true → deletes_ok t ks.
Proof.
  revert t. induction ks as [|k ks IH]; intros t Ht; [done|]. simpl. rewrite Ht.
  split; [done|]. by apply IH.
Qed.

Lemma wf_w0 : wf w0.
Proof. apply wf_mem; apply map_Forall_empty. Qed.

Lemma wf_w1 : wf w1.
Proof.
  apply wf_mem; repeat (apply map_Forall_insert_2; [by eexists _, _; split; [done|]; vm_compute; lia|]);
    apply map_Forall_empty.
Qed.

Lemma readable_mem (w : World (T := MemTxn)) : readable w.
Proof. intros k i. simpl. destruct (mem_view _ !! k) as [[m v]|]; intros; simplify_eq; eauto. Qed.
End witnesses.

(** A bucket whose entries are doubled while they are listed, and committed. *)
Lemma bucket_ops_safe_witness :
  let os := [OpCall (OpCreateTopLevelBucket (bs "root")); OpCall (OpPut root (bs "k") (bs "v"));
             OpForEach root (λ k v, ([OpPut root (bs "copy" ++ k) (default [] v)], None));
             OpCommit] in
  let w := foldl step w0 os in
  Get root (bs "copyk") (set_txn (txn_snapshot (w_txn w)) w) =
    (Ok (Some (bs "v")), set_txn (txn_snapshot (w_txn w)) w) ∧
  wf w ∧ (run_op (OpDeleteTopLevelBucket (bs "root")) w).1 ≠ Panic.
Proof.
  intros os w. split; [vm_compute; reflexivity|]. apply (bucket_ops_safe w0). exact wf_w0.
Defined.

Lemma Put_refines_insert_witness :
  let w' := (Put root (bs "k") (bs "v") w1).2 in
  Get root (bs "k") w' = (Ok (Some (bs "v")), w') ∧
  bview w' (bs "roota") (bs "x") = Some (Some [x2a]).
Proof.
  destruct (Put_refines_insert root (bs "k") (bs "v") w1 _ ltac:(vm_compute; lia) eq_refl)
    as [Hg Hv].
  split; [exact Hg|]. rewrite Hv. reflexivity.
Defined.

Lemma ForEach_lists_bucket_witness :
  ∃ l, ForEach root collect w1 [] = (Ok tt, l) ∧ (bs "a", None) ∈ l ∧ (bs "x", Some [x2a]) ∉ l.
Proof.
  destruct (ForEach_lists_bucket root w1 wf_w1 (readable_mem w1) eq_refl) as (l & H1 & _ & H2).
  exists l. split; [exact H1|]. split.
  - apply H2. vm_compute. reflexivity.
  - intros Hin. apply H2 in Hin. vm_compute in Hin. discriminate Hin.
Defined.

Definition long_bucket : Bucket := mkBucket (replicate 256 x61).

Lemma Put_long_prefix_unlisted_witness :
  ∃ w', Put long_bucket (bs "k") (bs "v") w0 = (Ok tt, w') ∧
    Get long_bucket (bs "k") w' = (Ok (Some (bs "v")), w') ∧
    bview w' (b_prefix long_bucket) (bs "k") = None.
Proof.
  assert (HP : Put long_bucket (bs "k") (bs "v") w0 = (Ok tt, set_txn _ w0))
    by (apply Put_intro; [reflexivity|discriminate|discriminate|reflexivity]).
  eexists. split; [exact HP|].
  apply (Put_long_prefix_unlisted long_bucket _ _ w0 _); [|exact HP].
  change (256 ≤ length (replicate 256 x61)). rewrite length_replicate. lia.
Defined.

Lemma DeleteNestedBucket_keeps_contents_witness :
  ∃ w', DeleteNestedBucket root (Some (bs "a")) w1 = (Ok tt, w') ∧
    bview w1 (bs "root") (bs "ab") = Some (Some [x2b]) ∧
    bview w' (bs "root") (bs "ab") = None ∧
    bview w' (bs "roota") (bs "x") = Some (Some [x2a]).
Proof.
  destruct (DeleteNestedBucket_keeps_contents root (bs "a") w1
              (mkItem (bs "roota") metaBucket (inr [x04]))
              wf_w1 eq_refl eq_refl ltac:(discriminate) ltac:(vm_compute; discriminate)
              eq_refl eq_refl (λ ks, mem_deletes_ok (w_txn w1) ks eq_refl) (λ k, eq_refl))
    as (w' & Hrun & _ & Hp & Hn).
  exists w'. split; [exact Hrun|]. split; [reflexivity|]. split.
  - exact (Hp (bs "b")).
  - change (bs "roota") with (b_prefix root ++ bs "a"). rewrite Hn by discriminate. reflexivity.
Defined.

Lemma DeleteTopLevelBucket_spec_witness :
  ∃ w', DeleteTopLevelBucket (bs "root") w1 = (Ok tt, w') ∧
    bview w' (bs "root") (bs "ab") = None ∧
    bview w' (bs "roota") (bs "x") = Some (Some [x2a]).
Proof.
  destruct (DeleteTopLevelBucket_spec (bs "root") w1
              (mkItem (bs "root") metaBucket (inr [x04]))
              wf_w1 eq_refl eq_refl eq_refl (λ ks, mem_deletes_ok (w_txn w1) ks eq_refl))
    as (w' & Hrun & _ & Hp & Hn & _).
  exists w'. split; [exact Hrun|]. split; [apply Hp|].
  rewrite Hn by (vm_compute; discriminate). reflexivity.
Defined.

Lemma CreateBucket_then_exists_witness :
  let w' := (CreateBucket root (bs "n") w1).2 in
  CreateBucket root (bs "n") w' = (Err (EKind KExist "bucket already exists"), w') ∧
  bview w' (bs "root") (bs "n") = Some None.
Proof.
  destruct (CreateBucket_then_exists root (mkBucket (bs "rootn")) (bs "n") w1 _
              ltac:(vm_compute; lia) eq_refl) as (_ & _ & H1 & H2 & _).
  split; [exact H2|exact H1].
Defined.

Lemma closed_rejects_witness :
  run_op (OpCall (OpPut root (bs "k") (bs "v"))) (mkWorld true (mem_empty true) true false []) =
    (Err (EKind KInvalid ""), mkWorld true (mem_empty true) true false []).
Proof.
  exact (closed_rejects (mkWorld true (mem_empty true) true false [])
           (OpCall (OpPut root (bs "k") (bs "v"))) eq_refl).
Defined.
