(* ===== verification/Alias.v ===== *)
(** * [badgerdb]: the arrays behind the keys

    [Badger] takes keys for values.  In the code they are slices: [addPrefix]
    appends to the prefix of the bucket, which writes into the array of the
    prefix when that has room, and the transaction keeps the slices of what is
    set or deleted until it is committed ("users must not modify key until the
    end of the transaction").  Here the operations are run on a heap of arrays.
    How much room a new array gets is the runtime's choice ([grow]).  The
    theorems say for which buckets [Badger] is right, and what happens with the
    others. *)
From S2P Require Import Prelude Kv Badger.

(** A slice starts at the start of its array; its capacity is the length of
    the array. *)
Record slice := mkSlice { s_arr : nat; s_len : nat }.
#[export] Instance slice_eq_dec : EqDecision slice.
Proof. solve_decision. Defined.

Section Alias.
Context {T : Type} `{!BadgerTxn T}.
(** The capacity of a new array, from the old capacity and the length needed. *)
Context (grow : nat → nat → nat).
Abbreviation world := (World (T := T)).

(** [given]: the slices the transaction keeps, with what was in them when it
    got them. *)
Record HS := mkHS { heap : list bytes; hworld : world; given : list (slice * bytes) }.

Definition array (h : list bytes) (s : slice) : bytes := default [] (h !! s_arr s).
Definition contents (h : list bytes) (s : slice) : bytes := take (s_len s) (array h s).
Definition cap (h : list bytes) (s : slice) : nat := length (array h s).

Definition lift {A} (m : GM world A) : GM HS A := λ s,
  let '(r, w) := m (hworld s) in (r, mkHS (heap s) w (given s)).
Definition alloc (a : bytes) (n : nat) : GM HS slice := λ s,
  (Ok (mkSlice (length (heap s)) n), mkHS (heap s ++ [a]) (hworld s) (given s)).

(** [append(s, l...)] *)
Definition append (s : slice) (l : bytes) : GM HS slice := λ st,
  let a := array (heap st) s in
  let n := s_len s + length l in
  if decide (n ≤ length a) then
    (Ok (mkSlice (s_arr s) n),
     mkHS (<[s_arr s := take (s_len s) a ++ l ++ drop n a]> (heap st)) (hworld st) (given st))
  else
    alloc (take (s_len s) a ++ l ++ replicate (grow (length a) n - n) x00) n st.

(** [make([]byte, len(s))] and [copy] *)
Definition copy_of (s : slice) : GM HS slice := λ st,
  alloc (contents (heap st) s) (s_len s) st.

(** A write to the transaction, which keeps the key when it succeeds. *)
Definition keep (k : slice) (e : option goerr) : GM HS unit :=
  match e with
  | Some _ => ret tt
  | None => modify (λ s, mkHS (heap s) (hworld s) (given s ++ [(k, contents (heap s) k)]))
  end.
Definition write (k : slice) (f : bytes → GM world (option goerr)) : GM HS (option goerr) :=
  let! c := gets (λ s, contents (heap s) k) in
  let! err := lift (f c) in keep k err ;; ret err.
Definition hSet (k : slice) (v : bytes) (m : byte) : GM HS (option goerr) :=
  write k (λ c, txnSet c v m).
Definition hDelete (k : slice) : GM HS (option goerr) := write k txnDelete.
Definition hGet (k : slice) : GM HS (goerr + Item) :=
  gets (λ s, txn_get (w_txn (hworld s)) (contents (heap s) k)).

(** ** The operations

    A bucket is its prefix, a slice. *)
Definition h_addPrefix (prefix : slice) (key : bytes) : GM HS slice :=
  if decide (maxKeySize < zlen key)%Z then fail (EKind KInvalid "key too long")
  else append prefix key.

Definition h_put (prefix : slice) (key value : bytes) : GM HS unit :=
  if decide (length key = 0) then fail (EKind KInvalid "key is empty")
  else if decide (maxKeySize < zlen key)%Z then fail (EKind KInvalid "key is too large")
  else
    let! k := h_addPrefix prefix key in
    let! err := hSet k (insertPrefixLength value (s_len prefix)) x00 in
    check err.

Definition h_delete (prefix : slice) (key : bytes) : GM HS unit :=
  if decide (length key = 0) then ret tt
  else
    let! k := h_addPrefix prefix key in
    let! err := hDelete k in
    if decide (err = Some ErrKeyNotFound) then ret tt else check err.

Definition h_get (prefix : slice) (key : bytes) : GM HS (option bytes) :=
  if decide (length key = 0) then ret None
  else
    let! k := try (h_addPrefix prefix key) in
    match k with
    | inl _ => ret None
    | inr k =>
        let! r := hGet k in
        match r with
        | inl _ => ret None
        | inr item =>
            match item_value item with
            | inl _ => ret None
            | inr [] => panic
            | inr (_ :: val) => ret (Some val)
            end
        end
    end.

Definition h_bucket (prefix : slice) (key : bytes) (errorIfExists : bool) : GM HS slice :=
  if decide (length key = 0) then fail (EKind KInvalid "key is empty")
  else
    let! keyPrefix := h_addPrefix prefix key in
    let! copiedKey := copy_of keyPrefix in
    let! r := hGet copiedKey in
    match r with
    | inl _ =>
        let! err := hSet copiedKey (insertPrefixLength [] (s_len prefix)) metaBucket in
        match err with
        | Some err => fail (convertErr1 err)
        | None => ret copiedKey
        end
    | inr item =>
        if decide (item_meta item = metaBucket) then
          if errorIfExists then fail (EKind KExist "bucket already exists") else ret copiedKey
        else fail (EKind KInvalid "key is not associated with a bucket")
    end.

(** The prefix of the bucket is the slice of [addPrefix]. *)
Definition h_NestedReadWriteBucket (prefix : slice) (key : bytes) : GM HS (option slice) :=
  let! closed := gets (w_closed ∘ hworld) in
  if (closed : bool) then ret None else
  let! k := try (h_addPrefix prefix key) in
  match k with
  | inl _ => ret None
  | inr k =>
      let! r := hGet k in
      match r with
      | inl _ => ret None
      | inr item =>
          if decide (item_meta item ≠ metaBucket) then ret None
          else
            let! c := gets (λ s, contents (heap s) k) in
            lift (appendBucket (mkBucket c)) ;; ret (Some k)
      end
  end.

(** ** Sessions

    A caller works through the buckets it has got; [buckets] are their
    prefixes, and what is got is added. *)
Inductive bop :=
| BPut (i : nat) (key value : bytes)
| BDelete (i : nat) (key : bytes)
| BGet (i : nat) (key : bytes)
| BCreate (i : nat) (key : bytes) (errorIfExists : bool)
| BNested (i : nat) (key : bytes).

Inductive bres :=
| RUnit (r : outcome unit)
| RValue (r : outcome (option bytes))
| RBucket (r : outcome bool)        (* whether there is one *)
| RNone.                            (* no such bucket at hand *)

Definition got {B} (r : outcome (option B)) (buckets : list B) : bres * list B :=
  match r with
  | Ok (Some b) => (RBucket (Ok true), buckets ++ [b])
  | Ok None => (RBucket (Ok false), buckets)
  | Err e => (RBucket (Err e), buckets)
  | Panic => (RBucket Panic, buckets)
  end.
Definition created {B} (r : outcome B) (buckets : list B) : bres * list B :=
  got (match r with Ok b => Ok (Some b) | Err e => Err e | Panic => Panic end) buckets.

Definition h_step (op : bop) (buckets : list slice) (st : HS) : bres * list slice * HS :=
  match op with
  | BPut i key value =>
      match buckets !! i with
      | Some b => let '(r, st) := h_put b key value st in (RUnit r, buckets, st)
      | None => (RNone, buckets, st)
      end
  | BDelete i key =>
      match buckets !! i with
      | Some b => let '(r, st) := h_delete b key st in (RUnit r, buckets, st)
      | None => (RNone, buckets, st)
      end
  | BGet i key =>
      match buckets !! i with
      | Some b => let '(r, st) := h_get b key st in (RValue r, buckets, st)
      | None => (RNone, buckets, st)
      end
  | BCreate i key e =>
      match buckets !! i with
      | Some b => let '(r, st) := h_bucket b key e st in (created r buckets, st)
      | None => (RNone, buckets, st)
      end
  | BNested i key =>
      match buckets !! i with
      | Some b => let '(r, st) := h_NestedReadWriteBucket b key st in (got r buckets, st)
      | None => (RNone, buckets, st)
      end
  end.

(** The same with the operations of [Badger]. *)
Definition p_step (op : bop) (buckets : list Bucket) (w : world) : bres * list Bucket * world :=
  match op with
  | BPut i key value =>
      match buckets !! i with
      | Some b => let '(r, w) := put b key value w in (RUnit r, buckets, w)
      | None => (RNone, buckets, w)
      end
  | BDelete i key =>
      match buckets !! i with
      | Some b => let '(r, w) := delete b key w in (RUnit r, buckets, w)
      | None => (RNone, buckets, w)
      end
  | BGet i key =>
      match buckets !! i with
      | Some b => let '(r, w) := get b key w in (RValue r, buckets, w)
      | None => (RNone, buckets, w)
      end
  | BCreate i key e =>
      match buckets !! i with
      | Some b => let '(r, w) := bucket b key e w in (created r buckets, w)
      | None => (RNone, buckets, w)
      end
  | BNested i key =>
      match buckets !! i with
      | Some b => let '(r, w) := NestedReadWriteBucket b key w in (got r buckets, w)
      | None => (RNone, buckets, w)
      end
  end.

Section runs.
Context {B W : Type} (step : bop → list B → W → bres * list B * W).
Fixpoint session (ops : list bop) (buckets : list B) (s : W) : list bres * list B * W :=
  match ops with
  | [] => ([], buckets, s)
  | op :: ops =>
      let '(r, buckets, s) := step op buckets s in
      let '(rs, buckets, s) := session ops buckets s in (r :: rs, buckets, s)
  end.
End runs.

(** ** Slices *)
Definition wf (h : list bytes) (s : slice) : Prop := s_arr s < length h ∧ s_len s ≤ cap h s.
(** There is no room behind the slice. *)
Definition tight (h : list bytes) (s : slice) : Prop := wf h s ∧ cap h s = s_len s.
(** What the transaction keeps is as it got it. *)
Definition kept (st : HS) : Prop :=
  Forall (λ kc, wf (heap st) kc.1 ∧ contents (heap st) kc.1 = kc.2) (given st).

Lemma array_prefix (h h' : list bytes) (s : slice) :
  s_arr s < length h → h `prefix_of` h' → array h' s = array h s.
Proof. intros Hs [k ->]. unfold array. by rewrite lookup_app_l. Qed.

Lemma wf_prefix (h h' : list bytes) (s : slice) : wf h s → h `prefix_of` h' → wf h' s.
Proof.
  intros [Hs Hl] Hp. split; [apply prefix_length in Hp; lia|].
  unfold cap. by rewrite (array_prefix h).
Qed.
Lemma contents_prefix (h h' : list bytes) (s : slice) :
  wf h s → h `prefix_of` h' → contents h' s = contents h s.
Proof. intros [Hs _] Hp. unfold contents. by rewrite (array_prefix h). Qed.
Lemma tight_prefix (h h' : list bytes) (s : slice) : tight h s → h `prefix_of` h' → tight h' s.
Proof.
  intros [Hw Ht] Hp. split; [by eapply wf_prefix|]. unfold cap. by rewrite (array_prefix h); [|apply Hw|].
Qed.
Lemma kept_prefix (h h' : list bytes) (w w' : world) (g : list (slice * bytes)) :
  kept (mkHS h w g) → h `prefix_of` h' → kept (mkHS h' w' g).
Proof.
  intros Hk Hp. eapply Forall_impl; [exact Hk|]. intros [k c] [Hw Hc]. cbn in *.
  split; [by eapply wf_prefix|]. by rewrite (contents_prefix h).
Qed.

Lemma length_contents (h : list bytes) (s : slice) : wf h s → length (contents h s) = s_len s.
Proof. intros [_ Hl]. unfold contents, cap in *. rewrite length_take. lia. Qed.

(** *** Steps of the heap against steps of [Badger] *)
Definition orel {A B} (R : A → B → Prop) (r : outcome A) (r' : outcome B) : Prop :=
  match r, r' with
  | Ok a, Ok b => R a b
  | Err e, Err e' => e = e'
  | Panic, Panic => True
  | _, _ => False
  end.

Definition refines_at {A B} (st : HS) (m : GM HS A) (mp : GM world B)
    (R : list bytes → A → B → Prop) : Prop :=
  let '(r, st') := m st in
  let '(r', w') := mp (hworld st) in
  w' = hworld st' ∧ heap st `prefix_of` heap st' ∧ kept st' ∧ orel (R (heap st')) r r'.

Lemma refines_bind {A B A' B'} (st : HS) (m : GM HS A) (mp : GM world B) R
    (k : A → GM HS A') (kp : B → GM world B') R' :
  refines_at st m mp R →
  (∀ st' a b, heap st `prefix_of` heap st' → kept st' → R (heap st') a b →
     refines_at st' (k a) (kp b) R') →
  refines_at st (bind m k) (bind mp kp) R'.
Proof.
  intros Hm Hk. unfold refines_at, bind in *.
  destruct (m st) as [r st1], (mp (hworld st)) as [r' w1]. destruct Hm as (-> & Hp & Hkept & Hr).
  destruct r as [a|e|], r' as [b|e'|]; try done.
  specialize (Hk st1 a b Hp Hkept Hr). unfold refines_at in Hk.
  destruct (k a st1) as [r2 st2], (kp b (hworld st1)) as [r2' w2].
  destruct Hk as (-> & Hp2 & Hkept2 & Hr2). split_and!; [done|by trans (heap st1)|done|done].
Qed.

Lemma refines_gets {A B C C'} (st : HS) (f : HS → C) (g : world → C') (k : C → GM HS A)
    (kp : C' → GM world B) R :
  refines_at st (k (f st)) (kp (g (hworld st))) R →
  refines_at st (bind (gets f) k) (bind (gets g) kp) R.
Proof. done. Qed.
Lemma refines_ret {A B} (st : HS) (a : A) (b : B) (R : list bytes → A → B → Prop) :
  kept st → R (heap st) a b → refines_at st (ret a) (ret b) R.
Proof. intros Hk HR. by split_and!. Qed.
Lemma refines_fail {A B} (st : HS) e (R : list bytes → A → B → Prop) :
  kept st → refines_at st (fail e) (fail e) R.
Proof. intros Hk. by split_and!. Qed.
Lemma refines_check (st : HS) e (R : list bytes → unit → unit → Prop) :
  kept st → R (heap st) tt tt → refines_at st (check e) (check e) R.
Proof. intros Hk HR. destruct e; [by apply refines_fail|by apply refines_ret]. Qed.

(** [append] to a slice without room writes to a new array. *)
Lemma append_tight (s : slice) (l : bytes) (st : HS) :
  tight (heap st) s →
  ∃ k st', append s l st = (Ok k, st') ∧ hworld st' = hworld st ∧ given st' = given st ∧
    heap st `prefix_of` heap st' ∧ wf (heap st') k ∧
    contents (heap st') k = contents (heap st) s ++ l ∧
    s_len k = s_len s + length l ∧
    ((∀ c n, grow c n = n) → tight (heap st') k).
Proof.
  intros [[Ha Hl] Ht]. unfold append, cap, contents in *. set (a := array (heap st) s) in *.
  case_decide as Hn.
  - assert (length l = 0) as Hl0 by lia. destruct l; [|done]. clear Hl0. cbn [length app].
    rewrite Nat.add_0_r, take_drop, app_nil_r.
    assert (Hins : <[s_arr s := a]> (heap st) = heap st).
    { apply list_insert_id. subst a. unfold array. by destruct (lookup_lt_is_Some_2 _ _ Ha) as [x ->]. }
    do 2 eexists. split; [reflexivity|]. cbn. rewrite Hins.
    destruct s as [i n]; cbn in *. split_and!; try done. 
  - do 2 eexists. split; [reflexivity|]. cbn.
    assert (Harr : array (heap st ++ [take (s_len s) a ++ l ++ replicate (grow (length a) (s_len s + length l) - (s_len s + length l)) x00])
                     (mkSlice (length (heap st)) (s_len s + length l)) =
                   take (s_len s) a ++ l ++ replicate (grow (length a) (s_len s + length l) - (s_len s + length l)) x00).
    { unfold array. cbn. by rewrite list_lookup_middle. }
    unfold wf, tight, cap. rewrite Harr. cbn.
    rewrite !length_app, !length_take, length_replicate. cbn.
    split_and!; try done; try lia.
    + by exists [take (s_len s) a ++ l ++ replicate (grow (length a) (s_len s + length l) - (s_len s + length l)) x00].
    + rewrite app_assoc. rewrite take_app_le by (rewrite length_app, length_take; lia).
      rewrite take_ge; [done|]. rewrite length_app, length_take. lia.
    + intros Hg. unfold wf, cap. rewrite Harr, Hg. cbn. rewrite !length_app, !length_take, length_replicate. cbn. lia.
Qed.

Definition is_key (h : list bytes) (k : slice) (c : bytes) : Prop := wf h k ∧ contents h k = c.

Lemma refines_append {A B} (st : HS) (s : slice) (l : bytes) (k : slice → GM HS A) (mp : GM world B) R :
  tight (heap st) s → kept st →
  (∀ st' key, heap st `prefix_of` heap st' → kept st' →
     is_key (heap st') key (contents (heap st) s ++ l) →
     ((∀ c n, grow c n = n) → tight (heap st') key) → refines_at st' (k key) mp R) →
  refines_at st (bind (append s l) k) mp R.
Proof.
  intros Hs Hk H. destruct (append_tight s l st Hs) as (key & [h w g] & Ha & Hw & Hg & Hp & Hwf & Hc & _ & Ht).
  cbn in *. subst w g. destruct st as [h0 w0 g0]. cbn in *.
  specialize (H (mkHS h w0 g0) key Hp (kept_prefix _ _ _ _ _ Hk Hp) (conj Hwf Hc) Ht).
  unfold refines_at, bind in *. rewrite Ha. cbn in *.
  destruct (k key _) as [r st1], (mp w0) as [r' w1]. destruct H as (-> & Hp1 & Hk1 & Hr).
  split_and!; [done|by trans h|done|done].
Qed.

Lemma bind_try_append {A} (s : slice) (l : bytes) (k : goerr + slice → GM HS A) (st : HS) :
  bind (try (append s l)) k st = bind (append s l) (k ∘ inr) st.
Proof. unfold bind, try, append. by case_decide. Qed.

Lemma refines_try_append {A B} (st : HS) (s : slice) (l : bytes) (k : goerr + slice → GM HS A)
    (mp : GM world B) R :
  tight (heap st) s → kept st →
  (∀ st' key, heap st `prefix_of` heap st' → kept st' →
     is_key (heap st') key (contents (heap st) s ++ l) →
     ((∀ c n, grow c n = n) → tight (heap st') key) → refines_at st' (k (inr key)) mp R) →
  refines_at st (bind (try (append s l)) k) mp R.
Proof.
  intros Hs Hk H. unfold refines_at. rewrite bind_try_append. by apply (refines_append st s l (k ∘ inr)).
Qed.

Lemma refines_write (st : HS) (key : slice) (c : bytes) (f : bytes → GM world (option goerr)) :
  is_key (heap st) key c → kept st → refines_at st (write key f) (f c) (λ _ e e', e = e').
Proof.
  intros [Hw Hc] Hk. unfold refines_at, write, bind, gets, lift. rewrite Hc. cbn.
  destruct (f c (hworld st)) as [[e|e|] w]; try by split_and!. cbn.
  destruct e as [e|]; cbn; split_and!; try done.
  unfold kept. cbn. apply Forall_app. split; [exact Hk|by constructor].
Qed.
Lemma refines_hSet (st : HS) (key : slice) (c v : bytes) (m : byte) :
  is_key (heap st) key c → kept st →
  refines_at st (hSet key v m) (txnSet c v m) (λ _ e e', e = e').
Proof. apply (refines_write st key c (λ c, txnSet c v m)). Qed.
Lemma refines_hDelete (st : HS) (key : slice) (c : bytes) :
  is_key (heap st) key c → kept st → refines_at st (hDelete key) (txnDelete c) (λ _ e e', e = e').
Proof. apply (refines_write st key c txnDelete). Qed.

(** A copy is a new array without room. *)
Lemma refines_copy {A B} (st : HS) (s : slice) (c : bytes) (k : slice → GM HS A) (mp : GM world B) R :
  is_key (heap st) s c → kept st →
  (∀ st' key, heap st `prefix_of` heap st' → kept st' → is_key (heap st') key c →
     tight (heap st') key → refines_at st' (k key) mp R) →
  refines_at st (bind (copy_of s) k) mp R.
Proof.
  intros [Hw Hc] Hk H. pose proof (length_contents _ _ Hw) as Hlen. rewrite Hc in Hlen.
  destruct st as [h w g]. cbn in *.
  set (key := mkSlice (length h) (s_len s)).
  assert (Harr : array (h ++ [c]) key = c) by (unfold array; cbn; by rewrite list_lookup_middle).
  assert (Hp : h `prefix_of` h ++ [c]) by by exists [c].
  assert (Hwf : wf (h ++ [c]) key).
  { split; [rewrite length_app; cbn; lia|]. unfold cap. rewrite Harr. cbn. lia. }
  specialize (H (mkHS (h ++ [c]) w g) key Hp (kept_prefix _ _ _ _ _ Hk Hp)).
  unfold refines_at, bind, copy_of, alloc in *. cbn in *. rewrite Hc. fold key.
  assert (Hkey : is_key (h ++ [c]) key c).
  { split; [done|]. unfold contents. rewrite Harr. apply take_ge. cbn. lia. }
  assert (Ht : tight (h ++ [c]) key) by (split; [done|]; unfold cap; rewrite Harr; cbn; lia).
  specialize (H Hkey Ht). destruct (k key _) as [r st1], (mp w) as [r' w1].
  destruct H as (-> & Hp1 & Hk1 & Hr). split_and!; [done|by trans (h ++ [c])|done|done].
Qed.

Lemma refines_hGet (st : HS) (key : slice) (c : bytes) :
  is_key (heap st) key c → kept st →
  refines_at st (hGet key) (gets (λ w, txn_get (w_txn w) c)) (λ _ e e', e = e').
Proof. intros [Hw Hc] Hk. unfold refines_at, hGet, gets. rewrite Hc. by split_and!. Qed.

(** *** The operations through a bucket without room *)
Section ops.
Context (st : HS) (s : slice) (p : bytes).
Hypothesis (Hs : tight (heap st) s) (Hp : contents (heap st) s = p) (Hk : kept st).

Lemma bucket_len : s_len s = length p.
Proof using Hs Hp. rewrite <- Hp. symmetry. apply length_contents, Hs. Qed.

Lemma put_refines (key value : bytes) :
  refines_at st (h_put s key value) (put (mkBucket p) key value) (λ _ _ _, True).
Proof using Hs Hp Hk.
  unfold h_put, put, h_addPrefix, addPrefix. cbn. rewrite bucket_len.
  case_decide; [by apply refines_fail|]. case_decide; [by apply refines_fail|].
  apply refines_append; [done|done|]. intros st' k Hx Hk' Hkey _. rewrite Hp in Hkey.
  eapply refines_bind; [by apply refines_hSet|]. intros st2 e e' _ Hk2 <-. by apply refines_check.
Qed.

Lemma delete_refines (key : bytes) :
  refines_at st (h_delete s key) (delete (mkBucket p) key) (λ _ _ _, True).
Proof using Hs Hp Hk.
  unfold h_delete, delete, h_addPrefix, addPrefix. cbn.
  case_decide; [by apply refines_ret|]. case_decide; [by apply refines_fail|].
  apply refines_append; [done|done|]. intros st' k Hx Hk' Hkey _. rewrite Hp in Hkey.
  eapply refines_bind; [by apply refines_hDelete|]. intros st2 e e' _ Hk2 <-.
  case_decide; [by apply refines_ret|by apply refines_check].
Qed.

Lemma get_refines (key : bytes) :
  refines_at st (h_get s key) (get (mkBucket p) key) (λ _ v v', v = v').
Proof using Hs Hp Hk.
  unfold h_get, get, h_addPrefix, addPrefix. cbn.
  case_decide; [by apply refines_ret|]. case_decide; [by apply refines_ret|].
  apply refines_try_append; [done|done|].
  intros st' k Hx Hk' Hkey _. rewrite Hp in Hkey. cbn.
  eapply refines_bind; [by apply refines_hGet|]. intros st2 r r' _ Hk2 <-.
  destruct r as [e|item]; [by apply refines_ret|].
  destruct (item_value item) as [e|[|b v]]; [by apply refines_ret|by split_and!|by apply refines_ret].
Qed.

(** A bucket that is made has no room. *)
Lemma bucket_refines (key : bytes) (errorIfExists : bool) :
  refines_at st (h_bucket s key errorIfExists) (bucket (mkBucket p) key errorIfExists)
    (λ h k b, tight h k ∧ contents h k = b_prefix b).
Proof using Hs Hp Hk.
  unfold h_bucket, bucket, h_addPrefix, addPrefix. cbn.
  case_decide; [by apply refines_fail|]. case_decide; [by apply refines_fail|].
  apply refines_append; [done|done|]. intros st0 k0 Hx0 Hk0 Hkey0 _. rewrite Hp in Hkey0.
  apply (refines_copy _ _ (p ++ key)); [done|done|]. intros st' k Hx Hk' Hkey Ht.
  eapply refines_bind; [by apply refines_hGet|]. intros st2 r r' Hx2 Hk2 <-.
  assert (Ht2 : tight (heap st2) k) by by eapply tight_prefix.
  assert (Hkey2 : is_key (heap st2) k (p ++ key)).
  { destruct Hkey as [Hw Hc]. split; [apply Ht2|]. by rewrite (contents_prefix (heap st')). }
  destruct r as [e|item].
  - rewrite bucket_len. eapply refines_bind; [by apply refines_hSet|].
    intros st3 e1 e2 Hx3 Hk3 <-. destruct e1; [by apply refines_fail|].
    apply refines_ret; [done|]. split; [by eapply tight_prefix|].
    rewrite (contents_prefix (heap st2)); [apply Hkey2|apply Ht2|done].
  - case_decide; [|by apply refines_fail]. destruct errorIfExists; [by apply refines_fail|].
    apply refines_ret; [done|]. split; [done|apply Hkey2].
Qed.

(** What is opened has room as [grow] leaves it. *)
Definition nested_rel (h : list bytes) (k : option slice) (b : option Bucket) : Prop :=
  match k, b with
  | Some k, Some b => is_key h k (b_prefix b) ∧ ((∀ c n, grow c n = n) → tight h k)
  | None, None => True
  | _, _ => False
  end.

Lemma nested_refines (key : bytes) :
  refines_at st (h_NestedReadWriteBucket s key) (NestedReadWriteBucket (mkBucket p) key)
    nested_rel.
Proof using Hs Hp Hk.
  unfold h_NestedReadWriteBucket, NestedReadWriteBucket, h_addPrefix, addPrefix. cbn.
  apply refines_gets. cbn. destruct (w_closed (hworld st)); [by apply refines_ret|].
  case_decide; [by apply refines_ret|]. apply refines_try_append; [done|done|].
  intros st' k Hx Hk' Hkey Ht. rewrite Hp in Hkey.
  eapply refines_bind; [by apply refines_hGet|]. intros st2 r r' Hx2 Hk2 <-.
  destruct r as [e|item]; [by apply refines_ret|]. case_decide; [by apply refines_ret|].
  destruct Hkey as [Hw Hc]. rewrite <- (contents_prefix _ _ _ Hw Hx2) in Hc.
  assert (Hw2 : wf (heap st2) k) by by eapply wf_prefix.
  unfold refines_at, bind, gets, lift, ret. cbn. rewrite Hc. split_and!; try done.
  intros Hg. eapply tight_prefix; [by apply Ht|done].
Qed.
End ops.

(** *** Sessions through buckets without room *)
Definition opens (op : bop) : bool := match op with BNested _ _ => true | _ => false end.
Definition exact : Prop := ∀ c n, grow c n = n.
Definition same_bucket (h : list bytes) (s : slice) (b : Bucket) : Prop :=
  tight h s ∧ contents h s = b_prefix b.
Definition same_buckets (h : list bytes) : list slice → list Bucket → Prop := Forall2 (same_bucket h).

Lemma same_buckets_prefix (h h' : list bytes) bs ps :
  same_buckets h bs ps → h `prefix_of` h' → same_buckets h' bs ps.
Proof.
  intros Hb Hp. eapply Forall2_impl; [exact Hb|]. intros s b [Ht Hc].
  split; [by eapply tight_prefix|]. by rewrite (contents_prefix h); [|apply Ht|].
Qed.

(** The results of an operation on both sides, by cases. *)
Local Ltac op_case H :=
  pose proof H as Hr; unfold refines_at in Hr;
  match type of Hr with let '(_, _) := ?m in let '(_, _) := ?m' in _ =>
    destruct m as [r st'], m' as [r' w'] end;
  destruct Hr as (-> & Hp & Hk' & Hr);
  repeat match goal with
  | o : outcome _ |- _ => destruct o
  | o : option slice |- _ => destruct o
  | o : option Bucket |- _ => destruct o
  | u : unit |- _ => destruct u
  end; try done; cbn in *; subst;
  (split_and!; [done|done|done|]); try by eapply same_buckets_prefix.

Lemma step_refines (op : bop) (bs : list slice) (ps : list Bucket) (st : HS) :
  kept st → same_buckets (heap st) bs ps → (opens op = true → exact) →
  let '(r, bs', st') := h_step op bs st in
  let '(r', ps', w') := p_step op ps (hworld st) in
  r' = r ∧ w' = hworld st' ∧ kept st' ∧ same_buckets (heap st') bs' ps'.
Proof.
  intros Hk Hb Ho.
  assert (Hat : ∀ i, match bs !! i, ps !! i with
                     | Some s, Some b => same_bucket (heap st) s b
                     | None, None => True
                     | _, _ => False
                     end).
  { intros i. destruct (bs !! i) as [s|] eqn:Es.
    - by destruct (Forall2_lookup_l _ _ _ _ _ Hb Es) as (b & -> & Hsb).
    - destruct (ps !! i) as [b|] eqn:Ep; [|done].
      destruct (Forall2_lookup_r _ _ _ _ _ Hb Ep) as (s & Hs & _). congruence. }
  destruct op as [i key v|i key|i key|i key e|i key]; cbn [h_step p_step];
    specialize (Hat i);
    (destruct (bs !! i) as [s|], (ps !! i) as [[p]|]; try done); destruct Hat as [Ht Hc].
  - op_case (put_refines st s p Ht Hc Hk key v).
  - op_case (delete_refines st s p Ht Hc Hk key).
  - op_case (get_refines st s p Ht Hc Hk key).
  - op_case (bucket_refines st s p Ht Hc Hk key e).
    apply Forall2_app; [by eapply same_buckets_prefix|].
    constructor; [exact Hr|constructor].
  - op_case (nested_refines st s p Ht Hc Hk key).
    destruct Hr as [[Hw Hkc] Hg]. apply Forall2_app; [by eapply same_buckets_prefix|].
    constructor; [|constructor]. split; [by apply Hg, Ho|done].
Qed.

(** C37. Where taking keys for values is right: a caller that works through
    buckets whose prefixes have no room behind them (those that were created in
    the transaction, and all when the runtime allocates no more than asked for)
    gets the results of the operations of [Badger], leaves the same database
    and ends with buckets of the same prefixes, and every slice the library
    holds for the commit still holds the key that was given. *)
Theorem session_refines (ops : list bop) (bs bs' : list slice) (ps : list Bucket) (st st' : HS)
    (rs : list bres) :
  kept st → same_buckets (heap st) bs ps →
  Forall (λ op, opens op = false) ops ∨ exact →
  session h_step ops bs st = (rs, bs', st') →
  ∃ ps', session p_step ops ps (hworld st) = (rs, ps', hworld st') ∧
    same_buckets (heap st') bs' ps' ∧
    Forall (λ kc, contents (heap st') kc.1 = kc.2) (given st').
Proof.
  intros Hk Hb Ho Hrun. cut (∃ ps', session p_step ops ps (hworld st) = (rs, ps', hworld st') ∧
    same_buckets (heap st') bs' ps' ∧ kept st').
  { intros (ps' & H1 & H2 & H3). exists ps'. split_and!; [done|done|].
    eapply Forall_impl; [exact H3|]. by intros kc [_ ?]. }
  revert bs ps st rs Hk Hb Ho Hrun.
  induction ops as [|op ops IH]; intros bs ps st rs Hk Hb Ho Hrun.
  { injection Hrun as <- <- <-. by exists ps. }
  cbn [session] in Hrun |- *. pose proof (step_refines op bs ps st Hk Hb) as H.
  destruct (h_step op bs st) as [[r bs1] st1].
  destruct (p_step op ps (hworld st)) as [[r' ps1] w1].
  destruct H as (-> & -> & Hk1 & Hb1).
  { intros Hop. destruct Ho as [Ho|Ho]; [|done]. apply Forall_cons in Ho as [Ho _]. congruence. }
  destruct (session h_step ops bs1 st1) as [[rs1 bs2] st2] eqn:E. injection Hrun as <- <- <-.
  destruct (IH bs1 ps1 st1 rs1) as (ps' & -> & H2 & H3); [done|done| |done|by exists ps'].
  destruct Ho as [Ho|Ho]; [left|by right]. by apply Forall_cons in Ho as [_ Ho].
Qed.

(** ** With room behind a prefix *)

Lemma append_room (s : slice) (l : bytes) (st : HS) :
  wf (heap st) s → s_len s + length l ≤ cap (heap st) s →
  ∃ h, append s l st = (Ok (mkSlice (s_arr s) (s_len s + length l)), mkHS h (hworld st) (given st)) ∧
    contents h (mkSlice (s_arr s) (s_len s + length l)) = contents (heap st) s ++ l ∧
    contents h s = contents (heap st) s ∧ cap h s = cap (heap st) s ∧ length h = length (heap st).
Proof.
  intros [Ha Hl] Hroom. unfold append. rewrite decide_True by done. eexists. split; [reflexivity|].
  unfold contents, cap in *. set (a := array (heap st) s) in *.
  assert (Harr : ∀ n, array (<[s_arr s := take (s_len s) a ++ l ++ drop (s_len s + length l) a]> (heap st))
                  (mkSlice (s_arr s) n) = take (s_len s) a ++ l ++ drop (s_len s + length l) a).
  { intros n. unfold array. cbn. by rewrite list_lookup_insert_eq. }
  destruct s as [i n]; cbn in *. rewrite !Harr. rewrite length_insert, !length_app, length_take, length_drop.
  split_and!; [|rewrite take_app_le by (rewrite length_take; lia); by rewrite take_take, Nat.min_id|lia|done].
  rewrite app_assoc, take_app_le by (rewrite length_app, length_take; lia).
  apply take_ge. rewrite length_app, length_take. lia.
Qed.

Lemma put_room (s : slice) (key value : bytes) (st st' : HS) :
  wf (heap st) s → s_len s + length key ≤ cap (heap st) s → h_put s key value st = (Ok tt, st') →
  let k := mkSlice (s_arr s) (s_len s + length key) in
  given st' = given st ++ [(k, contents (heap st) s ++ key)] ∧
  contents (heap st') k = contents (heap st) s ++ key ∧
  contents (heap st') s = contents (heap st) s ∧ cap (heap st') s = cap (heap st) s ∧
  wf (heap st') s.
Proof.
  intros Hw Hroom. unfold h_put, h_addPrefix. do 2 (case_decide; [done|]).
  destruct (append_room s key st Hw Hroom) as (h & Ha & Hc & Hs & Hcap & Hlen).
  unfold bind at 1. rewrite Ha. unfold hSet, write, bind, gets, lift, txnSet. cbn -[contents].
  destruct (txn_set _ _ _ _) as [[e|] t]; cbn -[contents]; [done|]. intros [= <-]. cbn -[contents].
  split_and!; [by rewrite Hc|done|done|done|]. destruct Hw as [Hi Hl]. split; [lia|by rewrite Hcap].
Qed.

Lemma nested_room (s k : slice) (key : bytes) (st st' : HS) :
  wf (heap st) s → s_len s + length key ≤ cap (heap st) s →
  h_NestedReadWriteBucket s key st = (Ok (Some k), st') →
  k = mkSlice (s_arr s) (s_len s + length key) ∧
  contents (heap st') k = contents (heap st) s ++ key ∧
  contents (heap st') s = contents (heap st) s ∧ cap (heap st') s = cap (heap st) s ∧
  wf (heap st') s.
Proof.
  intros Hw Hroom. unfold h_NestedReadWriteBucket, h_addPrefix, bind at 1, gets at 1. cbn.
  destruct (w_closed (hworld st)); [done|]. case_decide; [done|]. rewrite bind_try_append.
  destruct (append_room s key st Hw Hroom) as (h & Ha & Hc & Hs & Hcap & Hlen).
  unfold bind at 1. rewrite Ha. unfold hGet, bind, gets, lift. cbn.
  destruct (txn_get _ _) as [e|item]; [done|]. case_decide; [done|]. intros [= <- <-]. cbn.
  split_and!; try done. destruct Hw as [Hi Hl]. split; [lia|by rewrite Hcap].
Qed.

(** C38. Where it is wrong: with room behind the prefix of a bucket, as
    [NestedReadWriteBucket] leaves it when the runtime rounds the size of the
    new array up, two puts of keys of one length give the library one slice
    twice, and at the commit both entries have the second key: the first key is
    lost.  Likewise the second nested bucket that is opened from such a bucket
    takes the place of the first: what is then written to the first goes to
    the second. *)
Theorem room_loses_keys (s : slice) (k1 k2 : bytes) (st st1 st2 : HS) :
  wf (heap st) s → s_len s + length k1 ≤ cap (heap st) s → length k1 = length k2 →
  (∀ v1 v2, h_put s k1 v1 st = (Ok tt, st1) → h_put s k2 v2 st1 = (Ok tt, st2) →
     ∃ key, given st2 = given st ++ [(key, contents (heap st) s ++ k1);
                                     (key, contents (heap st) s ++ k2)] ∧
       contents (heap st2) key = contents (heap st) s ++ k2) ∧
  (∀ b1 b2, h_NestedReadWriteBucket s k1 st = (Ok (Some b1), st1) →
     h_NestedReadWriteBucket s k2 st1 = (Ok (Some b2), st2) →
     contents (heap st1) b1 = contents (heap st) s ++ k1 ∧
     contents (heap st2) b1 = contents (heap st) s ++ k2).
Proof.
  intros Hw Hroom Hlen. split.
  - intros v1 v2 H1 H2. apply put_room in H1 as (Hg1 & _ & Hs1 & Hcap1 & Hw1); [|done|done].
    apply put_room in H2 as (Hg2 & Hc2 & _); [|done|by rewrite Hcap1, <- Hlen].
    rewrite <- Hlen in Hg2, Hc2. rewrite Hs1 in Hg2, Hc2. eexists. split; [|exact Hc2].
    by rewrite Hg2, Hg1, <- app_assoc.
  - intros b1 b2 H1 H2. apply nested_room in H1 as (-> & Hc1 & Hs1 & Hcap1 & Hw1); [|done|done].
    apply nested_room in H2 as (-> & Hc2 & _); [|done|by rewrite Hcap1, <- Hlen].
    split; [done|]. by rewrite Hlen, Hc2, Hs1.
Qed.
End Alias.

(** ** [setTx]

    A bucket with its transaction and the buckets made or opened through
    [bucket]; those that [NestedReadWriteBucket] opens are not among them. *)
Inductive BucketTree (X : Type) := BNode (txn : X) (buckets : list (BucketTree X)).
Arguments BNode {X} _ _.

Fixpoint setTx {X} (tx : X) (b : BucketTree X) : BucketTree X :=
  match b with BNode _ buckets => BNode tx (setTx tx <$> buckets) end.

Fixpoint txns {X} (b : BucketTree X) : list X :=
  match b with BNode txn buckets => txn :: concat (txns <$> buckets) end.

Fixpoint setTx_txns {X} (tx : X) (b : BucketTree X) : Forall (λ t, t = tx) (txns (setTx tx b)).
Proof.
  destruct b as [t l]. cbn. constructor; [done|].
  induction l as [|b l IH]; cbn; [constructor|]. apply Forall_app. split; [apply setTx_txns|exact IH].
Qed.

(** ** Witnesses: arrays of multiples of eight bytes *)
Definition round8 (c n : nat) : nat := (n + 7) / 8 * 8.

(** A prefix without room: [root], of four bytes. *)
Definition hs0 : HS (T := MemTxn) := mkHS [bs "root"] w1 [].
Definition root_slice : slice := mkSlice 0 4.

Lemma root_same : same_buckets (heap hs0) [root_slice] [root].
Proof. repeat constructor. Qed.

(** In the store [w1] the bucket [a] of [root] is opened: two puts through it. *)
Definition opened_a : slice * HS (T := MemTxn) :=
  match h_NestedReadWriteBucket round8 root_slice (bs "a") hs0 with
  | (Ok (Some k), st) => (k, st)
  | (_, st) => (root_slice, st)
  end.

Lemma session_refines_witness :
  let ops := [BPut 0 (bs "k1") (bs "v"); BCreate 0 (bs "b") false; BPut 1 (bs "x") (bs "w");
              BPut 1 (bs "y") (bs "z"); BGet 1 (bs "x")] in
  ∃ ps', session p_step ops [root] w1 =
    ([RUnit (Ok tt); RBucket (Ok true); RUnit (Ok tt); RUnit (Ok tt); RValue (Ok (Some (bs "w")))],
     ps', hworld (session (h_step round8) ops [root_slice] hs0).2) ∧ length ps' = 2.
Proof.
  intros ops. destruct (session (h_step round8) ops [root_slice] hs0) as [[rs bs'] st'] eqn:E.
  assert (Hrs : rs = [RUnit (Ok tt); RBucket (Ok true); RUnit (Ok tt); RUnit (Ok tt);
                      RValue (Ok (Some (bs "w")))] ∧ length bs' = 2).
  { change rs with (rs, bs', st').1.1. change bs' with (rs, bs', st').1.2 at 2. rewrite <- E.
    split; vm_compute; reflexivity. }
  destruct (session_refines round8 ops [root_slice] bs' [root] hs0 st' rs) as (ps' & Hp & Hb & _).
  - constructor.
  - apply root_same.
  - left. repeat constructor.
  - exact E.
  - exists ps'. destruct Hrs as [-> Hl]. split; [exact Hp|].
    apply Forall2_length in Hb. congruence.
Defined.

Lemma room_loses_keys_witness :
  ∃ st1 st2 key,
    h_put round8 opened_a.1 (bs "k1") (bs "v") opened_a.2 = (Ok tt, st1) ∧
    h_put round8 opened_a.1 (bs "k2") (bs "w") st1 = (Ok tt, st2) ∧
    given st2 = [(key, bs "rootak1"); (key, bs "rootak2")] ∧
    contents (heap st2) key = bs "rootak2".
Proof.
  destruct (h_put round8 opened_a.1 (bs "k1") (bs "v") opened_a.2) as [r1 st1] eqn:E1.
  destruct (h_put round8 opened_a.1 (bs "k2") (bs "w") st1) as [r2 st2] eqn:E2.
  assert (H1 : r1 = Ok tt) by (change r1 with (r1, st1).1; rewrite <- E1; vm_compute; reflexivity).
  assert (H2 : r2 = Ok tt).
  { change r2 with (r2, st2).1. rewrite <- E2. change st1 with (r1, st1).2. rewrite <- E1.
    vm_compute. reflexivity. }
  subst r1 r2.
  destruct (room_loses_keys round8 opened_a.1 (bs "k1") (bs "k2") opened_a.2 st1 st2) as [H _].
  - split; apply Nat.leb_le; reflexivity.
  - apply Nat.leb_le. reflexivity.
  - reflexivity.
  - destruct (H (bs "v") (bs "w") E1 E2) as (key & Hg & Hc).
    exists st1, st2, key. split_and!; [reflexivity|exact E2|exact Hg|exact Hc].
Defined.
