(* ===== verification/Cursor.v ===== *)
(** * [badgerdb/]: cursors

    [Cursor] of [badgerdb/bucket.go] with its methods of [badgerdb/db.go].  A
    badger iterator visits the items it saw when it was created: it is the list
    of these items and the list that is left, with the current item at its
    head.  What badger does when [Item] or [Next] is called past the end is a
    parameter, since its documentation leaves it open. *)
From S2P Require Import Prelude Kv Badger.

Record Iterator := mkIterator { it_all : list Item; it_rest : list Item }.

Definition Rewind (it : Iterator) : Iterator := mkIterator (it_all it) (it_all it).
Definition Seek_it (k : bytes) (it : Iterator) : Iterator :=
  mkIterator (it_all it) (it_seek k (it_all it)).

(** A reverse iterator goes to the last key not above [k]. *)
Fixpoint rev_seek (k : bytes) (l : list Item) : list Item :=
  match l with
  | [] => []
  | i :: l' => if blt k (item_key i) then rev_seek k l' else l
  end.
Definition RSeek_it (k : bytes) (it : Iterator) : Iterator :=
  mkIterator (it_all it) (rev_seek k (it_all it)).

Record Cursor := mkCursor {
  iterator : Iterator;
  reverseIterator : Iterator;
  prefix : bytes;
  ck : option bytes            (* the current key, nil at first *)
}.

Definition set_iterator (it : Iterator) (c : Cursor) : Cursor :=
  mkCursor it (reverseIterator c) (prefix c) (ck c).
Definition set_reverse (it : Iterator) (c : Cursor) : Cursor :=
  mkCursor (iterator c) it (prefix c) (ck c).
Definition set_ck (k : bytes) (c : Cursor) : Cursor :=
  mkCursor (iterator c) (reverseIterator c) (prefix c) (Some k).

(** What the methods return: a key and a value, either of which may be nil. *)
Abbreviation pair := (option bytes * option bytes)%type.

Section Cursor.
Context {T : Type} `{!BadgerTxn T}.
Context (item_end : outcome Item) (next_end : outcome (list Item)).

Abbreviation CM := (GM (World (T := T) * Cursor)).

(** [badgerCursor]: the forward iterator reads the transaction, the reverse one
    a new read-only transaction. *)
Definition badgerCursor (b : Bucket) (w : World (T := T)) : Cursor :=
  mkCursor (mkIterator (txn_items (w_txn w)) (txn_items (w_txn w)))
           (mkIterator (rev (txn_items (txn_snapshot (w_txn w))))
                       (rev (txn_items (txn_snapshot (w_txn w)))))
           (b_prefix b) None.

Definition ReadWriteCursor (b : Bucket) (w : World) : option Cursor :=
  if w_closed w then None else Some (badgerCursor b w).

(** In a read-only transaction both iterators read new transactions. *)
Definition ReadCursor (b : Bucket) (w : World) : option Cursor :=
  if w_closed w then None
  else if negb (w_writable w) then
    Some (mkCursor (mkIterator (txn_items (txn_snapshot (w_txn w)))
                               (txn_items (txn_snapshot (w_txn w))))
                   (mkIterator (rev (txn_items (txn_snapshot (w_txn w))))
                               (rev (txn_items (txn_snapshot (w_txn w)))))
                   (b_prefix b) None)
  else ReadWriteCursor b w.

Definition cur : CM Cursor := gets snd.
Definition upd (f : Cursor → Cursor) : CM unit := modify (λ '(w, c), (w, f c)).
Definition lift {S A} (o : outcome A) : GM S A := λ s, (o, s).

Definition Item_of (it : Iterator) : CM Item :=
  match it_rest it with [] => lift item_end | i :: _ => ret i end.

Definition Next_of (it : Iterator) : CM Iterator :=
  match it_rest it with
  | [] => let! r := lift next_end in ret (mkIterator (it_all it) r)
  | _ :: l => ret (mkIterator (it_all it) l)
  end.

(** The pair returned for an owned item. *)
Definition pair_of (n : nat) (item : Item) (val : bytes) : pair :=
  (Some (drop n (item_key item)),
   if decide (item_meta item = metaBucket) then None else Some (drop 1 val)).

(** The common end of [First], [Next] and [Seek]: return the current item if
    it is an entry of the bucket, else go on as [Next] does, which at this
    point has a current key and only advances the iterator. *)
Fixpoint settle (all rest : list Item) : CM pair :=
  upd (set_iterator (mkIterator all rest)) ;;
  let! c := cur in
  match rest with
  | [] => ret (None, None)
  | item :: rest' =>
      if decide (¬ has_prefix (prefix c) item) then ret (None, None) else
      upd (set_ck (item_key item)) ;;
      match item_value item with
      | inl _ => ret (None, None)
      | inr val =>
          match owned_by (prefix c) (item_key item) val with
          | Ok (true, n) => ret (pair_of n item val)
          | Ok (false, _) => settle all rest'
          | _ => panic
          end
      end
  end.

Definition settle_at (it : Iterator) : CM pair := settle (it_all it) (it_rest it).

Definition unless_closed_nil (m : CM pair) : CM pair :=
  let! closed := gets (λ s, w_closed s.1) in
  if (closed : bool) then ret (None, None) else m.

(** [Seek(prefix)], and past the entry of the bucket itself. *)
Definition seek_first : CM Iterator :=
  let! c := cur in
  let it := Seek_it (prefix c) (iterator c) in
  upd (set_iterator it) ;;
  let! item := Item_of it in
  if decide (prefix c = item_key item) then Next_of it else ret it.

Definition First : CM pair :=
  unless_closed_nil (
    upd (λ c, set_iterator (Rewind (iterator c)) c) ;;
    let! it := seek_first in settle_at it).

Definition Next : CM pair :=
  unless_closed_nil (
    let! c := cur in
    let! it := match ck c with None => seek_first | Some _ => Next_of (iterator c) end in
    settle_at it).

(** [Last] tests [c.ck[:n]], the key the cursor was at before the call.  The
    loop also gives what the iterator has left; [None] is an early return. *)
Fixpoint last_loop (p : bytes) (ckey : option bytes) (rest : list Item)
    (lastValid : option Item) : outcome (option (option Item) * list Item) :=
  match rest with
  | [] => Ok (Some lastValid, [])
  | item :: rest' =>
      if decide (¬ has_prefix p item) then Ok (Some lastValid, rest)
      else if decide (p = item_key item) then last_loop p ckey rest' lastValid
      else match item_value item with
      | inl _ => Ok (None, rest)
      | inr [] => Panic
      | inr (n :: _) =>
          match slice_to (default [] ckey) (nat_of_byte n) with
          | None => Panic
          | Some owner =>
              last_loop p ckey rest' (if decide (owner = p) then Some item else lastValid)
          end
      end
  end.

Definition Last : CM pair :=
  unless_closed_nil (
    let! c := cur in
    let all := it_all (iterator c) in
    let! res := lift (last_loop (prefix c) (ck c) (it_seek (prefix c) all) None) in
    let '(r, rest) := (res : option (option Item) * list Item) in
    upd (set_iterator (mkIterator all rest)) ;;
    match r with
    | None | Some None => ret (None, None)
    | Some (Some item) =>
        match item_value item with
        | inl _ => ret (None, None)
        | inr [] => panic
        | inr (n :: val) =>
            upd (set_ck (item_key item)) ;;
            match slice_to (item_key item) (nat_of_byte n) with
            | None => panic
            | Some _ => ret (pair_of (nat_of_byte n) item (n :: val))
            end
        end
    end).

Definition Prev : CM pair :=
  unless_closed_nil (
    let! c := cur in
    let! rit :=
      match ck c with
      | None =>
          let rit := RSeek_it (prefix c) (reverseIterator c) in
          let! item := Item_of rit in
          if decide (prefix c = item_key item) then Next_of rit else ret rit
      | Some k => Next_of (RSeek_it k (reverseIterator c))
      end in
    upd (set_reverse rit) ;;
    match it_rest rit with
    | [] => ret (None, None)
    | item :: _ =>
        upd (set_iterator (Seek_it (item_key item) (iterator c))) ;;
        if decide (¬ has_prefix (prefix c) item) then ret (None, None) else
        match item_value item with
        | inl _ => ret (None, None)
        | inr val =>
            match owned_by (prefix c) (item_key item) val with
            | Ok (true, n) => upd (set_ck (item_key item)) ;; ret (pair_of n item val)
            | Ok (false, _) => ret (None, None)
            | _ => panic
            end
        end
    end).

(** [None] is the nil seek key. *)
Definition Seek (seek : option bytes) : CM pair :=
  unless_closed_nil (
    match seek with
    | None => First
    | Some seek =>
        let! c := cur in
        match addPrefix (prefix c) seek with
        | inl _ => ret (None, None)
        | inr seekKey => settle_at (Seek_it seekKey (iterator c))
        end
    end).

(** [Cursor.Delete], on a cursor of [badgerCursor]: its transaction is that of
    the bucket.  The error is badger's, not converted. *)
Definition Delete_cur : CM unit := λ '(w, c),
  if w_closed w then (Err (EKind KInvalid ""), (w, c)) else
  match it_rest (iterator c) with
  | item :: _ =>
      if decide (has_prefix (prefix c) item) then
        if decide (item_meta item ≠ metaBucket) then
          match txnDelete (item_key item) w with
          | (Ok None, w') => (Ok tt, (w', c))
          | (Ok (Some e), w') => (Err e, (w', c))
          | (_, w') => (Panic, (w', c))
          end
        else (Err (EKind KInvalid "cursor points to a nested bucket"), (w, c))
      else (Ok tt, (w, c))
  | [] => (Ok tt, (w, c))
  end.

(** The loop of a caller: [for k, v := c.First(); k != nil; k, v = c.Next()]. *)
Fixpoint walk (fuel : nat) (kv : pair) (acc : list (bytes * option bytes))
    : CM (list (bytes * option bytes)) :=
  match kv.1, fuel with
  | None, _ => ret acc
  | Some k, O => panic
  | Some k, S fuel =>
      let! kv' := Next in walk fuel kv' (acc ++ [(k, kv.2)])
  end.

Definition walk_all (fuel : nat) : CM (list (bytes * option bytes)) :=
  let! kv := First in walk fuel kv [].

(** ** Lemmas *)

Context `{!BadgerLaws T}.

(** What an iterator may have left: readable, well-formed items in order, none
    below [p] and none the bucket's own entry. *)
Definition listable (p : bytes) (i : Item) : Prop :=
  wf_item i ∧ (∃ v, item_value i = inr v) ∧ blt (item_key i) p = false ∧ item_key i ≠ p.
Definition good (p : bytes) (l : list Item) : Prop :=
  Forall (listable p) l ∧ StronglySorted item_lt l.

Lemma good_cons p i l : good p (i :: l) → listable p i ∧ good p l.
Proof.
  intros [H1 H2]. apply Forall_cons in H1 as [? ?].
  by apply StronglySorted_inv in H2 as [? ?].
Qed.

Lemma entry_has_prefix p i kv : wf_item i → entry p i = Some kv → has_prefix p i.
Proof.
  destruct kv as [k x]. intros Hi. rewrite entry_Some by done.
  intros (Hk & _). by exists k.
Qed.

(** Past the last item with the prefix there is no entry. *)
Lemma good_past p i l : good p (i :: l) → ¬ has_prefix p i → omap (entry p) (i :: l) = [].
Proof.
  intros [HF HS] Hp.
  assert (Hnone : ∀ j, j ∈ i :: l → entry p j = None).
  { intros j Hj. destruct (entry p j) eqn:E; [|done].
    rewrite Forall_forall in HF. destruct (HF j Hj) as (Hwf & _).
    apply entry_has_prefix in E; [|done]. exfalso.
    apply StronglySorted_inv in HS as [_ HS].
    apply elem_of_cons in Hj as [->|Hj]; [done|].
    rewrite Forall_forall in HS. specialize (HS j Hj).
    destruct (HF i) as (_ & _ & Hge & _); [set_solver|].
    by apply (blt_past_prefix p (item_key i) (item_key j)). }
  clear -Hnone. induction (i :: l) as [|j l' IH]; [done|]. simpl.
  rewrite Hnone by set_solver. apply IH. set_solver.
Qed.

(** The cursor at an item: current key set, iterator there. *)
Definition at_rest (c : Cursor) (all : list Item) (item : Item) (rest : list Item) : Prop :=
  iterator c = mkIterator all (item :: rest) ∧ ck c = Some (item_key item).

(** [settle] returns the next entry of the bucket, and stays there. *)
Lemma settle_spec p all rest w c :
  good p rest → prefix c = p →
  ∃ c', prefix c' = p ∧
    match omap (entry p) rest with
    | [] => settle all rest (w, c) = (Ok (None, None), (w, c'))
    | kv :: l => settle all rest (w, c) = (Ok (Some kv.1, kv.2), (w, c')) ∧
        ∃ item rest', at_rest c' all item rest' ∧ good p rest' ∧ omap (entry p) rest' = l ∧
          entry p item = Some kv
    end.
Proof.
  revert c. induction rest as [|item rest IH]; intros c Hg Hc.
  { exists (set_iterator (mkIterator all []) c). by split. }
  destruct (good_cons _ _ _ Hg) as [(Hwf & [v Hv] & Hge & Hne) Hg'].
  cbn [settle]. unfold bind, upd, modify, cur, gets. cbn [prefix set_iterator fst snd]. rewrite Hc.
  destruct (decide (¬ has_prefix p item)) as [Hp|Hp].
  { rewrite (good_past _ _ _ Hg Hp). by eexists (set_iterator _ c). }
  rewrite Hv. destruct (wf_owned p item v Hwf Hv) as (n & val & -> & ->).
  assert (He : entry p item = if is_owned p item then
            Some (drop (length p) (item_key item), (pair_of (length p) item (n :: val)).2)
          else None) by (unfold entry; by rewrite decide_False, Hv by done).
  simpl omap. rewrite He. destruct (is_owned p item) eqn:Ho; [|by apply IH].
  destruct (owned_length p item n val Hwf Hv Ho) as [Hn _].
  exists (set_ck (item_key item) (set_iterator (mkIterator all (item :: rest)) c)).
  split; [done|]. split; [unfold pair_of; by rewrite Hn|].
  exists item, rest. by split_and!.
Qed.

Lemma walk_spec p all fuel kv l c w acc rest item :
  w_closed w = false → prefix c = p → at_rest c all item rest → good p rest →
  omap (entry p) rest = l → length l < fuel →
  ∃ c', walk fuel (Some kv.1, kv.2) acc (w, c) = (Ok (acc ++ kv :: l), (w, c')).
Proof.
  intros Hcl. revert kv l c acc rest item.
  induction fuel as [|fuel IH]; intros kv l c acc rest item Hc [Hit Hck] Hg Hl Hf; [lia|].
  destruct (settle_spec p all rest w c Hg Hc) as (c' & Hc' & Hs). rewrite Hl in Hs.
  assert (HN : Next (w, c) = settle all rest (w, c)).
  { unfold Next, unless_closed_nil, cur, gets, bind. simpl. rewrite Hcl. simpl. rewrite Hck.
    unfold Next_of. rewrite Hit. reflexivity. }
  cbn [walk]. cbv [fst snd]. unfold bind at 1. destruct kv as [k x].
  rewrite HN. destruct l as [|kv' l'].
  - rewrite Hs. exists c'. by destruct fuel.
  - destruct Hs as (-> & item' & rest' & Hat & Hg' & Hl' & _).
    destruct (IH kv' l' c' (acc ++ [(k, x)]) rest' item') as (c2 & ->);
      [done..|simpl in Hf; lia|].
    exists c2. by rewrite <- app_assoc.
Qed.

(** Seeking in a sorted list keeps the items not below the key. *)
Lemma it_seek_filter k l :
  StronglySorted item_lt l → it_seek k l = filter (λ i, blt (item_key i) k = false) l.
Proof.
  induction 1 as [|i l Hss IH Hall]; [done|]. simpl. rewrite filter_cons.
  destruct (blt (item_key i) k) eqn:Hlt; [by rewrite decide_False|].
  rewrite decide_True by done. f_equal. symmetry. apply filter_all. intros j Hj.
  rewrite Forall_forall in Hall. specialize (Hall j Hj).
  destruct (blt (item_key j) k) eqn:E; [|done].
  by rewrite (blt_trans _ _ _ Hall E) in Hlt.
Qed.

Lemma omap_entry_seek p k l :
  Forall wf_item l → StronglySorted item_lt l →
  omap (entry p) (it_seek k l) =
    filter (λ kv : bytes * option bytes, blt (p ++ kv.1) k = false) (omap (entry p) l).
Proof.
  intros Hwf Hs. rewrite it_seek_filter by done. clear Hs.
  induction Hwf as [|i l Hi Hl IH]; [done|]. simpl.
  destruct (entry p i) as [[k' x]|] eqn:E.
  - rewrite !filter_cons. simpl.
    apply entry_Some in E as E'; [|done]. destruct E' as (Hk & _). rewrite Hk.
    case_decide; [|exact IH]. cbn [omap list_omap]. rewrite E. f_equal. exact IH.
  - rewrite filter_cons. case_decide; [|exact IH]. cbn [omap list_omap]. rewrite E. exact IH.
Qed.

Lemma omap_entry_scan p l :
  Forall wf_item l → StronglySorted item_lt l →
  omap (entry p) (it_scan p l) = omap (entry p) l.
Proof.
  intros Hwf Hs. rewrite it_scan_filter by done. clear Hs.
  induction Hwf as [|i l Hi Hl IH]; [done|]. rewrite filter_cons.
  case_decide as Hp; csimpl; rewrite IH; [done|].
  destruct (entry p i) eqn:E; [|done]. by apply entry_has_prefix in E.
Qed.

Lemma blt_app p k : k ≠ [] → blt p (p ++ k) = true.
Proof. intros Hk. destruct k; [done|]. rewrite <- (app_nil_r p) at 1. by rewrite blt_app_l. Qed.

Lemma wf_items (w : World (T := T)) : wf w → Forall wf_item (txn_items (w_txn w)).
Proof.
  intros [Hw _]. apply Forall_forall. intros i Hi. apply items_get in Hi. by eapply Hw.
Qed.

(** The items after a key at or above a key that extends [p] are listable. *)
Lemma good_seek p k w :
  wf w → readable w → k ≠ [] → good p (it_seek (p ++ k) (txn_items (w_txn w))).
Proof.
  intros Hw Hr Hk. rewrite it_seek_filter by apply items_sorted. split.
  2:{ apply StronglySorted_filter, items_sorted. }
  apply Forall_forall. intros i [Hge Hi]%list_elem_of_filter.
  pose proof (blt_app p k Hk) as Hlt. split_and!.
  - pose proof (wf_items w Hw) as HF. rewrite Forall_forall in HF. by apply HF.
  - apply items_get in Hi. by eapply Hr.
  - destruct (blt (item_key i) p) eqn:E; [|done]. by rewrite (blt_trans _ _ _ E Hlt) in Hge.
  - intros Heq. rewrite Heq in Hge. congruence.
Qed.

(** From the bucket's own key, the bucket's own item comes first. *)
Lemma seek_own p w own :
  wf w → readable w → txn_get (w_txn w) p = inr own →
  ∃ rest, it_seek p (txn_items (w_txn w)) = own :: rest ∧ item_key own = p ∧ good p rest.
Proof.
  intros Hw Hr Hg. pose proof (get_key _ _ _ Hg) as Hk.
  pose proof (items_sorted (w_txn w)) as Hs.
  assert (Hs' : StronglySorted item_lt (it_seek p (txn_items (w_txn w)))).
  { rewrite it_seek_filter by done. by apply StronglySorted_filter. }
  assert (Hin : ∀ i, i ∈ it_seek p (txn_items (w_txn w)) ↔
            blt (item_key i) p = false ∧ txn_get (w_txn w) (item_key i) = inr i).
  { intros i. by rewrite it_seek_filter, list_elem_of_filter, items_get. }
  destruct (it_seek p _) as [|h rest].
  { exfalso. apply (not_elem_of_nil own), Hin. by rewrite Hk, blt_irrefl. }
  apply StronglySorted_inv in Hs' as [Hs' Hall]. rewrite Forall_forall in Hall.
  assert (h = own) as ->.
  { assert (Ho : own ∈ h :: rest) by (apply Hin; by rewrite Hk, blt_irrefl).
    apply elem_of_cons in Ho as [->|Ho]; [done|]. specialize (Hall own Ho).
    unfold item_lt in Hall. rewrite Hk in Hall.
    destruct (proj1 (Hin h)) as [Hge _]; [set_solver|]. congruence. }
  exists rest. split_and!; [done|done|split; [|done]].
  apply Forall_forall. intros i Hi.
  destruct (proj1 (Hin i)) as [Hge Hgi]; [set_solver|]. split_and!.
  - by apply (proj1 Hw) in Hgi.
  - by eapply Hr.
  - done.
  - intros Heq. specialize (Hall i Hi). unfold item_lt in Hall.
    by rewrite Hk, Heq, blt_irrefl in Hall.
Qed.

Lemma entries_from_own p w own rest :
  wf w → it_seek p (txn_items (w_txn w)) = own :: rest → item_key own = p →
  omap (entry p) rest = omap (entry p) (txn_items (w_txn w)).
Proof.
  intros Hw Hseek Hk.
  pose proof (omap_entry_seek p p _ (wf_items w Hw) (items_sorted _)) as Ho.
  rewrite Hseek in Ho. csimpl in Ho.
  assert (He : entry p own = None) by (unfold entry; by rewrite decide_True).
  rewrite He in Ho. rewrite Ho. apply filter_all. intros kv _.
  by apply blt_prefix, prefix_app_r.
Qed.

Lemma ForEach_collect (b : Bucket) (w : World (T := T)) :
  wf w → readable w → w_closed w = false →
  ForEach b collect w [] = (Ok tt, omap (entry (b_prefix b)) (txn_items (w_txn w))).
Proof.
  intros Hw Hr Hc. unfold ForEach, converting, forEach.
  pose proof (wf_items w Hw) as HF.
  rewrite Hc, forEach_loop_collect; [by rewrite omap_entry_scan by (done || apply items_sorted)|].
  rewrite it_scan_filter by apply items_sorted.
  apply Forall_forall. intros i [_ Hi]%list_elem_of_filter. split.
  - rewrite Forall_forall in HF. by apply HF.
  - apply items_get in Hi. by eapply Hr.
Qed.

Lemma First_spec b w own :
  wf w → readable w → w_closed w = false →
  txn_get (w_txn w) (b_prefix b) = inr own →
  ∃ rest c1, good (b_prefix b) rest ∧ prefix c1 = b_prefix b ∧
    omap (entry (b_prefix b)) rest = omap (entry (b_prefix b)) (txn_items (w_txn w)) ∧
    First (w, badgerCursor b w) = settle (txn_items (w_txn w)) rest (w, c1).
Proof.
  intros Hw Hr Hc Hg. destruct (seek_own _ w own Hw Hr Hg) as (rest & Hseek & Hk & Hgood).
  exists rest. eexists. split_and!; [exact Hgood| |by eapply entries_from_own|].
  2:{ unfold First, unless_closed_nil, seek_first, cur, upd, bind, gets, modify,
        Seek_it, Rewind, badgerCursor. simpl. rewrite Hc. simpl.
      unfold Item_of. simpl. rewrite Hseek. simpl. rewrite decide_True by done.
      reflexivity. }
  done.
Qed.

(** *** Theorems *)

(** C12. A full traversal with a cursor, [First] then [Next] until a nil key,
    returns the list [ForEach] visits and terminates: one call more than the
    bucket has entries is enough.  Contents of nested buckets, which lie
    between the bucket's own entries in the store, are skipped. *)
Theorem cursor_walk_is_ForEach (b : Bucket) (w : World) own :
  wf w → readable w → w_closed w = false →
  txn_get (w_txn w) (b_prefix b) = inr own →
  ∃ l, ForEach b collect w [] = (Ok tt, l) ∧
    ∀ fuel, length l < fuel →
      ∃ c', walk_all fuel (w, badgerCursor b w) = (Ok l, (w, c')).
Proof.
  intros Hw Hr Hc Hg. eexists. split; [by apply ForEach_collect|]. intros fuel Hf.
  destruct (First_spec b w own Hw Hr Hc Hg) as (rest & c1 & Hgood & Hc1 & Ho & HF).
  destruct (settle_spec _ (txn_items (w_txn w)) rest w c1 Hgood Hc1) as (c' & Hc' & Hs).
  unfold walk_all, bind. rewrite HF. rewrite Ho in Hs.
  destruct (omap _ _) as [|kv l].
  - rewrite Hs. exists c'. by destruct fuel.
  - destruct Hs as (-> & item & rest' & Hat & Hg' & Hl & _).
    destruct (walk_spec _ _ fuel kv l c' w [] rest' item Hc Hc' Hat Hg' Hl) as (c2 & ->).
    { simpl in Hf. lia. }
    by exists c2.
Qed.

(** [Seek k] returns the first entry of the bucket whose key is not below
    [k], nil if there is none, whatever other buckets are stored around. *)
Theorem cursor_Seek_spec (b : Bucket) (k : bytes) (w : World) :
  wf w → readable w → w_closed w = false → k ≠ [] → (zlen k ≤ maxKeySize)%Z →
  ∃ l c', ForEach b collect w [] = (Ok tt, l) ∧
    Seek (Some k) (w, badgerCursor b w) =
      (Ok (match filter (λ kv : bytes * option bytes, blt kv.1 k = false) l with
           | [] => (None, None)
           | kv :: _ => (Some kv.1, kv.2)
           end), (w, c')).
Proof.
  intros Hw Hr Hc Hk Hmax. set (p := b_prefix b).
  destruct (settle_spec p (txn_items (w_txn w)) (it_seek (p ++ k) (txn_items (w_txn w))) w
    (badgerCursor b w) (good_seek p k w Hw Hr Hk) eq_refl) as (c' & _ & Hs).
  rewrite omap_entry_seek in Hs by (by apply wf_items || apply items_sorted).
  exists (omap (entry p) (txn_items (w_txn w))), c'. split; [by apply ForEach_collect|].
  unfold Seek, unless_closed_nil, cur, bind, gets, addPrefix. simpl. rewrite Hc. simpl.
  rewrite decide_False by lia.
  replace (filter (λ kv : bytes * option bytes, blt kv.1 k = false) _) with
    (filter (λ kv : bytes * option bytes, blt (p ++ kv.1) (p ++ k) = false)
       (omap (entry p) (txn_items (w_txn w)))).
  { destruct (filter _ _); [exact Hs|]. exact (proj1 Hs). }
  apply list_filter_iff. intros kv. by rewrite blt_app_l.
Qed.

Lemma last_loop_panics p rest lv i :
  p ≠ [] → Forall wf_item rest → (∀ j, j ∈ rest → ∃ v, item_value j = inr v) →
  Forall (has_prefix p) rest → i ∈ rest → is_owned p i = true → item_key i ≠ p →
  last_loop p None rest lv = Panic.
Proof.
  intros Hp Hwf Hr Hpre Hin Ho Hne. revert lv.
  induction rest as [|j rest IH]; intros lv; [set_solver|].
  apply Forall_cons in Hwf as [Hj Hwf]. apply Forall_cons in Hpre as [Hpj Hpre].
  assert (Hrest : i ∈ rest → ∀ lv, last_loop p None rest lv = Panic).
  { intros Hi. apply IH; [done| |done|done]. intros k Hk. apply Hr. set_solver. }
  simpl. rewrite decide_False by auto.
  destruct (decide (p = item_key j)) as [Hk|Hk].
  { apply Hrest. apply elem_of_cons in Hin as [->|]; [congruence|done]. }
  destruct (Hr j) as [v Hv]; [set_solver|]. rewrite Hv.
  destruct (wf_owned p j v Hj Hv) as (n & val & -> & _).
  unfold slice_to. simpl. case_decide as Hn; [|done]. apply Hrest.
  apply elem_of_cons in Hin as [->|]; [|done].
  destruct (owned_length p j n val Hj Hv Ho) as [Hl _].
  assert (nat_of_byte n = 0) as H0 by lia. rewrite H0 in Hl. by destruct p.
Qed.

Lemma it_seek_scan p (w : World (T := T)) :
  ∃ tl, it_seek p (txn_items (w_txn w)) = it_scan p (txn_items (w_txn w)) ++ tl.
Proof.
  unfold it_scan. generalize (it_seek p (txn_items (w_txn w))). intros l.
  induction l as [|i l [tl IH]]; [by exists []|]. simpl. case_decide; [|by eexists].
  exists tl. simpl. by rewrite <- IH.
Qed.

Lemma last_loop_app p ckey l tl lv :
  last_loop p ckey l lv = Panic → Forall (has_prefix p) l →
  last_loop p ckey (l ++ tl) lv = Panic.
Proof.
  intros H Hp. revert lv H. induction Hp as [|i l Hi Hl IH]; intros lv; [done|].
  simpl. destruct (decide (¬ has_prefix p i)) as [|_]; [done|].
  case_decide; [apply IH|].
  destruct (item_value i) as [|[|n v]]; [done..|]. destruct (slice_to _ _); [apply IH|done].
Qed.

(** [Last] on a cursor that was not moved yet panics as soon as the bucket
    has an entry: it slices the nil current key instead of the item's key. *)
Theorem cursor_Last_fresh_panics (b : Bucket) (k : bytes) x (w : World) :
  wf w → readable w → w_closed w = false → b_prefix b ≠ [] →
  bview w (b_prefix b) k = Some x →
  (Last (w, badgerCursor b w)).1 = Panic.
Proof.
  intros Hw Hr Hc Hp Hv. set (p := b_prefix b).
  destruct (it_seek_scan p w) as [tl Htl].
  assert (Hscan : Forall (has_prefix p) (it_scan p (txn_items (w_txn w)))).
  { rewrite it_scan_filter by apply items_sorted. apply Forall_forall.
    by intros i [? _]%list_elem_of_filter. }
  assert (HL : last_loop p None (it_seek p (txn_items (w_txn w))) None = Panic).
  { apply bview_Some in Hv as (m & n & rest & Hg & Hn & Hk & _).
    rewrite Htl. apply last_loop_app; [|done].
    apply (last_loop_panics p _ None (mkItem (p ++ k) m (inr (n :: rest)))); try done.
    - by apply wf_scan, Hw.
    - rewrite it_scan_filter by apply items_sorted.
      intros j [_ Hj]%list_elem_of_filter. apply items_get in Hj. by eapply Hr.
    - rewrite it_scan_filter by apply items_sorted. apply list_elem_of_filter.
      split; [by exists k|]. by apply items_get.
    - by apply is_owned_intro.
    - simpl. intros Heq. apply Hk. apply (app_inv_head p). by rewrite app_nil_r. }
  unfold Last, unless_closed_nil, cur, bind, gets, lift. simpl. rewrite Hc. simpl.
  fold p. by rewrite HL.
Qed.

(** [Delete] of a cursor removes the entry it is at and nothing else, and
    keeps its position; at a nested bucket it fails and changes nothing. *)
Theorem cursor_Delete_spec (w w' : World) (c c' : Cursor) all item rest :
  w_closed w = false → iterator c = mkIterator all (item :: rest) →
  has_prefix (prefix c) item →
  Delete_cur (w, c) = (Ok tt, (w', c')) →
  item_meta item ≠ metaBucket ∧ c' = c ∧
  (∀ p k, bview w' p k = if decide (p ++ k = item_key item) then None else bview w p k).
Proof.
  intros Hc Hit Hp. unfold Delete_cur. rewrite Hc, Hit. simpl. rewrite decide_True by done.
  destruct (decide (item_meta item ≠ metaBucket)) as [Hm|Hm]; [|done].
  unfold txnDelete. destruct (txn_delete _ _) as [[e|] t] eqn:E; [done|].
  intros [= <- <-]. split_and!; [done|done|]. intros p k. unfold bview. simpl.
  rewrite (delete_ok _ _ _ E). by case_decide.
Qed.

End Cursor.

(** ** Witnesses *)

Lemma readable_w1 : readable w1.
Proof. apply readable_mem. Qed.

Lemma cursor_walk_is_ForEach_witness :
  ∃ l, ForEach root collect w1 [] = (Ok tt, l) ∧
    ∃ c', walk_all Panic Panic (S (length l)) (w1, badgerCursor root w1) = (Ok l, (w1, c')).
Proof.
  destruct (cursor_walk_is_ForEach Panic Panic root w1
    (mkItem (bs "root") metaBucket (inr [x04])) wf_w1 readable_w1 eq_refl eq_refl)
    as (l & Hl & Hwalk).
  exists l. split; [exact Hl|]. apply Hwalk. lia.
Defined.

Lemma cursor_Seek_spec_witness :
  ∃ l c', ForEach root collect w1 [] = (Ok tt, l) ∧
    Seek Panic Panic (Some (bs "ab")) (w1, badgerCursor root w1) =
      (Ok (match filter (λ kv : bytes * option bytes, blt kv.1 (bs "ab") = false) l with
           | [] => (None, None)
           | kv :: _ => (Some kv.1, kv.2)
           end), (w1, c')).
Proof.
  apply (cursor_Seek_spec Panic Panic root (bs "ab") w1 wf_w1 readable_w1 eq_refl);
    vm_compute; discriminate.
Defined.

Lemma cursor_Last_fresh_panics_witness :
  (Last (w1, badgerCursor root w1)).1 = Panic.
Proof.
  apply (cursor_Last_fresh_panics root (bs "a") None w1 wf_w1 readable_w1 eq_refl).
  - discriminate.
  - reflexivity.
Defined.

Definition item_ab : Item := mkItem (bs "rootab") x00 (inr [x04; x2b]).
Definition cur_ab : Cursor := set_iterator (mkIterator [] [item_ab]) (badgerCursor root w1).

Lemma cursor_Delete_spec_witness :
  let w' := set_txn (txn_delete (w_txn w1) (bs "rootab")).2 w1 in
  Delete_cur (w1, cur_ab) = (Ok tt, (w', cur_ab)) ∧ bview w' (bs "root") (bs "ab") = None.
Proof.
  intros w'. assert (HD : Delete_cur (w1, cur_ab) = (Ok tt, (w', cur_ab))) by reflexivity.
  split; [exact HD|].
  destruct (cursor_Delete_spec w1 w' cur_ab cur_ab [] item_ab [] eq_refl eq_refl) as (_ & _ & Hv).
  - by exists (bs "ab").
  - exact HD.
  - rewrite Hv. reflexivity.
Defined.
