(* ===== verification/Lifecycle.v ===== *)
(** * [badgerdb/db.go], [badgerdb/driver.go]: opening and closing the database

    The driver's arguments, [openDB], [beginTx], [Close], and the goroutine that
    collects garbage of the value log.  The goroutine and the callers of [Close]
    are interleaved: [Close] sleeps before it closes badger, and nothing but the
    flag [closed] and the ticker tell the goroutine. *)
From S2P Require Import Prelude Kv Badger.

(** ** Opening *)

Section open.
Context {H T : Type} (NewTransaction : option H → bool → outcome T).

Record DB := mkDB { DB_handle : option H; DB_closed : bool }.

(** [os.Stat]: no error, an error that says the file does not exist, or
    another one. *)
Inductive Stat := StatOk | StatNotExist | StatErr (e : goerr).

Definition fileExists (s : Stat) : bool := match s with StatNotExist => false | _ => true end.

(** [opened] is what [badger.Open] returns.  The value is returned along with
    the error of badger. *)
Definition openDB (stat : Stat) (opened : goerr + H) (create : bool) : option DB * option goerr :=
  if negb create && negb (fileExists stat)
  then (None, Some (EKind KNotExist "missing database file"))
  else match opened with
  | inl err => (Some (mkDB None false), convertErr (Some err))
  | inr h => (Some (mkDB (Some h) false), convertErr None)
  end.

Definition beginTx (writable : bool) (db : DB) : outcome T :=
  if DB_closed db then Err (EKind KInvalid "") else NewTransaction (DB_handle db) writable.

Definition BeginReadTx : DB → outcome T := beginTx false.
Definition BeginReadWriteTx : DB → outcome T := beginTx true.

Definition Copy (_ : DB) : option goerr := Some (EKind KInvalid "method not implemented").

(** *** The driver: an argument is a string or something else *)
Inductive Arg := AString (s : string) | AOther.

Definition parseArgs (funcName : string) (args : list Arg) : goerr + string :=
  if decide (length args ≠ 1) then inl (ENew "invalid arguments")
  else match args with
  | AString dbPath :: _ => inr dbPath
  | _ => inl (ENew "first argument is invalid")
  end.

Definition drive (create : bool) (stat : string → Stat) (opened : string → goerr + H)
    (args : list Arg) : option DB * option goerr :=
  match parseArgs (if create then "Create" else "Open") args with
  | inl err => (None, Some err)
  | inr dbPath => openDB (stat dbPath) (opened dbPath) create
  end.

Definition openDBDriver := drive false.
Definition createDBDriver := drive true.

(** A database that is returned without an error has a handle and is open, and
    the only arguments are one path; opening does not create a database, unless
    the file cannot be examined. *)
Theorem driver_spec (create : bool) (stat : string → Stat) (opened : string → goerr + H)
    (args : list Arg) (r : option DB) (Hret : drive create stat opened args = (r, None)) :
  ∃ dbPath h, args = [AString dbPath] ∧ opened dbPath = inr h ∧ r = Some (mkDB (Some h) false) ∧
    (create = false → stat dbPath ≠ StatNotExist) ∧
    ∀ w, match r with Some db => beginTx w db = NewTransaction (Some h) w | None => False end.
Proof.
  unfold drive, parseArgs in Hret. destruct args as [|a [|a' args]]; try discriminate Hret.
  rewrite decide_False in Hret by (simpl; lia). destruct a as [dbPath|]; [|discriminate Hret].
  unfold openDB in Hret. destruct create; simpl in Hret.
  - destruct (opened dbPath) as [e|h] eqn:Ho; [done|]. injection Hret as <-.
    exists dbPath, h. by split_and!.
  - destruct (stat dbPath) eqn:Hs; simpl in Hret; [|done|].
    all: destruct (opened dbPath) as [err|h] eqn:Ho; [done|]; injection Hret as <-;
      exists dbPath, h; split_and!; [done..|intros _; by rewrite Hs|done].
Qed.
End open.
Arguments mkDB {H}.

(** ** Closing *)

Inductive Ticker := NoTicker | Ticking | Stopped.

(** Where the goroutine is: before it sets the ticker, waiting for a tick,
    collecting. *)
Inductive GC := GCStarted | GCWaiting | GCRunning.

(** Where a call of [Close] is: asleep, or over with its result. *)
Inductive Closing := Asleep | Returned (r : option goerr).

Record Life := mkLife {
  lf_closed : bool;
  lf_ticker : Ticker;
  lf_gc : GC;
  lf_calls : list Closing;            (* the calls of Close so far *)
  lf_handle_closed : bool;            (* badger is closed *)
  lf_collected : list bool            (* for each collection: was badger closed? *)
}.

(** [Collected] is the return of [RunValueLogGC]. *)
Inductive LMove :=
| SetTicker | Tick | Collected (err : option goerr)
| Close | CloseRest (i : nat) (err : option goerr).

Definition alreadyClosed : goerr := EKind KInvalid "database is already closed".

Definition life_step (s : Life) (m : LMove) : option Life :=
  match m with
  | SetTicker =>
      match lf_gc s with
      | GCStarted => Some (mkLife (lf_closed s) Ticking GCWaiting (lf_calls s)
                                  (lf_handle_closed s) (lf_collected s))
      | _ => None
      end
  | Tick =>
      match lf_gc s, lf_ticker s with
      | GCWaiting, Ticking => Some (mkLife (lf_closed s) Ticking GCRunning (lf_calls s)
          (lf_handle_closed s) (lf_collected s ++ [lf_handle_closed s]))
      | _, _ => None
      end
  | Collected None =>                        (* goto again *)
      match lf_gc s with
      | GCRunning => Some (mkLife (lf_closed s) (lf_ticker s) GCRunning (lf_calls s)
          (lf_handle_closed s) (lf_collected s ++ [lf_handle_closed s]))
      | _ => None
      end
  | Collected (Some _) =>
      match lf_gc s with
      | GCRunning => Some (mkLife (lf_closed s) (lf_ticker s) GCWaiting (lf_calls s)
          (lf_handle_closed s) (lf_collected s))
      | _ => None
      end
  | Close =>
      if lf_closed s then
        Some (mkLife true (lf_ticker s) (lf_gc s) (lf_calls s ++ [Returned (Some alreadyClosed)])
                     (lf_handle_closed s) (lf_collected s))
      else
        Some (mkLife true (match lf_ticker s with NoTicker => NoTicker | _ => Stopped end)
                     (lf_gc s) (lf_calls s ++ [Asleep]) (lf_handle_closed s) (lf_collected s))
  | CloseRest i err =>
      match lf_calls s !! i with
      | Some Asleep => Some (mkLife (lf_closed s) (lf_ticker s) (lf_gc s)
          (<[i := Returned (convertErr err)]> (lf_calls s)) true (lf_collected s))
      | _ => None
      end
  end.

Fixpoint life_run (s : Life) (ms : list LMove) : option Life :=
  match ms with
  | [] => Some s
  | m :: ms' => s' ← life_step s m; life_run s' ms'
  end.

Definition life0 : Life := mkLife false NoTicker GCStarted [] false [].

(** The first call of [Close] is the only one that gets to badger. *)
Definition closes_once (s : Life) : Prop :=
  match lf_calls s with
  | [] => lf_closed s = false ∧ lf_handle_closed s = false
  | c :: rest =>
      lf_closed s = true ∧ Forall (λ c, c = Returned (Some alreadyClosed)) rest ∧
      (lf_handle_closed s = true ↔ c ≠ Asleep)
  end.

(** Once the ticker is stopped the goroutine has begun its last collection. *)
Definition ticker_ok (s : Life) : Prop :=
  (lf_ticker s = Stopped → lf_gc s ≠ GCStarted) ∧ (lf_gc s = GCStarted ↔ lf_ticker s = NoTicker) ∧
  (lf_closed s = false → lf_ticker s ≠ Stopped).

Lemma life_step_ok s s' m :
  closes_once s ∧ ticker_ok s → life_step s m = Some s' → closes_once s' ∧ ticker_ok s'.
Proof.
  destruct s as [cl tk gc calls hc col].
  unfold closes_once, ticker_ok. intros [Hc Ht]. destruct m as [| |[e|]| |i e]; simpl in *.
  - destruct gc; intros [= <-]; simpl. naive_solver.
  - destruct gc, tk; intros [= <-]; simpl. naive_solver.
  - destruct gc; intros [= <-]; simpl. naive_solver.
  - destruct gc; intros [= <-]; simpl. naive_solver.
  - destruct calls as [|c rest]; simpl in *.
    + destruct Hc as [-> ->]. intros [= <-]; simpl. split; [naive_solver|].
      destruct tk; naive_solver.
    + destruct Hc as (-> & Hr & Hh). intros [= <-]; simpl. split; [|naive_solver].
      split_and!; [done| |done]. apply Forall_app. split; [done|]. by apply Forall_singleton.
  - destruct calls as [|c rest]; [done|]. destruct Hc as (-> & Hr & Hh). destruct i as [|i]; simpl.
    + destruct c; [|done]. intros [= <-]. simpl. naive_solver.
    + destruct (rest !! i) as [[|r]|] eqn:Hi; simpl; try done.
      rewrite Forall_lookup in Hr. by specialize (Hr _ _ Hi).
Qed.

Lemma life_run_ok s s' ms :
  closes_once s ∧ ticker_ok s → life_run s ms = Some s' → closes_once s' ∧ ticker_ok s'.
Proof.
  revert s. induction ms as [|m ms IH]; intros s Hs; simpl; [by intros [= <-]|].
  destruct (life_step s m) as [s1|] eqn:Hm; simpl; [|done]. apply IH. by eapply life_step_ok.
Qed.

Lemma life0_ok : closes_once life0 ∧ ticker_ok life0.
Proof. unfold closes_once, ticker_ok. simpl. split; [done|]. naive_solver. Qed.

(** With a stopped ticker and no collection under way none begins. *)
Lemma no_more_collections s s' ms :
  lf_ticker s = Stopped → lf_gc s = GCWaiting → life_run s ms = Some s' →
  lf_collected s' = lf_collected s ∧ lf_ticker s' = Stopped ∧ lf_gc s' = GCWaiting.
Proof.
  revert s. induction ms as [|m ms IH]; intros s Ht Hg; cbn [life_run]; [by intros [= <-]|].
  destruct (life_step s m) as [s1|] eqn:Hm; simpl; [|done]. intros Hrun.
  assert (Hs1 : lf_ticker s1 = Stopped ∧ lf_gc s1 = GCWaiting ∧ lf_collected s1 = lf_collected s).
  { destruct m as [| |[e|]| |i e]; simpl in Hm; rewrite ?Hg, ?Ht in Hm; try done.
    - destruct (lf_closed s); injection Hm as <-; by simpl.
    - destruct (lf_calls s !! i) as [[|]|]; [|done..]. injection Hm as <-. by simpl. }
  destruct Hs1 as (Ht1 & Hg1 & <-). by apply IH.
Qed.

(** Closing the database, under every interleaving with the goroutine that
    collects garbage and with other calls of [Close].  Only the first call
    reaches badger; every other call returns that the database is closed
    already.  If the goroutine had set its ticker before, then after the
    collection that is under way there is no other. *)
Theorem Close_spec (ms : list LMove) (s : Life) (Hrun : life_run life0 ms = Some s) :
  (∀ i c, lf_calls s !! S i = Some c → c = Returned (Some alreadyClosed)) ∧
  (lf_calls s ≠ [] → lf_closed s = true) ∧
  (lf_handle_closed s = true ↔ ∃ r, head (lf_calls s) = Some (Returned r)) ∧
  (lf_ticker s = Stopped → lf_gc s = GCWaiting →
   ∀ ms' s', life_run s ms' = Some s' → lf_collected s' = lf_collected s).
Proof.
  destruct (life_run_ok _ _ _ life0_ok Hrun) as [Hc Ht]. unfold closes_once in Hc. split_and!.
  - intros i c Hi. destruct (lf_calls s) as [|c0 rest]; [done|]. destruct Hc as (_ & Hr & _).
    rewrite Forall_lookup in Hr. by apply (Hr i).
  - destruct (lf_calls s); [done|]. by destruct Hc.
  - destruct (lf_calls s) as [|c0 rest].
    + destruct Hc as [_ ->]. split; [done|]. by intros [r Hr].
    + destruct Hc as (_ & _ & ->). simpl. destruct c0; naive_solver.
  - intros Hs Hg ms' s' Hrun'. by eapply (no_more_collections s).
Qed.

Lemma Close_spec_witness :
  ∃ s, life_run life0 [SetTicker; Tick; Close; Collected (Some (ENew "no rewrite")); Close;
                       CloseRest 0 None] = Some s ∧
    lf_calls s !! 1 = Some (Returned (Some alreadyClosed)) ∧ lf_closed s = true ∧
    lf_collected s = [false].
Proof.
  eexists. split; [reflexivity|].
  match goal with |- _ ∧ lf_closed ?s = true ∧ _ =>
    destruct (Close_spec [SetTicker; Tick; Close; Collected (Some (ENew "no rewrite")); Close;
                          CloseRest 0 None] s eq_refl) as (_ & Hc & _)
  end.
  split; [reflexivity|]. split; [|reflexivity]. by apply Hc.
Defined.

(** The goroutine sets the ticker itself: when the database is closed before
    that, the ticker is never stopped and garbage is collected on the closed
    badger, every twenty seconds. *)
Theorem collects_after_close :
  ∃ s, life_run life0 [Close; CloseRest 0 None; SetTicker; Tick;
                       Collected (Some (ENew "no rewrite")); Tick] = Some s ∧
    lf_collected s = [true; true].
Proof. eexists. split; reflexivity. Qed.
