(* ===== verification/Wire.v ===== *)
(** * Data of the Decred wire protocol, as an interface

    Package [wire] and the script, stake and filter packages are not part of
    the repository.  This file declares the fields of their structs that the
    source reads, the operations it calls as typeclasses, and the documented
    behaviour it relies on as their laws. *)
From S2P Require Import Prelude.

Abbreviation Hash := bytes.

Record OutPoint := mkOutPoint { op_Hash : Hash; op_Index : Z; op_Tree : Z }.

#[export] Instance OutPoint_eq_dec : EqDecision OutPoint.
Proof. solve_decision. Defined.
#[export] Program Instance OutPoint_countable : Countable OutPoint :=
  inj_countable' (λ o, (op_Hash o, op_Index o, op_Tree o))
                 (λ x, mkOutPoint x.1.1 x.1.2 x.2) _.
Next Obligation. by intros []. Qed.

Record TxIn := mkTxIn { PreviousOutPoint : OutPoint; ValueIn : Z }.
Record TxOut := mkTxOut { Value : Z; to_Version : Z; PkScript : bytes }.

(** [TxHash] is the hash the library computes from the other fields. *)
Record MsgTx := mkMsgTx {
  TxHash : Hash;
  tx_Version : Z;
  tx_TxIn : list TxIn;
  tx_TxOut : list TxOut;
  LockTime : Z;
  Expiry : Z
}.

Record MsgBlock := mkMsgBlock {
  BlockHash : Hash;
  Transactions : list MsgTx;
  STransactions : list MsgTx
}.

(** [wire.TxTreeRegular] and [wire.TxTreeStake]. *)
Definition TxTreeRegular : Z := 0.
Definition TxTreeStake : Z := 1.

(** [stake.TxType] *)
Inductive TxType := TxTypeRegular | TxTypeSStx | TxTypeSSGen | TxTypeSSRtx.
#[export] Instance TxType_eq_dec : EqDecision TxType.
Proof. solve_decision. Defined.

(** The functions of [stake], [txscript] and [gcs] the scanning code calls.
    [ExtractPkScriptAddrs] is given here without the script class, for the
    network of the wallet. *)
Class ChainLib (Address Filter Entry : Type) := {
  DetermineTxType : MsgTx → TxType;
  ExtractPkScriptAddrs : Z → bytes → goerr + list Address;
  EntryOutPoint : OutPoint → Entry;       (* Entries.AddOutPoint *)
  EntryPkScript : bytes → Entry;          (* Entries.AddRegularPkScript *)
  PayToAddr : Address → option bytes;     (* ScriptV0 or PayToAddrScript *)
  FilterN : Filter → Z;                   (* the number of entries *)
  MatchAny : Filter → Hash → list Entry → bool;
  MerkleRoots : MsgBlock → option goerr;
  DCP0005MerkleRoot : MsgBlock → option goerr;
  RegularCFilter : MsgBlock → Filter → option goerr
}.

(** [wallet.RescanFilter]: a set of addresses and unspent outpoints. *)
Class RescanFilter (Address F : Type) := {
  NewRescanFilter : F;
  ExistsAddress : F → Address → bool;
  ExistsUnspentOutPoint : F → OutPoint → bool;
  AddAddress : F → Address → F;
  AddUnspentOutPoint : F → OutPoint → F
}.

Class RescanFilterLaws (Address F : Type) `{!RescanFilter Address F} := {
  new_address a : ExistsAddress NewRescanFilter a = false;
  new_outpoint op : ExistsUnspentOutPoint NewRescanFilter op = false;
  add_address f a : ExistsAddress (AddAddress f a) a = true;
  add_address_mono f a b : ExistsAddress f b = true → ExistsAddress (AddAddress f a) b = true;
  add_address_outpoint f a op :
    ExistsUnspentOutPoint (AddAddress f a) op = ExistsUnspentOutPoint f op;
  add_outpoint_address f op a : ExistsAddress (AddUnspentOutPoint f op) a = ExistsAddress f a;
  add_outpoint f op op' :
    ExistsUnspentOutPoint (AddUnspentOutPoint f op) op' =
      bool_decide (op' = op) || ExistsUnspentOutPoint f op'
}.

(** An instance: two finite sets. *)
Record SetFilter (Address : Type) `{Countable Address} := mkSetFilter {
  sf_addrs : gset Address;
  sf_outs : gset OutPoint
}.
Arguments mkSetFilter {_ _ _}.
Arguments sf_addrs {_ _ _}.
Arguments sf_outs {_ _ _}.

#[export] Instance set_filter `{Countable Address} : RescanFilter Address (SetFilter Address) := {
  NewRescanFilter := mkSetFilter ∅ ∅;
  ExistsAddress f a := bool_decide (a ∈ sf_addrs f);
  ExistsUnspentOutPoint f op := bool_decide (op ∈ sf_outs f);
  AddAddress f a := mkSetFilter ({[a]} ∪ sf_addrs f) (sf_outs f);
  AddUnspentOutPoint f op := mkSetFilter (sf_addrs f) ({[op]} ∪ sf_outs f)
}.

#[export] Instance set_filter_laws `{Countable Address} :
  RescanFilterLaws Address (SetFilter Address).
Proof.
  split; simpl; try done.
  - intros f a. apply bool_decide_true. set_solver.
  - intros f a b. rewrite !bool_decide_eq_true. set_solver.
  - intros f op op'. repeat case_bool_decide; simpl; try done; set_solver.
Qed.
