(* ===== verification/Rescan.v ===== *)
(** * [spv/rescan.go], the rescans of [spv/backend.go], and [scanChain]

    The scan keeps two structures per wallet: the precise filter
    [rescanFilter], and the data [filterData] that compact block filters are
    matched against.  Both grow while blocks are scanned.  The mutex is held
    around each block, so a block is one step of the model. *)
From S2P Require Import Prelude Wire.

(** [rescanFilter[walletID]] and [filterData[walletID]] *)
Record WalletFilter (F Entry : Type) := mkWF { wf_rescan : F; wf_data : list Entry }.
Arguments mkWF {F Entry}.
Arguments wf_rescan {F Entry}.
Arguments wf_data {F Entry}.

(** What [rescanCheckTransactions] reads and writes. *)
Record ScanState (F Entry : Type) := mkScan {
  s_filter : WalletFilter F Entry;
  s_matches : list MsgTx;
  s_fadded : list Entry;
  s_added : bool
}.
Arguments mkScan {F Entry}.
Arguments s_filter {F Entry}.
Arguments s_matches {F Entry}.
Arguments s_fadded {F Entry}.
Arguments s_added {F Entry}.

Section Rescan.
Context {Address Filter Entry F : Type}.
Context `{!ChainLib Address Filter Entry} `{!RescanFilter Address F}.

Abbreviation WF := (WalletFilter F Entry).
Abbreviation Scan := (ScanState F Entry).

(** ** rescan.go *)

(** Add the transaction to [matches] unless it was added already. *)
Definition add_match (tx : MsgTx) (s : Scan) : Scan :=
  if s_added s then s
  else mkScan (s_filter s) (s_matches s ++ [tx]) (s_fadded s) true.

Fixpoint check_inputs (tx : MsgTx) (inputs : list TxIn) (s : Scan) : Scan :=
  match inputs with
  | [] => s
  | input :: inputs' =>
      if negb (ExistsUnspentOutPoint (wf_rescan (s_filter s)) (PreviousOutPoint input))
      then check_inputs tx inputs' s
      else check_inputs tx inputs' (add_match tx s)
  end.

Definition add_outpoint_all (op : OutPoint) (s : Scan) : Scan :=
  mkScan (mkWF (AddUnspentOutPoint (wf_rescan (s_filter s)) op)
               (wf_data (s_filter s) ++ [EntryOutPoint op]))
         (s_matches s) (s_fadded s ++ [EntryOutPoint op]) (s_added s).

Fixpoint check_addrs (tx : MsgTx) (op : OutPoint) (addrs : list Address) (s : Scan) : Scan :=
  match addrs with
  | [] => s
  | a :: addrs' =>
      if negb (ExistsAddress (wf_rescan (s_filter s)) a) then check_addrs tx op addrs' s
      else
        let s := if negb (ExistsUnspentOutPoint (wf_rescan (s_filter s)) op)
                 then add_outpoint_all op s else s in
        check_addrs tx op addrs' (add_match tx s)
  end.

(** The outpoint of output [i] of [tx]. *)
Definition out_point (tx : MsgTx) (i : nat) (tree : Z) : OutPoint :=
  mkOutPoint (TxHash tx) (uwrap 32 (Z.of_nat i)) tree.

Fixpoint check_outputs (tx : MsgTx) (tree : Z) (i : nat) (outs : list TxOut) (s : Scan) : Scan :=
  match outs with
  | [] => s
  | output :: outs' =>
      match ExtractPkScriptAddrs (to_Version output) (PkScript output) with
      | inl _ => check_outputs tx tree (S i) outs' s
      | inr addrs =>
          check_outputs tx tree (S i) outs' (check_addrs tx (out_point tx i tree) addrs s)
      end
  end.

(** The inputs looked at: none of a first regular transaction, all but the
    first of a vote.  [None] is the bounds panic of [inputs[1:]]. *)
Definition tx_inputs (i : nat) (tx : MsgTx) (tree : Z) : option (list TxIn) :=
  let txty := if decide (tree = TxTreeStake) then DetermineTxType tx else TxTypeRegular in
  if decide (i = 0 ∧ txty = TxTypeRegular) then Some []
  else if decide (txty = TxTypeSSGen) then
    match tx_TxIn tx with [] => None | _ :: l => Some l end
  else Some (tx_TxIn tx).

Definition check_tx (i : nat) (tree : Z) (tx : MsgTx) (s : Scan) : outcome Scan :=
  let s := mkScan (s_filter s) (s_matches s) (s_fadded s) false in
  match tx_inputs i tx tree with
  | None => Panic
  | Some inputs => Ok (check_outputs tx tree 0 (tx_TxOut tx) (check_inputs tx inputs s))
  end.

Fixpoint rescanCheckTransactions (i : nat) (txs : list MsgTx) (tree : Z) (s : Scan)
    : outcome Scan :=
  match txs with
  | [] => Ok s
  | tx :: txs' =>
      match check_tx i tree tx s with
      | Ok s' => rescanCheckTransactions (S i) txs' tree s'
      | Err e => Err e
      | Panic => Panic
      end
  end.

(** Returns [matches] and [fadded]. *)
Definition rescanBlock (block : MsgBlock) : GM WF (list MsgTx * list Entry) := λ f,
  match rescanCheckTransactions 0 (STransactions block) TxTreeStake (mkScan f [] [] false) with
  | Ok s =>
      match rescanCheckTransactions 0 (Transactions block) TxTreeRegular s with
      | Ok s' => (Ok (s_matches s', s_fadded s'), s_filter s')
      | _ => (Panic, f)
      end
  | _ => (Panic, f)
  end.

(** A transaction is relevant to a wallet: the test of [filterRelevant]. *)
Definition pays (f : F) (out : TxOut) : bool :=
  match ExtractPkScriptAddrs (to_Version out) (PkScript out) with
  | inl _ => false
  | inr addrs => existsb (ExistsAddress f) addrs
  end.

Definition relevant (f : F) (tx : MsgTx) : bool :=
  existsb (λ i, ExistsUnspentOutPoint f (PreviousOutPoint i)) (tx_TxIn tx)
  || existsb (pays f) (tx_TxOut tx).

(** [filterRelevant]: [matches := txs[:0]] shares the array of [txs].  The loop
    reads element [i] of the array and appends at [length matches]; it returns
    the number of matches and the array it leaves. *)
Fixpoint filter_loop (f : F) (n : nat) (i j : nat) (arr : list MsgTx) : nat * list MsgTx :=
  match n with
  | O => (j, arr)
  | S n' =>
      match arr !! i with
      | None => (j, arr)
      | Some tx =>
          if relevant f tx then filter_loop f n' (S i) (S j) (<[j := tx]> arr)
          else filter_loop f n' (S i) j arr
      end
  end.

(** The returned slice, and what the slice of the caller now holds. *)
Definition filterRelevant (f : F) (txs : list MsgTx) : list MsgTx * list MsgTx :=
  let '(j, arr) := filter_loop f (length txs) 0 0 txs in (take j arr, arr).

(** ** backend.go: [LoadTxFilter] *)

Fixpoint load_addrs (addrs : list Address) (f : WF) : WF :=
  match addrs with
  | [] => f
  | addr :: addrs' =>
      load_addrs addrs'
        (match PayToAddr addr with
         | Some pkScript => mkWF (AddAddress (wf_rescan f) addr)
                                 (wf_data f ++ [EntryPkScript pkScript])
         | None => f
         end)
  end.

Fixpoint load_outpoints (ops : list OutPoint) (f : WF) : WF :=
  match ops with
  | [] => f
  | op :: ops' =>
      load_outpoints ops' (mkWF (AddUnspentOutPoint (wf_rescan f) op)
                                (wf_data f ++ [EntryOutPoint op]))
  end.

(** [None] is a wallet without an entry in the maps. *)
Definition LoadTxFilter (reload : bool) (addrs : list Address) (ops : list OutPoint)
    (f : option WF) : WF :=
  let f := match f with
           | Some f => if reload then mkWF NewRescanFilter [] else f
           | None => mkWF NewRescanFilter []
           end in
  load_outpoints ops (load_addrs addrs f).

(** ** What a scan must find

    The transactions of a block in scan order, with their position and tree. *)
Definition scan_order (block : MsgBlock) : list (nat * Z * MsgTx) :=
  imap (λ i tx, (i, TxTreeStake, tx)) (STransactions block)
  ++ imap (λ i tx, (i, TxTreeRegular, tx)) (Transactions block).

(** The outputs of a transaction that pay a watched address. *)
Definition paid (f : F) (tree : Z) (tx : MsgTx) : list OutPoint :=
  concat (imap (λ i out, if pays f out then [out_point tx i tree] else []) (tx_TxOut tx)).

(** The transaction pays a watched address, or spends an outpoint that is
    watched or in [new]. *)
Definition found (f : F) (new : list OutPoint) (x : nat * Z * MsgTx) : bool :=
  let '(i, tree, tx) := x in
  existsb (λ inp, ExistsUnspentOutPoint f (PreviousOutPoint inp)
                  || bool_decide (PreviousOutPoint inp ∈ new))
          (default [] (tx_inputs i tx tree))
  || existsb (pays f) (tx_TxOut tx).

(** The matching transactions, [new] being the outputs paid to the wallet by
    the transactions scanned before. *)
Fixpoint matching (f : F) (new : list OutPoint) (l : list (nat * Z * MsgTx)) : list MsgTx :=
  match l with
  | [] => []
  | x :: l' =>
      (if found f new x then [x.2] else []) ++ matching f (new ++ paid f x.1.2 x.2) l'
  end.

(** The outputs of the transactions that pay a watched address. *)
Definition created (f : F) (l : list (nat * Z * MsgTx)) : list OutPoint :=
  concat (map (λ x : nat * Z * MsgTx, paid f x.1.2 x.2) l).

(** Votes have a stakebase input. *)
Definition votes_ok (txs : list MsgTx) : Prop :=
  ∀ tx, tx ∈ txs → DetermineTxType tx = TxTypeSSGen → tx_TxIn tx ≠ [].

(** The data covers the precise filter: what [rescanFilter] would match, a block
    filter is asked about. *)
Definition covers (f : WF) : Prop :=
  (∀ a, ExistsAddress (wf_rescan f) a = true →
        ∃ s, PayToAddr a = Some s ∧ EntryPkScript s ∈ wf_data f) ∧
  (∀ op, ExistsUnspentOutPoint (wf_rescan f) op = true → EntryOutPoint op ∈ wf_data f).

(** ** Lemmas *)

Context `{!RescanFilterLaws Address F}.

(** [s'] follows [s]: the transactions [ms] were added to the matches and the
    outpoints [ops] to the filters, those already known excepted. *)
Record follows (s s' : Scan) (ms : list MsgTx) (ops : list OutPoint) : Prop := {
  fo_addr a : ExistsAddress (wf_rescan (s_filter s')) a
              = ExistsAddress (wf_rescan (s_filter s)) a;
  fo_out op : ExistsUnspentOutPoint (wf_rescan (s_filter s')) op
              = ExistsUnspentOutPoint (wf_rescan (s_filter s)) op || bool_decide (op ∈ ops);
  fo_matches : s_matches s' = s_matches s ++ ms;
  fo_new : ∃ l, wf_data (s_filter s') = wf_data (s_filter s) ++ l
                ∧ s_fadded s' = s_fadded s ++ l
                ∧ (∀ e, e ∈ l → ∃ op, e = EntryOutPoint op ∧ op ∈ ops)
                ∧ (∀ op, op ∈ ops → ExistsUnspentOutPoint (wf_rescan (s_filter s)) op = true
                                     ∨ EntryOutPoint op ∈ l)
                ∧ (l ≠ [] → ops ≠ []);
  fo_nil : ops = [] → s_filter s' = s_filter s
}.

Lemma follows_refl s : follows s s [] [].
Proof.
  split; try done.
  - intros op. by rewrite bool_decide_false, orb_false_r by set_solver.
  - by rewrite app_nil_r.
  - exists []. rewrite !app_nil_r. split_and!; try done; set_solver.
Qed.

Lemma follows_trans s1 s2 s3 ms1 ms2 o1 o2 :
  follows s1 s2 ms1 o1 → follows s2 s3 ms2 o2 → follows s1 s3 (ms1 ++ ms2) (o1 ++ o2).
Proof.
  intros [Ha1 Ho1 Hm1 (l1 & Hd1 & Hf1 & Hl1 & Hn1 & He1) Hz1]
         [Ha2 Ho2 Hm2 (l2 & Hd2 & Hf2 & Hl2 & Hn2 & He2) Hz2]. split.
  - intros a. by rewrite Ha2.
  - intros op. rewrite Ho2, Ho1, <- orb_assoc. f_equal.
    repeat case_bool_decide; simpl; try done; set_solver.
  - by rewrite Hm2, Hm1, app_assoc.
  - exists (l1 ++ l2). rewrite Hd2, Hd1, Hf2, Hf1, !app_assoc. split_and!; try done.
    + intros e [He|He]%elem_of_app; [apply Hl1 in He|apply Hl2 in He]; set_solver.
    + intros op [Hop|Hop]%elem_of_app.
      * destruct (Hn1 op Hop); set_solver.
      * destruct (Hn2 op Hop) as [H|H]; [|set_solver]. rewrite Ho1 in H.
        apply orb_true_iff in H as [H|H%bool_decide_eq_true]; [by left|].
        destruct (Hn1 op H); set_solver.
    + destruct l1; [|intros _; destruct o1; [by destruct He1|done]].
      intros Hne. destruct o1; [by apply He2|done].
  - intros [-> ->]%app_nil. rewrite Hz2, Hz1; done.
Qed.

(** The transaction is in [matches] iff [added]. *)
Definition added_tx (tx : MsgTx) (s s' : Scan) : list MsgTx :=
  if s_added s then [] else if s_added s' then [tx] else [].

Lemma check_inputs_spec tx ins s :
  let s' := check_inputs tx ins s in
  follows s s' (added_tx tx s s') [] ∧
  s_added s' = s_added s || existsb (λ i, ExistsUnspentOutPoint (wf_rescan (s_filter s))
                                            (PreviousOutPoint i)) ins.
Proof.
  revert s. induction ins as [|inp ins IH]; intros s; cbn [check_inputs existsb].
  { unfold added_tx. rewrite orb_false_r. split; [|done].
    destruct (s_added s); apply follows_refl. }
  destruct (ExistsUnspentOutPoint _ _) eqn:E; simpl.
  2:{ apply IH. }
  destruct (IH (add_match tx s)) as [Hf Ha]. split.
  - replace (added_tx tx s _) with
      ((if s_added s then [] else [tx]) ++
       added_tx tx (add_match tx s) (check_inputs tx ins (add_match tx s))).
    + apply (follows_trans s (add_match tx s) _ _ _ [] []); [|done].
      unfold add_match. destruct (s_added s); [apply follows_refl|].
      split; try done.
      * intros op. by rewrite bool_decide_false, orb_false_r by set_solver.
      * exists []. rewrite !app_nil_r. split_and!; try done; set_solver.
    + unfold added_tx. rewrite Ha. unfold add_match. by destruct (s_added s) eqn:Es; simpl; rewrite ?Es.
  - rewrite Ha. unfold add_match. destruct (s_added s) eqn:Es; simpl; by rewrite ?Es, ?orb_true_r.
Qed.

Lemma follows_ext s s' ms o1 o2 :
  (∀ op, op ∈ o1 ↔ op ∈ o2) → follows s s' ms o1 → follows s s' ms o2.
Proof.
  intros Heq [Ha Ho Hm (l & Hd & Hf & Hl & Hn & He) Hz].
  assert (Hnil : o2 = [] → o1 = []).
  { intros ->. destruct o1 as [|x o1]; [done|]. exfalso.
    apply (not_elem_of_nil x), Heq. set_solver. }
  split; try done.
  - intros op. rewrite Ho. f_equal. by apply bool_decide_ext.
  - exists l. split_and!; try done.
    + intros e H. destruct (Hl e H) as (op & -> & Hop). exists op. by rewrite <- Heq.
    + intros op Hop. apply Hn. by rewrite Heq.
    + intros H1 H2. by apply He; [|apply Hnil].
  - intros H. by apply Hz, Hnil.
Qed.

Lemma existsb_ext {A} (f g : A → bool) l : (∀ x, f x = g x) → existsb f l = existsb g l.
Proof. intros H. induction l; simpl; congruence. Qed.

Lemma pays_ext f f' out :
  (∀ a, ExistsAddress f' a = ExistsAddress f a) → pays f' out = pays f out.
Proof.
  intros H. unfold pays. destruct (ExtractPkScriptAddrs _ _); [done|]. by apply existsb_ext.
Qed.

Lemma follows_add_match tx s : follows s (add_match tx s) (added_tx tx s (add_match tx s)) [].
Proof.
  unfold added_tx, add_match. destruct (s_added s) eqn:E; simpl; [apply follows_refl|].
  split; try done.
  - intros op. by rewrite bool_decide_false, orb_false_r by set_solver.
  - exists []. rewrite !app_nil_r. split_and!; try done; set_solver.
Qed.

Lemma follows_add_outpoint op s :
  follows s (if negb (ExistsUnspentOutPoint (wf_rescan (s_filter s)) op)
             then add_outpoint_all op s else s) [] [op].
Proof.
  destruct (ExistsUnspentOutPoint _ op) eqn:E; simpl.
  - split; try done.
    + intros op'. case_bool_decide as H; [|by rewrite orb_false_r].
      apply list_elem_of_singleton in H as ->. by rewrite E.
    + by rewrite app_nil_r.
    + exists []. rewrite !app_nil_r. split_and!; try done; [set_solver|].
      intros op' ->%list_elem_of_singleton. by left.
  - split; simpl.
    + intros a. apply add_outpoint_address.
    + intros op'. rewrite add_outpoint, orb_comm. f_equal.
      apply bool_decide_ext. by rewrite list_elem_of_singleton.
    + by rewrite app_nil_r.
    + exists [EntryOutPoint op]. split_and!; try done; set_solver.
    + done.
Qed.

Lemma added_tx_trans tx s1 s2 s3 :
  (s_added s1 = true → s_added s2 = true) → (s_added s2 = true → s_added s3 = true) →
  added_tx tx s1 s2 ++ added_tx tx s2 s3 = added_tx tx s1 s3.
Proof.
  unfold added_tx. destruct (s_added s1), (s_added s2), (s_added s3); naive_solver.
Qed.

Lemma s_added_add_match tx s : s_added (add_match tx s) = true.
Proof. unfold add_match. by destruct (s_added s) eqn:E. Qed.

Lemma check_addrs_spec tx op addrs s :
  let s' := check_addrs tx op addrs s in
  let hit := existsb (ExistsAddress (wf_rescan (s_filter s))) addrs in
  follows s s' (added_tx tx s s') (if hit then [op] else []) ∧
  s_added s' = s_added s || hit.
Proof.
  revert s. induction addrs as [|a addrs IH]; intros s; cbn [check_addrs existsb].
  { unfold added_tx. rewrite orb_false_r. split; [|done].
    destruct (s_added s); apply follows_refl. }
  destruct (ExistsAddress _ a) eqn:E; cbn [negb orb]; [|apply IH].
  set (s1 := if negb _ then _ else _).
  pose proof (follows_add_outpoint op s) as H1. fold s1 in H1.
  assert (Hs1 : s_added s1 = s_added s) by (subst s1; by destruct (negb _)).
  pose proof (follows_add_match tx s1) as H2.
  destruct (IH (add_match tx s1)) as [H3 Ha]. set (s2 := add_match tx s1) in *.
  assert (Hs2 : s_added s2 = true) by apply s_added_add_match. rewrite Hs2 in Ha. simpl in Ha.
  split; [|by rewrite Ha, orb_true_r].
  eapply (follows_ext _ _ _ ([op] ++ [] ++ _)).
  2:{ assert (Hadd : [] ++ added_tx tx s1 s2 ++ added_tx tx s2 (check_addrs tx op addrs s2)
             = added_tx tx s (check_addrs tx op addrs s2)).
      { simpl. rewrite added_tx_trans by congruence. unfold added_tx. by rewrite Hs1. }
      rewrite <- Hadd. eapply follows_trans; [done|]. by eapply follows_trans. }
  intros x. destruct (existsb _ _); set_solver.
Qed.

(** The outputs paid to the wallet, the first being output [i]. *)
Definition paid_from (f : F) (tree : Z) (tx : MsgTx) (i : nat) (outs : list TxOut)
  : list OutPoint :=
  concat (imap (λ j out, if pays f out then [out_point tx (i + j) tree] else []) outs).

Lemma paid_from_cons f tree tx i out outs :
  paid_from f tree tx i (out :: outs) =
    (if pays f out then [out_point tx i tree] else []) ++ paid_from f tree tx (S i) outs.
Proof.
  unfold paid_from. rewrite imap_cons. simpl. rewrite Nat.add_0_r. do 2 f_equal.
  apply imap_ext. intros j x _. simpl. by rewrite Nat.add_succ_r.
Qed.

Lemma paid_from_ext f f' tree tx i outs :
  (∀ a, ExistsAddress f' a = ExistsAddress f a) →
  paid_from f' tree tx i outs = paid_from f tree tx i outs.
Proof.
  intros H. unfold paid_from. f_equal. apply imap_ext. intros j x _. by rewrite (pays_ext f f').
Qed.

Lemma check_outputs_spec tx tree i outs s :
  let s' := check_outputs tx tree i outs s in
  follows s s' (added_tx tx s s') (paid_from (wf_rescan (s_filter s)) tree tx i outs) ∧
  s_added s' = s_added s || existsb (pays (wf_rescan (s_filter s))) outs.
Proof.
  revert i s. induction outs as [|out outs IH]; intros i s; cbn [check_outputs existsb].
  { unfold added_tx. rewrite orb_false_r. split; [|done].
    destruct (s_added s); apply follows_refl. }
  rewrite paid_from_cons.
  destruct (ExtractPkScriptAddrs _ _) as [e|addrs] eqn:E.
  { replace (pays _ out) with false by (unfold pays; by rewrite E). apply IH. }
  replace (pays (wf_rescan (s_filter s)) out)
    with (existsb (ExistsAddress (wf_rescan (s_filter s))) addrs) by (unfold pays; by rewrite E).
  destruct (check_addrs_spec tx (out_point tx i tree) addrs s) as [H1 Ha1].
  set (s1 := check_addrs _ _ _ _) in *.
  destruct (IH (S i) s1) as [H2 Ha2].
  assert (He : ∀ a, ExistsAddress (wf_rescan (s_filter s1)) a
                    = ExistsAddress (wf_rescan (s_filter s)) a) by apply H1.
  rewrite (paid_from_ext _ _ _ _ _ _ He) in H2.
  rewrite (existsb_ext _ (pays (wf_rescan (s_filter s))) outs) in Ha2
    by (intros; by apply pays_ext).
  split; [|by rewrite Ha2, Ha1, <- orb_assoc].
  rewrite <- (added_tx_trans tx s s1); [by eapply follows_trans|..].
  - rewrite Ha1. by intros ->.
  - rewrite Ha2. by intros ->.
Qed.

Lemma check_tx_spec i tree tx s ins :
  tx_inputs i tx tree = Some ins →
  ∃ s', check_tx i tree tx s = Ok s' ∧
    follows s s' (if found (wf_rescan (s_filter s)) [] (i, tree, tx) then [tx] else [])
            (paid (wf_rescan (s_filter s)) tree tx).
Proof.
  intros Hins. unfold check_tx. rewrite Hins.
  set (s0 := mkScan _ _ _ false).
  destruct (check_inputs_spec tx ins s0) as [H1 Ha1].
  set (s1 := check_inputs tx ins s0) in *.
  destruct (check_outputs_spec tx tree 0 (tx_TxOut tx) s1) as [H2 Ha2].
  set (s2 := check_outputs _ _ _ _ _) in *.
  exists s2. split; [done|].
  assert (He : ∀ a, ExistsAddress (wf_rescan (s_filter s1)) a
                    = ExistsAddress (wf_rescan (s_filter s)) a) by apply H1.
  rewrite (paid_from_ext _ _ _ _ _ _ He) in H2.
  rewrite (existsb_ext _ (pays (wf_rescan (s_filter s))) (tx_TxOut tx)) in Ha2
    by (intros; by apply pays_ext).
  pose proof (follows_trans _ _ _ _ _ _ _ H1 H2) as H.
  rewrite (added_tx_trans tx s0 s1 s2) in H; [|done|rewrite Ha2; by intros ->].
  assert (Hf : found (wf_rescan (s_filter s)) [] (i, tree, tx) = s_added s2).
  { rewrite Ha2, Ha1. unfold found. rewrite Hins. simpl. f_equal. apply existsb_ext.
    intros x. by rewrite orb_false_r. }
  rewrite Hf. destruct H as [h1 h2 h3 h4 h5]. by split.
Qed.

(** [f] is [f0] with the outpoints [new] added. *)
Definition extends (f0 f : F) (new : list OutPoint) : Prop :=
  (∀ a, ExistsAddress f a = ExistsAddress f0 a) ∧
  (∀ op, ExistsUnspentOutPoint f op = ExistsUnspentOutPoint f0 op || bool_decide (op ∈ new)).

Lemma found_extends f0 f new x : extends f0 f new → found f [] x = found f0 new x.
Proof.
  intros [Ha Ho]. destruct x as [[i tree] tx]. unfold found. f_equal.
  - apply existsb_ext. intros inp. by rewrite Ho, orb_false_r.
  - apply existsb_ext. intros out. by apply pays_ext.
Qed.

Lemma paid_extends f0 f new tree tx : extends f0 f new → paid f tree tx = paid f0 tree tx.
Proof. intros [Ha _]. by apply (paid_from_ext f0 f tree tx 0). Qed.

Lemma extends_follows f0 s s' new ms ops :
  extends f0 (wf_rescan (s_filter s)) new → follows s s' ms ops →
  extends f0 (wf_rescan (s_filter s')) (new ++ ops).
Proof.
  intros [Ha Ho] [Ha' Ho' _ _ _]. split.
  - intros a. by rewrite Ha', Ha.
  - intros op. rewrite Ho', Ho, <- orb_assoc. f_equal.
    repeat case_bool_decide; simpl; try done; set_solver.
Qed.

Lemma matching_app f new l1 l2 :
  matching f new (l1 ++ l2) = matching f new l1 ++ matching f (new ++ created f l1) l2.
Proof.
  revert new. induction l1 as [|x l1 IH]; intros new; simpl.
  - by rewrite app_nil_r.
  - change (created f (x :: l1)) with (paid f x.1.2 x.2 ++ created f l1).
    by rewrite IH, <- !app_assoc.
Qed.

Lemma matching_created f new l : created f l ≠ [] → matching f new l ≠ [].
Proof.
  revert new. induction l as [|[[i tree] tx] l IH]; intros new; simpl; [done|].
  unfold created. simpl. destruct (existsb (pays f) (tx_TxOut tx)) eqn:E.
  - by rewrite orb_true_r.
  - replace (paid f tree tx) with (@nil OutPoint).
    { intros H. destruct (_ || _); [done|]. simpl. by apply IH. }
    symmetry. unfold paid. change (paid_from f tree tx 0 (tx_TxOut tx) = []).
    generalize 0. revert E. induction (tx_TxOut tx) as [|o os IHo]; intros E n; [done|].
    rewrite paid_from_cons. simpl in E. apply orb_false_iff in E as [-> E]. by apply IHo.
Qed.

Lemma tx_inputs_Some i tx tree :
  (tree = TxTreeStake → DetermineTxType tx = TxTypeSSGen → tx_TxIn tx ≠ []) →
  ∃ ins, tx_inputs i tx tree = Some ins.
Proof.
  intros H. unfold tx_inputs. destruct (decide (tree = TxTreeStake)) as [->|].
  - destruct (decide (_ ∧ _)); [eauto|]. destruct (decide (DetermineTxType tx = TxTypeSSGen)); [|eauto].
    destruct (tx_TxIn tx) as [|? ins]; [by destruct H|eauto].
  - destruct (decide (_ ∧ _)); [eauto|]. rewrite decide_False by done. eauto.
Qed.

Lemma scan_txs_spec i txs tree s f0 new :
  extends f0 (wf_rescan (s_filter s)) new → (tree = TxTreeStake → votes_ok txs) →
  let l := imap (λ j tx, (i + j, tree, tx)) txs in
  ∃ s', rescanCheckTransactions i txs tree s = Ok s' ∧
    follows s s' (matching f0 new l) (created f0 l).
Proof.
  revert i s new. induction txs as [|tx txs IH]; intros i s new Hx Hv; simpl.
  { exists s. split; [done|]. apply follows_refl. }
  rewrite Nat.add_0_r.
  destruct (tx_inputs_Some i tx tree) as [ins Hins].
  { intros Ht. apply (Hv Ht). set_solver. }
  destruct (check_tx_spec i tree tx s ins Hins) as (s1 & -> & H1).
  rewrite (found_extends _ _ _ _ Hx), (paid_extends _ _ _ _ _ Hx) in H1.
  destruct (IH (S i) s1 (new ++ paid f0 tree tx)) as (s2 & -> & H2).
  { by eapply extends_follows. }
  { intros Ht tx' Htx'. apply (Hv Ht). set_solver. }
  exists s2. split; [done|].
  replace (imap ((λ j tx, (i + j, tree, tx)) ∘ S) txs)
    with (imap (λ j tx, (S i + j, tree, tx)) txs).
  2:{ apply imap_ext. intros j x _. simpl. by rewrite Nat.add_succ_r. }
  by eapply follows_trans.
Qed.

(** What a run of [rescanBlock] does. *)
Lemma rescanBlock_run (block : MsgBlock) (f : WF) :
  votes_ok (STransactions block) →
  let new := created (wf_rescan f) (scan_order block) in
  ∃ fadded f',
    rescanBlock block f = (Ok (matching (wf_rescan f) [] (scan_order block), fadded), f') ∧
    (∀ a, ExistsAddress (wf_rescan f') a = ExistsAddress (wf_rescan f) a) ∧
    (∀ op, ExistsUnspentOutPoint (wf_rescan f') op =
           ExistsUnspentOutPoint (wf_rescan f) op || bool_decide (op ∈ new)) ∧
    wf_data f' = wf_data f ++ fadded ∧
    (∀ op, op ∈ new → ExistsUnspentOutPoint (wf_rescan f) op = true ∨ EntryOutPoint op ∈ fadded) ∧
    (∀ e, e ∈ fadded → ∃ op, e = EntryOutPoint op ∧ op ∈ new) ∧
    (fadded ≠ [] → matching (wf_rescan f) [] (scan_order block) ≠ []) ∧
    (new = [] → f' = f).
Proof.
  intros Hv new. unfold rescanBlock.
  destruct (scan_txs_spec 0 (STransactions block) TxTreeStake (mkScan f [] [] false)
    (wf_rescan f) []) as (s1 & -> & H1).
  { split; [done|]. intros op. by rewrite bool_decide_false, orb_false_r by set_solver. }
  { done. }
  destruct (scan_txs_spec 0 (Transactions block) TxTreeRegular s1 (wf_rescan f)
    (created (wf_rescan f) (imap (λ j tx, (j, TxTreeStake, tx)) (STransactions block))))
    as (s2 & -> & H2).
  { eapply (extends_follows _ _ _ []) in H1; [done|]. split; [done|].
    intros op. by rewrite bool_decide_false, orb_false_r by set_solver. }
  { done. }
  pose proof (follows_trans _ _ _ _ _ _ _ H1 H2) as H. simpl in H.
  pose proof (matching_app (wf_rescan f) []
    (imap (λ j tx, (j, TxTreeStake, tx)) (STransactions block))
    (imap (λ j tx, (j, TxTreeRegular, tx)) (Transactions block))) as Happ.
  simpl in Happ. rewrite <- Happ in H. clear Happ. fold (scan_order block) in H.
  assert (Hnew : created (wf_rescan f) (imap (λ j tx, (j, TxTreeStake, tx)) (STransactions block))
          ++ created (wf_rescan f) (imap (λ j tx, (j, TxTreeRegular, tx)) (Transactions block))
          = new).
  { subst new. unfold scan_order, created. by rewrite map_app, concat_app. }
  simpl in Hnew. rewrite Hnew in H. destruct H as [Ha Ho Hm (l & Hd & Hf & Hl & Hn & He) Hz].
  exists (s_fadded s2), (s_filter s2). simpl in *. rewrite Hm, Hf. split_and!; try done.
  intros Hne. apply matching_created. by apply He.
Qed.

(** C6. [rescanBlock] finds exactly the relevant transactions.  In scan order
    (the stake tree first), a transaction matches iff it pays a watched address
    or spends, through an input that is looked at, an outpoint watched before
    the block or paid to the wallet earlier in it.  The watched outpoints grow by exactly the outputs of the
    block that pay a watched address, the addresses do not change, and
    [fadded] is what was added to the data for later block filters: nothing is
    added by a block without a match. *)
Theorem rescanBlock_spec (block : MsgBlock) (f : WF) :
  votes_ok (STransactions block) →
  let new := created (wf_rescan f) (scan_order block) in
  ∃ fadded f',
    rescanBlock block f = (Ok (matching (wf_rescan f) [] (scan_order block), fadded), f') ∧
    (∀ a, ExistsAddress (wf_rescan f') a = ExistsAddress (wf_rescan f) a) ∧
    (∀ op, ExistsUnspentOutPoint (wf_rescan f') op =
           ExistsUnspentOutPoint (wf_rescan f) op || bool_decide (op ∈ new)) ∧
    wf_data f' = wf_data f ++ fadded ∧
    (∀ op, op ∈ new → ExistsUnspentOutPoint (wf_rescan f) op = true ∨ EntryOutPoint op ∈ fadded) ∧
    (∀ e, e ∈ fadded → ∃ op, e = EntryOutPoint op ∧ op ∈ new) ∧
    (fadded ≠ [] → matching (wf_rescan f) [] (scan_order block) ≠ []) ∧
    (new = [] → f' = f).
Proof. intros. by apply rescanBlock_run. Qed.

Lemma filter_loop_spec f rest m mid :
  let ms := filter (λ tx, relevant f tx = true) rest in
  filter_loop f (length rest) (length m + length mid) (length m) (m ++ mid ++ rest) =
    (length (m ++ ms), m ++ ms ++ drop (length ms) (mid ++ rest)).
Proof.
  revert m mid. induction rest as [|tx rest IH]; intros m mid.
  { simpl. by rewrite !app_nil_r. }
  cbn [length filter_loop].
  rewrite lookup_app_r, Nat.add_sub' by lia.
  rewrite lookup_app_r, Nat.sub_diag by lia. simpl.
  rewrite filter_cons. destruct (relevant f tx) eqn:E; simpl.
  - assert (Hmid : ∃ mid', mid ++ tx :: rest = hd tx mid :: mid' ++ rest ∧
                           length mid' = length mid).
    { destruct mid as [|x mid]; simpl; [by exists []|]. exists (mid ++ [tx]).
      rewrite length_app, <- app_assoc. simpl. split; [done|lia]. }
    destruct Hmid as (mid' & -> & Hlen).
    rewrite insert_app_r_alt, Nat.sub_diag by lia. simpl.
    specialize (IH (m ++ [tx]) mid'). rewrite length_app, Hlen in IH. simpl in IH.
    rewrite <- !app_assoc in IH. simpl in IH.
    replace (S (length m + length mid)) with (length m + 1 + length mid) by lia.
    replace (S (length m)) with (length m + 1) by lia. rewrite IH. done.
  - specialize (IH m (mid ++ [tx])). rewrite length_app, <- app_assoc in IH. simpl in IH.
    replace (S (length m + length mid)) with (length m + (length mid + 1)) by lia.
    exact IH.
Qed.

(** The result and the slice of the caller afterwards. *)
Lemma filterRelevant_eq (f : F) (txs : list MsgTx) :
  let ms := filter (λ tx, relevant f tx = true) txs in
  filterRelevant f txs = (ms, ms ++ drop (length ms) txs).
Proof.
  pose proof (filter_loop_spec f txs [] []) as H. simpl in H.
  unfold filterRelevant. rewrite H. by rewrite take_app_length.
Qed.

(** [filterRelevant] returns exactly the relevant transactions, in order,
    but it builds them in the array of its argument: afterwards the slice of
    the caller, of the same length, starts with the matches, and a transaction
    that was dropped can only be found behind them. *)
Theorem filterRelevant_spec (f : F) (txs : list MsgTx) :
  let '(ms, txs') := filterRelevant f txs in
  ms = filter (λ tx, relevant f tx = true) txs ∧
  length txs' = length txs ∧ take (length ms) txs' = ms ∧
  drop (length ms) txs' = drop (length ms) txs ∧
  (txs' = txs ↔ take (length ms) txs = ms).
Proof.
  rewrite filterRelevant_eq. set (ms := filter _ txs).
  assert (Hle : length ms ≤ length txs) by apply length_filter.
  split_and!; [done|rewrite length_app, length_drop; lia|apply take_app_length|
    apply drop_app_length|].
  split; [intros <-; apply take_app_length|]. intros H. rewrite <- H at 1. apply take_drop.
Qed.

Lemma covers_add_outpoint f op :
  covers f → covers (mkWF (AddUnspentOutPoint (wf_rescan f) op) (wf_data f ++ [EntryOutPoint op])).
Proof.
  intros [Ha Ho]. split; simpl.
  - intros a. rewrite add_outpoint_address. intros Hx. destruct (Ha a Hx) as (s & ? & ?).
    exists s. set_solver.
  - intros op'. rewrite add_outpoint. intros [->%bool_decide_eq_true|Hx]%orb_true_iff; set_solver.
Qed.

(** An address is added together with the addresses of the same script only. *)
Definition adds_same_script : Prop :=
  ∀ (f : F) (a b : Address),
    ExistsAddress (AddAddress f a) b = true → ExistsAddress f b = true ∨ PayToAddr b = PayToAddr a.

Lemma covers_add_address f a s :
  adds_same_script → PayToAddr a = Some s → covers f →
  covers (mkWF (AddAddress (wf_rescan f) a) (wf_data f ++ [EntryPkScript s])).
Proof.
  intros Hsame Hs [Ha Ho]. split; simpl.
  - intros b [Hb|Hb]%Hsame.
    + destruct (Ha b Hb) as (s' & ? & ?). exists s'. set_solver.
    + exists s. rewrite Hb. set_solver.
  - intros op. rewrite add_address_outpoint. set_solver.
Qed.

Lemma load_addrs_spec addrs f :
  adds_same_script → covers f →
  covers (load_addrs addrs f) ∧
  (∀ a, ExistsAddress (wf_rescan f) a = true ∨ (a ∈ addrs ∧ PayToAddr a ≠ None) →
        ExistsAddress (wf_rescan (load_addrs addrs f)) a = true).
Proof.
  intros Hsame. revert f. induction addrs as [|b addrs IH]; intros f Hc; simpl.
  { split; [done|]. set_solver. }
  destruct (PayToAddr b) as [s|] eqn:Hb.
  - destruct (IH _ (covers_add_address f b s Hsame Hb Hc)) as [Hc' Ha']. split; [done|].
    intros a Hx. apply Ha'. simpl. destruct Hx as [Hx|[[->|Hin]%elem_of_cons Hp]].
    + left. by apply add_address_mono.
    + left. by apply add_address.
    + by right.
  - destruct (IH f Hc) as [Hc' Ha']. split; [done|].
    intros a [Hx|[[->|Hin]%elem_of_cons Hp]]; [by apply Ha'; left|done|apply Ha'; by right].
Qed.

Lemma load_outpoints_spec ops f :
  covers f →
  covers (load_outpoints ops f) ∧
  (∀ a, ExistsAddress (wf_rescan (load_outpoints ops f)) a = ExistsAddress (wf_rescan f) a) ∧
  (∀ op, ExistsUnspentOutPoint (wf_rescan f) op = true ∨ op ∈ ops →
         ExistsUnspentOutPoint (wf_rescan (load_outpoints ops f)) op = true).
Proof.
  revert f. induction ops as [|op ops IH]; intros f Hc; simpl.
  { split_and!; [done..|]. set_solver. }
  destruct (IH _ (covers_add_outpoint f op Hc)) as (Hc' & Ha & Ho). split_and!; [done|..].
  - intros a. rewrite Ha. simpl. apply add_outpoint_address.
  - intros op' Hx. apply Ho. simpl. rewrite add_outpoint.
    destruct Hx as [Hx|[->|Hx]%elem_of_cons]; [left|left|by right].
    + by rewrite Hx, orb_true_r.
    + by rewrite bool_decide_true.
Qed.

(** [LoadTxFilter] watches what it is asked to watch, and keeps the two
    filters in step: everything the precise filter matches is in the data block
    filters are matched against. *)
Theorem LoadTxFilter_covers (reload : bool) (addrs : list Address) (ops : list OutPoint)
    (f : option WF) :
  adds_same_script → (reload = false → from_option covers True f) →
  let f' := LoadTxFilter reload addrs ops f in
  covers f' ∧
  (∀ a, a ∈ addrs → PayToAddr a ≠ None → ExistsAddress (wf_rescan f') a = true) ∧
  (∀ op, op ∈ ops → ExistsUnspentOutPoint (wf_rescan f') op = true) ∧
  (∀ op f0, reload = false → f = Some f0 → ExistsUnspentOutPoint (wf_rescan f0) op = true →
            ExistsUnspentOutPoint (wf_rescan f') op = true).
Proof.
  intros Hsame Hf. unfold LoadTxFilter.
  set (f1 := match f with Some f => _ | None => _ end).
  assert (Hf1 : covers f1).
  { assert (Hnew : covers (mkWF NewRescanFilter [])).
    { split; simpl; [intros a; by rewrite new_address|intros op; by rewrite new_outpoint]. }
    subst f1. destruct f as [f|], reload; try done. by apply Hf. }
  destruct (load_addrs_spec addrs f1 Hsame Hf1) as [Hc Ha].
  destruct (load_outpoints_spec ops _ Hc) as (Hc' & Ha' & Ho). split_and!; [done|..].
  - intros a Hin Hp. rewrite Ha'. apply Ha. by right.
  - intros op Hin. apply Ho. by right.
  - intros op f0 -> -> Hop. apply Ho. left. subst f1. simpl.
    clear -Hop RescanFilterLaws0. revert f0 Hop.
    induction addrs as [|a addrs IH]; intros f0 Hop; simpl; [done|].
    apply IH. destruct (PayToAddr a); [|done]. simpl. by rewrite add_address_outpoint.
Qed.

(** *** What a block filter must answer *)

(** The block spends the outpoint, through an input that is looked at. *)
Definition spends (block : MsgBlock) (op : OutPoint) : Prop :=
  ∃ x ins inp, x ∈ scan_order block ∧ tx_inputs x.1.1 x.2 x.1.2 = Some ins ∧
    inp ∈ ins ∧ PreviousOutPoint inp = op.

(** The block has an output to the address. *)
Definition pays_to (block : MsgBlock) (a : Address) : Prop :=
  ∃ x out addrs, x ∈ scan_order block ∧ out ∈ tx_TxOut x.2 ∧
    ExtractPkScriptAddrs (to_Version out) (PkScript out) = inr addrs ∧ a ∈ addrs.

(** An entry of the data touches the block. *)
Definition touches (e : Entry) (block : MsgBlock) : Prop :=
  (∃ op, e = EntryOutPoint op ∧ spends block op) ∨
  (∃ a s, PayToAddr a = Some s ∧ e = EntryPkScript s ∧ pays_to block a).

Lemma existsb_false_elem {A} (f : A → bool) l : (∀ x, x ∈ l → f x = false) → existsb f l = false.
Proof.
  induction l as [|x l IH]; intros H; simpl; [done|].
  rewrite H by set_solver. apply IH. set_solver.
Qed.

(** A block that no entry of covering data touches is not worth scanning. *)
Lemma rescanBlock_quiet block f :
  votes_ok (STransactions block) → covers f →
  (∀ e, e ∈ wf_data f → ¬ touches e block) →
  rescanBlock block f = (Ok ([], []), f).
Proof.
  intros Hv [Ha Ho] Hq.
  assert (Hout : ∀ x, x ∈ scan_order block → ∀ o, o ∈ tx_TxOut x.2 → pays (wf_rescan f) o = false).
  { intros x Hx o Hox. unfold pays.
    destruct (ExtractPkScriptAddrs _ _) as [e|addrs] eqn:E; [done|].
    apply existsb_false_elem. intros a Hin.
    destruct (ExistsAddress (wf_rescan f) a) eqn:Hex; [|done]. exfalso.
    destruct (Ha a Hex) as (s & Hs & Hd). apply (Hq _ Hd). right. exists a, s.
    split_and!; [done..|]. exists x, o, addrs. done. }
  assert (Hfound : ∀ x, x ∈ scan_order block → found (wf_rescan f) [] x = false).
  { intros [[i tree] tx] Hx. unfold found. apply orb_false_iff. split.
    - apply existsb_false_elem. intros inp Hin. rewrite orb_false_r.
      destruct (ExistsUnspentOutPoint _ _) eqn:Hex; [|done]. exfalso.
      apply Ho in Hex. apply (Hq _ Hex). left. eexists. split; [done|].
      destruct (tx_inputs i tx tree) as [ins|] eqn:Hins; [|set_solver].
      exists (i, tree, tx), ins, inp. done.
    - apply existsb_false_elem. intros o. by apply (Hout _ Hx). }
  assert (Hpaid : ∀ x, x ∈ scan_order block → paid (wf_rescan f) x.1.2 x.2 = []).
  { intros x Hx. unfold paid. change (paid_from (wf_rescan f) x.1.2 x.2 0 (tx_TxOut x.2) = []).
    generalize 0. specialize (Hout x Hx). induction (tx_TxOut x.2) as [|o os IH]; intros n; [done|].
    rewrite paid_from_cons, Hout by set_solver. apply IH. set_solver. }
  destruct (rescanBlock_run block f Hv) as (fadded & f' & Hr & _ & _ & _ & _ & Hl & _ & Hz).
  assert (Hc : created (wf_rescan f) (scan_order block) = []).
  { revert Hpaid. clear. induction (scan_order block) as [|x l IH]; intros H; [done|].
    change (paid (wf_rescan f) x.1.2 x.2 ++ created (wf_rescan f) l = []).
    rewrite H by set_solver. apply IH. set_solver. }
  rewrite Hc in Hl, Hz. rewrite Hz in Hr by done.
  assert (fadded = []) as ->.
  { destruct fadded as [|e l]; [done|]. destruct (Hl e) as (op & _ & Hop); [set_solver|].
    by apply not_elem_of_nil in Hop. }
  rewrite Hr. do 3 f_equal. revert Hfound Hpaid. clear.
  induction (scan_order block) as [|x l IH]; intros Hf Hp; [done|]. simpl.
  rewrite Hf, Hp by set_solver. apply IH; set_solver.
Qed.

End Rescan.

(** ** A small chain library, for the witnesses

    An address is its script, a filter is the list of its entries, and a block
    validates when it is one of two known blocks: the first pays address [me],
    the second spends this output. *)
Module Toy.
Definition me : bytes := bs "me".
Definition entry : Type := OutPoint + bytes.

Definition tx1 : MsgTx := mkMsgTx (bs "t1") 1 [] [mkTxOut 5 0 me] 0 0.
Definition tx2 : MsgTx :=
  mkMsgTx (bs "t2") 1 [mkTxIn (mkOutPoint (bs "t1") 0 0) 5] [mkTxOut 5 0 (bs "you")] 0 0.
Definition coinbase : MsgTx := mkMsgTx (bs "t0") 1 [] [] 0 0.
Definition blk (h : Hash) : MsgBlock :=
  if decide (h = bs "h1") then mkMsgBlock h [coinbase; tx1] []
  else if decide (h = bs "h2") then mkMsgBlock h [coinbase; tx2] []
  else mkMsgBlock h [] [].

#[global] Instance MsgBlock_eq_dec : EqDecision MsgBlock.
Proof.
  assert (EqDecision TxIn) by solve_decision.
  assert (EqDecision TxOut) by solve_decision.
  assert (EqDecision MsgTx) by solve_decision.
  solve_decision.
Defined.

#[global] Instance lib : ChainLib bytes (list entry) entry := {
  DetermineTxType := λ _, TxTypeRegular;
  ExtractPkScriptAddrs := λ v s, if decide (v = 0%Z) then inr [s] else inl (ENew "version");
  EntryOutPoint := inl;
  EntryPkScript := inr;
  PayToAddr := Some;
  FilterN := λ f, Z.of_nat (length f);
  MatchAny := λ f _ data, existsb (λ e, bool_decide (e ∈ f)) data;
  MerkleRoots := λ b, if decide (b = blk (BlockHash b)) then None else Some (ENew "merkle");
  DCP0005MerkleRoot := λ _, Some (ENew "merkle");
  RegularCFilter := λ _ _, None
}.

(** Everything a block filter commits to. *)
Definition entries (b : MsgBlock) : list entry :=
  concat ((λ x : nat * Z * MsgTx,
    ((λ inp, inl (PreviousOutPoint inp)) <$> default [] (tx_inputs x.1.1 x.2 x.1.2)) ++
    ((λ out, inr (PkScript out)) <$> tx_TxOut x.2)) <$> scan_order b).

Lemma touches_entries e b : touches e b → e ∈ entries b.
Proof.
  unfold entries. intros H. apply list_elem_of_In, in_concat.
  destruct H as [(op & -> & x & ins & inp & Hx & Hins & Hin & <-)
                |(a & s & [= ->] & -> & x & out & addrs & Hx & Hout & Hex & Hin)].
  all: eexists; split; [apply list_elem_of_In, list_elem_of_fmap_2, Hx|].
  all: apply list_elem_of_In, elem_of_app.
  - left. rewrite Hins. by apply (list_elem_of_fmap_2 (λ inp, inl (PreviousOutPoint inp))).
  - right. simpl in Hex. case_decide; simplify_eq. apply list_elem_of_singleton in Hin as ->.
    by apply (list_elem_of_fmap_2 (λ out, inr (PkScript out))).
Qed.

(** The wallet watches [me]. *)
Definition f0 : WalletFilter (SetFilter bytes) entry := mkWF (mkSetFilter {[me]} ∅) [inr me].

Lemma covers_f0 : covers f0.
Proof.
  split; simpl.
  - intros a Ha%bool_decide_eq_true. apply elem_of_singleton in Ha as ->. exists me. set_solver.
  - intros op Ho%bool_decide_eq_true. set_solver.
Qed.

Lemma votes b : votes_ok (STransactions b).
Proof. by intros tx _ H. Qed.
End Toy.

Lemma rescanBlock_spec_witness :
  ∃ fadded f', rescanBlock (Toy.blk (bs "h1")) Toy.f0 = (Ok ([Toy.tx1], fadded), f') ∧
    ExistsUnspentOutPoint (wf_rescan f') (mkOutPoint (bs "t1") 0 0) = true.
Proof.
  destruct (rescanBlock_spec (Toy.blk (bs "h1")) Toy.f0 (Toy.votes _))
    as (fadded & f' & Hr & _ & Ho & _).
  exists fadded, f'. split; [exact Hr|]. rewrite Ho. reflexivity.
Defined.

Lemma LoadTxFilter_covers_witness :
  covers (LoadTxFilter false [bs "you"] [] (Some Toy.f0)) ∧
  ExistsAddress (wf_rescan (LoadTxFilter false [bs "you"] [] (Some Toy.f0))) (bs "you") = true.
Proof.
  destruct (LoadTxFilter_covers false [bs "you"] [] (Some Toy.f0)) as (Hc & Ha & _).
  - intros f a b Hb%bool_decide_eq_true. simpl in Hb.
    apply elem_of_union in Hb as [->%elem_of_singleton|Hb]; [by right|left].
    by apply bool_decide_eq_true.
  - intros _. exact Toy.covers_f0.
  - split; [exact Hc|]. apply Ha; [by apply list_elem_of_singleton|discriminate].
Defined.
