(* ===== verification/Scan.v ===== *)
(** * The filter loops: [scanChain] of [spv/sync.go], [Rescan] of [spv/backend.go]

    Both walk a chain of blocks whose compact filters are known, fetch only the
    blocks whose filter matches, and start over behind a block that added
    outpoints to the filters, with only the new data.  The loop is written once;
    the two functions give it their way to test a filter, to fetch blocks and
    to visit one.

    The worker goroutines find the matching indexes in any order: [sched] is
    the order they report, an arbitrary permutation. *)
From S2P Require Import Prelude Wire Rescan.

(** When [ctx.Err()] is asked. *)
Inductive Moment :=
| AtPick (idx : nat) (tries : nat)   (* before a peer is picked *)
| AtBlock (i : nat)                  (* before a block is rescanned *)
| AtScan (idx : nat).                (* after the blocks were fetched *)

(** What a peer answers to a getdata for these blocks. *)
Definition Peer : Type := list Hash → goerr + list MsgBlock.

Section Scan.
Context {Address Filter Entry F : Type}.
Context `{!ChainLib Address Filter Entry} `{!RescanFilter Address F}.
Abbreviation WF := (WalletFilter F Entry).

Context (sched : nat → list nat → list nat).
Context (ctxErr : Moment → option goerr).

(** ** The loop *)
Section loop.
Context {X : Type}.
Context (chain : list (Hash * Filter)).
Context (test : Hash * Filter → list Entry → bool).
Context (fetch : nat → list nat → list (option MsgBlock) → GM X (list (option MsgBlock))).
Context (visit : nat → Hash → MsgBlock → GM X (list Entry)).

(** A block that is not fetched yet and whose filter matches. *)
Definition wanted (data : list Entry) (fetched : list (option MsgBlock)) (i : nat) : bool :=
  match fetched !! i, chain !! i with
  | Some None, Some n => test n data
  | _, _ => false
  end.

(** The indexes handed to the workers that match. *)
Definition fmatches (idx : nat) (data : list Entry) (fetched : list (option MsgBlock))
  : list nat :=
  filter (λ i, wanted data fetched i = true) (seq idx (length chain - idx)).

(** Rescan the fetched blocks from [i] on; stop behind the first that added
    entries, with what it added. *)
Fixpoint visit_from (i : nat) (nodes : list (Hash * Filter)) (bs : list (option MsgBlock))
    : GM X (option (nat * list Entry)) :=
  match nodes, bs with
  | (h, _) :: nodes', Some b :: bs' =>
      let! fadded := visit i h b in
      match fadded with
      | [] => visit_from (S i) nodes' bs'
      | _ => ret (Some (i, fadded))
      end
  | _ :: nodes', None :: bs' => visit_from (S i) nodes' bs'
  | _, _ => ret None
  end.

Fixpoint filterLoop (fuel idx : nat) (data : list Entry) (fetched : list (option MsgBlock))
    : GM X unit :=
  match fuel with
  | O => panic
  | S fuel =>
      if decide (idx < length chain) then
        let fm := sched idx (fmatches idx data fetched) in
        let! fetched := fetch idx fm fetched in
        let! r := visit_from idx (drop idx chain) (drop idx fetched) in
        match r with
        | None => ret tt
        | Some (i, fadded) => filterLoop fuel (S i) fadded fetched
        end
      else ret tt
  end.

(** Visiting every block, in order. *)
Fixpoint visit_all (blk : Hash → MsgBlock) (i : nat) (nodes : list (Hash * Filter)) : GM X unit :=
  match nodes with
  | [] => ret tt
  | (h, _) :: nodes' => let! _ := visit i h (blk h) in visit_all blk (S i) nodes'
  end.
End loop.

(** ** Fetched blocks *)

(** The checks of a downloaded block. *)
Definition validate (f : Filter) (b : MsgBlock) : option goerr :=
  let err := match MerkleRoots b with Some _ => DCP0005MerkleRoot b | None => None end in
  match err with
  | Some e => Some e
  | None => RegularCFilter b f
  end.

(** [for j, b := range blocks { i := fmatchidx[j]; ...; fetched[i] = b }] *)
Fixpoint store_blocks (chain : list (Hash * Filter)) (fm : list nat) (blocks : list MsgBlock)
    {struct blocks} : GM (list (option MsgBlock)) unit :=
  match blocks with
  | [] => ret tt
  | b :: blocks' =>
      match fm with
      | [] => panic
      | i :: fm' =>
          match chain !! i with
          | None => panic
          | Some (_, f) =>
              match validate f b with
              | Some e => fail e
              | None => modify <[i := Some b]> ;; store_blocks chain fm' blocks'
              end
          end
      end
  end.

Definition hashes_at (chain : list (Hash * Filter)) (fm : list nat) : list Hash :=
  omap (λ i, fst <$> chain !! i) fm.

(** ** sync.go: [scanChain] *)

(** The filters of the wallet, and the map it returns. *)
Abbreviation ChainState := (WF * gmap Hash (list MsgTx))%type.

Definition scan_fetch (chain : list (Hash * Filter)) (rp : Peer) (idx : nat) (fm : list nat)
    (fetched : list (option MsgBlock)) : GM ChainState (list (option MsgBlock)) :=
  let! fetched :=
    match fm with
    | [] => ret fetched
    | _ =>
        match rp (hashes_at chain fm) with
        | inl err => fail err
        | inr blocks => λ s,
            match store_blocks chain fm blocks fetched with
            | (Ok _, fetched) => (Ok fetched, s)
            | (Err e, _) => (Err e, s)
            | (Panic, _) => (Panic, s)
            end
        end
    end in
  check (ctxErr (AtScan idx)) ;; ret fetched.

Definition scan_visit (i : nat) (h : Hash) (b : MsgBlock) : GM ChainState (list Entry) :=
  λ '(f, m),
    match rescanBlock b f with
    | (Ok (matches, fadded), f') => (Ok fadded, (f', <[h := matches]> m))
    | (Err e, f') => (Err e, (f', m))
    | (Panic, f') => (Panic, (f', m))
    end.

Definition scan_test (n : Hash * Filter) (data : list Entry) : bool :=
  bool_decide (FilterN n.2 ≠ 0%Z) && MatchAny n.2 n.1 data.

(** [bmap] holds blocks known already. *)
Definition scanChain (fuel : nat) (rp : Peer) (chain : list (Hash * Filter))
    (bmap : gmap Hash MsgBlock) : GM WF (gmap Hash (list MsgTx)) := λ f,
  let fetched := (λ n : Hash * Filter, bmap !! n.1) <$> chain in
  match filterLoop chain scan_test (scan_fetch chain rp) scan_visit fuel 0 (wf_data f) fetched
          (f, ∅) with
  | (Ok _, (f', found)) => (Ok found, f')
  | (Err e, (f', _)) => (Err e, f')
  | (Panic, (f', _)) => (Panic, f')
  end.

(** ** backend.go: [Rescan] *)

(** The error kind of a network backend without peers. *)
Definition NoPeers : goerr := EKind KNoPeers "".

(** The filters of the wallet, and what was passed to [save]. *)
Abbreviation RescanState := (WF * list (Hash * list MsgTx))%type.

(** The [PickPeer] loop: [peers] are the peers [pickRemote] will return, until
    it finds none. *)
Fixpoint pick_peer (chain : list (Hash * Filter)) (idx tries : nat) (peers : list Peer)
    (fm : list nat) : GM (list (option MsgBlock)) unit :=
  check (ctxErr (AtPick idx tries)) ;;
  match peers with
  | [] => fail NoPeers
  | rp :: peers' =>
      match rp (hashes_at chain fm) with
      | inl _ => pick_peer chain idx (S tries) peers' fm
      | inr blocks =>
          let! r := try (store_blocks chain fm blocks) in
          match r with
          | inl _ => pick_peer chain idx (S tries) peers' fm
          | inr _ => ret tt
          end
      end
  end.

Definition rescan_fetch (chain : list (Hash * Filter)) (peers : nat → list Peer) (idx : nat)
    (fm : list nat) (fetched : list (option MsgBlock))
    : GM RescanState (list (option MsgBlock)) :=
  match fm with
  | [] => ret fetched
  | _ => λ s,
      match pick_peer chain idx 0 (peers idx) fm fetched with
      | (Ok _, fetched) => (Ok fetched, s)
      | (Err e, _) => (Err e, s)
      | (Panic, _) => (Panic, s)
      end
  end.

(** [saveErr] is what the callback [save] returns. *)
Definition rescan_visit (saveErr : Hash → list MsgTx → option goerr) (i : nat) (h : Hash)
    (b : MsgBlock) : GM RescanState (list Entry) :=
  check (ctxErr (AtBlock i)) ;;
  λ '(f, saved),
    match rescanBlock b f with
    | (Ok ([], _), f') => (Ok [], (f', saved))
    | (Ok (matchedTxs, fadded), f') =>
        match saveErr h matchedTxs with
        | Some e => (Err e, (f', saved ++ [(h, matchedTxs)]))
        | None => (Ok fadded, (f', saved ++ [(h, matchedTxs)]))
        end
    | (Err e, f') => (Err e, (f', saved))
    | (Panic, f') => (Panic, (f', saved))
    end.

Definition rescan_test (n : Hash * Filter) (data : list Entry) : bool := MatchAny n.2 n.1 data.

(** [CFilter] is the wallet's stored filter of a block; [walletFilter] is
    [None] for a wallet the syncer does not know. *)
Fixpoint get_filters (CFilter : Hash → goerr + Filter) (hs : list Hash)
    : goerr + list (Hash * Filter) :=
  match hs with
  | [] => inr []
  | h :: hs' =>
      match CFilter h with
      | inl e => inl e
      | inr f => match get_filters CFilter hs' with
                 | inl e => inl e
                 | inr l => inr ((h, f) :: l)
                 end
      end
  end.

Definition Rescan (fuel : nat) (known : bool) (CFilter : Hash → goerr + Filter)
    (peers : nat → list Peer) (saveErr : Hash → list MsgTx → option goerr)
    (blockHashes : list Hash) : GM RescanState unit :=
  if negb known then fail (EKind KInvalid "spv.Rescan") else
  match get_filters CFilter blockHashes with
  | inl err => fail err
  | inr chain => λ s,
      filterLoop chain rescan_test (rescan_fetch chain peers) (rescan_visit saveErr)
        fuel 0 (wf_data s.1) (replicate (length chain) None) s
  end.

(** ** What the theorems assume

    A peer answers with an error, or with blocks that have the hashes asked
    for, in this order, which is what [fmatchidx[j]] relies on.  [blk] is the
    block of a hash. *)
Definition peer_ok (rp : Peer) : Prop :=
  ∀ hs bs, rp hs = inr bs → BlockHash <$> bs = hs.

(** The peer has the blocks. *)
Definition serves (blk : Hash → MsgBlock) (rp : Peer) : Prop := ∀ hs, rp hs = inr (blk <$> hs).

(** The blocks of the chain: their hashes are theirs, they pass validation, and
    a block with such a hash that passes validation is that block. *)
Record chain_ok (blk : Hash → MsgBlock) (chain : list (Hash * Filter)) : Prop := {
  ck_hash h f : (h, f) ∈ chain → BlockHash (blk h) = h;
  ck_valid h f : (h, f) ∈ chain → validate f (blk h) = None;
  ck_unique h f b : (h, f) ∈ chain → BlockHash b = h → validate f b = None → b = blk h;
  ck_votes h f : (h, f) ∈ chain → votes_ok (STransactions (blk h))
}.

(** Compact filters have no false negatives. *)
Definition filters_complete (blk : Hash → MsgBlock) (chain : list (Hash * Filter)) : Prop :=
  ∀ h f e data, (h, f) ∈ chain → e ∈ data → touches e (blk h) →
    FilterN f ≠ 0%Z ∧ MatchAny f h data = true.

Definition sched_ok : Prop := ∀ idx l, Permutation (sched idx l) l.

(** The fetched blocks are those of the chain. *)
Definition fetched_ok (blk : Hash → MsgBlock) (chain : list (Hash * Filter))
    (fetched : list (option MsgBlock)) : Prop :=
  length fetched = length chain ∧
  ∀ i b, fetched !! i = Some (Some b) → ∃ h f, chain !! i = Some (h, f) ∧ b = blk h.

(** More blocks are fetched, those of [fm] among them. *)
Definition fetches (fm : list nat) (fetched fetched' : list (option MsgBlock)) : Prop :=
  (∀ i, fetched' !! i = Some None → fetched !! i = Some None) ∧
  (∀ i, i ∈ fm → fetched' !! i ≠ Some None).

(** ** Lemmas *)

Context `{!RescanFilterLaws Address F}.

Section fetching.
Context (blk : Hash → MsgBlock) (chain : list (Hash * Filter)).
Context (Hchain : chain_ok blk chain).

Lemma chain_lookup i : i < length chain → ∃ h f, chain !! i = Some (h, f) ∧ (h, f) ∈ chain.
Proof.
  intros Hi. destruct (lookup_lt_is_Some_2 chain i Hi) as [[h f] E].
  exists h, f. split; [done|]. by eapply list_elem_of_lookup_2.
Qed.

Lemma fetched_ok_insert fetched i h f b :
  fetched_ok blk chain fetched → chain !! i = Some (h, f) → b = blk h →
  fetched_ok blk chain (<[i := Some b]> fetched).
Proof.
  intros [Hl Hb] Hi ->. split; [by rewrite length_insert|].
  intros j b' Hj. destruct (decide (i = j)) as [<-|Hne].
  - rewrite list_lookup_insert_eq in Hj by (rewrite Hl; by eapply lookup_lt_Some).
    simplify_eq. eauto.
  - rewrite list_lookup_insert_ne in Hj by done. by apply Hb.
Qed.

Lemma store_blocks_spec fm bs fetched :
  fetched_ok blk chain fetched → (∀ i, i ∈ fm → i < length chain) →
  BlockHash <$> bs = hashes_at chain fm →
  ∃ r fetched', store_blocks chain fm bs fetched = (r, fetched') ∧ r ≠ Panic ∧
    fetched_ok blk chain fetched' ∧
    (∀ i, fetched' !! i = Some None → fetched !! i = Some None) ∧
    (r = Ok tt → ∀ i, i ∈ fm → fetched' !! i ≠ Some None) ∧
    (bs = blk <$> hashes_at chain fm → r = Ok tt).
Proof.
  revert fm fetched. induction bs as [|b bs IH]; intros fm fetched Hok Hfm Hbs.
  - exists (Ok tt), fetched. split_and!; try done. intros _ i Hi. exfalso.
    destruct fm as [|j fm]; [set_solver|].
    destruct (chain_lookup j) as (h & f & Hj & _); [apply Hfm; set_solver|].
    unfold hashes_at in Hbs. csimpl in Hbs. rewrite Hj in Hbs. done.
  - destruct fm as [|i fm]; [done|].
    destruct (chain_lookup i) as (h & f & Hi & Hin); [apply Hfm; set_solver|].
    unfold hashes_at in Hbs. csimpl in Hbs. rewrite Hi in Hbs. simpl in Hbs.
    injection Hbs as Hbh Hbs. cbn [store_blocks]. rewrite Hi.
    destruct (validate f b) as [e|] eqn:Hv.
    + exists (Err e), fetched. split_and!; try done.
      unfold hashes_at. csimpl. rewrite Hi. simpl. intros [= -> _].
      by rewrite (ck_valid _ _ Hchain h f Hin) in Hv.
    + assert (Hb : b = blk h) by (by apply (ck_unique _ _ Hchain h f)).
      destruct (IH fm (<[i:=Some b]> fetched)) as (r & fe & Hr & Hp & Hok' & Hm & Hd & Hs).
      { by eapply fetched_ok_insert. }
      { intros j Hj. apply Hfm. set_solver. }
      { done. }
      unfold bind, modify. rewrite Hr. exists r, fe.
      assert (Hi' : i < length fetched) by (destruct Hok as [-> _]; by eapply lookup_lt_Some).
      split_and!; try done.
      * intros j Hj. apply Hm in Hj. destruct (decide (i = j)) as [<-|Hne].
        -- by rewrite list_lookup_insert_eq in Hj.
        -- by rewrite list_lookup_insert_ne in Hj.
      * intros Hrt j [->|Hj]%elem_of_cons; [|by apply Hd]. intros Hn.
        apply Hm in Hn. by rewrite list_lookup_insert_eq in Hn.
      * unfold hashes_at. csimpl. rewrite Hi. simpl. intros [= _ Hbs']. by apply Hs.
Qed.

Lemma pick_peer_spec idx tries peers fm fetched :
  (∀ m, ctxErr m = None) → Forall peer_ok peers → Exists (serves blk) peers →
  fetched_ok blk chain fetched → (∀ i, i ∈ fm → i < length chain) →
  ∃ fetched', pick_peer chain idx tries peers fm fetched = (Ok tt, fetched') ∧
    fetched_ok blk chain fetched' ∧ fetches fm fetched fetched'.
Proof.
  intros Hctx Hpeers. revert tries fetched.
  induction Hpeers as [|rp peers Hrp Hpeers IH]; intros tries fetched Hex Hok Hfm;
    [by apply Exists_nil in Hex|].
  cbn [pick_peer]. unfold bind at 1, check. rewrite Hctx. simpl.
  destruct (rp (hashes_at chain fm)) as [e|bs] eqn:Erp.
  { apply Exists_cons in Hex as [Hs|Hex]; [by rewrite Hs in Erp|]. by apply IH. }
  destruct (store_blocks_spec fm bs fetched Hok Hfm (Hrp _ _ Erp))
    as (r & fe & Hr & Hp & Hok' & Hm & Hd & Hs).
  unfold bind, try. rewrite Hr. destruct r as [[]|e|]; [|..|done].
  - exists fe. split_and!; try done. split; [done|]. by apply Hd.
  - apply Exists_cons in Hex as [Hsv|Hex].
    { rewrite Hsv in Erp. injection Erp as <-. by discriminate Hs. }
    destruct (IH (S tries) fe Hex Hok' Hfm) as (fe2 & -> & Hok2 & Hm2 & Hd2).
    exists fe2. split_and!; try done. split; [|done]. intros i Hi. by apply Hm, Hm2.
Qed.
End fetching.

(** The loop visits, in effect, every block of the chain. *)
Section loop_spec.
Context {X : Type} (wf_of : X → WF) (sim : nat → X → X → Prop).
Context (blk : Hash → MsgBlock) (chain : list (Hash * Filter)).
Context (test : Hash * Filter → list Entry → bool).
Context (fetch : nat → list nat → list (option MsgBlock) → GM X (list (option MsgBlock))).
Context (visit : nat → Hash → MsgBlock → GM X (list Entry)).
Context (Hsched : sched_ok).
Context (Htest : ∀ h f e data, (h, f) ∈ chain → e ∈ data → touches e (blk h) →
                   test (h, f) data = true).
Context (Hfetch : ∀ idx fm fetched x,
  fetched_ok blk chain fetched → (∀ i, i ∈ fm → i < length chain) →
  ∃ fetched', fetch idx fm fetched x = (Ok fetched', x) ∧
    fetched_ok blk chain fetched' ∧ fetches fm fetched fetched').
Context (Hsim : ∀ i x y, sim i x y → wf_of x = wf_of y).
Context (Hquiet : ∀ i h f x y, chain !! i = Some (h, f) → sim i x y → covers (wf_of y) →
  (∀ e, e ∈ wf_data (wf_of y) → ¬ touches e (blk h)) →
  ∃ y', visit i h (blk h) y = (Ok [], y') ∧ sim (S i) x y').
Context (Hvisit : ∀ i h f x y, chain !! i = Some (h, f) → sim i x y → ∃ r x' y',
  visit i h (blk h) x = (r, x') ∧ visit i h (blk h) y = (r, y') ∧ sim (S i) x' y').
Context (Hgrow : ∀ i h f x x' fadded, (h, f) ∈ chain → covers (wf_of x) →
  visit i h (blk h) x = (Ok fadded, x') →
  covers (wf_of x') ∧
  ∀ e, e ∈ wf_data (wf_of x') → e ∈ wf_data (wf_of x) ∨ e ∈ fadded).

(** The blocks from [i] on that are not fetched are touched at most by
    entries of [data]. *)
Definition untouched (i : nat) (data : list Entry) (fetched : list (option MsgBlock)) (x : X)
  : Prop :=
  ∀ j h f e, i ≤ j → fetched !! j = Some None → chain !! j = Some (h, f) →
    e ∈ wf_data (wf_of x) → touches e (blk h) → e ∈ data.

Lemma visit_from_spec n i fetched x y :
  n = length chain - i → fetched_ok blk chain fetched → sim i x y → covers (wf_of x) →
  untouched i [] fetched x →
  ∃ r x', visit_from visit i (drop i chain) (drop i fetched) x = (r, x') ∧
    match r with
    | Ok (Some (k, fadded)) => i ≤ k ∧ k < length chain ∧ ∃ y1,
        visit_all visit blk i (drop i chain) y =
          visit_all visit blk (S k) (drop (S k) chain) y1 ∧
        sim (S k) x' y1 ∧ covers (wf_of x') ∧
        ∀ e, e ∈ wf_data (wf_of x') → e ∈ wf_data (wf_of x) ∨ e ∈ fadded
    | _ => ∃ y', visit_all visit blk i (drop i chain) y = ((λ _, tt) <$> r, y') ∧ ∃ k, sim k x' y'
    end.
Proof.
  revert i x y. induction n as [|n IH]; intros i x y Hn [Hl Hb] Hxy Hc Hu.
  { rewrite (drop_ge chain), (drop_ge fetched) by lia. exists (Ok None), x. by eauto 10. }
  destruct (chain_lookup chain i) as (h & f & Hi & Hin); [lia|].
  destruct (lookup_lt_is_Some_2 fetched i) as [ob Hob]; [lia|].
  rewrite (drop_S chain _ i Hi), (drop_S fetched _ i Hob).
  cbn [visit_from visit_all]. destruct ob as [b|].
  - destruct (Hb i b Hob) as (h' & f' & Hi' & ->). simplify_eq.
    destruct (Hvisit i h f x y Hi Hxy) as (r & x' & y' & Hx & Hy & Hs).
    unfold bind at 1. rewrite Hx. unfold bind. rewrite Hy.
    destruct r as [fadded|e|];
      [|exists (Err e), x'; by eauto|exists Panic, x'; by eauto].
    destruct (Hgrow i h f x x' fadded Hin Hc Hx) as [Hc' Hg].
    destruct fadded as [|e0 fadded].
    + destruct (IH (S i) x' y') as (r & x2 & Hr & Hpost); [lia|done..| |].
      { intros j h' f' e Hj Hf Hch He Ht. destruct (Hg e He) as [He'|]; [|done].
        eapply (Hu j); eauto with lia. }
      exists r, x2. split; [done|]. destruct r as [[[k fa]|]|e|]; [|done..].
      destruct Hpost as (? & ? & y1 & ? & ? & ? & Hg2). split_and!; [lia|done|].
      exists y1. split_and!; try done. intros e He.
      destruct (Hg2 e He) as [He'|]; [|by right]. left.
      destruct (Hg e He') as [|Hnil]; [done|]. by apply not_elem_of_nil in Hnil.
    + exists (Ok (Some (i, e0 :: fadded))), x'. split; [done|].
      split; [done|]. split; [exact (lookup_lt_Some _ _ _ Hi)|]. exists y'. by split_and!.
  - destruct (Hquiet i h f x y Hi Hxy) as (y' & Hy & Hs).
    { by rewrite <- (Hsim i x y). }
    { intros e He Ht. rewrite <- (Hsim i x y) in He by done.
      apply (not_elem_of_nil e). by apply (Hu i h f e). }
    unfold bind. rewrite Hy.
    destruct (IH (S i) x y') as (r & x2 & Hr & Hpost); [lia|done..| |].
    { intros j h' f' e Hj. apply Hu. lia. }
    exists r, x2. split; [done|]. destruct r as [[[k fa]|]|e|]; [|done..].
    destruct Hpost as (? & ? & Hpost). split_and!; [lia|done..].
Qed.

Lemma filterLoop_spec fuel idx data fetched x y :
  length chain - idx < fuel → fetched_ok blk chain fetched → sim idx x y → covers (wf_of x) →
  untouched idx data fetched x →
  ∃ r x' y', filterLoop chain test fetch visit fuel idx data fetched x = (r, x') ∧
    visit_all visit blk idx (drop idx chain) y = (r, y') ∧ ∃ k, sim k x' y'.
Proof.
  revert idx data fetched x y.
  induction fuel as [|fuel IH]; intros idx data fetched x y Hf Hok Hxy Hc Hu.
  { lia. }
  cbn [filterLoop]. destruct (decide (idx < length chain)) as [Hlt|Hge].
  2:{ rewrite drop_ge by lia. exists (Ok tt), x, y. by eauto. }
  set (fm := sched idx _).
  assert (Hfm : ∀ i, i ∈ fm ↔ wanted chain test data fetched i = true ∧ idx ≤ i < length chain).
  { intros i. subst fm. rewrite (Hsched idx). unfold fmatches.
    rewrite list_elem_of_filter, elem_of_seq. intuition lia. }
  destruct (Hfetch idx fm fetched x Hok) as (fe & Hfe & Hok' & Hm & Hd).
  { intros i Hi%Hfm. lia. }
  unfold bind at 1. rewrite Hfe.
  assert (Hu' : untouched idx [] fe x).
  { intros j h f e Hj Hn Hch He Ht. exfalso. apply (Hd j); [|done].
    apply Hfm. split; [|split; [done|by eapply lookup_lt_Some]].
    unfold wanted. rewrite (Hm j Hn), Hch. apply (Htest h f e); [by eapply list_elem_of_lookup_2| |done].
    by apply (Hu j h f e); auto. }
  destruct (visit_from_spec _ idx fe x y eq_refl Hok' Hxy Hc Hu') as (r & x' & Hr & Hpost).
  unfold bind. rewrite Hr. destruct r as [[[k fadded]|]|e|].
  2: destruct Hpost as (y' & Hy & Hs); by exists (Ok tt), x', y'.
  2: destruct Hpost as (y' & Hy & Hs); by exists (Err e), x', y'.
  2: destruct Hpost as (y' & Hy & Hs); by exists Panic, x', y'.
  destruct Hpost as (Hk & Hk' & y1 & -> & Hs & Hc' & Hg).
  apply IH; try done; [lia|].
  intros j h f e Hj Hn Hch He Ht. destruct (Hg e He) as [He'|]; [|done].
  exfalso. apply (not_elem_of_nil e). eapply (Hu' j); eauto with lia.
Qed.
End loop_spec.

(** *** [scanChain] and [Rescan] find what a full scan finds *)

Lemma rescanBlock_step block f :
  votes_ok (STransactions block) →
  ∃ ms fadded f', rescanBlock block f = (Ok (ms, fadded), f') ∧
    (covers f → covers f') ∧
    (∀ e, e ∈ wf_data f' → e ∈ wf_data f ∨ e ∈ fadded) ∧ (ms = [] → fadded = []).
Proof.
  intros Hv. destruct (rescanBlock_run block f Hv)
    as (fadded & f' & Hr & Ha & Ho & Hd & Hn & Hl & Hm & Hz).
  eexists _, fadded, f'. split_and!; [exact Hr|..].
  - intros [Hca Hco]. split.
    + intros a. rewrite Ha. intros Hx. destruct (Hca a Hx) as (s & ? & ?).
      exists s. rewrite Hd. set_solver.
    + intros op. rewrite Ho, Hd. intros [Hx|Hx%bool_decide_eq_true]%orb_true_iff.
      * apply elem_of_app. left. by apply Hco.
      * destruct (Hn op Hx) as [Hk|Hk]; apply elem_of_app; [left; by apply Hco|by right].
  - intros e. rewrite Hd. set_solver.
  - intros Hms. destruct fadded; [done|]. by destruct Hm.
Qed.

(** The two maps name the same transactions, and nothing yet for the blocks
    from [i] on. *)
Definition scan_sim (chain : list (Hash * Filter)) (i : nat) (x y : ChainState) : Prop :=
  x.1 = y.1 ∧ (∀ h, default [] (x.2 !! h) = default [] (y.2 !! h)) ∧
  ∀ j h f, i ≤ j → chain !! j = Some (h, f) → x.2 !! h = None ∧ y.2 !! h = None.

Lemma NoDup_fst_lookup (chain : list (Hash * Filter)) i j h f f' :
  NoDup chain.*1 → chain !! i = Some (h, f) → chain !! j = Some (h, f') → i = j.
Proof.
  intros Hnd Hi Hj. apply (NoDup_lookup chain.*1 i j h Hnd); by rewrite list_lookup_fmap, ?Hi, ?Hj.
Qed.

Lemma scan_sim_insert (chain : list (Hash * Filter)) (i : nat) (h : Hash) (f : Filter) (x y : ChainState) (g : WF)
    (ms ms' : list MsgTx) :
  NoDup chain.*1 → chain !! i = Some (h, f) → scan_sim chain i x y → x.1 = y.1 → ms = ms' →
  scan_sim chain (S i) (g, <[h := ms]> x.2) (g, <[h := ms']> y.2).
Proof.
  intros Hnd Hi (_ & Hm & Hf) _ ->. split_and!; [done|..]; simpl.
  - intros h'. rewrite !lookup_insert. by case_decide.
  - intros j h' f' Hj Hh'.
    assert (h ≠ h') by (intros ->; pose proof (NoDup_fst_lookup _ _ _ _ _ _ Hnd Hi Hh'); lia).
    rewrite !lookup_insert_ne by done. apply (Hf j h' f'); [lia|done].
Qed.

Lemma scan_fetch_spec (blk : Hash → MsgBlock) (chain : list (Hash * Filter)) (rp : Peer)
    (idx : nat) (fm : list nat) (fetched : list (option MsgBlock)) (x : ChainState) :
  chain_ok blk chain → (∀ m, ctxErr m = None) → peer_ok rp → serves blk rp →
  fetched_ok blk chain fetched → (∀ i, i ∈ fm → i < length chain) →
  ∃ fetched', scan_fetch chain rp idx fm fetched x = (Ok fetched', x) ∧
    fetched_ok blk chain fetched' ∧ fetches fm fetched fetched'.
Proof.
  intros Hch Hctx Hrp Hserve Hok Hfm. unfold scan_fetch, bind, check. rewrite Hctx.
  destruct fm as [|i fm'].
  { exists fetched. split_and!; try done. split; [done|set_solver]. }
  set (fm := i :: fm') in *. rewrite Hserve.
  destruct (store_blocks_spec blk chain Hch fm _ fetched Hok Hfm (Hrp _ _ (Hserve _)))
    as (r & fe' & -> & _ & Hok' & Hm & Hd & Hsv).
  rewrite Hsv in Hd |- * by done. exists fe'. split_and!; try done. split; [done|]. by apply Hd.
Qed.

Lemma scan_visit_quiet (blk : Hash → MsgBlock) (chain : list (Hash * Filter)) (i : nat)
    (h : Hash) (f : Filter) (x y : ChainState) :
  chain_ok blk chain → NoDup chain.*1 → chain !! i = Some (h, f) → scan_sim chain i x y →
  covers y.1 → (∀ e, e ∈ wf_data y.1 → ¬ touches e (blk h)) →
  ∃ y', scan_visit i h (blk h) y = (Ok [], y') ∧ scan_sim chain (S i) x y'.
Proof.
  destruct x as [g m], y as [g' m']. intros Hch Hnd Hi (Hg & Hm & Hf) Hc Hq. simpl in *.
  subst g'. exists (g, <[h := []]> m'). rewrite rescanBlock_quiet.
  - split; [done|]. destruct (Hf i h f) as [Hn _]; [done..|].
    split_and!; [done|..]; simpl.
    + intros h'. rewrite lookup_insert. case_decide; subst; [by rewrite Hn|done].
    + intros j h' f' Hj Hh'.
      assert (h ≠ h') by (intros ->; pose proof (NoDup_fst_lookup _ _ _ _ _ _ Hnd Hi Hh'); lia).
      rewrite lookup_insert_ne by done. apply (Hf j h' f'); [lia|done].
  - eapply ck_votes; [done|]. by eapply list_elem_of_lookup_2.
  - done.
  - done.
Qed.

Lemma scan_visit_sim (blk : Hash → MsgBlock) (chain : list (Hash * Filter)) (i : nat)
    (h : Hash) (f : Filter) (x y : ChainState) :
  chain_ok blk chain → NoDup chain.*1 → chain !! i = Some (h, f) → scan_sim chain i x y →
  ∃ r x' y', scan_visit i h (blk h) x = (r, x') ∧ scan_visit i h (blk h) y = (r, y') ∧
    scan_sim chain (S i) x' y'.
Proof.
  destruct x as [g m], y as [g' m']. intros Hch Hnd Hi Hs. pose proof Hs as (Hg & _).
  simpl in Hg. subst g'.
  destruct (rescanBlock_step (blk h) g) as (ms & fadded & g' & Hr & _).
  { eapply ck_votes; [done|]. by eapply list_elem_of_lookup_2. }
  exists (Ok fadded), (g', <[h := ms]> m), (g', <[h := ms]> m'). unfold scan_visit.
  rewrite Hr. split_and!; [done|done|]. by apply (scan_sim_insert chain i h f (g, m) (g, m')).
Qed.

Lemma scan_visit_all_Ok (blk : Hash → MsgBlock) (chain nodes : list (Hash * Filter)) (i : nat)
    (s : ChainState) :
  chain_ok blk chain → (∀ n, n ∈ nodes → n ∈ chain) →
  (visit_all scan_visit blk i nodes s).1 = Ok tt.
Proof.
  intros Hch. revert i s. induction nodes as [|[h f] nodes IH]; intros i [g m] Hin; [done|].
  cbn [visit_all]. unfold bind, scan_visit.
  destruct (rescanBlock_step (blk h) g) as (ms & fa & g' & -> & _).
  - apply (ck_votes blk chain Hch h f), Hin. set_solver.
  - apply IH. set_solver.
Qed.

(** C1. [scanChain] skips nothing.  With an honest peer and block filters
    without false negatives it terminates, and returns for every block of the
    chain the transactions that rescanning every block in order would find, and
    leaves the same filters; the filters of a block that is not fetched are
    asked about everything added by the blocks before it, in spite of the
    restarts with only the new data and of any order of the workers. *)
Theorem scanChain_complete (blk : Hash → MsgBlock) (rp : Peer) (chain : list (Hash * Filter))
    (bmap : gmap Hash MsgBlock) (f : WF) (fuel : nat) :
  chain_ok blk chain → filters_complete blk chain → sched_ok → NoDup chain.*1 →
  (∀ m, ctxErr m = None) → peer_ok rp → serves blk rp →
  (∀ h b, bmap !! h = Some b → b = blk h) → covers f → length chain < fuel →
  ∃ found all f',
    scanChain fuel rp chain bmap f = (Ok found, f') ∧
    visit_all scan_visit blk 0 chain (f, ∅) = (Ok tt, (f', all)) ∧
    ∀ h, default [] (found !! h) = default [] (all !! h).
Proof.
  intros Hch Hcomp Hsch Hnd Hctx Hrp Hserve Hbmap Hcov Hfuel.
  set (fetched := (λ n : Hash * Filter, bmap !! n.1) <$> chain).
  destruct (filterLoop_spec fst (scan_sim chain) blk chain scan_test (scan_fetch chain rp)
    scan_visit Hsch) with (fuel := fuel) (idx := 0) (data := wf_data f) (fetched := fetched)
    (x := (f, (∅ : gmap Hash (list MsgTx)))) (y := (f, (∅ : gmap Hash (list MsgTx))))
    as (r & [f1 m1] & [f2 m2] & Hloop & Hall & k & Hs1 & Hs2 & _).
  - intros h fl e data Hin He Ht. destruct (Hcomp h fl e data Hin He Ht) as [HN HM].
    unfold scan_test. simpl. by rewrite bool_decide_true, HM.
  - intros idx fm fe x. by apply scan_fetch_spec.
  - by intros i x y [].
  - intros i h fl x y. by apply scan_visit_quiet.
  - intros i h fl x y. by apply scan_visit_sim.
  - intros i h fl [g m] x' fadded Hin Hc. unfold scan_visit.
    destruct (rescanBlock_step (blk h) g) as (ms & fa & g' & Hr & Hcov' & Hg & _).
    { by eapply ck_votes. }
    rewrite Hr. intros [= <- <-]. simpl in *. split; [by apply Hcov'|done].
  - lia.
  - subst fetched. split; [by rewrite length_fmap|]. intros i b Hb.
    rewrite list_lookup_fmap in Hb. destruct (chain !! i) as [[h fl]|] eqn:Hi; [|done].
    exists h, fl. split; [done|]. simpl in Hb. apply Hbmap. congruence.
  - by split_and!.
  - done.
  - intros j h fl e _ _ _ He _. done.
  - simpl in Hs1, Hs2. subst f2. rewrite drop_0 in Hall.
    assert (Hok : r = Ok tt).
    { pose proof (scan_visit_all_Ok blk chain chain 0 (f, ∅) Hch (λ n H, H)) as H.
      by rewrite Hall in H. }
    subst r. exists m1, m2, f1. unfold scanChain. fold fetched. by rewrite Hloop.
Qed.

(** C2. [Rescan] of a network backend does what scanning every block in order
    would do: with at least one honest peer to pick each time, it terminates,
    calls [save] with the same blocks and transactions in the same order,
    stops at the same failing [save], and leaves the same filters. *)
Theorem Rescan_complete (blk : Hash → MsgBlock) (CFilter : Hash → goerr + Filter)
    (peers : nat → list Peer) (saveErr : Hash → list MsgTx → option goerr)
    (blockHashes : list Hash) (chain : list (Hash * Filter)) (s : RescanState) (fuel : nat) :
  get_filters CFilter blockHashes = inr chain →
  chain_ok blk chain → filters_complete blk chain → sched_ok → (∀ m, ctxErr m = None) →
  (∀ idx, Forall peer_ok (peers idx) ∧ Exists (serves blk) (peers idx)) →
  covers s.1 → length chain < fuel →
  Rescan fuel true CFilter peers saveErr blockHashes s =
    visit_all (rescan_visit saveErr) blk 0 chain s.
Proof.
  intros Hfil Hch Hcomp Hsch Hctx Hpeers Hcov Hfuel. unfold Rescan. simpl. rewrite Hfil.
  destruct (filterLoop_spec fst (λ _, eq) blk chain rescan_test (rescan_fetch chain peers)
    (rescan_visit saveErr) Hsch) with (fuel := fuel) (idx := 0) (data := wf_data s.1)
    (fetched := replicate (length chain) (@None MsgBlock)) (x := s) (y := s)
    as (r & x' & y' & Hl & Hv & k & ->).
  - intros h f e data Hin He Ht. by destruct (Hcomp h f e data Hin He Ht).
  - intros idx fm fe x Hok Hfm. unfold rescan_fetch.
    destruct fm as [|i fm]; [exists fe; split_and!; try done; split; [done|set_solver]|].
    destruct (Hpeers idx) as [Hp He].
    destruct (pick_peer_spec blk chain Hch idx 0 (peers idx) (i :: fm) fe) as (fe' & -> & ? & ?);
      try done. by exists fe'.
  - by intros _ x y ->.
  - intros i h f x y Hi -> Hc Hq. exists y. split; [|done]. destruct y as [g sv].
    unfold rescan_visit, bind, check. rewrite Hctx. simpl. rewrite rescanBlock_quiet; try done.
    eapply ck_votes; [done|]. by eapply list_elem_of_lookup_2.
  - intros i h f x y _ ->. destruct (rescan_visit saveErr i h (blk h) y) as [r y'] eqn:E.
    by exists r, y', y'.
  - intros i h f [g sv] x' fadded Hin Hc.
    destruct (rescanBlock_step (blk h) g) as (ms & fa & g' & Hr & Hc' & Hg & Hm);
      [by eapply ck_votes|]. simpl in *.
    unfold rescan_visit, bind, check. rewrite Hctx. simpl. rewrite Hr.
    destruct ms as [|m ms]; [rewrite Hm in Hg by done|destruct (saveErr h (m :: ms))];
      intros [=]; subst; simpl; auto.
  - lia.
  - split; [apply length_replicate|]. intros i b Hb. by apply lookup_replicate in Hb as [? _].
  - done.
  - done.
  - by intros j h f e _ _ _ He _.
  - rewrite drop_0 in Hv. by rewrite Hl, Hv.
Qed.

End Scan.

(** ** Witnesses, on the two blocks of [Rescan.Toy] *)

Definition toy_hashes : list Hash := [bs "h1"; bs "h2"].
Definition toy_filter (h : Hash) : list Toy.entry := Toy.entries (Toy.blk h).
Definition toy_chain : list (Hash * list Toy.entry) := (λ h, (h, toy_filter h)) <$> toy_hashes.
Definition toy_peer : Peer := λ hs, inr (Toy.blk <$> hs).
Definition toy_sched (idx : nat) (l : list nat) : list nat := l.

Lemma BlockHash_blk h : BlockHash (Toy.blk h) = h.
Proof. unfold Toy.blk. by repeat case_decide. Qed.

Lemma toy_chain_ok : chain_ok Toy.blk toy_chain.
Proof.
  split; intros h f.
  - intros _. apply BlockHash_blk.
  - intros _. unfold validate. simpl. by rewrite decide_True by (by rewrite BlockHash_blk).
  - intros b _ <-. unfold validate. simpl. by case_decide.
  - intros _. apply Toy.votes.
Qed.

Lemma toy_filters_complete : filters_complete Toy.blk toy_chain.
Proof.
  intros h f e data Hin He Ht%Toy.touches_entries.
  apply list_elem_of_fmap in Hin as (h' & [= -> ->] & _). unfold toy_filter. simpl. split.
  - destruct (Toy.entries _); [by apply not_elem_of_nil in Ht|done].
  - apply existsb_exists. exists e. split; [by apply list_elem_of_In|]. by apply bool_decide_true.
Qed.

Lemma toy_peer_ok : peer_ok toy_peer.
Proof.
  intros hs bs [= <-]. rewrite <- list_fmap_compose.
  rewrite (list_fmap_ext _ id hs); [apply list_fmap_id|]. intros i h _. apply BlockHash_blk.
Qed.

Lemma scanChain_complete_witness :
  ∃ found all f',
    scanChain toy_sched (λ _, None) 3 toy_peer toy_chain ∅ Toy.f0 = (Ok found, f') ∧
    visit_all scan_visit Toy.blk 0 toy_chain (Toy.f0, ∅) = (Ok tt, (f', all)) ∧
    ∀ h, default [] (found !! h) = default [] (all !! h).
Proof.
  apply (scanChain_complete toy_sched (λ _, None) Toy.blk toy_peer toy_chain ∅ Toy.f0 3
           toy_chain_ok toy_filters_complete).
  - intros idx l. done.
  - apply NoDup_cons. split; [set_solver|]. apply NoDup_singleton.
  - done.
  - exact toy_peer_ok.
  - done.
  - intros h b Hb. discriminate Hb.
  - exact Toy.covers_f0.
  - simpl. lia.
Defined.

Lemma Rescan_complete_witness :
  ∃ f', Rescan toy_sched (λ _, None) 3 true (λ h, inr (toy_filter h)) (λ _, [toy_peer])
          (λ _ _, None) toy_hashes (Toy.f0, []) =
        (Ok tt, (f', [(bs "h1", [Toy.tx1]); (bs "h2", [Toy.tx2])])).
Proof.
  eexists. rewrite (Rescan_complete toy_sched (λ _, None) Toy.blk _ _ _ toy_hashes toy_chain);
    [reflexivity|reflexivity|exact toy_chain_ok|exact toy_filters_complete|..].
  - intros idx l. done.
  - done.
  - intros _. split; [by apply Forall_singleton, toy_peer_ok|]. by apply Exists_cons; left.
  - exact Toy.covers_f0.
  - simpl. lia.
Defined.
