(* ===== verification/Syncer.v ===== *)
(** * [spv/sync.go]: notifications, chain tips and the peer set

    The notification wrappers, the synced flags, the choice of peers to connect
    to, and the connection goroutines as a step relation. *)
From S2P Require Import Prelude Wire.

(** ** Notifications

    [nil] callbacks are left out by [set], which tells whether the notifications
    and the callback for an event are set. *)
Inductive Event :=
| Synced (walletID : Z) (sync : bool)
| PeerConnected (peerCount : Z) (addr : string)
| PeerDisconnected (peerCount : Z) (addr : string)
| FetchMissingCFiltersStarted (walletID : Z)
| FetchMissingCFiltersProgress (walletID start end_ : Z)
| FetchMissingCFiltersFinished (walletID : Z)
| FetchHeadersStarted (peerInitialHeight : Z)
| FetchHeadersProgress (lastHeaderHeight lastHeaderTime : Z)
| FetchHeadersFinished
| DiscoverAddressesStarted (walletID : Z)
| DiscoverAddressesFinished (walletID : Z)
| RescanStarted (walletID : Z)
| RescanProgress (walletID rescannedThrough : Z)
| RescanFinished (walletID : Z)
| MempoolTxs (walletID : Z) (txs : list MsgTx)
| TipChanged (tipHeight reorgDepth : Z) (txs : list MsgTx).

Section notifications.
Context (set : Event → bool).

(** The events given to the callbacks so far. *)
Definition emit (e : Event) (log : list Event) : list Event :=
  if set e then log ++ [e] else log.

Definition peerConnected (remotesCount : Z) (addr : string) :=
  emit (PeerConnected (wrap32 remotesCount) addr).
Definition peerDisconnected (remotesCount : Z) (addr : string) :=
  emit (PeerDisconnected (wrap32 remotesCount) addr).
Definition fetchMissingCfiltersStart (walletID : Z) := emit (FetchMissingCFiltersStarted walletID).
Definition fetchMissingCfiltersProgress (walletID start end_ : Z) :=
  emit (FetchMissingCFiltersProgress walletID start end_).
Definition fetchMissingCfiltersFinished (walletID : Z) :=
  emit (FetchMissingCFiltersFinished walletID).
Definition fetchHeadersStart (peerInitialHeight : Z) := emit (FetchHeadersStarted peerInitialHeight).
(** The height of a header is a [uint32]. *)
Definition fetchHeadersProgress (height unix : Z) :=
  emit (FetchHeadersProgress (wrap32 height) unix).
Definition fetchHeadersFinished := emit FetchHeadersFinished.
Definition discoverAddressesStart (walletID : Z) := emit (DiscoverAddressesStarted walletID).
Definition discoverAddressesFinished (walletID : Z) := emit (DiscoverAddressesFinished walletID).
Definition rescanStart (walletID : Z) := emit (RescanStarted walletID).
Definition rescanProgress (walletID rescannedThrough : Z) :=
  emit (RescanProgress walletID rescannedThrough).
Definition rescanFinished (walletID : Z) := emit (RescanFinished walletID).
Definition mempoolTxs (walletID : Z) (txs : list MsgTx) := emit (MempoolTxs walletID txs).
(** The transactions of all blocks, in the order the map is ranged over. *)
Definition tipChanged (tipHeight reorgDepth : Z) (matchingTxs : list (list MsgTx)) :=
  emit (TipChanged tipHeight reorgDepth (concat matchingTxs)).

(** ** The synced flags

    [atomicWalletsSynced[walletID]]; [CompareAndSwap] on a missing wallet
    panics. *)
Record Flags := mkFlags { fl_synced : gmap Z bool; fl_log : list Event }.

Definition cas (walletID : Z) (old new : bool) : GM Flags bool := λ s,
  match fl_synced s !! walletID with
  | None => (Panic, s)
  | Some b =>
      if decide (b = old) then (Ok true, mkFlags (<[walletID := new]> (fl_synced s)) (fl_log s))
      else (Ok false, s)
  end.

Definition notify (e : Event) : GM Flags unit :=
  modify (λ s, mkFlags (fl_synced s) (emit e (fl_log s))).

Definition synced (walletID : Z) : GM Flags unit :=
  let! b := cas walletID false true in
  if (b : bool) then notify (Synced walletID true) else ret tt.

Definition unsynced (walletID : Z) : GM Flags unit :=
  let! b := cas walletID true false in
  if (b : bool) then notify (Synced walletID false) else ret tt.

(** The [Synced] events of a wallet, oldest first. *)
Definition synced_events (walletID : Z) (log : list Event) : list bool :=
  omap (λ e, match e with
             | Synced w b => if decide (w = walletID) then Some b else None
             | _ => None
             end) log.

(** [b] and its negation in turn. *)
Fixpoint alternates (b : bool) (l : list bool) : Prop :=
  match l with [] => True | x :: l' => x = b ∧ alternates (negb b) l' end.

Lemma alternates_snoc b l x :
  alternates b l → last l = Some (negb x) ∨ (l = [] ∧ x = b) → alternates b (l ++ [x]).
Proof.
  revert b. induction l as [|y l IH]; intros b; simpl.
  - intros _ [H|[_ ->]]; done.
  - intros [-> Ha] [Hl|[? _]]; [|done]. split; [done|].
    destruct l as [|z l]; [|by apply IH; [|left]].
    injection Hl as ->. simpl. by rewrite negb_involutive.
Qed.

(** The events alternate from [true], and the flag is the last event. *)
Definition flags_ok (s : Flags) : Prop :=
  ∀ w b, fl_synced s !! w = Some b →
    alternates true (synced_events w (fl_log s)) ∧
    b = default false (last (synced_events w (fl_log s))).

(** One call, by any goroutine. *)
Definition flag_step (s : Flags) (c : Z * bool) : Flags :=
  ((if c.2 then synced else unsynced) c.1 s).2.

Lemma flag_step_ok (s : Flags) (c : Z * bool) :
  (∀ w b, set (Synced w b) = true) → flags_ok s → flags_ok (flag_step s c).
Proof.
  intros Hset Hok. destruct c as [w new]. unfold flag_step. simpl.
  assert (Hcas : (if new then synced else unsynced) w s =
    (let! b := cas w (negb new) new in
     if (b : bool) then notify (Synced w new) else ret tt) s) by (by destruct new).
  rewrite Hcas. unfold bind, cas. destruct (fl_synced s !! w) as [b|] eqn:Hb; [|done].
  destruct (decide (b = negb new)) as [->|]; [|done]. simpl.
  intros w' b'. simpl. rewrite lookup_insert. unfold emit. rewrite Hset.
  unfold synced_events. rewrite omap_app. simpl.
  destruct (Hok w _ Hb) as [Ha Hl].
  case_decide as Hw.
  - subst w'. intros [= <-]. split.
    + apply alternates_snoc; [done|].
      destruct (last (omap _ (fl_log s))) as [x|] eqn:E.
      * left. unfold synced_events in Hl. rewrite E in Hl. simpl in Hl. by subst x.
      * right. apply last_None in E. split; [done|].
        unfold synced_events in Hl. rewrite E in Hl. simpl in Hl. by destruct new.
    + by rewrite last_snoc.
  - intros Hb'. rewrite app_nil_r. by apply Hok.
Qed.

(** Clients see the synced state of a wallet change, never repeat: over any
    sequence of [synced] and [unsynced] calls from a new syncer, in any
    interleaving, the [Synced] notifications of each wallet alternate, the first
    being [true], and the last one is the current state of the flag. *)
Theorem synced_notifications_alternate (wallets : gmap Z bool) (cs : list (Z * bool)) (w : Z) b :
  (∀ w b, set (Synced w b) = true) → map_Forall (λ _ b, b = false) wallets →
  let s := foldl flag_step (mkFlags wallets []) cs in
  fl_synced s !! w = Some b →
  alternates true (synced_events w (fl_log s)) ∧
  b = default false (last (synced_events w (fl_log s))).
Proof.
  intros Hset Hw s. apply (λ H, H w b).
  assert (Hgen : ∀ cs s0, flags_ok s0 → flags_ok (foldl flag_step s0 cs)).
  { clear -Hset. intros cs. induction cs as [|c cs IH]; intros s0 H; simpl; [done|].
    by apply IH, flag_step_ok. }
  apply Hgen. intros w' b' Hb'. simpl. split; [done|]. by apply (Hw w').
Qed.
End notifications.

(** ** Chain tips

    The wallets in the order the map is ranged over, with their
    [MainChainTip]. *)
Record Tip := mkTip { tip_hash : Hash; tip_height : Z; tip_wallet : Z }.

Fixpoint lowest_loop (l : list Tip) (acc : Hash * Z * option Z) : Hash * Z * option Z :=
  match l with
  | [] => acc
  | t :: l' =>
      lowest_loop l'
        (if decide (tip_height t < acc.1.2 ∨ acc.1.2 = -1)%Z
         then (tip_hash t, tip_height t, Some (tip_wallet t)) else acc)
  end.
Definition lowestChainTip (zero : Hash) (l : list Tip) : Hash * Z * option Z :=
  lowest_loop l (zero, (-1)%Z, None).

Fixpoint highest_loop (l : list Tip) (acc : Hash * Z * option Z) : Hash * Z * option Z :=
  match l with
  | [] => acc
  | t :: l' =>
      highest_loop l'
        (if decide (tip_height t > acc.1.2 ∨ acc.1.2 = -1)%Z
         then (tip_hash t, tip_height t, Some (tip_wallet t)) else acc)
  end.
Definition highestChainTip (zero : Hash) (l : list Tip) : Hash * Z * option Z :=
  highest_loop l (zero, (-1)%Z, None).

Definition tip_of (acc : Hash * Z * option Z) (t : Tip) : Prop :=
  acc = (tip_hash t, tip_height t, Some (tip_wallet t)).

Lemma lowest_loop_spec l t0 :
  Forall (λ t, 0 ≤ tip_height t)%Z (t0 :: l) →
  ∃ t, t ∈ t0 :: l ∧
    tip_of (lowest_loop l (tip_hash t0, tip_height t0, Some (tip_wallet t0))) t ∧
    Forall (λ t', tip_height t ≤ tip_height t')%Z (t0 :: l).
Proof.
  revert t0. induction l as [|t1 l IH]; intros t0 Hpos.
  { exists t0. split_and!; [set_solver|done|]. by apply Forall_singleton. }
  apply Forall_cons in Hpos as [H0 Hpos]. pose proof Hpos as Hpos'.
  apply Forall_cons in Hpos as [H1 Hpos]. simpl.
  case_decide as Hd.
  - destruct (IH t1 Hpos') as (t & Hin & Ht & Hmin). exists t. split_and!; [set_solver|done|].
    constructor; [|done]. apply Forall_cons in Hmin as [Hm _]. lia.
  - destruct (IH t0) as (t & Hin & Ht & Hmin); [by constructor|].
    exists t. split_and!; [set_solver|done|].
    apply Forall_cons in Hmin as [Hm Hmin]. constructor; [done|]. constructor; [lia|done].
Qed.

Lemma highest_loop_spec l t0 :
  Forall (λ t, 0 ≤ tip_height t)%Z (t0 :: l) →
  ∃ t, t ∈ t0 :: l ∧
    tip_of (highest_loop l (tip_hash t0, tip_height t0, Some (tip_wallet t0))) t ∧
    Forall (λ t', tip_height t' ≤ tip_height t)%Z (t0 :: l).
Proof.
  revert t0. induction l as [|t1 l IH]; intros t0 Hpos.
  { exists t0. split_and!; [set_solver|done|]. by apply Forall_singleton. }
  apply Forall_cons in Hpos as [H0 Hpos]. pose proof Hpos as Hpos'.
  apply Forall_cons in Hpos as [H1 Hpos]. simpl.
  case_decide as Hd.
  - destruct (IH t1 Hpos') as (t & Hin & Ht & Hmin). exists t. split_and!; [set_solver|done|].
    constructor; [|done]. apply Forall_cons in Hmin as [Hm _]. lia.
  - destruct (IH t0) as (t & Hin & Ht & Hmin); [by constructor|].
    exists t. split_and!; [set_solver|done|].
    apply Forall_cons in Hmin as [Hm Hmin]. constructor; [done|]. constructor; [lia|done].
Qed.

(** [lowestChainTip] and [highestChainTip] return a wallet with the lowest
    and the highest main chain of all wallets, with its tip, whatever the order
    the map of wallets is ranged over. *)
Theorem chain_tips_extremal (zero : Hash) (l : list Tip) :
  l ≠ [] → Forall (λ t, 0 ≤ tip_height t)%Z l →
  (∃ t, t ∈ l ∧ tip_of (lowestChainTip zero l) t ∧
        Forall (λ t', tip_height t ≤ tip_height t')%Z l) ∧
  (∃ t, t ∈ l ∧ tip_of (highestChainTip zero l) t ∧
        Forall (λ t', tip_height t' ≤ tip_height t)%Z l).
Proof.
  intros Hne Hpos. destruct l as [|t0 l]; [done|].
  unfold lowestChainTip, highestChainTip. simpl. rewrite !decide_True by auto.
  split; [by apply lowest_loop_spec|by apply highest_loop_spec].
Qed.

(** ** Peers *)

Definition NoPeersErr : goerr := EKind KNoPeers "".

(** [forRemotes], over the peers in the order of the map. *)
Section remotes.
Context {P S : Type}.

Fixpoint for_loop (f : P → GM S unit) (remotes : list P) : GM S unit :=
  match remotes with
  | [] => ret tt
  | rp :: remotes' => f rp ;; for_loop f remotes'
  end.

Definition forRemotes (f : P → GM S unit) (remotes : list P) : GM S unit :=
  if decide (length remotes = 0) then fail NoPeersErr else for_loop f remotes.

Fixpoint pickRemote (pick : P → bool) (remotes : list P) : goerr + P :=
  match remotes with
  | [] => inl NoPeersErr
  | rp :: remotes' => if pick rp then inr rp else pickRemote pick remotes'
  end.
End remotes.

(** ** [peerCandidate] *)

Record KnownAddress := mkKA {
  ka_key : string;             (* addrmgr.NetAddressKey(na) *)
  ka_services : Z;             (* Services, a bit set *)
  ka_since : Z                 (* time.Since(LastAttempt()), in nanoseconds *)
}.

Definition tenMinutes : Z := 10 * 60 * 1000000000.

Section candidate.
(** What the address manager returns at each try, and whether the peer is
    connected or connecting at that time. *)
Context (GetAddress : nat → option KnownAddress) (busy : nat → string → bool).

(** The peer is skipped at this try. *)
Definition skipped (svcs : Z) (tries : nat) (ka : KnownAddress) : bool :=
  busy tries (ka_key ka)
  || (bool_decide (tries < 30) && bool_decide (ka_since ka < tenMinutes)%Z)
  || (bool_decide (tries < 50) && bool_decide (Z.land (ka_services ka) svcs ≠ svcs)).

Fixpoint candidate_loop (n tries : nat) (svcs : Z) : goerr + KnownAddress :=
  match n with
  | O => inl (ENew "no addresses")
  | S n' =>
      match GetAddress tries with
      | None => inl (ENew "no addresses")
      | Some kaddr =>
          if skipped svcs tries kaddr then candidate_loop n' (S tries) svcs else inr kaddr
      end
  end.

Definition peerCandidate (svcs : Z) : goerr + KnownAddress := candidate_loop 100 0 svcs.

Lemma candidate_loop_spec n tries svcs :
  match candidate_loop n tries svcs with
  | inr ka => ∃ t, tries ≤ t < tries + n ∧ GetAddress t = Some ka ∧ skipped svcs t ka = false ∧
      ∀ t', tries ≤ t' < t → ∃ ka', GetAddress t' = Some ka' ∧ skipped svcs t' ka' = true
  | inl e => e = ENew "no addresses" ∧
      ((∃ t, tries ≤ t < tries + n ∧ GetAddress t = None ∧
        ∀ t', tries ≤ t' < t → ∃ ka', GetAddress t' = Some ka' ∧ skipped svcs t' ka' = true) ∨
       ∀ t, tries ≤ t < tries + n → ∃ ka, GetAddress t = Some ka ∧ skipped svcs t ka = true)
  end.
Proof.
  revert tries. induction n as [|n IH]; intros tries; simpl.
  { split; [done|]. right. intros t ?. lia. }
  destruct (GetAddress tries) as [ka|] eqn:Hg.
  2:{ split; [done|]. left. exists tries. split_and!; [lia..|done|]. intros t' ?. lia. }
  destruct (skipped svcs tries ka) eqn:Hs.
  2:{ exists tries. split_and!; [lia..|done|done|]. intros t' ?. lia. }
  assert (Hstep : ∀ t', tries ≤ t' → (S tries ≤ t' → ∃ ka', GetAddress t' = Some ka' ∧
            skipped svcs t' ka' = true) → ∃ ka', GetAddress t' = Some ka' ∧ skipped svcs t' ka' = true).
  { intros t' Ht H. destruct (decide (t' = tries)) as [->|]; [eauto|]. apply H. lia. }
  specialize (IH (S tries)). destruct (candidate_loop n (S tries) svcs) as [e|ka'].
  - destruct IH as [-> [(t & Ht & Hn & Hb)|Hall]]; (split; [done|]).
    + left. exists t. split_and!; [lia..|done|]. intros t' ?. apply Hstep; [lia|].
      intros. apply Hb. lia.
    + right. intros t ?. apply Hstep; [lia|]. intros. apply Hall. lia.
  - destruct IH as (t & Ht & Hn & Hk & Hb). exists t. split_and!; [lia..|done|done|].
    intros t' ?. apply Hstep; [lia|]. intros. apply Hb. lia.
Qed.

(** [peerCandidate] looks at no more than 100 addresses.  It returns the
    first acceptable one: not connected or connecting at that try, in the first
    30 tries not attempted in the last ten minutes, in the first 50 tries with
    all required services; it fails only if the address manager runs out or all
    100 are skipped. *)
Theorem peerCandidate_spec (svcs : Z) :
  match peerCandidate svcs with
  | inr ka => ∃ t, t < 100 ∧ GetAddress t = Some ka ∧ busy t (ka_key ka) = false ∧
      (t < 30 → (tenMinutes ≤ ka_since ka)%Z) ∧
      (t < 50 → Z.land (ka_services ka) svcs = svcs) ∧
      ∀ t', t' < t → ∃ ka', GetAddress t' = Some ka' ∧ skipped svcs t' ka' = true
  | inl e => e = ENew "no addresses" ∧
      ((∃ t, t < 100 ∧ GetAddress t = None) ∨
       ∀ t, t < 100 → ∃ ka, GetAddress t = Some ka ∧ skipped svcs t ka = true)
  end.
Proof.
  pose proof (candidate_loop_spec 100 0 svcs) as H. unfold peerCandidate.
  destruct (candidate_loop 100 0 svcs) as [e|ka].
  - destruct H as [-> [(t & Ht & Hn & _)|Hall]]; (split; [done|]); [left|right].
    + exists t. split; [lia|done].
    + intros t ?. apply Hall. lia.
  - destruct H as (t & Ht & Hg & Hs & Hb). exists t. unfold skipped in Hs.
    apply orb_false_iff in Hs as [[Hbusy H1]%orb_false_iff H2].
    apply andb_false_iff in H1, H2. rewrite !bool_decide_eq_false in H1, H2.
    split_and!; try done; [lia| | |].
    + intros ?. lia.
    + intros ?. destruct H2 as [H2|H2]; [lia|].
      destruct (decide (Z.land (ka_services ka) svcs = svcs)); [done|by destruct H2].
    + intros t' ?. apply Hb. lia.
Qed.
End candidate.

(** ** Connections

    The loop of [connectToCandidates] and the goroutines it starts.  A
    goroutine is known by the address it handles and how far it is. *)
Inductive Phase :=
| Spawned        (* started, before it enters connectingRemotes *)
| Dialing        (* in connectingRemotes, ConnectOutbound running *)
| Up             (* in remotes, startupSync running or done *)
| Closing.       (* no peer any more, before it gives its token back *)

Record Conns := mkConns {
  cn_sem : nat;                       (* tokens taken from sem *)
  cn_picking : bool;                  (* the loop holds a token and picks a peer *)
  cn_gos : list (string * Phase);     (* the goroutines *)
  cn_connecting : gset string;        (* connectingRemotes *)
  cn_remotes : gset string;           (* the keys of remotes *)
  cn_counts : list Z                  (* the counts passed to the notifications *)
}.

Definition maxPeers : nat := 8.

(** The numbers of the steps of a goroutine are in program order; goroutines
    interleave freely. *)
Inductive conn_step : Conns → Conns → Prop :=
| step_acquire n gs c r l :                           (* case sem <- struct{}{} *)
    n < maxPeers →
    conn_step (mkConns n false gs c r l) (mkConns (S n) true gs c r l)
| step_no_candidate n gs c r l :                      (* peerCandidate fails: <-sem *)
    conn_step (mkConns (S n) true gs c r l) (mkConns n false gs c r l)
| step_spawn n gs c r l k :                           (* go func() {...} *)
    k ∉ c → k ∉ r →
    conn_step (mkConns n true gs c r l) (mkConns n false (gs ++ [(k, Spawned)]) c r l)
| step_dial n p gs1 gs2 c r l k :                     (* s.connectingRemotes[k] = struct{}{} *)
    conn_step (mkConns n p (gs1 ++ (k, Spawned) :: gs2) c r l)
              (mkConns n p (gs1 ++ (k, Dialing) :: gs2) ({[k]} ∪ c) r l)
| step_dial_failed n p gs1 gs2 c r l k :              (* ConnectOutbound fails *)
    conn_step (mkConns n p (gs1 ++ (k, Dialing) :: gs2) c r l)
              (mkConns n p (gs1 ++ (k, Closing) :: gs2) (c ∖ {[k]}) r l)
| step_connected n p gs1 gs2 c r l k :                (* s.remotes[k] = rp; peerConnected *)
    conn_step (mkConns n p (gs1 ++ (k, Dialing) :: gs2) c r l)
              (mkConns n p (gs1 ++ (k, Up) :: gs2) (c ∖ {[k]}) ({[k]} ∪ r)
                       (l ++ [Z.of_nat (size ({[k]} ∪ r))]))
| step_lost n p gs1 gs2 c r l k :                     (* delete(s.remotes, k); peerDisconnected *)
    conn_step (mkConns n p (gs1 ++ (k, Up) :: gs2) c r l)
              (mkConns n p (gs1 ++ (k, Closing) :: gs2) c (r ∖ {[k]})
                       (l ++ [Z.of_nat (size (r ∖ {[k]}))]))
| step_exit n p gs1 gs2 c r l k :                     (* the deferred <-sem *)
    conn_step (mkConns (S n) p (gs1 ++ (k, Closing) :: gs2) c r l)
              (mkConns n p (gs1 ++ gs2) c r l).

Definition conns0 : Conns := mkConns 0 false [] ∅ ∅ [].

Inductive conn_reach : Conns → Prop :=
| reach_init : conn_reach conns0
| reach_step s s' : conn_reach s → conn_step s s' → conn_reach s'.

Definition keys_in (ph : Phase) (gs : list (string * Phase)) (X : gset string) : Prop :=
  ∀ k, k ∈ X → (k, ph) ∈ gs.

(** Tokens are held by the loop and the goroutines, and the two maps list
    addresses of goroutines in the phase. *)
Definition conns_ok (s : Conns) : Prop :=
  cn_sem s = length (cn_gos s) + (if cn_picking s then 1 else 0) ∧
  cn_sem s ≤ maxPeers ∧
  keys_in Dialing (cn_gos s) (cn_connecting s) ∧ keys_in Up (cn_gos s) (cn_remotes s) ∧
  Forall (λ n, 0 ≤ n ≤ Z.of_nat maxPeers)%Z (cn_counts s).

#[export] Instance Phase_eq_dec : EqDecision Phase.
Proof. solve_decision. Defined.

(** Distinct addresses of the two maps are handled by distinct goroutines. *)
Lemma keys_size gs (c r : gset string) :
  keys_in Dialing gs c → keys_in Up gs r → size c + size r ≤ length gs.
Proof.
  intros Hc Hr.
  assert (Hsub : ((λ k, (k, Dialing)) <$> elements c) ++ ((λ k, (k, Up)) <$> elements r) ⊆+ gs).
  { apply NoDup_submseteq.
    - apply NoDup_app. split_and!.
      + apply (NoDup_fmap_2 _), NoDup_elements.
      + intros x (k & -> & _)%list_elem_of_fmap (k' & Heq & _)%list_elem_of_fmap. done.
      + apply (NoDup_fmap_2 _), NoDup_elements.
    - intros x [(k & -> & Hk)%list_elem_of_fmap|(k & -> & Hk)%list_elem_of_fmap]%elem_of_app.
      + by apply Hc, elem_of_elements.
      + by apply Hr, elem_of_elements. }
  apply submseteq_length in Hsub. rewrite length_app, !length_fmap in Hsub.
  exact Hsub.
Qed.

Lemma keys_in_mid ph ph1 ph2 gs1 gs2 k (X : gset string) :
  keys_in ph (gs1 ++ (k, ph1) :: gs2) X → (ph = ph1 → k ∉ X ∨ ph2 = ph1) →
  keys_in ph (gs1 ++ (k, ph2) :: gs2) X.
Proof.
  intros H Hp k' Hk'. specialize (H k' Hk').
  apply elem_of_app in H as [H|[H|H]%elem_of_cons]; [set_solver| |set_solver].
  injection H as -> ->. destruct (Hp eq_refl) as [Hn | ->]; [done|]. set_solver.
Qed.

Lemma keys_in_remove ph ph1 gs1 gs2 k (X : gset string) :
  keys_in ph (gs1 ++ (k, ph1) :: gs2) X → (ph = ph1 → k ∉ X) →
  keys_in ph (gs1 ++ gs2) X.
Proof.
  intros H Hp k' Hk'. specialize (H k' Hk').
  apply elem_of_app in H as [H|[H|H]%elem_of_cons]; [set_solver| |set_solver].
  injection H as -> ->. by destruct Hp.
Qed.

Lemma keys_in_subset ph gs (X Y : gset string) : keys_in ph gs X → Y ⊆ X → keys_in ph gs Y.
Proof. intros H Hs k Hk. apply H. set_solver. Qed.

Lemma keys_in_add ph gs k (X : gset string) :
  keys_in ph gs X → (k, ph) ∈ gs → keys_in ph gs ({[k]} ∪ X).
Proof. intros H Hk k' [->%elem_of_singleton|]%elem_of_union; [done|by apply H]. Qed.

Lemma count_ok gs c r l :
  keys_in Dialing gs c → keys_in Up gs r → length gs ≤ maxPeers →
  Forall (λ n, 0 ≤ n ≤ Z.of_nat maxPeers)%Z l →
  Forall (λ n, 0 ≤ n ≤ Z.of_nat maxPeers)%Z (l ++ [Z.of_nat (size r)]).
Proof.
  intros Hc Hr Hl Hf. apply Forall_app. split; [done|]. apply Forall_singleton.
  pose proof (keys_size gs c r Hc Hr). lia.
Qed.

Lemma conn_step_ok s s' : conns_ok s → conn_step s s' → conns_ok s'.
Proof.
  unfold conns_ok. intros (Hn & Hm & Hc & Hr & Hl) Hstep. destruct Hstep; simpl in *;
    rewrite ?length_app in *; simpl in *.
  - split_and!; try done; lia.
  - split_and!; try done; lia.
  - split_and!; try done; [lia|..]; intros k' Hk'; apply elem_of_app; left; [by apply Hc|by apply Hr].
  - split_and!; try done.
    + apply keys_in_add; [|set_solver]. by apply (keys_in_mid _ Spawned).
    + by apply (keys_in_mid _ Spawned).
  - split_and!; try done.
    + apply (keys_in_mid _ Dialing); [|set_solver]. eapply keys_in_subset; [done|set_solver].
    + by apply (keys_in_mid _ Dialing).
  - assert (Hc' : keys_in Dialing (gs1 ++ (k, Up) :: gs2) (c ∖ {[k]})).
    { apply (keys_in_mid _ Dialing); [|set_solver]. eapply keys_in_subset; [done|set_solver]. }
    assert (Hr' : keys_in Up (gs1 ++ (k, Up) :: gs2) ({[k]} ∪ r)).
    { apply keys_in_add; [|set_solver]. by apply (keys_in_mid _ Dialing). }
    split_and!; try done. eapply count_ok; [exact Hc'|exact Hr'| |done].
    rewrite length_app. simpl. lia.
  - assert (Hc' : keys_in Dialing (gs1 ++ (k, Closing) :: gs2) c) by (by apply (keys_in_mid _ Up)).
    assert (Hr' : keys_in Up (gs1 ++ (k, Closing) :: gs2) (r ∖ {[k]})).
    { apply (keys_in_mid _ Up); [|set_solver]. eapply keys_in_subset; [done|set_solver]. }
    split_and!; try done. eapply count_ok; [exact Hc'|exact Hr'| |done].
    rewrite length_app. simpl. lia.
  - split_and!; try done; [lia|lia|..]; by apply (keys_in_remove _ Closing _ _ k).
Qed.

Lemma conn_reach_ok (s : Conns) : conn_reach s → conns_ok s.
Proof.
  induction 1 as [|s s' Hr IH Hst]; [|by eapply conn_step_ok].
  unfold conns_ok. simpl. split_and!; try done; [unfold maxPeers; lia|..]; intros k Hk; set_solver.
Qed.

(** The goroutines that have a peer: [ConnectOutbound] has returned it, and the
    connection was not found lost yet. *)
Definition live (s : Conns) : list string :=
  omap (λ '(k, ph), if decide (ph = Up) then Some k else None) (cn_gos s).
Definition dialing (s : Conns) : list string :=
  omap (λ '(k, ph), if decide (ph = Dialing) then Some k else None) (cn_gos s).

Lemma live_dialing (s : Conns) : length (live s) + length (dialing s) ≤ length (cn_gos s).
Proof.
  unfold live, dialing. induction (cn_gos s) as [|[k ph] gs IH]; csimpl; [done|].
  destruct ph; repeat case_decide; csimpl; try done; lia.
Qed.

Lemma keys_in_live (s : Conns) :
  conns_ok s → (∀ k, k ∈ cn_connecting s → k ∈ dialing s) ∧ (∀ k, k ∈ cn_remotes s → k ∈ live s).
Proof.
  intros (_ & _ & Hc & Hr & _). unfold live, dialing.
  split; intros k Hk; apply list_elem_of_omap; [exists (k, Dialing)|exists (k, Up)]; auto.
Qed.

(** C11. The syncer never has more than eight outbound peers: in every reachable
    state of the connection loop and its goroutines, however they interleave,
    at most eight goroutines run, each with a token of the semaphore and at
    most one peer; so the peers that are live, also those that are missing from
    [remotes], and those that are being dialed, are together at most eight.  The
    addresses in the two maps are addresses that are dialed, and of live peers;
    they are at most eight together, and every count given to a peer
    notification is between 0 and 8. *)
Theorem peers_bounded (s : Conns) :
  conn_reach s →
  cn_sem s = length (cn_gos s) + (if cn_picking s then 1 else 0) ∧ cn_sem s ≤ 8 ∧
  length (live s) + length (dialing s) ≤ 8 ∧
  size (cn_connecting s) + size (cn_remotes s) ≤ 8 ∧
  (∀ k, k ∈ cn_connecting s → k ∈ dialing s) ∧ (∀ k, k ∈ cn_remotes s → k ∈ live s) ∧
  Forall (λ n, 0 ≤ n ≤ 8)%Z (cn_counts s).
Proof.
  intros Hr%conn_reach_ok. pose proof (keys_in_live s Hr) as [Hk1 Hk2].
  destruct Hr as (Hn & Hm & Hc & Hrm & Hl). unfold maxPeers in *.
  pose proof (keys_size _ _ _ Hc Hrm). pose proof (live_dialing s).
  split_and!; try done; lia.
Qed.

(** A goroutine marks its address as connecting only once it runs.  Two can be
    started for one address, and when the first loses its peer it deletes the
    entry of the second, whose peer is then missing from [remotes]. *)
Definition unlisted (k : string) : Conns :=
  mkConns 1 false [(k, Up)] (({[k]} ∪ ({[k]} ∪ ∅)) ∖ {[k]} ∖ {[k]}) (({[k]} ∪ ({[k]} ∪ ∅)) ∖ {[k]})
    [Z.of_nat (size ({[k]} ∪ (∅ : gset string)));
     Z.of_nat (size ({[k]} ∪ ({[k]} ∪ (∅ : gset string))));
     Z.of_nat (size (({[k]} ∪ ({[k]} ∪ ∅)) ∖ {[k]} : gset string))].

Lemma unlisted_reach (k : string) : conn_reach (unlisted k).
Proof.
  assert (H1 : conn_reach (mkConns 2 false [(k, Spawned); (k, Spawned)] ∅ ∅ [])).
  { apply (reach_step (mkConns 2 true [(k, Spawned)] ∅ ∅ [])).
    2: by apply (step_spawn 2 [(k, Spawned)]).
    apply (reach_step (mkConns 1 false [(k, Spawned)] ∅ ∅ [])).
    2: apply step_acquire; unfold maxPeers; lia.
    apply (reach_step (mkConns 1 true [] ∅ ∅ [])).
    2: by apply (step_spawn 1 []).
    eapply reach_step; [apply reach_init|]. apply step_acquire. unfold maxPeers. lia. }
  pose proof (reach_step _ _ H1 (step_dial 2 false [] [(k, Spawned)] ∅ ∅ [] k)) as H2.
  pose proof (reach_step _ _ H2 (step_dial 2 false [(k, Dialing)] [] _ ∅ [] k)) as H3.
  pose proof (reach_step _ _ H3 (step_connected 2 false [] [(k, Dialing)] _ ∅ [] k)) as H4.
  pose proof (reach_step _ _ H4 (step_connected 2 false [(k, Up)] [] _ _ _ k)) as H5.
  pose proof (reach_step _ _ H5 (step_lost 2 false [] [(k, Up)] _ _ _ k)) as H6.
  exact (reach_step _ _ H6 (step_exit 1 false [] [(k, Up)] _ _ _ k)).
Qed.

Lemma live_peer_not_in_remotes (k : string) :
  ∃ s, conn_reach s ∧ k ∈ live s ∧ k ∉ cn_remotes s.
Proof. exists (unlisted k). split; [apply unlisted_reach|]. simpl. set_solver. Qed.

(** ** Witnesses *)

Lemma synced_notifications_alternate_witness :
  let s := foldl (flag_step (λ _, true)) (mkFlags {[1%Z := false]} [])
             [(1%Z, true); (1%Z, true); (1%Z, false)] in
  alternates true (synced_events 1 (fl_log s)) ∧ length (synced_events 1 (fl_log s)) = 2.
Proof.
  split; [|reflexivity].
  apply (synced_notifications_alternate (λ _, true) {[1%Z := false]}
           [(1%Z, true); (1%Z, true); (1%Z, false)] 1 false).
  - done.
  - by apply map_Forall_singleton.
  - reflexivity.
Defined.

Definition tip1 : Tip := mkTip (bs "a") 10 1.
Definition tip2 : Tip := mkTip (bs "b") 7 2.

Lemma chain_tips_extremal_witness :
  lowestChainTip [] [tip1; tip2] = (bs "b", 7%Z, Some 2%Z) ∧
  ∃ t, t ∈ [tip1; tip2] ∧ tip_of (highestChainTip [] [tip1; tip2]) t.
Proof.
  split; [reflexivity|].
  destruct (chain_tips_extremal [] [tip1; tip2]) as [_ (t & Hin & Ht & _)].
  - discriminate.
  - repeat constructor; simpl; lia.
  - by exists t.
Defined.

(** Two goroutines for one address; the peer of one of them is live, and not
    in [remotes]. *)
Lemma peers_bounded_witness :
  let s := unlisted "peer" in
  live s = ["peer"] ∧ cn_remotes s = ∅ ∧ length (live s) + length (dialing s) ≤ 8 ∧
  cn_sem s = length (cn_gos s).
Proof.
  intros s. destruct (peers_bounded s (unlisted_reach "peer")) as (Hn & _ & Hl & _).
  split; [reflexivity|]. split; [vm_compute; reflexivity|]. split; [exact Hl|].
  rewrite Hn. reflexivity.
Defined.
