(* ===== verification/Inventory.v ===== *)
(** * [spv/sync.go]: getdata and inv messages

    What the syncer answers to peers that ask for transactions, and what it
    does with the transactions peers announce.  Two functions here filter a
    slice in place; the arrays are explicit where another part of the code can
    see them. *)
From S2P Require Import Prelude Wire Rescan Syncer.

Inductive InvType := InvTypeTx | InvTypeBlock | InvTypeOther.
#[export] Instance InvType_eq_dec : EqDecision InvType.
Proof. solve_decision. Defined.

Record InvVect := mkInv { inv_Type : InvType; inv_Hash : Hash }.

(** ** [getTransactionsByHashes]

    [txHashes] is the first [len] elements of the array [arr]. *)

(** [append(txHashes[:idx], txHashes[idx+1:]...)]: the elements behind [idx]
    move down in the array, whose last one stays. *)
Definition remove_at (arr : list Hash) (idx len : nat) : list Hash :=
  take idx arr ++ take (len - S idx) (drop (S idx) arr) ++ drop (len - 1) arr.

(** [for index, hash := range txHashes]: the number of turns is the length at
    the start, the elements are read when their turn comes. *)
Fixpoint remove_loop (h : Hash) (n idx : nat) (arr : list Hash) (len : nat)
    : outcome (list Hash * nat) :=
  match n with
  | O => Ok (arr, len)
  | S n' =>
      match arr !! idx with
      | None => Panic
      | Some hash =>
          if decide (h = hash) then
            if decide (S idx ≤ len) then
              remove_loop h n' (S idx) (remove_at arr idx len) (len - 1)
            else Panic
          else remove_loop h n' (S idx) arr len
      end
  end.

Fixpoint remove_found (txs : list MsgTx) (arr : list Hash) (len : nat)
    : outcome (list Hash * nat) :=
  match txs with
  | [] => Ok (arr, len)
  | tx :: txs' =>
      match remove_loop (TxHash tx) len 0 arr len with
      | Ok (arr', len') => remove_found txs' arr' len'
      | Err e => Err e
      | Panic => Panic
      end
  end.

(** What a wallet returns for hashes: [Wallet.GetTransactionsByHashes]. *)
Definition WalletLookup : Type := list Hash → list MsgTx * option goerr.

(** [err != nil && !errors.Is(err, errors.NotExist)] is a failure. *)
Definition lookup_failed (err : option goerr) : bool :=
  match err with Some e => negb (is_kind KNotExist e) | None => false end.

Fixpoint lookup_wallets (wallets : list (Z * WalletLookup)) (found : list MsgTx)
    (arr : list Hash) (len : nat) : outcome (list MsgTx * list Hash) :=
  match wallets with
  | [] => Ok (found, take len arr)
  | (_, w) :: wallets' =>
      let '(walletFoundTxs, err) := w (take len arr) in
      if lookup_failed err then Err (ENew "Failed to look up transactions") else
      match remove_found walletFoundTxs arr len with
      | Ok (arr', len') =>
          if decide (len' = 0) then Ok (found ++ walletFoundTxs, [])
          else lookup_wallets wallets' (found ++ walletFoundTxs) arr' len'
      | Err e => Err e
      | Panic => Panic
      end
  end.

(** The transactions found, and [notFound]. *)
Definition getTransactionsByHashes (wallets : list (Z * WalletLookup)) (txHashes : list Hash)
    : outcome (list MsgTx * list InvVect) :=
  if decide (length txHashes = 0) then Ok ([], []) else
  match lookup_wallets wallets [] txHashes (length txHashes) with
  | Ok (foundTxs, rest) => Ok (foundTxs, mkInv InvTypeTx <$> rest)
  | Err e => Err e
  | Panic => Panic
  end.

(** ** [receiveGetData]: the goroutine of one message *)

Inductive Msg := SendTx (tx : MsgTx) | SendNotFound (invs : list InvVect).

(** The hashes to look up, and what is not announced or not a transaction. *)
Fixpoint split_request (announced : Hash → bool) (invs : list InvVect)
    : list Hash * list InvVect :=
  match invs with
  | [] => ([], [])
  | inv :: invs' =>
      let '(txHashes, notFound) := split_request announced invs' in
      if negb (announced (inv_Hash inv)) then (txHashes, inv :: notFound)
      else match inv_Type inv with
      | InvTypeTx => (inv_Hash inv :: txHashes, notFound)
      | _ => (txHashes, inv :: notFound)
      end
  end.

(** Messages are sent until the context is cancelled, which [cancelled n] says
    after the [n]th; send errors are only logged. *)
Fixpoint send_until (cancelled : nat → bool) (n : nat) (msgs : list Msg) : list Msg :=
  match msgs with
  | [] => []
  | m :: msgs' => m :: if cancelled n then [] else send_until cancelled (S n) msgs'
  end.

(** The messages sent to the peer; [announced] is [rp.InvsSent().Contains]. *)
Definition handleGetData (wallets : list (Z * WalletLookup)) (announced : Hash → bool)
    (cancelled : nat → bool) (invs : list InvVect) : outcome (list Msg) :=
  let '(txHashes, notFound) := split_request announced invs in
  match (if decide (length txHashes = 0) then Ok ([], [])
         else getTransactionsByHashes wallets txHashes) with
  | Err e =>
      if negb (is_kind KNotExist e) then Ok []
      else Ok (send_until cancelled 0
                 match notFound with [] => [] | _ => [SendNotFound notFound] end)
  | Panic => Panic
  | Ok (foundTxs, missing) =>
      let notFound := notFound ++ missing in
      Ok (send_until cancelled 0
            ((SendTx <$> foundTxs)
             ++ match notFound with [] => [] | _ => [SendNotFound notFound] end))
  end.

(** ** Lemmas *)

Lemma remove_loop_skip h n1 n2 idx arr len :
  (∀ i, idx ≤ i < idx + n1 → ∃ x, arr !! i = Some x ∧ x ≠ h) →
  remove_loop h (n1 + n2) idx arr len = remove_loop h n2 (idx + n1) arr len.
Proof.
  revert idx. induction n1 as [|n1 IH]; intros idx H.
  { by rewrite Nat.add_0_r. }
  simpl. destruct (H idx) as (x & -> & Hx); [lia|].
  rewrite decide_False by done. rewrite IH; [f_equal; lia|]. intros i Hi. apply H. lia.
Qed.

Lemma remove_loop_none h l tail :
  h ∉ l → remove_loop h (length l) 0 (l ++ tail) (length l) = Ok (l ++ tail, length l).
Proof.
  intros Hh. rewrite <- (Nat.add_0_r (length l)) at 1. rewrite remove_loop_skip; [done|].
  intros i Hi. destruct (lookup_lt_is_Some_2 l i) as [x Hx]; [lia|].
  exists x. rewrite lookup_app_l by lia. split; [done|]. intros ->.
  by apply Hh, (list_elem_of_lookup_2 _ _ _ Hx).
Qed.

Lemma remove_at_mid (l1 l2 tail : list Hash) h :
  ∃ x, remove_at (l1 ++ h :: l2 ++ tail) (length l1) (length l1 + S (length l2))
       = (l1 ++ l2) ++ x :: tail ∧ last (h :: l2) = Some x.
Proof.
  unfold remove_at. rewrite take_app_length.
  rewrite (drop_app_ge _ _ (S (length l1))) by lia.
  rewrite Nat.sub_succ_l, Nat.sub_diag by lia. simpl.
  replace (length l1 + S (length l2) - S (length l1)) with (length l2) by lia.
  rewrite drop_0, take_app_length.
  replace (length l1 + S (length l2) - 1) with (length l1 + length l2) by lia.
  rewrite (drop_app_ge _ _ (length l1 + length l2)) by lia.
  replace (length l1 + length l2 - length l1) with (length l2) by lia.
  destruct (@exists_last _ (h :: l2)) as (l' & x & Hl); [done|].
  exists x. rewrite Hl, last_snoc. split; [|done].
  change (h :: l2 ++ tail) with ((h :: l2) ++ tail). rewrite Hl, <- !app_assoc. simpl.
  assert (length l2 = length l') as ->.
  { apply (f_equal length) in Hl. rewrite length_app in Hl. simpl in Hl. lia. }
  by rewrite drop_app_length.
Qed.

Lemma remove_loop_one h l1 l2 tail :
  h ∉ l1 → h ∉ l2 →
  ∃ x, remove_loop h (length (l1 ++ h :: l2)) 0 ((l1 ++ h :: l2) ++ tail) (length (l1 ++ h :: l2))
       = Ok ((l1 ++ l2) ++ x :: tail, length (l1 ++ l2)).
Proof.
  intros H1 H2. rewrite length_app. simpl length.
  rewrite remove_loop_skip.
  2:{ intros i Hi. destruct (lookup_lt_is_Some_2 l1 i) as [x Hx]; [lia|].
      exists x. rewrite <- app_assoc, lookup_app_l by lia. split; [done|]. intros ->.
      by apply H1, (list_elem_of_lookup_2 _ _ _ Hx). }
  simpl. rewrite <- app_assoc. simpl. rewrite (list_lookup_middle l1 _ h) by done.
  rewrite decide_True by done. rewrite decide_True by lia.
  destruct (remove_at_mid l1 l2 tail h) as (x & -> & Hlast). exists x.
  rewrite <- (Nat.add_0_r (length l2)) at 1. rewrite remove_loop_skip.
  - simpl. rewrite length_app. do 2 f_equal. lia.
  - intros i Hi.
    assert (Hx : x ∈ l2).
    { destruct l2 as [|y l2]; [simpl in Hi; lia|].
      change (last (y :: l2) = Some x) in Hlast. by apply last_Some_elem_of. }
    destruct (decide (i < length (l1 ++ l2))) as [Hlt|Hge].
    + rewrite lookup_app_l by done. rewrite lookup_app_r by lia.
      destruct (lookup_lt_is_Some_2 l2 (i - length l1)) as [y Hy]; [rewrite length_app in Hlt; lia|].
      exists y. split; [done|]. intros ->. by apply H2, (list_elem_of_lookup_2 _ _ _ Hy).
    + rewrite length_app in Hge. exists x. rewrite list_lookup_middle by (rewrite length_app; lia).
      split; [done|]. by intros ->.
Qed.

(** A wallet looks the hashes up one after the other, and returns at most one
    transaction for each, with this hash. *)
Definition lookup_honest (w : WalletLookup) : Prop :=
  ∀ hs, TxHash <$> (w hs).1 ⊆+ hs.

Lemma remove_found_spec txs l tail :
  NoDup l → NoDup (TxHash <$> txs) → (∀ tx, tx ∈ txs → TxHash tx ∈ l) →
  ∃ l' tail', remove_found txs (l ++ tail) (length l) = Ok (l' ++ tail', length l') ∧
    l ≡ₚ (TxHash <$> txs) ++ l'.
Proof.
  revert l tail. induction txs as [|tx txs IH]; intros l tail Hl Ht Hin.
  { by exists l, tail. }
  apply NoDup_cons in Ht as [Hnt Ht]. cbn [remove_found].
  destruct (list_elem_of_split l (TxHash tx)) as (l1 & l2 & ->); [apply Hin; set_solver|].
  assert (Hperm : l1 ++ TxHash tx :: l2 ≡ₚ TxHash tx :: l1 ++ l2).
  { by rewrite Permutation_middle. }
  pose proof Hl as Hl'. rewrite Hperm in Hl'. apply NoDup_cons in Hl' as [Hn Hl'].
  destruct (remove_loop_one (TxHash tx) l1 l2 tail) as (x & ->); [set_solver..|].
  destruct (IH (l1 ++ l2) (x :: tail) Hl' Ht) as (l' & tail' & -> & Hp).
  { intros tx' Htx'. assert (Hx : TxHash tx' ∈ l1 ++ TxHash tx :: l2) by (apply Hin; set_solver).
    rewrite Hperm in Hx. apply elem_of_cons in Hx as [Heq|]; [|done].
    destruct Hnt. rewrite <- Heq. by apply list_elem_of_fmap_2. }
  exists l', tail'. split; [done|]. rewrite Hperm. csimpl. by rewrite Hp.
Qed.

(** Some lookup of some wallet fails. *)
Definition some_lookup_fails (wallets : list (Z * WalletLookup)) : Prop :=
  Exists (λ w, ∃ hs, lookup_failed (w.2 hs).2 = true) wallets.

Lemma lookup_wallets_spec wallets found l tail :
  NoDup l → Forall (λ w, lookup_honest w.2) wallets →
  (some_lookup_fails wallets ∧
   lookup_wallets wallets found (l ++ tail) (length l) = Err (ENew "Failed to look up transactions")) ∨
  ∃ fs rest, lookup_wallets wallets found (l ++ tail) (length l) = Ok (found ++ fs, rest) ∧
    l ≡ₚ (TxHash <$> fs) ++ rest.
Proof.
  intros Hl Hw. revert found l tail Hl.
  induction Hw as [|[id w] wallets Hh Hw IH]; intros found l tail Hl; cbn [lookup_wallets].
  { right. exists [], l. by rewrite app_nil_r, take_app_length. }
  rewrite take_app_length. simpl in Hh. pose proof (Hh l) as Hsub.
  destruct (w l) as [txs err] eqn:Ew. simpl in Hsub.
  destruct (lookup_failed err) eqn:Hf.
  { left. split; [|done]. constructor. exists l. simpl. by rewrite Ew. }
  assert (Hnd : NoDup (TxHash <$> txs)) by (apply submseteq_Permutation in Hsub as [k Hk]; rewrite Hk in Hl; by apply NoDup_app in Hl as [? _]).
  assert (Hin : ∀ tx, tx ∈ txs → TxHash tx ∈ l).
  { intros tx Htx. eapply elem_of_submseteq; [by apply list_elem_of_fmap_2|done]. }
  destruct (remove_found_spec txs l tail Hl Hnd Hin) as (l' & tail' & -> & Hp).
  destruct (decide (length l' = 0)) as [Hz|Hz].
  - right. apply nil_length_inv in Hz as ->. exists txs, []. by rewrite app_nil_r in Hp |- *.
  - assert (Hl' : NoDup l') by (rewrite Hp in Hl; by apply NoDup_app in Hl as (_ & _ & ?)).
    destruct (IH (found ++ txs) l' tail' Hl') as [[Hf' ->]|(fs & rest & -> & Hp')].
    + left. split; [|done]. by apply Exists_cons_tl.
    + right. exists (txs ++ fs), rest. split; [by rewrite app_assoc|].
      by rewrite Hp, Hp', fmap_app, app_assoc.
Qed.

Lemma split_request_spec announced invs :
  let '(txHashes, notFound) := split_request announced invs in
  inv_Hash <$> invs ≡ₚ txHashes ++ (inv_Hash <$> notFound) ∧
  ∀ h, h ∈ txHashes → announced h = true ∧ mkInv InvTypeTx h ∈ invs.
Proof.
  induction invs as [|[ty h] invs IH]; simpl; [split; [done|set_solver]|].
  destruct (split_request announced invs) as [txHashes notFound].
  destruct IH as [Hp Hin].
  assert (Hskip : h :: (inv_Hash <$> invs) ≡ₚ txHashes ++ h :: (inv_Hash <$> notFound)).
  { by rewrite Hp, Permutation_middle. }
  destruct (announced h) eqn:Ha; simpl; [destruct ty; simpl|]; (split; [first [exact Hskip|by constructor]|]);
    intros h' Hh'; try (destruct (Hin h' Hh'); set_solver).
  apply elem_of_cons in Hh' as [->|Hh']; [set_solver|]. destruct (Hin h' Hh'). set_solver.
Qed.

Lemma send_until_prefix cancelled msgs n : send_until cancelled n msgs `prefix_of` msgs.
Proof.
  revert n. induction msgs as [|m msgs IH]; intros n; simpl; [done|].
  apply prefix_cons. destruct (cancelled n); [apply prefix_nil|apply IH].
Qed.

Lemma send_until_never cancelled msgs n :
  (∀ k, cancelled k = false) → send_until cancelled n msgs = msgs.
Proof. intros H. revert n. induction msgs as [|m msgs IH]; intros n; simpl; [done|]. by rewrite H, IH. Qed.

(** What a request is answered with in full. *)
Definition replies (found : list MsgTx) (notFound : list InvVect) : list Msg :=
  (SendTx <$> found) ++ match notFound with [] => [] | _ => [SendNotFound notFound] end.

(** C10. Answering a getdata message without repeated hashes, if the wallets return
    only transactions that they were asked for, each at most once.  Either a
    wallet fails to look hashes up (for another reason than that they do not
    exist) and nothing is sent, or every item of the message has exactly one
    answer, the transaction or a place in the notfound message, and all answers
    are sent, unless the context is cancelled between them, which cuts them
    short.  A transaction is sent only if it was announced to the peer and asked
    for as a transaction.  The slice that is filtered in place while it is ranged
    over does no harm for such a message: the call never panics. *)
Theorem handleGetData_answers (wallets : list (Z * WalletLookup)) (announced : Hash → bool)
    (cancelled : nat → bool) (invs : list InvVect) :
  NoDup (inv_Hash <$> invs) → Forall (λ w, lookup_honest w.2) wallets →
  (some_lookup_fails wallets ∧ handleGetData wallets announced cancelled invs = Ok []) ∨
  ∃ found notFound sent,
    handleGetData wallets announced cancelled invs = Ok sent ∧
    sent `prefix_of` replies found notFound ∧
    ((∀ n, cancelled n = false) → sent = replies found notFound) ∧
    inv_Hash <$> invs ≡ₚ (TxHash <$> found) ++ (inv_Hash <$> notFound) ∧
    ∀ tx, tx ∈ found → announced (TxHash tx) = true ∧ mkInv InvTypeTx (TxHash tx) ∈ invs.
Proof.
  intros Hnd Hw. unfold handleGetData.
  pose proof (split_request_spec announced invs) as Hs.
  destruct (split_request announced invs) as [txHashes notFound].
  destruct Hs as [Hp Hin]. rewrite Hp in Hnd. apply NoDup_app in Hnd as (Hnd & _ & _).
  assert (HG : (some_lookup_fails wallets ∧ length txHashes ≠ 0 ∧
      getTransactionsByHashes wallets txHashes = Err (ENew "Failed to look up transactions")) ∨
    ∃ fs rest, (if decide (length txHashes = 0) then Ok ([], [])
            else getTransactionsByHashes wallets txHashes) = Ok (fs, mkInv InvTypeTx <$> rest) ∧
          txHashes ≡ₚ (TxHash <$> fs) ++ rest).
  { unfold getTransactionsByHashes.
    destruct (decide (length txHashes = 0)) as [Hz|Hz].
    - right. apply nil_length_inv in Hz as ->. by exists [], [].
    - destruct (lookup_wallets_spec wallets [] txHashes [] Hnd Hw) as [[Hf Hr]|(fs & rest & Hr & Hp')];
        rewrite app_nil_r in Hr; rewrite Hr; [by left|right; by exists fs, rest]. }
  destruct HG as [(Hf & Hz & He)|(fs & rest & -> & Hp')].
  { left. split; [done|]. by rewrite decide_False, He by done. }
  right. exists fs, (notFound ++ (mkInv InvTypeTx <$> rest)). eexists. split_and!; [done|..].
  - apply send_until_prefix.
  - intros Hn. by rewrite send_until_never.
  - rewrite Hp, Hp', fmap_app, <- list_fmap_compose.
    rewrite (list_fmap_ext _ id rest) by done. rewrite list_fmap_id.
    rewrite <- !app_assoc. f_equiv. apply Permutation_app_comm.
  - intros tx Htx. apply Hin. rewrite Hp'. apply elem_of_app. left.
    by apply list_elem_of_fmap_2.
Qed.

(** A getdata message that names an announced transaction of a wallet twice
    crashes the goroutine, and with it the process: removing the first
    occurrence moves the second under the index that is visited next, out of
    bounds of the shortened slice. *)
Theorem handleGetData_duplicate_panics (h : Hash) (tx : MsgTx) (txs : list MsgTx) (err : option goerr)
    (id : Z) (w : WalletLookup) (wallets : list (Z * WalletLookup)) (announced : Hash → bool)
    (cancelled : nat → bool) :
  announced h = true → TxHash tx = h → w [h; h] = (tx :: txs, err) → lookup_failed err = false →
  handleGetData ((id, w) :: wallets) announced cancelled
    [mkInv InvTypeTx h; mkInv InvTypeTx h] = Panic.
Proof.
  intros Ha Ht Hw Hf. unfold handleGetData. simpl. rewrite Ha. simpl.
  unfold getTransactionsByHashes. simpl. rewrite Hw, Hf. simpl.
  by rewrite Ht, !decide_True.
Qed.

(** ** [receiveInv] and [handleBlockInvs] *)

(** The block hashes and the transaction hashes of an inv message. *)
Fixpoint split_inv (invs : list InvVect) : list Hash * list Hash :=
  match invs with
  | [] => ([], [])
  | inv :: invs' =>
      let '(blocks, txs) := split_inv invs' in
      match inv_Type inv with
      | InvTypeBlock => (inv_Hash inv :: blocks, txs)
      | InvTypeTx => (blocks, inv_Hash inv :: txs)
      | InvTypeOther => (blocks, txs)
      end
  end.

(** The goroutines started for a message. *)
Inductive Handler := HandleBlockInvs (hashes : list Hash) | HandleTxInvs (hashes : list Hash).

Definition receiveInv (invs : list InvVect) : list Handler :=
  let '(blocks, txs) := split_inv invs in
  (if decide (length blocks ≠ 0) then [HandleBlockInvs blocks] else [])
  ++ (if decide (length txs ≠ 0) then [HandleTxInvs txs] else []).

(** The peer is disconnected for these errors of a handler. *)
Definition disconnects (err : goerr) : bool := is_kind KProtocol err || is_kind KConsensus err.

(** The map of blocks by hash that is passed on; a later block wins. *)
Definition block_map (blocks : list MsgBlock) : gmap Hash MsgBlock :=
  foldl (λ m b, <[BlockHash b := b]> m) ∅ blocks.

Definition handleBlockInvs {R} (Blocks : list Hash → goerr + list MsgBlock)
    (announce : list Hash → gmap Hash MsgBlock → outcome R) (hashes : list Hash) : outcome R :=
  match Blocks hashes with
  | inl err => Err (EWrap KOther err)
  | inr blocks => announce (BlockHash <$> blocks) (block_map blocks)
  end.

Lemma block_map_spec blocks h b :
  NoDup (BlockHash <$> blocks) → block_map blocks !! h = Some b ↔ b ∈ blocks ∧ BlockHash b = h.
Proof.
  unfold block_map.
  assert (Hgen : ∀ m : gmap Hash MsgBlock, NoDup (BlockHash <$> blocks) →
    foldl (λ m b, <[BlockHash b := b]> m) m blocks !! h = Some b ↔
    (b ∈ blocks ∧ BlockHash b = h) ∨ (h ∉ BlockHash <$> blocks ∧ m !! h = Some b)).
  { induction blocks as [|b0 blocks IH]; intros m Hnd; simpl; [set_solver|].
    apply NoDup_cons in Hnd as [Hn Hnd]. rewrite IH by done. rewrite lookup_insert.
    case_decide as Hb.
    - subst h. split.
      + intros [[? ?]|[_ [= ->]]]; [left; set_solver|left; set_solver].
      + intros [[[->|Hin]%elem_of_cons Hh]|[? _]]; [right; done|left; done|set_solver].
    - set_solver. }
  intros Hnd. rewrite Hgen by done. rewrite lookup_empty. naive_solver.
Qed.

(** ** [handleTxInvs] *)
Section txinvs.
Context {Address Filter Entry F Seen : Type}.
Context `{!ChainLib Address Filter Entry} `{!RescanFilter Address F}.
(** The LRU cache [seenTxs]. *)
Context (Contains : Seen → Hash → bool) (Add : Seen → Hash → Seen).
Context (set : Event → bool).

(** [accepted] are the calls of [AcceptMempoolTx]; its error is logged. *)
Record TxState := mkTxState {
  ts_seen : Seen;
  ts_accepted : list (Z * MsgTx);
  ts_events : list Event
}.

(** The loop over the wallets: is one synced through its tip?  A failing
    [RescanPoint] ends the handler. *)
Fixpoint any_synced (points : list (goerr + option Hash)) : bool :=
  match points with
  | [] => false
  | inl _ :: _ => false
  | inr None :: _ => true
  | inr (Some _) :: points' => any_synced points'
  end.

(** The answer of [rp.Transactions] without its nil entries, and their hashes;
    [None] is an index out of range. *)
Fixpoint drop_missing (txs : list (option MsgTx)) (hashes : list Hash)
    : option (list MsgTx * list Hash) :=
  match txs with
  | [] => Some ([], [])
  | None :: txs' => drop_missing txs' (tl hashes)
  | Some tx :: txs' =>
      match hashes with
      | [] => None
      | h :: hashes' =>
          match drop_missing txs' hashes' with
          | Some (l, hs) => Some (tx :: l, h :: hs)
          | None => None
          end
      end
  end.

(** What is processed: [None] if the fetch failed. *)
Definition received (Transactions : list Hash → list (option MsgTx) * option goerr)
    (unseen : list Hash) : outcome (option (list MsgTx * list Hash)) :=
  let '(txs, err) := Transactions unseen in
  match err with
  | Some e =>
      if is_kind KNotExist e then
        match drop_missing txs unseen with Some r => Ok (Some r) | None => Panic end
      else Ok None
  | None => match mapM id txs with Some txs => Ok (Some (txs, unseen)) | None => Panic end
  end.

(** The wallets in the order of the map, with their filters.  [filterRelevant]
    overwrites the slice [txs], which the next wallet gets. *)
Fixpoint save_relevant (wallets : list (Z * F)) (txs : list MsgTx) (s : TxState) : TxState :=
  match wallets with
  | [] => s
  | (walletID, f) :: wallets' =>
      let '(relevant, txs') := filterRelevant f txs in
      save_relevant wallets' txs'
        (mkTxState (ts_seen s) (ts_accepted s ++ ((λ tx, (walletID, tx)) <$> relevant))
                   (mempoolTxs set walletID relevant (ts_events s)))
  end.

Definition handleTxInvs (points : list (goerr + option Hash)) (wallets : list (Z * F))
    (Transactions : list Hash → list (option MsgTx) * option goerr) (hashes : list Hash)
    : GM TxState unit := λ s,
  if negb (any_synced points) then (Ok tt, s) else
  let unseen := filter (λ h, Contains (ts_seen s) h = false) hashes in
  if decide (length unseen = 0) then (Ok tt, s) else
  match received Transactions unseen with
  | Panic => (Panic, s)
  | Err e => (Err e, s)
  | Ok None => (Ok tt, s)
  | Ok (Some (txs, got)) =>
      let s := mkTxState (foldl Add (ts_seen s) got) (ts_accepted s) (ts_events s) in
      (Ok tt, save_relevant wallets txs s)
  end.

(** The transactions saved for a wallet. *)
Definition accepted_by (id : Z) (s : TxState) : list MsgTx :=
  snd <$> filter (λ p : Z * MsgTx, p.1 = id) (ts_accepted s).

Lemma accepted_other id id' (ms : list MsgTx) :
  filter (λ p : Z * MsgTx, p.1 = id) ((λ tx, (id', tx)) <$> ms)
  = if decide (id' = id) then (λ tx, (id', tx)) <$> ms else [].
Proof.
  case_decide; [apply filter_all|apply filter_none]; by intros x (tx & -> & _)%list_elem_of_fmap.
Qed.

Lemma save_relevant_other wallets txs s id :
  id ∉ wallets.*1 → accepted_by id (save_relevant wallets txs s) = accepted_by id s.
Proof.
  revert txs s. induction wallets as [|[id' f] wallets IH]; intros txs s Hid; [done|].
  cbn [save_relevant]. destruct (filterRelevant f txs) as [ms txs']. rewrite IH by set_solver.
  unfold accepted_by. simpl. rewrite filter_app, accepted_other, decide_False by set_solver.
  by rewrite app_nil_r.
Qed.

Lemma save_relevant_sub wallets txs s id tx :
  tx ∈ accepted_by id (save_relevant wallets txs s) →
  tx ∈ accepted_by id s ∨
  (tx ∈ txs ∧ ∃ f, (id, f) ∈ wallets ∧ relevant f tx = true).
Proof.
  revert txs s. induction wallets as [|[id' f] wallets IH]; intros txs s; [by left|].
  cbn [save_relevant]. rewrite filterRelevant_eq. intros [H|(Hin & f' & Hf & Hr)]%IH.
  - unfold accepted_by in H. simpl in H. rewrite filter_app, accepted_other, fmap_app in H.
    apply elem_of_app in H as [H|H]; [by left|right]. case_decide as Hid; [|by apply not_elem_of_nil in H].
    subst id'. apply list_elem_of_fmap in H as (p & -> & (tx' & -> & Htx)%list_elem_of_fmap).
    apply list_elem_of_filter in Htx as [Hr Htx]. simpl. split; [done|]. exists f. set_solver.
  - right. apply elem_of_app in Hin as [Hin|Hin].
    + apply list_elem_of_filter in Hin as [_ Hin]. split; [done|]. exists f'. set_solver.
    + split; [|exists f'; set_solver]. eapply subseteq_drop. exact Hin.
Qed.

(** [handleTxInvs] saves for a wallet only transactions that the peer sent
    and that are relevant to this wallet; for the wallet the map yields first it
    saves exactly the relevant ones, in order; what was received is marked as
    seen. *)
Theorem handleTxInvs_spec (points : list (goerr + option Hash)) (id : Z) (f : F)
    (wallets : list (Z * F)) (Transactions : list Hash → list (option MsgTx) * option goerr)
    (hashes unseen got : list Hash) (txs : list MsgTx) (seen : Seen) (events : list Event) :
  any_synced points = true →
  unseen = filter (λ h, Contains seen h = false) hashes → unseen ≠ [] →
  received Transactions unseen = Ok (Some (txs, got)) →
  NoDup ((id, f) :: wallets).*1 →
  ∃ s', handleTxInvs points ((id, f) :: wallets) Transactions hashes (mkTxState seen [] events)
        = (Ok tt, s') ∧
    accepted_by id s' = filter (λ tx, relevant f tx = true) txs ∧
    (∀ id' tx, tx ∈ accepted_by id' s' →
       tx ∈ txs ∧ ∃ f', (id', f') ∈ (id, f) :: wallets ∧ relevant f' tx = true) ∧
    ts_seen s' = foldl Add seen got.
Proof.
  intros Hs -> Hne Hr Hnd. unfold handleTxInvs. rewrite Hs. simpl.
  rewrite decide_False by (intros H; by apply nil_length_inv in H). rewrite Hr.
  eexists. split; [done|]. split_and!.
  - rewrite filterRelevant_eq. apply NoDup_cons in Hnd as [Hnd _].
    rewrite save_relevant_other by done. unfold accepted_by. simpl.
    rewrite accepted_other, decide_True by done. rewrite <- list_fmap_compose.
    rewrite (list_fmap_ext _ Datatypes.id) by done. apply list_fmap_id.
  - intros id' tx Htx.
    destruct (save_relevant_sub ((id, f) :: wallets) txs (mkTxState (foldl Add seen got) [] events)
      id' tx Htx) as [Hnil|]; [|done]. by apply not_elem_of_nil in Hnil.
  - change (ts_seen (save_relevant ((id, f) :: wallets) txs
              (mkTxState (foldl Add seen got) [] events)) = foldl Add seen got).
    generalize ((id, f) :: wallets). intros ws.
    assert (H : ∀ txs s, ts_seen (save_relevant ws txs s) = ts_seen s); [|by rewrite H].
    induction ws as [|[i g] ws IH]; intros txs' s; [done|]. cbn [save_relevant].
    destruct (filterRelevant g txs'). by rewrite IH.
Qed.

(** With two wallets a relevant transaction can be lost for good: when the
    first wallet wants only the second transaction of a batch, that transaction
    overwrites the first one in the shared slice, and the second wallet is never
    asked about it; yet both are marked as seen. *)
Theorem handleTxInvs_loses_tx (points : list (goerr + option Hash)) (id1 id2 : Z) (f1 f2 : F)
    (tx1 tx2 : MsgTx) (h1 h2 : Hash)
    (Transactions : list Hash → list (option MsgTx) * option goerr) (seen : Seen)
    (events : list Event) :
  any_synced points = true → Contains seen h1 = false → Contains seen h2 = false →
  Transactions [h1; h2] = ([Some tx1; Some tx2], None) → id1 ≠ id2 →
  relevant f1 tx1 = false → relevant f1 tx2 = true →
  relevant f2 tx1 = true → relevant f2 tx2 = false →
  ∃ s', handleTxInvs points [(id1, f1); (id2, f2)] Transactions [h1; h2]
          (mkTxState seen [] events) = (Ok tt, s') ∧
    tx1 ∉ accepted_by id2 s' ∧ ts_seen s' = Add (Add seen h1) h2.
Proof.
  intros Hs Hc1 Hc2 Ht Hid H11 H12 H21 H22. unfold handleTxInvs. rewrite Hs. simpl negb.
  cbv iota. rewrite filter_all by set_solver. simpl length. rewrite decide_False by done.
  unfold received. rewrite Ht.
  change (mapM id [Some tx1; Some tx2]) with (Some [tx1; tx2]). cbv beta iota.
  assert (Hf1 : filterRelevant f1 [tx1; tx2] = ([tx2], [tx2; tx2])).
  { rewrite filterRelevant_eq, filter_cons_False by congruence.
    rewrite filter_cons_True by done. reflexivity. }
  assert (Hf2 : filterRelevant f2 [tx2; tx2] = ([], [tx2; tx2])).
  { rewrite filterRelevant_eq. rewrite !filter_cons_False by congruence. reflexivity. }
  cbn [save_relevant]. rewrite Hf1, Hf2.
  eexists. split; [reflexivity|]. split; [|done]. unfold accepted_by. simpl.
  rewrite filter_cons_False by done. set_solver.
Qed.
End txinvs.

(** ** Witnesses *)

Definition toy_find (h : Hash) : option MsgTx :=
  list_find (λ tx, TxHash tx = h) [Toy.tx1; Toy.tx2] ≫= λ '(_, tx), Some tx.
Definition toy_lookup : WalletLookup := λ hs, (omap toy_find hs, None).

Lemma toy_find_hash (h : Hash) (tx : MsgTx) : toy_find h = Some tx → TxHash tx = h.
Proof.
  unfold toy_find. destruct (list_find _ _) as [[i t]|] eqn:E; [|done]. intros [= <-].
  by apply list_find_Some in E as (_ & ? & _).
Qed.

Lemma toy_lookup_honest : lookup_honest toy_lookup.
Proof.
  intros hs. unfold toy_lookup. simpl. induction hs as [|h hs IH]; csimpl; [done|].
  destruct (toy_find h) as [tx|] eqn:E; csimpl; [|by apply submseteq_cons].
  rewrite (toy_find_hash h tx E). by apply submseteq_skip.
Qed.

Lemma handleGetData_answers_witness :
  let invs := [mkInv InvTypeTx (bs "t2"); mkInv InvTypeBlock (bs "h1"); mkInv InvTypeTx (bs "t3")] in
  ∃ found notFound,
    handleGetData [(1%Z, toy_lookup)] (λ _, true) (λ _, false) invs = Ok (replies found notFound) ∧
    inv_Hash <$> invs ≡ₚ (TxHash <$> found) ++ (inv_Hash <$> notFound).
Proof.
  intros invs.
  destruct (handleGetData_answers [(1%Z, toy_lookup)] (λ _, true) (λ _, false) invs)
    as [[_ H]|(found & notFound & sent & Hr & _ & Hall & Hp & _)].
  - repeat (apply NoDup_cons; split; [set_solver|]). apply NoDup_nil_2.
  - apply Forall_singleton. exact toy_lookup_honest.
  - exfalso. vm_compute in H. discriminate H.
  - exists found, notFound. split; [|exact Hp]. rewrite Hr. f_equal. apply Hall. reflexivity.
Defined.

Lemma handleGetData_duplicate_panics_witness :
  handleGetData [(1%Z, toy_lookup)] (λ _, true) (λ _, false)
    [mkInv InvTypeTx (bs "t1"); mkInv InvTypeTx (bs "t1")] = Panic.
Proof. by apply (handleGetData_duplicate_panics (bs "t1") Toy.tx1 [Toy.tx1] None). Defined.

(** Two wallets: the first watches [you], the second [me]. *)
Definition filter_you : SetFilter bytes := mkSetFilter {[bs "you"]} ∅.
Definition filter_me : SetFilter bytes := mkSetFilter {[bs "me"]} ∅.
Definition toy_txs (hs : list Hash) : list (option MsgTx) * option goerr :=
  ([Some Toy.tx1; Some Toy.tx2], None).
Definition seen_add (l : list Hash) (h : Hash) : list Hash := h :: l.
Definition seen_in (l : list Hash) (h : Hash) : bool := bool_decide (h ∈ l).

Lemma handleTxInvs_spec_witness :
  ∃ s', handleTxInvs seen_in seen_add (λ _, true) [inr None] [(1%Z, filter_me)] toy_txs
          [bs "t1"; bs "t2"] (mkTxState [] [] []) = (Ok tt, s') ∧
    accepted_by 1 s' = [Toy.tx1].
Proof.
  destruct (handleTxInvs_spec seen_in seen_add (λ _, true) [inr None] 1 filter_me [] toy_txs
    [bs "t1"; bs "t2"] [bs "t1"; bs "t2"] [bs "t1"; bs "t2"] [Toy.tx1; Toy.tx2] [] [])
    as (s' & Hr & Ha & _).
  - reflexivity.
  - reflexivity.
  - discriminate.
  - reflexivity.
  - apply NoDup_singleton.
  - exists s'. split; [exact Hr|]. rewrite Ha. reflexivity.
Defined.

Lemma handleTxInvs_loses_tx_witness :
  ∃ s', handleTxInvs seen_in seen_add (λ _, true) [inr None]
          [(1%Z, filter_you); (2%Z, filter_me)] toy_txs [bs "t1"; bs "t2"]
          (mkTxState [] [] []) = (Ok tt, s') ∧ Toy.tx1 ∉ accepted_by 2 s'.
Proof.
  destruct (handleTxInvs_loses_tx seen_in seen_add (λ _, true) [inr None] 1 2 filter_you filter_me
    Toy.tx1 Toy.tx2 (bs "t1") (bs "t2") toy_txs [] []) as (s' & Hr & Ha & _);
    try reflexivity; [discriminate|].
  by exists s'.
Defined.
