(* ===== verification/GetData.v ===== *)
(** * [receiveGetData] of spv/sync.go: the loop and its goroutines

    Every request is answered by a goroutine of its own ([handleGetData] of
    [Inventory] says with which messages), and the loop goes on receiving; when
    receiving fails it waits for all of them.  Receiving, the messages of the
    goroutines and the return are steps in any order. *)
From S2P Require Import Prelude Wire Inventory.

Section GetData.
Context {P : Type}.
(** What a request is answered with when it is received: the wallets, what was
    announced to its peer, and when its context is cancelled. *)
Context (wallets : list (Z * WalletLookup)) (InvsSent : P → Hash → bool).
Context (cancelled : nat → nat → bool).

Record Request := mkGetData { rp : P; InvList : list InvVect }.

(** [n] counts the requests. *)
Definition reply (n : nat) (r : Request) : outcome (list Msg) :=
  handleGetData wallets (InvsSent (rp r)) (cancelled n) (InvList r).

(** A goroutine: what it has sent to its peer, and what it has to send. *)
Record Worker := mkWorker { peer : P; sent : list Msg; left : list Msg }.
Record GS := mkGS {
  incoming : list Request;     (* then receiving fails *)
  workers : list Worker;
  returned : bool; crashed : bool }.
Definition start (l : list Request) : GS := mkGS l [] false false.

Inductive Move := Receive | Send (i : nat) | Return.

Definition move (m : Move) (s : GS) : option GS :=
  if returned s || crashed s then None else
  match m with
  | Receive =>
      match incoming s with
      | [] => None
      | r :: rest =>
          Some (match reply (length (workers s)) r with
                | Ok msgs => mkGS rest (workers s ++ [mkWorker (rp r) [] msgs]) false false
                | Err _ => mkGS rest (workers s ++ [mkWorker (rp r) [] []]) false false
                | Panic => mkGS rest (workers s) false true
                end)
      end
  | Send i =>
      match workers s !! i with
      | Some (mkWorker p done_ (m :: rest)) =>
          Some (mkGS (incoming s) (<[i := mkWorker p (done_ ++ [m]) rest]> (workers s)) false false)
      | _ => None
      end
  | Return =>
      if decide (incoming s = [] ∧ Forall (λ w, left w = []) (workers s))
      then Some (mkGS [] (workers s) true false) else None
  end.

Definition gstep (s s' : GS) : Prop := ∃ m, move m s = Some s'.

(** ** Theorems *)

(** A goroutine never returns an error. *)
Lemma reply_no_err (n : nat) (r : Request) (e : goerr) : reply n r ≠ Err e.
Proof.
  unfold reply, handleGetData. destruct (split_request _ _) as [hs nf].
  destruct (if decide (length hs = 0) then Ok ([], []) else _) as [[f m]|e'|]; try done.
  by destruct (negb _).
Qed.

(** The requests so far have goroutines, which have sent the first part of
    their replies. *)
Record served (reqs : list Request) (s : GS) : Prop := {
  sv_incoming : incoming s = drop (length (workers s) + if crashed s then 1 else 0) reqs;
  sv_workers i w : workers s !! i = Some w →
    ∃ r, reqs !! i = Some r ∧ peer w = rp r ∧ reply i r = Ok (sent w ++ left w);
  sv_returned : returned s = true → incoming s = [] ∧ Forall (λ w, left w = []) (workers s);
  sv_crashed : crashed s = true →
    ∃ r, reqs !! length (workers s) = Some r ∧ reply (length (workers s)) r = Panic
}.

Lemma served_start (reqs : list Request) : served reqs (start reqs).
Proof. by split. Qed.

Lemma served_move (reqs : list Request) (m : Move) (s s' : GS) :
  served reqs s → move m s = Some s' → served reqs s'.
Proof.
  intros [Hi Hw Hr _]. unfold move. destruct (returned s || crashed s) eqn:Ef; [done|].
  apply orb_false_iff in Ef as [Er Ec]. rewrite Ec, Nat.add_0_r in Hi.
  destruct m as [|i|].
  - destruct (incoming s) as [|r rest] eqn:Ein; [done|].
    assert (Hreq : reqs !! length (workers s) = Some r ∧ rest = drop (S (length (workers s))) reqs).
    { split.
      - rewrite <- (Nat.add_0_r (length (workers s))), <- lookup_drop, <- Hi. done.
      - rewrite <- Nat.add_1_r, <- drop_drop, <- Hi. done. }
    destruct Hreq as [Hreq Hrest].
    assert (Hnew : ∀ msgs, reply (length (workers s)) r = Ok msgs →
      served reqs (mkGS rest (workers s ++ [mkWorker (rp r) [] msgs]) false false)).
    { intros msgs Hrep. split; cbn.
      - rewrite length_app, Nat.add_0_r. cbn. by rewrite Nat.add_1_r.
      - intros i w [H|[Hl H]]%lookup_app_Some; [by apply Hw|].
        destruct (i - length (workers s)) as [|k] eqn:E; [|done]. injection H as <-.
        exists r. replace i with (length (workers s)) by lia. by split_and!.
      - done.
      - done. }
    pose proof (reply_no_err (length (workers s)) r) as Hne.
    destruct (reply (length (workers s)) r) as [msgs|e|] eqn:Hrep; intros [= <-].
    + by apply Hnew.
    + by destruct (Hne e).
    + split; cbn; [by rewrite Nat.add_1_r|done|done|]. intros _. by exists r.
  - destruct (workers s !! i) as [[p d [|m rest]]|] eqn:E; try done. intros [= <-].
    split; cbn.
    + by rewrite length_insert, Nat.add_0_r.
    + intros j w H. destruct (decide (j = i)) as [->|Hj].
      * rewrite list_lookup_insert_eq in H by (by eapply lookup_lt_Some). injection H as <-.
        destruct (Hw i _ E) as (r & H1 & H2 & H3). exists r. cbn in *. rewrite <- app_assoc. by split_and!.
      * rewrite list_lookup_insert_ne in H by done. by apply Hw.
    + done.
    + done.
  - case_decide as Hall; [|done]. destruct Hall as [Hin Hl]. intros [= <-].
    split; cbn; [by rewrite Nat.add_0_r, <- Hi, Hin|done|done|done].
Qed.

Lemma served_reachable (reqs : list Request) (s : GS) :
  rtc gstep (start reqs) s → served reqs s.
Proof.
  intros H. remember (start reqs) as s0 eqn:E.
  assert (H0 : served reqs s0) by (subst; apply served_start). clear E.
  induction H as [|s0 s1 s2 [m Hm] _ IH]; [done|]. apply IH. by eapply served_move.
Qed.

(** The number of steps that were made, and a bound on it. *)
Fixpoint sum_sent (l : list Worker) : nat :=
  match l with [] => 0 | w :: l => S (length (sent w)) + sum_sent l end.
Definition done_ (s : GS) : nat :=
  sum_sent (workers s) + (if returned s then 1 else 0) + (if crashed s then 1 else 0).
Definition work (reqs : list Request) : nat :=
  list_sum (imap (λ i r, S (match reply i r with Ok msgs => length msgs | _ => 0 end)) reqs).

Lemma sum_sent_new (l : list Worker) (p : P) (msgs : list Msg) :
  sum_sent (l ++ [mkWorker p [] msgs]) = S (sum_sent l).
Proof. induction l as [|w l IH]; cbn; [done|]. rewrite IH. lia. Qed.

Lemma sum_sent_send (l : list Worker) (i : nat) (p : P) (d rest : list Msg) (m : Msg) :
  l !! i = Some (mkWorker p d (m :: rest)) →
  sum_sent (<[i := mkWorker p (d ++ [m]) rest]> l) = S (sum_sent l).
Proof.
  revert i. induction l as [|w l IH]; intros [|i]; [done|done|..].
  - intros [= ->]. cbn. rewrite length_app. cbn. lia.
  - intros H. change (S (length (sent w)) + sum_sent (<[i := mkWorker p (d ++ [m]) rest]> l)
      = S (S (length (sent w)) + sum_sent l)). rewrite (IH i H). lia.
Qed.

Lemma done_move (m : Move) (s s' : GS) : move m s = Some s' → done_ s' = S (done_ s).
Proof.
  unfold move, done_. destruct (returned s || crashed s) eqn:Ef; [done|].
  apply orb_false_iff in Ef as [-> ->]. destruct m as [|i|].
  - destruct (incoming s) as [|r rest]; [done|].
    destruct (reply _ r) as [msgs|e|]; intros [= <-]; cbn; rewrite ?sum_sent_new; lia.
  - destruct (workers s !! i) as [[p d [|m rest]]|] eqn:E; try done. intros [= <-]. cbn.
    rewrite (sum_sent_send _ _ _ _ _ _ E). lia.
  - case_decide; [|done]. intros [= <-]. cbn. lia.
Qed.

Lemma list_sum_prefix (l k : list nat) :
  (∀ i x, l !! i = Some x → ∃ y, k !! i = Some y ∧ x ≤ y) → list_sum l ≤ list_sum k.
Proof.
  revert k. induction l as [|x l IH]; intros k H; [cbn; lia|].
  destruct (H 0 x eq_refl) as (y & Hy & Hxy). destruct k as [|y' k]; [done|].
  injection Hy as ->.
  specialize (IH k (λ i, H (S i))). change (x + list_sum l ≤ y + list_sum k). lia.
Qed.

Lemma served_work (reqs : list Request) (s : GS) : served reqs s → done_ s ≤ work reqs + 2.
Proof.
  intros [_ Hw _ _]. unfold done_, work.
  assert (Hsum : ∀ l, sum_sent l = list_sum ((λ w, S (length (sent w))) <$> l))
    by (intros l; induction l as [|w l IH]; cbn; [done|by rewrite IH]).
  rewrite Hsum.
  assert (H : list_sum ((λ w, S (length (sent w))) <$> workers s) ≤
    list_sum (imap (λ i r, S (match reply i r with Ok msgs => length msgs | _ => 0 end)) reqs)).
  { apply list_sum_prefix. intros i x. rewrite list_lookup_fmap, list_lookup_imap.
    destruct (workers s !! i) as [w|] eqn:E; [|done]. intros [= <-].
    destruct (Hw i w E) as (r & -> & _ & Hr). cbn. rewrite Hr. eexists. split; [done|].
    rewrite length_app. lia. }
  destruct (returned s), (crashed s); lia.
Qed.

Lemma progress (s : GS) : returned s = false → crashed s = false → ∃ s', gstep s s'.
Proof.
  intros Hr Hc. destruct (incoming s) as [|r rest] eqn:Ein.
  - destruct (decide (Forall (λ w, left w = []) (workers s))) as [Hl|Hl].
    + eexists. exists Return. unfold move. by rewrite Hr, Hc, decide_True.
    + apply not_Forall_Exists, Exists_exists in Hl as (w & Hin & Hw); [|apply _].
      apply list_elem_of_lookup in Hin as [i Hi]. destruct w as [p d [|m l]]; [by destruct Hw|].
      eexists. exists (Send i). unfold move. rewrite Hr, Hc. cbn [orb]. by rewrite Hi.
  - unfold gstep. enough (H : is_Some (move Receive s)) by (destruct H as [s' H]; by exists s', Receive).
    unfold move. rewrite Hr, Hc, Ein. eauto.
Qed.

(** Every run of the loop ends, after no more steps than there are requests and
    messages (and two), and a run that is over has either returned, when each
    request was answered with its whole reply, in order and to its peer, or
    was ended by the panic of one of the goroutines. *)
Theorem receiveGetData_answers (reqs : list Request) (n : nat) (s : GS) :
  nsteps gstep n (start reqs) s →
  n ≤ work reqs + 2 ∧
  ((∀ s', ¬ gstep s s') →
   (crashed s = true ∧ ∃ i r, reqs !! i = Some r ∧ reply i r = Panic) ∨
   (returned s = true ∧ ∀ i r, reqs !! i = Some r →
      ∃ w, workers s !! i = Some w ∧ peer w = rp r ∧ reply i r = Ok (sent w))).
Proof.
  intros Hn. assert (Hreach : rtc gstep (start reqs) s) by (apply rtc_nsteps; by exists n).
  pose proof (served_reachable reqs s Hreach) as Hs.
  assert (Hd : done_ s = n).
  { clear Hs Hreach. assert (H : done_ s = done_ (start reqs) + n); [|exact H].
    induction Hn as [s|n s1 s2 s3 [m Hm] _ IH]; [lia|]. rewrite IH, (done_move m s1 s2 Hm). lia. }
  split; [rewrite <- Hd; by apply served_work|]. intros Hstop.
  destruct (crashed s) eqn:Hc.
  - left. split; [done|]. destruct (sv_crashed _ _ Hs Hc) as (r & H1 & H2). by exists (length (workers s)), r.
  - right. destruct (returned s) eqn:Hr.
    + split; [done|]. destruct (sv_returned _ _ Hs Hr) as [Hin Hl]. intros i r Hi.
      pose proof (sv_incoming _ _ Hs) as Hdrop. rewrite Hin, Hc, Nat.add_0_r in Hdrop.
      assert (Hlen : length reqs ≤ length (workers s)).
      { apply (f_equal length) in Hdrop. rewrite length_drop in Hdrop. cbn in Hdrop. lia. }
      destruct (lookup_lt_is_Some_2 (workers s) i) as [w Hw]; [apply lookup_lt_Some in Hi; lia|].
      destruct (sv_workers _ _ Hs i w Hw) as (r' & Hr' & Hp & Hrep). simplify_eq.
      exists w. rewrite Forall_lookup in Hl. rewrite (Hl i w Hw), app_nil_r in Hrep. by split_and!.
    + destruct (progress s Hr Hc) as [s' Hs']. by destruct (Hstop s').
Qed.
End GetData.

(** ** Two requests: the goroutine of the second answers first *)
Definition two_requests : list (Request (P := nat)) :=
  [mkGetData 1 [mkInv InvTypeBlock (bs "b")]; mkGetData 2 [mkInv InvTypeOther (bs "o")]].
Definition run_moves (ms : list Move) : option (GS (P := nat)) :=
  foldl (λ s m, s ≫= move [] (λ _ _, false) (λ _ _, false) m) (Some (start two_requests)) ms.
Example second_first :
  sent <$> (default [] (workers <$> run_moves [Receive; Receive; Send 1; Send 0; Return])) =
  [[SendNotFound [mkInv InvTypeBlock (bs "b")]]; [SendNotFound [mkInv InvTypeOther (bs "o")]]].
Proof. vm_compute. reflexivity. Qed.
