(* ===== verification/Backend.v ===== *)
(** * [spv/backend.go]: requests of a wallet to the peers of the syncer

    A request is sent to some peer, and to some peer again while peers fail;
    transactions are announced to all peers.  The time is counted in turns of
    the loop: what the context and the peers do at each turn is a function of
    it. *)
From stdpp Require Import functions.
From S2P Require Import Prelude Wire Syncer Inventory.

(** ** [Blocks], [CFilters], [Headers] *)

Section requests.
(** [ctx.Err()] and the remotes, in the order of the map, at each turn. *)
Context {P : Type} (ctxErr : nat → option goerr) (remotes : nat → list P).

Definition pickAny (_ : P) : bool := true.

(** The loop that the three methods have in common, from turn [t] on; [call] is
    the call of the peer that is picked.  No result: the loop still runs. *)
Fixpoint retry {A} (call : nat → P → goerr + A) (fuel t : nat) : option (goerr + A) :=
  match fuel with
  | O => None
  | S fuel =>
      match ctxErr t with
      | Some err => Some (inl err)
      | None =>
          match pickRemote pickAny (remotes t) with
          | inl err => Some (inl err)
          | inr rp =>
              match call t rp with
              | inl _ => retry call fuel (S t)
              | inr r => Some (inr r)
              end
          end
      end
  end.

Context {Filter Header : Type}
        (rp_Blocks : list Hash → nat → P → goerr + list MsgBlock)
        (rp_CFilters : list Hash → nat → P → goerr + list Filter)
        (rp_Headers : list Hash → Hash → nat → P → goerr + list Header).

Definition Blocks (blockHashes : list Hash) (fuel : nat) : option (goerr + list MsgBlock) :=
  retry (rp_Blocks blockHashes) fuel 0.

Definition CFilters (blockHashes : list Hash) (fuel : nat) : option (goerr + list Filter) :=
  retry (rp_CFilters blockHashes) fuel 0.

Definition Headers (blockLocators : list Hash) (hashStop : Hash) (fuel : nat)
    : option (goerr + list Header) :=
  retry (rp_Headers blockLocators hashStop) fuel 0.

(** A turn after which the loop goes on: the context is alive, and the peer that
    is picked fails. *)
Definition goes_on {A} (call : nat → P → goerr + A) (t : nat) : Prop :=
  ctxErr t = None ∧ ∃ rp l e, remotes t = rp :: l ∧ call t rp = inl e.

(** A turn that ends the loop, with its result. *)
Inductive stops {A} (call : nat → P → goerr + A) (t : nat) : goerr + A → Prop :=
| stops_canceled e : ctxErr t = Some e → stops call t (inl e)
| stops_no_peers : ctxErr t = None → remotes t = [] → stops call t (inl NoPeersErr)
| stops_answer rp l r : ctxErr t = None → remotes t = rp :: l → call t rp = inr r →
    stops call t (inr r).

Lemma turn_cases {A} (call : nat → P → goerr + A) t :
  goes_on call t ∨ ∃ r, stops call t r.
Proof.
  destruct (ctxErr t) as [e|] eqn:Hc; [right; eexists; by apply stops_canceled|].
  destruct (remotes t) as [|rp l] eqn:Hr; [right; eexists; by apply stops_no_peers|].
  destruct (call t rp) as [e|r] eqn:Ha.
  - left. split; [done|]. by exists rp, l, e.
  - right. eexists. by eapply stops_answer.
Qed.

Lemma retry_goes_on {A} (call : nat → P → goerr + A) fuel t :
  goes_on call t → retry call (S fuel) t = retry call fuel (S t).
Proof. intros (Hc & rp & l & e & Hr & Ha). cbn. by rewrite Hc, Hr; cbn; rewrite Ha. Qed.

Lemma retry_stops {A} (call : nat → P → goerr + A) fuel t r :
  stops call t r → retry call (S fuel) t = Some r.
Proof.
  intros H. cbn. inversion H as [e Hc|Hc Hr|rp l r' Hc Hr Ha]; rewrite Hc; try done;
    rewrite Hr; [done|]. cbn. by rewrite Ha.
Qed.

Lemma stops_not_goes_on {A} (call : nat → P → goerr + A) t r :
  stops call t r → ¬ goes_on call t.
Proof.
  intros H (Hc & rp & l & e & Hr & Ha). inversion H; congruence.
Qed.

(** The result is that of the first turn that ends the loop. *)
Lemma retry_spec {A} (call : nat → P → goerr + A) fuel t r :
  retry call fuel t = Some r ↔
  ∃ n, n < fuel ∧ (∀ i, i < n → goes_on call (t + i)) ∧ stops call (t + n) r.
Proof.
  revert t. induction fuel as [|fuel IH]; intros t.
  { split; [done|]. intros (n & Hn & _). lia. }
  destruct (turn_cases call t) as [Hgo|[r' Hst]].
  - rewrite retry_goes_on, IH by done. split.
    + intros (n & Hn & Hi & Hs). exists (S n). split_and!; [lia| |].
      * intros [|i] Hlt; [by rewrite Nat.add_0_r|].
        rewrite <- Nat.add_succ_comm. apply Hi. lia.
      * by rewrite <- Nat.add_succ_comm.
    + intros (n & Hn & Hi & Hs). destruct n as [|n].
      { rewrite Nat.add_0_r in Hs. by destruct (stops_not_goes_on _ _ _ Hs). }
      exists n. split_and!; [lia| |by rewrite Nat.add_succ_comm].
      intros i Hlt. rewrite Nat.add_succ_comm. apply Hi. lia.
  - rewrite (retry_stops _ _ _ _ Hst). split.
    + intros [= <-]. exists 0. split_and!; [lia|lia|by rewrite Nat.add_0_r].
    + intros (n & Hn & Hi & Hs). destruct n as [|n].
      * rewrite Nat.add_0_r in Hs. f_equal.
        pose proof (retry_stops _ fuel _ _ Hst) as H1.
        pose proof (retry_stops _ fuel _ _ Hs) as H2. congruence.
      * exfalso. apply (stops_not_goes_on _ _ _ Hst).
        rewrite <- (Nat.add_0_r t). apply Hi. lia.
Qed.

(** C26. Fetching blocks from the peers.  Blocks are the answer of a peer that was
    connected at that turn, after every peer tried before it failed; the error
    of a peer is never returned, only that of the context or that no peer is
    connected.  The call returns by the turn at which the context is cancelled,
    no peer is left or a peer answers; while none of this happens it never
    does, asking the peers over and over without a pause. *)
Theorem Blocks_spec (blockHashes : list Hash) :
  (∀ fuel bs, Blocks blockHashes fuel = Some (inr bs) →
     ∃ t rp, t < fuel ∧ ctxErr t = None ∧ rp ∈ remotes t ∧
       rp_Blocks blockHashes t rp = inr bs ∧
       ∀ t', t' < t → ∃ rp' e, rp' ∈ remotes t' ∧ rp_Blocks blockHashes t' rp' = inl e) ∧
  (∀ fuel e, Blocks blockHashes fuel = Some (inl e) →
     ∃ t, t < fuel ∧ (ctxErr t = Some e ∨ e = NoPeersErr ∧ remotes t = [])) ∧
  (∀ t fuel, ctxErr t ≠ None ∨ remotes t = [] ∨
             (∀ rp, rp ∈ remotes t → ∃ bs, rp_Blocks blockHashes t rp = inr bs) →
     t < fuel → ∃ r, Blocks blockHashes fuel = Some r) ∧
  ((∀ t, ctxErr t = None ∧ remotes t ≠ [] ∧
         ∀ rp, rp ∈ remotes t → ∃ e, rp_Blocks blockHashes t rp = inl e) →
     ∀ fuel, Blocks blockHashes fuel = None).
Proof.
  unfold Blocks. split_and!.
  - intros fuel bs (n & Hn & Hi & Hs)%retry_spec. inversion Hs as [| |rp l r Hc Hr Ha]; subst.
    exists n, rp. simpl in *. rewrite Hr. split_and!; [done|done|set_solver|done|].
    intros t' (_ & rp' & l' & e & -> & He)%Hi. exists rp', e. split; [set_solver|done].
  - intros fuel e (n & Hn & Hi & Hs)%retry_spec. exists n. split; [done|].
    inversion Hs; simpl in *; auto.
  - intros t fuel Hend Hlt. destruct (retry _ fuel 0) as [r|] eqn:Hret; [by exists r|exfalso].
    assert (Hno : ∀ n, n < fuel → ∀ i, i ≤ n → goes_on (rp_Blocks blockHashes) i).
    { induction n as [n IH] using lt_wf_ind. intros Hn i Hle.
      destruct (decide (i < n)) as [Hlt'|]; [apply (IH i); lia|].
      replace i with n by lia. destruct (turn_cases (rp_Blocks blockHashes) n) as [|[r Hs]]; [done|].
      enough (retry (rp_Blocks blockHashes) fuel 0 = Some r) by congruence.
      apply retry_spec. exists n. split_and!; [done| |done].
      intros j Hj. apply (IH j); simpl; lia. }
    destruct (Hno t Hlt t) as (Hc & rp & l & e & Hr & Ha); [done|].
    destruct Hend as [Hend|[Hend|Hend]]; [done|congruence|].
    destruct (Hend rp) as [bs Hbs]; [rewrite Hr; set_solver|congruence].
  - intros Hfail fuel. destruct (retry _ fuel 0) as [r|] eqn:Hret; [exfalso|done].
    apply retry_spec in Hret as (n & _ & _ & Hs). simpl in Hs.
    destruct (Hfail n) as (Hc & Hne & Hall). apply (stops_not_goes_on _ _ _ Hs).
    destruct (remotes n) as [|rp l] eqn:Hr; [done|].
    destruct (Hall rp) as [e He]; [set_solver|]. split; [done|]. by exists rp, l, e.
Qed.
End requests.

Definition String : string := "spv.Syncer".

Definition StakeDifficulty : goerr + Z :=
  inl (EKind KInvalid "stake difficulty is not queryable over wire protocol").

(** ** [PublishTransactions] *)

Section publish.
(** [InvsSent] is an LRU cache.  [AddInvVect] fails when the message is full. *)
Context {P Cache : Type} `{!EqDecision P}
        (Contains : Cache → Hash → bool) (Add : Cache → Hash → Cache)
        (AddInvVect : list InvVect → InvVect → goerr + list InvVect)
        (SendMessage : P → list InvVect → option goerr).

Record Pub := mkPub {
  invsSent : P → Cache;
  pub_sent : list (P * list InvVect)       (* the messages that were sent *)
}.

Fixpoint add_invs (txs : list MsgTx) (msg : list InvVect) : goerr + list InvVect :=
  match txs with
  | [] => inr msg
  | tx :: txs' =>
      match AddInvVect msg (mkInv InvTypeTx (TxHash tx)) with
      | inl err => inl (EWrap KProtocol err)
      | inr msg => add_invs txs' msg
      end
  end.

(** What [PublishTransactions] does for one peer. *)
Definition announce (msg : list InvVect) (rp : P) : GM Pub unit :=
  modify (λ s, mkPub (<[rp := foldl Add (invsSent s rp) (inv_Hash <$> msg)]> (invsSent s))
                     (pub_sent s)) ;;
  check (SendMessage rp msg) ;;
  modify (λ s, mkPub (invsSent s) (pub_sent s ++ [(rp, msg)])).

Definition PublishTransactions (remotes : list P) (txs : list MsgTx) : GM Pub unit :=
  match add_invs txs [] with
  | inl err => fail err
  | inr msg => forRemotes (announce msg) remotes
  end.

(** The cache holds the items that were added last. *)
Context (limit : nat)
        (cache_recent : ∀ c hs h, length hs ≤ limit → h ∈ hs → Contains (foldl Add c hs) h = true)
        (add_inv_appends : ∀ msg inv msg', AddInvVect msg inv = inr msg' → msg' = msg ++ [inv]).

Lemma add_invs_spec txs msg msg' :
  add_invs txs msg = inr msg' →
  msg' = msg ++ ((λ tx, mkInv InvTypeTx (TxHash tx)) <$> txs).
Proof using add_inv_appends.
  clear cache_recent. revert msg. induction txs as [|tx txs IH]; intros msg; simpl.
  { intros [= <-]. by rewrite app_nil_r. }
  destruct (AddInvVect _ _) as [e|m] eqn:Ha; [done|].
  intros ->%IH. apply add_inv_appends in Ha as ->. by rewrite <- app_assoc.
Qed.

(** The peers before the first one that cannot be reached are told. *)
Lemma announce_loop msg l1 l2 s :
  (∀ rp, rp ∈ l1 → SendMessage rp msg = None) →
  ∃ s', for_loop (announce msg) (l1 ++ l2) s = for_loop (announce msg) l2 s' ∧
    pub_sent s' = pub_sent s ++ ((λ rp, (rp, msg)) <$> l1) ∧
    (∀ rp, rp ∉ l1 → invsSent s' rp = invsSent s rp) ∧
    (∀ rp, rp ∈ l1 → ∃ c, invsSent s' rp = foldl Add c (inv_Hash <$> msg)).
Proof using Type.
  clear. revert s. induction l1 as [|rp l1 IH]; intros s Hok.
  { exists s. split_and!; [done|by rewrite app_nil_r|done|]. intros rp Hrp. set_solver. }
  assert (Hrp : SendMessage rp msg = None) by (apply Hok; set_solver).
  edestruct IH as (s' & He & Hs & Hout & Hin); [intros rp' ?; apply Hok; set_solver|].
  exists s'. split_and!.
  - cbn. unfold bind at 1. unfold announce at 1, bind at 1 2, modify, check. rewrite Hrp.
    cbn. exact He.
  - rewrite Hs. cbn. by rewrite <- app_assoc.
  - intros rp' [Hne Hnot]%not_elem_of_cons. rewrite Hout by done. cbn.
    by rewrite fn_lookup_insert_ne.
  - intros rp' Hin'. destruct (decide (rp' ∈ l1)) as [|Hn]; [by apply Hin|].
    apply elem_of_cons in Hin' as [->|?]; [|done]. rewrite Hout by done. cbn.
    rewrite fn_lookup_insert. eauto.
Qed.

Lemma split_known announced invs :
  (∀ inv, inv ∈ invs → announced (inv_Hash inv) = true ∧ inv_Type inv = InvTypeTx) →
  split_request announced invs = (inv_Hash <$> invs, []).
Proof using Type.
  clear. induction invs as [|inv invs IH]; intros H; [done|]. cbn.
  rewrite IH by (intros; apply H; set_solver). destruct (H inv) as [-> ->]; [set_solver|done].
Qed.

(** Publishing transactions.  The call fails without peers.  The peers are told
    one after the other, in the order of the map, in one message with every
    hash; the first that cannot be reached ends the call with its error, and
    the peers behind it are not told.  When the call succeeds every peer was
    told, and a peer that asks for published transactions has all of them
    looked up: no request is turned down as not announced. *)
Theorem PublishTransactions_spec (remotes : list P) (txs : list MsgTx) (s : Pub)
    (msg : list InvVect) (Hmsg : add_invs txs [] = inr msg) (Hlen : length txs ≤ limit) :
  msg = (λ tx, mkInv InvTypeTx (TxHash tx)) <$> txs ∧
  (remotes = [] → PublishTransactions remotes txs s = (Err NoPeersErr, s)) ∧
  (∀ l1 rp l2 e, remotes = l1 ++ rp :: l2 →
     (∀ rp', rp' ∈ l1 → SendMessage rp' msg = None) → SendMessage rp msg = Some e →
     ∃ s', PublishTransactions remotes txs s = (Err e, s') ∧
       pub_sent s' = pub_sent s ++ ((λ rp, (rp, msg)) <$> l1) ∧
       ∀ rp', rp' ∉ l1 → rp' ≠ rp → invsSent s' rp' = invsSent s rp') ∧
  (remotes ≠ [] → (∀ rp, rp ∈ remotes → SendMessage rp msg = None) →
     ∃ s', PublishTransactions remotes txs s = (Ok tt, s') ∧
       pub_sent s' = pub_sent s ++ ((λ rp, (rp, msg)) <$> remotes) ∧
       ∀ rp invs, rp ∈ remotes → invs ⊆ msg →
         split_request (Contains (invsSent s' rp)) invs = (inv_Hash <$> invs, [])).
Proof using cache_recent add_inv_appends.
  pose proof (add_invs_spec _ _ _ Hmsg) as Hm. rewrite app_nil_l in Hm.
  unfold PublishTransactions, forRemotes. rewrite Hmsg. split_and!; [done|by intros ->| |].
  - intros l1 rp l2 e -> Hok He. rewrite decide_False by (rewrite length_app; simpl; lia).
    destruct (announce_loop msg l1 (rp :: l2) s Hok) as (s1 & -> & Hs & Hout & _).
    eexists. split_and!.
    + cbn. unfold bind at 1, announce, bind at 1 2, modify, check. by rewrite He.
    + done.
    + intros rp' Hn Hne. cbn. by rewrite fn_lookup_insert_ne, Hout.
  - intros Hne Hok. rewrite decide_False by (by destruct remotes).
    destruct (announce_loop msg remotes [] s Hok) as (s1 & Heq & Hs & _ & Hin).
    rewrite app_nil_r in Heq. rewrite Heq. exists s1. split_and!; [done|done|].
    intros rp invs Hrp Hsub. apply split_known. intros inv Hinv%Hsub.
    destruct (Hin rp Hrp) as [c ->]. split.
    + apply cache_recent; [rewrite Hm, !length_fmap; lia|]. apply list_elem_of_fmap. by exists inv.
    + rewrite Hm in Hinv. by apply list_elem_of_fmap in Hinv as (tx & -> & _).
Qed.
End publish.

(** ** Concrete runs *)

(** Two peers: the first fails, is gone at the next turn, and the second
    answers. *)
Example Blocks_second_peer :
  Blocks (λ _, None) (λ t, if decide (t = 0) then [1; 2] else [2])
    (λ _ _ rp, if decide (rp = 2) then inr [] else inl (ENew "lost")) [] 5 = Some (inr []).
Proof. reflexivity. Qed.

Definition list_add (l : list Hash) (h : Hash) : list Hash := h :: l.
Definition list_has (l : list Hash) (h : Hash) : bool := bool_decide (h ∈ l).
Definition add_up_to (n : nat) (msg : list InvVect) (inv : InvVect) : goerr + list InvVect :=
  if decide (length msg < n) then inr (msg ++ [inv]) else inl (ENew "too many invvect in message").

Lemma list_has_added c hs h : h ∈ hs → list_has (foldl list_add c hs) h = true.
Proof.
  intros Hin. apply bool_decide_eq_true. revert c Hin.
  induction hs as [|h' hs IH]; intros c Hin; [set_solver|]. simpl.
  apply elem_of_cons in Hin as [->|Hin]; [|by apply IH].
  assert (Hkeep : ∀ l c, h' ∈ c → h' ∈ foldl list_add c l).
  { induction l as [|x l IHl]; intros c' Hc; [done|]. simpl. apply IHl. unfold list_add. set_solver. }
  apply Hkeep. unfold list_add. set_solver.
Qed.

Lemma add_up_to_appends n msg inv msg' : add_up_to n msg inv = inr msg' → msg' = msg ++ [inv].
Proof. unfold add_up_to. by case_decide; intros [= <-]. Qed.

Definition tx_a : MsgTx := mkMsgTx (bs "a") 1 [] [] 0 0.
Definition tx_b : MsgTx := mkMsgTx (bs "b") 1 [] [] 0 0.

Lemma PublishTransactions_spec_witness :
  add_invs (add_up_to 2) [tx_a; tx_b] [] =
    inr [mkInv InvTypeTx (bs "a"); mkInv InvTypeTx (bs "b")] ∧
  ∃ s', PublishTransactions list_add (add_up_to 2) (λ _ _, None) [1; 2] [tx_a; tx_b]
          (mkPub (λ _ : nat, []) []) = (Ok tt, s') ∧
    split_request (list_has (invsSent s' 2)) [mkInv InvTypeTx (bs "b")] = ([bs "b"], []).
Proof.
  split; [reflexivity|].
  destruct (PublishTransactions_spec list_has list_add (add_up_to 2) (λ _ _, None) 5
              (λ c hs h _, list_has_added c hs h) (add_up_to_appends 2)
              [1; 2] [tx_a; tx_b] (mkPub (λ _ : nat, []) []) _ eq_refl)
    as (_ & _ & _ & Hok); [simpl; lia|].
  destruct Hok as (s' & Heq & _ & Hreq); [done|done|]. exists s'. split; [exact Heq|].
  apply (Hreq 2 [mkInv InvTypeTx (bs "b")]); [set_solver|set_solver].
Defined.
