(* ===== verification/SyncerRun.v ===== *)
(** * [spv/sync.go]: creating and running a syncer

    [NewSyncer], what [Run] prepares and starts, and the goroutines that keep
    the connections to persistent peers.  Those of found peers are in
    [Syncer]. *)
From S2P Require Import Prelude Wire Syncer Inventory.

(** ** [NewSyncer] *)

Section new_syncer.
Context {F Entry : Type} (NewRescanFilter : F) (set : Event → bool).

(** The fields of [Syncer] that are per wallet, its peers, and what is set
    after its creation. *)
Record NewSync := mkNewSync {
  ns_flags : Flags;                             (* atomicWalletsSynced *)
  ns_wallets : list Z;
  ns_loadedFilters : gmap Z bool;
  ns_rescanFilter : gmap Z F;
  ns_filterData : gmap Z (list Entry);
  ns_connecting : gset string;
  ns_remotes : gset string;
  ns_persistentPeers : list string;
  ns_notifications : option (Event → bool)      (* the callbacks that are set *)
}.

Definition per_wallet {A} (a : A) (wallets : list Z) : gmap Z A :=
  foldr (λ walletID, <[walletID := a]>) ∅ wallets.

Definition NewSyncer (wallets : list Z) : NewSync :=
  mkNewSync (mkFlags (per_wallet false wallets) []) wallets ∅
    (per_wallet NewRescanFilter wallets) (per_wallet [] wallets) ∅ ∅ [] None.

Definition SetPersistentPeers (peers : list string) (s : NewSync) : NewSync :=
  mkNewSync (ns_flags s) (ns_wallets s) (ns_loadedFilters s) (ns_rescanFilter s) (ns_filterData s)
    (ns_connecting s) (ns_remotes s) peers (ns_notifications s).

Definition SetNotifications (ntfns : option (Event → bool)) (s : NewSync) : NewSync :=
  mkNewSync (ns_flags s) (ns_wallets s) (ns_loadedFilters s) (ns_rescanFilter s) (ns_filterData s)
    (ns_connecting s) (ns_remotes s) (ns_persistentPeers s) ntfns.

Lemma per_wallet_lookup {A} (a : A) wallets i :
  per_wallet a wallets !! i = if decide (i ∈ wallets) then Some a else None.
Proof.
  unfold per_wallet. induction wallets as [|w wallets IH]; [done|]. cbn.
  destruct (decide (w = i)) as [->|Hne].
  - rewrite lookup_insert_eq. rewrite decide_True; [done|set_solver].
  - rewrite lookup_insert_ne, IH by done. repeat case_decide; set_solver.
Qed.

(** A new syncer knows each wallet in all of its maps, with an empty filter and
    not synced: marking a wallet synced or unsynced does not panic, and the
    first [synced] is reported; for any other wallet it does panic. *)
Theorem NewSyncer_spec (wallets : list Z) (walletID : Z) :
  let s := NewSyncer wallets in
  (walletID ∈ wallets →
     ns_rescanFilter s !! walletID = Some NewRescanFilter ∧
     ns_filterData s !! walletID = Some [] ∧
     (∃ f, synced set walletID (ns_flags s) = (Ok tt, f) ∧
           fl_log f = emit set (Synced walletID true) []) ∧
     unsynced set walletID (ns_flags s) = (Ok tt, ns_flags s)) ∧
  (walletID ∉ wallets →
     ns_rescanFilter s !! walletID = None ∧
     (synced set walletID (ns_flags s)).1 = Panic ∧
     (unsynced set walletID (ns_flags s)).1 = Panic).
Proof.
  cbn [ns_rescanFilter ns_filterData ns_flags NewSyncer]. split; intros Hin;
    unfold synced, unsynced, cas, bind; cbn [fl_synced fl_log];
    rewrite !per_wallet_lookup; repeat rewrite (decide_True (P := walletID ∈ wallets)) by done;
    repeat rewrite (decide_False (P := walletID ∈ wallets)) by done.
  - split_and!; try done. eexists. split; reflexivity.
  - done.
Qed.
End new_syncer.

(** ** [Run] *)

(** The goroutines of the group. *)
Inductive Reader :=
| ReceiveGetData | ReceiveInv | ReceiveHeadersAnnouncements
| ConnectToPersistent (raddr : string)
| ConnectToCandidates.

Inductive RunAct :=
| AddrManagerStart | AddrManagerStop
| DNSSeed
| AddHandledMessages
| Started (r : Reader)
| Waited.                                  (* g.Wait() returned *)

Record RunState := mkRunState { currentLocators : list Hash; run_log : list RunAct }.

Section run.
Context (zero : Hash) (MainChainTip : Z → Hash * Z)
        (RescanPoint : Z → goerr + option Hash) (BlockHeader : Z → Hash → goerr + unit)
        (BlockLocators : option Z → outcome (list Hash))   (* [None]: of a nil wallet *)
        (persistentPeers : list string)
        (Wait : option goerr).                             (* what [g.Wait()] returns *)

Definition act (a : RunAct) : GM RunState unit :=
  modify (λ s, mkRunState (currentLocators s) (run_log s ++ [a])).

(** The loop over the wallets only logs how far they are, but it can fail. *)
Fixpoint rescan_points (wallets : list Z) : GM RunState unit :=
  match wallets with
  | [] => ret tt
  | w :: wallets' =>
      match RescanPoint w with
      | inl err => fail err
      | inr None => rescan_points wallets'
      | inr (Some p) =>
          match BlockHeader w p with
          | inl err => fail err
          | inr _ => rescan_points wallets'
          end
      end
  end.

Definition lift {A} (o : outcome A) : GM RunState A := λ s, (o, s).

Definition connectors : list Reader :=
  if decide (length persistentPeers ≠ 0) then ConnectToPersistent <$> persistentPeers
  else [ConnectToCandidates].

Fixpoint start (readers : list Reader) : GM RunState unit :=
  match readers with
  | [] => ret tt
  | r :: readers' => act (Started r) ;; start readers'
  end.

(** [order1] and [order2] are the orders in which the two loops range over the
    wallets. *)
Definition Run (order1 order2 : list Z) : GM RunState unit :=
  rescan_points order1 ;;
  let '(_, _, lowestChainWallet) :=
    lowestChainTip zero ((λ w, mkTip (MainChainTip w).1 (MainChainTip w).2 w) <$> order2) in
  let! locators := lift (BlockLocators lowestChainWallet) in
  modify (λ s, mkRunState locators (run_log s)) ;;
  act AddrManagerStart ;;
  (if decide (length persistentPeers = 0) then act DNSSeed else ret tt) ;;
  start [ReceiveGetData; ReceiveInv; ReceiveHeadersAnnouncements] ;;
  act AddHandledMessages ;;
  start connectors ;;
  act Waited ;;
  act AddrManagerStop ;;                   (* deferred *)
  check Wait.

Definition points_known (w : Z) : Prop :=
  ∃ p, RescanPoint w = inr p ∧ ∀ h, p = Some h → BlockHeader w h = inr tt.

Lemma rescan_points_ok wallets s :
  (∀ w, w ∈ wallets → points_known w) → rescan_points wallets s = (Ok tt, s).
Proof.
  induction wallets as [|w wallets IH]; intros H; [done|].
  destruct (H w) as (p & Hp & Hb); [set_solver|]. cbn. rewrite Hp.
  destruct p as [h|]; [rewrite (Hb h eq_refl)|]; apply IH; set_solver.
Qed.

Lemma rescan_points_state wallets s : (rescan_points wallets s).2 = s.
Proof.
  induction wallets as [|w wallets IH]; [done|]. cbn.
  destruct (RescanPoint w) as [|[p|]]; [done| |done]. by destruct (BlockHeader w p).
Qed.

Lemma start_spec readers s :
  start readers s = (Ok tt, mkRunState (currentLocators s) (run_log s ++ (Started <$> readers))).
Proof.
  revert s. induction readers as [|r readers IH]; intros [l log]; cbn.
  { by rewrite app_nil_r. }
  unfold bind, act, modify. cbn. rewrite IH. cbn. by rewrite <- app_assoc.
Qed.

(** Running a syncer.  Nothing is started when the rescan point of a wallet, its
    block or the block locators cannot be read.  Otherwise the readers of
    messages are started with one goroutine per persistent peer, and only
    without persistent peers are peers looked up by DNS and found candidates
    dialed; the locators are those of a wallet whose chain is the shortest.  The
    call returns what the group does, after the address manager was stopped. *)
Theorem Run_spec (order1 order2 : list Z) (s : RunState) (Hlog : run_log s = []) :
  let tips := (λ w, mkTip (MainChainTip w).1 (MainChainTip w).2 w) <$> order2 in
  (∀ w, w ∈ order1 → points_known w) →
  match BlockLocators (lowestChainTip zero tips).2 with
  | Ok locators =>
      Run order1 order2 s =
        (match Wait with Some err => Err err | None => Ok tt end,
         mkRunState locators
           ([AddrManagerStart] ++ (if decide (persistentPeers = []) then [DNSSeed] else []) ++
            (Started <$> [ReceiveGetData; ReceiveInv; ReceiveHeadersAnnouncements]) ++
            [AddHandledMessages] ++
            (Started <$> (if decide (persistentPeers = []) then [ConnectToCandidates]
                          else ConnectToPersistent <$> persistentPeers)) ++
            [Waited; AddrManagerStop]))
  | Err err => Run order1 order2 s = (Err err, s)
  | Panic => Run order1 order2 s = (Panic, s)
  end.
Proof.
  intros tips Hpoints. destruct (lowestChainTip zero tips) as [[h z] w] eqn:Hlow. cbn [snd].
  unfold Run, bind, lift. rewrite (rescan_points_ok _ _ Hpoints). fold tips. rewrite Hlow.
  destruct (BlockLocators w) as [locators|err|]; [|done|done].
  destruct s as [l0 log]. simpl in Hlog. subst log.
  unfold connectors, act, modify, check, ret. cbn [run_log currentLocators app].
  destruct persistentPeers as [|p ps]; cbn -[start].
  - repeat (rewrite start_spec; cbn -[start]). by destruct Wait.
  - repeat first [rewrite decide_False by done|rewrite decide_True by done].
    repeat (rewrite start_spec; cbn -[start]). rewrite <- !app_assoc. by destruct Wait.
Qed.

(** When the points of a wallet cannot be read nothing was started. *)
Theorem Run_fails (order1 order2 : list Z) (s : RunState) (w : Z) (e : goerr)
    (Hw : w ∈ order1) (He : RescanPoint w = inl e) :
  ∃ e', Run order1 order2 s = (Err e', s).
Proof.
  unfold Run, bind at 1.
  enough (∃ e', (rescan_points order1 s).1 = Err e') as [e' Hr].
  { exists e'. pose proof (rescan_points_state order1 s) as Hs.
    destruct (rescan_points order1 s) as [r s']. simpl in *. by subst. }
  clear -Hw He. induction order1 as [|w' order1 IH]; [set_solver|]. cbn.
  apply elem_of_cons in Hw as [->|Hw].
  { rewrite He. by eexists. }
  destruct (RescanPoint w') as [|[p|]]; [by eexists| |by apply IH].
  destruct (BlockHeader w' p); [by eexists|by apply IH].
Qed.
End run.

(** ** [receiveHeadersAnnouncements]

    What the goroutine of a message does with the result of
    [handleBlockAnnouncements]. *)
Inductive AfterAnnouncement := Nothing | Disconnected (err : goerr) | OnlyLogged.

Definition after_announcement (canceled : bool) (r : option goerr) : AfterAnnouncement :=
  match r with
  | None => Nothing
  | Some err =>
      if canceled then Nothing
      else if disconnects err then Disconnected err else OnlyLogged
  end.

(** The messages are handled, one goroutine each, until receiving fails. *)
Fixpoint receiveHeadersAnnouncements {M} (received : list (goerr + M)) : list M * option goerr :=
  match received with
  | [] => ([], None)
  | inl err :: _ => ([], Some err)
  | inr m :: received' =>
      let '(ms, err) := receiveHeadersAnnouncements received' in (m :: ms, err)
  end.

(** ** [connectToPersistent]

    Goroutine [i] keeps the connection to the [i]th persistent peer.  How far it
    is: *)
Inductive PPhase :=
| PDial                            (* ConnectOutbound runs, or the pause before it *)
| PConnected (k : string) (n : Z)  (* in remotes; peerConnected is yet to be called *)
| PUp (k : string)                 (* waits in rp.Err() *)
| PDropped (k : string) (n : Z)    (* deleted; peerDisconnected is yet to be called *)
| PWait                            (* waits for startupSync *)
| PEnded.

(** [remotes] maps an address to the goroutine whose peer it holds. *)
Record Pers := mkPers {
  pe_gos : list PPhase;
  pe_remotes : gmap string nat;
  pe_log : list Event;
  pe_canceled : bool
}.

(** What happens next in a goroutine: its dial ends, the callback runs, the peer
    is lost, [startupSync] ends. *)
Inductive PInput := DialFailed | Dialed (k : string) | Notify | Lost | SyncEnded.

Inductive PMove := Moves (i : nat) (x : PInput) | Cancel.

Section persistent.
Context (set : Event → bool).

(** Back to the loop: [if err := ctx.Err(); err != nil { return err }]. *)
Definition again (canceled : bool) : PPhase := if canceled then PEnded else PDial.

(** [remotesMu] protects the first and the third action, not the callbacks. *)
Definition connectToPersistent (i : nat) (ph : PPhase) (x : PInput) (s : Pers)
    : option (PPhase * gmap string nat * list Event) :=
  match ph, x with
  | PDial, DialFailed => Some (again (pe_canceled s), pe_remotes s, pe_log s)
  | PDial, Dialed k =>
      let remotes := <[k := i]> (pe_remotes s) in
      Some (PConnected k (Z.of_nat (size remotes)), remotes, pe_log s)
  | PConnected k n, Notify => Some (PUp k, pe_remotes s, peerConnected set n k (pe_log s))
  | PUp k, Lost =>
      let remotes := delete k (pe_remotes s) in
      Some (PDropped k (Z.of_nat (size remotes)), remotes, pe_log s)
  | PDropped k n, Notify => Some (PWait, pe_remotes s, peerDisconnected set n k (pe_log s))
  | PWait, SyncEnded => Some (again (pe_canceled s), pe_remotes s, pe_log s)
  | _, _ => None
  end.

Definition pers_step (s : Pers) (m : PMove) : option Pers :=
  match m with
  | Cancel => Some (mkPers (pe_gos s) (pe_remotes s) (pe_log s) true)
  | Moves i x =>
      ph ← pe_gos s !! i;
      '(ph', remotes, log) ← connectToPersistent i ph x s;
      Some (mkPers (<[i := ph']> (pe_gos s)) remotes log (pe_canceled s))
  end.

Fixpoint pers_run (s : Pers) (ms : list PMove) : option Pers :=
  match ms with
  | [] => Some s
  | m :: ms' => s' ← pers_step s m; pers_run s' ms'
  end.

Definition pers0 (n : nat) : Pers := mkPers (replicate n PDial) ∅ [] false.

(** *** The invariant *)

(** The address that the goroutine has in [remotes]. *)
Definition holds (ph : PPhase) : option string :=
  match ph with PConnected k _ | PUp k => Some k | _ => None end.

Definition pending (ph : PPhase) : option Z :=
  match ph with PConnected _ n | PDropped _ n => Some n | _ => None end.

Definition event_count (e : Event) : option Z :=
  match e with PeerConnected n _ | PeerDisconnected n _ => Some n | _ => None end.

Record pers_ok (n : nat) (s : Pers) : Prop := {
  po_length : length (pe_gos s) = n;
  po_owner : ∀ k i, pe_remotes s !! k = Some i → ∃ ph, pe_gos s !! i = Some ph ∧ holds ph = Some k;
  po_pending : ∀ ph z, ph ∈ pe_gos s → pending ph = Some z → (0 ≤ z ≤ Z.of_nat n)%Z;
  po_log : ∀ e z, e ∈ pe_log s → event_count e = Some z → (0 ≤ z ≤ Z.of_nat n)%Z
}.

(** Each goroutine has at most one entry. *)
Lemma owners_size (gos : list PPhase) (remotes : gmap string nat) :
  (∀ k i, remotes !! k = Some i → ∃ ph, gos !! i = Some ph ∧ holds ph = Some k) →
  size remotes ≤ length gos.
Proof.
  intros H. rewrite <- length_map_to_list, <- (length_fmap snd).
  rewrite <- (length_seq (length gos) 0). apply submseteq_length, NoDup_submseteq.
  - apply NoDup_fmap_2_strong; [|apply NoDup_map_to_list].
    intros [k1 i1] [k2 i2] H1%elem_of_map_to_list H2%elem_of_map_to_list Heq. simpl in Heq. subst.
    apply H in H1 as (ph & Hph & Hk1). apply H in H2 as (ph' & Hph' & Hk2). congruence.
  - intros i ([k i'] & -> & Hin%elem_of_map_to_list)%list_elem_of_fmap.
    apply H in Hin as (ph & Hph%lookup_lt_Some & _). apply elem_of_seq. simpl. lia.
Qed.

Lemma wrap_count (n : nat) (z : Z) : (Z.of_nat n < 2 ^ 31)%Z → (0 ≤ z ≤ Z.of_nat n)%Z → wrap32 z = z.
Proof. intros Hn Hz. unfold wrap. rewrite Z.mod_small; lia. Qed.

Lemma emit_in e log e' : e' ∈ emit set e log → e' ∈ log ∨ e' = e.
Proof. unfold emit. destruct (set e); set_solver. Qed.

Lemma again_holds c : holds (again c) = None.
Proof. by destruct c. Qed.
Lemma again_pending c : pending (again c) = None.
Proof. by destruct c. Qed.

(** What a move changes: a goroutine that holds an address keeps it unless it
    drops it, and the sizes are those of the map. *)
Lemma move_owner i ph x s ph' remotes log (n : nat) :
  connectToPersistent i ph x s = Some (ph', remotes, log) →
  pe_gos s !! i = Some ph → pers_ok n s →
  ∀ k j, remotes !! k = Some j → ∃ ph1, <[i := ph']> (pe_gos s) !! j = Some ph1 ∧ holds ph1 = Some k.
Proof.
  intros Hmove Hi Hok k j Hk.
  assert (Hlt : i < length (pe_gos s)) by by eapply lookup_lt_Some.
  assert (Hold : pe_remotes s !! k = Some j → holds ph = holds ph' ∨ holds ph ≠ Some k →
            ∃ ph1, <[i := ph']> (pe_gos s) !! j = Some ph1 ∧ holds ph1 = Some k).
  { intros (ph1 & Hj & Hh)%(po_owner _ _ Hok) Hsame. destruct (decide (j = i)) as [->|Hne].
    - rewrite Hi in Hj. injection Hj as ->. exists ph'. rewrite list_lookup_insert_eq by done.
      split; [done|]. destruct Hsame as [<-|Hno]; [done|by destruct Hno].
    - exists ph1. by rewrite list_lookup_insert_ne by done. }
  destruct ph, x; simpl in Hmove; try done; injection Hmove as <- <- <-; try (apply Hold; auto; fail).
  - destruct (decide (k = k0)) as [->|Hne].
    + rewrite lookup_insert_eq in Hk. injection Hk as <-. eexists.
      by rewrite list_lookup_insert_eq.
    + rewrite lookup_insert_ne in Hk by done. apply Hold; [done|]. by right.
  - apply lookup_delete_Some in Hk as [Hne Hk]. apply Hold; [done|]. right. simpl. congruence.
Qed.

Lemma pers_step_ok n s s' m :
  (Z.of_nat n < 2 ^ 31)%Z → pers_ok n s → pers_step s m = Some s' → pers_ok n s'.
Proof.
  intros Hn Hok. destruct m as [i x|]; simpl; [|by intros [= <-]; destruct Hok].
  destruct (pe_gos s !! i) as [ph|] eqn:Hi; simpl; [|done].
  destruct (connectToPersistent i ph x s) as [[[ph' remotes] log]|] eqn:Hmove; simpl; [|done].
  intros [= <-]. pose proof (move_owner _ _ _ _ _ _ _ _ Hmove Hi Hok) as Howner.
  assert (Hsize : (0 ≤ Z.of_nat (size remotes) ≤ Z.of_nat n)%Z).
  { rewrite <- (po_length _ _ Hok). apply owners_size in Howner. rewrite length_insert in Howner. lia. }
  split; simpl; [by rewrite length_insert, (po_length _ _ Hok)|done| |].
  - intros p z [j Hj]%list_elem_of_lookup_1 Hp.
    apply list_lookup_insert_Some in Hj as [(-> & <- & _)|[_ Hj]].
    2:{ by eapply (po_pending _ _ Hok); [eapply list_elem_of_lookup_2|]. }
    destruct ph, x; simpl in Hmove; try done; injection Hmove as <- <- <-;
      simpl in Hp; rewrite ?again_pending in Hp; simplify_eq; done.
  - intros e z He Hc.
    assert (Hin : e ∈ pe_log s ∨ ∃ z', pending ph = Some z' ∧ event_count e = Some (wrap32 z')).
    { destruct ph, x; simpl in Hmove; try done; injection Hmove as <- <- <-; try by left.
      all: apply emit_in in He as [He| ->]; [by left|right; by eexists]. }
    destruct Hin as [Hin|(z' & Hp & He')]; [by eapply (po_log _ _ Hok)|].
    assert (Hz' : (0 ≤ z' ≤ Z.of_nat n)%Z).
    { eapply (po_pending _ _ Hok); [by eapply list_elem_of_lookup_2|done]. }
    rewrite (wrap_count n) in He' by done. congruence.
Qed.

Lemma pers0_ok n : pers_ok n (pers0 n).
Proof.
  split; simpl; [by rewrite length_replicate| | |set_solver].
  - intros k i. by rewrite lookup_empty.
  - intros ph z Hin. apply elem_of_replicate in Hin as [-> _]. done.
Qed.

Lemma pers_run_inv (I : Pers → Prop) s s' ms :
  (∀ s s' m, m ∈ ms → I s → pers_step s m = Some s' → I s') →
  I s → pers_run s ms = Some s' → I s'.
Proof.
  revert s. induction ms as [|m ms IH]; intros s Hstep Hs; simpl; [by intros [= <-]|].
  destruct (pers_step s m) as [s1|] eqn:Hm; simpl; [|done]. apply IH.
  - intros ????. apply Hstep. set_solver.
  - eapply Hstep; [|done|done]. set_solver.
Qed.

(** *** Distinct addresses *)

(** Goroutine [i] only ever connects to the address [key i]. *)
Definition dials (key : nat → string) (m : PMove) : Prop :=
  match m with Moves i (Dialed k) => k = key i | _ => True end.

Definition pers_exact (key : nat → string) (s : Pers) : Prop :=
  ∀ i ph k, pe_gos s !! i = Some ph → holds ph = Some k → k = key i ∧ pe_remotes s !! k = Some i.

Lemma pers_step_exact key n s s' m :
  (∀ i j, i < n → j < n → key i = key j → i = j) → dials key m →
  pers_ok n s → pers_exact key s → pers_step s m = Some s' → pers_exact key s'.
Proof.
  intros Hinj Hd Hok Hex. destruct m as [i x|]; simpl; [|by intros [= <-]].
  destruct (pe_gos s !! i) as [ph|] eqn:Hi; simpl; [|done].
  destruct (connectToPersistent i ph x s) as [[[ph' remotes] log]|] eqn:Hmove; simpl; [|done].
  intros [= <-] j ph1 k Hj Hk. simpl in *.
  assert (Hlt : i < n) by (rewrite <- (po_length _ _ Hok); by eapply lookup_lt_Some).
  apply list_lookup_insert_Some in Hj as [(<- & <- & _)|[Hne Hj]].
  - destruct ph, x; simpl in Hmove; try done; injection Hmove as <- <- <-;
      simpl in Hk; rewrite ?again_holds in Hk; simplify_eq.
    + by rewrite lookup_insert_eq.
    + by apply (Hex i _ _ Hi).
  - destruct (Hex j _ _ Hj Hk) as [-> Hr]. split; [done|].
    assert (Hlt' : j < n) by (rewrite <- (po_length _ _ Hok); by eapply lookup_lt_Some).
    assert (Hkey : key i ≠ key j) by (intros Heq; by apply Hne, Hinj).
    destruct ph, x; simpl in Hmove; try done; injection Hmove as <- <- <-; try done.
    + simpl in Hd. subst. by rewrite lookup_insert_ne.
    + destruct (Hex i _ _ Hi eq_refl) as [-> _]. by rewrite lookup_delete_ne.
Qed.

(** *** After cancellation *)

(** The moves that a goroutine has left, once the context is cancelled. *)
Definition left_moves (ph : PPhase) : nat :=
  match ph with
  | PDial => 5 | PConnected _ _ => 4 | PUp _ => 3 | PDropped _ _ => 2 | PWait => 1 | PEnded => 0
  end.

Definition rank (s : Pers) : nat := sum_list (left_moves <$> pe_gos s).

Lemma sum_list_insert (l : list nat) i a b :
  l !! i = Some a → sum_list (<[i := b]> l) + a = sum_list l + b.
Proof.
  revert i. induction l as [|c l IH]; intros [|i]; simpl; try done.
  - intros [= ->]. lia.
  - intros H%IH. lia.
Qed.

Lemma canceled_step s s' i x :
  pe_canceled s = true → pers_step s (Moves i x) = Some s' →
  pe_canceled s' = true ∧ rank s' < rank s.
Proof.
  intros Hc. simpl. destruct (pe_gos s !! i) as [ph|] eqn:Hi; simpl; [|done].
  destruct (connectToPersistent i ph x s) as [[[ph' remotes] log]|] eqn:Hmove; simpl; [|done].
  intros [= <-]. split; [done|]. unfold rank. simpl. rewrite list_fmap_insert.
  pose proof (sum_list_insert (left_moves <$> pe_gos s) i (left_moves ph) (left_moves ph')) as Hsum.
  rewrite list_lookup_fmap, Hi in Hsum. specialize (Hsum eq_refl).
  enough (left_moves ph' < left_moves ph) by lia.
  destruct ph, x; simpl in Hmove; try done; injection Hmove as <- <- <-; unfold again;
    rewrite ?Hc; simpl; lia.
Qed.

Lemma rank_le s : rank s ≤ 5 * length (pe_gos s).
Proof.
  unfold rank. induction (pe_gos s) as [|ph l IH]; [done|].
  assert (left_moves ph ≤ 5) by (destruct ph; simpl; lia).
  cbn [fmap list_fmap sum_list_with length] in *. unfold id in *. lia.
Qed.

(** A goroutine that has not ended can move. *)
Lemma can_move s i ph :
  pe_gos s !! i = Some ph → ph ≠ PEnded → ∃ x s', pers_step s (Moves i x) = Some s'.
Proof.
  intros Hi Hne. simpl. rewrite Hi. simpl.
  destruct ph; [exists DialFailed|exists Notify|exists Lost|exists Notify|exists SyncEnded|done];
    by eexists.
Qed.

Definition is_move (m : PMove) : bool := match m with Moves _ _ => true | Cancel => false end.

Lemma canceled_run s ms s' :
  pe_canceled s = true → pers_run s ms = Some s' →
  length (filter is_move ms) + rank s' ≤ rank s ∧ pe_canceled s' = true.
Proof.
  revert s. induction ms as [|m ms IH]; intros s Hc; cbn [pers_run].
  { intros [= <-]. split; [simpl; lia|done]. }
  destruct (pers_step s m) as [s1|] eqn:Hm; [|done]. intros Hrun.
  change (pers_run s1 ms = Some s') in Hrun.
  destruct m as [i x|].
  - apply canceled_step in Hm as [Hc1 Hr]; [|done]. destruct (IH _ Hc1 Hrun) as [Hl Hc'].
    split; [|done]. rewrite filter_cons_True by done. simpl. lia.
  - injection Hm as <-. apply IH in Hrun as [Hl Hc']; [|done]. split; [|done].
    rewrite filter_cons_False by (by intros []). exact Hl.
Qed.

(** C25. The goroutines of [n] persistent peers, under every interleaving.  The counts
    that callbacks are given are between 0 and [n].  If the addresses are distinct then the
    map of remotes holds exactly the peers that are connected.  Once the context
    is cancelled they make at most five more moves each, and while one has not
    ended it can move, so all of them end; then no remote is left. *)
Theorem connectToPersistent_spec (n : nat) (Hn : (Z.of_nat n < 2 ^ 31)%Z) (key : nat → string)
    (ms : list PMove) (s : Pers) (Hrun : pers_run (pers0 n) ms = Some s) :
  (∀ e z, e ∈ pe_log s → event_count e = Some z → (0 ≤ z ≤ Z.of_nat n)%Z) ∧
  ((∀ i j, i < n → j < n → key i = key j → i = j) → (∀ m, m ∈ ms → dials key m) →
     ∀ k i, pe_remotes s !! k = Some i ↔
            ∃ ph, pe_gos s !! i = Some ph ∧ holds ph = Some k) ∧
  (pe_canceled s = true →
     (∀ ms' s', pers_run s ms' = Some s' → length (filter is_move ms') ≤ 5 * n) ∧
     (∀ i ph, pe_gos s !! i = Some ph → ph ≠ PEnded → ∃ x s', pers_step s (Moves i x) = Some s')) ∧
  ((∀ i ph, pe_gos s !! i = Some ph → ph = PEnded) → pe_remotes s = ∅).
Proof.
  assert (Hok : pers_ok n s).
  { eapply (pers_run_inv (pers_ok n)); [|apply pers0_ok|exact Hrun].
    intros s1 s2 m _. by apply pers_step_ok. }
  split_and!.
  - apply (po_log _ _ Hok).
  - intros Hinj Hd. assert (Hboth : pers_ok n s ∧ pers_exact key s).
    { eapply (pers_run_inv (λ s, pers_ok n s ∧ pers_exact key s)); [| |exact Hrun].
      - intros s1 s2 m Hm [Hok1 Hex1] Hstep. split; [by eapply pers_step_ok|].
        eapply pers_step_exact; eauto.
      - split; [apply pers0_ok|]. intros i ph k Hi. simpl in Hi.
        apply lookup_replicate in Hi as [-> _]. done. }
    intros k i. split; [apply (po_owner _ _ Hok)|]. intros (ph & Hi & Hk).
    by apply (proj2 Hboth i ph k Hi Hk).
  - intros Hc. split.
    + intros ms' s' [Hl _]%canceled_run; [|done]. pose proof (rank_le s) as Hr.
      rewrite (po_length _ _ Hok) in Hr. lia.
    + intros i ph. by apply can_move.
  - intros Hend. apply map_eq. intros k. rewrite lookup_empty.
    destruct (pe_remotes s !! k) as [i|] eqn:Hk; [|done].
    apply (po_owner _ _ Hok) in Hk as (ph & Hi & Hh). by rewrite (Hend _ _ Hi) in Hh.
Qed.
End persistent.

(** ** Concrete runs *)

Definition all_set (_ : Event) : bool := true.

(** Two persistent peers connect, one is lost and the context is cancelled. *)
Definition two_peers : list PMove :=
  [Moves 0 (Dialed "a"); Moves 0 Notify; Moves 1 (Dialed "b"); Moves 1 Notify; Moves 0 Lost;
   Moves 0 Notify; Cancel; Moves 0 SyncEnded; Moves 1 Lost; Moves 1 Notify; Moves 1 SyncEnded].

Lemma connectToPersistent_spec_witness :
  ∃ s, pers_run all_set (pers0 2) two_peers = Some s ∧
    pe_log s = [PeerConnected 1 "a"; PeerConnected 2 "b"; PeerDisconnected 1 "a";
                PeerDisconnected 0 "b"] ∧
    pe_gos s = [PEnded; PEnded] ∧ pe_remotes s = ∅.
Proof.
  assert (Hend : (λ s, (pe_log s, pe_gos s)) <$> pers_run all_set (pers0 2) two_peers =
    Some ([PeerConnected 1 "a"; PeerConnected 2 "b"; PeerDisconnected 1 "a";
           PeerDisconnected 0 "b"], [PEnded; PEnded])) by (vm_compute; reflexivity).
  apply fmap_Some in Hend as (s & Hrun & [= Hlog Hgos]). exists s.
  destruct (connectToPersistent_spec all_set 2 eq_refl (λ _, ""%string) two_peers s Hrun)
    as (_ & _ & _ & Hempty).
  split_and!; [done|done|done|]. apply Hempty. intros i ph. rewrite <- Hgos.
  by destruct i as [|[|i]]; intros [= <-].
Defined.

(** The callbacks run outside the mutex: after both peers have connected the
    last count that was reported is 1, and stays so while nothing changes. *)
Theorem stale_count :
  ∃ s, pers_run all_set (pers0 2)
         [Moves 0 (Dialed "a"); Moves 1 (Dialed "b"); Moves 1 Notify; Moves 0 Notify] = Some s ∧
    pe_gos s = [PUp "a"; PUp "b"] ∧ size (pe_remotes s) = 2 ∧
    pe_log s = [PeerConnected 2 "b"; PeerConnected 1 "a"].
Proof. eexists. split_and!; reflexivity. Qed.

(** Two persistent addresses of one peer share an entry: when the first
    connection is lost the second is no longer among the remotes. *)
Theorem shared_address_forgotten :
  ∃ s, pers_run all_set (pers0 2)
         [Moves 0 (Dialed "a"); Moves 0 Notify; Moves 1 (Dialed "a"); Moves 1 Notify;
          Moves 0 Lost; Moves 0 Notify] = Some s ∧
    pe_gos s = [PWait; PUp "a"] ∧ pe_remotes s = ∅.
Proof. eexists. split_and!; reflexivity. Qed.

Lemma Run_spec_witness :
  (∀ w, w ∈ [7%Z] → points_known (λ _, inr None) (λ _ _, inr tt) w) ∧
  ∃ s, Run [] (λ _, ([], 5%Z)) (λ _, inr None) (λ _ _, inr tt) (λ _, Ok []) ["h:1"%string]
         (Some (ELib "canceled")) [7%Z] [7%Z] (mkRunState [] []) = (Err (ELib "canceled"), s) ∧
    Started (ConnectToPersistent "h:1") ∈ run_log s ∧ DNSSeed ∉ run_log s.
Proof.
  assert (Hp : ∀ w, w ∈ [7%Z] → points_known (λ _, inr None) (λ _ _, inr tt) w).
  { intros w _. by exists None. }
  split; [exact Hp|].
  pose proof (Run_spec [] (λ _, ([], 5%Z)) (λ _, inr None) (λ _ _, inr tt) (λ _, Ok [])
    ["h:1"%string] (Some (ELib "canceled")) [7%Z] [7%Z] (mkRunState [] []) eq_refl Hp) as H.
  eexists. split; [exact H|]. simpl. split; set_solver.
Defined.
