(* ===== verification/ChainSync.v ===== *)
(** * [spv/sync.go]: headers, block announcements and the startup sync

    The wallet, the sidechain forest and the remote peer are libraries: their
    operations are a typeclass over abstract states.  The state of the syncer
    is explicit, its mutexes included: locking a mutex that is held by the same
    goroutine and unlocking a free one are panics of the model. *)
From S2P Require Import Prelude Wire Syncer.

(** A header, as far as it is read. *)
Record Header := mkHeader { hd_Hash : Hash; hd_PrevBlock : Hash; hd_Height : Z; hd_Unix : Z }.

(** A block node: a header and its compact filter. *)
Record BlockNode (Filter : Type) := mkNode { nd_Header : Header; nd_Filter : Filter }.
Arguments mkNode {Filter}.
Arguments nd_Header {Filter}.
Arguments nd_Filter {Filter}.
Definition nd_Hash {Filter} (n : BlockNode Filter) : Hash := hd_Hash (nd_Header n).

(** The transactions found per block; [None] is the nil map. *)
Abbreviation Matching := (option (gmap Hash (list MsgTx))).

(** [wallet.Wallet] and [wallet.SidechainForest]: a failing call reports its
    error, the others return the new states with the result. *)
Class WalletOps (W SF Filter : Type) := {
  MainChainTip : W → Hash * Z;
  BlockInMainChain : W → Hash → goerr + bool;
  AddBlockNode : SF → BlockNode Filter → bool * SF;
  EvaluateBestChain : W → SF → (goerr + list (BlockNode Filter)) * SF;
  ValidateHeaderChainDifficulties : W → list (BlockNode Filter) → option goerr;
  ChainSwitch : W → SF → list (BlockNode Filter) → Matching →
                (goerr + list (BlockNode Filter)) * W * SF;
  RescanPoint : W → goerr + option Hash;
  BlockLocators : W → goerr + list Hash;
  BlockHeader : W → Hash → goerr + Header
}.

(** What a remote peer answers: [Headers] to the [n]th request. *)
Record RemotePeer (Filter : Type) := mkRemote {
  InitialHeight : Z;
  Headers : nat → list Hash → goerr + list Header;
  CFilter : Hash → goerr + Filter;
  SendHeaders : option goerr
}.
Arguments mkRemote {Filter}.
Arguments InitialHeight {Filter}.
Arguments Headers {Filter}.
Arguments CFilter {Filter}.
Arguments SendHeaders {Filter}.

Section ChainSync.
Context {W SF Filter : Type} `{!WalletOps W SF Filter}.
Context (set : Event → bool).

Record Sync := mkSync {
  sy_wallets : gmap Z W;
  sy_sidechains : SF;
  sy_sidechainMu : bool;
  sy_currentLocators : list Hash;
  sy_locatorGeneration : Z;
  sy_locatorMu : bool;
  sy_events : list Event
}.

Definition set_wallet (id : Z) (w : W) (s : Sync) : Sync :=
  mkSync (<[id := w]> (sy_wallets s)) (sy_sidechains s) (sy_sidechainMu s)
    (sy_currentLocators s) (sy_locatorGeneration s) (sy_locatorMu s) (sy_events s).
Definition set_sidechains (f : SF) (s : Sync) : Sync :=
  mkSync (sy_wallets s) f (sy_sidechainMu s)
    (sy_currentLocators s) (sy_locatorGeneration s) (sy_locatorMu s) (sy_events s).
Definition set_sidechainMu (b : bool) (s : Sync) : Sync :=
  mkSync (sy_wallets s) (sy_sidechains s) b
    (sy_currentLocators s) (sy_locatorGeneration s) (sy_locatorMu s) (sy_events s).
Definition set_locatorMu (b : bool) (s : Sync) : Sync :=
  mkSync (sy_wallets s) (sy_sidechains s) (sy_sidechainMu s)
    (sy_currentLocators s) (sy_locatorGeneration s) b (sy_events s).
(** [s.currentLocators = l; s.locatorGeneration++] (a [uint]). *)
Definition set_locators (l : list Hash) (s : Sync) : Sync :=
  mkSync (sy_wallets s) (sy_sidechains s) (sy_sidechainMu s)
    l (uwrap 64 (sy_locatorGeneration s + 1)) (sy_locatorMu s) (sy_events s).
Definition set_events (f : list Event → list Event) (s : Sync) : Sync :=
  mkSync (sy_wallets s) (sy_sidechains s) (sy_sidechainMu s)
    (sy_currentLocators s) (sy_locatorGeneration s) (sy_locatorMu s) (f (sy_events s)).

Definition lockSidechain : GM Sync unit := λ s,
  if sy_sidechainMu s then (Panic, s) else (Ok tt, set_sidechainMu true s).
Definition unlockSidechain : GM Sync unit := λ s,
  if sy_sidechainMu s then (Ok tt, set_sidechainMu false s) else (Panic, s).
Definition lockLocator : GM Sync unit := λ s,
  if sy_locatorMu s then (Panic, s) else (Ok tt, set_locatorMu true s).
Definition unlockLocator : GM Sync unit := λ s,
  if sy_locatorMu s then (Ok tt, set_locatorMu false s) else (Panic, s).

(** [defer m]: [m] runs on the way out, whatever the result. *)
Definition deferred {A} (m : GM Sync unit) (k : GM Sync A) : GM Sync A := λ s,
  let '(r, s1) := k s in
  match m s1 with
  | (Ok _, s2) => (r, s2)
  | (_, s2) => (Panic, s2)
  end.

(** A call on a wallet: [nil] and unknown wallets panic. *)
Definition wallet (id : option Z) : GM Sync W := λ s,
  match id with
  | None => (Panic, s)
  | Some id => match sy_wallets s !! id with Some w => (Ok w, s) | None => (Panic, s) end
  end.

(** Calls of the wallet whose error goes on. *)
Definition call {A} (r : goerr + A) : GM Sync A :=
  match r with inl e => fail e | inr a => ret a end.

(** [order] is the order in which the map of wallets is ranged over. *)
Context (order : list Z).

Definition tips (s : Sync) : list Tip :=
  omap (λ id, (λ w, mkTip (MainChainTip w).1 (MainChainTip w).2 id) <$> sy_wallets s !! id) order.

Definition lowestWallet : GM Sync (option Z) := gets (λ s, (lowestChainTip [] (tips s)).2).

Fixpoint for_wallets (f : Z → GM Sync unit) (ids : list Z) : GM Sync unit :=
  match ids with
  | [] => ret tt
  | id :: ids' => f id ;; for_wallets f ids'
  end.

Definition addNode (n : BlockNode Filter) : GM Sync bool := λ s,
  let '(b, f) := AddBlockNode (sy_sidechains s) n in (Ok b, set_sidechains f s).

(** Return the blocks of the previous chain to the forest. *)
Fixpoint add_nodes (l : list (BlockNode Filter)) : GM Sync unit :=
  match l with
  | [] => ret tt
  | n :: l' => addNode n ;; add_nodes l'
  end.

Definition evaluateBestChain (w : W) : GM Sync (list (BlockNode Filter)) := λ s,
  let '(r, f) := EvaluateBestChain w (sy_sidechains s) in
  (match r with inl e => Err e | inr l => Ok l end, set_sidechains f s).

Definition chainSwitch (id : Z) (w : W) (chain : list (BlockNode Filter)) (m : Matching)
    : GM Sync (list (BlockNode Filter)) := λ s,
  let '(r, w', f) := ChainSwitch w (sy_sidechains s) chain m in
  (match r with inl e => Err e | inr l => Ok l end, set_wallet id w' (set_sidechains f s)).

(** Run [m]; on an error unlock the sidechain mutex and return the error. *)
Definition or_unlock {A} (m : GM Sync A) : GM Sync A :=
  let! r := try m in
  match r with
  | inl e => unlockSidechain ;; fail e
  | inr a => ret a
  end.

(** ** [getHeaders] *)

Fixpoint add_unknown (w : W) (nodes : list (BlockNode Filter)) : GM Sync unit :=
  match nodes with
  | [] => ret tt
  | n :: nodes' =>
      match BlockInMainChain w (nd_Hash n) with
      | inr true => add_unknown w nodes'
      | _ => addNode n ;; add_unknown w nodes'   (* the error is ignored *)
      end
  end.

(** What is done for one wallet with a batch of headers, [hlast] the last. *)
Definition headers_wallet (nodes : list (BlockNode Filter)) (hlast : Header) (id : Z)
    : GM Sync unit :=
  let! w := wallet (Some id) in
  lockSidechain ;;
  add_unknown w nodes ;;
  let! bestChain := or_unlock (evaluateBestChain w) in
  match bestChain with
  | [] => unlockSidechain
  | _ =>
      or_unlock (check (ValidateHeaderChainDifficulties w bestChain)) ;;
      let! prevChain := or_unlock (chainSwitch id w bestChain None) in
      (if decide (length prevChain ≠ 0) then add_nodes prevChain else ret tt) ;;
      (if decide (length bestChain = 1) then ret tt
       else modify (set_events (fetchHeadersProgress set (hd_Height hlast) (hd_Unix hlast)))) ;;
      unlockSidechain
  end.

(** Fetch the filters of the headers, concurrently in the code; one failure
    fails the group. *)
Fixpoint fetch_nodes (rp : RemotePeer Filter) (headers : list Header)
    : goerr + list (BlockNode Filter) :=
  match headers with
  | [] => inr []
  | h :: headers' =>
      match CFilter rp (hd_Hash h), fetch_nodes rp headers' with
      | inl e, _ => inl e
      | _, inl e => inl e
      | inr f, inr l => inr (mkNode h f :: l)
      end
  end.

(** New locators of the wallet, under the mutex. *)
Definition new_locators (lw : option Z) : GM Sync (list Hash) :=
  let! w := wallet lw in
  match BlockLocators w with
  | inl e => unlockLocator ;; fail e
  | inr locators => modify (set_locators locators) ;; ret locators
  end.

(** The peer has no more headers. *)
Definition headers_done (rp : RemotePeer Filter) (lw : option Z) (locators : list Hash)
    (lastHeight : Z) : GM Sync unit :=
  (if decide (lastHeight < InitialHeight rp)%Z then
     let! w := wallet lw in
     match locators with
     | [] => panic
     | l0 :: _ =>
         match BlockHeader w l0 with
         | inr h => if decide (wrap32 (hd_Height h) < InitialHeight rp)%Z
                    then fail (EKind KProtocol "peer did not provide headers through advertised height")
                    else ret tt
         | inl _ => ret tt
         end
     end
   else ret tt) ;;
  check (SendHeaders rp).

(** [fuel] bounds the number of requests. *)
Fixpoint headers_loop (fuel : nat) (rp : RemotePeer Filter) (lw : option Z) (n : nat)
    (locators : list Hash) (lastHeight : Z) : GM Sync unit :=
  match fuel with
  | O => panic
  | S fuel =>
      let! headers := call (Headers rp n locators) in
      match last headers with
      | None => headers_done rp lw locators lastHeight
      | Some hlast =>
          let! nodes := call (fetch_nodes rp headers) in
          for_wallets (headers_wallet nodes hlast) order ;;
          lockLocator ;;
          let! locators := new_locators lw in
          unlockLocator ;;
          headers_loop fuel rp lw (S n) locators (wrap32 (hd_Height hlast))
      end
  end.

Definition getHeaders (fuel : nat) (rp : RemotePeer Filter) : GM Sync unit :=
  let! lw := lowestWallet in
  lockLocator ;;
  let! locators := gets sy_currentLocators in
  let! locators :=
    match locators with
    | [] => new_locators lw
    | _ => ret locators
    end in
  unlockLocator ;;
  headers_loop fuel rp lw 0 locators 0.

(** ** [handleBlockAnnouncements] *)

(** Add the announced blocks that are not in the main chain; [None] of
    [filters] is an index out of range. *)
Fixpoint add_announced (w : W) (headers : list Header) (filters : list Filter)
    : GM Sync (list (BlockNode Filter)) :=
  match headers with
  | [] => ret []
  | h :: headers' =>
      let! haveBlock := call (BlockInMainChain w (hd_Hash h)) in
      if (haveBlock : bool) then add_announced w headers' (tl filters) else
      match filters with
      | [] => panic
      | f :: filters' =>
          let! added := addNode (mkNode h f) in
          let! rest := add_announced w headers' filters' in
          ret (if (added : bool) then mkNode h f :: rest else rest)
      end
  end.

(** [scanChain] is modelled with the filters it works on in another file. *)
Context (scanChain : list (BlockNode Filter) → Z → GM Sync (gmap Hash (list MsgTx))).

(** The closure run with the sidechain mutex held; returns [newBlocks] and
    [bestChain]. *)
Definition announce_locked (headers : list Header) (filters : list Filter) (id : Z) (w : W)
    : GM Sync (list (BlockNode Filter) * list (BlockNode Filter)) :=
  lockSidechain ;;
  let! newBlocks := add_announced w headers filters in
  let! bestChain := evaluateBestChain w in
  match last bestChain with
  | None => ret (newBlocks, bestChain)
  | Some tip =>
      check (ValidateHeaderChainDifficulties w bestChain) ;;
      let! rpt := call (RescanPoint w) in
      let! matchingTxs :=
        match rpt with
        | None => let! m := scanChain bestChain id in ret (Some m)
        | Some _ => ret None
        end in
      let! prevChain := chainSwitch id w bestChain matchingTxs in
      (if decide (length prevChain ≠ 0) then add_nodes prevChain else ret tt) ;;
      modify (set_events (tipChanged set (hd_Height (nd_Header tip))
                (wrap32 (Z.of_nat (length prevChain)))
                (snd <$> map_to_list (default ∅ matchingTxs)))) ;;
      ret (newBlocks, bestChain)
  end.

(** The blocks that end up outside the main chain are only logged. *)
Fixpoint log_sidechain (w : W) (newBlocks : list (BlockNode Filter)) : GM Sync unit :=
  match newBlocks with
  | [] => ret tt
  | n :: newBlocks' =>
      let! _ := call (BlockInMainChain w (nd_Hash n)) in log_sidechain w newBlocks'
  end.

Definition announce_wallet (headers : list Header) (filters : list Filter) (id : Z)
    : GM Sync unit :=
  let! w := wallet (Some id) in
  let! r := deferred unlockSidechain (announce_locked headers filters id w) in
  let '(newBlocks, bestChain) := (r : list (BlockNode Filter) * list (BlockNode Filter)) in
  (if decide (length bestChain ≠ 0) then
     lockLocator ;; modify (set_locators []) ;; unlockLocator
   else ret tt) ;;
  let! w := wallet (Some id) in
  log_sidechain w newBlocks.

(** [CFilters] is the call of the peer; [cancelled] is the error of the context
    when the function returns. *)
Definition handleBlockAnnouncements (CFilters : list Hash → goerr + list Filter)
    (cancelled : option goerr) (headers : list Header) : GM Sync unit :=
  let! r := try (
    match headers with
    | [] => ret tt
    | _ =>
        match CFilters (hd_Hash <$> headers) with
        | inl err => fail (default err cancelled)
        | inr filters => for_wallets (announce_wallet headers filters) order
        end
    end) in
  match r with
  | inl err => fail (match cancelled with None => EWrap KOther err | Some _ => err end)
  | inr _ => ret tt
  end.

(** ** Lemmas *)

(** [tri P m Q E]: from [P], [m] does not panic, ends in [Q] when it returns a
    value, and in [E] when it returns an error. *)
Definition tri {S A} (P : S → Prop) (m : GM S A) (Q : A → S → Prop) (E : S → Prop) : Prop :=
  ∀ s, P s → match m s with
             | (Ok a, s') => Q a s'
             | (Err _, s') => E s'
             | (Panic, _) => False
             end.

Lemma tri_bind {S A B} (P : S → Prop) (m : GM S A) (k : A → GM S B) Q R E :
  tri P m Q E → (∀ a, tri (Q a) (k a) R E) → tri P (bind m k) R E.
Proof.
  intros Hm Hk s Hs. unfold bind. specialize (Hm s Hs).
  destruct (m s) as [[a|e|] s1]; [by apply Hk|done..].
Qed.

Lemma tri_ret {S A} (P : S → Prop) (a : A) (Q : A → S → Prop) E :
  (∀ s, P s → Q a s) → tri P (ret a) Q E.
Proof. intros H s Hs. by apply H. Qed.

Lemma tri_fail {S A} (P : S → Prop) e (Q : A → S → Prop) (E : S → Prop) :
  (∀ s, P s → E s) → tri P (fail e) Q E.
Proof. intros H s Hs. by apply H. Qed.

Lemma tri_gets {S A} (f : S → A) (P : S → Prop) E : tri P (gets f) (λ a s, a = f s ∧ P s) E.
Proof. by intros s Hs. Qed.

Lemma tri_check {S} (P : S → Prop) e : tri P (check e) (λ _, P) P.
Proof. destruct e; [by apply tri_fail|by apply tri_ret]. Qed.

(** The mutexes are held as told, and the map has the wallets. *)
Definition St (sc lc : bool) (s : Sync) : Prop :=
  sy_sidechainMu s = sc ∧ sy_locatorMu s = lc ∧ ∀ id, id ∈ order → is_Some (sy_wallets s !! id).

Lemma St_wallets b c s id : St b c s → id ∈ order → ∃ w, wallet (Some id) s = (Ok w, s).
Proof.
  intros (_ & _ & H) Hid. destruct (H id Hid) as [w Hw]. exists w. simpl. by rewrite Hw.
Qed.

Lemma tri_wallet b c id E : id ∈ order → tri (St b c) (wallet (Some id)) (λ _, St b c) E.
Proof. intros Hid s Hs. by destruct (St_wallets b c s id Hs Hid) as (w & ->). Qed.

Lemma tri_addNode b c n E : tri (St b c) (addNode n) (λ _, St b c) E.
Proof. intros s Hs. unfold addNode. by destruct (AddBlockNode _ _). Qed.

Lemma tri_add_nodes b c l E : tri (St b c) (add_nodes l) (λ _, St b c) E.
Proof.
  induction l as [|n l IH]; [by apply tri_ret|].
  eapply tri_bind; [apply tri_addNode|]. by intros ?.
Qed.

Lemma tri_add_unknown b c w l E : tri (St b c) (add_unknown w l) (λ _, St b c) E.
Proof.
  induction l as [|n l IH]; [by apply tri_ret|]. simpl.
  assert (H : tri (St b c) (addNode n ;; add_unknown w l) (λ _, St b c) E).
  { eapply tri_bind; [apply tri_addNode|]. by intros ?. }
  by destruct (BlockInMainChain w _) as [|[]].
Qed.

Lemma tri_evaluate b c w : tri (St b c) (evaluateBestChain w) (λ _, St b c) (St b c).
Proof.
  intros s Hs. unfold evaluateBestChain. by destruct (EvaluateBestChain _ _) as [[e|l] f].
Qed.

Lemma tri_switch b c id w l m : tri (St b c) (chainSwitch id w l m) (λ _, St b c) (St b c).
Proof.
  intros s (H1 & H2 & H3). unfold chainSwitch.
  destruct (ChainSwitch _ _ _ _) as [[[e|l'] w'] f]; (split_and!; [done|done|]);
    intros id' Hid'; simpl; rewrite lookup_insert; case_decide; eauto.
Qed.

Lemma tri_or_unlock {A} (m : GM Sync A) :
  tri (St true false) m (λ _, St true false) (St true false) →
  tri (St true false) (or_unlock m) (λ _, St true false) (St false false).
Proof.
  intros Hm s Hs. unfold or_unlock, bind, try. specialize (Hm s Hs).
  destruct (m s) as [[a|e|] s1]; [done| |done].
  destruct Hm as (H1 & H2 & H3). unfold unlockSidechain. rewrite H1. simpl. by split_and!.
Qed.

Lemma tri_lockSidechain E : tri (St false false) lockSidechain (λ _, St true false) E.
Proof. intros s (H1 & H2 & H3). unfold lockSidechain. rewrite H1. by split_and!. Qed.
Lemma tri_unlockSidechain E : tri (St true false) unlockSidechain (λ _, St false false) E.
Proof. intros s (H1 & H2 & H3). unfold unlockSidechain. rewrite H1. by split_and!. Qed.
Lemma tri_lockLocator E : tri (St false false) lockLocator (λ _, St false true) E.
Proof. intros s (H1 & H2 & H3). unfold lockLocator. rewrite H2. by split_and!. Qed.
Lemma tri_unlockLocator E : tri (St false true) unlockLocator (λ _, St false false) E.
Proof. intros s (H1 & H2 & H3). unfold unlockLocator. rewrite H2. by split_and!. Qed.

Lemma tri_events b c f E : tri (St b c) (modify (set_events f)) (λ _, St b c) E.
Proof. by intros s Hs. Qed.

(** Whatever fails for a wallet, the sidechain mutex is free afterwards. *)
Lemma tri_headers_wallet nodes hlast id :
  id ∈ order → tri (St false false) (headers_wallet nodes hlast id)
                 (λ _, St false false) (St false false).
Proof.
  intros Hid. unfold headers_wallet.
  eapply tri_bind; [by apply tri_wallet|]. intros w.
  eapply tri_bind; [apply tri_lockSidechain|]. intros ?.
  eapply tri_bind; [apply tri_add_unknown|]. intros ?.
  eapply tri_bind; [apply tri_or_unlock, tri_evaluate|]. intros [|n bestChain].
  { apply tri_unlockSidechain. }
  eapply tri_bind; [apply tri_or_unlock, tri_check|]. intros ?.
  eapply tri_bind; [apply tri_or_unlock, tri_switch|]. intros prevChain.
  eapply tri_bind.
  { instantiate (1 := λ _, St true false). case_decide; [apply tri_add_nodes|by apply tri_ret]. }
  intros ?. eapply tri_bind; [|intros ?; apply tri_unlockSidechain].
  case_decide; [by apply tri_ret|apply tri_events].
Qed.

Lemma tri_for_wallets (f : Z → GM Sync unit) ids P E :
  (∀ id, id ∈ ids → tri P (f id) (λ _, P) E) → tri P (for_wallets f ids) (λ _, P) E.
Proof.
  induction ids as [|id ids IH]; intros H; [by apply tri_ret|].
  eapply tri_bind; [apply H; set_solver|]. intros ?. apply IH. set_solver.
Qed.

Lemma tri_call {A} (P : Sync → Prop) (r : goerr + A) : tri P (call r) (λ a s, r = inr a ∧ P s) P.
Proof. by destruct r; intros s Hs. Qed.

Lemma tri_ext {S A} (P P' : S → Prop) (m : GM S A) (Q : A → S → Prop) E :
  (∀ s, P' s → P s) → tri P m Q E → tri P' m Q E.
Proof. intros H Hm s Hs. by apply Hm, H. Qed.

Lemma tri_deferred {A} (m : GM Sync A) :
  tri (St false false) m (λ _, St true false) (St true false) →
  tri (St false false) (deferred unlockSidechain m) (λ _, St false false) (St false false).
Proof.
  intros Hm s Hs. specialize (Hm s Hs). unfold deferred, unlockSidechain.
  destruct (m s) as [[a|e|] s1]; [..|done]; destruct Hm as (H1 & H2 & H3); rewrite H1; by split_and!.
Qed.

Lemma tri_add_announced b c w headers filters :
  length headers ≤ length filters →
  tri (St b c) (add_announced w headers filters) (λ _, St b c) (St b c).
Proof.
  revert filters. induction headers as [|h headers IH]; intros filters Hl; simpl in *; [by apply tri_ret|].
  eapply tri_bind; [apply tri_call|]. intros [|].
  - eapply tri_ext; [by intros s [_ Hs]; exact Hs|]. apply IH.
    destruct filters; simpl in *; lia.
  - eapply tri_ext; [by intros s [_ Hs]; exact Hs|].
    destruct filters as [|f filters]; simpl in *; [lia|].
    eapply tri_bind; [apply tri_addNode|]. intros added.
    eapply tri_bind; [apply IH; lia|]. intros rest. by apply tri_ret.
Qed.

Lemma tri_log_sidechain b c w l :
  tri (St b c) (log_sidechain w l) (λ _, St b c) (St b c).
Proof.
  induction l as [|n l IH]; [by apply tri_ret|]. simpl.
  eapply tri_bind; [apply tri_call|]. intros ?.
  eapply tri_ext; [by intros s [_ Hs]; exact Hs|]. done.
Qed.

Lemma tri_try {S A} (P Q : S → Prop) (m : GM S A) E :
  tri P m (λ _, Q) Q → tri P (try m) (λ _, Q) E.
Proof.
  intros Hm s Hs. unfold try. specialize (Hm s Hs). by destruct (m s) as [[a|e|] s1].
Qed.

(** The scan neither panics nor touches the mutexes and the map of wallets. *)
Definition scan_ok : Prop :=
  ∀ chain id, tri (St true false) (scanChain chain id) (λ _, St true false) (St true false).

Lemma tri_announce_locked headers filters id w :
  scan_ok → length headers ≤ length filters →
  tri (St false false) (announce_locked headers filters id w)
    (λ _, St true false) (St true false).
Proof.
  intros Hscan Hl. unfold announce_locked.
  eapply tri_bind; [apply tri_lockSidechain|]. intros ?.
  eapply tri_bind; [by apply tri_add_announced|]. intros newBlocks.
  eapply tri_bind; [apply tri_evaluate|]. intros bestChain.
  destruct (last bestChain) as [tip|]; [|by apply tri_ret].
  eapply tri_bind; [apply tri_check|]. intros ?.
  eapply tri_bind; [apply tri_call|]. intros rpt.
  eapply tri_ext; [by intros s [_ Hs]; exact Hs|].
  eapply (tri_bind _ _ _ (λ _, St true false)).
  { destruct rpt; [by apply tri_ret|]. eapply tri_bind; [apply Hscan|]. intros ?. by apply tri_ret. }
  intros matching. eapply tri_bind; [apply tri_switch|]. intros prevChain.
  eapply (tri_bind _ _ _ (λ _, St true false)).
  { case_decide; [apply tri_add_nodes|by apply tri_ret]. }
  intros ?. eapply tri_bind; [apply tri_events|]. intros ?. by apply tri_ret.
Qed.

Lemma tri_announce_wallet headers filters id :
  scan_ok → length headers ≤ length filters → id ∈ order →
  tri (St false false) (announce_wallet headers filters id)
    (λ _, St false false) (St false false).
Proof.
  intros Hscan Hl Hid. unfold announce_wallet.
  eapply tri_bind; [by apply tri_wallet|]. intros w.
  eapply tri_bind; [apply tri_deferred; by apply tri_announce_locked|].
  intros [newBlocks bestChain].
  eapply (tri_bind _ _ _ (λ _, St false false)).
  { case_decide; [|by apply tri_ret].
    eapply tri_bind; [apply tri_lockLocator|]. intros ?.
    eapply (tri_bind _ _ _ (λ _, St false true)); [by intros s Hs|]. intros ?.
    apply tri_unlockLocator. }
  intros ?. eapply tri_bind; [by apply tri_wallet|]. intros w'. apply tri_log_sidechain.
Qed.

(** Announced blocks never leave the syncer locked: when the peer answers
    with a filter for each header, [handleBlockAnnouncements] returns for every
    failure of a wallet call without a panic, with both mutexes free and every
    wallet in place. *)
Theorem handleBlockAnnouncements_total (CFilters : list Hash → goerr + list Filter)
    (cancelled : option goerr) (headers : list Header) (s : Sync) :
  scan_ok → (∀ hs fs, CFilters hs = inr fs → length hs = length fs) → St false false s →
  ∃ r s', handleBlockAnnouncements CFilters cancelled headers s = (r, s') ∧ r ≠ Panic ∧
    St false false s'.
Proof.
  intros Hscan Hlen Hs.
  assert (H : tri (St false false) (handleBlockAnnouncements CFilters cancelled headers)
                (λ _, St false false) (St false false)).
  { eapply tri_bind.
    - apply tri_try. destruct headers as [|h headers]; [by apply tri_ret|].
      destruct (CFilters _) as [e|fs] eqn:E; [by apply tri_fail|].
      apply tri_for_wallets. intros id Hid. apply tri_announce_wallet; [done| |done].
      apply Hlen in E. rewrite length_fmap in E. lia.
    - intros [e|?]; [by apply tri_fail|by apply tri_ret]. }
  specialize (H s Hs). destruct (handleBlockAnnouncements _ _ _ s) as [[a|e|] s']; [..|done];
    eexists _, _; by split_and!.
Qed.

Section total.
(** Locators always hold at least the genesis block. *)
Context (Hloc : ∀ (w : W) l, BlockLocators w = inr l → l ≠ []).
Context (Hpos : ∀ w : W, (0 ≤ (MainChainTip w).2)%Z).
Context (Horder : order ≠ []).

Lemma tri_new_locators id :
  id ∈ order →
  tri (St false true) (new_locators (Some id))
    (λ l s, l ≠ [] ∧ St false true s) (St false false).
Proof.
  intros Hid. eapply tri_bind; [by apply tri_wallet|]. intros w.
  destruct (BlockLocators w) as [e|l] eqn:E.
  - eapply tri_bind; [apply tri_unlockLocator|]. intros ?. by apply tri_fail.
  - intros s Hs. split; [by eapply Hloc|exact Hs].
Qed.

Lemma tri_headers_done rp id l h :
  id ∈ order → l ≠ [] →
  tri (St false false) (headers_done rp (Some id) l h) (λ _, St false false) (St false false).
Proof.
  intros Hid Hl. eapply tri_bind; [|intros ?; apply tri_check].
  case_decide; [|by apply tri_ret].
  eapply tri_bind; [by apply tri_wallet|]. intros w. destruct l as [|l0 l]; [done|].
  destruct (BlockHeader w l0); [by apply tri_ret|].
  case_decide; [by apply tri_fail|by apply tri_ret].
Qed.

Lemma tri_headers_loop fuel rp id n k l h :
  id ∈ order → l ≠ [] → n ≤ k < n + fuel → (∀ l, Headers rp k l = inr []) →
  tri (St false false) (headers_loop fuel rp (Some id) n l h)
    (λ _, St false false) (St false false).
Proof.
  intros Hid. revert n l h.
  induction fuel as [|fuel IH]; intros n l h Hl Hn Hdry; [lia|]. cbn [headers_loop].
  eapply tri_bind; [apply tri_call|]. intros headers.
  destruct (last headers) as [hlast|] eqn:El.
  - assert (Hnk : ∀ s : Sync, Headers rp n l = inr headers ∧ St false false s →
              n ≠ k ∧ St false false s).
    { intros s [Hh Hs]. split; [|done]. intros ->. rewrite Hdry in Hh. by simplify_eq. }
    eapply tri_ext; [exact Hnk|].
    destruct (decide (n = k)) as [->|Hne]; [by intros s [? _]|].
    eapply tri_ext; [by intros s [_ Hs]; exact Hs|].
    eapply tri_bind; [apply tri_call|]. intros nodes.
    eapply tri_ext; [by intros s [_ Hs]; exact Hs|].
    eapply tri_bind; [apply tri_for_wallets; intros; by apply tri_headers_wallet|]. intros ?.
    eapply tri_bind; [apply tri_lockLocator|]. intros ?.
    eapply tri_bind; [by apply tri_new_locators|]. intros l'.
    destruct (decide (l' = [])) as [->|Hl']; [by intros s [? _]|].
    eapply tri_ext; [by intros s [_ Hs]; exact Hs|].
    eapply tri_bind; [apply tri_unlockLocator|]. intros ?. apply IH; [done|lia|done].
  - eapply tri_ext; [by intros s [_ Hs]; exact Hs|]. by apply tri_headers_done.
Qed.

Lemma lowest_in_order s :
  (∀ id, id ∈ order → is_Some (sy_wallets s !! id)) →
  ∃ id, (lowestChainTip [] (tips s)).2 = Some id ∧ id ∈ order.
Proof.
  intros Hall. destruct (chain_tips_extremal [] (tips s)) as [(t & Hin & Ht & _) _].
  - unfold tips. destruct order as [|id l]; [done|]. csimpl.
    destruct (Hall id) as [w ->]; [set_solver|]. done.
  - apply Forall_forall. intros t Ht. apply list_elem_of_omap in Ht as (id & _ & Hid).
    destruct (sy_wallets s !! id); [|done]. injection Hid as <-. apply Hpos.
  - rewrite Ht. exists (tip_wallet t). split; [done|].
    apply list_elem_of_omap in Hin as (id & Hid & Hw).
    destruct (sy_wallets s !! id); [|done]. by injection Hw as <-.
Qed.

(** How a run of [getHeaders] ends. *)
Lemma getHeaders_run (fuel k : nat) (rp : RemotePeer Filter) (s : Sync) :
  k < fuel → (∀ l, Headers rp k l = inr []) → St false false s →
  ∃ r s', getHeaders fuel rp s = (r, s') ∧ r ≠ Panic ∧ St false false s'.
Proof.
  intros Hk Hdry Hs.
  assert (H : tri (λ s', s' = s) (getHeaders fuel rp) (λ _, St false false) (St false false)).
  { eapply tri_bind; [apply tri_gets|]. intros lw.
    destruct (lowest_in_order s) as (id & Hlow & Hid); [apply Hs|].
    eapply (tri_ext (λ s', lw = Some id ∧ St false false s')).
    { intros s' [-> ->]. by rewrite Hlow. }
    destruct (decide (lw = Some id)) as [->|Hne]; [|by intros s' [? _]].
    eapply tri_ext; [by intros s' [_ Hs']; exact Hs'|].
    eapply tri_bind; [apply tri_lockLocator|]. intros ?.
    eapply tri_bind; [apply tri_gets|]. intros locators.
    eapply tri_ext; [by intros s' [_ Hs']; exact Hs'|].
    eapply (tri_bind _ _ _ (λ l s, l ≠ [] ∧ St false true s)).
    { destruct locators; [by apply tri_new_locators|]. by apply tri_ret. }
    intros l. destruct (decide (l = [])) as [->|Hl]; [by intros s' [? _]|].
    eapply tri_ext; [by intros s' [_ Hs']; exact Hs'|].
    eapply tri_bind; [apply tri_unlockLocator|]. intros ?.
    apply (tri_headers_loop _ _ _ _ k); try done. lia. }
  specialize (H s eq_refl). destruct (getHeaders fuel rp s) as [[a|e|] s']; [..|done];
    eexists _, _; by split_and!.
Qed.

(** C24. [getHeaders] ends and lets go of its mutexes: when the peer runs out
    of headers after [k] replies, whatever call fails on the way, it returns
    without a panic or a double unlock, both mutexes are free, and the wallets
    are still in place. *)
Theorem getHeaders_total (fuel k : nat) (rp : RemotePeer Filter) (s : Sync) :
  k < fuel → (∀ l, Headers rp k l = inr []) → St false false s →
  ∃ r s', getHeaders fuel rp s = (r, s') ∧ r ≠ Panic ∧ St false false s'.
Proof. exact (getHeaders_run fuel k rp s). Qed.
End total.

End ChainSync.

(** ** A small wallet, for the witnesses: its height, without filters *)
Module ToyWallet.
Definition genesis : Header := mkHeader (bs "g") [] 0 0.
Definition header1 : Header := mkHeader (bs "b1") (bs "g") 1 10.

(** A wallet at height 0 cannot read its rescan point, one at height 5 has
    blocks to rescan. *)
#[global] Instance ops : WalletOps nat unit unit := {
  MainChainTip := λ w, (bs "tip", Z.of_nat w);
  BlockInMainChain := λ _ _, inr false;
  AddBlockNode := λ f _, (true, f);
  EvaluateBestChain := λ _ f, (inr [mkNode header1 tt], f);
  ValidateHeaderChainDifficulties := λ _ _, None;
  ChainSwitch := λ w f _ _, (inr [mkNode genesis tt], S w, f);
  RescanPoint := λ w, match w with
                      | 0 => inl (ENew "db") | 5 => inr (Some (bs "b1")) | _ => inr None end;
  BlockLocators := λ _, inr [bs "g"];
  BlockHeader := λ _ _, inr genesis
}.

Definition peer : RemotePeer unit :=
  mkRemote 1 (λ n _, match n with 0 => inr [header1] | _ => inr [] end) (λ _, inr tt) None.

Definition sync0 : Sync (W := nat) (SF := unit) :=
  mkSync {[1%Z := 0; 2%Z := 3]} tt false [] 0 false [].

Lemma St_sync0 : St [1%Z; 2%Z] false false sync0.
Proof.
  split_and!; [done..|]. intros id Hid.
  apply elem_of_cons in Hid as [->|Hid]; [by eexists|].
  apply list_elem_of_singleton in Hid as ->. by eexists.
Qed.
End ToyWallet.

Lemma getHeaders_total_witness :
  ∃ r s', getHeaders (λ _, true) [1%Z; 2%Z] 2 ToyWallet.peer ToyWallet.sync0 = (r, s') ∧
    r ≠ Panic ∧ St [1%Z; 2%Z] false false s'.
Proof.
  apply (getHeaders_total (λ _, true) [1%Z; 2%Z]) with (k := 1).
  - intros w l [= <-]. discriminate.
  - intros w. simpl. lia.
  - discriminate.
  - lia.
  - reflexivity.
  - exact ToyWallet.St_sync0.
Defined.

Lemma handleBlockAnnouncements_total_witness :
  ∃ r s', handleBlockAnnouncements (λ _, true) [1%Z; 2%Z] (λ _ _, ret ∅)
            (λ hs, inr ((λ _, tt) <$> hs)) None [ToyWallet.header1] ToyWallet.sync0 = (r, s') ∧
    r ≠ Panic ∧ St [1%Z; 2%Z] false false s'.
Proof.
  apply (handleBlockAnnouncements_total (λ _, true) [1%Z; 2%Z]).
  - intros chain id s Hs. exact Hs.
  - intros hs fs [= <-]. by rewrite length_fmap.
  - exact ToyWallet.St_sync0.
Defined.
