(* ===== verification/Startup.v ===== *)
(** * [spv/sync.go]: [startupSync]

    What is done with a new peer: missing filters, headers, then, for one peer
    at a time, discovery and rescan of every wallet, last the resending of
    unmined transactions. *)
From S2P Require Import Prelude Wire Syncer ChainSync.

(** The reports of a wallet call that runs in the background: progress, until
    one carries an error. *)
Definition Progress (A : Type) : Type := list (goerr + A).

Section Startup.
Context {W SF Filter : Type} `{!WalletOps W SF Filter}.
Context (set : Event → bool) (order : list Z).

(** Calls of the wallet that reach the network; what they do to the wallet is
    not visible to the syncer. *)
Context (LoadActiveDataFilters : Z → W → option goerr).
Context (DiscoverActiveAddresses : W → Hash → bool → option goerr).
Context (Locked : W → bool).
Context (RescanProgressFromHeight : W → Z → Progress Z).

Record Startup := mkStartup {
  su_sync : Sync (W := W) (SF := SF);
  su_tryLock : bool;                  (* atomicCatchUpTryLock *)
  su_synced : gmap Z bool;            (* atomicWalletsSynced *)
  su_loaded : gset Z;                 (* loadedFilters *)
  su_published : list (list MsgTx)    (* PublishTransactions calls *)
}.

Abbreviation SM := (GM Startup).

Definition base {A} (m : GM Sync A) : SM A := λ s,
  let '(r, b) := m (su_sync s) in
  (r, mkStartup b (su_tryLock s) (su_synced s) (su_loaded s) (su_published s)).

Definition event (e : list Event → list Event) : SM unit := base (modify (set_events e)).

(** The synced flags of [Syncer.v], with the events of this state. *)
Definition flags (m : GM Flags unit) : SM unit := λ s,
  let '(r, f) := m (mkFlags (su_synced s) (sy_events (su_sync s))) in
  (r, mkStartup (set_events (λ _, fl_log f) (su_sync s)) (su_tryLock s) (fl_synced f)
        (su_loaded s) (su_published s)).

Definition set_loaded (id : Z) : SM unit :=
  modify (λ s, mkStartup (su_sync s) (su_tryLock s) (su_synced s) ({[id]} ∪ su_loaded s)
                         (su_published s)).
Definition set_tryLock (b : bool) : SM unit :=
  modify (λ s, mkStartup (su_sync s) b (su_synced s) (su_loaded s) (su_published s)).

Fixpoint each (f : Z → SM unit) (ids : list Z) : SM unit :=
  match ids with
  | [] => ret tt
  | id :: ids' => f id ;; each f ids'
  end.

Fixpoint follow {A} (f : A → SM unit) (p : Progress A) : SM unit :=
  match p with
  | [] => ret tt
  | inl e :: _ => fail e
  | inr a :: p' => f a ;; follow f p'
  end.

Definition load_filters (id : Z) (w : W) : SM unit :=
  check (LoadActiveDataFilters id w) ;; set_loaded id.

(** The closure run for each wallet while the catch-up lock is held. *)
Definition catch_up (id : Z) : SM unit :=
  let! w := base (wallet (Some id)) in
  let! rescanPoint := base (call (RescanPoint w)) in
  match rescanPoint with
  | None =>
      let! loaded := gets (λ s, bool_decide (id ∈ su_loaded s)) in
      (if negb loaded then load_filters id w else ret tt) ;;
      flags (synced set id)
  | Some rescanPoint =>
      flags (unsynced set id) ;;
      event (discoverAddressesStart set id) ;;
      check (DiscoverActiveAddresses w rescanPoint (negb (Locked w))) ;;
      event (discoverAddressesFinished set id) ;;
      load_filters id w ;;
      event (rescanStart set id) ;;
      let! rescanBlock := base (call (BlockHeader w rescanPoint)) in
      follow (λ n, event (rescanProgress set id n))
        (RescanProgressFromHeight w (wrap32 (hd_Height rescanBlock))) ;;
      event (rescanFinished set id) ;;
      flags (synced set id)
  end.

(** [for walletID, w := range s.wallets { err = func() ... }]: the error is
    that of the last wallet. *)
Fixpoint catch_up_all (ids : list Z) (err : option goerr) : SM (option goerr) :=
  match ids with
  | [] => ret err
  | id :: ids' =>
      let! r := try (catch_up id) in
      catch_up_all ids' (match r with inl e => Some e | inr _ => None end)
  end.

(** The part under the catch-up lock, skipped when another goroutine has it. *)
Definition catch_up_locked : SM unit :=
  let! held := gets su_tryLock in
  if negb held then
    set_tryLock true ;;
    let! err := catch_up_all order None in
    set_tryLock false ;;
    check err
  else ret tt.

(** ** Lemmas *)

(** The wallets and their flags are in place. *)
Definition Su (b : bool) (s : Startup) : Prop :=
  su_tryLock s = b ∧ St order false false (su_sync s) ∧
  ∀ id, id ∈ order → is_Some (su_synced s !! id).

Lemma su_call_tri {A} b c (r : goerr + A) :
  tri (λ s : Sync (W := W) (SF := SF), St order b c s) (call r) (λ _, St order b c) (St order b c).
Proof. by destruct r; intros s Hs. Qed.

(** [Su] with a fact [R] about the flags and the loaded filters. *)
Definition SuR (b : bool) (R : gmap Z bool → gset Z → Prop) (s : Startup) : Prop :=
  Su b s ∧ R (su_synced s) (su_loaded s).

Lemma su_base {A} (m : GM Sync A) b R :
  tri (St order false false) m (λ _, St order false false) (St order false false) →
  tri (SuR b R) (base m) (λ _, SuR b R) (SuR b R).
Proof.
  intros Hm s [(H1 & H2 & H3) HR]. unfold base. specialize (Hm _ H2).
  destruct (m (su_sync s)) as [[a|e|] s']; [by split_and!..|done].
Qed.

Lemma su_event b R f : tri (SuR b R) (event f) (λ _, SuR b R) (SuR b R).
Proof. apply su_base. intros s Hs. exact Hs. Qed.

Lemma su_follow {A} (f : A → SM unit) p P :
  (∀ a, tri P (f a) (λ _, P) P) → tri P (follow f p) (λ _, P) P.
Proof.
  intros Hf. induction p as [|[e|a] p IH]; [by apply tri_ret|by apply tri_fail|].
  eapply tri_bind; [apply Hf|]. by intros ?.
Qed.

Lemma su_check P e : tri (S := Startup) P (check e) (λ _, P) P.
Proof. apply tri_check. Qed.

Lemma su_flags b id (new : bool) R :
  id ∈ order → (∀ m l, R m l → R (<[id := new]> m) l) →
  tri (SuR b R) (flags ((if new then synced else unsynced) set id))
    (λ _, SuR b (λ m l, R m l ∧ m !! id = Some new)) (λ _, False).
Proof.
  intros Hid HR s [(H1 & H2 & H3) HRs]. destruct (H3 id Hid) as [c Hc].
  assert (Hf : (if new then synced else unsynced) set id =
    (let! b := cas id (negb new) new in
     if (b : bool) then notify set (Synced id new) else ret tt)) by (by destruct new).
  unfold flags. rewrite Hf. unfold bind, cas. simpl. rewrite Hc.
  destruct (decide (c = negb new)) as [->|Hne]; simpl.
  - split; [|split; [by apply HR|simpl; by rewrite lookup_insert, decide_True]].
    split_and!; [done|done|]. intros id' Hid'. simpl. rewrite lookup_insert. case_decide; eauto.
  - split; [by split_and!|]. split; [done|]. simpl. rewrite Hc. f_equal. by destruct c, new.
Qed.

Lemma su_load_filters b R id w :
  (∀ m l, R m l → R m ({[id]} ∪ l)) →
  tri (SuR b R) (load_filters id w) (λ _, SuR b (λ m l, R m l ∧ id ∈ l)) (SuR b R).
Proof.
  intros HR. eapply tri_bind; [apply su_check|]. intros ?.
  intros s [Hs Hr]. split; [done|]. split; [by apply HR|]. simpl. set_solver.
Qed.

Lemma su_weaken {A} P (Q Q' : A → Startup → Prop) (E E' : Startup → Prop) (m : SM A) :
  tri P m Q E → (∀ a s, Q a s → Q' a s) → (∀ s, E s → E' s) → tri P m Q' E'.
Proof.
  intros Hm HQ HE s Hs. specialize (Hm s Hs). destruct (m s) as [[a|e|] s']; auto.
Qed.

(** The fact that a wallet is not reported as synced. *)
Definition not_synced (id : Z) : gmap Z bool → gset Z → Prop := λ m _, m !! id = Some false.

Lemma catch_up_rescan b id w p :
  id ∈ order →
  tri (SuR b (λ _ _, True))
    (flags (unsynced set id) ;;
     event (discoverAddressesStart set id) ;;
     check (DiscoverActiveAddresses w p (negb (Locked w))) ;;
     event (discoverAddressesFinished set id) ;;
     load_filters id w ;;
     event (rescanStart set id) ;;
     let! rescanBlock := base (call (BlockHeader w p)) in
     follow (λ n, event (rescanProgress set id n))
       (RescanProgressFromHeight w (wrap32 (hd_Height rescanBlock))) ;;
     event (rescanFinished set id) ;;
     flags (synced set id))
    (λ _, SuR b (λ m l, m !! id = Some true ∧ id ∈ l)) (SuR b (not_synced id)).
Proof.
  intros Hid.
  eapply tri_bind.
  { eapply su_weaken; [apply (su_flags b id false (λ _ _, True) Hid); done| |done].
    intros a s Hs. exact Hs. }
  intros ?. eapply (tri_ext (SuR b (not_synced id))).
  { intros s [Hs [_ HR]]. by split. }
  eapply tri_bind; [apply su_event|]. intros ?.
  eapply tri_bind; [apply su_check|]. intros ?.
  eapply tri_bind; [apply su_event|]. intros ?.
  eapply tri_bind; [by apply su_load_filters|]. intros ?.
  assert (Hweak : ∀ A (m : SM A) (P : Startup → Prop) Q,
    tri P m Q (SuR b (λ m l, not_synced id m l ∧ id ∈ l)) → tri P m Q (SuR b (not_synced id))).
  { intros A m P Q H. eapply su_weaken; [exact H|done|]. by intros s [Hs [HR _]]. }
  eapply tri_bind; [apply Hweak, su_event|]. intros ?.
  eapply tri_bind.
  { apply Hweak, su_base. eapply su_call_tri. }
  intros rescanBlock.
  eapply tri_bind; [apply Hweak, su_follow; intros; apply su_event|]. intros ?.
  eapply tri_bind; [apply Hweak, su_event|]. intros ?.
  eapply (tri_ext (SuR b (λ _ l, id ∈ l))).
  { intros s [Hs [_ HR]]. by split. }
  eapply su_weaken; [by apply (su_flags b id true (λ _ l, id ∈ l) Hid)| |by intros s []].
  intros x s [Hs [HR1 HR2]]. by split_and!.
Qed.

Lemma tri_run {A} (P : Startup → Prop) (m : SM A) (Q : A → Startup → Prop) E s :
  tri P m Q E → P s →
  ∃ r s', m s = (r, s') ∧ r ≠ Panic ∧ (∀ a, r = Ok a → Q a s') ∧ (∀ e, r = Err e → E s').
Proof.
  intros Hm Hs. specialize (Hm s Hs). destruct (m s) as [[a|e|] s']; [..|done].
  - exists (Ok a), s'. split_and!; [done..| |done]. by intros a' [= <-].
  - exists (Err e), s'. split_and!; [done..|]. by intros e' [= <-].
Qed.

(** What the catch-up of one wallet does. *)
Lemma catch_up_run (b : bool) (id : Z) (w : W) (s : Startup) :
  id ∈ order → Su b s → sy_wallets (su_sync s) !! id = Some w →
  ∃ r s', catch_up id s = (r, s') ∧ r ≠ Panic ∧ Su b s' ∧
    (r = Ok tt → su_synced s' !! id = Some true ∧ id ∈ su_loaded s') ∧
    (∀ p, RescanPoint w = inr (Some p) → r ≠ Ok tt → su_synced s' !! id = Some false).
Proof.
  intros Hid Hs Hw. pose proof Hs as (Hb & Hst & Hsy).
  assert (Hwal : base (wallet (Some id)) s = (Ok w, s)).
  { unfold base. simpl. rewrite Hw. by destruct s. }
  unfold catch_up, bind at 1. rewrite Hwal. unfold bind at 1.
  destruct (RescanPoint w) as [e|[p|]] eqn:Erp; unfold base at 1; simpl.
  - eexists _, _. split; [reflexivity|]. by split_and!.
  - assert (Hs' : SuR b (λ _ _, True) s) by done.
    destruct (tri_run _ _ _ _ s (catch_up_rescan b id w p Hid) Hs') as (r & s' & Hr & Hp & Hq & He).
    destruct s as [sync tl sy ld pub]. simpl in *. exists r, s'. split; [exact Hr|].
    destruct r as [[]|e|]; [|..|done].
    + destruct (Hq tt eq_refl) as [Hsu HR]. by split_and!.
    + destruct (He e eq_refl) as [Hsu HR]. split_and!; try done.
  - destruct s as [sync tl sy ld pub]. simpl in *.
    set (s := mkStartup sync tl sy ld pub) in *.
    assert (HT : tri (λ s', s' = s)
      ((if negb (bool_decide (id ∈ ld)) then load_filters id w else ret tt) ;; flags (synced set id))
      (λ _, SuR b (λ m l, id ∈ l ∧ m !! id = Some true)) (Su b)).
    { eapply (tri_bind _ _ _ (λ _, SuR b (λ _ l, id ∈ l))).
      - case_bool_decide as Hld; simpl.
        + apply tri_ret. by intros s' ->.
        + eapply (tri_ext (SuR b (λ _ _, True))); [by intros s' ->|].
          eapply su_weaken; [by apply su_load_filters| |by intros s' []].
          intros a s' [H1 [_ H2]]. by split.
      - intros ?. eapply su_weaken; [by apply (su_flags b id true (λ _ l, id ∈ l) Hid)|done|].
        by intros s' []. }
    destruct (tri_run _ _ _ _ s HT eq_refl) as (r & s' & Hr & Hp & Hq & He).
    exists r, s'. split; [exact Hr|]. destruct r as [[]|e|]; [|..|done].
    + destruct (Hq tt eq_refl) as [Hsu [HR1 HR2]]. by split_and!.
    + specialize (He e eq_refl). by split_and!.
Qed.

(** C23. A wallet is reported as synced only when it is: if the catch-up of a
    wallet succeeds, its flag is set and its transaction filters are loaded;
    if it fails for a wallet that has blocks to rescan, its flag is cleared,
    whichever step failed. *)
Theorem catch_up_spec (b : bool) (id : Z) (w : W) (s : Startup) :
  id ∈ order → Su b s → sy_wallets (su_sync s) !! id = Some w →
  ∃ r s', catch_up id s = (r, s') ∧ r ≠ Panic ∧ Su b s' ∧
    (r = Ok tt → su_synced s' !! id = Some true ∧ id ∈ su_loaded s') ∧
    (∀ p, RescanPoint w = inr (Some p) → r ≠ Ok tt → su_synced s' !! id = Some false).
Proof. intros. by apply catch_up_run. Qed.

Lemma catch_up_tri b id : id ∈ order → tri (Su b) (catch_up id) (λ _, Su b) (Su b).
Proof.
  intros Hid s Hs. pose proof Hs as (_ & (_ & _ & Hw) & _). destruct (Hw id Hid) as [w Hwid].
  destruct (catch_up_run b id w s Hid Hs Hwid) as (r & s' & -> & Hp & Hsu & _). by destruct r.
Qed.

Lemma catch_up_all_tri b ids err :
  (∀ id, id ∈ ids → id ∈ order) → tri (Su b) (catch_up_all ids err) (λ _, Su b) (Su b).
Proof.
  revert err. induction ids as [|id ids IH]; intros err Hin; [by apply tri_ret|]. simpl.
  eapply tri_bind; [apply tri_try, catch_up_tri, Hin; set_solver|].
  intros r. apply IH. set_solver.
Qed.

(** ** The whole of it *)

Context (FetchMissingCFilters : W → Progress (Z * Z)).
Context (UnminedTransactions : W → goerr + list MsgTx).

Definition fetchMissingCFilters : SM unit :=
  each (λ id,
    let! w := base (wallet (Some id)) in
    event (fetchMissingCfiltersStart set id) ;;
    follow (λ '(a, b), event (fetchMissingCfiltersProgress set id a b)) (FetchMissingCFilters w) ;;
    event (fetchMissingCfiltersFinished set id)) order.

(** Errors are only logged. *)
Definition resend (id : Z) : SM unit :=
  let! w := base (wallet (Some id)) in
  match UnminedTransactions w with
  | inl _ | inr [] => ret tt
  | inr txs =>
      modify (λ s, mkStartup (su_sync s) (su_tryLock s) (su_synced s) (su_loaded s)
                             (su_published s ++ [txs]))
  end.

Definition startupSync (fuel : nat) (rp : RemotePeer Filter) : SM unit :=
  let! tipHeight := base (gets (λ s, (highestChainTip [] (tips order s)).1.2)) in
  if decide (InitialHeight rp < wrap32 (tipHeight - 6))%Z then
    fail (EKind KOther "peer is not synced")
  else
    fetchMissingCFilters ;;
    event (fetchHeadersStart set (InitialHeight rp)) ;;
    base (getHeaders set order fuel rp) ;;
    event (fetchHeadersFinished set) ;;
    catch_up_locked ;;
    each resend order.

(** *** Lemmas *)

Lemma su_each f ids P :
  (∀ id, id ∈ ids → tri P (f id) (λ _, P) P) → tri P (each f ids) (λ _, P) P.
Proof.
  induction ids as [|id ids IH]; intros H; [by apply tri_ret|].
  eapply tri_bind; [apply H; set_solver|]. intros ?. apply IH. set_solver.
Qed.

Lemma su_base' {A} (m : GM Sync A) b :
  tri (St order false false) m (λ _, St order false false) (St order false false) →
  tri (Su b) (base m) (λ _, Su b) (Su b).
Proof.
  intros Hm. pose proof (su_base m b (λ _ _, True) Hm) as H.
  eapply (tri_ext (SuR b (λ _ _, True))); [by intros s Hs|].
  eapply su_weaken; [exact H|by intros ? ? []|by intros ? []].
Qed.

Lemma su_event' b f : tri (Su b) (event f) (λ _, Su b) (Su b).
Proof. apply su_base'. intros s Hs. exact Hs. Qed.

Lemma su_wallet b id : id ∈ order → tri (Su b) (base (wallet (Some id))) (λ _, Su b) (Su b).
Proof. intros Hid. apply su_base'. by apply tri_wallet. Qed.

Lemma fetchMissing_tri b : tri (Su b) fetchMissingCFilters (λ _, Su b) (Su b).
Proof.
  apply su_each. intros id Hid.
  eapply tri_bind; [by apply su_wallet|]. intros w.
  eapply tri_bind; [apply su_event'|]. intros ?.
  eapply tri_bind; [apply su_follow; intros [x y]; apply su_event'|]. intros ?. apply su_event'.
Qed.

Lemma resend_tri b id : id ∈ order → tri (Su b) (resend id) (λ _, Su b) (Su b).
Proof.
  intros Hid. eapply tri_bind; [by apply su_wallet|]. intros w.
  destruct (UnminedTransactions w) as [e|[|tx txs]]; [by apply tri_ret..|]. intros s Hs. exact Hs.
Qed.

Lemma catch_up_all_Ok ids err s e : (catch_up_all ids err s).1 ≠ Err e.
Proof.
  revert err s. induction ids as [|id ids IH]; intros err s; [done|]. cbn [catch_up_all].
  unfold bind, try. destruct (catch_up id s) as [[]?]; [apply IH..|done].
Qed.

Lemma catch_up_locked_tri b : tri (Su b) catch_up_locked (λ _, Su b) (Su b).
Proof.
  eapply (tri_bind _ _ _ (λ held s, held = b ∧ Su b s)).
  { intros s Hs. split; [|done]. apply Hs. }
  intros held. destruct held; simpl; [by apply tri_ret; intros s []|].
  intros s [<- Hs]. revert s Hs. change (tri (Su false)
    (set_tryLock true ;; let! err := catch_up_all order None in set_tryLock false ;; check err)
    (λ _, Su false) (Su false)).
  assert (Hset : ∀ c d, tri (Su c) (set_tryLock d) (λ _, Su d) (Su false)).
  { intros c d s (H1 & H2 & H3). by split_and!. }
  eapply tri_bind; [apply Hset|]. intros ?.
  eapply (tri_bind _ _ _ (λ _, Su true)).
  { intros s Hs. pose proof (catch_up_all_tri true order None (λ _ Hi, Hi) s Hs) as Hcu.
    pose proof (catch_up_all_Ok order None s) as Hn.
    destruct (catch_up_all order None s) as [[x|e|] s2]; [done|by destruct (Hn e)|done]. }
  intros err. eapply tri_bind; [apply Hset|]. intros ?. apply tri_check.
Qed.

(** The catch-up lock is never leaked: [startupSync] returns without a
    panic, whatever fails, and afterwards the lock is as it was found, free for
    the next peer if it was free, and held if another goroutine holds it. *)
Theorem startupSync_lock (b : bool) (fuel k : nat) (rp : RemotePeer Filter) (s : Startup) :
  (∀ (w : W) l, BlockLocators w = inr l → l ≠ []) → (∀ w : W, (0 ≤ (MainChainTip w).2)%Z) →
  order ≠ [] → k < fuel → (∀ l, Headers rp k l = inr []) → Su b s →
  ∃ r s', startupSync fuel rp s = (r, s') ∧ r ≠ Panic ∧ Su b s'.
Proof.
  intros Hloc Hpos Hne Hk Hdry Hs.
  assert (HT : tri (Su b) (startupSync fuel rp) (λ _, Su b) (Su b)).
  { unfold startupSync. eapply tri_bind; [apply su_base'; by intros s' Hs'|]. intros h.
    case_decide; [by apply tri_fail|].
    eapply tri_bind; [apply fetchMissing_tri|]. intros ?.
    eapply tri_bind; [apply su_event'|]. intros ?.
    eapply tri_bind.
    { apply su_base'. intros s' Hs'.
      destruct (getHeaders_run set order Hloc Hpos Hne fuel k rp s' Hk Hdry Hs')
        as (r & s2 & -> & Hp & H2). by destruct r. }
    intros ?. eapply tri_bind; [apply su_event'|]. intros ?.
    eapply tri_bind; [apply catch_up_locked_tri|]. intros ?.
    apply su_each. intros id Hid. by apply resend_tri. }
  destruct (tri_run _ _ _ _ s HT Hs) as (r & s' & Hr & Hp & Hq & He).
  exists r, s'. split_and!; [done..|]. destruct r as [a|e|]; [by apply (Hq a)|by apply (He e)|done].
Qed.

(** The error of a wallet is lost when a later one succeeds: the catch-up
    of the wallets reports the last result only, so that [startupSync] goes on
    and keeps the peer although a wallet failed to rescan. *)
Theorem catch_up_error_lost (ids : list Z) (id : Z) (err earlier : option goerr)
    (s s1 s2 : Startup) :
  catch_up_all ids err s = (Ok earlier, s1) → catch_up id s1 = (Ok tt, s2) →
  catch_up_all (ids ++ [id]) err s = (Ok None, s2).
Proof.
  revert err s. induction ids as [|id' ids IH]; intros err s; simpl.
  - intros [= -> ->] H. unfold bind, try. by rewrite H.
  - unfold bind. destruct (try (catch_up id') s) as [[r|e|] s']; [apply IH|done..].
Qed.

End Startup.

(** ** Witnesses *)
Module ToyStartup.
Definition order : list Z := [1%Z; 2%Z].
Definition start : Startup (W := nat) (SF := unit) :=
  mkStartup ToyWallet.sync0 false {[1%Z := true; 2%Z := false]} ∅ [].

Lemma Su_start : Su order false start.
Proof.
  split_and!; [done|exact ToyWallet.St_sync0|]. intros id Hid.
  apply elem_of_cons in Hid as [->|Hid]; [by eexists|].
  apply list_elem_of_singleton in Hid as ->. by eexists.
Qed.

(** A wallet with blocks to rescan whose discovery fails. *)
Definition failing : Startup (W := nat) (SF := unit) :=
  mkStartup (mkSync {[1%Z := 5]} tt false [] 0 false []) false {[1%Z := true]} ∅ [].

Lemma Su_failing : Su [1%Z] false failing.
Proof.
  split_and!; [done|split_and!; [done..|]|]; intros id ->%list_elem_of_singleton; by eexists.
Qed.
End ToyStartup.

Lemma catch_up_spec_witness :
  ∃ r s', catch_up (λ _, true) (λ _ _, None) (λ _ _ _, Some (ENew "peer")) (λ _, true)
            (λ _ _, []) 1 ToyStartup.failing = (r, s') ∧
    r ≠ Ok tt ∧ su_synced s' !! 1%Z = Some false.
Proof.
  destruct (catch_up_spec (λ _, true) [1%Z] (λ _ _, None) (λ _ _ _, Some (ENew "peer"))
    (λ _, true) (λ _ _, []) false 1 5 ToyStartup.failing) as (r & s' & Hr & _ & _ & _ & He).
  - by apply list_elem_of_singleton.
  - exact ToyStartup.Su_failing.
  - reflexivity.
  - exists r, s'. split; [exact Hr|].
    assert (Hne : r ≠ Ok tt).
    { intros ->. apply (f_equal fst) in Hr. discriminate Hr. }
    split; [exact Hne|]. by apply (He (bs "b1")).
Defined.

Lemma startupSync_lock_witness :
  ∃ r s', startupSync (λ _, true) ToyStartup.order (λ _ _, None) (λ _ _ _, None)
            (λ _, true) (λ _ _, []) (λ _, []) (λ _, inr []) 2 ToyWallet.peer ToyStartup.start = (r, s') ∧
    r ≠ Panic ∧ Su ToyStartup.order false s'.
Proof.
  apply (startupSync_lock (λ _, true) ToyStartup.order) with (k := 1).
  - intros w l [= <-]. discriminate.
  - intros w. simpl. lia.
  - discriminate.
  - lia.
  - reflexivity.
  - exact ToyStartup.Su_start.
Defined.

Lemma catch_up_error_lost_witness :
  ∃ s2, catch_up_all (λ _, true) (λ _ _, None) (λ _ _ _, None) (λ _, true) (λ _ _, [])
          ([1%Z] ++ [2%Z]) None ToyStartup.start = (Ok None, s2).
Proof.
  eexists. eapply (catch_up_error_lost (λ _, true) _ _ _ _ [1%Z] 2 None (Some (ENew "db"))).
  - reflexivity.
  - reflexivity.
Defined.
