(* ===== verification/TxHelper.v ===== *)
(** * [txhelper/], [addresshelper/] and [utils/netparams.go]

    The amount and the direction of a transaction, the names of transaction
    types, output scripts and network parameters. *)
From S2P Require Import Prelude Wire.

(** ** txhelper/types.go *)
Definition TxDirectionInvalid : Z := -1.
Definition TxDirectionSent : Z := 0.
Definition TxDirectionReceived : Z := 1.
Definition TxDirectionTransferred : Z := 2.

Definition TxTypeRegular_ : string := "Regular".
Definition TxTypeCoinBase : string := "Coinbase".
Definition TxTypeTicketPurchase : string := "Ticket".
Definition TxTypeVote : string := "Vote".
Definition TxTypeRevocation : string := "Revocation".

(** ** [float64] of an [int64]

    The nearest number with a significand of 53 bits, ties to even; the result
    is an integer again. *)
Definition float64 (z : Z) : Z :=
  let a := Z.abs z in
  if decide (a < 2 ^ 53)%Z then z
  else
    let e := (Z.log2 a - 52)%Z in
    let q := (a / 2 ^ e)%Z in
    let r := (a `mod` 2 ^ e)%Z in
    let half := (2 ^ (e - 1))%Z in
    let q := if decide (half < r ∨ r = half ∧ Z.odd q = true)%Z then (q + 1)%Z else q in
    (Z.sgn z * (q * 2 ^ e))%Z.

(** ** txhelper/helper.go *)

(** The amount and the direction, from the wallet's inputs and outputs. *)
Definition TransactionAmountAndDirection (inputTotal outputTotal fee : Z) : Z * Z :=
  let amountDifference := wrap64 (outputTotal - inputTotal) in
  if decide (amountDifference < 0 ∧ float64 fee = Z.abs (float64 amountDifference))%Z then
    (fee, TxDirectionTransferred)
  else if decide (amountDifference > 0)%Z then (outputTotal, TxDirectionReceived)
  else (wrap64 (wrap64 (inputTotal - outputTotal) - fee), TxDirectionSent).

(** [wallet.TransactionType] *)
Inductive TransactionType :=
| TransactionTypeRegular | TransactionTypeCoinbase | TransactionTypeTicketPurchase
| TransactionTypeVote | TransactionTypeRevocation.

Definition FormatTransactionType (txType : TransactionType) : string :=
  match txType with
  | TransactionTypeCoinbase => TxTypeCoinBase
  | TransactionTypeTicketPurchase => TxTypeTicketPurchase
  | TransactionTypeVote => TxTypeVote
  | TransactionTypeRevocation => TxTypeRevocation
  | TransactionTypeRegular => TxTypeRegular_
  end.

(** The libraries that read transactions and addresses. *)
Class TxLib (Params Address : Type) := {
  MsgTxFromHex : string → goerr + MsgTx;
  SerializeSize : MsgTx → Z;
  TxFeeRate : MsgTx → Z * Z;
  DecodeAddress : string → Params → goerr + Address;
  PayToAddrScript : Address → goerr + bytes;
  ExtractAddrs : Params → Z → bytes → goerr + list Address;
  AddressString : Address → string          (* Address.Address() *)
}.

Section helpers.
Context {Params Address : Type} `{!TxLib Params Address}.

(** The message, its fee, size and fee rate. *)
Definition MsgTxFeeSizeRate (transactionHex : string) : goerr + (MsgTx * Z * Z * Z) :=
  match MsgTxFromHex transactionHex with
  | inl err => inl err
  | inr msgTx =>
      let size := SerializeSize msgTx in
      let '(fee, feeRate) := TxFeeRate msgTx in
      inr (msgTx, fee, size, feeRate)
  end.

(** ** addresshelper/helper.go *)
Definition scriptVersion : Z := 0.

Definition PkScript (address : string) (net : Params) : goerr + bytes :=
  match DecodeAddress address net with
  | inl _ => inl (ENew "error decoding address")
  | inr addr => PayToAddrScript addr
  end.

Definition PkScriptAddresses (params : Params) (pkScript : bytes) : goerr + list string :=
  match ExtractAddrs params scriptVersion pkScript with
  | inl err => inl err
  | inr addresses => inr (AddressString <$> addresses)
  end.

(** ** txhelper/outputs.go and txhelper/changesource.go *)
Definition MakeTxOutput (address : string) (amountInAtom : Z) (net : Params) : goerr + TxOut :=
  match PkScript address net with
  | inl err => inl err
  | inr pkScript => inr (mkTxOut amountInAtom scriptVersion pkScript)
  end.

Record txChangeSource := mkChangeSource { cs_version : Z; cs_script : bytes }.

Definition Script (src : txChangeSource) : bytes * Z := (cs_script src, cs_version src).
Definition ScriptSize (src : txChangeSource) : Z := zlen (cs_script src).

Definition MakeTxChangeSource (destAddr : string) (net : Params) : goerr + txChangeSource :=
  match PkScript destAddr net with
  | inl err => inl err
  | inr pkScript => inr (mkChangeSource scriptVersion pkScript)
  end.
End helpers.

(** ** utils/netparams.go

    [strings.ToLower] on ASCII letters. *)
Definition lower_ascii (c : Ascii.ascii) : Ascii.ascii :=
  let n := Ascii.N_of_ascii c in
  if decide (65 ≤ n ≤ 90)%N then Ascii.ascii_of_N (n + 32) else c.
Fixpoint ToLower (s : string) : string :=
  match s with
  | EmptyString => EmptyString
  | String c s' => String (lower_ascii c) (ToLower s')
  end.

(** The two networks, by the names of their parameters. *)
Definition ChainParams {Params : Type} (name : Params → string) (mainnet testnet : Params)
    (netType : string) : goerr + Params :=
  if decide (ToLower netType = ToLower (name mainnet)) then inr mainnet
  else if decide (ToLower netType = ToLower (name testnet)) then inr testnet
  else inl (ENew "invalid net type").

(** ** Theorems *)

Lemma float64_exact (z : Z) : (Z.abs z < 2 ^ 53)%Z → float64 z = z.
Proof. intros H. unfold float64. by rewrite decide_True. Qed.

(** Amounts are at most 21 million coins of 10^8 atoms. *)
Definition maxAmount : Z := 21000000 * 100000000.

Definition valid_amount (z : Z) : Prop := (0 ≤ z ≤ maxAmount)%Z.

Lemma valid_sub_exact a b :
  valid_amount a → valid_amount b → wrap64 (a - b) = (a - b)%Z ∧ float64 (a - b) = (a - b)%Z.
Proof.
  unfold valid_amount, maxAmount. intros Ha Hb. split.
  - apply wrap64_id. unfold in_int. lia.
  - apply float64_exact. lia.
Qed.

(** For amounts of coins that can exist the comparison of floating-point
    numbers is exact, nothing overflows, and the three cases are as meant: a
    transfer spends exactly the fee, a receipt is reported with what came in,
    and otherwise what was sent is what the wallet lost besides the fee. *)
Theorem TransactionAmountAndDirection_spec (inputTotal outputTotal fee : Z) :
  valid_amount inputTotal → valid_amount outputTotal → valid_amount fee →
  TransactionAmountAndDirection inputTotal outputTotal fee =
    if decide (inputTotal - outputTotal = fee ∧ 0 < fee)%Z then (fee, TxDirectionTransferred)
    else if decide (inputTotal < outputTotal)%Z then (outputTotal, TxDirectionReceived)
    else ((inputTotal - outputTotal - fee)%Z, TxDirectionSent).
Proof.
  intros Hi Ho Hf. unfold TransactionAmountAndDirection.
  destruct (valid_sub_exact _ _ Ho Hi) as [-> Hfl]. rewrite Hfl.
  destruct (valid_sub_exact _ _ Hi Ho) as [-> _].
  assert (float64 fee = fee) as ->.
  { apply float64_exact. unfold valid_amount, maxAmount in Hf. lia. }
  assert (wrap64 (inputTotal - outputTotal - fee) = (inputTotal - outputTotal - fee)%Z) as ->.
  { apply wrap64_id. unfold valid_amount, maxAmount, in_int in *. lia. }
  repeat case_decide; try lia; done.
Qed.

Lemma TransactionAmountAndDirection_spec_witness :
  TransactionAmountAndDirection 500 480 20 = (20%Z, TxDirectionTransferred).
Proof.
  rewrite (TransactionAmountAndDirection_spec 500 480 20);
    [reflexivity|unfold valid_amount, maxAmount; lia..].
Defined.

(** Beyond 2^53 the comparison is not exact: a fee and a difference that are
    not equal can be taken for a transfer. *)
Lemma float_transfer_inexact :
  TransactionAmountAndDirection (2 ^ 53 + 1) 0 (2 ^ 53) = ((2 ^ 53)%Z, TxDirectionTransferred).
Proof. reflexivity. Qed.

(** The names of the types determine the types. *)
Lemma FormatTransactionType_inj a b :
  FormatTransactionType a = FormatTransactionType b → a = b.
Proof. by destruct a, b. Qed.

(** Network names are compared without case: any spelling selects the network
    with that name. *)
Lemma ChainParams_name {Params : Type} (name : Params → string) (mainnet testnet p : Params)
    (netType : string) :
  ToLower (name mainnet) ≠ ToLower (name testnet) →
  ChainParams name mainnet testnet netType = inr p ↔
    (p = mainnet ∨ p = testnet) ∧ ToLower netType = ToLower (name p).
Proof.
  intros Hne. unfold ChainParams. repeat case_decide; split.
  - intros [= <-]. auto.
  - intros [[->| ->] Hp]; congruence.
  - intros [= <-]. auto.
  - intros [[->| ->] Hp]; congruence.
  - done.
  - intros [[->| ->] Hp]; congruence.
Qed.
