(* ===== verification/Decode.v ===== *)
(** * [decodetx.go] and [txparser.go]: wallet transactions

    From what the wallet reports of a transaction to the record that is indexed
    and shown, with the reward of a vote. *)
From S2P Require Import Prelude Wire TxHelper.

(** ** types.go *)
Record WalletInput := mkWInput {
  wi_Index : Z; wi_AmountIn : Z; wi_AccountNumber : Z; wi_AccountName : string }.
Record WalletOutput := mkWOutput {
  wo_Index : Z; wo_AmountOut : Z; wo_Internal : bool; wo_Address : string;
  wo_AccountNumber : Z; wo_AccountName : string }.

Record TxInfoFromWallet := mkTxInfo {
  ti_WalletID : Z; ti_Hex : string; ti_Timestamp : Z; ti_BlockHeight : Z;
  ti_Inputs : list WalletInput; ti_Outputs : list WalletOutput }.

Record TxInput := mkTxInput {
  in_PreviousTransactionHash : string; in_PreviousTransactionIndex : Z;
  in_PreviousOutpoint : string; in_Amount : Z;
  in_AccountName : string; in_AccountNumber : Z }.
Record TxOutput := mkTxOutput {
  out_Index : Z; out_Amount : Z; out_Version : Z; out_ScriptType : string;
  out_Address : string; out_Internal : bool;
  out_AccountName : string; out_AccountNumber : Z }.

Record Transaction := mkTransaction {
  t_WalletID : Z; t_Hash : string; t_Type : string; t_Hex : string;
  t_Timestamp : Z; t_BlockHeight : Z;
  t_Version : Z; t_LockTime : Z; t_Expiry : Z; t_Fee : Z; t_FeeRate : Z; t_Size : Z;
  t_Direction : Z; t_Amount : Z; t_Inputs : list TxInput; t_Outputs : list TxOutput;
  t_VoteVersion : Z; t_LastBlockValid : bool; t_VoteBits : string; t_VoteReward : Z;
  t_TicketSpentHash : string; t_DaysToVoteOrRevoke : Z }.

Definition set_vote (days reward : Z) (t : Transaction) : Transaction :=
  mkTransaction (t_WalletID t) (t_Hash t) (t_Type t) (t_Hex t) (t_Timestamp t) (t_BlockHeight t)
    (t_Version t) (t_LockTime t) (t_Expiry t) (t_Fee t) (t_FeeRate t) (t_Size t)
    (t_Direction t) (t_Amount t) (t_Inputs t) (t_Outputs t)
    (t_VoteVersion t) (t_LastBlockValid t) (t_VoteBits t) reward (t_TicketSpentHash t) days.

(** ** Formatting: [fmt.Sprintf("%#04x", bits)] of a [uint16], four digits
    behind the prefix. *)
Definition hex_digit (n : Z) : Ascii.ascii :=
  Ascii.ascii_of_N (Z.to_N (if decide (n < 10)%Z then n + 48 else n + 87)).
Definition hex4 (bits : Z) : string :=
  String.append "0x"
    (String (hex_digit (Z.land (Z.shiftr bits 12) 15))
    (String (hex_digit (Z.land (Z.shiftr bits 8) 15))
    (String (hex_digit (Z.land (Z.shiftr bits 4) 15))
    (String (hex_digit (Z.land bits 15)) EmptyString)))).

Definition BlockValid : Z := Z.shiftl 1 0.

(** The functions of the [stake], [txscript] and [chainhash] packages that are
    called, for the network of the wallet. *)
Class StakeLib := {
  TxTransactionType : MsgTx → TransactionType;
  StakeTxType : MsgTx → TxType;                      (* stake.DetermineTxType *)
  IsSSGen : MsgTx → bool;
  IsSSRtx : MsgTx → bool;
  SSGenVersion : MsgTx → Z;
  SSGenVoteBits : MsgTx → Z;
  IsStakeSubmissionTxOut : nat → bool;
  AddrFromSStxPkScrCommitment : bytes → goerr + string;
  StakeSubmissionTy : string;
  ScriptClassAddrs : Z → bytes → string * list string;  (* error ignored *)
  HashString : Hash → string;
  OutPointString : OutPoint → string;
  NewHashFromStr : string → goerr + Hash
}.

Section Decode.
Context {Params Address : Type} `{!TxLib Params Address} `{!StakeLib}.

(** ** decodetx.go *)

(** The first wallet input with the index. *)
Fixpoint find_input (i : Z) (l : list WalletInput) : option WalletInput :=
  match l with
  | [] => None
  | w :: l' => if decide (wi_Index w = i) then Some w else find_input i l'
  end.

Definition decodeTxInput (walletInputs : list WalletInput) (i : nat) (txIn : TxIn) : TxInput :=
  let '(name, number) :=
    match find_input (wrap32 (Z.of_nat i)) walletInputs with
    | Some w => (wi_AccountName w, wi_AccountNumber w)
    | None => ("external"%string, (-1)%Z)
    end in
  mkTxInput (HashString (op_Hash (PreviousOutPoint txIn)))
    (wrap32 (op_Index (PreviousOutPoint txIn))) (OutPointString (PreviousOutPoint txIn))
    (ValueIn txIn) name number.

Definition decodeTxInputs (mtx : MsgTx) (walletInputs : list WalletInput) : list TxInput :=
  imap (decodeTxInput walletInputs) (tx_TxIn mtx).

Fixpoint find_output (i : Z) (l : list WalletOutput) : option WalletOutput :=
  match l with
  | [] => None
  | w :: l' => if decide (wo_Index w = i) then Some w else find_output i l'
  end.

Definition decodeTxOutput (txType : TxType) (walletOutputs : list WalletOutput) (i : nat)
    (txOut : TxOut) : TxOutput :=
  let '(address, scriptType) :=
    if decide (txType = TxTypeSStx ∧ IsStakeSubmissionTxOut i = true) then
      (match AddrFromSStxPkScrCommitment (Wire.PkScript txOut) with
       | inl _ => EmptyString | inr addr => addr end, StakeSubmissionTy)
    else
      let '(class, addrs) := ScriptClassAddrs (to_Version txOut) (Wire.PkScript txOut) in
      (hd EmptyString addrs, class) in
  let index := wrap32 (Z.of_nat i) in
  match find_output index walletOutputs with
  | Some w =>
      mkTxOutput index (Value txOut) (wrap32 (to_Version txOut)) scriptType
        (wo_Address w) (wo_Internal w) (wo_AccountName w) (wo_AccountNumber w)
  | None =>
      mkTxOutput index (Value txOut) (wrap32 (to_Version txOut)) scriptType
        address false "external" (-1)
  end.

Definition decodeTxOutputs (mtx : MsgTx) (walletOutputs : list WalletOutput) : list TxOutput :=
  imap (decodeTxOutput (StakeTxType mtx) walletOutputs) (tx_TxOut mtx).

(** [ssGenVersion], [lastBlockValid], [voteBits], [ticketSpentHash]; [None] is
    the panic of [msgTx.TxIn[1]]. *)
Definition voteInfo (msgTx : MsgTx) : option (Z * bool * string * string) :=
  if IsSSGen msgTx then
    match tx_TxIn msgTx !! 1 with
    | None => None
    | Some txIn =>
        let bits := SSGenVoteBits msgTx in
        Some (SSGenVersion msgTx, bool_decide (Z.land bits (uwrap 16 BlockValid) ≠ 0%Z),
              hex4 bits, HashString (op_Hash (PreviousOutPoint txIn)))
    end
  else Some (0%Z, false, EmptyString, EmptyString).

Definition DecodeTransaction (walletTx : TxInfoFromWallet) : outcome Transaction :=
  match MsgTxFeeSizeRate (ti_Hex walletTx) with
  | inl err => Err err
  | inr (msgTx, txFee, txSize, txFeeRate) =>
      let totalWalletInput := sum64 (wi_AmountIn <$> ti_Inputs walletTx) in
      let totalWalletOutput := sum64 (wo_AmountOut <$> ti_Outputs walletTx) in
      let '(amount, direction) :=
        TransactionAmountAndDirection totalWalletInput totalWalletOutput txFee in
      match voteInfo msgTx with
      | None => Panic
      | Some (ssGenVersion, lastBlockValid, voteBits, ticketSpentHash) =>
          match (if IsSSRtx msgTx then
                   (λ i : TxIn, HashString (op_Hash (PreviousOutPoint i))) <$> tx_TxIn msgTx !! 0
                 else Some ticketSpentHash) with
          | None => Panic
          | Some ticketSpentHash =>
              Ok (mkTransaction (ti_WalletID walletTx) (HashString (TxHash msgTx))
                (FormatTransactionType (TxTransactionType msgTx)) (ti_Hex walletTx)
                (ti_Timestamp walletTx) (ti_BlockHeight walletTx)
                (wrap32 (tx_Version msgTx)) (wrap32 (LockTime msgTx)) (wrap32 (Expiry msgTx))
                txFee txFeeRate txSize direction amount
                (decodeTxInputs msgTx (ti_Inputs walletTx))
                (decodeTxOutputs msgTx (ti_Outputs walletTx))
                (wrap32 ssGenVersion) lastBlockValid voteBits 0 ticketSpentHash 0)
          end
      end
  end.

(** ** Theorems on decodetx.go *)

(** The wallet's entry for an index is unique. *)
Lemma find_input_spec i l w :
  NoDup (wi_Index <$> l) → find_input i l = Some w ↔ w ∈ l ∧ wi_Index w = i.
Proof.
  induction l as [|x l IH]; intros Hnd; simpl; [set_solver|].
  apply NoDup_cons in Hnd as [Hn Hnd]. case_decide as Hx.
  - split; [intros [= ->]; set_solver|]. intros [[->|Hin]%elem_of_cons Hw]; [done|].
    destruct Hn. rewrite Hx, <- Hw. by apply list_elem_of_fmap_2.
  - rewrite IH by done. set_solver.
Qed.

(** The decoded inputs are those of the transaction, in order, with the
    account of the wallet input with the same index, and "external" with
    number -1 exactly for the inputs the wallet does not own. *)
Theorem decodeTxInputs_spec (mtx : MsgTx) (ws : list WalletInput) (i : nat) (txIn : TxIn) :
  tx_TxIn mtx !! i = Some txIn → (Z.of_nat i < 2 ^ 31)%Z → NoDup (wi_Index <$> ws) →
  length (decodeTxInputs mtx ws) = length (tx_TxIn mtx) ∧
  ∃ inp, decodeTxInputs mtx ws !! i = Some inp ∧
    in_Amount inp = ValueIn txIn ∧
    ((∃ w, w ∈ ws ∧ wi_Index w = Z.of_nat i ∧
        in_AccountNumber inp = wi_AccountNumber w ∧ in_AccountName inp = wi_AccountName w) ∨
     ((∀ w, w ∈ ws → wi_Index w ≠ Z.of_nat i) ∧
        in_AccountNumber inp = (-1)%Z ∧ in_AccountName inp = "external"%string)).
Proof.
  intros Hi Hlt Hnd. unfold decodeTxInputs. split; [apply length_imap|].
  rewrite list_lookup_imap, Hi. eexists. split; [reflexivity|].
  unfold decodeTxInput. rewrite wrap32_id by (unfold in_int; lia).
  destruct (find_input (Z.of_nat i) ws) as [w|] eqn:E; simpl; (split; [done|]).
  - apply find_input_spec in E as [Hin Hw]; [|done]. left. by exists w.
  - right. split; [|done]. intros w Hin Hw.
    assert (find_input (Z.of_nat i) ws = Some w) by (by apply find_input_spec). congruence.
Qed.

(** Decoding adds up what the wallet reports: the totals behind the amount
    and the direction are the sums of the wallet's inputs and outputs modulo
    2^64, and a transaction without errors keeps its id, hash and hex. *)
Theorem DecodeTransaction_spec (walletTx : TxInfoFromWallet) (t : Transaction) :
  DecodeTransaction walletTx = Ok t →
  ∃ msgTx fee size feeRate,
    MsgTxFeeSizeRate (ti_Hex walletTx) = inr (msgTx, fee, size, feeRate) ∧
    (t_Amount t, t_Direction t) =
      TransactionAmountAndDirection
        (wrap64 (sumZ (wi_AmountIn <$> ti_Inputs walletTx)))
        (wrap64 (sumZ (wo_AmountOut <$> ti_Outputs walletTx))) fee ∧
    t_Hash t = HashString (TxHash msgTx) ∧ t_WalletID t = ti_WalletID walletTx ∧
    t_Hex t = ti_Hex walletTx ∧ t_Timestamp t = ti_Timestamp walletTx ∧
    (t_TicketSpentHash t = EmptyString ∨ IsSSGen msgTx = true ∨ IsSSRtx msgTx = true).
Proof.
  unfold DecodeTransaction. destruct (MsgTxFeeSizeRate _) as [e|[[[msgTx fee] size] rate]]; [done|].
  rewrite !sum64_spec. destruct (TransactionAmountAndDirection _ _ _) as [amount direction] eqn:Ea.
  unfold voteInfo. destruct (IsSSGen msgTx) eqn:Eg.
  - destruct (tx_TxIn msgTx !! 1); [|done].
    destruct (IsSSRtx msgTx) eqn:Er; [destruct (tx_TxIn msgTx !! 0); [|done]|];
      intros [= <-]; eexists _, _, _, _; (split; [reflexivity|]); simpl; by split_and!; auto.
  - destruct (IsSSRtx msgTx) eqn:Er; [destruct (tx_TxIn msgTx !! 0); [|done]|];
      intros [= <-]; eexists _, _, _, _; (split; [reflexivity|]); simpl; by split_and!; auto.
Qed.

(** ** txparser.go *)
Definition BlockHeightInvalid : Z := -1.

(** What the wallet reports of a transaction. *)
Record MyInput := mkMyInput { mi_Index : Z; mi_PreviousAccount : Z; mi_PreviousAmount : Z }.
Record MyOutput := mkMyOutput {
  mo_Index : Z; mo_Account : Z; mo_Amount : Z; mo_Internal : bool; mo_Address : string }.
Record TransactionSummary := mkSummary {
  sm_Timestamp : Z; sm_Hex : string;       (* Sprintf("%x", Transaction) *)
  sm_MyInputs : list MyInput; sm_MyOutputs : list MyOutput }.

(** The wallet: its id, block heights, account names and transactions. *)
Context (walletID : Z) (BlockInfo : Hash → goerr + Z) (AccountName : Z → string).
Context (TransactionSummary_ : Hash → goerr + (TransactionSummary * option Hash)).

Definition wallet_input (i : MyInput) : WalletInput :=
  let accountNumber := wrap32 (mi_PreviousAccount i) in
  mkWInput (wrap32 (mi_Index i)) (mi_PreviousAmount i) accountNumber (AccountName accountNumber).
Definition wallet_output (o : MyOutput) : WalletOutput :=
  let accountNumber := wrap32 (mo_Account o) in
  mkWOutput (wrap32 (mo_Index o)) (mo_Amount o) (mo_Internal o) (mo_Address o)
    accountNumber (AccountName accountNumber).

Definition tx_info (txSummary : TransactionSummary) (blockHash : option Hash) : TxInfoFromWallet :=
  let blockHeight :=
    match blockHash with
    | None => BlockHeightInvalid
    | Some h => match BlockInfo h with inl _ => BlockHeightInvalid | inr height => height end
    end in
  mkTxInfo walletID (sm_Hex txSummary) (sm_Timestamp txSummary) blockHeight
    (wallet_input <$> sm_MyInputs txSummary) (wallet_output <$> sm_MyOutputs txSummary).

(** The amounts of the wallet's own accounts. *)
Definition own_inputs (l : list TxInput) : Z :=
  sum64 (in_Amount <$> filter (λ i, in_AccountNumber i > -1)%Z l).
Definition own_outputs (l : list WalletOutput) : Z :=
  sum64 (wo_AmountOut <$> filter (λ o, wo_AccountNumber o > -1)%Z l).

(** [decodeTransactionWithTxSummary] and [GetTransactionRaw] call each other;
    [fuel] bounds the calls: a vote's ticket is no vote. *)
Fixpoint decodeTransactionWithTxSummary (fuel : nat) (txSummary : TransactionSummary)
    (blockHash : option Hash) : outcome Transaction :=
  match fuel with
  | O => Panic
  | S fuel =>
      let walletTx := tx_info txSummary blockHash in
      match DecodeTransaction walletTx with
      | Ok decodedTx =>
          if decide (t_TicketSpentHash decodedTx ≠ EmptyString) then
            match NewHashFromStr (t_TicketSpentHash decodedTx) with
            | inl err => Err err
            | inr hash =>
                match (match TransactionSummary_ hash with
                       | inl err => Err err
                       | inr (summary, bh) => decodeTransactionWithTxSummary fuel summary bh
                       end) with
                | Ok ticketPurchaseTx =>
                    let timeDifferenceInSeconds :=
                      wrap64 (t_Timestamp decodedTx - t_Timestamp ticketPurchaseTx) in
                    let ticketInvestment := own_inputs (t_Inputs ticketPurchaseTx) in
                    let ticketOutput := own_outputs (ti_Outputs walletTx) in
                    Ok (set_vote (wrap32 (Z.quot timeDifferenceInSeconds 86400))
                          (wrap64 (ticketOutput - ticketInvestment)) decodedTx)
                | r => r
                end
            end
          else Ok decodedTx
      | r => r
      end
  end.

(** transactions.go, on a hash of the right length. *)
Definition GetTransactionRaw (fuel : nat) (hash : Hash) : outcome Transaction :=
  match TransactionSummary_ hash with
  | inl err => Err err
  | inr (summary, blockHash) => decodeTransactionWithTxSummary fuel summary blockHash
  end.

(** ** Theorem on txparser.go *)

(** The reward of a vote or revocation is what came back to the wallet's
    accounts less what they paid for the ticket, modulo 2^64, and the waiting
    time is in whole days; a transaction that spends no ticket has neither.
    Two nested calls are enough for a ticket that is not itself a vote. *)
Theorem decode_vote_reward (n : nat) (summary summary' : TransactionSummary)
    (bh bh' : option Hash) (vote ticket : Transaction) (hash : Hash) :
  DecodeTransaction (tx_info summary bh) = Ok vote →
  t_TicketSpentHash vote ≠ EmptyString →
  NewHashFromStr (t_TicketSpentHash vote) = inr hash →
  TransactionSummary_ hash = inr (summary', bh') →
  DecodeTransaction (tx_info summary' bh') = Ok ticket →
  t_TicketSpentHash ticket = EmptyString →
  ∃ t, decodeTransactionWithTxSummary (S (S n)) summary bh = Ok t ∧
    t_VoteReward t =
      wrap64 (sumZ (wo_AmountOut <$>
                filter (λ o, wo_AccountNumber o > -1)%Z (ti_Outputs (tx_info summary bh)))
              - sumZ (in_Amount <$> filter (λ i, in_AccountNumber i > -1)%Z (t_Inputs ticket))) ∧
    t_DaysToVoteOrRevoke t =
      wrap32 (Z.quot (wrap64 (sm_Timestamp summary - sm_Timestamp summary')) 86400) ∧
    t_Hash t = t_Hash vote.
Proof.
  intros Hv Hs Hh Ht Hd He. cbn [decodeTransactionWithTxSummary].
  rewrite Hv, decide_True by done. rewrite Hh, Ht, Hd. rewrite decide_False by (intros Hn; by apply Hn).
  eexists. split; [reflexivity|]. simpl.
  apply DecodeTransaction_spec in Hv as (? & ? & ? & ? & _ & _ & _ & _ & _ & Htv & _).
  apply DecodeTransaction_spec in Hd as (? & ? & ? & ? & _ & _ & _ & _ & _ & Htt & _).
  rewrite Htv, Htt. simpl. split_and!; [|done|done].
  unfold own_inputs, own_outputs. by rewrite !sum64_spec, wrap_sub.
Qed.
End Decode.

(** ** Witnesses: a vote of version 2 and the ticket it spends *)
Module ToyDecode.
Definition ticket_tx : MsgTx :=
  mkMsgTx (bs "ticket") 1 [mkTxIn (mkOutPoint (bs "funds") 0 0) 100] [mkTxOut 98 0 [x01]] 0 0.
Definition vote_tx : MsgTx :=
  mkMsgTx (bs "vote") 2
    [mkTxIn (mkOutPoint (bs "base") 0 0) 5; mkTxIn (mkOutPoint (bs "ticket") 0 1) 98]
    [mkTxOut 103 0 [x01]] 0 0.

#[global] Instance tx_lib : TxLib unit string := {
  MsgTxFromHex := λ hex, inr (if decide (hex = "vote"%string) then vote_tx else ticket_tx);
  SerializeSize := λ _, 200%Z;
  TxFeeRate := λ _, (2%Z, 10%Z);
  DecodeAddress := λ a _, inr a;
  PayToAddrScript := λ a, inr (bs a);
  ExtractAddrs := λ _ _ s, inr [String.string_of_list_byte s];
  AddressString := λ a, a
}.

#[global] Instance stake_lib : StakeLib := {
  TxTransactionType := λ m, if decide (tx_Version m = 2%Z) then TransactionTypeVote
                            else TransactionTypeTicketPurchase;
  StakeTxType := λ m, if decide (tx_Version m = 2%Z) then TxTypeSSGen else TxTypeSStx;
  IsSSGen := λ m, bool_decide (tx_Version m = 2%Z);
  IsSSRtx := λ _, false;
  SSGenVersion := λ _, 8%Z;
  SSGenVoteBits := λ _, 5%Z;
  IsStakeSubmissionTxOut := λ i, bool_decide (i = 1);
  AddrFromSStxPkScrCommitment := λ s, inr (String.string_of_list_byte s);
  StakeSubmissionTy := "stakesubmission"%string;
  ScriptClassAddrs := λ _ s, ("pubkeyhash"%string, [String.string_of_list_byte s]);
  HashString := String.string_of_list_byte;
  OutPointString := λ o, String.string_of_list_byte (op_Hash o);
  NewHashFromStr := λ s, inr (bs s)
}.

Definition ticket_summary : TransactionSummary :=
  mkSummary 1000 "ticket" [mkMyInput 0 3 100] [mkMyOutput 0 3 98 false "addr"].
Definition vote_summary : TransactionSummary :=
  mkSummary 300000 "vote" [mkMyInput 1 3 98] [mkMyOutput 0 3 103 false "addr"].
Definition summaries (h : Hash) : goerr + (TransactionSummary * option Hash) :=
  if decide (h = bs "ticket") then inr (ticket_summary, None) else inl (ENew "no tx").
End ToyDecode.

Lemma decodeTxInputs_spec_witness :
  ∃ inp, decodeTxInputs ToyDecode.vote_tx [mkWInput 1 98 3 "default"] !! 1 = Some inp ∧
    in_AccountNumber inp = 3%Z.
Proof.
  destruct (decodeTxInputs_spec ToyDecode.vote_tx [mkWInput 1 98 3 "default"] 1
    (mkTxIn (mkOutPoint (bs "ticket") 0 1) 98)) as (_ & inp & Hi & _ & H).
  - reflexivity.
  - lia.
  - apply NoDup_singleton.
  - exists inp. split; [exact Hi|]. injection Hi as <-. reflexivity.
Defined.

Lemma DecodeTransaction_spec_witness :
  ∃ t, DecodeTransaction (tx_info 1 (λ _, inl (ENew "")) (λ _, EmptyString)
         ToyDecode.vote_summary None) = Ok t ∧ t_Amount t = 103%Z ∧ t_VoteBits t = "0x0005"%string.
Proof.
  eexists. split; [reflexivity|].
  edestruct (DecodeTransaction_spec (tx_info 1 (λ _, inl (ENew "")) (λ _, EmptyString)
         ToyDecode.vote_summary None)) as (m & fee & size & rate & Hm & Ha & _); [reflexivity|].
  split; [|reflexivity]. assert (fee = 2%Z) as -> by (by injection Hm).
  exact (f_equal fst Ha).
Defined.

Lemma decode_vote_reward_witness :
  ∃ t, decodeTransactionWithTxSummary 1 (λ _, inl (ENew "")) (λ _, EmptyString)
         ToyDecode.summaries 2 ToyDecode.vote_summary None = Ok t ∧
    t_VoteReward t = 3%Z ∧ t_DaysToVoteOrRevoke t = 3%Z.
Proof.
  edestruct (decode_vote_reward 1 (λ _, inl (ENew "")) (λ _, EmptyString) ToyDecode.summaries 0
    ToyDecode.vote_summary ToyDecode.ticket_summary None None) as (t & Ht & Hr & Hd & _);
    [reflexivity|discriminate|reflexivity..|].
  exists t. split; [exact Ht|]. split; [rewrite Hr|rewrite Hd]; reflexivity.
Defined.
