(* ===== verification/TxIndex.v ===== *)
(** * [txindex/], [txindex.go] and [transactions.go]: the transaction index

    The index is a storm database per wallet.  Storm is a library: the calls
    made are a typeclass with their documented laws, and an instance over
    finite maps.  [storm_view] is what is saved, by transaction hash. *)
From S2P Require Import Prelude TxHelper Decode.

(** ** txindex/filter.go *)
Definition TxFilterAll : Z := 0.
Definition TxFilterSent : Z := 1.
Definition TxFilterReceived : Z := 2.
Definition TxFilterTransferred : Z := 3.
Definition TxFilterStaking : Z := 4.
Definition TxFilterCoinBase : Z := 5.
Definition TxFilterRegular : Z := 6.

Definition TxMatchesFilter (txType : string) (txDirection txFilter : Z) : bool :=
  if decide (txFilter = TxFilterSent) then
    bool_decide (txType = TxTypeRegular_) && bool_decide (txDirection = TxDirectionSent)
  else if decide (txFilter = TxFilterReceived) then
    bool_decide (txType = TxTypeRegular_) && bool_decide (txDirection = TxDirectionReceived)
  else if decide (txFilter = TxFilterTransferred) then
    bool_decide (txType = TxTypeRegular_) && bool_decide (txDirection = TxDirectionTransferred)
  else if decide (txFilter = TxFilterStaking) then
    bool_decide (txType ≠ TxTypeRegular_) && bool_decide (txType ≠ TxTypeCoinBase)
  else if decide (txFilter = TxFilterCoinBase) then bool_decide (txType = TxTypeCoinBase)
  else if decide (txFilter = TxFilterRegular) then bool_decide (txType = TxTypeRegular_)
  else if decide (txFilter = TxFilterAll) then true
  else false.

(** The matchers of package [q] that are built. *)
Inductive Matcher :=
| EqType (v : string)         (* q.Eq("Type", v) *)
| EqDirection (v : Z)         (* q.Eq("Direction", v) *)
| NotM (ms : list Matcher)    (* q.Not(ms...) *)
| TrueM.                      (* q.True() *)

(** The arguments of [Select]. *)
Definition prepareTxQuery (txFilter : Z) : list Matcher :=
  if decide (txFilter = TxFilterSent) then [EqType TxTypeRegular_; EqDirection TxDirectionSent]
  else if decide (txFilter = TxFilterReceived) then
    [EqType TxTypeRegular_; EqDirection TxDirectionReceived]
  else if decide (txFilter = TxFilterTransferred) then
    [EqType TxTypeRegular_; EqDirection TxDirectionTransferred]
  else if decide (txFilter = TxFilterStaking) then
    [NotM [EqType TxTypeRegular_; EqType TxTypeCoinBase]]
  else if decide (txFilter = TxFilterCoinBase) then [EqType TxTypeCoinBase]
  else if decide (txFilter = TxFilterRegular) then [EqType TxTypeRegular_]
  else [TrueM].

(** ** Storm *)
Definition ErrNotFound : goerr := ELib "storm.ErrNotFound".

(** [storm_get] and [storm_set] are on the keys of bucket [TxBucketName]. *)
Class Storm (S : Type) := {
  storm_new : S;
  storm_get : S → string → goerr + Z;
  storm_set : S → string → Z → option goerr * S;
  storm_one : S → string → goerr + Transaction;        (* One("Hash", h, ...) *)
  storm_delete : S → Transaction → S;                  (* DeleteStruct, error ignored *)
  storm_save : S → Transaction → option goerr * S;
  storm_drop : S → option goerr * S;
  storm_init : S → option goerr * S;                   (* Init(&Transaction{}) *)
  storm_view : S → gmap string Transaction;
  storm_match : Matcher → Transaction → bool;
  (* Select(ms...).Skip(skip).Limit(limit).OrderBy("Timestamp"), maybe Reverse() *)
  storm_find : S → list Matcher → option nat → option nat → bool → goerr + list Transaction;
  storm_count : S → list Matcher → goerr + Z
}.

(** Timestamps in the order asked for. *)
Definition ts_before (newestFirst : bool) (a b : Transaction) : Prop :=
  if newestFirst then (t_Timestamp b ≤ t_Timestamp a)%Z else (t_Timestamp a ≤ t_Timestamp b)%Z.

(** A write that fails is rolled back by the transaction around it. *)
Class StormLaws (S : Type) `{!Storm S} := {
  set_get s k v s' : storm_set s k v = (None, s') →
    storm_get s' k = inr v ∧ (∀ k', k' ≠ k → storm_get s' k' = storm_get s k') ∧
    storm_view s' = storm_view s;
  set_err s k v e s' : storm_set s k v = (Some e, s') → s' = s;
  one_view s h t : storm_one s h = inr t ↔ storm_view s !! h = Some t;
  view_hash s h t : storm_view s !! h = Some t → t_Hash t = h;
  delete_view s t : storm_view (storm_delete s t) = delete (t_Hash t) (storm_view s);
  delete_get s t k : storm_get (storm_delete s t) k = storm_get s k;
  save_view s t s' : storm_save s t = (None, s') →
    storm_view s' = <[t_Hash t := t]> (storm_view s);
  save_get s t e s' k : storm_save s t = (e, s') → storm_get s' k = storm_get s k;
  save_err s t e s' : storm_save s t = (Some e, s') → s' = s;
  new_view : storm_view storm_new = ∅;
  new_get k : storm_get storm_new k = inl ErrNotFound;
  init_view s e s' : storm_init s = (e, s') → storm_view s' = storm_view s;
  init_get s e s' k : storm_init s = (e, s') → storm_get s' k = storm_get s k;
  drop_view s s' : storm_drop s = (None, s') → storm_view s' = ∅;
  match_type v t : storm_match (EqType v) t = bool_decide (t_Type t = v);
  match_direction v t : storm_match (EqDirection v) t = bool_decide (t_Direction t = v);
  match_not ms t : storm_match (NotM ms) t = forallb (λ m, negb (storm_match m t)) ms;
  match_true t : storm_match TrueM t = true;
  find_ok s ms skip limit rv l : storm_find s ms skip limit rv = inr l →
    ∃ L, L ≡ₚ filter (λ t, forallb (λ m, storm_match m t) ms = true)
                     (map_to_list (storm_view s)).*2 ∧
      StronglySorted (ts_before rv) L ∧
      l = match limit with Some n => take n (drop (default 0 skip) L)
                         | None => drop (default 0 skip) L end;
  find_none s ms skip limit rv : storm_find s ms skip limit rv = inl ErrNotFound →
    ∃ L, L ≡ₚ filter (λ t, forallb (λ m, storm_match m t) ms = true)
                     (map_to_list (storm_view s)).*2 ∧
      StronglySorted (ts_before rv) L ∧
      match limit with Some n => take n (drop (default 0 skip) L)
                     | None => drop (default 0 skip) L end = []
}.

Section TxIndex.
Context {S : Type} `{!Storm S}.

(** ** txindex/read.go *)
Definition KeyEndBlock : string := "EndBlock".
Definition KeyDbVersion : string := "DbVersion".
Definition TxDbVersion : Z := 1.
Definition MaxReOrgBlocks : Z := 6.

Definition ReadIndexingStartBlock : GM S Z := λ s,
  match storm_get s KeyEndBlock with
  | inl err =>
      if decide (err ≠ ErrNotFound) then (Err err, s)
      else (Ok (if decide (wrap32 (0 - MaxReOrgBlocks) < 0)%Z then 0%Z
                else wrap32 (0 - MaxReOrgBlocks)), s)
  | inr h =>
      let startBlockHeight := wrap32 (h - MaxReOrgBlocks) in
      (Ok (if decide (startBlockHeight < 0)%Z then 0%Z else startBlockHeight), s)
  end.

Definition Read (offset limit txFilter : Z) (newestFirst : bool) : GM S (list Transaction) := λ s,
  let skip := if decide (offset > 0)%Z then Some (Z.to_nat offset) else None in
  let lim := if decide (limit > 0)%Z then Some (Z.to_nat limit) else None in
  match storm_find s (prepareTxQuery txFilter) skip lim newestFirst with
  | inl err => if decide (err ≠ ErrNotFound) then (Err err, s) else (Ok [], s)
  | inr l => (Ok l, s)
  end.

(** The count with the error, as the pair that is returned. *)
Definition Count (txFilter : Z) (s : S) : Z * option goerr :=
  match storm_count s (prepareTxQuery txFilter) with
  | inl err => ((-1)%Z, Some err)
  | inr count => (count, None)
  end.

(** ** txindex/save.go *)

(** [overwritten] and the error. *)
Definition SaveOrUpdate (tx : Transaction) : GM S bool := λ s,
  match (match storm_one s (t_Hash tx) with
         | inl err => if decide (err ≠ ErrNotFound) then None else Some (false, s)
         | inr old => if decide (t_Timestamp old > 0)%Z then Some (true, storm_delete s old)
                      else Some (false, s)
         end) with
  | None => (Err (ENew "error checking if tx was already indexed"), s)
  | Some (overwritten, s) =>
      match storm_save s tx with
      | (None, s) => (Ok overwritten, s)
      | (Some err, s) => (Err err, s)
      end
  end.

Definition SaveLastIndexPoint (endBlockHeight : Z) : GM S unit := λ s,
  match storm_set s KeyEndBlock endBlockHeight with
  | (None, s) => (Ok tt, s)
  | (Some _, s) => (Err (ENew "error setting block height for last indexed tx"), s)
  end.

Definition ClearSavedTransactions : GM S unit :=
  let! err := (λ s, let '(e, s') := storm_drop s in (Ok e, s')) in
  check err ;;
  SaveLastIndexPoint 0.

(** ** txindex.go *)

(** A block of the wallet: the height of its header, nil for unmined
    transactions, and its transactions as the wallet reports them. *)
Record Block (Summary : Type) := mkBlock {
  bk_Header : option Z;
  bk_Transactions : list Summary
}.

Section indexing.
Context {Summary : Type} (decode : Summary → option Z → outcome Transaction).
Context (cancelled : nat → option goerr).

Fixpoint index_txs (header : option Z) (txs : list Summary) : GM S unit :=
  match txs with
  | [] => ret tt
  | tx :: txs' =>
      let! t := (λ s, (decode tx header, s)) in
      SaveOrUpdate t ;;
      index_txs header txs'
  end.

(** Whether to stop; [n] numbers the calls, for the state of the context.
    Stopping comes with the error of the context. *)
Definition rangeFn (n : nat) (block : Block Summary) : GM S unit :=
  index_txs (bk_Header _ block) (bk_Transactions _ block) ;;
  match bk_Header _ block with
  | Some height => SaveLastIndexPoint (wrap32 height)
  | None => ret tt
  end ;;
  check (cancelled n).

(** [wallet.internal.GetTransactions] calls [rangeFn] for each block of the
    range in order, until it fails. *)
Fixpoint range_blocks (n : nat) (blocks : list (Block Summary)) : GM S unit :=
  match blocks with
  | [] => ret tt
  | b :: blocks' => rangeFn n b ;; range_blocks (Datatypes.S n) blocks'
  end.

(** [blocks_between] are the blocks of the wallet in a range of heights. *)
Definition IndexTransactions (blocks_between : Z → Z → list (Block Summary)) (bestBlock : Z)
    : GM S unit :=
  let! beginHeight := ReadIndexingStartBlock in
  range_blocks 0 (blocks_between beginHeight bestBlock).

Definition reindexTransactions (blocks_between : Z → Z → list (Block Summary)) (bestBlock : Z)
    : GM S unit :=
  ClearSavedTransactions ;; IndexTransactions blocks_between bestBlock.
End indexing.

(** ** transactions.go *)

(** The loop over the wallets in the order of the map.  An error ends the call
    with an empty result and no error: [None]. *)
Fixpoint read_wallets (offset limit txFilter : Z) (newestFirst : bool) (wallets : list S)
    : option (list Transaction) :=
  match wallets with
  | [] => Some []
  | w :: wallets' =>
      match Read offset limit txFilter newestFirst w with
      | (Ok l, _) =>
          match read_wallets offset limit txFilter newestFirst wallets' with
          | Some l' => Some (l ++ l')
          | None => None
          end
      | _ => None
      end
  end.

(** [sort] is [sort.Slice] with the comparison of timestamps. *)
Definition GetTransactions (sort : bool → list Transaction → list Transaction)
    (offset limit txFilter : Z) (newestFirst : bool) (wallets : list S)
    : option (list Transaction) :=
  match read_wallets offset limit txFilter newestFirst wallets with
  | None => None
  | Some transactions =>
      let transactions := sort newestFirst transactions in
      Some (if decide (zlen transactions > limit ∧ limit > 0)%Z
            then take (Z.to_nat limit) transactions else transactions)
  end.

Definition TicketHasVotedOrRevoked (find : string → goerr + Transaction) (ticketHash : string)
    : goerr + bool :=
  match find ticketHash with
  | inl err => if decide (err = ErrNotFound) then inr false else inl err
  | inr _ => inr true
  end.

(** ** txindex/db.go

    The file at [dbPath] and the number of databases opened on it that nobody
    closed.  The failures of the file system are arguments. *)
Record FS := mkFS { file : option S; open_handles : nat }.

(** How [os.Stat], [storm.Open] and [os.RemoveAll] fail, if they do. *)
Record IOFaults := mkFaults {
  stat_fails : option goerr; open_fails : option goerr; remove_fails : option goerr }.

Definition ErrTimeout : goerr := ELib "bolt.ErrTimeout".

(** Write to the open database. *)
Definition on_file {A} (m : S → A * S) : FS → A * FS := λ fs,
  let '(a, db) := m (default storm_new (file fs)) in (a, mkFS (Some db) (open_handles fs)).

Definition openOrCreateDB (io : IOFaults) : GM FS unit := λ fs,
  let isNewDbFile := bool_decide (file fs = None) in
  match stat_fails io with
  | Some _ => (Err (ENew "error checking tx index database file"), fs)
  | None =>
      match open_fails io with
      | Some err =>
          (Err (ENew (if decide (err = ErrTimeout)
                      then "tx index database is in use by another process"
                      else "error opening tx index database")), fs)
      | None =>
          let fs := mkFS (Some (default storm_new (file fs))) (open_handles fs + 1) in
          if isNewDbFile then
            let '(err, fs) := on_file (λ db, storm_set db KeyDbVersion TxDbVersion) fs in
            match err with
            | Some _ => (Err (ENew "error initializing tx index db"), mkFS None (open_handles fs))
            | None => (Ok tt, fs)
            end
          else (Ok tt, fs)
      end
  end.

(** A version that is not there reads as 0. *)
Definition ensureDatabaseVersion (io : IOFaults) : GM FS unit := λ fs,
  match storm_get (default storm_new (file fs)) KeyDbVersion with
  | inl err =>
      if decide (err ≠ ErrNotFound) then
        (Err (ENew "error checking tx index database version"), fs)
      else if decide (0%Z ≠ TxDbVersion) then
        match remove_fails io with
        | Some _ => (Err (ENew "error deleting outdated tx index database"), fs)
        | None => openOrCreateDB io (mkFS None (open_handles fs))
        end
      else (Ok tt, fs)
  | inr currentDbVersion =>
      if decide (currentDbVersion ≠ TxDbVersion) then
        match remove_fails io with
        | Some _ => (Err (ENew "error deleting outdated tx index database"), fs)
        | None => openOrCreateDB io (mkFS None (open_handles fs))
        end
      else (Ok tt, fs)
  end.

Definition Initialize (io : IOFaults) : GM FS unit :=
  openOrCreateDB io ;;
  ensureDatabaseVersion io ;;
  let! err := (λ fs, let '(e, fs) := on_file storm_init fs in (Ok e, fs)) in
  match err with
  | Some _ => fail (ENew "error initializing tx database for wallet")
  | None => ret tt
  end.

(** ** Theorems *)
Context `{!StormLaws S}.

(** The query of the database and the test on a single transaction agree:
    for every known filter, the index returns the transactions that
    [TxMatchesFilter] accepts.  They disagree on any other number, which the
    query takes for all and the test for none. *)
Theorem filter_agrees (t : Transaction) (txFilter : Z) :
  forallb (λ m, storm_match m t) (prepareTxQuery txFilter) =
    if decide (0 ≤ txFilter ≤ 6)%Z
    then TxMatchesFilter (t_Type t) (t_Direction t) txFilter else true.
Proof.
  unfold prepareTxQuery, TxMatchesFilter, TxFilterSent, TxFilterReceived, TxFilterTransferred,
    TxFilterStaking, TxFilterCoinBase, TxFilterRegular, TxFilterAll.
  destruct (decide (0 ≤ txFilter ≤ 6)%Z) as [Hr|Hr].
  - assert (Hv : txFilter ∈ [0; 1; 2; 3; 4; 5; 6]%Z) by (rewrite !elem_of_cons; lia).
    rewrite !elem_of_cons, elem_of_nil in Hv.
    destruct_or! Hv; subst txFilter; simpl;
      rewrite ?match_not, ?match_true; simpl;
      rewrite ?match_type, ?match_direction, ?andb_true_r; try done.
    by rewrite !bool_decide_not.
  - rewrite !decide_False by lia. simpl. by rewrite match_true.
Qed.

(** Saving a transaction inserts it in the index, or replaces the one with
    the same hash, and changes no other; "overwritten" is reported exactly when
    a transaction with a timestamp was there.  The last index point stays. *)
Theorem SaveOrUpdate_spec (tx : Transaction) (s s' : S) (overwritten : bool) :
  SaveOrUpdate tx s = (Ok overwritten, s') →
  storm_view s' = <[t_Hash tx := tx]> (storm_view s) ∧
  (overwritten = true ↔ ∃ old, storm_view s !! t_Hash tx = Some old ∧ (t_Timestamp old > 0)%Z) ∧
  ∀ k, storm_get s' k = storm_get s k.
Proof.
  unfold SaveOrUpdate. destruct (storm_one s (t_Hash tx)) as [err|old] eqn:E.
  - case_decide as Herr; [done|]. destruct (storm_save s tx) as [[e|] s1] eqn:Es; [done|].
    intros [= <- <-]. split_and!; [by apply save_view| |by intros k; eapply save_get].
    split; [done|]. intros (old & Hold & _). apply one_view in Hold. congruence.
  - apply one_view in E as Ho. pose proof (view_hash _ _ _ Ho) as Hh. case_decide as Hts.
    + destruct (storm_save (storm_delete s old) tx) as [[e|] s1] eqn:Es; [done|].
      intros [= <- <-]. split_and!.
      * rewrite (save_view _ _ _ Es), delete_view, Hh. apply insert_delete_eq.
      * split; [|done]. intros _. by exists old.
      * intros k. by rewrite (save_get _ _ _ _ k Es), delete_get.
    + destruct (storm_save s tx) as [[e|] s1] eqn:Es; [done|].
      intros [= <- <-]. split_and!; [by apply save_view| |by intros k; eapply save_get].
      split; [done|]. intros (old' & Hold & ?). by simplify_eq.
Qed.

Lemma ensure_version_cases (io : IOFaults) (fs fs' : FS) :
  ensureDatabaseVersion io fs = (Ok tt, fs') →
  (fs' = fs ∧ storm_get (default storm_new (file fs)) KeyDbVersion = inr TxDbVersion) ∨
  (storm_get (default storm_new (file fs)) KeyDbVersion ≠ inr TxDbVersion ∧
   openOrCreateDB io (mkFS None (open_handles fs)) = (Ok tt, fs')).
Proof.
  unfold ensureDatabaseVersion. destruct (storm_get _ _) as [err|v] eqn:Eg.
  - case_decide; [done|]. rewrite decide_True by done.
    destruct (remove_fails io); [done|]. intros ?. by right.
  - case_decide as Hv; [destruct (remove_fails io); [done|]; intros ?; right; split; congruence|].
    intros [= <-]. left. split; [done|]. f_equal. destruct (decide (v = TxDbVersion)); done.
Qed.

Lemma openOrCreateDB_cases (io : IOFaults) (fs fs' : FS) :
  openOrCreateDB io fs = (Ok tt, fs') →
  open_handles fs' = open_handles fs + 1 ∧
  match file fs with
  | Some db => file fs' = Some db
  | None => ∃ db, file fs' = Some db ∧ storm_get db KeyDbVersion = inr TxDbVersion ∧
                  storm_view db = ∅ ∧
                  ∀ k, k ≠ KeyDbVersion → storm_get db k = inl ErrNotFound
  end.
Proof.
  unfold openOrCreateDB. destruct (stat_fails io); [done|]. destruct (open_fails io); [done|].
  destruct (file fs) as [db|] eqn:Ef.
  - rewrite bool_decide_false by done. intros [= <-]. simpl. done.
  - rewrite bool_decide_true by done. unfold on_file. simpl.
    destruct (storm_set storm_new KeyDbVersion TxDbVersion) as [[e|] db] eqn:Es; [done|].
    intros [= <-]. simpl. split; [done|]. exists db.
    destruct (set_get _ _ _ _ Es) as (Hg & Ho & Hv). split_and!; [done..| |].
    + by rewrite Hv, new_view.
    + intros k Hk. by rewrite Ho, new_get.
Qed.

(** Opening the index of a wallet gives a database of the current version.
    A file of this version is opened as it is, transactions and index point
    kept; any other (an older version, or none set) is replaced by an empty
    one, so that indexing starts again from block 0.  The handle of the file
    that is replaced is never closed. *)
Theorem Initialize_spec (io : IOFaults) (fs fs' : FS) :
  Initialize io fs = (Ok tt, fs') →
  ∃ db', file fs' = Some db' ∧ storm_get db' KeyDbVersion = inr TxDbVersion ∧
    let current := match file fs with
                   | Some db => bool_decide (storm_get db KeyDbVersion = inr TxDbVersion)
                   | None => true end in
    (match file fs with
     | Some db => if current then storm_view db' = storm_view db ∧
                                  storm_get db' KeyEndBlock = storm_get db KeyEndBlock
                  else storm_view db' = ∅ ∧ storm_get db' KeyEndBlock = inl ErrNotFound
     | None => storm_view db' = ∅ ∧ storm_get db' KeyEndBlock = inl ErrNotFound
     end) ∧
    open_handles fs' = open_handles fs + (if current then 1 else 2).
Proof.
  unfold Initialize. intros H. inv_bind H. inv_bind H. inv_bind H.
  destruct a, a0. apply openOrCreateDB_cases in Hm as [Hh1 Hf1].
  unfold on_file in Hm1. destruct (storm_init (default storm_new (file s0))) as [e db'] eqn:Ei.
  injection Hm1 as <- <-. destruct e as [e|]; [done|]. injection H as <-. simpl.
  exists db'. pose proof (init_view _ _ _ Ei) as Hiv.
  pose proof (λ k, init_get _ _ _ k Ei) as Hig. split; [done|]. rewrite !Hig, Hiv.
  assert (Hfresh : ∀ fs, openOrCreateDB io (mkFS None (open_handles fs)) = (Ok tt, s0) →
    open_handles s0 = open_handles fs + 1 ∧
    storm_get (default storm_new (file s0)) KeyDbVersion = inr TxDbVersion ∧
    storm_view (default storm_new (file s0)) = ∅ ∧
    storm_get (default storm_new (file s0)) KeyEndBlock = inl ErrNotFound).
  { intros f Hf. apply openOrCreateDB_cases in Hf as [Hh (db & -> & ? & ? & Ho)].
    split_and!; try done. by apply Ho. }
  destruct (file fs) as [db|].
  - apply ensure_version_cases in Hm0 as [[-> Hv]|[Hv Hf]].
    + rewrite Hf1 in *. simpl in *. rewrite bool_decide_true by done.
      split_and!; done.
    + rewrite Hf1 in Hv. simpl in Hv. rewrite bool_decide_false by done.
      apply Hfresh in Hf as (? & ? & ? & ?). split_and!; try done. lia.
  - destruct Hf1 as (db & Hdb & Hver & Hview & Hget).
    apply ensure_version_cases in Hm0 as [[-> Hv]|[Hv Hf]].
    + rewrite Hdb in *. simpl in *. split_and!; try done. by apply Hget.
    + rewrite Hdb in Hv. done.
Qed.

(** *** Indexing *)
Section indexing_spec.
Context {Summary : Type} (decode : Summary → option Z → outcome Transaction).
Context (cancelled : nat → option goerr).

(** Every transaction of a block can be decoded. *)
Definition decodes (b : Block Summary) : Prop :=
  Forall (λ tx, ∃ t, decode tx (bk_Header _ b) = Ok t) (bk_Transactions _ b).

(** The transactions of a block that can be decoded, which [index_txs] saves
    up to the first that cannot. *)
Definition decodable_txs (b : Block Summary) : list Transaction :=
  omap (λ tx, match decode tx (bk_Header _ b) with Ok t => Some t | _ => None end)
       (bk_Transactions _ b).

(** The index point after these blocks. *)
Definition index_point (blocks : list (Block Summary)) (start : goerr + Z) : goerr + Z :=
  foldl (λ p b, match bk_Header _ b with Some h => inr (wrap32 h) | None => p end) start blocks.

(** [s'] differs from [s] by some of these transactions, and still has the
    ones that were there and have another hash. *)
Definition saved_only (txs : list Transaction) (s s' : S) : Prop :=
  ∀ h, h ∉ t_Hash <$> txs → storm_view s' !! h = storm_view s !! h.

Lemma SaveOrUpdate_frame (tx : Transaction) (s s' : S) (r : outcome bool) :
  SaveOrUpdate tx s = (r, s') →
  saved_only [tx] s s' ∧ (∀ k, storm_get s' k = storm_get s k) ∧ r ≠ Panic.
Proof.
  unfold SaveOrUpdate, saved_only. intros H.
  assert (Hsave : ∀ s0, storm_get s0 = storm_get s0) by done.
  destruct (storm_one s (t_Hash tx)) as [err|old] eqn:E.
  - case_decide; [by injection H as <- <-|].
    destruct (storm_save s tx) as [[e|] s1] eqn:Es; injection H as <- <-.
    + apply save_err in Es as ->. done.
    + split_and!; [|by intros k; eapply save_get|done]. intros h Hh.
      rewrite (save_view _ _ _ Es). apply lookup_insert_ne. set_solver.
  - apply one_view in E as Ho. pose proof (view_hash _ _ _ Ho) as Hold. case_decide.
    + destruct (storm_save (storm_delete s old) tx) as [[e|] s1] eqn:Es; injection H as <- <-.
      * apply save_err in Es as ->. split_and!; [|by intros k; rewrite delete_get|done].
        intros h Hh. rewrite delete_view. apply lookup_delete_ne. set_solver.
      * split_and!; [|by intros k; rewrite (save_get _ _ _ _ k Es), delete_get|done].
        intros h Hh. rewrite (save_view _ _ _ Es), delete_view.
        rewrite lookup_insert_ne, lookup_delete_ne by set_solver. done.
    + destruct (storm_save s tx) as [[e|] s1] eqn:Es; injection H as <- <-.
      * apply save_err in Es as ->. done.
      * split_and!; [|by intros k; eapply save_get|done]. intros h Hh.
        rewrite (save_view _ _ _ Es). apply lookup_insert_ne. set_solver.
Qed.

Lemma saved_only_trans (l1 l2 : list Transaction) (s1 s2 s3 : S) :
  saved_only l1 s1 s2 → saved_only l2 s2 s3 → saved_only (l1 ++ l2) s1 s3.
Proof.
  unfold saved_only. intros H1 H2 h Hh. rewrite fmap_app, elem_of_app in Hh.
  rewrite H2, H1 by tauto. done.
Qed.

Lemma saved_only_weaken (l l' : list Transaction) (s1 s2 : S) :
  l ⊆ l' → saved_only l s1 s2 → saved_only l' s1 s2.
Proof.
  unfold saved_only. intros Hl H h Hh. apply H. intros (t & -> & Ht)%list_elem_of_fmap.
  apply Hh, list_elem_of_fmap. eauto.
Qed.

(** The transactions that are in the index as they are. *)
Definition all_saved (txs : list Transaction) (s : S) : Prop :=
  Forall (λ t, storm_view s !! t_Hash t = Some t) txs.

Lemma all_saved_frame (l l' : list Transaction) (s s' : S) :
  (∀ t, t ∈ l → t_Hash t ∉ t_Hash <$> l') → saved_only l' s s' → all_saved l s → all_saved l s'.
Proof.
  unfold all_saved, saved_only. rewrite !Forall_forall. intros Hd Hs H t Ht.
  rewrite Hs by auto. auto.
Qed.

Lemma index_txs_spec (header : option Z) (txs : list Summary) (s s' : S) (r : outcome unit) :
  index_txs decode header txs s = (r, s') →
  let new := decodable_txs (mkBlock _ header txs) in
  saved_only new s s' ∧ (∀ k, storm_get s' k = storm_get s k) ∧
  (r = Ok tt → NoDup (t_Hash <$> new) →
   decodes (mkBlock _ header txs) ∧ all_saved new s').
Proof.
  unfold decodes. cbn [bk_Header bk_Transactions]. revert s. induction txs as [|tx txs IH]; intros s H.
  { injection H as <- <-. split_and!; [done..|]. intros. split; constructor. }
  simpl in H. unfold bind in H at 1. unfold decodable_txs. csimpl in *.
  destruct (decode tx header) as [t|e|] eqn:Ed; csimpl in *.
  - unfold bind in H. destruct (SaveOrUpdate t s) as [o s1] eqn:Es.
    destruct (SaveOrUpdate_frame _ _ _ _ Es) as (Hf & Hg & _).
    destruct o as [ow|e|].
    + apply IH in H as (Hf' & Hg' & Ha). split_and!.
      * apply (saved_only_trans [t] _ s s1); done.
      * intros k. by rewrite Hg', Hg.
      * intros -> [Hnin Hnd]%NoDup_cons. destruct (Ha eq_refl Hnd) as [Hdec Hall].
        split; [by constructor; eauto|]. constructor; [|done].
        rewrite Hf' by done. destruct (SaveOrUpdate_spec _ _ _ _ Es) as [-> _].
        apply lookup_insert_eq.
    + injection H as <- <-. split_and!; [|done|done].
      eapply saved_only_weaken; [|done]. set_solver.
    + injection H as <- <-. split_and!; [|done|done].
      eapply saved_only_weaken; [|done]. set_solver.
  - injection H as <- <-. split_and!; done.
  - injection H as <- <-. split_and!; done.
Qed.

(** The step of one block: it is saved and then counted, or the index point
    is the one before. *)
Lemma rangeFn_spec (n : nat) (b : Block Summary) (s s' : S) (r : outcome unit) :
  NoDup (t_Hash <$> decodable_txs b) →
  rangeFn decode cancelled n b s = (r, s') →
  saved_only (decodable_txs b) s s' ∧
  ((decodes b ∧ all_saved (decodable_txs b) s' ∧ storm_get s' KeyEndBlock = index_point [b] (storm_get s KeyEndBlock)) ∨
   (r ≠ Ok tt ∧ storm_get s' KeyEndBlock = storm_get s KeyEndBlock)).
Proof.
  destruct b as [header txs]. intros Hnd H. unfold rangeFn, bind in H. simpl in H.
  destruct (index_txs decode header txs s) as [r1 s1] eqn:Ei.
  apply index_txs_spec in Ei as (Hf & Hg & Ha). simpl in *.
  destruct r1 as [[]|e|].
  2-3: injection H as <- <-; split; [done|]; right; by rewrite Hg.
  destruct (Ha eq_refl Hnd) as [Hdec Hall]. destruct header as [h|]; simpl in *.
  - unfold bind, SaveLastIndexPoint in H.
    destruct (storm_set s1 KeyEndBlock (wrap32 h)) as [[e|] s2] eqn:Es.
    + apply set_err in Es as ->. injection H as <- <-. split; [done|]. right. by rewrite Hg.
    + destruct (set_get _ _ _ _ Es) as (Hs & _ & Hv).
      assert (s' = s2) as -> by (destruct (cancelled n); by injection H as <- <-).
      unfold saved_only, all_saved. rewrite Hv. split; [done|]. by left.
  - assert (s' = s1) as ->.
    { unfold bind, ret in H. destruct (cancelled n); by injection H as <- <-. }
    split; [done|]. left. by rewrite Hg.
Qed.

Definition all_txs (blocks : list (Block Summary)) : list Transaction :=
  blocks ≫= decodable_txs.

Lemma range_blocks_spec (n : nat) (blocks : list (Block Summary)) (s s' : S) (r : outcome unit) :
  NoDup (t_Hash <$> all_txs blocks) →
  range_blocks decode cancelled n blocks s = (r, s') →
  ∃ done rest, blocks = done ++ rest ∧ (r = Ok tt → rest = []) ∧
    storm_get s' KeyEndBlock = index_point done (storm_get s KeyEndBlock) ∧
    Forall decodes done ∧ all_saved (all_txs done) s' ∧ saved_only (all_txs blocks) s s'.
Proof.
  revert n s. induction blocks as [|b blocks IH]; intros n s Hnd H.
  { injection H as <- <-. exists [], []. split_and!; [done..|constructor|constructor|done]. }
  simpl in H. unfold bind in H. unfold all_txs in *. csimpl in *.
  rewrite fmap_app in Hnd. apply NoDup_app in Hnd as (Hnd & Hdisj & Hnd').
  destruct (rangeFn decode cancelled n b s) as [r1 s1] eqn:Er.
  destruct (rangeFn_spec _ _ _ _ _ Hnd Er) as (Hf & Hcase).
  assert (Hdec : r1 = Ok tt ∨ r1 ≠ Ok tt) by (destruct r1 as [[]|e|]; auto).
  destruct Hdec as [->|Hr1].
  - destruct Hcase as [(Hd & Ha & Hp)|[? _]]; [|done].
    apply IH in H as (dn & rest & -> & Hrest & Hp' & Hd' & Ha' & Hf'); [|done].
    exists (b :: dn), rest. split_and!; [done|done| |by constructor| |by eapply saved_only_trans].
    + simpl. by rewrite Hp', Hp.
    + csimpl. unfold all_saved. apply Forall_app. split; [|done].
      eapply all_saved_frame; [|done..]. intros t Ht Hin.
      apply (Hdisj (t_Hash t)); [|done]. apply list_elem_of_fmap. eauto.
  - assert (r = r1 ∧ s' = s1) as [-> ->].
    { destruct r1 as [[]|e|]; [done|by injection H as <- <-..]. }
    assert (Hf2 : saved_only (decodable_txs b ++ (blocks ≫= decodable_txs)) s s1).
    { eapply saved_only_weaken; [|done]. set_solver. }
    destruct Hcase as [(Hd & Ha & Hp)|[_ Hp]].
    + exists [b], blocks. split_and!; try done; [by repeat constructor|]. csimpl. by rewrite app_nil_r.
    + exists [], (b :: blocks). split_and!; try done; constructor.
Qed.

(** A block is in the index: each of its transactions was decoded, and is
    there as decoded. *)
Definition block_indexed (s : S) (b : Block Summary) : Prop :=
  Forall (λ tx, ∃ t, decode tx (bk_Header _ b) = Ok t ∧ storm_view s !! t_Hash t = Some t)
         (bk_Transactions _ b).

Lemma blocks_indexed (blocks : list (Block Summary)) (s : S) :
  Forall decodes blocks → all_saved (all_txs blocks) s → Forall (block_indexed s) blocks.
Proof.
  unfold all_saved, all_txs. rewrite !Forall_forall. intros Hd Ha b Hb.
  specialize (Hd b Hb). unfold decodes, block_indexed in *. rewrite Forall_forall in *.
  intros tx Htx. destruct (Hd tx Htx) as [t Ht]. exists t. split; [done|].
  apply Ha, list_elem_of_bind. exists b. split; [|done].
  apply list_elem_of_omap. exists tx. by rewrite Ht.
Qed.

(** C5. Indexing can stop at any point (a transaction that cannot be decoded,
    a write that fails, the shutdown of the wallet) and never counts a block
    it has not saved, if no two transactions of the range that can be decoded
    have the same hash.  It starts six blocks below the last index point, at 0
    when there is none; a number of blocks is then complete, all of them when
    no error is returned: the index point is the height of the last mined one,
    every transaction of theirs could be decoded and is in the index as
    decoded, and no transaction of another hash has changed.  In particular,
    a transaction that cannot be decoded is in none of the blocks that are
    complete, and makes the call return an error. *)
Theorem IndexTransactions_safe (blocks_between : Z → Z → list (Block Summary))
    (bestBlock : Z) (s s' : S) (r : outcome unit) (start : Z) :
  (storm_get s KeyEndBlock = inl ErrNotFound ∧ start = 0 ∨
   ∃ h, storm_get s KeyEndBlock = inr h ∧ (-2 ^ 31 + 6 ≤ h < 2 ^ 31) ∧ start = Z.max 0 (h - 6))%Z →
  NoDup (t_Hash <$> all_txs (blocks_between start bestBlock)) →
  IndexTransactions decode cancelled blocks_between bestBlock s = (r, s') →
  ∃ complete rest, blocks_between start bestBlock = complete ++ rest ∧
    (r = Ok tt → rest = []) ∧
    storm_get s' KeyEndBlock = index_point complete (storm_get s KeyEndBlock) ∧
    Forall (block_indexed s') complete ∧
    saved_only (all_txs (blocks_between start bestBlock)) s s'.
Proof.
  intros Hstart Hnd H.
  assert (Hread : ReadIndexingStartBlock s = (Ok start, s)).
  { unfold ReadIndexingStartBlock. destruct Hstart as [[-> ->]|(h & -> & Hh & ->)].
    - by rewrite decide_False by tauto.
    - unfold MaxReOrgBlocks. rewrite wrap32_id by (unfold in_int; lia).
      do 2 f_equal. case_decide; lia. }
  unfold IndexTransactions, bind in H. rewrite Hread in H.
  apply range_blocks_spec in H as (dn & rest & H1 & H2 & H3 & Hd & Ha & Hf); [|done].
  exists dn, rest. split_and!; [done..|by apply blocks_indexed|done].
Qed.
End indexing_spec.

(** *** The transactions of all wallets *)

#[export] Instance ts_before_dec (rv : bool) : RelDecision (ts_before rv).
Proof. intros a b. destruct rv; simpl; apply _. Defined.

#[export] Instance ts_before_total (rv : bool) : Total (ts_before rv).
Proof. intros a b. destruct rv; simpl; lia. Qed.

#[export] Instance ts_before_trans (rv : bool) : Transitive (ts_before rv).
Proof. intros a b c. destruct rv; simpl; lia. Qed.

(** What the filter accepts in the index of a wallet. *)
Definition matching (txFilter : Z) (s : S) : list Transaction :=
  filter (λ t, forallb (λ m, storm_match m t) (prepareTxQuery txFilter) = true)
         (map_to_list (storm_view s)).*2.

Definition take_limit (limit : Z) (l : list Transaction) : list Transaction :=
  if decide (limit > 0)%Z then take (Z.to_nat limit) l else l.

Lemma Read_first_page (offset limit txFilter : Z) (rv : bool) (s s' : S) (l : list Transaction) :
  (offset ≤ 0)%Z → Read offset limit txFilter rv s = (Ok l, s') →
  ∃ L, L ≡ₚ matching txFilter s ∧ StronglySorted (ts_before rv) L ∧ l = take_limit limit L.
Proof.
  intros Ho. unfold Read, take_limit. rewrite decide_False by lia.
  destruct (storm_find _ _ _ _ _) as [err|l'] eqn:Ef.
  - destruct (decide (err ≠ ErrNotFound)) as [?|He]; [done|].
    assert (err = ErrNotFound) as -> by (destruct (decide (err = ErrNotFound)); [done|by destruct He]).
    intros [= <- <-]. apply find_none in Ef as (L & HL & Hs & Hd). exists L.
    split_and!; [done..|]. by case_decide.
  - intros [= <- <-]. apply find_ok in Ef as (L & HL & Hs & ->). exists L.
    split_and!; [done..|]. by case_decide.
Qed.

(** The pages of the wallets, and what each leaves out, which is no earlier
    than its page. *)
Lemma read_wallets_spec (offset limit txFilter : Z) (rv : bool) (wallets : list S)
    (l : list Transaction) :
  (offset ≤ 0)%Z → read_wallets offset limit txFilter rv wallets = Some l →
  ∃ rest, l ++ rest ≡ₚ wallets ≫= matching txFilter ∧
    ∀ y, y ∈ rest → (0 < limit)%Z ∧
      ∃ page, page ⊆+ l ∧ length page = Z.to_nat limit ∧ Forall (λ x, ts_before rv x y) page.
Proof.
  intros Ho. revert l. induction wallets as [|w ws IH]; intros l Hl; simpl in Hl.
  { injection Hl as <-. exists []. split; [done|]. intros y Hy. set_solver. }
  destruct (Read _ _ _ _ w) as [[l1|e|] w'] eqn:Er; [|done..].
  destruct (read_wallets _ _ _ _ ws) as [l2|]; [|done]. injection Hl as <-.
  destruct (IH _ eq_refl) as (rest2 & Hp2 & Hr2).
  apply Read_first_page in Er as (L & HL & Hs & ->); [|done].
  unfold take_limit. case_decide as Hlim.
  - exists (drop (Z.to_nat limit) L ++ rest2). split.
    + csimpl. rewrite <- Hp2, <- HL. rewrite <- (take_drop (Z.to_nat limit) L) at 3.
      solve_Permutation.
    + intros y [Hy|Hy]%elem_of_app.
      * split; [lia|]. exists (take (Z.to_nat limit) L). split_and!.
        -- by apply submseteq_inserts_r.
        -- apply length_take_le. apply list_elem_of_split in Hy as (? & ? & Hy).
           apply (f_equal length) in Hy. rewrite length_drop, length_app in Hy. simpl in Hy. lia.
        -- apply Forall_forall. intros x Hx.
           rewrite <- (take_drop (Z.to_nat limit) L) in Hs.
           by eapply StronglySorted_app_1_elem_of.
      * destruct (Hr2 y Hy) as (? & page & ? & ? & ?). split; [done|].
        exists page. split_and!; [|done..]. by apply submseteq_inserts_l.
  - exists rest2. split.
    + csimpl. rewrite <- HL, <- app_assoc. by rewrite Hp2.
    + intros y Hy. destruct (Hr2 y Hy) as (? & ?). lia.
Qed.

(** An element among the first [k] of a sorted list is no later than [y] when
    the list holds [k] elements that are no later than [y]. *)
Lemma first_k_before (rv : bool) (M page : list Transaction) (k : nat) (x y : Transaction) :
  StronglySorted (ts_before rv) M → page ⊆+ M → length page = k →
  Forall (λ z, ts_before rv z y) page → x ∈ take k M → ts_before rv x y.
Proof.
  intros Hs Hsub Hlen Hpage Hx. destruct (decide (ts_before rv x y)) as [|Hn]; [done|].
  apply list_elem_of_split in Hx as (M1 & M2 & HM).
  assert (Hlt : length M1 < k).
  { apply (f_equal length) in HM. rewrite length_take, length_app in HM. simpl in HM. lia. }
  assert (HM' : M = M1 ++ x :: (M2 ++ drop k M)).
  { rewrite <- (take_drop k M) at 1. rewrite HM, <- app_assoc. done. }
  set (P := λ z, ts_before rv z y).
  assert (HP : ∀ z, z ∈ x :: (M2 ++ drop k M) → ¬ P z).
  { intros z Hz Hzy. apply Hn. apply elem_of_cons in Hz as [->|Hz]; [done|].
    etrans; [|done]. rewrite HM' in Hs. apply StronglySorted_app_1_r in Hs.
    inversion Hs as [|?? _ Hall]; subst.
    by eapply Forall_forall in Hall. }
  assert (Hle : length (filter P page) ≤ length (filter P M)).
  { by apply filter_length_submseteq. }
  rewrite HM', filter_app, (filter_none P (x :: _)), app_nil_r in Hle by done.
  rewrite filter_all in Hle by (by apply Forall_forall).
  pose proof (length_filter P M1). lia.
Qed.

Section GetTransactions_spec.
Context (sort : bool → list Transaction → list Transaction).
Context (sort_perm : ∀ rv l, sort rv l ≡ₚ l).
Context (sort_sorted : ∀ rv l, StronglySorted (ts_before rv) (sort rv l)).

(** C13. The first page of all the wallets together is right although each
    wallet is asked for its own first page only: the result is in the order
    of the timestamps, it has [limit] transactions if there are so many, and
    every matching transaction of a wallet that is not in it is no earlier, in
    that order, than any that is. *)
Theorem GetTransactions_first_page (offset limit txFilter : Z) (rv : bool) (wallets : list S)
    (l : list Transaction) :
  (offset ≤ 0)%Z → GetTransactions sort offset limit txFilter rv wallets = Some l →
  ∃ rest, l ++ rest ≡ₚ wallets ≫= matching txFilter ∧
    StronglySorted (ts_before rv) l ∧
    (∀ x y, x ∈ l → y ∈ rest → ts_before rv x y) ∧
    if decide (limit > 0)%Z
    then length l = Z.to_nat limit `min` length (wallets ≫= matching txFilter)
    else rest = [].
Proof.
  intros Ho. unfold GetTransactions.
  destruct (read_wallets _ _ _ _ wallets) as [m|] eqn:Er; [|done]. intros [= <-].
  apply read_wallets_spec in Er as (rest & Hp & Hrest); [|done].
  pose proof (sort_perm rv m) as Hsp. pose proof (sort_sorted rv m) as Hss.
  set (M := sort rv m) in *.
  destruct (decide (limit > 0)%Z) as [Hlim|Hlim].
  2:{ rewrite decide_False by lia. exists rest. assert (rest = []) as ->.
      { destruct rest as [|y rest]; [done|]. destruct (Hrest y); [set_solver|lia]. }
      split_and!; [by rewrite Hsp|done|set_solver|done]. }
  set (k := Z.to_nat limit).
  assert (Hif : (if decide (zlen M > limit ∧ limit > 0)%Z then take k M else M) = take k M).
  { case_decide; [done|]. rewrite take_ge; [done|]. unfold k. lia. }
  fold k. rewrite Hif. exists (drop k M ++ rest).
  assert (Hall : take k M ++ drop k M ++ rest ≡ₚ wallets ≫= matching txFilter).
  { rewrite app_assoc, take_drop, Hsp. done. }
  split_and!; [done| | |].
  - rewrite <- (take_drop k M) in Hss. by apply StronglySorted_app in Hss as (_ & ? & _).
  - intros x y Hx [Hy|Hy]%elem_of_app.
    + rewrite <- (take_drop k M) in Hss. by eapply StronglySorted_app_1_elem_of.
    + destruct (Hrest y Hy) as (_ & page & Hsub & Hlen & Hpg).
      eapply first_k_before; [done| |done..]. by rewrite Hsp.
  - rewrite <- Hall, !length_app, length_take, length_drop.
    destruct (decide (k ≤ length M)); [lia|].
    assert (rest = []) as ->.
    { destruct rest as [|y rest]; [done|].
      destruct (Hrest y) as (_ & page & Hsub & Hlen & _); [set_solver|].
      apply submseteq_length in Hsub. apply Permutation_length in Hsp. unfold k in *. lia. }
    simpl. lia.
Qed.
End GetTransactions_spec.

End TxIndex.

(** ** An index over finite maps *)
Module MapStorm.
Record t := mk { ms_kv : gmap string Z; ms_txs : list Transaction }.

Definition view (s : t) : gmap string Transaction :=
  list_to_map ((λ x, (t_Hash x, x)) <$> ms_txs s).

Definition without (h : string) (l : list Transaction) : list Transaction :=
  filter (λ x, t_Hash x ≠ h) l.

Fixpoint matches (m : Matcher) (x : Transaction) : bool :=
  match m with
  | EqType v => bool_decide (t_Type x = v)
  | EqDirection v => bool_decide (t_Direction x = v)
  | NotM ms => forallb (λ m, negb (matches m x)) ms
  | TrueM => true
  end.

Definition find_all (s : t) (ms : list Matcher) (rv : bool) : list Transaction :=
  merge_sort (ts_before rv)
    (filter (λ x, forallb (λ m, matches m x) ms = true) (map_to_list (view s)).*2).

#[global] Instance map_storm : Storm t := {|
  storm_new := mk ∅ [];
  storm_get s k := match ms_kv s !! k with Some v => inr v | None => inl ErrNotFound end;
  storm_set s k v := (None, mk (<[k := v]> (ms_kv s)) (ms_txs s));
  storm_one s h := match view s !! h with Some x => inr x | None => inl ErrNotFound end;
  storm_delete s x := mk (ms_kv s) (without (t_Hash x) (ms_txs s));
  storm_save s x := (None, mk (ms_kv s) (x :: without (t_Hash x) (ms_txs s)));
  storm_drop s := (None, mk (ms_kv s) []);
  storm_init s := (None, s);
  storm_view := view;
  storm_match := matches;
  storm_find s ms skip limit rv :=
    let l := drop (default 0 skip) (find_all s ms rv) in
    inr (match limit with Some n => take n l | None => l end);
  storm_count s ms := inr (zlen (find_all s ms false))
|}.

Lemma view_lookup (s : t) (h : string) (x : Transaction) :
  view s !! h = Some x → t_Hash x = h.
Proof.
  unfold view. intros H%elem_of_list_to_map_2.
  apply list_elem_of_fmap in H as (y & [= -> ->] & _). done.
Qed.

Lemma view_without (kv : gmap string Z) (h : string) (l : list Transaction) :
  view (mk kv (without h l)) = delete h (view (mk kv l)).
Proof.
  unfold view, without. simpl. induction l as [|x l IH]; csimpl; [by rewrite delete_empty|].
  destruct (decide (t_Hash x ≠ h)) as [Hx|Hx].
  - rewrite filter_cons_True by done. csimpl. by rewrite IH, delete_insert_ne.
  - rewrite filter_cons_False by done. rewrite IH.
    assert (t_Hash x = h) as -> by (destruct (decide (t_Hash x = h)); [done|by destruct Hx]).
    by rewrite delete_insert_eq.
Qed.

#[global] Instance map_storm_laws : StormLaws t.
Proof.
  split; unfold storm_set, storm_save, storm_drop, storm_init, storm_find; simpl; intros.
  - simplify_eq. simpl. rewrite lookup_insert_eq. split_and!; [done| |done].
    intros k' ?. by rewrite lookup_insert_ne.
  - done.
  - destruct (view s !! h); split; congruence.
  - by eapply view_lookup.
  - destruct s. apply view_without.
  - done.
  - simplify_eq. destruct s as [kv l].
    change (<[t_Hash t0 := t0]> (view (mk kv (without (t_Hash t0) l))) =
            <[t_Hash t0 := t0]> (view (mk kv l))).
    by rewrite view_without, insert_delete_eq.
  - by simplify_eq.
  - done.
  - done.
  - by rewrite lookup_empty.
  - by simplify_eq.
  - by simplify_eq.
  - by simplify_eq.
  - done.
  - done.
  - done.
  - done.
  - simplify_eq. exists (find_all s ms rv). split_and!; [apply merge_sort_Permutation| |done].
    apply StronglySorted_merge_sort; apply _.
  - done.
Qed.

(** A transaction with this hash and timestamp. *)
Definition tx (hash : string) (timestamp : Z) : Transaction :=
  mkTransaction 0 hash TxTypeRegular_ "" timestamp 0 0 0 0 0 0 0
    TxDirectionReceived 0 [] [] 0 false "" 0 "" 0.

(** The summary of a transaction is its hash; blocks give the timestamp. *)
Definition decode (hash : string) (header : option Z) : outcome Transaction :=
  if decide (hash = "bad") then Err (ENew "cannot decode") else Ok (tx hash (default 0%Z header)).

Definition sort (rv : bool) : list Transaction → list Transaction := merge_sort (ts_before rv).

Definition wallet (l : list Transaction) : t := mk ∅ l.

(** With a positive offset the pages are wrong: each wallet skips that many
    of its own transactions, so the second page of two wallets with two
    transactions each is empty. *)
Theorem GetTransactions_offset_per_wallet :
  GetTransactions sort 2 2 TxFilterAll true
    [wallet [tx "a" 1; tx "b" 2]; wallet [tx "c" 3; tx "d" 4]] = Some [] ∧
  fmap (M:=option) (fmap (M:=list) t_Hash) (GetTransactions sort 0 4 TxFilterAll true
    [wallet [tx "a" 1; tx "b" 2]; wallet [tx "c" 3; tx "d" 4]]) = Some ["d"; "c"; "b"; "a"].
Proof. split; vm_compute; reflexivity. Qed.
End MapStorm.

(** ** Witnesses *)
Lemma SaveOrUpdate_spec_witness :
  ∃ s', SaveOrUpdate (MapStorm.tx "a" 7) (MapStorm.wallet [MapStorm.tx "a" 1]) = (Ok true, s') ∧
    storm_view s' =
      <["a" := MapStorm.tx "a" 7]> (storm_view (MapStorm.wallet [MapStorm.tx "a" 1])).
Proof.
  eexists. split; [reflexivity|].
  eapply (SaveOrUpdate_spec (MapStorm.tx "a" 7) (MapStorm.wallet [MapStorm.tx "a" 1])).
  reflexivity.
Defined.

(** A file of version 0, with a transaction. *)
Lemma Initialize_spec_witness :
  ∃ fs', Initialize (mkFaults None None None)
           (mkFS (Some (MapStorm.wallet [MapStorm.tx "a" 1])) 0) = (Ok tt, fs') ∧
    open_handles fs' = 2.
Proof.
  eexists. split; [reflexivity|].
  edestruct (Initialize_spec (mkFaults None None None)
    (mkFS (Some (MapStorm.wallet [MapStorm.tx "a" 1])) 0)) as (db & _ & _ & _ & H);
    [reflexivity|]. exact H.
Defined.

(** Three blocks; the second holds a transaction that cannot be decoded. *)
Definition witness_blocks (_ _ : Z) : list (Block string) :=
  [mkBlock _ (Some 10%Z) ["a"; "b"]; mkBlock _ (Some 12%Z) ["c"; "bad"];
   mkBlock _ (Some 13%Z) ["d"]].

Lemma IndexTransactions_safe_witness :
  ∃ r s', IndexTransactions MapStorm.decode (λ _, None) witness_blocks 20
            (MapStorm.mk {["EndBlock" := 9%Z]} []) = (r, s') ∧ r ≠ Ok tt ∧
    ∃ complete rest, witness_blocks 3 20 = complete ++ rest ∧
      storm_get s' KeyEndBlock = index_point complete (inr 9%Z) ∧
      Forall (block_indexed MapStorm.decode s') complete.
Proof.
  eexists _, _. split; [reflexivity|]. split; [discriminate|].
  edestruct (IndexTransactions_safe MapStorm.decode (λ _, None) witness_blocks 20
    (MapStorm.mk {["EndBlock" := 9%Z]} [])) as (complete & rest & ? & _ & ? & ? & _).
  - right. exists 9%Z. split; [reflexivity|]. split; [lia|reflexivity].
  - change (NoDup ["a"; "b"; "c"; "d"]). apply (bool_decide_unpack _). vm_compute. exact I.
  - reflexivity.
  - exists complete, rest. repeat split; assumption.
Defined.

Lemma GetTransactions_first_page_witness :
  ∃ l (rest : list Transaction), GetTransactions MapStorm.sort 0 1 TxFilterAll true
      [MapStorm.wallet [MapStorm.tx "a" 1]; MapStorm.wallet [MapStorm.tx "c" 3]] = Some l ∧
    ∀ x y, x ∈ l → y ∈ rest → ts_before true x y.
Proof.
  exists [MapStorm.tx "c" 3].
  destruct (GetTransactions_first_page MapStorm.sort
    (λ rv l, merge_sort_Permutation (ts_before rv) l)
    (λ rv l, StronglySorted_merge_sort (ts_before rv) l)
    0 1 TxFilterAll true
    [MapStorm.wallet [MapStorm.tx "a" 1]; MapStorm.wallet [MapStorm.tx "c" 3]]
    [MapStorm.tx "c" 3]) as (rest & _ & _ & H & _); [lia|vm_compute; reflexivity|].
  exists rest. split; [vm_compute; reflexivity|exact H].
Defined.

Lemma filter_agrees_witness :
  forallb (λ m, storm_match m (MapStorm.tx "a" 1)) (prepareTxQuery TxFilterReceived) = true.
Proof.
  rewrite (filter_agrees (S := MapStorm.t) (MapStorm.tx "a" 1) TxFilterReceived). reflexivity.
Defined.
