(* ===== verification/Loader.v ===== *)
(** * [internal/loader/loader.go]: creating, opening and unloading a wallet

    The loader with its callbacks, the database file on disk and the databases
    that are open.  The wallet library and the file system are the record [Env]
    of how their calls end; [Loader] operations are atomic, under the mutex,
    with two exceptions: [OpenExistingWallet] releases it around [OpenDB], and
    [RunAfterLoad] before it calls the function.  They are in pieces, and
    [lstep] interleaves these with every other operation. *)
From S2P Require Import Prelude.

(** ** Data *)
Record StakeOptions := mkStakeOptions {
  so_VotingEnabled : bool; so_TicketFee : Z; so_AddressReuse : bool;
  so_VotingAddress : option string; so_PoolAddress : option string;
  so_PoolFees : Z; so_StakePoolColdExtKey : string }.

(** [wallet.Config]; fees are the bits of a [float64], the database is known
    by its number. *)
Record Config := mkConfig {
  c_DB : nat; c_PubPassphrase : bytes; c_VotingEnabled : bool; c_AddressReuse : bool;
  c_VotingAddress : option string; c_PoolAddress : option string; c_PoolFees : Z;
  c_TicketFee : Z; c_GapLimit : Z; c_AccountGapLimit : Z; c_DisableCoinTypeUpgrades : bool;
  c_StakePoolColdExtKey : string; c_AllowHighFees : bool; c_RelayFee : Z; c_Params : string }.

Definition walletDbName : string := "wallet.db".
Definition defaultDbDriver : string := "bdb".

(** What is at [dbDirPath]. *)
Inductive DirState := DirMissing | DirIsFile | DirIsDir.

#[export] Instance DirState_eq_dec : EqDecision DirState.
Proof. solve_decision. Defined.

Section Loader.
Context {W : Type}.

(** Callbacks are numbered. *)
Record Loader := mkLoader {
  callbacks : list nat; chainParams : string; dbDirPath : string;
  wallet : option W; db : option nat; dbDriver : string;
  stakeOptions : StakeOptions; gapLimit : Z; accountGapLimit : Z;
  disableCoinTypeUpgrades : bool; allowHighFees : bool; relayFee : Z }.

(** The loader and its world: the directory, the database file (each file that
    is created gets a new number), the open databases, and the calls made to
    callbacks, the last one at the end. *)
Record St := mkSt {
  ld : Loader; dir : DirState; dbfile : option nat;
  opened : list nat; next_db : nat; called : list (nat * W) }.

Definition set_ld (f : Loader → Loader) (s : St) : St :=
  mkSt (f (ld s)) (dir s) (dbfile s) (opened s) (next_db s) (called s).
Definition set_dir (d : DirState) (s : St) : St :=
  mkSt (ld s) d (dbfile s) (opened s) (next_db s) (called s).
Definition set_dbfile (i : option nat) (s : St) : St :=
  mkSt (ld s) (dir s) i (opened s) (next_db s) (called s).
Definition set_opened (l : list nat) (s : St) : St :=
  mkSt (ld s) (dir s) (dbfile s) l (next_db s) (called s).
Definition add_called (l : list (nat * W)) (s : St) : St :=
  mkSt (ld s) (dir s) (dbfile s) (opened s) (next_db s) (called s ++ l).

Definition with_load (cbs : list nat) (w : option W) (d : option nat) (l : Loader) : Loader :=
  mkLoader cbs (chainParams l) (dbDirPath l) w d (dbDriver l) (stakeOptions l) (gapLimit l)
    (accountGapLimit l) (disableCoinTypeUpgrades l) (allowHighFees l) (relayFee l).

(** How the calls out of the loader end. *)
Record Env := mkEnv {
  stat_dir : option goerr;            (* other than "does not exist" *)
  mkdir : option goerr;
  stat_db : option goerr;             (* other than "does not exist" *)
  mkdir2 : option goerr;
  create_db : option goerr;
  create_db_leaves_file : bool;       (* whether a failed CreateDB wrote the file *)
  init_db : option goerr;             (* wallet.Create, wallet.CreateWatchOnly *)
  open_db : option goerr;
  open_wallet : Config → goerr + W;   (* wallet.Open *)
  remove_db : option goerr;
  close_db : option goerr }.

(** ** Operations *)
Definition NewLoader (params path : string) (so : StakeOptions) (gap : Z) (highFees : bool)
    (fee accountGap : Z) (disableUpgrades : bool) : Loader :=
  mkLoader [] params path None None defaultDbDriver so gap accountGap disableUpgrades highFees fee.

Definition SetDatabaseDriver (driver : string) (l : Loader) : Loader :=
  mkLoader (callbacks l) (chainParams l) (dbDirPath l) (wallet l) (db l) driver (stakeOptions l)
    (gapLimit l) (accountGapLimit l) (disableCoinTypeUpgrades l) (allowHighFees l) (relayFee l).

Definition onLoaded (w : W) (d : nat) : GM St unit :=
  let! cbs := gets (λ s, callbacks (ld s)) in
  modify (add_called ((λ fn, (fn, w)) <$> cbs)) ;;
  modify (set_ld (with_load [] (Some w) (Some d))).

(** [RunAfterLoad] up to the [Unlock]: the wallet to call [fn] with, if one is
    loaded. *)
Definition after_load_locked (fn : nat) : GM St (option W) :=
  let! loaded := gets (λ s, wallet (ld s)) in
  match loaded with
  | Some w => ret (Some w)
  | None => modify (set_ld (λ l, with_load (callbacks l ++ [fn]) (wallet l) (db l) l)) ;; ret None
  end.

(** [fn(w)], outside of the mutex. *)
Definition call_fn (fn : nat) (w : W) : GM St unit := modify (add_called [(fn, w)]).

(** The two, when nothing comes in between. *)
Definition RunAfterLoad (fn : nat) : GM St unit :=
  let! loaded := after_load_locked fn in
  match loaded with Some w => call_fn fn w | None => ret tt end.

(** [errors.E(op, err)] around the error of a call. *)
Definition checkE (e : option goerr) : GM St unit :=
  match e with Some err => fail (EWrap KOther err) | None => ret tt end.

(** The configuration the wallet is opened with. *)
Definition wallet_config (l : Loader) (d : nat) (pubPass : bytes) : Config :=
  let so := stakeOptions l in
  mkConfig d pubPass (so_VotingEnabled so) (so_AddressReuse so) (so_VotingAddress so)
    (so_PoolAddress so) (so_PoolFees so) (so_TicketFee so) (gapLimit l) (accountGapLimit l)
    (disableCoinTypeUpgrades l) (so_StakePoolColdExtKey so) (allowHighFees l) (relayFee l)
    (chainParams l).

Definition Open (env : Env) (d : nat) (pubPass : bytes) : GM St W :=
  let! l := gets ld in
  match open_wallet env (wallet_config l d pubPass) with
  | inl err => fail (EWrap KOther err)
  | inr w => ret w
  end.

(** "Ensure that the network directory exists." *)
Definition ensure_dir (env : Env) (notDir : goerr) : GM St unit :=
  checkE (stat_dir env) ;;
  let! d := gets dir in
  match d with
  | DirMissing => checkE (mkdir env) ;; modify (set_dir DirIsDir)
  | DirIsFile => fail notDir
  | DirIsDir => ret tt
  end.

Definition fileExists (env : Env) : GM St bool :=
  match stat_db env with
  | Some err => fail err
  | None => gets (λ s, bool_decide (dbfile s ≠ None))
  end.

Definition CreateDB (env : Env) : GM St nat := λ s,
  match create_db env with
  | Some err =>
      (Err err, if create_db_leaves_file env
                then mkSt (ld s) (dir s) (Some (next_db s)) (opened s) (S (next_db s)) (called s)
                else s)
  | None => (Ok (next_db s),
             mkSt (ld s) (dir s) (Some (next_db s)) (next_db s :: opened s) (S (next_db s))
                  (called s))
  end.

Definition wrapE {A} (m : GM St A) : GM St A := λ s,
  match m s with (Err err, s') => (Err (EWrap KOther err), s') | r => r end.

(** The deferred removal of the file; its own error is ignored. *)
Definition remove_on_error {A} (env : Env) (m : GM St A) : GM St A := λ s,
  match m s with
  | (Err e, s') => (Err e, match remove_db env with Some _ => s' | None => set_dbfile None s' end)
  | r => r
  end.

(** The body the two ways of creating a wallet have in common. *)
Definition create_with (env : Env) (alreadyLoaded alreadyExists : string) (notDir : goerr)
    (pubPass : bytes) : GM St W :=
  let! loaded := gets (λ s, wallet (ld s)) in
  match loaded with
  | Some _ => fail (EKind KExist alreadyLoaded)
  | None =>
      ensure_dir env notDir ;;
      let! ex := wrapE (fileExists env) in
      if ex : bool then fail (EKind KExist alreadyExists)
      else remove_on_error env (
        checkE (mkdir2 env) ;; modify (set_dir DirIsDir) ;;
        let! d := wrapE (CreateDB env) in
        checkE (init_db env) ;;
        let! w := Open env d pubPass in
        onLoaded w d ;;
        ret w)
  end.

(** [init_db] of the environment is [wallet.CreateWatchOnly] here ... *)
Definition CreateWatchingOnlyWallet (env : Env) (pubPass : bytes) : GM St W :=
  create_with env "wallet already loaded" "wallet already exists"
    (EKind KInvalid "is not a directory") pubPass.

(** ... and [wallet.Create] here. *)
Definition CreateNewWallet (env : Env) (pubPass : bytes) : GM St W :=
  create_with env "wallet already opened" "wallet DB exists"
    (EWrap KOther (ENew "is not a directory")) pubPass.

(** [OpenExistingWallet] up to the first [Unlock] of the mutex, *)
Definition open_start : GM St unit :=
  let! loaded := gets (λ s, wallet (ld s)) in
  match loaded with
  | Some _ => fail (EKind KExist "wallet already opened")
  | None => ret tt
  end.

(** [wallet.OpenDB] outside of it: the drivers open a file that exists, and
    that nobody has open, *)
Definition ErrDbNotExist : goerr := ELib "db does not exist".
Definition ErrDbLocked : goerr := ELib "db is locked".
Definition OpenDB (env : Env) : GM St nat := λ s,
  match open_db env, dbfile s with
  | Some err, _ => (Err err, s)
  | None, None => (Err ErrDbNotExist, s)
  | None, Some i => if decide (i ∈ opened s) then (Err ErrDbLocked, s)
                    else (Ok i, set_opened (i :: opened s) s)
  end.

Definition Close (i : nat) (s : St) : St := set_opened (filter (λ j, j ≠ i) (opened s)) s.

(** and the rest, with the deferred [db.Close()]. *)
Definition open_finish (env : Env) (d : nat) (pubPass : bytes) : GM St W := λ s,
  match (let! w := Open env d pubPass in onLoaded w d ;; ret w) s with
  | (Err e, s') => (Err e, match close_db env with Some _ => s' | None => Close d s' end)
  | r => r
  end.

Definition OpenExistingWallet (env : Env) (pubPass : bytes) : GM St W :=
  open_start ;;
  let! d := wrapE (OpenDB env) in
  open_finish env d pubPass.

Definition WalletExists (env : Env) : GM St bool := wrapE (fileExists env).

Definition LoadedWallet : GM St (option W * bool) :=
  gets (λ s, (wallet (ld s), bool_decide (is_Some (wallet (ld s))))).

Definition UnloadWallet (env : Env) : GM St unit :=
  let! l := gets ld in
  match wallet l with
  | None => fail (EKind KInvalid "wallet is unopened")
  | Some _ =>
      match db l with
      | None => panic
      | Some d =>
          checkE (close_db env) ;;
          modify (Close d) ;;
          modify (set_ld (with_load (callbacks l) None None))
      end
  end.

Definition NetworkBackend {N : Type} (backend : W → option N) : GM St (option N * bool) :=
  gets (λ s, let n := match wallet (ld s) with Some w => backend w | None => None end in
             (n, bool_decide (is_Some n))).

(** ** Theorems *)

(** The world around the same loader. *)
Lemma onLoaded_eq (w : W) (d : nat) (s : St) :
  onLoaded w d s = (Ok tt, mkSt (with_load [] (Some w) (Some d) (ld s)) (dir s) (dbfile s)
    (opened s) (next_db s) (called s ++ ((λ fn, (fn, w)) <$> callbacks (ld s)))).
Proof. reflexivity. Qed.

(** Whether an attempt to create a wallet gets as far as a new database. *)
Definition absent {A} (o : option A) : bool := match o with Some _ => false | None => true end.

Definition dir_ok (env : Env) (s : St) : bool :=
  absent (stat_dir env) &&
  match dir s with DirMissing => absent (mkdir env) | DirIsFile => false | DirIsDir => true end.

Definition db_created (env : Env) (s : St) : bool :=
  absent (wallet (ld s)) && dir_ok env s && absent (stat_db env) && absent (dbfile s) &&
  absent (mkdir2 env) && absent (create_db env).

Lemma db_created_file (env : Env) (s : St) : db_created env s = true → dbfile s = None.
Proof.
  unfold db_created. destruct (dbfile s); [|done]. by rewrite !andb_false_r.
Qed.

Lemma ensure_dir_cases (env : Env) (notDir : goerr) (s s' : St) (r : outcome unit) :
  ensure_dir env notDir s = (r, s') →
  (s' = s ∨ s' = set_dir DirIsDir s) ∧
  if dir_ok env s then r = Ok tt else ∃ e, r = Err e.
Proof.
  unfold ensure_dir, dir_ok, checkE, bind, gets, fail, ret, modify. intros H.
  destruct (stat_dir env); [injection H as <- <-; cbn; eauto|].
  destruct (dir s); [destruct (mkdir env)| |]; injection H as <- <-; cbn; eauto.
Qed.

(** How the two ways of creating a wallet end. *)
Definition create_post (env : Env) (pubPass : bytes) (s s' : St) (r : outcome W) : Prop :=
  match r with
  | Ok w =>
      db_created env s = true ∧ init_db env = None ∧ wallet (ld s) = None ∧ dbfile s = None ∧
      open_wallet env (wallet_config (ld s) (next_db s) pubPass) = inr w ∧
      ld s' = with_load [] (Some w) (Some (next_db s)) (ld s) ∧
      dbfile s' = Some (next_db s) ∧ opened s' = next_db s :: opened s ∧
      called s' = called s ++ ((λ fn, (fn, w)) <$> callbacks (ld s))
  | Err e =>
      (db_created env s = true → init_db env ≠ None ∨
       ∃ err, open_wallet env (wallet_config (ld s) (next_db s) pubPass) = inl err) ∧
      ld s' = ld s ∧ called s' = called s ∧
      (dbfile s' = dbfile s ∨ dbfile s = None ∧ remove_db env ≠ None) ∧
      opened s' = (if db_created env s then [next_db s] else []) ++ opened s
  | Panic => False
  end.

(** The state in which the file is removed again. *)
Definition removed (env : Env) (s : St) : St :=
  match remove_db env with Some _ => s | None => set_dbfile None s end.

Lemma create_with_spec (env : Env) (m1 m2 : string) (notDir : goerr) (pubPass : bytes)
    (s s' : St) (r : outcome W) :
  create_with env m1 m2 notDir pubPass s = (r, s') → create_post env pubPass s s' r.
Proof.
  unfold create_with, bind at 1, gets at 1, create_post, db_created.
  destruct (wallet (ld s)) eqn:Ew; intros H.
  { injection H as <- <-. simpl; split_and!; auto. }
  unfold bind at 1 in H. destruct (ensure_dir env notDir s) as [r0 s0] eqn:Ed.
  apply ensure_dir_cases in Ed as [Hs0 Hr0]. cbn [absent andb].
  destruct (dir_ok env s); cycle 1.
  { destruct Hr0 as [e ->]. injection H as <- <-. cbn.
    destruct Hs0 as [-> | ->]; cbn; split_and!; auto. }
  subst r0. cbn [andb].
  assert (Hld : ld s0 = ld s ∧ dbfile s0 = dbfile s ∧ opened s0 = opened s ∧
                next_db s0 = next_db s ∧ called s0 = called s) by (by destruct Hs0 as [-> | ->]).
  clear Hs0. destruct Hld as (Hld & Hf & Ho & Hn & Hc).
  rewrite <- Hld, <- Hf, <- Ho, <- Hn, <- Hc in *. clear Hld Hf Ho Hn Hc s.
  unfold bind at 1, wrapE at 1, fileExists in H.
  destruct (stat_db env); [injection H as <- <-; simpl; split_and!; auto|]. unfold gets at 1 in H.
  destruct (dbfile s0) as [f|] eqn:Hex; cbn in H.
  { injection H as <- <-. simpl. rewrite Hex. split_and!; auto. }
  unfold remove_on_error, checkE, wrapE, CreateDB, Open, bind, fail, ret, modify, gets in H.
  simpl in H.
  destruct (mkdir2 env); simpl in H.
  { destruct (remove_db env); injection H as <- <-; simpl; rewrite ?Hex; split_and!; auto. }
  destruct (create_db env); simpl in H.
  { destruct (create_db_leaves_file env), (remove_db env); injection H as <- <-; simpl;
      rewrite ?Hex; split_and!; auto. }
  destruct (init_db env) eqn:Ei; simpl in H.
  { destruct (remove_db env); injection H as <- <-; simpl; rewrite ?Hex; split_and!; auto. }
  destruct (open_wallet env (wallet_config (ld s0) (next_db s0) pubPass)) as [e|w] eqn:Eo;
    simpl in H.
  { destruct (remove_db env); injection H as <- <-; simpl; rewrite ?Hex; split_and!; eauto. }
  injection H as <- <-. simpl. split_and!; auto.
Qed.

(** C16. Creating a wallet either loads it, its new database open, every
    callback called once with it in the order of registration, or fails and
    leaves the loader as it was: a wallet that was loaded stays, a file that
    was there is untouched, and a file written by the attempt is removed
    (unless removing fails).  An attempt that fails once its database was
    created (initialising it or opening the wallet failed) leaves exactly that
    database open; one that fails before opens none. *)
Theorem create_wallet_spec (watchOnly : bool) (env : Env) (pubPass : bytes) (s s' : St)
    (r : outcome W) :
  (if watchOnly then CreateWatchingOnlyWallet env pubPass else CreateNewWallet env pubPass) s
    = (r, s') →
  create_post env pubPass s s' r.
Proof. destruct watchOnly; apply create_with_spec. Qed.


(** ** Interleavings

    [opening] are the goroutines inside [OpenExistingWallet] that do not hold
    the mutex: before [OpenDB], or after it with the database.  [calling] are
    those inside [RunAfterLoad] that have released it and not yet called their
    function.  [registered] are the callbacks given to [RunAfterLoad], the
    last one at the end. *)
Record Sys := mkSys {
  st : St; opening : list (option nat); calling : list (nat * W); registered : list nat }.

Inductive lstep : Sys → Sys → Prop :=
| L_RunAfterLoad fn s s' o p c reg :
    after_load_locked fn s = (Ok o, s') →
    lstep (mkSys s p c reg)
          (mkSys s' p (c ++ option_list ((λ w, (fn, w)) <$> o)) (reg ++ [fn]))
| L_call_fn fn w s s' p c1 c2 reg :
    call_fn fn w s = (Ok tt, s') →
    lstep (mkSys s p (c1 ++ (fn, w) :: c2) reg) (mkSys s' p (c1 ++ c2) reg)
| L_create watchOnly env pubPass s s' r p c reg :
    (if watchOnly : bool then CreateWatchingOnlyWallet env pubPass
     else CreateNewWallet env pubPass) s = (r, s') →
    lstep (mkSys s p c reg) (mkSys s' p c reg)
| L_open_start s s' p c reg :
    open_start s = (Ok tt, s') → lstep (mkSys s p c reg) (mkSys s' (None :: p) c reg)
| L_OpenDB env s s' i p1 p2 c reg :
    OpenDB env s = (Ok i, s') →
    lstep (mkSys s (p1 ++ None :: p2) c reg) (mkSys s' (p1 ++ Some i :: p2) c reg)
| L_OpenDB_fails env s s' e p1 p2 c reg :
    OpenDB env s = (Err e, s') →
    lstep (mkSys s (p1 ++ None :: p2) c reg) (mkSys s' (p1 ++ p2) c reg)
| L_open_finish env i pubPass s s' r p1 p2 c reg :
    open_finish env i pubPass s = (r, s') →
    lstep (mkSys s (p1 ++ Some i :: p2) c reg) (mkSys s' (p1 ++ p2) c reg)
| L_UnloadWallet env s s' r p c reg :
    UnloadWallet env s = (r, s') → lstep (mkSys s p c reg) (mkSys s' p c reg).

(** Who has the database file open. *)
Definition holders (x : Sys) : list nat :=
  option_list (db (ld (st x))) ++ omap id (opening x).

Record loader_inv (x : Sys) : Prop := {
  inv_loaded : is_Some (wallet (ld (st x))) ↔ is_Some (db (ld (st x)));
  inv_callbacks : is_Some (wallet (ld (st x))) → callbacks (ld (st x)) = [];
  inv_called :
    (called (st x)).*1 ++ (calling x).*1 ++ callbacks (ld (st x)) ≡ₚ registered x;
  inv_waiting : callbacks (ld (st x)) `suffix_of` registered x;
  inv_one : length (holders x) ≤ 1;
  inv_holders : ∀ i, i ∈ holders x → dbfile (st x) = Some i ∧ i ∈ opened (st x) }.

Definition sys_init (l : Loader) (d : DirState) (file : option nat) (n : nat) : Sys :=
  mkSys (mkSt l d file [] n []) [] [] [].

Lemma opening_insert (i : nat) (p1 p2 : list (option nat)) :
  omap id (p1 ++ Some i :: p2) ≡ₚ i :: omap id (p1 ++ p2).
Proof.
  rewrite !omap_app. csimpl. by rewrite Permutation_middle.
Qed.

Lemma opening_none (p1 p2 : list (option nat)) :
  omap id (p1 ++ None :: p2) = omap id (p1 ++ p2).
Proof. by rewrite !omap_app. Qed.

(** An open that finishes is the only holder, so no wallet is loaded. *)
Lemma finish_alone (x : Sys) (i : nat) (p1 p2 : list (option nat)) :
  loader_inv x → opening x = p1 ++ Some i :: p2 →
  wallet (ld (st x)) = None ∧ db (ld (st x)) = None ∧ omap id (p1 ++ p2) = [].
Proof.
  intros [Hl _ _ _ H1 _] Hp. unfold holders in H1. rewrite Hp, length_app, opening_insert in H1.
  simpl in H1. destruct (db (ld (st x))) eqn:Ed; simpl in H1; [lia|].
  destruct (omap id (p1 ++ p2)); simpl in H1; [|lia]. split_and!; [|done..].
  destruct (wallet (ld (st x))) eqn:Ew; [|done].
  destruct Hl as [[? ?] _]; [done|discriminate].
Qed.

Lemma open_finish_cases (env : Env) (i : nat) (pubPass : bytes) (s s' : St) (r : outcome W) :
  open_finish env i pubPass s = (r, s') →
  (∃ w, r = Ok w ∧ onLoaded w i s = (Ok tt, s')) ∨
  ((∃ e, r = Err e) ∧ (s' = s ∨ s' = Close i s)).
Proof.
  unfold open_finish, Open, bind, gets, ret, fail. intros H.
  destruct (open_wallet env _) as [e|w]; simpl in H.
  - right. destruct (close_db env); injection H as <- <-; eauto.
  - left. injection H as <- <-. eauto.
Qed.

(** Nothing is lost when neither the file nor the holders change. *)
Lemma inv_frame (x y : Sys) :
  loader_inv x → ld (st y) = ld (st x) → called (st y) = called (st x) →
  registered y = registered x → calling y = calling x → holders y = holders x →
  (∀ i, i ∈ holders x → dbfile (st y) = Some i ∧ i ∈ opened (st y)) → loader_inv y.
Proof.
  intros [] Hld Hc Hr Hk Hh Ho. split; rewrite ?Hld, ?Hc, ?Hr, ?Hk, ?Hh; done.
Qed.

Lemma inv_load (w : W) (i : nat) (s s' : St) (p : list (option nat)) (c : list (nat * W))
    (reg : list nat) :
  loader_inv (mkSys s p c reg) ∨
    (called s).*1 ++ c.*1 ++ callbacks (ld s) ≡ₚ reg →
  omap id p = [] → ld s' = with_load [] (Some w) (Some i) (ld s) →
  called s' = called s ++ ((λ fn, (fn, w)) <$> callbacks (ld s)) →
  dbfile s' = Some i → i ∈ opened s' → loader_inv (mkSys s' p c reg).
Proof.
  intros Hinv Hp Hld Hc Hf Ho.
  assert (Hreg : (called s).*1 ++ c.*1 ++ callbacks (ld s) ≡ₚ reg) by (by destruct Hinv as [[]|]).
  assert (Hcall : ((λ fn, (fn, w)) <$> callbacks (ld s)).*1 = callbacks (ld s)).
  { rewrite <- list_fmap_compose. apply list_fmap_id. }
  split; unfold holders; simpl; rewrite ?Hld, ?Hp; simpl.
  - split; eauto.
  - done.
  - rewrite Hc, fmap_app, Hcall, app_nil_r, <- Hreg, <- app_assoc.
    by rewrite (Permutation_app_comm (callbacks _) (c.*1)).
  - apply suffix_nil.
  - lia.
  - intros j Hj. assert (j = i) as -> by set_solver. done.
Qed.

Lemma run_after_load_inv (fn : nat) (s s' : St) (o : option W) (p : list (option nat))
    (c : list (nat * W)) (reg : list nat) :
  after_load_locked fn s = (Ok o, s') → loader_inv (mkSys s p c reg) →
  loader_inv (mkSys s' p (c ++ option_list ((λ w, (fn, w)) <$> o)) (reg ++ [fn])).
Proof.
  unfold after_load_locked, bind, gets, modify, ret. intros H [H1 H2 H3 H3' H4 H5].
  unfold holders in *. simpl in *. destruct (wallet (ld s)) as [w|] eqn:Ew; simpl in H.
  - injection H as <- <-. split; unfold holders; simpl; rewrite ?Ew; try done.
    + rewrite H2 in * by eauto. rewrite fmap_app. simpl. rewrite <- H3. solve_Permutation.
    + rewrite H2 by eauto. apply suffix_nil.
  - injection H as <- <-. split; unfold holders; simpl; rewrite ?Ew; try done.
    + rewrite app_nil_r, <- H3. by rewrite !app_assoc.
    + by apply suffix_app.
Qed.

Lemma call_fn_inv (fn : nat) (w : W) (s s' : St) (p : list (option nat))
    (c1 c2 : list (nat * W)) (reg : list nat) :
  call_fn fn w s = (Ok tt, s') → loader_inv (mkSys s p (c1 ++ (fn, w) :: c2) reg) →
  loader_inv (mkSys s' p (c1 ++ c2) reg).
Proof.
  unfold call_fn, modify. intros [= <-] [H1 H2 H3 H3' H4 H5].
  split; try done. simpl in *. rewrite <- H3, !fmap_app. simpl. solve_Permutation.
Qed.

Lemma OpenDB_inv (env : Env) (i : nat) (s s' : St) (p1 p2 : list (option nat))
    (c : list (nat * W)) (reg : list nat) :
  OpenDB env s = (Ok i, s') → loader_inv (mkSys s (p1 ++ None :: p2) c reg) →
  loader_inv (mkSys s' (p1 ++ Some i :: p2) c reg).
Proof.
  unfold OpenDB. destruct (open_db env); [done|].
  destruct (dbfile s) as [f|] eqn:Ef; [|done]. destruct (decide (f ∈ opened s)) as [|Hno]; [done|].
  intros [= <- <-] [H1 H2 H3 H3' H4 H5]. unfold holders in *. simpl in *.
  rewrite opening_none in *.
  assert (Hnil : option_list (db (ld s)) ++ omap id (p1 ++ p2) = []).
  { destruct (option_list (db (ld s)) ++ omap id (p1 ++ p2)) as [|j l'] eqn:El; [done|].
    destruct (H5 j) as [Hfj Hj]; [set_solver|]. destruct Hno. congruence. }
  apply app_nil in Hnil as [Hn1 Hn2].
  split; unfold holders; simpl; rewrite ?Ef, ?Hn1; try done.
  - by rewrite length_app, opening_insert, Hn2.
  - intros j Hj. rewrite opening_insert, Hn2 in Hj.
    assert (j = f) as -> by set_solver. set_solver.
Qed.

Lemma open_finish_inv (env : Env) (i : nat) (pp : bytes) (s s' : St) (r : outcome W)
    (p1 p2 : list (option nat)) (c : list (nat * W)) (reg : list nat) :
  open_finish env i pp s = (r, s') → loader_inv (mkSys s (p1 ++ Some i :: p2) c reg) →
  loader_inv (mkSys s' (p1 ++ p2) c reg).
Proof.
  intros Hs Hinv. destruct (finish_alone _ i p1 p2 Hinv eq_refl) as (Hw & Hd & Hp). simpl in *.
  destruct (inv_holders _ Hinv i) as [Hf Ho].
  { unfold holders. simpl. rewrite opening_insert. set_solver. }
  simpl in *. apply open_finish_cases in Hs as [(w & -> & Hl)|[[e ->] Hs']].
  - rewrite onLoaded_eq in Hl. injection Hl as <-.
    eapply (inv_load w i s); [right; apply Hinv|done..].
  - destruct Hinv as [H1 H2 H3 H3' _ _]. simpl in *. rewrite Hd in H1.
    assert (Hnone : ∀ j : nat, j ∈ [] → dbfile s' = Some j ∧ j ∈ opened s') by set_solver.
    destruct Hs' as [-> | ->]; split; unfold holders; simpl; rewrite ?Hd, ?Hp; simpl;
      (done || lia).
Qed.

Lemma UnloadWallet_inv (env : Env) (s s' : St) (r : outcome unit) (p : list (option nat))
    (c : list (nat * W)) (reg : list nat) :
  UnloadWallet env s = (r, s') → loader_inv (mkSys s p c reg) → loader_inv (mkSys s' p c reg).
Proof.
  unfold UnloadWallet, bind, gets. intros Hs Hinv. destruct (wallet (ld s)) as [w|] eqn:Ew.
  2:{ by injection Hs as <- <-. }
  destruct (db (ld s)) as [i|] eqn:Ed; [|by injection Hs as <- <-].
  unfold checkE in Hs. destruct (close_db env); [by injection Hs as <- <-|].
  injection Hs as <- <-. destruct Hinv as [H1 H2 H3 H3' H4 H5]. unfold holders in *. simpl in *.
  rewrite Ed in *. simpl in *.
  assert (Hp : omap id p = []) by (destruct (omap id p); simpl in *; [done|lia]).
  assert (Hnone : ∀ j : nat, j ∈ [] → dbfile s = Some j ∧ j ∈ opened s) by set_solver.
  split; unfold holders; simpl; rewrite ?Hp; simpl; try (done || lia).
  intros j Hj. set_solver.
Qed.

Lemma create_inv (env : Env) (pp : bytes) (s s' : St) (r : outcome W) (p : list (option nat))
    (c : list (nat * W)) (reg : list nat) :
  create_post env pp s s' r → loader_inv (mkSys s p c reg) → loader_inv (mkSys s' p c reg).
Proof.
  intros Hc Hinv. destruct r as [w|e|]; [| |done]; unfold create_post in Hc.
  - destruct Hc as (_ & _ & Hw & Hf & _ & Hld & Hf' & Ho & Hcl).
    eapply (inv_load w); [by left| |done..|rewrite Ho; set_solver].
    destruct Hinv as [_ _ _ _ _ H5]. unfold holders in H5. simpl in *.
    destruct (omap id p) as [|j l'] eqn:Ep; [done|].
    destruct (H5 j) as [? _]; [set_solver|congruence].
  - destruct Hc as (_ & Hld & Hcl & Hf & Ho).
    eapply inv_frame; [done..| |]; [unfold holders; simpl; by rewrite Hld|].
    intros j Hj. destruct Hinv as [_ _ _ _ _ H5]. destruct (H5 j Hj) as [Hfj Hoj]. simpl in *.
    destruct Hf as [->|[Hf _]]; [|congruence]. split; [done|]. rewrite Ho. set_solver.
Qed.

Lemma lstep_inv (x y : Sys) : lstep x y → loader_inv x → loader_inv y.
Proof.
  destruct 1 as [fn s s' o p c reg Hs|fn w s s' p c1 c2 reg Hs|wo env pp s s' r p c reg Hs
    |s s' p c reg Hs|env s s' i p1 p2 c reg Hs|env s s' e p1 p2 c reg Hs
    |env i pp s s' r p1 p2 c reg Hs|env s s' r p c reg Hs]; intros Hinv.
  - by eapply run_after_load_inv.
  - by eapply call_fn_inv.
  - eapply create_inv; [|done]. destruct wo; by eapply create_with_spec.
  - unfold open_start, bind, gets in Hs. destruct (wallet (ld s)); [done|].
    injection Hs as <-. eapply inv_frame; [done..|]. apply Hinv.
  - by eapply OpenDB_inv.
  - unfold OpenDB in Hs. assert (s' = s) as ->.
    { destruct (open_db env), (dbfile s); try case_decide; by injection Hs. }
    eapply inv_frame; [done..| |apply Hinv]. unfold holders. simpl. by rewrite opening_none.
  - by eapply open_finish_inv.
  - by eapply UnloadWallet_inv.
Qed.

(** Loading calls what waits, in order. *)
Lemma lstep_load (x y : Sys) (w : W) :
  lstep x y → wallet (ld (st x)) = None → wallet (ld (st y)) = Some w →
  called (st y) = called (st x) ++ ((λ fn, (fn, w)) <$> callbacks (ld (st x))) ∧
  callbacks (ld (st y)) = [].
Proof.
  destruct 1 as [fn s s' o p c reg Hs|fn w' s s' p c1 c2 reg Hs|wo env pp s s' r p c reg Hs
    |s s' p c reg Hs|env s s' i p1 p2 c reg Hs|env s s' e p1 p2 c reg Hs
    |env i pp s s' r p1 p2 c reg Hs|env s s' r p c reg Hs]; cbn; intros Hn Hw.
  - unfold after_load_locked, bind, gets, modify, ret in Hs. rewrite Hn in Hs.
    injection Hs as <- <-. by cbn in *; rewrite Hn in Hw.
  - injection Hs as <-. by cbn in *; rewrite Hn in Hw.
  - assert (Hc : create_post env pp s s' r) by (destruct wo; by eapply create_with_spec).
    destruct r as [w'|e|]; [| |done]; unfold create_post in Hc.
    + destruct Hc as (_ & _ & _ & _ & _ & Hld & _ & _ & Hcl). rewrite Hld in *. cbn in Hw.
      by injection Hw as <-.
    + destruct Hc as (_ & Hld & _). congruence.
  - unfold open_start, bind, gets in Hs. rewrite Hn in Hs. injection Hs as <-. congruence.
  - unfold OpenDB in Hs. destruct (open_db env); [done|]. destruct (dbfile s); [|done].
    case_decide; [done|]. injection Hs as <- <-. cbn in Hw. congruence.
  - unfold OpenDB in Hs. assert (s' = s) as ->; [|congruence].
    destruct (open_db env), (dbfile s); try case_decide; by injection Hs.
  - apply open_finish_cases in Hs as [(w' & -> & Hl)|[_ [-> | ->]]]; [|cbn in *; congruence..].
    rewrite onLoaded_eq in Hl. injection Hl as <-. cbn in *. by injection Hw as <-.
  - unfold UnloadWallet, bind, gets in Hs. rewrite Hn in Hs. injection Hs as <- <-. congruence.
Qed.

(** C7. The loader under any interleaving of its operations, with several
    [OpenExistingWallet] and [RunAfterLoad] that race while they do not hold
    the mutex.  At most one goroutine or the loader has the database file open,
    so that an open never replaces a loaded wallet, and a wallet is loaded
    exactly when its database is held.  Every function that was registered has
    been called exactly once, or waits while no wallet is loaded, or is about to
    be called by the [RunAfterLoad] that found one loaded.  Those that wait are
    the ones registered last, and the step that loads a wallet calls them with
    it, in the order of registration, and leaves none waiting. *)
Theorem loader_interleavings (l : Loader) (d : DirState) (file : option nat) (n : nat) (x : Sys) :
  wallet l = None → db l = None → callbacks l = [] →
  rtc lstep (sys_init l d file n) x →
  loader_inv x ∧
  ∀ y w, lstep x y → wallet (ld (st x)) = None → wallet (ld (st y)) = Some w →
    called (st y) = called (st x) ++ ((λ fn, (fn, w)) <$> callbacks (ld (st x))) ∧
    callbacks (ld (st y)) = [].
Proof.
  intros Hw Hd Hc Hr. split; [|intros y w; apply lstep_load].
  assert (Hi : loader_inv (sys_init l d file n)).
  { split; unfold holders; simpl; rewrite ?Hw, ?Hd, ?Hc; simpl; try done; [lia|set_solver]. }
  revert Hi. induction Hr as [|x y z Hs _ IH]; [done|]. intros Hi.
  by apply IH, (lstep_inv x).
Qed.

(** Opening and unloading: a failed open leaves the loader as it was and
    its database closed (unless closing fails), so that it can be tried again;
    after a successful open, unloading the wallet brings back the state before,
    but for the callbacks, which have been called. *)
Theorem OpenExistingWallet_spec (env : Env) (pubPass : bytes) (s s' : St) (r : outcome W) :
  OpenExistingWallet env pubPass s = (r, s') →
  match r with
  | Ok w =>
      wallet (ld s) = None ∧ (∃ i, db (ld s') = Some i ∧ dbfile s = Some i ∧ i ∉ opened s) ∧
      wallet (ld s') = Some w ∧
      called s' = called s ++ ((λ fn, (fn, w)) <$> callbacks (ld s)) ∧
      ∀ env', close_db env' = None → db (ld s) = None →
        UnloadWallet env' s' =
          (Ok tt, mkSt (with_load [] None None (ld s)) (dir s) (dbfile s) (opened s)
                       (next_db s) (called s'))
  | Err _ => s' = s ∨ close_db env ≠ None ∧ ld s' = ld s ∧ called s' = called s
  | Panic => False
  end.
Proof.
  unfold OpenExistingWallet, open_start, bind, gets, wrapE, OpenDB. intros H.
  destruct (wallet (ld s)) eqn:Ew; [by injection H as <- <-; left|]. unfold ret in H.
  destruct (open_db env); [by injection H as <- <-; left|].
  destruct (dbfile s) as [i|] eqn:Ef; [|by injection H as <- <-; left].
  destruct (decide (i ∈ opened s)) as [|Hno]; [by injection H as <- <-; left|].
  assert (Hclose : filter (λ j, j ≠ i) (i :: opened s) = opened s).
  { rewrite filter_cons_False by (intros Hn; by apply Hn). apply filter_all. set_solver. }
  unfold open_finish, Open, bind, gets, ret, fail in H. simpl in H.
  destruct (open_wallet env _) as [e|w]; simpl in H.
  - destruct (close_db env); injection H as <- <-; [by right|left].
    unfold Close, set_opened. simpl. rewrite Hclose. destruct s; simpl in *. by subst.
  - injection H as <- <-. simpl. split_and!; try done; [by eauto|].
    intros env' Hc _. unfold UnloadWallet, bind, gets, checkE, ret, modify. simpl. rewrite Hc.
    unfold Close, set_ld, set_opened, with_load. simpl. by rewrite Hclose, Ef.
Qed.
End Loader.

(** ** Witnesses *)
Definition no_stake : StakeOptions := mkStakeOptions false 0 false None None 0 "".
Definition toy_loader : Loader (W := string) :=
  NewLoader "mainnet" "/wallets/1" no_stake 20 false 10000 10 false.
Definition toy_env : Env (W := string) :=
  mkEnv None None None None None false None None (λ c, inr "wallet") None None.
Lemma create_wallet_spec_witness :
  ∃ s', CreateNewWallet toy_env [] (mkSt toy_loader DirMissing None [] 0 []) = (Ok "wallet", s') ∧
    dbfile s' = Some 0.
Proof.
  eexists. split; [reflexivity|].
  destruct (create_wallet_spec false toy_env [] (mkSt toy_loader DirMissing None [] 0 []) _
    (Ok "wallet") eq_refl) as (_ & _ & _ & _ & _ & _ & Hf & _).
  exact Hf.
Defined.

(** Two goroutines open the same file: the second cannot. *)
Lemma loader_interleavings_witness :
  ∃ x, rtc lstep (sys_init toy_loader DirIsDir (Some 0) 1) x ∧
    opening x = [None; Some 0] ∧ length (holders x) ≤ 1.
Proof.
  assert (Hr : rtc lstep (sys_init toy_loader DirIsDir (Some 0) 1)
    (mkSys (mkSt toy_loader DirIsDir (Some 0) [0] 1 []) [None; Some 0] [] [])).
  { eapply rtc_l; [eapply L_open_start; reflexivity|].
    eapply rtc_l; [eapply L_open_start; reflexivity|].
    eapply rtc_l; [eapply (L_OpenDB toy_env _ _ 0 [None] [] []); reflexivity|]. apply rtc_refl. }
  eexists. split; [exact Hr|]. split; [reflexivity|].
  exact (inv_one _ (proj1 (loader_interleavings toy_loader DirIsDir (Some 0) 1 _
    eq_refl eq_refl eq_refl Hr))).
Defined.

(** The comment of [RunAfterLoad] says that functions are executed in a single
    goroutine in the order they are added.  Of two that find the wallet loaded,
    the second may be called first, and even after the wallet was unloaded. *)
Theorem RunAfterLoad_out_of_order :
  ∃ x, rtc lstep (sys_init toy_loader DirMissing None 0) x ∧
    registered x = [1; 2] ∧ called (st x) = [(2, "wallet"); (1, "wallet")] ∧
    wallet (ld (st x)) = None.
Proof.
  eexists. split; [|split; [|split]].
  - eapply rtc_l; [eapply (L_create false toy_env []); reflexivity|].
    eapply rtc_l; [eapply (L_RunAfterLoad 1); reflexivity|].
    eapply rtc_l; [eapply (L_RunAfterLoad 2); reflexivity|].
    eapply rtc_l; [eapply (L_call_fn 2 "wallet" _ _ _ [(1, "wallet")] []); reflexivity|].
    eapply rtc_l; [eapply (L_UnloadWallet toy_env); reflexivity|].
    eapply rtc_l; [eapply (L_call_fn 1 "wallet" _ _ _ [] []); reflexivity|]. apply rtc_refl.
  - reflexivity.
  - reflexivity.
  - reflexivity.
Qed.

(** A callback waits; the wallet is opened and unloaded again. *)
Definition waiting : St (W := string) :=
  mkSt (with_load [7] None None toy_loader) DirIsDir (Some 0) [] 1 [].

Lemma OpenExistingWallet_spec_witness :
  ∃ s', OpenExistingWallet toy_env [] waiting = (Ok "wallet", s') ∧
    called s' = [(7, "wallet")] ∧ wallet (ld s') = Some "wallet".
Proof.
  eexists. split; [reflexivity|].
  destruct (OpenExistingWallet_spec toy_env [] waiting _ (Ok "wallet") eq_refl)
    as (_ & _ & Hw & Hc & _).
  split; [exact Hc|exact Hw].
Defined.
