(* ===== verification/Config.v ===== *)
(** * [multiwallet_config.go] and [wallet_config.go]: user configuration

    The buckets of the wallets database as a key-value interface, the typed
    getters and setters over it, and the keys that wallets have in the bucket
    they share. *)
From Stdlib Require Import Decimal DecimalN DecimalString.
From S2P Require Import Prelude.

(** ** The key-value part of storm: [Get], [Set], [Delete] and [Drop] on a
    bucket; values are what the codec of the database makes of them. *)
Class KvStore (D Val : Type) := {
  kv_get : D → string → string → goerr + Val;
  kv_set : D → string → string → Val → option goerr * D;
  kv_delete : D → string → string → option goerr * D;
  kv_drop : D → string → option goerr * D
}.

Definition ErrKeyNotFound : goerr := ELib "storm.ErrNotFound".

(** What is there is read back; a call that fails changes nothing. *)
Class KvStoreLaws (D Val : Type) `{!KvStore D Val} := {
  kv_set_ok d b k v d' : kv_set d b k v = (None, d') →
    kv_get d' b k = inr v ∧ ∀ b' k', (b', k') ≠ (b, k) → kv_get d' b' k' = kv_get d b' k';
  kv_set_err d b k v e d' : kv_set d b k v = (Some e, d') → d' = d;
  kv_delete_ok d b k d' : kv_delete d b k = (None, d') →
    kv_get d' b k = inl ErrKeyNotFound ∧
    ∀ b' k', (b', k') ≠ (b, k) → kv_get d' b' k' = kv_get d b' k';
  kv_delete_err d b k e d' : kv_delete d b k = (Some e, d') → d' = d
}.

(** A Go type in the codec: its zero value, and decoding what was encoded. *)
Record Codec (Val T : Type) := mkCodec {
  zero : T; enc : T → Val; dec : Val → option T }.
Arguments zero {_ _} _.
Arguments enc {_ _} _ _.
Arguments dec {_ _} _ _.

Definition roundtrips {Val T} (c : Codec Val T) (v : T) : Prop := dec c (enc c v) = Some v.

(** ** strconv.Itoa and [%d] *)
Definition Itoa (z : Z) : string :=
  if decide (z < 0)%Z
  then String.append "-" (NilEmpty.string_of_uint (N.to_uint (Z.to_N (- z))))
  else NilEmpty.string_of_uint (N.to_uint (Z.to_N z)).

(** utils.go *)
Definition WalletUniqueConfigKey (walletID : Z) (key : string) : string :=
  String.append (Itoa walletID) key.

Section Config.
Context {D Val : Type} `{!KvStore D Val}.

Definition userConfigBucketName : string := "user_config".
Definition LogLevelConfigKey : string := "log_level".
Definition SpendUnconfirmedConfigKey : string := "spend_unconfirmed".
Definition CurrencyConversionConfigKey : string := "currency_conversion_option".
Definition IsStartupSecuritySetConfigKey : string := "startup_security_set".
Definition StartupSecurityTypeConfigKey : string := "startup_security_type".
Definition UseBiometricConfigKey : string := "use_biometric".
Definition IncomingTxNotificationsConfigKey : string := "tx_notification_enabled".
Definition BeepNewBlocksConfigKey : string := "beep_new_blocks".
Definition SyncOnCellularConfigKey : string := "always_sync".
Definition NetworkModeConfigKey : string := "network_mode".
Definition SpvPersistentPeerAddressesConfigKey : string := "spv_peer_addresses".
Definition UserAgentConfigKey : string := "user_agent".
Definition LastTxHashConfigKey : string := "last_tx_hash".
Definition VSPHostConfigKey : string := "vsp_host".
Definition PassphraseTypePin : Z := 0.
Definition PassphraseTypePass : Z := 1.

(** ** multiwallet_config.go *)
Definition walletConfigSetFn (walletID : Z) (key : string) (v : Val) (d : D) : option goerr * D :=
  kv_set d userConfigBucketName (WalletUniqueConfigKey walletID key) v.

Definition walletConfigReadFn (walletID : Z) (multiwallet : bool) (key : string) (d : D)
    : goerr + Val :=
  let key := if multiwallet then key else WalletUniqueConfigKey walletID key in
  kv_get d userConfigBucketName key.

(** Errors of the setters are logged only. *)
Definition SaveUserConfigValue (key : string) (v : Val) (d : D) : D :=
  (kv_set d userConfigBucketName key v).2.
Definition DeleteUserConfigValueForKey (key : string) (d : D) : D :=
  (kv_delete d userConfigBucketName key).2.
Definition ClearConfig (d : D) : D := (kv_drop d userConfigBucketName).2.

Definition ErrDecode : goerr := ENew "cannot decode value".

(** [valueOut], the zero value when it is not written, and the error. *)
Definition decode_out {T} (c : Codec Val T) (r : goerr + Val) : T * option goerr :=
  match r with
  | inl err => (zero c, Some err)
  | inr v => match dec c v with Some x => (x, None) | None => (zero c, Some ErrDecode) end
  end.

Definition ReadUserConfigValue {T} (c : Codec Val T) (key : string) (d : D) : T * option goerr :=
  decode_out c (kv_get d userConfigBucketName key).

(** The default replaces a key that is not set, and only that. *)
Definition with_default {T} (defaultValue : T) (r : T * option goerr) : T :=
  if decide (r.2 = Some ErrKeyNotFound) then defaultValue else r.1.

Section typed.
Context {F : Type} (bool_c : Codec Val bool) (double_c : Codec Val F)
  (int_c int32_c int64_c : Codec Val Z) (string_c : Codec Val string).

Definition SetBoolConfigValueForKey (key : string) (v : bool) : D → D :=
  SaveUserConfigValue key (enc bool_c v).
Definition SetDoubleConfigValueForKey (key : string) (v : F) : D → D :=
  SaveUserConfigValue key (enc double_c v).
Definition SetIntConfigValueForKey (key : string) (v : Z) : D → D :=
  SaveUserConfigValue key (enc int_c v).
Definition SetInt32ConfigValueForKey (key : string) (v : Z) : D → D :=
  SaveUserConfigValue key (enc int32_c v).
Definition SetLongConfigValueForKey (key : string) (v : Z) : D → D :=
  SaveUserConfigValue key (enc int64_c v).
Definition SetStringConfigValueForKey (key : string) (v : string) : D → D :=
  SaveUserConfigValue key (enc string_c v).

Definition ReadBoolConfigValueForKey (key : string) (def : bool) (d : D) : bool :=
  with_default def (ReadUserConfigValue bool_c key d).
Definition ReadDoubleConfigValueForKey (key : string) (def : F) (d : D) : F :=
  with_default def (ReadUserConfigValue double_c key d).
Definition ReadIntConfigValueForKey (key : string) (def : Z) (d : D) : Z :=
  with_default def (ReadUserConfigValue int_c key d).
Definition ReadInt32ConfigValueForKey (key : string) (def : Z) (d : D) : Z :=
  with_default def (ReadUserConfigValue int32_c key d).
Definition ReadLongConfigValueForKey (key : string) (def : Z) (d : D) : Z :=
  with_default def (ReadUserConfigValue int64_c key d).
Definition ReadStringConfigValueForKey (key : string) (d : D) : string :=
  (ReadUserConfigValue string_c key d).1.

(** utils.go *)
Definition DefaultRequiredConfirmations : Z := 2.
Definition RequiredConfirmations (d : D) : Z :=
  if ReadBoolConfigValueForKey SpendUnconfirmedConfigKey false d then 0%Z
  else DefaultRequiredConfirmations.
Definition wallet_RequiredConfirmations (walletID : Z) (d : D) : Z :=
  if (decode_out bool_c (walletConfigReadFn walletID true SpendUnconfirmedConfigKey d)).1
  then 0%Z else DefaultRequiredConfirmations.
End typed.

(** ** wallet_config.go

    [prepared] tells whether the functions of the wallet are set. *)
Definition ErrFailedPrecondition : goerr := ENew "failed_precondition".

Definition wallet_SaveUserConfigValue (prepared : bool) (walletID : Z) (key : string) (v : Val)
    (d : D) : D :=
  if negb prepared then d else (walletConfigSetFn walletID key v d).2.

Definition wallet_ReadUserConfigValue {T} (c : Codec Val T) (prepared : bool) (walletID : Z)
    (key : string) (d : D) : T * option goerr :=
  if negb prepared then (zero c, Some ErrFailedPrecondition)
  else decode_out c (walletConfigReadFn walletID false key d).

Section wallet_typed.
Context {F : Type} (bool_c : Codec Val bool) (double_c : Codec Val F)
  (int_c int32_c int64_c : Codec Val Z) (string_c : Codec Val string).
Context (prepared : bool) (walletID : Z).

Definition wallet_SetBool (key : string) (v : bool) : D → D :=
  wallet_SaveUserConfigValue prepared walletID key (enc bool_c v).
Definition wallet_SetDouble (key : string) (v : F) : D → D :=
  wallet_SaveUserConfigValue prepared walletID key (enc double_c v).
Definition wallet_SetInt (key : string) (v : Z) : D → D :=
  wallet_SaveUserConfigValue prepared walletID key (enc int_c v).
Definition wallet_SetInt32 (key : string) (v : Z) : D → D :=
  wallet_SaveUserConfigValue prepared walletID key (enc int32_c v).
Definition wallet_SetLong (key : string) (v : Z) : D → D :=
  wallet_SaveUserConfigValue prepared walletID key (enc int64_c v).
Definition wallet_SetString (key : string) (v : string) : D → D :=
  wallet_SaveUserConfigValue prepared walletID key (enc string_c v).

Definition wallet_ReadBool (key : string) (def : bool) (d : D) : bool :=
  with_default def (wallet_ReadUserConfigValue bool_c prepared walletID key d).
Definition wallet_ReadDouble (key : string) (def : F) (d : D) : F :=
  with_default def (wallet_ReadUserConfigValue double_c prepared walletID key d).
Definition wallet_ReadInt (key : string) (def : Z) (d : D) : Z :=
  with_default def (wallet_ReadUserConfigValue int_c prepared walletID key d).
Definition wallet_ReadInt32 (key : string) (def : Z) (d : D) : Z :=
  with_default def (wallet_ReadUserConfigValue int32_c prepared walletID key d).
Definition wallet_ReadLong (key : string) (def : Z) (d : D) : Z :=
  with_default def (wallet_ReadUserConfigValue int64_c prepared walletID key d).
Definition wallet_ReadString (key : string) (def : string) (d : D) : string :=
  with_default def (wallet_ReadUserConfigValue string_c prepared walletID key d).
End wallet_typed.
End Config.

(** ** Keys *)
Definition is_digit (c : Ascii.ascii) : bool :=
  (48 <=? Ascii.N_of_ascii c)%N && (Ascii.N_of_ascii c <=? 57)%N.

(** No key of the source starts with a digit. *)
Definition no_digit (key : string) : bool :=
  match key with EmptyString => true | String c _ => negb (is_digit c) end.

Lemma uint_key_inj (a b : uint) (k1 k2 : string) :
  no_digit k1 → no_digit k2 →
  String.append (NilEmpty.string_of_uint a) k1 = String.append (NilEmpty.string_of_uint b) k2 →
  a = b ∧ k1 = k2.
Proof.
  intros H1 H2. revert b.
  induction a as [|a IH|a IH|a IH|a IH|a IH|a IH|a IH|a IH|a IH|a IH]; intros b Heq;
    destruct b as [|b|b|b|b|b|b|b|b|b|b]; simpl in Heq; try done;
    try (injection Heq as Heq; destruct (IH _ Heq) as [-> ->]; done); exfalso.
  all: first [pose proof (Heq : k1 = _) as Hk; rewrite Hk in H1; done
             |pose proof (Heq : _ = k2) as Hk; rewrite <- Hk in H2; done].
Qed.

Lemma Itoa_key_inj (i j : Z) (k1 k2 : string) :
  (0 ≤ i)%Z → (0 ≤ j)%Z → no_digit k1 → no_digit k2 →
  String.append (Itoa i) k1 = String.append (Itoa j) k2 → i = j ∧ k1 = k2.
Proof.
  intros Hi Hj H1 H2. unfold Itoa. rewrite !decide_False by lia. intros Heq.
  destruct (uint_key_inj _ _ _ _ H1 H2 Heq) as [Hu ->]. split; [|done].
  assert (Z.to_N i = Z.to_N j); [|lia].
  rewrite <- (DecimalN.Unsigned.of_to (Z.to_N i)), Hu. apply DecimalN.Unsigned.of_to.
Qed.

Section laws.
Context {D Val : Type} `{!KvStore D Val} `{!KvStoreLaws D Val}.

(** The wallets share one bucket without disturbing each other: after a
    value is saved for a wallet, the wallet reads it back, and any other wallet
    or key, and the values of the multiwallet, read as before, as long as keys
    do not start with a digit (no key of the source does). *)
Theorem wallet_config_separate {T T' : Type} (c : Codec Val T) (c' : Codec Val T') (i j : Z)
    (key key' : string) (v : T) (def : T) (def' : T') (d d' : D) :
  (0 ≤ i)%Z → (0 ≤ j)%Z → no_digit key → no_digit key' → roundtrips c v →
  kv_set d userConfigBucketName (WalletUniqueConfigKey i key) (enc c v) = (None, d') →
  wallet_SaveUserConfigValue true i key (enc c v) d = d' ∧
  with_default def (wallet_ReadUserConfigValue c true i key d') = v ∧
  ((i, key) ≠ (j, key') →
   with_default def' (wallet_ReadUserConfigValue c' true j key' d') =
   with_default def' (wallet_ReadUserConfigValue c' true j key' d)) ∧
  with_default def' (ReadUserConfigValue c' key' d') =
  with_default def' (ReadUserConfigValue c' key' d).
Proof.
  intros Hi Hj Hk Hk' Hrt Hset. destruct (kv_set_ok _ _ _ _ _ Hset) as [Hg Ho].
  unfold wallet_SaveUserConfigValue, wallet_ReadUserConfigValue, walletConfigSetFn,
    walletConfigReadFn, ReadUserConfigValue. simpl. rewrite Hset, Hg. split_and!.
  - done.
  - simpl. by rewrite Hrt.
  - intros Hne. rewrite Ho; [done|]. intros [= Heq].
    destruct (Itoa_key_inj j i key' key) as [-> ->]; done.
  - rewrite Ho; [done|]. intros [= ->]. unfold WalletUniqueConfigKey, Itoa in Hk'.
    rewrite decide_False in Hk' by lia.
    destruct (N.to_uint (Z.to_N i)) eqn:Eu; try done.
    pose proof (DecimalN.Unsigned.of_to (Z.to_N i)) as Hof. rewrite Eu in Hof. simpl in Hof.
    assert (i = 0)%Z as -> by lia. done.
Qed.
End laws.

(** Keys that start with a digit collide: wallet 1 with key "1x" and wallet
    11 with key "x" share a value. *)
Theorem wallet_keys_collide :
  WalletUniqueConfigKey 1 "1x" = WalletUniqueConfigKey 11 "x".
Proof. reflexivity. Qed.

(** ** A store over finite maps *)
Module ToyKv.
Abbreviation t := (gmap (string * string) (bool + Z)).
#[global] Instance kv : KvStore t (bool + Z) := {|
  kv_get d b k := match d !! (b, k) with Some v => inr v | None => inl ErrKeyNotFound end;
  kv_set d b k v := (None, <[(b, k) := v]> d);
  kv_delete d b k := (None, delete (b, k) d);
  kv_drop d b := (None, filter (λ x, x.1.1 ≠ b) d)
|}.
#[global] Instance kv_laws : KvStoreLaws t (bool + Z).
Proof.
  split; simpl; intros; simplify_eq; try done.
  - rewrite lookup_insert_eq. split; [done|]. intros. by rewrite lookup_insert_ne.
  - rewrite lookup_delete_eq. split; [done|]. intros. by rewrite lookup_delete_ne.
Qed.
Definition int_codec : Codec (bool + Z) Z :=
  mkCodec _ _ 0%Z inr (λ v, match v with inr z => Some z | _ => None end).
End ToyKv.

Lemma wallet_config_separate_witness :
  with_default 5%Z (wallet_ReadUserConfigValue ToyKv.int_codec true 1 NetworkModeConfigKey
    (wallet_SaveUserConfigValue true 1 NetworkModeConfigKey (inr 3%Z) (∅ : ToyKv.t))) = 3%Z.
Proof.
  edestruct (wallet_config_separate ToyKv.int_codec ToyKv.int_codec 1 11 NetworkModeConfigKey
    "x" 3%Z 5%Z 5%Z (∅ : ToyKv.t)) as (_ & H & _);
    [lia|lia|exact I|exact I|reflexivity|reflexivity|].
  exact H.
Defined.
