(* ===== verification/Utils.v ===== *)
(** * Functions of utils.go on strings and numbers

    Peer addresses, names, and the times and percentages shown to users.  The
    functions of Go's [net], [strings] and [fmt] that they call are written out
    on lists of characters. *)
From Stdlib Require Import Strings.Ascii.
From S2P Require Import Prelude Float TxHelper Config.

(** ** Characters of a string *)
Abbreviation chars := (list ascii).
Definition to_chars (s : string) : chars := String.list_ascii_of_string s.
Definition of_chars (l : chars) : string := String.string_of_list_ascii l.

(** [strings.IndexByte] and [strings.LastIndexByte]. *)
Fixpoint index_byte (c : ascii) (l : chars) : option nat :=
  match l with
  | [] => None
  | x :: l' => if decide (x = c) then Some 0 else S <$> index_byte c l'
  end.
Fixpoint last_index (c : ascii) (l : chars) : option nat :=
  match l with
  | [] => None
  | x :: l' => match last_index c l' with
               | Some i => Some (S i)
               | None => if decide (x = c) then Some 0 else None
               end
  end.

(** [strings.Split] by one character. *)
Fixpoint split_chars (c : ascii) (l : chars) : chars * list chars :=
  match l with
  | [] => ([], [])
  | x :: l' => let '(w, ws) := split_chars c l' in
               if decide (x = c) then ([], w :: ws) else (x :: w, ws)
  end.
Definition Split (s : string) (c : ascii) : list string :=
  let '(w, ws) := split_chars c (to_chars s) in of_chars <$> (w :: ws).

(** ** Host and port: [net.SplitHostPort] and [net.JoinHostPort] *)
Local Open Scope char_scope.
Definition missingPort : goerr := ELib "missing port in address".
Definition tooManyColons : goerr := ELib "too many colons in address".

Definition has (c : ascii) (l : chars) : bool := bool_decide (c ∈ l).

(** The port starts after the last colon; a host in brackets ends before it.
    [j] and [k] are where no bracket may follow any more. *)
Definition SplitHostPort (a : chars) : goerr + (chars * chars) :=
  match last_index ":" a with
  | None => inl missingPort
  | Some i =>
      match (match a with
             | "[" :: _ =>
                 match index_byte "]" a with
                 | None => inl (ELib "missing ']' in address")
                 | Some e =>
                     if decide (S e = length a) then inl missingPort
                     else if decide (S e = i) then inr (take (e - 1) (drop 1 a), 1, S e)
                     else if decide (a !! S e = Some ":") then inl tooManyColons
                     else inl missingPort
                 end
             | _ => if has ":" (take i a) then inl tooManyColons else inr (take i a, 0, 0)
             end) with
      | inl err => inl err
      | inr (host, j, k) =>
          if has "[" (drop j a) then inl (ELib "unexpected '[' in address")
          else if has "]" (drop k a) then inl (ELib "unexpected ']' in address")
          else inr (host, drop (S i) a)
      end
  end.

Definition JoinHostPort (host port : chars) : chars :=
  if has ":" host then "[" :: host ++ "]" :: ":" :: port else host ++ ":" :: port.

(** A missing port is added; other errors are returned. *)
Definition normalize (addr defaultPort : chars) : goerr + chars :=
  match SplitHostPort addr with
  | inr (host, port) => inr (JoinHostPort host port)
  | inl origErr =>
      let addr := JoinHostPort addr defaultPort in
      match SplitHostPort addr with
      | inl _ => inl origErr
      | inr _ => inr addr
      end
  end.
Definition NormalizeAddress (addr defaultPort : string) : goerr + string :=
  match normalize (to_chars addr) (to_chars defaultPort) with
  | inl err => inl err
  | inr a => inr (of_chars a)
  end.
Local Close Scope char_scope.

(** ** Names and times *)
Definition TransactionDirectionName (direction : Z) : string :=
  if decide (direction = TxDirectionSent) then "Sent"
  else if decide (direction = TxDirectionReceived) then "Received"
  else if decide (direction = TxDirectionTransferred) then "Yourself"
  else "invalid".

Definition CalculateTotalTimeRemaining (timeRemainingInSeconds : Z) : string :=
  let minutes := Z.quot timeRemainingInSeconds 60 in
  if decide (minutes > 0)%Z then String.append (Itoa minutes) " min"
  else String.append (Itoa timeRemainingInSeconds) " sec".

Definition RescanPercentage : f64 := of_ratio 1 10.
Definition DiscoveryPercentage : f64 := of_ratio 8 10.

Definition roundUp (conv : Z → f64 → Z) (n : f64) : Z := to_int conv 32 (Round n).

(** [Duration.Hours], of a duration in nanoseconds. *)
Definition Hours (d : Z) : f64 :=
  fadd (of_int (Z.quot d 3600000000000))
       (fdiv (of_int (Z.rem d 3600000000000)) (of_int 3600000000000)).

Definition CalculateDaysBehind (conv : Z → f64 → Z) (since : Z) : string :=
  let daysBehind := to_int conv 64 (Round (fdiv (Hours since) (of_int 24))) in
  if decide (daysBehind = 0)%Z then "<1 day"
  else if decide (daysBehind = 1)%Z then "1 day"
  else String.append (Itoa daysBehind) " days".

(** ** Keys, seeds and amounts: calls of the libraries *)
Section libraries.
Context (NewKeyFromString : string → option goerr)        (* hdkeychain, for the network *)
        (ErrInvalidChild : goerr)
        (hd_GenerateSeed : goerr + list Byte.byte)        (* of the recommended length *)
        (EncodeMnemonic : list Byte.byte → string)        (* walletseed *)
        (DecodeUserInput : string → goerr + list Byte.byte)
        (ToCoin : Z → f64) (NewAmount : f64 → goerr + Z). (* dcrutil *)

Definition ValidateExtPubKey (extendedPubKey : string) : option goerr :=
  match NewKeyFromString extendedPubKey with
  | None => None
  | Some err => Some (ENew (if decide (err = ErrInvalidChild) then "unusable_seed" else "invalid"))
  end.

Definition GenerateSeed : goerr + string :=
  match hd_GenerateSeed with inl err => inl err | inr seed => inr (EncodeMnemonic seed) end.

Definition VerifySeed (seedMnemonic : string) : bool :=
  match DecodeUserInput seedMnemonic with inl _ => false | inr _ => true end.

Definition AmountCoin (amount : Z) : f64 := ToCoin amount.

(** An amount that cannot be represented is logged. *)
Definition AmountAtom (f : f64) : Z :=
  match NewAmount f with inl _ => (-1)%Z | inr amount => amount end.

(** A generated seed is accepted, if the words of a seed decode to it. *)
Lemma generated_seed_verifies (s : string) :
  (∀ seed, DecodeUserInput (EncodeMnemonic seed) = inr seed) →
  GenerateSeed = inr s → VerifySeed s = true.
Proof.
  intros Hdec. unfold GenerateSeed, VerifySeed.
  destruct hd_GenerateSeed as [|seed]; [done|]. intros [= <-]. by rewrite Hdec.
Qed.
End libraries.

Example normalize_examples :
  NormalizeAddress "10.0.0.1" "9108" = inr "10.0.0.1:9108"%string ∧
  NormalizeAddress "10.0.0.1:1" "9108" = inr "10.0.0.1:1"%string ∧
  NormalizeAddress "::1" "9108" = inr "[::1]:9108"%string ∧
  NormalizeAddress "[::1]:1" "9108" = inr "[::1]:1"%string ∧
  NormalizeAddress "a:b:c" "1" = inr "[a:b:c]:1"%string ∧
  NormalizeAddress "[::1]" "1" = inl missingPort.
Proof. vm_compute. by split_and!. Qed.
Example split_example : Split "a;;b" ";" = ["a"; ""; "b"]%string.
Proof. reflexivity. Qed.
Example days : CalculateDaysBehind (λ _ _, 0%Z) (36 * 3600000000000) = "2 days"%string.
Proof. reflexivity. Qed.

(** ** Theorems *)
Local Open Scope char_scope.

Lemma last_index_None (c : ascii) (l : chars) : last_index c l = None ↔ c ∉ l.
Proof.
  induction l as [|x l IH]; simpl; [by split; [intros _ ?%elem_of_nil|]|].
  rewrite not_elem_of_cons. destruct (last_index c l); [|case_decide]; naive_solver.
Qed.

Lemma last_index_app (c : ascii) (l k : chars) : c ∉ k → last_index c (l ++ c :: k) = Some (length l).
Proof.
  intros Hk. apply last_index_None in Hk.
  induction l as [|x l IH]; simpl; [by rewrite Hk, decide_True|by rewrite IH].
Qed.

Lemma last_index_Some (c : ascii) (l : chars) (i : nat) :
  last_index c l = Some i → l = take i l ++ c :: drop (S i) l ∧ c ∉ drop (S i) l.
Proof.
  revert i. induction l as [|x l IH]; intros i; simpl; [done|].
  destruct (last_index c l) as [j|] eqn:E.
  - intros [= <-]. destruct (IH j eq_refl) as [H1 H2]. split; [simpl; by f_equal|done].
  - case_decide as Hx; [|done]. intros [= <-]. subst x. split; [done|].
    by apply last_index_None in E.
Qed.

Lemma index_byte_app (c : ascii) (l k : chars) : c ∉ l → index_byte c (l ++ c :: k) = Some (length l).
Proof.
  induction l as [|x l IH]; simpl; [by rewrite decide_True|].
  intros [Hx Hl]%not_elem_of_cons. rewrite decide_False by done. by rewrite IH.
Qed.

Lemma index_byte_Some (c : ascii) (l : chars) (i : nat) :
  index_byte c l = Some i → l = take i l ++ c :: drop (S i) l ∧ c ∉ take i l.
Proof.
  revert i. induction l as [|x l IH]; intros i; simpl; [done|]. case_decide as Hx.
  - intros [= <-]. subst x. split; [done|apply not_elem_of_nil].
  - destruct (index_byte c l) as [j|]; [|done]. intros [= <-].
    destruct (IH j eq_refl) as [H1 H2]. split; [simpl; by f_equal|].
    simpl. by apply not_elem_of_cons.
Qed.

Lemma has_false (c : ascii) (l : chars) : has c l = false ↔ c ∉ l.
Proof. unfold has. by rewrite bool_decide_eq_false. Qed.

(** What [SplitHostPort] gives. *)
Definition host_port (host port : chars) : Prop :=
  "[" ∉ host ∧ "]" ∉ host ∧ ":" ∉ port ∧ "[" ∉ port ∧ "]" ∉ port.

Lemma split_host_port (a host port : chars) :
  SplitHostPort a = inr (host, port) → host_port host port.
Proof.
  unfold SplitHostPort. destruct (last_index ":" a) as [i|] eqn:Ei; [|done].
  apply last_index_Some in Ei as [Ha Hport].
  assert (Hplain : ∀ r, (if has ":" (take i a) then inl tooManyColons
      else inr (take i a, 0, 0)) = inr r →
    match r with (h, j, k) => h = take i a ∧ j = 0 ∧ k = 0 end).
  { intros r. destruct (has _ _); [done|]. by intros [= <-]. }
  destruct (match a with "[" :: _ => _ | _ => _ end) as [err|[[h j] k]] eqn:Em; [done|].
  destruct (has "[" (drop j a)) eqn:E1; [done|]. destruct (has "]" (drop k a)) eqn:E2; [done|].
  intros [= <- <-]. apply has_false in E1, E2.
  assert (Hcase : (h = take i a ∧ j = 0 ∧ k = 0) ∨
    (∃ e a', a = "[" :: a' ∧ index_byte "]" a = Some e ∧ S e = i ∧ h = take (e - 1) a' ∧ j = 1 ∧ k = S e)).
  { destruct a as [|x a']; [left; by apply (Hplain (h, j, k))|].
    destruct (decide (x = "[")) as [->|Hx].
    - destruct (index_byte "]" ("[" :: a')) as [e|] eqn:Ee; [|done].
      case_decide; [done|]. case_decide as Hi; [|by case_decide].
      injection Em as <- <- <-. right. exists e, a'. by split_and!.
    - left. apply (Hplain (h, j, k)). rewrite <- Em.
      destruct x as [[] [] [] [] [] [] [] []]; try done. }
  destruct Hcase as [(-> & -> & ->)|(e & a' & -> & Ee & <- & -> & -> & ->)].
  - rewrite drop_0 in E1, E2. rewrite Ha in E1, E2.
    rewrite elem_of_app, elem_of_cons in E1, E2. unfold host_port. naive_solver.
  - simpl in E1. apply index_byte_Some in Ee as [Hsp Hnot].
    assert (Hh : ∀ c : ascii, c ∈ take (e - 1) a' → c ∈ take e ("[" :: a')).
    { intros c. destruct e as [|e]; [done|]. simpl. rewrite Nat.sub_0_r. set_solver. }
    assert (Hin : ∀ n (c : ascii), c ∈ take n a' ∨ c ∈ drop n a' → c ∈ a').
    { intros n c Hc. rewrite <- (take_drop n a'). by apply elem_of_app. }
    assert (Hd : drop (S (S e)) ("[" :: a') = drop 1 (drop (S e) ("[" :: a'))) by
      by rewrite drop_drop, Nat.add_comm.
    split_and!.
    + intros H. apply E1, (Hin (e - 1)). by left.
    + intros H. by apply Hnot, Hh.
    + done.
    + intros H. apply E1, (Hin (S e)). by right.
    + intros H. apply E2. rewrite Hd in H. destruct (drop (S e) ("[" :: a')); [done|]. set_solver.
Qed.

(** What is joined is split again. *)
Lemma split_join (host port : chars) :
  host_port host port → SplitHostPort (JoinHostPort host port) = inr (host, port).
Proof.
  intros (H1 & H2 & H3 & H4 & H5). unfold JoinHostPort, SplitHostPort.
  destruct (has ":" host) eqn:Eh.
  - assert (Ea : "[" :: host ++ "]" :: ":" :: port = (("[" :: host) ++ ["]"]) ++ ":" :: port)
      by (simpl; by rewrite <- app_assoc).
    assert (El : length (("[" :: host) ++ ["]"]) = S (S (length host)))
      by (rewrite length_app; simpl; lia).
    rewrite Ea, last_index_app, <- Ea by done.
    change ("[" :: host ++ "]" :: ":" :: port) with (("[" :: host) ++ "]" :: ":" :: port).
    rewrite index_byte_app by set_solver. rewrite El. cbn [length app].
    rewrite decide_False by (rewrite length_app; simpl; lia).
    rewrite decide_True by done. cbn [drop].
    replace (S (length host) - 1) with (length host) by lia. rewrite drop_0, take_app_length.
    rewrite (proj2 (has_false "[" (host ++ _))) by set_solver.
    replace (drop (S (length host)) (host ++ "]" :: ":" :: port)) with (":" :: port)
      by (by rewrite <- Nat.add_1_r, <- drop_drop, drop_app_length).
    rewrite (proj2 (has_false "]" (":" :: port))) by set_solver.
    replace (S (S (length host))) with (length host + 2) by lia.
    by rewrite <- drop_drop, drop_app_length.
  - apply has_false in Eh. rewrite last_index_app by done.
    assert (Hm : ∀ (A : Type) (x y : A), match host ++ ":" :: port with "[" :: _ => x | _ => y end = y).
    { intros A x y. destruct host as [|c host]; [done|]. simpl.
      assert (c ≠ "[") by set_solver. destruct c as [[] [] [] [] [] [] [] []]; done. }
    rewrite Hm, take_app_length, (proj2 (has_false ":" host)) by done. rewrite !drop_0.
    rewrite (proj2 (has_false "[" _)) by set_solver.
    rewrite (proj2 (has_false "]" _)) by set_solver.
    rewrite <- Nat.add_1_r, <- drop_drop, drop_app_length. done.
Qed.

Lemma drop_S_app (c : ascii) (l k : chars) : drop (S (length l)) (l ++ c :: k) = k.
Proof. by rewrite <- Nat.add_1_r, <- drop_drop, drop_app_length. Qed.

Lemma split_last (a host port : chars) :
  SplitHostPort a = inr (host, port) → ∃ i, last_index ":" a = Some i ∧ port = drop (S i) a.
Proof.
  unfold SplitHostPort. destruct (last_index ":" a) as [i|]; [|done].
  destruct (match a with "[" :: _ => _ | _ => _ end) as [err|[[h j] k]]; [done|].
  destruct (has _ _); [done|]. destruct (has _ _); [done|]. intros [= <- <-]. by exists i.
Qed.

Lemma join_port (a p host port : chars) :
  ":" ∉ p → SplitHostPort (JoinHostPort a p) = inr (host, port) → port = p.
Proof.
  intros Hp (i & Hi & ->)%split_last. unfold JoinHostPort in *. destruct (has ":" a).
  - assert (Ea : "[" :: a ++ "]" :: ":" :: p = (("[" :: a) ++ ["]"]) ++ ":" :: p)
      by (simpl; by rewrite <- app_assoc).
    rewrite Ea in *. rewrite last_index_app in Hi by done. injection Hi as <-. apply drop_S_app.
  - rewrite last_index_app in Hi by done. injection Hi as <-. apply drop_S_app.
Qed.

Lemma normalize_join (host port p : chars) :
  host_port host port → normalize (JoinHostPort host port) p = inr (JoinHostPort host port).
Proof. intros H. unfold normalize. by rewrite split_join. Qed.

Lemma to_of_chars (l : chars) : to_chars (of_chars l) = l.
Proof. apply String.list_ascii_of_string_of_list_ascii. Qed.

(** A peer address is normalised to one that has a host and a port: those
    of the given address if it has both, and the default port otherwise.  The
    host and the port are without brackets and the port without colons, so that
    the result can be split again, and normalising once more, with any default
    port, gives the joined host and port, which stay as they are. *)
Theorem NormalizeAddress_spec (addr defaultPort b : string) :
  ":" ∉ to_chars defaultPort → NormalizeAddress addr defaultPort = inr b →
  ∃ host port, SplitHostPort (to_chars b) = inr (host, port) ∧ host_port host port ∧
    match SplitHostPort (to_chars addr) with
    | inr hp => hp = (host, port)
    | inl _ => port = to_chars defaultPort
    end ∧
    ∀ p, NormalizeAddress b p = inr (of_chars (JoinHostPort host port)) ∧
      NormalizeAddress (of_chars (JoinHostPort host port)) p =
        inr (of_chars (JoinHostPort host port)).
Proof.
  intros Hp. unfold NormalizeAddress, normalize at 1.
  assert (Hend : ∀ h q p, SplitHostPort (to_chars b) = inr (h, q) →
    match normalize (to_chars b) (to_chars p) with inl err => inl err | inr a => inr (of_chars a) end =
      @inr goerr _ (of_chars (JoinHostPort h q)) ∧
    match normalize (to_chars (of_chars (JoinHostPort h q))) (to_chars p) with
    | inl err => inl err | inr a => inr (of_chars a) end =
      @inr goerr _ (of_chars (JoinHostPort h q))).
  { intros h q p Hs. pose proof (split_host_port _ _ _ Hs) as Hh.
    rewrite to_of_chars, normalize_join by done. unfold normalize. by rewrite Hs. }
  destruct (SplitHostPort (to_chars addr)) as [e|[h q]] eqn:Ea.
  - destruct (SplitHostPort (JoinHostPort _ _)) as [e'|[h q]] eqn:Ej; [done|]. intros [= <-].
    rewrite to_of_chars in *. exists h, q. split_and!; [done|by eapply split_host_port| |].
    + by eapply join_port.
    + intros p. by apply Hend.
  - intros [= <-]. pose proof (split_host_port _ _ _ Ea) as Hh.
    assert (Hs : SplitHostPort (to_chars (of_chars (JoinHostPort h q))) = inr (h, q))
      by (by rewrite to_of_chars, split_join).
    exists h, q. split_and!; [done..|]. intros p. by apply Hend.
Qed.

Lemma NormalizeAddress_spec_witness :
  NormalizeAddress "[::1]:19108" "9108" = inr "[::1]:19108"%string ∧
  ∃ host port, SplitHostPort (to_chars "[::1]:19108") = inr (host, port) ∧ host_port host port.
Proof.
  split; [reflexivity|].
  destruct (NormalizeAddress_spec "[::1]:19108" "9108" "[::1]:19108") as (h & q & Hs & Hh & _).
  - apply (bool_decide_unpack _). vm_compute. exact I.
  - reflexivity.
  - exists h, q. split; [exact Hs|exact Hh].
Defined.

(** The error of an address in brackets is a missing port, but the port is not
    added. *)
Lemma brackets_without_port : NormalizeAddress "[::1]" "9108" = inl missingPort.
Proof. reflexivity. Qed.

(** An empty entry of a list of peers is taken for an address. *)
Lemma empty_address : NormalizeAddress "" "9108" = inr ":9108"%string.
Proof. reflexivity. Qed.
