(* ===== verification/Dates.v ===== *)
(** * [utils.go]: dates and times

    [ExtractDateOrTime] and [FormatUTCTime] print a Unix time.  Package [time]
    counts seconds from the start of the year -292277022399 in an unsigned
    word, and takes the date from the number of days with the 400, 100, 4 and 1
    year cycles of the calendar; both are written out.  [days_of] is the calendar
    itself: the number of the day of a date. *)
From Stdlib Require Import Ascii.
From S2P Require Import Prelude Float Utils.

Local Open Scope Z_scope.

(** ** The calendar *)

Definition leap (y : Z) : bool :=
  bool_decide (y `mod` 4 = 0) && (bool_decide (y `mod` 100 ≠ 0) || bool_decide (y `mod` 400 = 0)).

(** The days of the year before the first of a month, without a leap day. *)
Definition daysBefore : list Z := [0; 31; 59; 90; 120; 151; 181; 212; 243; 273; 304; 334; 365].

Definition before (leapYear : bool) (m : nat) : Z :=
  default 0 (daysBefore !! m) + (if leapYear then if decide (2 ≤ m)%nat then 1 else 0 else 0).

(** The days before the first of January of the year, from that of year 1. *)
Definition days_before_year (y : Z) : Z :=
  let p := y - 1 in 365 * p + p / 4 - p / 100 + p / 400.

(** The day of year 1 that is the first of January 1970. *)
Definition epoch_day : Z := days_before_year 1970.

Record Date := mkDate { d_year : Z; d_month : nat; d_day : Z }.   (* January is month 0 *)

Definition date_ok (d : Date) : Prop :=
  (d_month d < 12)%nat ∧
  1 ≤ d_day d ≤ before (leap (d_year d)) (S (d_month d)) - before (leap (d_year d)) (d_month d).

(** The day of a date, from the first of January 1970. *)
Definition days_of (d : Date) : Z :=
  days_before_year (d_year d) + before (leap (d_year d)) (d_month d) + (d_day d - 1) - epoch_day.

(** ** The date of a day, as package [time] finds it

    From the days since the first of January of year 1: the year and the day of
    the year. *)
Definition year_of (d : Z) : Z * Z :=
  let n400 := d / 146097 in
  let d := d - 146097 * n400 in
  let n100 := d / 36524 in
  let n100 := n100 - n100 / 4 in             (* the last century has a day more *)
  let d := d - 36524 * n100 in
  let n4 := d / 1461 in
  let d := d - 1461 * n4 in
  let n1 := d / 365 in
  let n1 := n1 - n1 / 4 in                   (* the last year has a day more *)
  let d := d - 365 * n1 in
  (400 * n400 + 100 * n100 + 4 * n4 + n1 + 1, d).

(** The month and day: the estimate [day / 31] is at most one month too low. *)
Definition month_of (leapYear : bool) (yday : Z) : nat * Z :=
  let leapDay := bool_decide (yday = 59) in
  if leapYear && leapDay then (1%nat, 29) else
  let day := if leapYear && bool_decide (59 < yday) then yday - 1 else yday in
  let month := Z.to_nat (day / 31) in
  let end_ := default 0 (daysBefore !! S month) in
  if decide (end_ ≤ day) then (S month, day - end_ + 1)
  else (month, day - default 0 (daysBefore !! month) + 1).

Definition civil (day : Z) : Date :=
  let '(y, yday) := year_of (day + epoch_day) in
  let '(m, d) := month_of (leap y) yday in mkDate y m d.

(** ** [Time.Format] with the layouts of the source *)

(** The Unix time of the start of the year -292277022399, and the wrap-around of
    the unsigned word. *)
Definition absolute_zero : Z := -9223372028715321600.
Definition absolute (timestamp : Z) : Z := (timestamp - absolute_zero) `mod` 2 ^ 64 + absolute_zero.

Definition digit (x : Z) : ascii := ascii_of_N (48 + Z.to_N x).

(** The last [w] digits. *)
Fixpoint digits (w : nat) (x : Z) : chars :=
  match w with O => [] | S w => digits w (x / 10) ++ [digit (x `mod` 10)] end.

Fixpoint ndigits (fuel : nat) (x : Z) : nat :=
  match fuel with
  | O => O
  | S fuel => if decide (x < 10) then 1%nat else S (ndigits fuel (x / 10))
  end.

(** [appendInt]: at least [width] digits behind the sign; an [int] has at most
    twenty. *)
Definition appendInt (x : Z) (width : nat) : chars :=
  (if decide (x < 0) then ["-"%char] else []) ++ digits (max width (ndigits 20 (Z.abs x))) (Z.abs x).

Definition format_date (timestamp : Z) : chars :=            (* "2006-01-02" *)
  let d := civil (absolute timestamp / 86400) in
  appendInt (d_year d) 4 ++ "-"%char :: appendInt (Z.of_nat (d_month d) + 1) 2
    ++ "-"%char :: appendInt (d_day d) 2.

Definition format_time (timestamp : Z) : chars :=            (* "15:04:05" *)
  let s := absolute timestamp `mod` 86400 in
  appendInt (s / 3600) 2 ++ ":"%char :: appendInt (s `mod` 3600 / 60) 2
    ++ ":"%char :: appendInt (s `mod` 60) 2.

Definition FormatUTCTime (timestamp : Z) : string :=
  of_chars (format_date timestamp ++ " "%char :: format_time timestamp).

(** [Time.Sub] stops at the ends of [int64]. *)
Definition Sub (now t : Z) : Z := Z.max (- 2 ^ 63) (Z.min (2 ^ 63 - 1) (now - t)).

(** [now] is the current time in nanoseconds. *)
Definition ExtractDateOrTime (now timestamp : Z) : string :=
  of_chars (if fltb (of_int 24) (Hours (Sub now (timestamp * 1000000000)))
            then format_date timestamp else format_time timestamp).

(** ** The date is right *)

Lemma div_eq a b q r : 0 ≤ r < b → a = b * q + r → a / b = q.
Proof. intros Hr ->. rewrite Z.mul_comm, Z.div_add_l, Z.div_small by lia. lia. Qed.

Lemma mod_eq a b q r : 0 ≤ r < b → a = b * q + r → a `mod` b = r.
Proof. intros Hr ->. rewrite Z.add_comm, Z.mul_comm, Z.mod_add, Z.mod_small; lia. Qed.

(** The year as cycles. *)
Lemma year_cycles (a b c e : Z) :
  0 ≤ b < 4 → 0 ≤ c < 25 → 0 ≤ e < 4 →
  let y := 400 * a + 100 * b + 4 * c + e + 1 in
  days_before_year y = 146097 * a + 36524 * b + 1461 * c + 365 * e ∧
  leap y = bool_decide (e = 3 ∧ (c ≠ 24 ∨ b = 3)).
Proof.
  intros Hb Hc He y. unfold days_before_year, leap. split.
  - replace (y - 1) with (400 * a + 100 * b + 4 * c + e) by lia.
    rewrite (div_eq _ 4 (100 * a + 25 * b + c) e), (div_eq _ 100 (4 * a + b) (4 * c + e)),
      (div_eq _ 400 a (100 * b + 4 * c + e)) by lia. lia.
  - apply eq_bool_prop_intro.
    rewrite andb_True, orb_True, !bool_decide_spec.
    assert (H4 : y `mod` 4 = (e + 1) `mod` 4).
    { unfold y. replace (400 * a + 100 * b + 4 * c + e + 1) with (e + 1 + (100 * a + 25 * b + c) * 4)
        by lia. apply Z.mod_add. lia. }
    assert (H100 : y `mod` 100 = (4 * c + e + 1) `mod` 100).
    { unfold y. replace (400 * a + 100 * b + 4 * c + e + 1)
        with (4 * c + e + 1 + (4 * a + b) * 100) by lia. apply Z.mod_add. lia. }
    assert (H400 : y `mod` 400 = (100 * b + 4 * c + e + 1) `mod` 400).
    { unfold y. replace (400 * a + 100 * b + 4 * c + e + 1)
        with (100 * b + 4 * c + e + 1 + a * 400) by lia. apply Z.mod_add. lia. }
    rewrite H4, H100, H400. Z.div_mod_to_equations. lia.
Qed.

Lemma year_of_spec (d : Z) :
  let '(y, yday) := year_of d in
  d = days_before_year y + yday ∧ 0 ≤ yday < (if leap y then 366 else 365).
Proof.
  unfold year_of.
  set (a := d / 146097). set (d1 := d - 146097 * a).
  assert (H1 : 0 ≤ d1 < 146097) by (subst d1 a; Z.div_mod_to_equations; lia).
  set (b := d1 / 36524 - d1 / 36524 / 4). set (d2 := d1 - 36524 * b).
  assert (H2 : 0 ≤ b < 4 ∧ 0 ≤ d2 ∧ (d2 < 36524 ∨ b = 3 ∧ d2 < 36525))
    by (subst d2 b; clearbody d1; Z.div_mod_to_equations; lia).
  set (c := d2 / 1461). set (d3 := d2 - 1461 * c).
  assert (H3 : 0 ≤ c < 25 ∧ 0 ≤ d3 < 1461 ∧ (c = 24 → b = 3 ∨ d3 < 1460))
    by (subst d3 c; clearbody d2 b; Z.div_mod_to_equations; lia).
  set (e := d3 / 365 - d3 / 365 / 4). set (d4 := d3 - 365 * e).
  assert (H4 : 0 ≤ e < 4 ∧ 0 ≤ d4 ∧ (d4 < 365 ∨ e = 3 ∧ d4 < 366 ∧ (d4 = 365 → d3 = 1460)))
    by (subst d4 e; clearbody d3; Z.div_mod_to_equations; lia).
  destruct (year_cycles a b c e) as [Hd Hl]; [lia..|]. rewrite Hd, Hl. split.
  - subst d4 d3 d2 d1. lia.
  - case_bool_decide; lia.
Qed.

(** Every day of a year, with and without a leap day. *)
Definition month_check (l : bool) (yday : Z) : bool :=
  let '(m, d) := month_of l yday in
  bool_decide ((m < 12)%nat ∧ 1 ≤ d ≤ before l (S m) - before l m ∧ yday = before l m + (d - 1)).

Lemma month_checked :
  forallb (λ l, forallb (month_check l) (seqZ 0 (if l : bool then 366 else 365))) [true; false] = true.
Proof. vm_compute. reflexivity. Qed.

Lemma month_of_spec (l : bool) (yday : Z) :
  0 ≤ yday < (if l then 366 else 365) →
  let '(m, d) := month_of l yday in
  (m < 12)%nat ∧ 1 ≤ d ≤ before l (S m) - before l m ∧ yday = before l m + (d - 1).
Proof.
  intros Hy. pose proof month_checked as H. rewrite forallb_forall in H.
  assert (Hl : In l [true; false]) by (destruct l; simpl; auto).
  specialize (H l Hl). rewrite forallb_forall in H. specialize (H yday).
  unfold month_check in H. destruct (month_of l yday) as [m d].
  apply bool_decide_eq_true_1 in H; [done|]. apply list_elem_of_In, elem_of_seqZ. lia.
Qed.

Lemma civil_spec (day : Z) : date_ok (civil day) ∧ days_of (civil day) = day.
Proof.
  unfold civil, date_ok, days_of. pose proof (year_of_spec (day + epoch_day)) as Hy.
  destruct (year_of (day + epoch_day)) as [y yday]. destruct Hy as [Hd Hy].
  pose proof (month_of_spec (leap y) yday Hy) as Hm. destruct (month_of (leap y) yday) as [m d].
  simpl. destruct Hm as (H1 & H2 & H3). split; [done|]. lia.
Qed.

(** *** A day has one date *)

Lemma before_mono l m m' : (m ≤ m' ≤ 12)%nat → before l m ≤ before l m'.
Proof.
  intros [Hm Hm']. revert Hm'.
  induction Hm as [|m' Hm IH]; intros Hm'; [done|]. etrans; [apply IH; lia|].
  do 12 (destruct m' as [|m']; [by destruct l|]). lia.
Qed.

Lemma year_length y : days_before_year (y + 1) = days_before_year y + (if leap y then 366 else 365).
Proof.
  unfold days_before_year, leap.
  replace (y + 1 - 1) with y by lia.
  repeat case_bool_decide; simpl; Z.div_mod_to_equations; lia.
Qed.

Lemma years_mono y1 y2 : y1 ≤ y2 → days_before_year y1 ≤ days_before_year y2.
Proof. unfold days_before_year. intros H. Z.div_mod_to_equations. lia. Qed.

Lemma yday_bounds d :
  date_ok d → 0 ≤ before (leap (d_year d)) (d_month d) + (d_day d - 1) <
                  (if leap (d_year d) then 366 else 365).
Proof.
  intros [Hm Hd]. set (l := leap (d_year d)) in *.
  assert (H0 : before l 0 ≤ before l (d_month d)) by (apply before_mono; lia).
  assert (H12 : before l (S (d_month d)) ≤ before l 12) by (apply before_mono; lia).
  destruct l; unfold before in H0 at 1; unfold before in H12 at 2; simpl in H0, H12; lia.
Qed.

Lemma days_of_inj d1 d2 : date_ok d1 → date_ok d2 → days_of d1 = days_of d2 → d1 = d2.
Proof.
  intros H1 H2 Heq. unfold days_of in Heq.
  pose proof (yday_bounds d1 H1) as B1. pose proof (yday_bounds d2 H2) as B2.
  assert (Hy : d_year d1 = d_year d2).
  { pose proof (year_length (d_year d1)) as L1. pose proof (year_length (d_year d2)) as L2.
    destruct (Z.lt_trichotomy (d_year d1) (d_year d2)) as [Hlt|[?|Hlt]]; [|done|]; exfalso.
    - pose proof (years_mono (d_year d1 + 1) (d_year d2)). lia.
    - pose proof (years_mono (d_year d2 + 1) (d_year d1)). lia. }
  destruct d1 as [y m1 e1], d2 as [y' m2 e2]. simpl in *. subst y'.
  destruct H1 as [Hm1 He1], H2 as [Hm2 He2]. simpl in *.
  destruct (Nat.lt_trichotomy m1 m2) as [Hlt|[->|Hlt]].
  - pose proof (before_mono (leap y) (S m1) m2). lia.
  - f_equal. lia.
  - pose proof (before_mono (leap y) (S m2) m1). lia.
Qed.

(** The date that is printed is the date of the calendar: the cycles of the
    source find, for every day, the one date with that number. *)
Theorem civil_correct (day : Z) (d : Date) :
  date_ok (civil day) ∧ (date_ok d → (days_of d = day ↔ d = civil day)).
Proof.
  destruct (civil_spec day) as [Hok Hday]. split; [done|]. intros Hd. split.
  - intros <-. apply days_of_inj; [done|apply civil_spec|]. symmetry. apply civil_spec.
  - by intros ->.
Qed.

(** ** The text can be read back *)

Definition num (l : chars) : Z := foldl (λ n c, 10 * n + (Z.of_N (N_of_ascii c) - 48)) 0 l.

Lemma length_digits w x : length (digits w x) = w.
Proof.
  revert x. induction w as [|w IH]; intros x; [done|]. cbn [digits].
  rewrite length_app, IH. simpl. lia.
Qed.

Lemma num_digit x : 0 ≤ x < 10 → Z.of_N (N_of_ascii (digit x)) - 48 = x.
Proof. intros H. unfold digit. rewrite N_ascii_embedding by lia. lia. Qed.

Lemma num_digits w x : 0 ≤ x < 10 ^ Z.of_nat w → num (digits w x) = x.
Proof.
  revert x. induction w as [|w IH]; intros x Hx; [change (0 = x); change (10 ^ Z.of_nat 0) with 1 in Hx; lia|].
  cbn [digits]. unfold num in *. rewrite foldl_app, IH.
  - simpl. rewrite num_digit by (apply Z.mod_pos_bound; lia). Z.div_mod_to_equations. lia.
  - rewrite Nat2Z.inj_succ, Z.pow_succ_r in Hx by lia. Z.div_mod_to_equations. lia.
Qed.

Lemma ndigits_le fuel w x : 0 ≤ x < 10 ^ Z.of_nat (S w) → (ndigits fuel x ≤ S w)%nat.
Proof.
  revert fuel x. induction w as [|w IH]; intros [|fuel] x Hx; simpl; try lia.
  - rewrite decide_True; simpl in *; lia.
  - case_decide; [lia|]. enough (ndigits fuel (x / 10) ≤ S w)%nat by lia. apply IH.
    rewrite (Nat2Z.inj_succ (S w)), Z.pow_succ_r in Hx by lia. Z.div_mod_to_equations. lia.
Qed.

Lemma appendInt_digits x w : 0 ≤ x < 10 ^ Z.of_nat (S w) → appendInt x (S w) = digits (S w) x.
Proof.
  intros Hx. unfold appendInt. rewrite decide_False by lia. rewrite Z.abs_eq by lia.
  rewrite Nat.max_l; [done|]. by apply ndigits_le.
Qed.

Lemma two_digits x : 0 ≤ x < 100 → ∃ a b, appendInt x 2 = [a; b] ∧ num [a; b] = x.
Proof.
  intros Hx. rewrite appendInt_digits by done. do 2 eexists. split; [reflexivity|].
  change (num (digits 2 x) = x). by apply num_digits.
Qed.

Lemma four_digits x :
  0 ≤ x < 10000 → ∃ a b c d, appendInt x 4 = [a; b; c; d] ∧ num [a; b; c; d] = x.
Proof.
  intros Hx. rewrite appendInt_digits by done. do 4 eexists. split; [reflexivity|].
  change (num (digits 4 x) = x). by apply num_digits.
Qed.

(** The Unix time of a text of this form. *)
Definition parse (s : chars) : option Z :=
  match s with
  | [y1; y2; y3; y4; _; m1; m2; _; d1; d2; _; h1; h2; _; i1; i2; _; s1; s2] =>
      let d := mkDate (num [y1; y2; y3; y4]) (Z.to_nat (num [m1; m2] - 1)) (num [d1; d2]) in
      Some (86400 * days_of d + 3600 * num [h1; h2] + 60 * num [i1; i2] + num [s1; s2])
  | _ => None
  end.

(** The years 0 to 9999. *)
Definition four_digit_years (timestamp : Z) : Prop := -62167219200 ≤ timestamp < 253402300800.

Lemma days_of_eq d :
  days_of d = days_before_year (d_year d) + before (leap (d_year d)) (d_month d) + (d_day d - 1)
              - epoch_day.
Proof. reflexivity. Qed.

Lemma civil_year day y1 y2 :
  days_before_year y1 - epoch_day ≤ day < days_before_year y2 - epoch_day → y1 ≤ d_year (civil day) < y2.
Proof.
  intros H. destruct (civil_spec day) as [Hok Hday].
  destruct (civil day) as [y m e]. pose proof (yday_bounds _ Hok) as Hb.
  cbn [d_year d_month d_day] in *. rewrite days_of_eq in Hday. cbn [d_year d_month d_day] in Hday.
  pose proof (year_length y) as Hl. clear Hok. revert H Hday. generalize epoch_day. intros ep H Hday.
  split.
  - destruct (decide (y1 ≤ y)); [done|]. pose proof (years_mono (y + 1) y1). lia.
  - destruct (decide (y < y2)); [done|]. pose proof (years_mono y2 y). lia.
Qed.

Lemma clock_parts s : 3600 * (s / 3600) + 60 * (s `mod` 3600 / 60) + s `mod` 60 = s.
Proof. Z.div_mod_to_equations. lia. Qed.

(** C27. A time is printed with its date of the calendar and its time of the day, and
    nothing is lost: for every time of the years 0 to 9999 the text has the
    nineteen characters of the layout, and reading it gives the time back. *)
Theorem FormatUTCTime_parses (timestamp : Z) (Hyears : four_digit_years timestamp) :
  parse (to_chars (FormatUTCTime timestamp)) = Some timestamp.
Proof.
  unfold four_digit_years in Hyears. unfold FormatUTCTime.
  rewrite to_of_chars. unfold format_date, format_time.
  assert (Habs : absolute timestamp = timestamp).
  { unfold absolute, absolute_zero. rewrite Z.mod_small; lia. }
  rewrite Habs. set (day := timestamp / 86400). set (s := timestamp `mod` 86400).
  assert (Hs : 0 ≤ s < 86400 ∧ timestamp = 86400 * day + s)
    by (subst s day; Z.div_mod_to_equations; lia).
  assert (Hy : 0 ≤ d_year (civil day) < 10000).
  { apply civil_year.
    change (days_before_year 0 - epoch_day) with (-719528).
    change (days_before_year 10000 - epoch_day) with 2932897. lia. }
  destruct (civil_spec day) as [[Hm Hd] Hday]. clearbody day s.
  set (d := civil day) in *. clearbody d.
  assert (Hd31 : 1 ≤ d_day d < 100).
  { revert Hm Hd. generalize (leap (d_year d)) (d_month d). intros l m Hm.
    do 12 (destruct m as [|m]; [destruct l; unfold before; simpl; lia|]). lia. }
  destruct (four_digits (d_year d) Hy) as (y1 & y2 & y3 & y4 & -> & Ey).
  destruct (two_digits (Z.of_nat (d_month d) + 1)) as (m1 & m2 & -> & Em); [lia|].
  destruct (two_digits (d_day d)) as (d1 & d2 & -> & Ed); [lia|].
  destruct (two_digits (s / 3600)) as (h1 & h2 & -> & Eh); [Z.div_mod_to_equations; lia|].
  destruct (two_digits (s `mod` 3600 / 60)) as (i1 & i2 & -> & Ei); [Z.div_mod_to_equations; lia|].
  destruct (two_digits (s `mod` 60)) as (s1 & s2 & -> & Es); [Z.div_mod_to_equations; lia|].
  cbn [app parse]. rewrite Ey, Em, Ed, Eh, Ei, Es.
  replace (Z.to_nat (Z.of_nat (d_month d) + 1 - 1)) with (d_month d) by lia.
  destruct d as [y m e]. cbn [d_year d_month d_day] in *. rewrite Hday. f_equal.
  pose proof (clock_parts s). lia.
Qed.

(** ** Concrete times *)

Lemma FormatUTCTime_parses_witness :
  FormatUTCTime 1582934400 = "2020-02-29 00:00:00"%string ∧
  parse (to_chars (FormatUTCTime 1582934400)) = Some 1582934400.
Proof. split; [reflexivity|]. apply FormatUTCTime_parses. unfold four_digit_years. lia. Defined.

Example format_examples :
  FormatUTCTime 0 = "1970-01-01 00:00:00"%string ∧
  FormatUTCTime (-1) = "1969-12-31 23:59:59"%string ∧
  FormatUTCTime 951827696 = "2000-02-29 12:34:56"%string ∧
  FormatUTCTime 253402300800 = "10000-01-01 00:00:00"%string ∧
  FormatUTCTime (-62167219201) = "-0001-12-31 23:59:59"%string.
Proof. vm_compute. by split_and!. Qed.

(** The time alone is printed up to 24 hours back, and for times to come. *)
Example extract_examples :
  ExtractDateOrTime (86400 * 10 ^ 9) 0 = "00:00:00"%string ∧
  ExtractDateOrTime (86400 * 10 ^ 9 + 1) 0 = "1970-01-01"%string ∧
  ExtractDateOrTime 0 1000000000 = "01:46:40"%string.
Proof. vm_compute. by split_and!. Qed.
