(* ===== verification/Encoding.v ===== *)
(** * Encodings: hexadecimal, base64, queries, the entropy of a text

    The functions of [encoding/hex], [encoding/base64] and [net/url] that
    utils.go and others call are written out; the offset in an error is left
    out. *)
From Stdlib Require Import Floats.SpecFloat ZifyNat Strings.Ascii.
From S2P Require Import Prelude Float Utils.

(** ** Hexadecimal *)
Definition hexTable : bytes := bs "0123456789abcdef".
Definition hex_of (n : nat) : byte := nth n hexTable x00.

(** [hex.EncodeToString] *)
Definition EncodeToString (src : bytes) : bytes :=
  src ≫= λ b, [hex_of (nat_of_byte b / 16); hex_of (nat_of_byte b mod 16)].

Definition reverseHex (c : byte) : option nat :=
  let n := nat_of_byte c in
  if decide (48 ≤ n < 58) then Some (n - 48)
  else if decide (97 ≤ n < 103) then Some (n - 87)
  else if decide (65 ≤ n < 71) then Some (n - 55)
  else None.

Definition invalidByte : goerr := ELib "encoding/hex: invalid byte".
Definition ErrLength : goerr := ELib "encoding/hex: odd length hex string".

(** [hex.DecodeString]: in an odd text, an invalid last character is reported
    before the length. *)
Fixpoint DecodeString (src : bytes) : goerr + bytes :=
  match src with
  | p :: q :: rest =>
      match reverseHex p, reverseHex q with
      | Some a, Some b =>
          match DecodeString rest with
          | inr l => inr (byte_of_nat (16 * a + b) :: l)
          | inl e => inl e
          end
      | _, _ => inl invalidByte
      end
  | [p] => match reverseHex p with Some _ => inl ErrLength | None => inl invalidByte end
  | [] => inr []
  end.

Definition EncodeHex (hexBytes : bytes) : string :=
  String.string_of_list_byte (EncodeToString hexBytes).

(** ** Base64, standard alphabet, with padding *)
Definition encodeStd : bytes :=
  bs "ABCDEFGHIJKLMNOPQRSTUVWXYZabcdefghijklmnopqrstuvwxyz0123456789+/".
Definition enc64 (n : nat) : byte := nth n encodeStd x00.
Definition dec64 (c : byte) : option nat :=
  match list_find (λ x, x = c) encodeStd with Some (i, _) => Some i | None => None end.
Definition padChar : byte := "="%byte.

Fixpoint Encode (src : bytes) : bytes :=
  match src with
  | [] => []
  | [a] =>
      let v := nat_of_byte a in
      [enc64 (v / 4); enc64 (v mod 4 * 16); padChar; padChar]
  | [a; b] =>
      let v := nat_of_byte a in let u := nat_of_byte b in
      [enc64 (v / 4); enc64 (v mod 4 * 16 + u / 16); enc64 (u mod 16 * 4); padChar]
  | a :: b :: c :: rest =>
      let v := nat_of_byte a in let u := nat_of_byte b in let t := nat_of_byte c in
      enc64 (v / 4) :: enc64 (v mod 4 * 16 + u / 16) :: enc64 (u mod 16 * 4 + t / 64) ::
      enc64 (t mod 64) :: Encode rest
  end.

Definition CorruptInput : goerr := ELib "illegal base64 data".

(** A quantum of four characters; the bits that padding leaves over are not
    looked at. *)
Fixpoint Decode_quanta (src : bytes) : goerr + bytes :=
  match src with
  | [] => inr []
  | a :: b :: c :: d :: rest =>
      match dec64 a, dec64 b, dec64 c, dec64 d with
      | Some x, Some y, Some z, Some t =>
          match Decode_quanta rest with
          | inr l => inr (byte_of_nat (x * 4 + y / 16) :: byte_of_nat (y mod 16 * 16 + z / 4) ::
                          byte_of_nat (z mod 4 * 64 + t) :: l)
          | inl e => inl e
          end
      | Some x, Some y, Some z, None =>
          if decide (d = padChar ∧ rest = []) then
            inr [byte_of_nat (x * 4 + y / 16); byte_of_nat (y mod 16 * 16 + z / 4)]
          else inl CorruptInput
      | Some x, Some y, None, _ =>
          if decide (c = padChar ∧ d = padChar ∧ rest = []) then inr [byte_of_nat (x * 4 + y / 16)]
          else inl CorruptInput
      | _, _, _, _ => inl CorruptInput
      end
  | _ => inl CorruptInput
  end.

(** Line ends are skipped wherever they are. *)
Definition line_end (c : byte) : Prop := c = x0a ∨ c = x0d.
#[export] Instance line_end_dec (c : byte) : Decision (line_end c) := _.

Definition Decode64 (src : bytes) : goerr + bytes := Decode_quanta (filter (λ c, ¬ line_end c) src).

Definition EncodeBase64 (text : bytes) : string := String.string_of_list_byte (Encode text).
Definition DecodeBase64 (base64Text : string) : goerr + bytes := Decode64 (bs base64Text).

(** ** Escaping in queries

    [url.QueryEscape] *)
Definition unreserved (c : ascii) : bool :=
  let n := Ascii.nat_of_ascii c in
  bool_decide (48 ≤ n < 58) || bool_decide (65 ≤ n < 91) || bool_decide (97 ≤ n < 123) ||
  bool_decide (c ∈ to_chars "-_.~").
Definition upper_hex (n : nat) : ascii := nth n (to_chars "0123456789ABCDEF") "0"%char.
Definition QueryEscape (s : chars) : chars :=
  s ≫= λ c,
    if unreserved c then [c]
    else if decide (c = " "%char) then ["+"%char]
    else let n := Ascii.nat_of_ascii c in ["%"%char; upper_hex (n / 16); upper_hex (n mod 16)].

(** ** Entropy

    [string(byte(i))] is the text of the code point [i]: two bytes from 128
    on.  [strings.Count] counts occurrences that do not overlap. *)
Definition utf8_latin1 (i : nat) : bytes :=
  if decide (i < 128) then [byte_of_nat i]
  else [byte_of_nat (192 + i / 64); byte_of_nat (128 + i mod 64)].

Fixpoint Count (l : bytes) (sep : bytes) : nat :=
  match l with
  | [] => 0
  | c :: l' =>
      (if decide (take (length sep) l = sep) then 1 else 0) + Count l' sep
  end.

Section entropy.
(** [math.Log2] *)
Context (Log2 : f64 → f64).

Definition entropy_step (text : bytes) (entropy : f64) (i : nat) : f64 :=
  let px := fdiv (of_int (Z.of_nat (Count text (utf8_latin1 i)))) (of_int (zlen text)) in
  if fltb (of_int 0) px then fadd entropy (fmul (SFopp px) (Log2 px)) else entropy.

Definition ShannonEntropy (text : string) : f64 :=
  if decide (text = EmptyString) then of_int 0
  else foldl (entropy_step (bs text)) (of_int 0) (seq 0 256).
End entropy.

(** ** Theorems *)
Lemma byte_bound (b : byte) : nat_of_byte b < 256.
Proof. unfold nat_of_byte. pose proof (Byte.to_N_bounded b). lia. Qed.

Lemma byte_of_nat_of_byte (b : byte) : byte_of_nat (nat_of_byte b) = b.
Proof. by destruct b. Qed.

Lemma reverseHex_of (n : nat) : n < 16 → reverseHex (hex_of n) = Some n.
Proof. intros Hn. do 16 (destruct n as [|n]; [done|]). lia. Qed.

Theorem hex_roundtrip (b : bytes) : DecodeString (EncodeToString b) = inr b.
Proof.
  induction b as [|x b IH]; [done|]. cbn [EncodeToString mbind list_bind app] in *.
  cbn [DecodeString]. pose proof (byte_bound x) as Hx.
  rewrite !reverseHex_of; [|by apply Nat.mod_upper_bound|by apply Nat.Div0.div_lt_upper_bound].
  unfold EncodeToString in IH. cbn [mbind list_bind] in IH. rewrite IH.
  do 2 f_equal. rewrite <- (Nat.div_mod_eq _ 16). by rewrite byte_of_nat_of_byte.
Qed.

(** Only texts of even length decode. *)
Lemma hex_even (s b : bytes) : DecodeString s = inr b → length s = 2 * length b.
Proof.
  revert b. induction s as [s IH] using (induction_ltof1 _ length); unfold ltof in IH.
  intros b. destruct s as [|p [|q s]]; cbn [DecodeString].
  - by intros [= <-].
  - by destruct (reverseHex p).
  - destruct (reverseHex p), (reverseHex q); try done.
    destruct (DecodeString s) as [e|l] eqn:E; [done|]. intros [= <-].
    apply IH in E; simpl in *; lia.
Qed.

Lemma dec64_enc64 (n : nat) : n < 64 → dec64 (enc64 n) = Some n.
Proof. intros Hn. do 64 (destruct n as [|n]; [done|]). lia. Qed.

Lemma dec64_pad : dec64 padChar = None.
Proof. done. Qed.

Lemma enc64_no_line (n : nat) : n < 64 → ¬ line_end (enc64 n).
Proof. intros Hn. do 64 (destruct n as [|n]; [by intros [?|?]|]). lia. Qed.

(** Three bytes at a time. *)
Lemma bytes_ind3 (P : bytes → Prop) :
  P [] → (∀ a, P [a]) → (∀ a b, P [a; b]) → (∀ a b c l, P l → P (a :: b :: c :: l)) → ∀ l, P l.
Proof.
  intros H0 H1 H2 H3 l. induction l as [l IH] using (induction_ltof1 _ length). unfold ltof in IH.
  destruct l as [|a [|b [|c l]]]; [done..|]. apply H3, IH. simpl. lia.
Qed.

#[local] Ltac Zify.zify_post_hook ::= Z.div_mod_to_equations.

Lemma sextets (v u t : nat) : v < 256 → u < 256 → t < 256 →
  v / 4 < 64 ∧ v mod 4 * 16 < 64 ∧ v mod 4 * 16 + u / 16 < 64 ∧
  u mod 16 * 4 < 64 ∧ u mod 16 * 4 + t / 64 < 64 ∧ t mod 64 < 64.
Proof. lia. Qed.
Lemma octet1 (v : nat) : v / 4 * 4 + (v mod 4 * 16) / 16 = v.
Proof. lia. Qed.
Lemma octet1' (v u : nat) : u < 256 → v / 4 * 4 + (v mod 4 * 16 + u / 16) / 16 = v.
Proof. lia. Qed.
Lemma octet2 (v u : nat) :
  u < 256 → (v mod 4 * 16 + u / 16) mod 16 * 16 + (u mod 16 * 4) / 4 = u.
Proof. lia. Qed.
Lemma octet2' (v u t : nat) :
  u < 256 → t < 256 → (v mod 4 * 16 + u / 16) mod 16 * 16 + (u mod 16 * 4 + t / 64) / 4 = u.
Proof. lia. Qed.
Lemma octet3 (u t : nat) : t < 256 → (u mod 16 * 4 + t / 64) mod 4 * 64 + t mod 64 = t.
Proof. lia. Qed.

Lemma base64_quanta (text : bytes) : Decode_quanta (Encode text) = inr text.
Proof.
  induction text as [|a|a b|a b c l IH] using bytes_ind3; [done|..]; cbn [Encode Decode_quanta].
  - pose proof (byte_bound a) as Ha. destruct (sextets (nat_of_byte a) 0 0) as (? & ? & _); [lia..|].
    rewrite !dec64_enc64, dec64_pad, decide_True, octet1, byte_of_nat_of_byte by done.
    done.
  - pose proof (byte_bound a) as Ha. pose proof (byte_bound b) as Hb.
    destruct (sextets _ _ 0 Ha Hb) as (? & ? & ? & ? & _); [lia|].
    rewrite !dec64_enc64, dec64_pad, decide_True, octet1', octet2,
      !byte_of_nat_of_byte by done. done.
  - pose proof (byte_bound a) as Ha. pose proof (byte_bound b) as Hb.
    pose proof (byte_bound c) as Hc. destruct (sextets _ _ _ Ha Hb Hc) as (? & ? & ? & ? & ? & ?).
    rewrite !dec64_enc64, IH, octet1', octet2', octet3, !byte_of_nat_of_byte by done. done.
Qed.

Lemma Encode_no_line (text : bytes) : Forall (λ c, ¬ line_end c) (Encode text).
Proof.
  assert (Hp : ¬ line_end padChar) by (by intros [?|?]).
  induction text as [|a|a b|a b c l IH] using bytes_ind3; [done|..]; cbn [Encode].
  - pose proof (byte_bound a) as Ha. destruct (sextets (nat_of_byte a) 0 0) as (? & ? & _); [lia..|].
    repeat constructor; auto using enc64_no_line.
  - pose proof (byte_bound a) as Ha. pose proof (byte_bound b) as Hb.
    destruct (sextets _ _ 0 Ha Hb) as (? & ? & ? & ? & _); [lia|].
    repeat constructor; auto using enc64_no_line.
  - pose proof (byte_bound a) as Ha. pose proof (byte_bound b) as Hb.
    pose proof (byte_bound c) as Hc. destruct (sextets _ _ _ Ha Hb Hc) as (? & ? & ? & ? & ? & ?).
    repeat constructor; auto using enc64_no_line.
Qed.

(** What was encoded is decoded again, and so is a text that was broken into
    lines on the way. *)
Theorem base64_roundtrip (text broken : bytes) :
  filter (λ c, ¬ line_end c) broken = Encode text →
  Decode64 broken = inr text ∧ DecodeBase64 (EncodeBase64 text) = inr text.
Proof.
  intros Hb. unfold DecodeBase64, EncodeBase64, Decode64, bs.
  rewrite Hb, String.list_byte_of_string_of_list_byte, (filter_all _ (Encode text)),
    base64_quanta; [done|]. apply Forall_forall, Encode_no_line.
Qed.

Definition base64_sample : bytes := Encode (bs "any carnal pleas").
Lemma base64_roundtrip_witness :
  Decode64 (take 7 base64_sample ++ x0d :: x0a :: drop 7 base64_sample) = inr (bs "any carnal pleas")
  ∧ DecodeBase64 (EncodeBase64 (bs "any carnal pleas")) = inr (bs "any carnal pleas").
Proof. apply base64_roundtrip. vm_compute. reflexivity. Defined.

(** Padding is needed, and ends the text; the bits it leaves over are free. *)
Example base64_padding :
  DecodeBase64 "YQ==" = inr (bs "a") ∧ DecodeBase64 "YR==" = inr (bs "a") ∧
  DecodeBase64 "YQ" = inl CorruptInput ∧ DecodeBase64 "YQ==YQ==" = inl CorruptInput.
Proof. vm_compute. done. Qed.

(** What a server reads in a query: an escape, a plus for a space, or the
    character itself. *)
Definition hex_value (c : ascii) : nat :=
  let n := Ascii.nat_of_ascii c in if decide (n < 58) then n - 48 else n - 55.
Fixpoint QueryUnescape (s : chars) : chars :=
  match s with
  | [] => []
  | c :: l =>
      if decide (c = "%"%char) then
        match l with
        | a :: b :: l => Ascii.ascii_of_nat (16 * hex_value a + hex_value b) :: QueryUnescape l
        | _ => []
        end
      else (if decide (c = "+"%char) then " "%char else c) :: QueryUnescape l
  end.

Lemma unescape_char (c : ascii) (l : chars) :
  QueryUnescape (QueryEscape [c] ++ l) = c :: QueryUnescape l.
Proof. destruct c as [[] [] [] [] [] [] [] []]; reflexivity. Qed.

(** Texts are not confused in queries: the server reads what was escaped. *)
Theorem query_roundtrip (s : chars) : QueryUnescape (QueryEscape s) = s.
Proof.
  induction s as [|c s IH]; [done|].
  change (QueryEscape (c :: s)) with (QueryEscape ([c] ++ s)).
  unfold QueryEscape in *. rewrite bind_app. fold (QueryEscape [c]).
  rewrite unescape_char. by rewrite IH.
Qed.

(** The bytes of a character outside Latin-1 are never counted: a text of such
    characters has no entropy, however it varies. *)
Definition outside_latin1 (text : bytes) : Prop :=
  ∀ i, i < 256 → Count text (utf8_latin1 i) = 0.

Theorem entropy_blind (Log2 : f64 → f64) (text : string) :
  outside_latin1 (bs text) → (zlen (bs text) < 2 ^ 53)%Z → ShannonEntropy Log2 text = of_int 0.
Proof.
  intros H Hmax. unfold ShannonEntropy. case_decide as Ht; [done|].
  assert (Hz : ∀ e i, i < 256 → entropy_step Log2 (bs text) e i = e).
  { intros e i Hi. unfold entropy_step. rewrite (H i Hi).
    assert (Hl : (0 < zlen (bs text))%Z) by (destruct text; [done|simpl; lia]).
    destruct (zlen (bs text)) as [|p|p]; [lia| |lia].
    destruct (of_int_finite p) as (m & x & ->); [lia|]. done. }
  assert (Hs : Forall (λ i, i < 256) (seq 0 256)) by (apply Forall_seq; lia).
  induction Hs as [|i l Hi _ IH]; [done|]. simpl foldl. by rewrite Hz.
Qed.

Example entropy_blind_cjk (Log2 : f64 → f64) : ShannonEntropy Log2 "日本語" = of_int 0.
Proof. vm_compute. done. Qed.
