(* ===== verification/Json.v ===== *)
(** * [encoding/json]: texts and values

    The package is written out as far as the source uses it: [Marshal] prints a
    value without spaces, with the escapes of its strings; a [Decoder] reads the
    next value of a text, with Go's treatment of invalid UTF-8 and of surrogates.
    Numbers stay literals; what they mean depends on the type they are read
    into ([JsonTypes]).  The limit of 10000 nested values of newer versions is
    left out. *)
From Stdlib Require Import DecimalString DecimalFacts DecimalN.
From S2P Require Import Prelude Float Utils Config Encoding.

Inductive json :=
| JNull
| JBool (b : bool)
| JNum (lit : bytes)
| JStr (s : bytes)
| JArr (l : list json)
| JObj (m : list (bytes * json)).

(** The induction principle that covers the values inside. *)
Section json_ind.
Context (P : json → Prop)
        (P_null : P JNull) (P_bool : ∀ b, P (JBool b)) (P_num : ∀ lit, P (JNum lit))
        (P_str : ∀ s, P (JStr s)) (P_arr : ∀ l, Forall P l → P (JArr l))
        (P_obj : ∀ m, Forall (λ kv, P kv.2) m → P (JObj m)).

Fixpoint json_deep (j : json) : P j :=
  match j with
  | JNull => P_null
  | JBool b => P_bool b
  | JNum lit => P_num lit
  | JStr s => P_str s
  | JArr l =>
      P_arr l ((fix go l : Forall P l :=
                  match l with
                  | [] => Forall_nil_2 _
                  | x :: l => Forall_cons_2 _ _ _ (json_deep x) (go l)
                  end) l)
  | JObj m =>
      P_obj m ((fix go m : Forall (λ kv, P kv.2) m :=
                  match m with
                  | [] => Forall_nil_2 _
                  | kv :: m => Forall_cons_2 _ _ _ (json_deep kv.2) (go m)
                  end) m)
  end.
End json_ind.

Local Notation "b == c" := (Byte.eqb b c) (at level 70).

(** The rest of a text that begins with [p]. *)
Fixpoint strip (p l : bytes) : option bytes :=
  match p, l with
  | [], _ => Some l
  | a :: p, b :: l => if a == b then strip p l else None
  | _ :: _, [] => None
  end.

(** ** UTF-8

    [utf8.DecodeRune]: the length of the first code point, 0 when the bytes are
    not an encoding. *)
Definition in_range (lo hi : nat) (b : byte) : bool :=
  (lo <=? nat_of_byte b) && (nat_of_byte b <=? hi).
Definition cont (b : byte) : bool := in_range 128 191 b.

Definition rune_len (l : bytes) : nat :=
  match l with
  | [] => 0
  | b0 :: l =>
      if in_range 0 127 b0 then 1
      else if in_range 194 223 b0 then
        match l with b1 :: _ => if cont b1 then 2 else 0 | _ => 0 end
      else if in_range 224 239 b0 then
        match l with
        | b1 :: b2 :: _ =>
            if in_range (if nat_of_byte b0 =? 224 then 160 else 128)
                        (if nat_of_byte b0 =? 237 then 159 else 191) b1 && cont b2 then 3 else 0
        | _ => 0
        end
      else if in_range 240 244 b0 then
        match l with
        | b1 :: b2 :: b3 :: _ =>
            if in_range (if nat_of_byte b0 =? 240 then 144 else 128)
                        (if nat_of_byte b0 =? 244 then 143 else 191) b1 && cont b2 && cont b3
            then 4 else 0
        | _ => 0
        end
      else 0
  end.

(** [utf8.RuneError], and [utf8.EncodeRune]. *)
Definition RuneError : N := 65533.
Definition byte_of (r : N) : byte := byte_of_nat (N.to_nat r).
Definition surrogate (r : N) : bool := (55296 <=? r)%N && (r <=? 57343)%N.
Definition encode_valid (r : N) : bytes :=
  (if r <? 128 then [byte_of r]
   else if r <? 2048 then [byte_of (192 + r / 64); byte_of (128 + r mod 64)]
   else if r <? 65536 then
     [byte_of (224 + r / 4096); byte_of (128 + r / 64 mod 64); byte_of (128 + r mod 64)]
   else [byte_of (240 + r / 262144); byte_of (128 + r / 4096 mod 64);
         byte_of (128 + r / 64 mod 64); byte_of (128 + r mod 64)])%N.
Definition valid_rune (r : N) : bool := (r <=? 1114111)%N && negb (surrogate r).
Definition EncodeRune (r : N) : bytes := encode_valid (if valid_rune r then r else RuneError).

(** The text is UTF-8. *)
Fixpoint utf8_valid (fuel : nat) (s : bytes) : bool :=
  match fuel, s with
  | _, [] => true
  | O, _ => false
  | S fuel, _ => match rune_len s with O => false | n => utf8_valid fuel (drop n s) end
  end.
Definition Valid (s : bytes) : bool := utf8_valid (length s) s.

(** ** Strings *)

(** An ASCII character in a string of the output; [<], [>] and [&] are escaped
    as for HTML. *)
Definition escape (b : byte) : bytes :=
  if (b == x5c) || (b == x22) then [x5c; b]
  else if b == x0a then bs "\n"
  else if b == x0d then bs "\r"
  else if b == x09 then bs "\t"
  else if (nat_of_byte b <? 32) || (b == x3c) || (b == x3e) || (b == x26)
  then bs "\u00" ++ [hex_of (nat_of_byte b / 16); hex_of (nat_of_byte b mod 16)]
  else [b].

(** U+2028 and U+2029 are escaped, what is not UTF-8 is replaced. *)
Definition escape_rune (rune : bytes) : bytes :=
  if decide (rune = [xe2; x80; xa8]) then bs "\u2028"
  else if decide (rune = [xe2; x80; xa9]) then bs "\u2029" else rune.

Fixpoint quote_body (fuel : nat) (s : bytes) : bytes :=
  match fuel, s with
  | S fuel, b :: s' =>
      if in_range 0 127 b then escape b ++ quote_body fuel s'
      else match rune_len s with
           | O => bs "\ufffd" ++ quote_body fuel s'
           | n => escape_rune (take n s) ++ quote_body fuel (drop n s)
           end
  | _, _ => []
  end.

Definition quote (s : bytes) : bytes := x22 :: quote_body (length s) s ++ [x22].

(** [getu4] behind the [\u], and [utf16.DecodeRune]. *)
Definition getu4 (l : bytes) : option (N * bytes) :=
  match l with
  | a :: b :: c :: d :: l' =>
      a ← reverseHex a; b ← reverseHex b; c ← reverseHex c; d ← reverseHex d;
      Some (4096 * N.of_nat a + 256 * N.of_nat b + 16 * N.of_nat c + N.of_nat d, l')%N
  | _ => None
  end.

Definition surrogates (hi lo : N) : option N :=
  (if (55296 <=? hi) && (hi <=? 56319) && (56320 <=? lo) && (lo <=? 57343)
   then Some ((hi - 55296) * 1024 + (lo - 56320) + 65536) else None)%N.

(** The code point of an escape, with the second half of a pair when there is
    one. *)
Definition escaped_rune (r : N) (rest : bytes) : bytes * bytes :=
  if surrogate r then
    match '(r1, rest2) ← strip (bs "\u") rest ≫= getu4;
          dec ← surrogates r r1; Some (EncodeRune dec, rest2) with
    | Some x => x
    | None => (EncodeRune RuneError, rest)
    end
  else (EncodeRune r, rest).

Definition simple_escape (b : byte) : option byte :=
  if (b == x22) || (b == x5c) || (b == x2f) then Some b
  else if b == x62 then Some x08
  else if b == x66 then Some x0c
  else if b == x6e then Some x0a
  else if b == x72 then Some x0d
  else if b == x74 then Some x09 else None.

(** A string behind its opening quote, and what follows its closing one. *)
Fixpoint unquote (fuel : nat) (l : bytes) : option (bytes * bytes) :=
  match fuel, l with
  | S fuel, b :: l' =>
      if b == x22 then Some ([], l')
      else if b == x5c then
        match l' with
        | e :: l'' =>
            if e == x75 then
              '(r, rest) ← getu4 l'';
              let '(c, rest) := escaped_rune r rest in
              '(s, rest') ← unquote fuel rest; Some (c ++ s, rest')
            else c ← simple_escape e; '(s, rest) ← unquote fuel l''; Some (c :: s, rest)
        | [] => None
        end
      else if nat_of_byte b <? 32 then None
      else match rune_len l with
           | O => '(s, rest) ← unquote fuel l'; Some (EncodeRune RuneError ++ s, rest)
           | n => '(s, rest) ← unquote fuel (drop n l); Some (take n l ++ s, rest)
           end
  | _, _ => None
  end.

(** ** Numbers *)

Definition digit (b : byte) : bool := in_range 48 57 b.

Fixpoint span (l : bytes) : bytes * bytes :=
  match l with
  | b :: l' => if digit b then let '(d, rest) := span l' in (b :: d, rest) else ([], l)
  | [] => ([], [])
  end.

Definition span1 (l : bytes) : option (bytes * bytes) :=
  match span l with ([], _) => None | r => Some r end.

(** The integer part, the fraction, the exponent. *)
Definition scan_int (l : bytes) : option (bytes * bytes) :=
  match l with
  | b :: l' => if b == x30 then Some ([x30], l') else span1 l
  | [] => None
  end.
Definition scan_frac (l : bytes) : option (bytes * bytes) :=
  match l with
  | b :: l' => if b == x2e then '(d, rest) ← span1 l'; Some (b :: d, rest) else Some ([], l)
  | [] => Some ([], l)
  end.
Definition scan_sign (signs : bytes) (l : bytes) : bytes * bytes :=
  match l with
  | b :: l' => if bool_decide (b ∈ signs) then ([b], l') else ([], l)
  | [] => ([], l)
  end.
Definition scan_exp (l : bytes) : option (bytes * bytes) :=
  match l with
  | b :: l' =>
      if (b == x65) || (b == x45) then
        let '(sign, l') := scan_sign [x2b; x2d] l' in
        '(d, rest) ← span1 l'; Some (b :: sign ++ d, rest)
      else Some ([], l)
  | [] => Some ([], l)
  end.

Definition scan_number (l : bytes) : option (bytes * bytes) :=
  let '(sign, l) := scan_sign [x2d] l in
  '(i, l) ← scan_int l; '(f, l) ← scan_frac l; '(e, l) ← scan_exp l;
  Some (sign ++ i ++ f ++ e, l).

(** ** Values *)

(** [Marshal] of a value. *)
Fixpoint join (parts : list bytes) : bytes :=
  match parts with
  | [] => []
  | [p] => p
  | p :: parts => p ++ x2c :: join parts
  end.

Fixpoint print (j : json) : bytes :=
  match j with
  | JNull => bs "null"
  | JBool b => if b then bs "true" else bs "false"
  | JNum lit => lit
  | JStr s => quote s
  | JArr l => x5b :: join (map print l) ++ [x5d]
  | JObj m => x7b :: join (map (λ kv, quote kv.1 ++ x3a :: print kv.2) m) ++ [x7d]
  end.

Definition space (b : byte) : bool := bool_decide (b ∈ [x20; x09; x0a; x0d]).
Fixpoint skip (l : bytes) : bytes :=
  match l with b :: l' => if space b then skip l' else l | [] => [] end.

(** The next character that is no space, and what follows it. *)
Definition token (l : bytes) : option (byte * bytes) :=
  match skip l with b :: l' => Some (b, l') | [] => None end.

Definition literal (text : string) (j : json) (l : bytes) : option (json * bytes) :=
  rest ← strip (bs text) l; Some (j, rest).

(** The next value, and what follows it. *)
Fixpoint parse_value (fuel : nat) (l : bytes) : option (json * bytes) :=
  match fuel with
  | O => None
  | S fuel =>
      '(b, l') ← token l;
      if b == x6e then literal "ull" JNull l'
      else if b == x74 then literal "rue" (JBool true) l'
      else if b == x66 then literal "alse" (JBool false) l'
      else if b == x22 then '(s, rest) ← unquote (length l') l'; Some (JStr s, rest)
      else if b == x5b then
        '(b1, rest) ← token l';
        if b1 == x5d then Some (JArr [], rest)
        else '(vs, rest) ← parse_elements fuel l'; Some (JArr vs, rest)
      else if b == x7b then
        '(b1, rest) ← token l';
        if b1 == x7d then Some (JObj [], rest)
        else '(kvs, rest) ← parse_members fuel l'; Some (JObj kvs, rest)
      else '(lit, rest) ← scan_number (b :: l'); Some (JNum lit, rest)
  end
with parse_elements (fuel : nat) (l : bytes) : option (list json * bytes) :=
  match fuel with
  | O => None
  | S fuel =>
      '(v, rest) ← parse_value fuel l;
      '(b, rest) ← token rest;
      if b == x5d then Some ([v], rest)
      else if b == x2c then '(vs, rest) ← parse_elements fuel rest; Some (v :: vs, rest)
      else None
  end
with parse_members (fuel : nat) (l : bytes) : option (list (bytes * json) * bytes) :=
  match fuel with
  | O => None
  | S fuel =>
      '(b, l') ← token l;
      if negb (b == x22) then None else
      '(k, rest) ← unquote (length l') l';
      '(b, rest) ← token rest;
      if negb (b == x3a) then None else
      '(v, rest) ← parse_value fuel rest;
      '(b, rest) ← token rest;
      if b == x7d then Some ([(k, v)], rest)
      else if b == x2c then '(kvs, rest) ← parse_members fuel rest; Some ((k, v) :: kvs, rest)
      else None
  end.

Definition SyntaxError : goerr := ELib "json.SyntaxError".

(** The value a [Decoder] reads first; what follows is not looked at. *)
Definition parse (l : bytes) : goerr + json :=
  match parse_value (S (length l)) l with Some (j, _) => inr j | None => inl SyntaxError end.

Definition q (s : string) : bytes := x22 :: bs s ++ [x22].
Example parse_example :
  parse (bs " {  " ++ q "a" ++ bs " : [1, -2.5e+3 ,true]," ++ q "b\u00e9\ud83d\ude00" ++ bs ":null} x") =
  inr (JObj [(bs "a", JArr [JNum (bs "1"); JNum (bs "-2.5e+3"); JBool true]);
             (bs "bé😀", JNull)]).
Proof. vm_compute. reflexivity. Qed.
Example print_example :
  print (JObj [(bs "a<b", JArr [JNum (bs "1"); JStr [x09; xff]])]) =
  bs "{" ++ q "a\u003cb" ++ bs ":[1," ++ q "\t\ufffd" ++ bs "]}".
Proof. vm_compute. reflexivity. Qed.

(** ** Strings survive *)

Lemma rune_len_app (l r : bytes) (n : nat) :
  rune_len l = S n → rune_len (take (S n) l ++ r) = S n.
Proof.
  unfold rune_len. destruct l as [|b0 l]; [done|].
  destruct (in_range 0 127 b0) eqn:E0; [by intros [= <-]; simpl; rewrite E0|].
  destruct (in_range 194 223 b0) eqn:E1.
  { destruct l as [|b1 l]; [done|]. destruct (cont b1) eqn:C1; intros [= <-].
    simpl. by rewrite E0, E1, C1. }
  destruct (in_range 224 239 b0) eqn:E2.
  { destruct l as [|b1 [|b2 l]]; try done. destruct (_ && _) eqn:C; intros [= <-].
    simpl. by rewrite E0, E1, E2, C. }
  destruct (in_range 240 244 b0) eqn:E3; [|done].
  destruct l as [|b1 [|b2 [|b3 l]]]; try done. destruct (_ && _ && _) eqn:C; intros [= <-].
  simpl. by rewrite E0, E1, E2, E3, C.
Qed.

Lemma rune_len_le (l : bytes) : rune_len l ≤ length l.
Proof.
  unfold rune_len. destruct l as [|b0 l]; [done|]. simpl.
  repeat (case_match; simpl; try lia).
Qed.

Lemma rune_len_pos (b : byte) (l : bytes) : in_range 0 127 b = true → rune_len (b :: l) = 1.
Proof. intros H. unfold rune_len. by rewrite H. Qed.

Lemma eqb_refl (b : byte) : (b == b) = true.
Proof. by apply Byte.byte_dec_lb. Qed.

Lemma eqb_neq (b c : byte) : b ≠ c → (b == c) = false.
Proof. intros H. destruct (b == c) eqn:E; [|done]. by apply Byte.byte_dec_bl in E. Qed.

Lemma in_range_iff lo hi b : in_range lo hi b = true ↔ lo ≤ nat_of_byte b ≤ hi.
Proof. unfold in_range. rewrite andb_true_iff, !Nat.leb_le. done. Qed.

(** Split a condition of the form [b == c], replacing [b] where it holds. *)
Local Ltac byte_case :=
  match goal with
  | |- context [?b == ?c] => is_var b; destruct (b == c) eqn:?;
      [match goal with E : (b == c) = true |- _ => apply Byte.byte_dec_bl in E; subst b end|]
  end.

Lemma unquote_plain (b : byte) (fuel : nat) (l : bytes) :
  in_range 0 127 b = true → (b == x22) = false → (b == x5c) = false → (nat_of_byte b <? 32) = false →
  unquote (S fuel) (b :: l) = '(s, rest) ← unquote fuel l; Some (b :: s, rest).
Proof. intros H H1 H2 H3. cbn [unquote]. by rewrite H1, H2, H3, rune_len_pos. Qed.

Lemma unquote_hex (b : byte) (fuel : nat) (l : bytes) :
  in_range 0 127 b = true →
  unquote (S fuel) ((bs "\u00" ++ [hex_of (nat_of_byte b / 16); hex_of (nat_of_byte b mod 16)]) ++ l)
  = '(s, rest) ← unquote fuel l; Some (b :: s, rest).
Proof.
  intros H%in_range_iff. cbn -[hex_of Nat.div Nat.modulo N.mul].
  rewrite !reverseHex_of by (try apply Nat.mod_upper_bound; lia || (apply Nat.Div0.div_lt_upper_bound; lia)).
  change (reverseHex "0") with (Some 0). cbn [mbind option_bind].
  assert (Hr : (4096 * N.of_nat 0 + 256 * N.of_nat 0 + 16 * N.of_nat (nat_of_byte b / 16)
                + N.of_nat (nat_of_byte b mod 16) = N.of_nat (nat_of_byte b))%N).
  { pose proof (Nat.div_mod (nat_of_byte b) 16). lia. }
  rewrite Hr. clear Hr.
  unfold escaped_rune, EncodeRune, encode_valid, valid_rune, surrogate.
  rewrite !(proj2 (N.leb_gt 55296 (N.of_nat (nat_of_byte b)))) by lia. cbn [andb negb].
  rewrite (proj2 (N.leb_le (N.of_nat (nat_of_byte b)) 1114111)) by lia. cbn [andb].
  rewrite (proj2 (N.ltb_lt (N.of_nat (nat_of_byte b)) 128)) by lia. unfold byte_of. by rewrite Nat2N.id, byte_of_nat_of_byte.
Qed.

Lemma unquote_escape (b : byte) (fuel : nat) (l : bytes) :
  in_range 0 127 b = true →
  unquote (S fuel) (escape b ++ l) = '(s, rest) ← unquote fuel l; Some (b :: s, rest).
Proof.
  intros H. unfold escape. do 2 (byte_case; [reflexivity|]). cbn [orb].
  do 3 (byte_case; [reflexivity|]). destruct (_ || _ || _ || _) eqn:E; [by apply unquote_hex|].
  apply unquote_plain; try done. by apply orb_false_iff in E as [[[E _]%orb_false_iff _]%orb_false_iff _].
Qed.

(** A byte of 128 or more is none that ends or escapes. *)
Lemma high_byte (b : byte) :
  in_range 0 127 b = false → (b == x22) = false ∧ (b == x5c) = false ∧ (nat_of_byte b <? 32) = false.
Proof.
  intros H. split_and!; [apply eqb_neq; by intros ->..|]. apply Nat.ltb_ge.
  destruct (decide (32 ≤ nat_of_byte b)); [done|]. exfalso.
  enough (in_range 0 127 b = true) by congruence. apply in_range_iff. lia.
Qed.

Lemma unquote_rune (rune l : bytes) (fuel n : nat) :
  rune_len rune = S n → length rune = S n → (∀ b r, rune = b :: r → in_range 0 127 b = false) →
  unquote (S fuel) (escape_rune rune ++ l) = '(s, rest) ← unquote fuel l; Some (rune ++ s, rest).
Proof.
  intros Hn Hlen Hhigh. unfold escape_rune.
  case_decide as E1; [by subst|]. case_decide as E2; [by subst|].
  destruct rune as [|b r]; [done|]. destruct (high_byte b (Hhigh b r eq_refl)) as (H1 & H2 & H3).
  cbn [app unquote]. rewrite H1, H2, H3.
  pose proof (rune_len_app (b :: r) l n Hn) as Happ. rewrite <- Hlen, firstn_all in Happ.
  change ((b :: r) ++ l) with (b :: r ++ l) in Happ. rewrite Happ. simpl length.
  cbn [take drop]. injection Hlen as Hlen.
  change (take (S (length r)) (b :: r ++ l)) with (b :: take (length r) (r ++ l)).
  change (drop (S (length r)) (b :: r ++ l)) with (drop (length r) (r ++ l)).
  by rewrite take_app_length, drop_app_length.
Qed.

Lemma unquote_quote (n : nat) (s : bytes) (m fuel : nat) (rest : bytes) :
  utf8_valid n s = true → length s ≤ m → length s < fuel →
  unquote fuel (quote_body m s ++ x22 :: rest) = Some (s, rest).
Proof.
  revert s m fuel. induction n as [|n IH]; intros s m fuel Hv Hm Hf.
  { destruct s; [|done]. destruct fuel as [|fuel]; [simpl in Hf; lia|]. by destruct m. }
  destruct s as [|b s]; [destruct fuel as [|fuel]; [simpl in Hf; lia|]; by destruct m|].
  destruct m as [|m]; [simpl in Hm; lia|]. destruct fuel as [|fuel]; [lia|].
  cbn [utf8_valid] in Hv. cbn [quote_body]. destruct (in_range 0 127 b) eqn:Eb.
  - rewrite rune_len_pos in Hv by done. change (drop 1 (b :: s)) with s in Hv.
    rewrite <- app_assoc, unquote_escape by done. rewrite IH; simpl in *; [done|done|lia|lia].
  - destruct (rune_len (b :: s)) as [|k] eqn:Ek; [done|].
    pose proof (rune_len_le (b :: s)) as Hle. rewrite Ek in Hle.
    rewrite <- app_assoc, (unquote_rune _ _ _ k).
    + rewrite IH; [|done|rewrite length_drop; simpl in *; lia|rewrite length_drop; simpl in *; lia].
      cbn [mbind option_bind]. by rewrite take_drop.
    + rewrite <- (app_nil_r (take _ _)). by apply rune_len_app.
    + rewrite length_take. lia.
    + intros b' r [= -> _]. done.
Qed.

Lemma length_escape (b : byte) : 1 ≤ length (escape b).
Proof. unfold escape. repeat case_match; simpl; lia. Qed.

Lemma length_escape_rune (rune : bytes) : length rune ≤ length (escape_rune rune).
Proof. unfold escape_rune. repeat case_decide; subst; simpl; lia. Qed.

Lemma length_quote_body (m : nat) (s : bytes) : length s ≤ m → length s ≤ length (quote_body m s).
Proof.
  revert s. induction m as [|m IH]; intros s Hm; [simpl; lia|].
  destruct s as [|b s]; [simpl; lia|]. cbn [quote_body]. destruct (in_range 0 127 b).
  - rewrite length_app. pose proof (length_escape b). specialize (IH s). simpl in *. lia.
  - destruct (rune_len (b :: s)) as [|k] eqn:Ek.
    + rewrite length_app. specialize (IH s). simpl in *. lia.
    + rewrite length_app. pose proof (rune_len_le (b :: s)) as Hle. rewrite Ek in Hle.
      pose proof (length_escape_rune (take (S k) (b :: s))) as He. rewrite length_take in He.
      specialize (IH (drop (S k) (b :: s))). rewrite length_drop in IH. simpl length in *. lia.
Qed.

(** The text of a string is read back, whatever follows it. *)
Lemma quote_read (s rest : bytes) :
  Valid s = true →
  unquote (length (quote_body (length s) s ++ x22 :: rest)) (quote_body (length s) s ++ x22 :: rest)
  = Some (s, rest).
Proof.
  intros Hv. apply (unquote_quote (length s)); [done|done|].
  rewrite length_app. simpl. pose proof (length_quote_body (length s) s). lia.
Qed.

(** ** Integers

    [strconv.AppendInt], and [strconv.ParseInt] on a literal. *)
Definition int_lit (z : Z) : bytes := bs (Itoa z).

Definition parse_uint (d : bytes) : option Z :=
  Z.of_N ∘ N.of_uint <$> NilZero.uint_of_string (String.string_of_list_byte d).

Definition ParseInt (lit : bytes) : option Z :=
  match scan_sign [x2d] lit with
  | ([], d) => parse_uint d
  | (_, d) => Z.opp <$> parse_uint d
  end.

(** What follows a number and does not belong to it. *)
Definition num_end (rest : bytes) : Prop :=
  match rest with
  | b :: _ => digit b = false ∧ (b == x2e) = false ∧ (b == x65) = false ∧ (b == x45) = false
  | [] => True
  end.

Definition num_ok (lit : bytes) : Prop :=
  (∃ b l, lit = b :: l ∧ (digit b = true ∨ b = x2d)) ∧
  ∀ rest, num_end rest → scan_number (lit ++ rest) = Some (lit, rest).

Lemma span_all (d rest : bytes) :
  Forall (λ b, digit b = true) d → (∀ b l, rest = b :: l → digit b = false) →
  span (d ++ rest) = (d, rest).
Proof.
  intros Hd Hrest. induction Hd as [|b d Hb _ IH]; cbn [app span].
  - destruct rest as [|b l]; [done|]. cbn [span]. by rewrite (Hrest b l).
  - by rewrite Hb, IH.
Qed.

Definition uint_bytes (d : Decimal.uint) : bytes := bs (NilEmpty.string_of_uint d).

Lemma uint_digits (d : Decimal.uint) : Forall (λ b, digit b = true) (uint_bytes d).
Proof. unfold uint_bytes. induction d; simpl; constructor; done. Qed.

(** No leading zeros. *)
Lemma to_uint_D0 (n : N) (d : Decimal.uint) : N.to_uint n = Decimal.D0 d → d = Decimal.Nil.
Proof.
  intros H. pose proof (DecimalN.Unsigned.to_of (N.to_uint n)) as Hn.
  rewrite DecimalN.Unsigned.of_to, H in Hn. unfold Decimal.unorm in Hn. simpl in Hn.
  destruct (Decimal.nzhead d) eqn:E; try discriminate Hn; [by injection Hn|].
  by apply nzhead_nonzero in E.
Qed.

Lemma to_uint_nonnil (n : N) : N.to_uint n ≠ Decimal.Nil.
Proof.
  intros H. pose proof (DecimalN.Unsigned.to_of (N.to_uint n)) as Hn.
  rewrite DecimalN.Unsigned.of_to, H in Hn. discriminate Hn.
Qed.

Lemma scan_int_span (b : byte) (l : bytes) : b ≠ x30 → scan_int (b :: l) = span1 (b :: l).
Proof. intros H. cbn [scan_int]. by rewrite eqb_neq. Qed.

Lemma scan_uint (n : N) (rest : bytes) :
  num_end rest → scan_int (uint_bytes (N.to_uint n) ++ rest) = Some (uint_bytes (N.to_uint n), rest).
Proof.
  intros Hend.
  assert (Hspan : span (uint_bytes (N.to_uint n) ++ rest) = (uint_bytes (N.to_uint n), rest)).
  { apply span_all; [apply uint_digits|]. intros b l ->. by destruct Hend. }
  pose proof (to_uint_nonnil n) as Hne. pose proof (to_uint_D0 n) as H0.
  destruct (N.to_uint n) as [|d|d|d|d|d|d|d|d|d|d]; [done|by rewrite (H0 d eq_refl)|..].
  all: match type of Hspan with span ?l = _ => transitivity (span1 l) end;
    [by apply scan_int_span|unfold span1; rewrite Hspan; reflexivity].
Qed.

Lemma scan_tail (rest : bytes) :
  num_end rest → scan_frac rest = Some ([], rest) ∧ scan_exp rest = Some ([], rest).
Proof.
  destruct rest as [|b l]; [done|]. intros (_ & H1 & H2 & H3). cbn. by rewrite H1, H2, H3.
Qed.

Lemma scan_sign_uint (n : N) (rest : bytes) :
  scan_sign [x2d] (uint_bytes (N.to_uint n) ++ rest) = ([], uint_bytes (N.to_uint n) ++ rest).
Proof. pose proof (to_uint_nonnil n). by destruct (N.to_uint n). Qed.

Lemma int_lit_cases (z : Z) :
  int_lit z = if decide (z < 0)%Z then x2d :: uint_bytes (N.to_uint (Z.to_N (- z)))
              else uint_bytes (N.to_uint (Z.to_N z)).
Proof. unfold int_lit, Itoa. by case_decide. Qed.

Lemma int_lit_ok (z : Z) : num_ok (int_lit z).
Proof.
  assert (Huint : ∀ n, ∃ b l, uint_bytes (N.to_uint n) = b :: l ∧ digit b = true).
  { intros n. pose proof (uint_digits (N.to_uint n)) as Hd. pose proof (to_uint_nonnil n) as Hn.
    destruct (uint_bytes (N.to_uint n)) as [|b l] eqn:E.
    - exfalso. apply Hn. by destruct (N.to_uint n).
    - apply Forall_cons in Hd as [Hb _]. by exists b, l. }
  rewrite int_lit_cases. split.
  - case_decide; [do 2 eexists; split; [done|by right]|].
    destruct (Huint (Z.to_N z)) as (b & l & -> & Hb). exists b, l. split; [done|by left].
  - intros rest Hend. destruct (scan_tail rest Hend) as [Hf He]. unfold scan_number.
    case_decide.
    + cbn [app scan_sign]. rewrite bool_decide_true by set_solver.
      rewrite scan_uint by done. cbn [mbind option_bind]. rewrite Hf. cbn [mbind option_bind].
      rewrite He. cbn [mbind option_bind app]. by rewrite !app_nil_r.
    + rewrite scan_sign_uint, scan_uint by done. cbn [mbind option_bind]. rewrite Hf.
      cbn [mbind option_bind]. rewrite He. cbn [mbind option_bind app]. by rewrite !app_nil_r.
Qed.

Lemma parse_uint_of (n : N) : parse_uint (uint_bytes (N.to_uint n)) = Some (Z.of_N n).
Proof.
  unfold parse_uint, uint_bytes, bs. rewrite String.string_of_list_byte_of_string.
  assert (H : NilZero.uint_of_string (NilEmpty.string_of_uint (N.to_uint n)) = Some (N.to_uint n)).
  { pose proof (to_uint_nonnil n) as Hn. rewrite <- (NilEmpty.usu (N.to_uint n)).
    destruct (N.to_uint n); done. }
  rewrite H. simpl. by rewrite DecimalN.Unsigned.of_to.
Qed.

Lemma ParseInt_lit (z : Z) : ParseInt (int_lit z) = Some z.
Proof.
  unfold ParseInt. rewrite int_lit_cases. case_decide.
  - cbn [scan_sign]. rewrite bool_decide_true by set_solver. rewrite parse_uint_of. simpl. f_equal. lia.
  - rewrite <- (app_nil_r (uint_bytes _)), scan_sign_uint, app_nil_r, parse_uint_of. f_equal. lia.
Qed.

(** ** Values survive *)

Fixpoint json_ok (j : json) : Prop :=
  match j with
  | JNull | JBool _ => True
  | JNum lit => num_ok lit
  | JStr s => Valid s = true
  | JArr l => foldr (λ x, and (json_ok x)) True l
  | JObj m => foldr (λ kv, and (Valid kv.1 = true ∧ json_ok kv.2)) True m
  end.

(** Enough fuel to read a value. *)
Fixpoint jsize (j : json) : nat :=
  match j with
  | JArr l => S (list_sum (map (λ x, S (jsize x)) l))
  | JObj m => S (list_sum (map (λ kv, S (jsize kv.2)) m))
  | _ => 1
  end.

(** The first character tells what follows. *)
Definition starts (b : byte) : Prop := space b = false ∧ (b == x5d) = false ∧ (b == x7d) = false.

Lemma print_head (j : json) : json_ok j → ∃ b l, print j = b :: l ∧ starts b.
Proof.
  destruct j as [|[]|lit|s|l|m]; try (intros _; do 2 eexists; split; [reflexivity|done]).
  intros [(b & l & -> & Hb) _]. exists b, l. split; [done|].
  destruct Hb as [Hb|Hb]; [|subst; done]. unfold digit, in_range in Hb.
  unfold starts. apply andb_true_iff in Hb as [H1%Nat.leb_le H2%Nat.leb_le].
  split_and!; [apply bool_decide_false; intros Hin|apply eqb_neq; intros ->..].
  - assert (nat_of_byte b ≤ 32).
    { repeat (apply elem_of_cons in Hin as [->|Hin]; [by vm_compute; lia|]).
      by apply elem_of_nil in Hin. }
    lia.
  - vm_compute in H2. lia.
  - vm_compute in H2. lia.
Qed.

Lemma token_cons (b : byte) (l : bytes) : space b = false → token (b :: l) = Some (b, l).
Proof. intros H. unfold token. cbn. by rewrite H. Qed.

Definition reads (j : json) : Prop :=
  json_ok j → ∀ fuel rest, num_end rest → jsize j ≤ fuel →
  parse_value fuel (print j ++ rest) = Some (j, rest).

(** Reading the characters of punctuation. *)
Local Ltac tok := rewrite token_cons by done; cbn [mbind option_bind].

Lemma list_sum_map {A} (f : A → nat) (x : A) (l : list A) :
  list_sum (map f (x :: l)) = f x + list_sum (map f l).
Proof. reflexivity. Qed.

Lemma join_map {A} (f : A → bytes) (x y : A) (l : list A) :
  join (map f (x :: y :: l)) = f x ++ x2c :: join (map f (y :: l)).
Proof. reflexivity. Qed.

Lemma read_elements (l : list json) (x : json) (fuel : nat) (rest : bytes) :
  Forall reads (x :: l) → foldr (λ x, and (json_ok x)) True (x :: l) →
  list_sum (map (λ x, S (jsize x)) (x :: l)) ≤ fuel →
  parse_elements fuel (join (map print (x :: l)) ++ x5d :: rest) = Some (x :: l, rest).
Proof.
  revert x fuel. induction l as [|y l IH]; intros x fuel Hr Hok Hf;
    apply Forall_cons in Hr as [Hx Hr]; destruct Hok as [Hxok Hok];
    rewrite list_sum_map in Hf; (destruct fuel as [|fuel]; [lia|]); cbn [parse_elements].
  - cbn [map join]. rewrite Hx by (done || lia). cbn [mbind option_bind]. tok. done.
  - rewrite join_map, <- app_assoc. rewrite Hx by (done || lia). cbn [mbind option_bind app].
    tok. change (x2c == x5d) with false. change (x2c == x2c) with true. cbn iota.
    rewrite IH; [done|done|done|lia].
Qed.

Definition print_member (kv : bytes * json) : bytes := quote kv.1 ++ x3a :: print kv.2.

Lemma read_members (l : list (bytes * json)) (x : bytes * json) (fuel : nat) (rest : bytes) :
  Forall (λ kv, reads kv.2) (x :: l) →
  foldr (λ kv, and (Valid kv.1 = true ∧ json_ok kv.2)) True (x :: l) →
  list_sum (map (λ kv, S (jsize kv.2)) (x :: l)) ≤ fuel →
  parse_members fuel (join (map print_member (x :: l)) ++ x7d :: rest) = Some (x :: l, rest).
Proof.
  revert x fuel. induction l as [|y l IH]; intros [k v] fuel Hr Hok Hf;
    apply Forall_cons in Hr as [Hx Hr]; destruct Hok as [[Hk Hv] Hok]; cbn [fst snd] in *;
    rewrite list_sum_map in Hf; cbn [fst snd] in Hf;
    (destruct fuel as [|fuel]; [lia|]); cbn [parse_members]; rewrite ?join_map; [cbn [map join]|];
    unfold print_member at 1, quote; cbn [fst snd]; rewrite <- ?app_assoc; cbn [app];
    tok; cbn [negb Byte.eqb]; change (x22 == x22) with true; cbn [negb];
    rewrite <- ?app_assoc; cbn [app]; rewrite quote_read by done; cbn [mbind option_bind];
    tok; change (x3a == x3a) with true; cbn [negb].
  - rewrite Hx by (done || lia). cbn [mbind option_bind]. tok. done.
  - rewrite <- ?app_assoc. cbn [app]. rewrite Hx by (done || lia). cbn [mbind option_bind]. tok.
    change (x2c == x7d) with false. change (x2c == x2c) with true. cbn iota.
    rewrite IH; [done|done|done|lia].
Qed.

Lemma parse_print (j : json) : reads j.
Proof.
  induction j as [|b|lit|s|l IH|m IH] using json_deep; intros Hok [|fuel] rest Hend Hf;
    try (simpl in Hf; lia); cbn [parse_value].
  - reflexivity.
  - by destruct b.
  - destruct Hok as [(b & l & -> & Hb) Hscan]. cbn [print app].
    destruct (print_head (JNum (b :: l))) as (b' & l' & [= <- <-] & Hs & _);
      [split; [by exists b, l|done]|].
    rewrite token_cons by done. cbn [mbind option_bind].
    assert (Hne : ∀ c, nat_of_byte c ≥ 90 ∨ c = x22 → (b == c) = false).
    { intros c Hc. apply eqb_neq. intros ->. destruct Hb as [Hb| ->].
      - unfold digit in Hb. apply in_range_iff in Hb. destruct Hc as [Hc| ->]; [lia|].
        vm_compute in Hb. lia.
      - destruct Hc as [Hc|Hc]; [vm_compute in Hc; lia|done]. }
    rewrite !Hne by (first [by right|left; vm_compute; lia]).
    change (b :: l ++ rest) with ((b :: l) ++ rest). by rewrite Hscan.
  - cbn [print quote app]. rewrite <- app_assoc. cbn [app]. tok.
    change (x22 == x6e) with false. change (x22 == x74) with false. change (x22 == x66) with false.
    change (x22 == x22) with true. cbn iota. by rewrite quote_read.
  - cbn [print app]. rewrite <- app_assoc. cbn [app]. tok.
    change (x5b == x6e) with false. change (x5b == x74) with false. change (x5b == x66) with false.
    change (x5b == x22) with false. change (x5b == x5b) with true. cbn iota.
    destruct l as [|x l]; [reflexivity|].
    assert (Hx : json_ok x) by apply Hok. destruct (print_head x Hx) as (b & t & Hp & Hs & Hb & _).
    assert (Htok : ∃ r, token (join (map print (x :: l)) ++ x5d :: rest) = Some (b, r)).
    { destruct l; cbn [map join]; rewrite Hp; cbn [app]; rewrite token_cons by done; by eexists. }
    destruct Htok as [r ->]. cbn [mbind option_bind]. rewrite Hb.
    rewrite read_elements; [done|done|done|]. cbn [jsize] in Hf. lia.
  - cbn [print app]. rewrite <- app_assoc. cbn [app]. tok.
    change (x7b == x6e) with false. change (x7b == x74) with false. change (x7b == x66) with false.
    change (x7b == x22) with false. change (x7b == x5b) with false.
    change (x7b == x7b) with true. cbn iota. destruct m as [|x m]; [reflexivity|].
    assert (Htok : ∃ r, token (join (map print_member (x :: m)) ++ x7d :: rest) = Some (x22, r)).
    { destruct m; cbn [map join]; unfold print_member at 1, quote; cbn [app];
        rewrite token_cons by done; by eexists. }
    destruct Htok as [r Hr].
    change (map (λ kv, quote kv.1 ++ x3a :: print kv.2) (x :: m)) with (map print_member (x :: m)).
    rewrite Hr. cbn [mbind option_bind]. change (x22 == x7d) with false. cbn iota.
    rewrite read_members; [done|done|done|]. cbn [jsize] in Hf. lia.
Qed.

(** *** The fuel is enough *)
Lemma length_join (parts : list bytes) :
  list_sum (map (λ p, S (length p)) parts) ≤ S (length (join parts)).
Proof.
  induction parts as [|p parts IH]; [simpl; lia|]. rewrite list_sum_map.
  destruct parts as [|p' parts]; [change (S (length p) + 0 ≤ S (length p)); lia|].
  change (join (p :: p' :: parts)) with (p ++ x2c :: join (p' :: parts)).
  rewrite length_app. cbn [length]. lia.
Qed.

Lemma list_sum_le {A} (f g : A → nat) (l : list A) :
  Forall (λ x, f x ≤ g x) l → list_sum (map f l) ≤ list_sum (map g l).
Proof. induction 1 as [|x l Hx _ IH]; [done|]. rewrite !list_sum_map. lia. Qed.

Lemma jsize_length (j : json) : json_ok j → jsize j ≤ length (print j).
Proof.
  induction j as [|b|lit|s|l IH|m IH] using json_deep; intros Hok; try (simpl; lia).
  - destruct b; simpl; lia.
  - destruct Hok as [(b & l & -> & _) _]. simpl. lia.
  - cbn [jsize print length]. rewrite length_app. simpl length.
    pose proof (length_join (map print l)) as Hj. rewrite map_map in Hj.
    enough (list_sum (map (λ x, S (jsize x)) l) ≤ list_sum (map (λ x, S (length (print x))) l)) by lia.
    apply list_sum_le. clear Hj. revert Hok. induction IH as [|x l Hx _ IHl]; intros Hok; [done|].
    destruct Hok as [Hxok Hok]. constructor; [specialize (Hx Hxok); lia|by apply IHl].
  - change (print (JObj m)) with (x7b :: join (map print_member m) ++ [x7d]).
    cbn [jsize length]. rewrite length_app. simpl length.
    pose proof (length_join (map print_member m)) as Hj. rewrite map_map in Hj.
    enough (list_sum (map (λ kv, S (jsize kv.2)) m)
            ≤ list_sum (map (λ x, S (length (print_member x))) m)) by lia.
    apply list_sum_le. clear Hj. revert Hok. induction IH as [|x l Hx _ IHl]; intros Hok; [done|].
    destruct Hok as [[_ Hxok] Hok]. constructor; [|by apply IHl]. specialize (Hx Hxok).
    unfold print_member. rewrite length_app. simpl. lia.
Qed.

(** What [Marshal] prints is read as the same value, whatever follows. *)
Theorem json_roundtrip (j : json) (rest : bytes) :
  json_ok j → num_end rest → parse (print j ++ rest) = inr j.
Proof.
  intros Hok Hend. unfold parse. rewrite parse_print; [done|done|done|].
  rewrite length_app. pose proof (jsize_length j Hok). lia.
Qed.

(** ** What is read is UTF-8 *)

Lemma utf8_valid_le (n m : nat) (s : bytes) :
  utf8_valid n s = true → n ≤ m → utf8_valid m s = true.
Proof.
  revert m s. induction n as [|n IH]; intros [|m] [|b s] Hv Hm; try done; [lia|].
  cbn [utf8_valid] in Hv |- *. destruct (rune_len (b :: s)); [done|]. apply IH; [done|lia].
Qed.

Lemma Valid_rune (n : nat) (l s : bytes) :
  rune_len l = S n → Valid s = true → Valid (take (S n) l ++ s) = true.
Proof.
  intros Hn Hs. pose proof (rune_len_app l s n Hn) as Ha. pose proof (rune_len_le l) as Hle.
  assert (Hlen : length (take (S n) l) = S n) by (rewrite length_take; lia).
  unfold Valid. rewrite length_app, Hlen. cbn [Nat.add utf8_valid].
  destruct (take (S n) l ++ s) as [|b r] eqn:E; [done|]. rewrite Ha, <- E, drop_app_length' by done.
  apply (utf8_valid_le (length s)); [done|lia].
Qed.

Lemma Valid_ascii (b : byte) (s : bytes) :
  in_range 0 127 b = true → Valid s = true → Valid (b :: s) = true.
Proof. intros Hb Hs. apply (Valid_rune 0 (b :: s) s); [by apply rune_len_pos|done]. Qed.

Lemma nat_of_byte_of (r : N) : (r < 256)%N → nat_of_byte (byte_of r) = N.to_nat r.
Proof. intros Hr. apply nat_of_byte_of_nat_small. lia. Qed.

Lemma byte_of_in_range (lo hi : nat) (r : N) :
  (r < 256)%N →
  in_range lo hi (byte_of r) = (N.of_nat lo <=? r)%N && (r <=? N.of_nat hi)%N.
Proof.
  intros Hr. apply eq_true_iff_eq.
  rewrite in_range_iff, nat_of_byte_of, andb_true_iff, !N.leb_le by lia. lia.
Qed.

(** Decide the comparisons of numbers in the goal. *)
Local Ltac nb :=
  repeat match goal with
  | |- context [(?a <=? ?b)%N] => first
      [rewrite (proj2 (N.leb_le a b)) by lia | rewrite (proj2 (N.leb_gt a b)) by lia]
  end; cbn [andb].

(** The bytes of a code point, from its digits to the base 64. *)
Lemma rune_len2 (a b : N) :
  (2 ≤ a < 32)%N → (b < 64)%N → rune_len [byte_of (192 + a); byte_of (128 + b)] = 2.
Proof. intros Ha Hb. unfold rune_len, cont. rewrite !byte_of_in_range by lia. by nb. Qed.

Lemma rune_len3 (a b c : N) :
  (a < 16)%N → (b < 64)%N → (c < 64)%N → (a = 0 → 32 ≤ b)%N → (a = 13 → b < 32)%N →
  rune_len [byte_of (224 + a); byte_of (128 + b); byte_of (128 + c)] = 3.
Proof.
  intros Ha Hb Hc H0 H13. unfold rune_len, cont.
  rewrite nat_of_byte_of, !byte_of_in_range by lia.
  destruct (Nat.eqb_spec (N.to_nat (224 + a)) 224), (Nat.eqb_spec (N.to_nat (224 + a)) 237);
    cbn iota; nb; done || lia.
Qed.

Lemma rune_len4 (a b c d : N) :
  (a < 5)%N → (b < 64)%N → (c < 64)%N → (d < 64)%N → (a = 0 → 16 ≤ b)%N → (a = 4 → b < 16)%N →
  rune_len [byte_of (240 + a); byte_of (128 + b); byte_of (128 + c); byte_of (128 + d)] = 4.
Proof.
  intros Ha Hb Hc Hd H0 H4. unfold rune_len, cont.
  rewrite nat_of_byte_of, !byte_of_in_range by lia.
  destruct (Nat.eqb_spec (N.to_nat (240 + a)) 240), (Nat.eqb_spec (N.to_nat (240 + a)) 244);
    cbn iota; nb; done || lia.
Qed.

Lemma digits64 (q : N) : (q = 64 * (q / 64) + q mod 64 ∧ q mod 64 < 64)%N.
Proof. split; [by apply N.div_mod|by apply N.mod_upper_bound]. Qed.

Lemma encode_valid_len (r : N) :
  valid_rune r = true → rune_len (encode_valid r) = length (encode_valid r).
Proof.
  unfold valid_rune, surrogate. intros [Hr%N.leb_le Hs%negb_true_iff]%andb_true_iff.
  assert (Hs' : (r < 55296 ∨ 57343 < r)%N)
    by (apply andb_false_iff in Hs as [Hs|Hs]; apply N.leb_gt in Hs; lia).
  clear Hs. unfold encode_valid.
  destruct (digits64 r) as [H1 B1], (digits64 (r / 64)) as [H2 B2], (digits64 (r / 4096)) as [H3 B3].
  rewrite N.Div0.div_div in H2, H3. change (64 * 64)%N with 4096%N in H2. change (4096 * 64)%N with 262144%N in H3.
  generalize dependent (r / 262144)%N. generalize dependent (r / 4096 mod 64)%N.
  generalize dependent (r / 4096)%N. generalize dependent (r / 64 mod 64)%N.
  generalize dependent (r / 64)%N. generalize dependent (r mod 64)%N. intros d Hd q1 H1 c Hc q2 H2 b Hb q3 H3.
  destruct (N.ltb_spec r 128); [|destruct (N.ltb_spec r 2048); [|destruct (N.ltb_spec r 65536)]];
    cbn [length].
  - apply rune_len_pos. rewrite byte_of_in_range by lia. by nb.
  - apply rune_len2; lia.
  - apply rune_len3; lia.
  - apply rune_len4; lia.
Qed.

Lemma Valid_encode (r : N) (s : bytes) : Valid s = true → Valid (EncodeRune r ++ s) = true.
Proof.
  intros Hs. unfold EncodeRune.
  assert (Hr : valid_rune (if valid_rune r then r else RuneError) = true)
    by (destruct (valid_rune r) eqn:E; [done|reflexivity]).
  pose proof (encode_valid_len _ Hr) as Hl. revert Hl.
  generalize (encode_valid (if valid_rune r then r else RuneError)).
  intros e Hl. destruct (length e) as [|n] eqn:En; [by destruct e|].
  rewrite <- (firstn_all e), En. by apply Valid_rune.
Qed.
#[local] Hint Resolve Valid_ascii Valid_rune Valid_encode : core.

Lemma simple_escape_ascii (e c : byte) : simple_escape e = Some c → in_range 0 127 c = true.
Proof. unfold simple_escape. repeat case_match; intros [= <-]; try done.
  match goal with H : _ || _ = true |- _ => apply orb_true_iff in H as [[H|H]%orb_true_iff|H] end;
    by apply Byte.byte_dec_bl in H as ->. Qed.

Lemma unquote_valid (fuel : nat) (l s rest : bytes) :
  unquote fuel l = Some (s, rest) → Valid s = true.
Proof.
  revert l s rest. induction fuel as [|fuel IH]; intros l s rest; [done|].
  destruct l as [|b l]; [done|]. cbn [unquote].
  destruct (b == x22); [by intros [= <- _]|]. destruct (b == x5c).
  { destruct l as [|e l]; [done|]. destruct (e == x75).
    - intros ([r l1] & _ & H)%bind_Some. destruct (escaped_rune r l1) as [c l2] eqn:Ec.
      apply bind_Some in H as ([s' l3] & Hu & [= <- _]). apply IH in Hu. revert Ec.
      unfold escaped_rune. destruct (surrogate r); [|intros [= <- _]; auto].
      case_match eqn:Hm; [|intros [= <- _]; auto]. intros ->.
      apply bind_Some in Hm as ([r1 rest2] & _ & (dec & _ & [= <- _])%bind_Some). auto.
    - intros (c & Hc & ([s' l1] & Hu & [= <- _])%bind_Some)%bind_Some.
      apply simple_escape_ascii in Hc. eauto. }
  destruct (_ <? _); [done|]. destruct (rune_len (b :: l)) as [|n] eqn:En.
  - intros ([s' l1] & Hu & [= <- _])%bind_Some. apply IH in Hu. by apply (Valid_encode RuneError).
  - intros ([s' l1] & Hu & [= <- _])%bind_Some. apply IH in Hu. by apply (Valid_rune n (b :: l)).
Qed.
