(* ===== verification/JsonTypes.v ===== *)
(** * [encoding/json]: Go types

    A [jtype A] is a Go type whose values are of type [A]: its zero value, what
    [Marshal] makes of a value, and what decoding a JSON value into a variable
    leaves in it, with the first error.  Types are built by combinators; what
    holds of all of them ([jtype_ok]) is proved of each combinator.  Decoding
    an array into a slice that holds elements decodes into these, as far as its
    length; what is left behind the length of a slice is not modelled. *)
From S2P Require Import Prelude Float Utils Config Encoding Json.

Definition UnmarshalTypeError : goerr := ELib "json.UnmarshalTypeError".

Record jtype (A : Type) := mkJType {
  zero : A;
  encode : A → json;
  decode : json → A → A * option goerr;
  fits : A → Prop                        (* the values of the Go type that are text *)
}.
Arguments mkJType {A}.
Arguments zero {A} _.
Arguments encode {A} _ _.
Arguments decode {A} _ _ _.
Arguments fits {A} _ _.

(** Decoding goes on after an error; the first one is returned. *)
Definition first_error (e e' : option goerr) : option goerr :=
  match e with Some _ => e | None => e' end.

(** All strings of a value are UTF-8, as a [Decoder] makes them. *)
Fixpoint text_ok (j : json) : Prop :=
  match j with
  | JNull | JBool _ | JNum _ => True
  | JStr s => Valid s = true
  | JArr l => foldr (λ x, and (text_ok x)) True l
  | JObj m => foldr (λ kv, and (text_ok kv.2)) True m
  end.

Record jtype_ok {A} (t : jtype A) : Prop := {
  zero_fits : fits t (zero t);
  encode_ok a : fits t a → json_ok (encode t a);
  decode_encode a : fits t a → decode t (encode t a) (zero t) = (a, None);
  decode_fits j a : text_ok j → fits t a → fits t (decode t j a).1
}.

Create HintDb json.
#[export] Hint Resolve zero_fits encode_ok decode_encode decode_fits : json.

(** ** Basic types *)

(** [null] leaves a variable as it is. *)
Definition basic {A} (read : json → option A) (j : json) (a : A) : A * option goerr :=
  match j with
  | JNull => (a, None)
  | _ => match read j with Some a' => (a', None) | None => (a, Some UnmarshalTypeError) end
  end.

(** Signed integers of [w] bits. *)
Definition int_range (w z : Z) : Prop := (- 2 ^ (w - 1) ≤ z < 2 ^ (w - 1))%Z.
#[export] Instance int_range_dec w z : Decision (int_range w z) := _.

Definition read_int (w : Z) (j : json) : option Z :=
  match j with
  | JNum lit => z ← ParseInt lit; if decide (int_range w z) then Some z else None
  | _ => None
  end.
Definition jint (w : Z) : jtype Z :=
  mkJType 0%Z (λ z, JNum (int_lit z)) (basic (read_int w)) (int_range w).

Definition jbool : jtype bool :=
  mkJType false JBool (basic (λ j, match j with JBool b => Some b | _ => None end)) (λ _, True).

Definition jstring : jtype string :=
  mkJType EmptyString (λ s, JStr (bs s))
    (basic (λ j, match j with JStr s => Some (String.string_of_list_byte s) | _ => None end))
    (λ s, Valid (bs s) = true).

(** [[]byte] is a string in base64; [nil] is [null].  (An array of numbers,
    which a decoder takes too, is not modelled.) *)
Definition jbytes : jtype (option bytes) :=
  mkJType None (λ b, match b with None => JNull | Some b => JStr (Encode b) end)
    (λ j b, match j with
            | JNull => (None, None)
            | JStr s => match Decode64 s with
                        | inl e => (b, Some e)
                        | inr b' => (Some b', None)
                        end
            | _ => (b, Some UnmarshalTypeError)
            end)
    (λ _, True).

Lemma basic_fits {A} (P : A → Prop) (read : json → option A) (j : json) (a : A) :
  (∀ a', read j = Some a' → P a') → P a → P (basic read j a).1.
Proof. intros Hr Ha. unfold basic. destruct j; try done; case_match; auto. Qed.

Lemma jint_ok (w : Z) : (1 < w)%Z → jtype_ok (jint w).
Proof.
  intros Hw. assert (Hp : (0 < 2 ^ (w - 1))%Z) by (apply Z.pow_pos_nonneg; lia). split.
  - change (int_range w 0). unfold int_range. lia.
  - intros z _. apply int_lit_ok.
  - intros z Hz. cbn. rewrite ParseInt_lit. simpl. by rewrite decide_True.
  - intros j z _ Hz. apply (basic_fits (int_range w)); [|done]. intros z'. destruct j as [| |lit| | |]; try done.
    simpl. destruct (ParseInt lit) as [x|]; simpl; [|done]. by case_decide; intros [= <-].
Qed.

Lemma jbool_ok : jtype_ok jbool.
Proof. by split. Qed.

Lemma jstring_ok : jtype_ok jstring.
Proof.
  split; simpl; try done.
  - intros s _. unfold bs. by rewrite String.string_of_list_byte_of_string.
  - intros j s Hj Hs. apply (basic_fits (λ s, Valid (bs s) = true)); [|done].
    intros s'. destruct j; try done. intros [= <-].
    unfold bs. by rewrite String.list_byte_of_string_of_list_byte.
Qed.

(** Base64 is ASCII. *)
Lemma valid_ascii (s : bytes) (n : nat) :
  length s ≤ n → Forall (λ b, in_range 0 127 b = true) s → utf8_valid n s = true.
Proof.
  revert s. induction n as [|n IH]; intros s Hn Hs; [destruct s; [done|simpl in Hn; lia]|].
  destruct s as [|b s]; [done|]. apply Forall_cons in Hs as [Hb Hs]. cbn [utf8_valid].
  rewrite rune_len_pos by done. change (drop 1 (b :: s)) with s. apply IH; [simpl in Hn; lia|done].
Qed.

Lemma enc64_ascii (n : nat) : in_range 0 127 (enc64 n) = true.
Proof.
  unfold enc64. destruct (nth_in_or_default n encodeStd x00) as [H| ->]; [|done].
  revert H. generalize (nth n encodeStd x00). apply List.Forall_forall.
  unfold encodeStd. repeat constructor.
Qed.

Lemma Encode_ascii (b : bytes) : Forall (λ c, in_range 0 127 c = true) (Encode b).
Proof.
  induction b as [|x|x y|x y z l IH] using bytes_ind3; cbn [Encode]; repeat constructor;
    try apply enc64_ascii; done.
Qed.

Lemma jbytes_ok : jtype_ok jbytes.
Proof.
  split; simpl; try done.
  - intros [b|] _; [|done]. simpl. unfold Valid. apply valid_ascii; [done|apply Encode_ascii].
  - intros [b|] _; [|done]. simpl.
    assert (H : Decode64 (Encode b) = inr b).
    { unfold Decode64. rewrite filter_all; [apply base64_quanta|].
      intros c Hc. pose proof (Encode_no_line b) as Hl. rewrite Forall_forall in Hl. by apply Hl. }
    by rewrite H.
Qed.

(** ** Slices and pointers *)
Section slices.
Context {A : Type} (t : jtype A).

Fixpoint decode_elements (l : list json) (old : list A) : list A * option goerr :=
  match l with
  | [] => ([], None)
  | j :: l =>
      let '(a, e) := decode t j (default (zero t) (head old)) in
      let '(l', e') := decode_elements l (tail old) in (a :: l', first_error e e')
  end.

Definition jslice : jtype (option (list A)) :=
  mkJType None (λ l, match l with None => JNull | Some l => JArr (encode t <$> l) end)
    (λ j old, match j with
              | JNull => (None, None)
              | JArr l => let '(l, e) := decode_elements l (default [] old) in (Some l, e)
              | _ => (old, Some UnmarshalTypeError)
              end)
    (λ l, Forall (fits t) (default [] l)).

(** A slice that is never nil where it is encoded. *)
Definition jlist : jtype (list A) :=
  mkJType [] (λ l, JArr (encode t <$> l))
    (λ j old, match j with
              | JNull => ([], None)
              | JArr l => decode_elements l old
              | _ => (old, Some UnmarshalTypeError)
              end)
    (Forall (fits t)).

Definition jptr : jtype (option A) :=
  mkJType None (λ a, match a with None => JNull | Some a => encode t a end)
    (λ j old, match j with
              | JNull => (None, None)
              | _ => let '(a, e) := decode t j (default (zero t) old) in (Some a, e)
              end)
    (λ a, match a with None => True | Some a => fits t a end).

Hypothesis Ht : jtype_ok t.

Lemma elements_ok (l : list A) :
  Forall (fits t) l → foldr (λ x, and (json_ok x)) True (encode t <$> l).
Proof using Ht. induction 1; simpl; [done|]. split; [by apply encode_ok|done]. Qed.

Lemma elements_encode (l : list A) :
  Forall (fits t) l → decode_elements (encode t <$> l) [] = (l, None).
Proof using Ht.
  induction 1 as [|a l Ha _ IH]; [done|]. cbn. rewrite (decode_encode t Ht a Ha).
  change (list_fmap A json (encode t) l) with (encode t <$> l). by rewrite IH.
Qed.

Lemma elements_fit (l : list json) (old : list A) :
  foldr (λ x, and (text_ok x)) True l → Forall (fits t) old → Forall (fits t) (decode_elements l old).1.
Proof using Ht.
  revert old. induction l as [|j l IH]; intros old Hl Hold; [by constructor|]. cbn in Hl |- *.
  destruct Hl as [Hj Hl].
  assert (Ha : fits t (decode t j (default (zero t) (head old))).1).
  { apply decode_fits; [done|done|]. destruct Hold; [by apply zero_fits|done]. }
  destruct (decode t j _) as [a e]. specialize (IH (tail old) Hl).
  destruct (decode_elements l (tail old)) as [l' e']. constructor; [done|]. apply IH.
  by destruct Hold.
Qed.

Lemma jslice_ok : jtype_ok jslice.
Proof using Ht.
  split; simpl.
  - constructor.
  - intros [l|] Hl; simpl in *; [by apply elements_ok|done].
  - intros [l|] Hl; simpl in *; [|done]. by rewrite elements_encode.
  - intros j old Hj Hold. destruct j as [| | | |l|]; simpl; try done.
    pose proof (elements_fit l (default [] old) Hj Hold). by destruct (decode_elements _ _).
Qed.

Lemma jlist_ok : jtype_ok jlist.
Proof using Ht.
  split; simpl.
  - constructor.
  - apply elements_ok.
  - apply elements_encode.
  - intros j old Hj Hold. destruct j as [| | | |l|]; simpl; try done.
    by apply elements_fit.
Qed.

(** [null] is what a nil pointer is encoded as, and nothing else. *)
Lemma jptr_ok : (∀ a, encode t a ≠ JNull) → jtype_ok jptr.
Proof using Ht.
  intros Hnull. split; simpl.
  - done.
  - intros [a|] Ha; [by apply encode_ok|done].
  - intros [a|] Ha; [|done]. pose proof (decode_encode t Ht a Ha) as Hd.
    specialize (Hnull a). destruct (encode t a); try done; by rewrite Hd.
  - intros j old Hj Hold.
    assert (H : fits t (decode t j (default (zero t) old)).1).
    { apply decode_fits; [done|done|]. destruct old; [done|by apply zero_fits]. }
    destruct j; try done; by destruct (decode t _ _).
Qed.
End slices.
#[export] Hint Resolve jbool_ok jstring_ok jbytes_ok jslice_ok jlist_ok jptr_ok : json.
#[export] Hint Extern 1 (jtype_ok (jint _)) => apply jint_ok; lia : json.

(** ** Structs

    The fields of a struct, by index. *)
Record Fields (P : Type) := mkFields {
  names : list bytes;
  f_zero : P;
  f_encode : P → list json;
  f_decode : nat → json → P → P * option goerr;
  f_fits : P → Prop
}.
Arguments mkFields {P}.
Arguments names {P} _.
Arguments f_zero {P} _.
Arguments f_encode {P} _ _.
Arguments f_decode {P} _ _ _ _.
Arguments f_fits {P} _ _.

Definition fnil : Fields unit := mkFields [] tt (λ _, []) (λ _ _ p, (p, None)) (λ _, True).

Definition fcons {A P} (name : string) (t : jtype A) (fs : Fields P) : Fields (A * P) :=
  mkFields (bs name :: names fs) (zero t, f_zero fs) (λ '(a, p), encode t a :: f_encode fs p)
    (fun i j '(a, p) =>
      match i with
      | O => let '(a, e) := decode t j a in ((a, p), e)
      | S i => let '(p, e) := f_decode fs i j p in ((a, p), e)
      end)
    (fun '(a, p) => fits t a ∧ f_fits fs p).

(** [strings.EqualFold] with an ASCII name: the letters of both cases, the long
    s and the sign of the Kelvin. *)
Definition lower (b : byte) : byte :=
  if in_range 65 90 b then byte_of_nat (nat_of_byte b + 32) else b.
Fixpoint fold_key (fuel : nat) (l : bytes) : bytes :=
  match fuel, l with
  | S fuel, b :: l' =>
      match strip [xc5; xbf] l with
      | Some rest => x73 :: fold_key fuel rest
      | None =>
          match strip [xe2; x84; xaa] l with
          | Some rest => x6b :: fold_key fuel rest
          | None => lower b :: fold_key fuel l'
          end
      end
  | _, _ => []
  end.
Definition equal_fold (a b : bytes) : bool :=
  bool_decide (fold_key (length a) a = fold_key (length b) b).

Fixpoint index (p : bytes → bool) (l : list bytes) : option nat :=
  match l with [] => None | n :: l => if p n then Some O else S <$> index p l end.

(** The field of a key: the one of this name, or the first that differs from it
    in the case of letters only. *)
Definition find_field (ns : list bytes) (key : bytes) : option nat :=
  match index (λ n, bool_decide (n = key)) ns with
  | Some i => Some i
  | None => index (equal_fold key) ns
  end.

Section struct.
Context {P R : Type} (fs : Fields P) (unpack : R → P) (pack : P → R).

Fixpoint decode_members (m : list (option nat * json)) (p : P) : P * option goerr :=
  match m with
  | [] => (p, None)
  | (None, _) :: m => decode_members m p
  | (Some i, j) :: m =>
      let '(p, e) := f_decode fs i j p in
      let '(p, e') := decode_members m p in (p, first_error e e')
  end.

(** Keys without a field are skipped. *)
Definition jstruct : jtype R :=
  mkJType (pack (f_zero fs)) (λ r, JObj (zip (names fs) (f_encode fs (unpack r))))
    (λ j r,
      match j with
      | JNull => (r, None)
      | JObj m =>
          let '(p, e) := decode_members (prod_map (find_field (names fs)) id <$> m) (unpack r) in (pack p, e)
      | _ => (r, Some UnmarshalTypeError)
      end)
    (λ r, f_fits fs (unpack r)).
End struct.

Record fields_ok {P} (fs : Fields P) : Prop := {
  f_zero_fits : f_fits fs (f_zero fs);
  f_encode_length p : length (f_encode fs p) = length (names fs);
  f_encode_ok p : f_fits fs p → Forall json_ok (f_encode fs p);
  f_decode_encode p : f_fits fs p →
    decode_members fs (zip (Some <$> seq 0 (length (names fs))) (f_encode fs p)) (f_zero fs) = (p, None);
  f_decode_fits i j p : text_ok j → f_fits fs p → f_fits fs (f_decode fs i j p).1
}.

Lemma fnil_ok : fields_ok fnil.
Proof. split; try done. by intros []. Qed.

(** The members of the fields behind the first one. *)
Lemma decode_members_tail {A P} (name : string) (t : jtype A) (fs : Fields P)
    (l : list (nat * json)) (a : A) (p : P) :
  decode_members (fcons name t fs) (prod_map (Some ∘ S) id <$> l) (a, p) =
  (let '(p, e) := decode_members fs (prod_map Some id <$> l) p in ((a, p), e)).
Proof.
  revert p. induction l as [|[i j] l IH]; intros p; [done|]. cbn.
  destruct (f_decode fs i j p) as [p' e]. 
  change (list_fmap _ _ ?f ?x) with (f <$> x). rewrite IH. by destruct (decode_members _ _ _).
Qed.

Lemma zip_fmap_l {A B C} (f : A → B) (l : list A) (k : list C) :
  zip (f <$> l) k = prod_map f id <$> zip l k.
Proof. revert k. induction l as [|x l IH]; intros [|y k]; try done. cbn. by rewrite <- IH. Qed.

Lemma fcons_ok {A P} (name : string) (t : jtype A) (fs : Fields P) :
  jtype_ok t → fields_ok fs → fields_ok (fcons name t fs).
Proof.
  intros Ht Hfs. split.
  - split; [by apply zero_fits|by apply f_zero_fits].
  - intros [a p]. simpl. by rewrite f_encode_length.
  - intros [a p] [Ha Hp]. constructor; [by apply encode_ok|by apply f_encode_ok].
  - intros [a p] [Ha Hp]. cbn [names fcons length f_encode f_zero].
    rewrite <- cons_seq. cbn [fmap list_fmap zip_with decode_members f_decode].
    change (f_decode _ 0 (encode t a) _)
      with (let '(a, e) := decode t (encode t a) (zero t) in ((a, f_zero fs), e)).
    rewrite decode_encode by done.
    rewrite <- fmap_S_seq, <- list_fmap_compose, zip_fmap_l, decode_members_tail, <- zip_fmap_l.
    by rewrite f_decode_encode.
  - intros [|i] j [a p] Hj [Ha Hp]; cbn.
    + pose proof (decode_fits t Ht j a Hj Ha). by destruct (decode t j a).
    + pose proof (f_decode_fits fs Hfs i j p Hj Hp). by destruct (f_decode fs i j p).
Qed.
#[export] Hint Resolve fnil_ok fcons_ok : json.

(** Names that are distinct texts; decided by computation. *)
Definition names_ok (ns : list bytes) : Prop := NoDup ns ∧ Forall (λ n, Valid n = true) ns.

Lemma index_exact (pre ns : list bytes) (n : bytes) :
  NoDup (pre ++ n :: ns) →
  index (λ m, bool_decide (m = n)) (pre ++ n :: ns) = Some (length pre).
Proof.
  induction pre as [|m pre IH]; cbn; intros Hnd; [by rewrite bool_decide_true|].
  apply NoDup_cons in Hnd as [Hm Hnd]. rewrite bool_decide_false by (intros ->; set_solver).
  by rewrite IH.
Qed.

Lemma find_fields (ns pre : list bytes) :
  NoDup (pre ++ ns) → find_field (pre ++ ns) <$> ns = Some <$> seq (length pre) (length ns).
Proof.
  revert pre. induction ns as [|n ns IH]; intros pre Hnd; [done|].
  cbn [fmap list_fmap seq length]. f_equal.
  - unfold find_field. by rewrite index_exact.
  - specialize (IH (pre ++ [n])). rewrite <- app_assoc, length_app, Nat.add_1_r in IH. by apply IH.
Qed.

Lemma decode_members_fit {P} (fs : Fields P) (m : list (option nat * json)) (p : P) :
  fields_ok fs → Forall (λ kv, text_ok kv.2) m → f_fits fs p → f_fits fs (decode_members fs m p).1.
Proof.
  intros Hfs Hm. revert p. induction Hm as [|[[i|] j] m Hj _ IH]; intros p Hp; cbn; try done; auto.
  pose proof (f_decode_fits fs Hfs i j p Hj Hp) as Hp'. destruct (f_decode fs i j p) as [p' e].
  specialize (IH p' Hp'). by destruct (decode_members fs m p').
Qed.

Lemma json_ok_members (ns : list bytes) (js : list json) :
  Forall (λ n, Valid n = true) ns → Forall json_ok js →
  foldr (λ kv, and (Valid kv.1 = true ∧ json_ok kv.2)) True (zip ns js).
Proof.
  intros Hns. revert js. induction Hns as [|n ns Hn _ IH]; intros js Hjs; [done|].
  destruct Hjs as [|j js Hj Hjs]; [done|]. split; [done|by apply IH].
Qed.

Lemma jstruct_ok {P R} (fs : Fields P) (unpack : R → P) (pack : P → R) :
  fields_ok fs → names_ok (names fs) → (∀ r, pack (unpack r) = r) → (∀ p, unpack (pack p) = p) →
  jtype_ok (jstruct fs unpack pack).
Proof.
  intros Hfs [Hnd Hv] Hpack Hunpack. split; cbn.
  - rewrite Hunpack. by apply f_zero_fits.
  - intros r Hr. by apply json_ok_members, f_encode_ok.
  - intros r Hr. rewrite Hunpack, <- zip_fmap_l.
    pose proof (find_fields (names fs) [] Hnd) as Hf. cbn [app length] in Hf. rewrite Hf.
    rewrite f_decode_encode by done. by rewrite Hpack.
  - intros j r Hj Hr. destruct j as [| | | | |m]; try done.
    pose proof (decode_members_fit fs (prod_map (find_field (names fs)) id <$> m) (unpack r) Hfs) as Hf.
    destruct (decode_members _ _ _) as [p e]. cbn. rewrite Hunpack. apply Hf; [|done].
    apply Forall_fmap. clear Hf. induction m as [|kv m IH]; [by constructor|].
    constructor; [apply Hj|apply IH, Hj].
Qed.

(** ** Texts *)

(** What a decoder makes of a text holds UTF-8 only, at every level. *)
Lemma parse_text (fuel : nat) :
  (∀ l j rest, parse_value fuel l = Some (j, rest) → text_ok j) ∧
  (∀ l vs rest, parse_elements fuel l = Some (vs, rest) → foldr (λ x, and (text_ok x)) True vs) ∧
  (∀ l kvs rest, parse_members fuel l = Some (kvs, rest) →
     foldr (λ kv, and (text_ok kv.2)) True kvs).
Proof.
  induction fuel as [|fuel (IHv & IHe & IHm)]; [done|]. split_and!.
  - intros l j rest. cbn [parse_value]. intros ([b l'] & _ & H)%bind_Some. revert H.
    do 3 (destruct (Byte.eqb b _);
      [by intros (r & _ & [= <- _])%bind_Some|]).
    destruct (Byte.eqb b _).
    { intros ([s r] & Hu & [= <- _])%bind_Some. by apply unquote_valid in Hu. }
    destruct (Byte.eqb b _).
    { intros ([b1 r] & _ & H)%bind_Some. destruct (Byte.eqb b1 _); [by injection H as <- _|].
      apply bind_Some in H as ([vs r'] & He & [= <- _]). by apply IHe in He. }
    destruct (Byte.eqb b _).
    { intros ([b1 r] & _ & H)%bind_Some. destruct (Byte.eqb b1 _); [by injection H as <- _|].
      apply bind_Some in H as ([kvs r'] & He & [= <- _]). by apply IHm in He. }
    by intros ([lit r] & _ & [= <- _])%bind_Some.
  - intros l vs rest. cbn [parse_elements].
    intros ([v r] & Hv & ([b r'] & _ & H)%bind_Some)%bind_Some. apply IHv in Hv.
    destruct (Byte.eqb b _); [by injection H as <- _|]. destruct (Byte.eqb b _); [|done].
    apply bind_Some in H as ([vs' r2] & He & [= <- _]). by apply IHe in He.
  - intros l kvs rest. cbn [parse_members]. intros ([b l'] & _ & H)%bind_Some.
    destruct (negb _); [done|]. apply bind_Some in H as ([k r] & _ & ([b1 r1] & _ & H)%bind_Some).
    destruct (negb _); [done|].
    apply bind_Some in H as ([v r2] & Hv & ([b2 r3] & _ & H)%bind_Some). apply IHv in Hv.
    destruct (Byte.eqb b2 _); [by injection H as <- _|]. destruct (Byte.eqb b2 _); [|done].
    apply bind_Some in H as ([kvs' r4] & He & [= <- _]). by apply IHm in He.
Qed.

Lemma parse_text_ok (l : bytes) (j : json) : parse l = inr j → text_ok j.
Proof.
  unfold parse. destruct (parse_value _ l) as [[j' rest]|] eqn:E; intros [= <-].
  by eapply parse_text.
Qed.

(** [json.Marshal], and a [Decoder]'s [Decode] into a variable. *)
Definition Marshal {A} (t : jtype A) (a : A) : bytes := print (encode t a).
Definition Decode_into {A} (t : jtype A) (l : bytes) (a : A) : A * option goerr :=
  match parse l with inl e => (a, Some e) | inr j => decode t j a end.

Lemma Marshal_Decode {A} (t : jtype A) (a : A) (rest : bytes) :
  jtype_ok t → fits t a → num_end rest → Decode_into t (Marshal t a ++ rest) (zero t) = (a, None).
Proof.
  intros Ht Ha Hr. unfold Decode_into, Marshal. rewrite json_roundtrip; [|by apply encode_ok|done].
  by apply decode_encode.
Qed.

Lemma Decode_fits {A} (t : jtype A) (l : bytes) (a : A) :
  jtype_ok t → fits t a → fits t (Decode_into t l a).1.
Proof.
  intros Ht Ha. unfold Decode_into. destruct (parse l) as [e|j] eqn:E; [done|].
  apply decode_fits; [done|by eapply parse_text_ok|done].
Qed.
