(* ===== verification/Proposals.v ===== *)
(** * [proposals.go]: reading proposals from the Politeia server

    The server is a function from the number of requests before and a request
    to a response; what JSON decoding makes of a body is a parameter, which
    [JsonData] instantiates.  The loop over the pages has fuel;
    [GetAllProposals_spec] shows how much a server that pages through a list
    needs. *)
From S2P Require Import Prelude Config Utils Encoding.

(** ** types.go *)
Record ServerPolicy := mkPolicy { ProposalListPageSize : Z }.
Record ProposalFile := mkFile { pf_Name : string; Mime : string; Digest : string; Payload : string }.
Record ProposalMetaData := mkMeta { pm_Name : string; LinkTo : string; LinkBy : Z }.
Record ProposalCensorshipRecord := mkRecord { Token : string; Merkle : string; cr_Signature : string }.
Record Proposal := mkProposal {
  p_Name : string; p_State : Z; p_Status : Z; p_Timestamp : Z; UserID : string; Username : string;
  PublicKey : string; p_Signature : string; NumComments : Z; p_Version : string; PublishedAt : Z;
  Files : option (list ProposalFile); MetaData : option (list ProposalMetaData);
  CensorshipRecord : ProposalCensorshipRecord }.

(** ** Requests and responses *)
Record Request := mkHttp { Method : string; Path : string; RawQuery : string; Body : option bytes }.
Record Response := mkResponse { StatusCode : Z; res_Body : bytes }.

Definition apiEndpointPath : string := "/api/v1".
Definition apiVersionPath : string := "/api/v1/version".
Definition apiPolicyPath : string := "/policy".
Definition apiVettedProposalsPath : string := "/proposals/vetted".

(** [url.Values.Encode], for the queries of one key that are made here. *)
Definition encode_query (queryStrings : option (string * string)) : string :=
  match queryStrings with
  | None => EmptyString
  | Some (k, v) =>
      of_chars (QueryEscape (to_chars k) ++ to_chars "=" ++ QueryEscape (to_chars v))
  end.

Record Politeia := mkPoliteia {
  csrfToken : string; serverPolicy : option ServerPolicy; requests : list Request }.
Definition newPoliteia : Politeia := mkPoliteia EmptyString None [].
Definition set_token (t : string) (p : Politeia) : Politeia :=
  mkPoliteia t (serverPolicy p) (requests p).
Definition set_policy (x : ServerPolicy) (p : Politeia) : Politeia :=
  mkPoliteia (csrfToken p) (Some x) (requests p).

Section Proposals.
(** The server, with the failures of the connection; the body may not be
    readable to its end ([read_error]); and [encoding/json]. *)
Context (web : nat → Request → goerr + Response) (read_error : bytes → option goerr).
Context (to_policy : bytes → goerr + ServerPolicy) (to_proposals : bytes → goerr + option (list Proposal)).
Context (to_text : bytes → goerr + string) (Marshal : option (list Proposal) → string).
Abbreviation PM := (GM Politeia).

(** [http.DefaultClient.Do] *)
Definition Do (req : Request) : PM (goerr + Response) := λ p,
  (Ok (web (length (requests p)) req), mkPoliteia (csrfToken p) (serverPolicy p) (requests p ++ [req])).

(** The error has the text of the body. *)
Definition handleResponse {A} (decode : bytes → goerr + A) (res : Response) : goerr + A :=
  if decide (StatusCode res = 200)%Z then decode (res_Body res)
  else match read_error (res_Body res) with
       | Some err => inl (ENew "error reading response body")
       | None => inl (ENew (String.append "request error: " (String.string_of_list_byte (res_Body res))))
       end.

(** [originalURL] is the pointer of the request, so that the path of the
    version stays; the header of the request is nil, and setting a key of it
    panics. *)
Definition prepareRequest (path method : string) (queryStrings : option (string * string))
    (body : option bytes) : PM Request :=
  let req := mkHttp method (String.append apiEndpointPath path) (encode_query queryStrings) body in
  if decide (method = "POST") then
    let! p := getS in
    (if decide (csrfToken p = EmptyString) then
       let! res := Do (mkHttp method apiVersionPath (RawQuery req) body) in
       match res with
       | inl _ => fail (ENew "error fetching csrf token")
       | inr res =>
           match handleResponse to_text res with
           | inl err => fail err
           | inr token => modify (set_token token)
           end
       end
     else ret tt) ;;
    panic
  else ret req.

Definition makeRequest {A} (decode : bytes → goerr + A) (path method : string)
    (queryStrings : option (string * string)) (body : option bytes) : PM A :=
  let! req := prepareRequest path method queryStrings body in
  let! res := Do req in
  match res with
  | inl err => fail err
  | inr res => match handleResponse decode res with inl err => fail err | inr a => ret a end
  end.

Definition getServerPolicy : PM ServerPolicy :=
  let! r := try (makeRequest to_policy apiPolicyPath "GET" None None) in
  match r with
  | inl _ => fail (ENew "error fetching politeia policy")
  | inr policy => ret policy
  end.

(** A slice is [None] when it is nil. *)
Definition getProposalsChunk (startHash : string) : PM (option (list Proposal)) :=
  let queryStrings := if decide (startHash ≠ EmptyString) then Some ("after", startHash) else None in
  let! r := try (makeRequest to_proposals apiVettedProposalsPath "GET" queryStrings None) in
  match r with
  | inl _ => fail (ENew "error fetching proposals")
  | inr result => ret result
  end.

Definition GetProposalsChunk (startHash : string) : PM string :=
  let! proposals := getProposalsChunk startHash in ret (Marshal proposals).

(** [append]: a nil slice stays nil when nothing is appended. *)
Definition append_chunk (proposals chunk : option (list Proposal)) : option (list Proposal) :=
  match chunk with
  | None | Some [] => proposals
  | Some l => Some (default [] proposals ++ l)
  end.

(** The policy of the loop is the one that is saved; [None] is no fuel. *)
Fixpoint pages (fuel : nat) (size : Z) (chunk proposals : option (list Proposal))
    : PM (option (option (list Proposal))) :=
  match fuel with
  | O => ret None
  | S fuel =>
      match chunk with
      | None => ret (Some proposals)
      | Some l =>
          if decide (zlen l < size)%Z then ret (Some proposals)
          else if decide (0 ≤ size - 1)%Z then
            match l !! Z.to_nat (size - 1) with
            | None => panic
            | Some last =>
                let! chunk := getProposalsChunk (Token (CensorshipRecord last)) in
                pages fuel size chunk (append_chunk proposals chunk)
            end
          else panic
      end
  end.

Definition GetAllProposals (fuel : nat) : PM (option string) :=
  let! p := getS in
  match serverPolicy p with
  | Some _ => ret tt
  | None => let! policy := getServerPolicy in modify (set_policy policy)
  end ;;
  let! r := try (getProposalsChunk EmptyString) in
  match r with
  | inl _ => fail (ENew "error fetching all proposals")
  | inr chunk =>
      let! p := getS in
      match serverPolicy p with
      | None => panic
      | Some policy =>
          let! r := pages fuel (ProposalListPageSize policy) chunk (append_chunk None chunk) in
          ret (Marshal <$> r)
      end
  end.

(** ** Theorems *)

(** A request by POST never gets as far as being sent: it panics, unless the
    token cannot be fetched first. *)
Theorem post_panics (path : string) (queryStrings : option (string * string)) (body : option bytes)
    (p p' : Politeia) (r : outcome Request) :
  prepareRequest path "POST" queryStrings body p = (r, p') →
  (csrfToken p ≠ EmptyString → r = Panic ∧ p' = p) ∧
  ((∃ e, r = Err e) ∨ r = Panic).
Proof.
  unfold prepareRequest, bind, getS, panic, ret. rewrite decide_True by done. simpl.
  case_decide as Ht; simpl.
  - destruct (web _ _) as [e|res]; simpl; [intros [= <- <-]; split; [done|by eauto]|].
    destruct (handleResponse to_text res) as [e|t]; intros [= <- <-]; (split; [done|]); by eauto.
  - intros [= <- <-]. by auto.
Qed.

Definition get (path : string) (queryStrings : option (string * string)) : Request :=
  mkHttp "GET" (String.append apiEndpointPath path) (encode_query queryStrings) None.

(** What a reply to a request is read as, whenever the request is made. *)
Definition replies {A} (decode : bytes → goerr + A) (req : Request) (a : A) : Prop :=
  ∀ k, ∃ b, web k req = inr (mkResponse 200 b) ∧ decode b = inr a.

(** A server that lists these proposals in pages of [n]. *)
Record server_lists (n : nat) (all : list Proposal) : Prop := {
  sv_size : 0 < n;
  sv_policy : replies to_policy (get apiPolicyPath None) (mkPolicy (Z.of_nat n));
  sv_first : replies to_proposals (get apiVettedProposalsPath None) (Some (take n all));
  sv_after i p : all !! i = Some p →
    Token (CensorshipRecord p) ≠ EmptyString ∧
    replies to_proposals (get apiVettedProposalsPath (Some ("after", Token (CensorshipRecord p))))
      (Some (take n (drop (S i) all)))
}.

Definition log_request (req : Request) (p : Politeia) : Politeia :=
  mkPoliteia (csrfToken p) (serverPolicy p) (requests p ++ [req]).

Lemma makeRequest_get {A} (decode : bytes → goerr + A) (path : string) q (a : A) (p : Politeia) :
  replies decode (get path q) a →
  makeRequest decode path "GET" q None p = (Ok a, log_request (get path q) p).
Proof.
  intros H. unfold makeRequest, prepareRequest. rewrite decide_False by done.
  unfold bind, ret, Do. simpl. destruct (H (length (requests p))) as (b & Hw & Hb).
  unfold get in Hw. rewrite Hw. unfold handleResponse. simpl. by rewrite Hb.
Qed.

Lemma chunk_of (startHash : string) (l : option (list Proposal)) (p : Politeia) :
  let q := if decide (startHash ≠ EmptyString) then Some ("after", startHash) else None in
  replies to_proposals (get apiVettedProposalsPath q) l →
  getProposalsChunk startHash p = (Ok l, log_request (get apiVettedProposalsPath q) p).
Proof.
  intros q H. unfold getProposalsChunk, bind, try. fold q. by rewrite (makeRequest_get _ _ _ _ _ H).
Qed.

Definition nonempty {A} (l : list A) : option (list A) := match l with [] => None | _ => Some l end.

Lemma append_chunk_take (l : list Proposal) (m n : nat) :
  append_chunk (nonempty (take m l)) (Some (take n (drop m l))) = nonempty (take (m + n) l).
Proof.
  rewrite <- take_take_drop. unfold append_chunk.
  destruct (take n (drop m l)) as [|x c]; [by rewrite app_nil_r|].
  destruct (take m l); done.
Qed.

Lemma pages_spec (n : nat) (all : list Proposal) (fuel j : nat) (p : Politeia) :
  server_lists n all → length all - j < fuel → j ≤ length all →
  ∃ p', pages fuel (Z.of_nat n) (Some (take n (drop j all))) (nonempty (take (j + n) all)) p =
      (Ok (Some (nonempty all)), p') ∧
    length (requests p') = length (requests p) + (length all - j) / n ∧
    serverPolicy p' = serverPolicy p.
Proof.
  intros Hsv. pose proof (sv_size _ _ Hsv) as Hn. revert j p.
  induction fuel as [|fuel IH]; intros j p Hf Hj; [lia|]. cbn [pages].
  rewrite length_take, length_drop. case_decide as Hl.
  - exists p. rewrite take_ge by lia. rewrite Nat.div_small by lia. split_and!; [done|lia|done].
  - rewrite decide_True by lia. replace (Z.to_nat (Z.of_nat n - 1)) with (n - 1) by lia.
    destruct (lookup_lt_is_Some_2 all (j + (n - 1))) as [last Hlast]; [lia|].
    rewrite lookup_take_lt, lookup_drop, Hlast by lia.
    destruct (sv_after _ _ Hsv _ _ Hlast) as [Htok Hrep].
    replace (S (j + (n - 1))) with (j + n) in Hrep by lia.
    unfold bind. erewrite chunk_of; [|rewrite decide_True by done; exact Hrep].
    rewrite append_chunk_take.
    destruct (IH (j + n) (log_request (get apiVettedProposalsPath (if decide (Token (CensorshipRecord last) ≠ EmptyString)
      then Some ("after", Token (CensorshipRecord last)) else None)) p)) as (p' & Hp & Hr & Hs); [lia..|].
    exists p'. rewrite Hp. split_and!; [done| |done].
    rewrite Hr. simpl. rewrite length_app. simpl.
    replace (length all - j) with ((length all - (j + n)) + 1 * n) by lia.
    rewrite Nat.div_add by lia. lia.
Qed.

(** Reading all proposals terminates and reads them all: from a server that
    lists them in pages of a positive size, each page after the token of the
    last proposal of the one before, they come back once each and in order,
    after one request per full page and one more (and one for the policy, the
    first time).  *)
Theorem GetAllProposals_spec (n : nat) (all : list Proposal) (fuel : nat) (p : Politeia) :
  server_lists n all → length all < fuel →
  serverPolicy p = None ∨ serverPolicy p = Some (mkPolicy (Z.of_nat n)) →
  ∃ p', GetAllProposals fuel p = (Ok (Some (Marshal (nonempty all))), p') ∧
    serverPolicy p' = Some (mkPolicy (Z.of_nat n)) ∧
    length (requests p') = length (requests p) + (if serverPolicy p then 0 else 1) +
      S (length all / n).
Proof.
  intros Hsv Hf Hp. unfold GetAllProposals, bind at 1, getS at 1.
  set (m := match serverPolicy p with Some _ => _ | None => _ end).
  assert (Hm : ∃ p1, m p = (Ok tt, p1) ∧ serverPolicy p1 = Some (mkPolicy (Z.of_nat n)) ∧
    length (requests p1) = length (requests p) + (if serverPolicy p then 0 else 1)).
  { subst m. destruct Hp as [Hp|Hp]; rewrite Hp.
    - unfold getServerPolicy, bind, try.
      rewrite (makeRequest_get _ _ _ _ _ (sv_policy _ _ Hsv)). eexists. split; [done|]. simpl.
      split; [done|]. by rewrite length_app.
    - exists p. split; [done|]. split; [done|lia]. }
  destruct Hm as (p1 & Hm & Hp1 & Hr1). unfold bind at 1. rewrite Hm.
  unfold bind at 1, try. erewrite chunk_of; [|apply (sv_first _ _ Hsv)].
  unfold bind at 1, getS. cbn [serverPolicy log_request]. rewrite Hp1.
  destruct (pages_spec n all fuel 0 (log_request (get apiVettedProposalsPath None) p1) Hsv)
    as (p' & Hpg & Hr & Hs); [lia..|].
  assert (Ha : append_chunk None (Some (take n all)) = nonempty (take n all))
    by apply (append_chunk_take all 0 n).
  exists p'. unfold bind. rewrite Ha. rewrite drop_0, Nat.add_0_l in Hpg.
  cbn [ProposalListPageSize]. rewrite (decide_False (P := EmptyString ≠ EmptyString)) by auto.
  rewrite Hpg. split_and!; [done|by rewrite Hs|].
  rewrite Hr. simpl. rewrite length_app, Hr1, Nat.sub_0_r. simpl. lia.
Qed.

(** *** Any server

    What a successful request was answered, as the [k]th; the connection, the
    status and the decoding are all as they should be. *)
Definition answers {A} (decode : bytes → goerr + A) (k : nat) (req : Request) (a : A) : Prop :=
  ∃ b, web k req = inr (mkResponse 200 b) ∧ decode b = inr a.
Definition page_request (after : string) : Request :=
  get apiVettedProposalsPath (if decide (after ≠ EmptyString) then Some ("after", after) else None).
Definition token_of (x : Proposal) : string := Token (CensorshipRecord x).

(** The page that ends the list: nil, or with fewer proposals than a full one. *)
Definition short (size : Z) (page : option (list Proposal)) : Prop :=
  match page with None => True | Some l => (zlen l < size)%Z end.

(** The requests from the page after a token on, the first of which is the
    [k]th, and the pages they were answered: each but the last is full, and the
    next request is for what comes after the last proposal of a full page. *)
Inductive walk (size : Z) (k : nat) (after : string)
    : list Request → list (option (list Proposal)) → Prop :=
| walk_last page :
    answers to_proposals k (page_request after) page → short size page →
    walk size k after [page_request after] [page]
| walk_next l x reqs chunks :
    answers to_proposals k (page_request after) (Some l) → (0 < size ≤ zlen l)%Z →
    l !! Z.to_nat (size - 1) = Some x → walk size (S k) (token_of x) reqs chunks →
    walk size k after (page_request after :: reqs) (Some l :: chunks).

Definition log_requests (reqs : list Request) (p : Politeia) : Politeia :=
  mkPoliteia (csrfToken p) (serverPolicy p) (requests p ++ reqs).

(** All the proposals of the pages; the slice is nil if there are none. *)
Definition joined (chunks : list (option (list Proposal))) : option (list Proposal) :=
  nonempty (chunks ≫= default []).

Lemma foldl_append_chunk (chunks : list (option (list Proposal))) (l : list Proposal) :
  foldl append_chunk (nonempty l) chunks = nonempty (l ++ (chunks ≫= default [])).
Proof.
  revert l. induction chunks as [|c chunks IH]; intros l; simpl; [by rewrite app_nil_r|].
  assert (Ha : append_chunk (nonempty l) c = nonempty (l ++ default [] c)).
  { destruct c as [[|x c]|]; simpl; [by rewrite app_nil_r| |by rewrite app_nil_r]. by destruct l. }
  by rewrite Ha, IH, <- app_assoc.
Qed.

Lemma handleResponse_ok {A} (decode : bytes → goerr + A) (res : Response) (a : A) :
  handleResponse decode res = inr a ↔ StatusCode res = 200%Z ∧ decode (res_Body res) = inr a.
Proof.
  unfold handleResponse. case_decide as Hs; [naive_solver|].
  destruct (read_error _); split; (done || by intros [? _]).
Qed.

Lemma makeRequest_iff {A} (decode : bytes → goerr + A) (path : string) q (a : A) (p p' : Politeia) :
  makeRequest decode path "GET" q None p = (Ok a, p') ↔
  answers decode (length (requests p)) (get path q) a ∧ p' = log_request (get path q) p.
Proof.
  unfold makeRequest, prepareRequest, answers. rewrite decide_False by done.
  unfold bind, ret, Do, fail. simpl. fold (get path q).
  destruct (web _ (get path q)) as [e|[code b]] eqn:Ew; simpl.
  { split; [done|]. by intros [(b & ? & _) _]. }
  destruct (handleResponse decode _) as [e|a'] eqn:Eh.
  - split; [done|]. intros [(b' & [= -> ->] & Hd) _].
    assert (handleResponse decode (mkResponse 200 b') = inr a) by by apply handleResponse_ok.
    congruence.
  - apply handleResponse_ok in Eh as [Hc Hd]. simpl in Hc, Hd. subst code. split.
    + intros [= <- <-]. split; [|done]. by exists b.
    + intros [(b' & [= <-] & Hd') ->]. do 2 f_equal. congruence.
Qed.

Lemma getProposalsChunk_iff (h : string) (l : option (list Proposal)) (p p' : Politeia) :
  getProposalsChunk h p = (Ok l, p') ↔
  answers to_proposals (length (requests p)) (page_request h) l ∧ p' = log_request (page_request h) p.
Proof.
  unfold page_request. rewrite <- makeRequest_iff. unfold getProposalsChunk, bind, try.
  destruct (makeRequest _ _ _ _ _ p) as [[a|e|] p1]; split; done.
Qed.

Lemma walk_nonempty (size : Z) (k : nat) (after : string) reqs chunks :
  walk size k after reqs chunks → 1 ≤ length reqs.
Proof. intros H. inversion H; simpl; lia. Qed.

(** A page and the loop behind it. *)
Lemma pages_walk (fuel : nat) (size : Z) (h : string) (acc r : option (list Proposal))
    (p p' : Politeia) :
  (let! chunk := getProposalsChunk h in pages fuel size chunk (append_chunk acc chunk)) p =
    (Ok (Some r), p') ↔
  ∃ reqs chunks, walk size (length (requests p)) h reqs chunks ∧ length reqs ≤ fuel ∧
    r = foldl append_chunk acc chunks ∧ p' = log_requests reqs p.
Proof.
  revert h acc p. induction fuel as [|fuel IH]; intros h acc p; unfold bind.
  { split.
    - by destruct (getProposalsChunk h p) as [[c|e|] p1].
    - intros (reqs & chunks & Hw%walk_nonempty & ? & _). lia. }
  split.
  - destruct (getProposalsChunk h p) as [[c|e|] p1] eqn:Ec; try done.
    apply getProposalsChunk_iff in Ec as [Hc ->]. cbn [pages].
    destruct c as [l|]; [case_decide as Hl; [|case_decide as Hs; [|done]]|].
    + intros [= <- <-]. eexists _, _. split; [by constructor|]. simpl. split; [lia|done].
    + destruct (l !! _) as [x|] eqn:Ex; [|done]. intros Hp.
      apply (IH (Token (CensorshipRecord x))) in Hp as (reqs & chunks & Hw & Hf & -> & ->).
      simpl in Hw. rewrite length_app, Nat.add_1_r in Hw.
      eexists _, _. split; [eapply walk_next; [done|lia|done|exact Hw]|].
      simpl. split; [lia|]. split; [done|]. unfold log_requests. simpl. by rewrite <- app_assoc.
    + intros [= <- <-]. eexists _, _. split; [by constructor|]. simpl. split; [lia|done].
  - intros (reqs & chunks & Hw & Hf & -> & ->).
    inversion Hw as [page Hc Hsh|l x reqs' chunks' Hc Hs Hx Hw']; subst.
    + rewrite (proj2 (getProposalsChunk_iff h page p _) (conj Hc eq_refl)). cbn [pages].
      destruct page as [l|]; [|done]. simpl in Hsh. by rewrite decide_True.
    + rewrite (proj2 (getProposalsChunk_iff h (Some l) p _) (conj Hc eq_refl)). cbn [pages].
      rewrite decide_False, decide_True, Hx by lia. apply (IH (token_of x)).
      exists reqs', chunks'. simpl in *. rewrite length_app, Nat.add_1_r.
      split_and!; [done|lia|done|]. unfold log_requests. simpl. by rewrite <- app_assoc.
Qed.

(** The policy that is used: the one that is saved, or the one that is fetched. *)
Definition policy_fetched (p : Politeia) (policy : ServerPolicy) (reqs : list Request) : Prop :=
  match serverPolicy p with
  | Some saved => policy = saved ∧ reqs = []
  | None => answers to_policy (length (requests p)) (get apiPolicyPath None) policy ∧
            reqs = [get apiPolicyPath None]
  end.

Lemma policy_iff (p p' : Politeia) :
  (match serverPolicy p with
   | Some _ => ret tt
   | None => let! policy := getServerPolicy in modify (set_policy policy)
   end) p = (Ok tt, p') ↔
  ∃ policy reqs, policy_fetched p policy reqs ∧
    p' = mkPoliteia (csrfToken p) (Some policy) (requests p ++ reqs).
Proof.
  unfold policy_fetched. destruct p as [t [saved|] r]; cbn [serverPolicy requests csrfToken].
  - split.
    + intros [= <-]. exists saved, []. rewrite app_nil_r. done.
    + intros (? & ? & [-> ->] & ->). by rewrite app_nil_r.
  - unfold getServerPolicy, bind, try.
    destruct (makeRequest _ _ _ _ _ _) as [[a|e|] p1] eqn:E.
    + apply makeRequest_iff in E as [Ha ->]. split.
      * intros [= <-]. exists a, [get apiPolicyPath None]. done.
      * intros (a' & ? & [Ha' ->] & ->). destruct Ha as (b & Hb & Hd), Ha' as (b' & Hb' & Hd').
        simpl in *. rewrite Hb in Hb'. injection Hb' as <-. rewrite Hd in Hd'. by injection Hd' as <-.
    + split; [done|]. intros (a' & ? & [Ha' ->] & _).
      pose proof (proj2 (makeRequest_iff to_policy apiPolicyPath None a' (mkPoliteia t None r) _)
        (conj Ha' eq_refl)) as H. by rewrite H in E.
    + split; [done|]. intros (a' & ? & [Ha' ->] & _).
      pose proof (proj2 (makeRequest_iff to_policy apiPolicyPath None a' (mkPoliteia t None r) _)
        (conj Ha' eq_refl)) as H. by rewrite H in E.
Qed.

(** The calls that return, from any server. *)
Lemma GetAllProposals_iff (fuel : nat) (p p' : Politeia) (text : string) :
  GetAllProposals fuel p = (Ok (Some text), p') ↔
  ∃ policy reqs0 reqs chunks,
    policy_fetched p policy reqs0 ∧
    walk (ProposalListPageSize policy) (length (requests p ++ reqs0)) EmptyString reqs chunks ∧
    length reqs ≤ fuel ∧ text = Marshal (joined chunks) ∧
    p' = mkPoliteia (csrfToken p) (Some policy) (requests p ++ reqs0 ++ reqs).
Proof.
  unfold GetAllProposals, bind at 1, getS at 1.
  set (m := match serverPolicy p with Some _ => _ | None => _ end).
  assert (Hrest : ∀ policy reqs0 p', let p1 := mkPoliteia (csrfToken p) (Some policy) (requests p ++ reqs0) in
    (let! r := try (getProposalsChunk EmptyString) in
     match r with
     | inl _ => fail (ENew "error fetching all proposals")
     | inr chunk =>
         let! p := getS in
         match serverPolicy p with
         | None => panic
         | Some policy =>
             let! r := pages fuel (ProposalListPageSize policy) chunk (append_chunk None chunk) in
             ret (Marshal <$> r)
         end
     end) p1 = (Ok (Some text), p') ↔
    ∃ r, (let! chunk := getProposalsChunk EmptyString in
          pages fuel (ProposalListPageSize policy) chunk (append_chunk None chunk)) p1 =
         (Ok (Some r), p') ∧ text = Marshal r).
  { intros policy reqs0 p2 p1. unfold bind, try, getS.
    destruct (getProposalsChunk EmptyString p1) as [[c|e|] p3] eqn:Ec;
      [|split; [done|by intros (? & ? & _)]..].
    apply getProposalsChunk_iff in Ec as [_ ->]. subst p1. cbn [serverPolicy log_request].
    destruct (pages _ _ _ _ _) as [[[r|]|e|] p4]; split; try done; try (by intros (? & ? & _)).
    - intros [= <- <-]. by exists r.
    - by intros (r' & [= <- <-] & ->). }
  unfold bind at 1. split.
  - destruct (m p) as [[[]|e|] p1] eqn:Em; try done.
    apply policy_iff in Em as (policy & reqs0 & Hpol & ->). intros H.
    apply Hrest in H as (r & H & ->). apply pages_walk in H as (reqs & chunks & Hw & Hf & -> & ->).
    exists policy, reqs0, reqs, chunks. split_and!; try done.
    + apply (f_equal Marshal). exact (foldl_append_chunk chunks []).
    + unfold log_requests. simpl. by rewrite <- app_assoc.
  - intros (policy & reqs0 & reqs & chunks & Hpol & Hw & Hf & -> & ->).
    assert (Hm : m p = (Ok tt, mkPoliteia (csrfToken p) (Some policy) (requests p ++ reqs0)))
      by (apply policy_iff; by exists policy, reqs0).
    rewrite Hm. apply Hrest. exists (joined chunks). split; [|done].
    apply pages_walk. exists reqs, chunks. split_and!; try done.
    + symmetry. exact (foldl_append_chunk chunks []).
    + unfold log_requests. simpl. by rewrite <- app_assoc.
Qed.

(** A policy without a page size, as JSON without that field gives it, makes the
    loop index before the start of a page: it panics at the first page that is
    not nil. *)
Theorem page_size_zero_panics (size : Z) (fuel : nat) (l : list Proposal) (proposals : option (list Proposal))
    (p : Politeia) :
  (size ≤ 0)%Z → pages (S fuel) size (Some l) proposals p = (Panic, p).
Proof.
  intros Hs. cbn [pages]. rewrite decide_False, decide_False by lia. done.
Qed.
End Proposals.

(** ** A server with three proposals *)
Definition toy_proposal (t : string) : Proposal :=
  mkProposal "" 0 0 0 "" "" "" "" 0 "" 0 None None (mkRecord t "" "").
Definition toy_proposals : list Proposal := toy_proposal <$> ["a"; "b"; "c"].
(** The body of a reply names what it holds. *)
Definition toy_web (k : nat) (req : Request) : goerr + Response :=
  inr (mkResponse 200 (bs (String.append (Path req) (String.append "?" (RawQuery req))))).
Definition toy_policy (b : bytes) : goerr + ServerPolicy := inr (mkPolicy 2).
Definition toy_page (b : bytes) : goerr + option (list Proposal) :=
  if decide (b = bs "/api/v1/proposals/vetted?") then inr (Some (take 2 toy_proposals))
  else if decide (b = bs "/api/v1/proposals/vetted?after=a") then inr (Some (drop 1 toy_proposals))
  else if decide (b = bs "/api/v1/proposals/vetted?after=b") then inr (Some (drop 2 toy_proposals))
  else inr (Some []).

Lemma toy_server : server_lists toy_web toy_policy toy_page 2 toy_proposals.
Proof.
  split.
  - lia.
  - intros k. eexists. split; reflexivity.
  - intros k. eexists. split; reflexivity.
  - intros i p Hi. do 3 (destruct i as [|i]; [injection Hi as <-; split;
      [done|intros k; eexists; split; reflexivity]|]). done.
Qed.

Lemma GetAllProposals_spec_witness :
  ∃ p', GetAllProposals toy_web (λ _, None) toy_policy toy_page (λ _, inr "") (λ l, Itoa (zlen (default [] l)))
      4 newPoliteia = (Ok (Some "3"), p') ∧ length (requests p') = 3.
Proof.
  destruct (GetAllProposals_spec toy_web (λ _, None) toy_policy toy_page (λ _, inr "")
    (λ l, Itoa (zlen (default [] l))) 2 toy_proposals 4 newPoliteia) as (p' & Hr & _ & Hn).
  - apply toy_server.
  - simpl. lia.
  - left. reflexivity.
  - exists p'. split; [exact Hr|exact Hn].
Defined.
