(* ===== verification/Shutdown.v ===== *)
(** * [Shutdown], and the signals that cancel contexts

    The multiwallet and every wallet have a channel [shuttingDown], a list of
    functions that cancel contexts, and a goroutine that receives once from the
    channel and then calls the functions ([listenForShutdown] of utils.go,
    [prepare] of wallet.go).  [Shutdown] of multiwallet.go and wallet.go sends on
    these channels; they have no buffer, so that sending waits for the
    goroutine.  The owner [None] is the multiwallet.  [Shutdown] also calls
    [CancelSync] (sync.go), which waits for the goroutine of a running sync: its
    reads of the sync data and its wait are steps of their own, and so is what
    that goroutine does when the sync ends.  No sync is started meanwhile. *)
From stdpp Require Import functions.
From S2P Require Import Prelude.

Abbreviation Owner := (option Z).

(** The goroutine of an owner: not started, receiving, calling the functions of
    the slice it ranges over, over. *)
Inductive Listener := NotStarted | Listening | Canceling (rest : list nat) | Ended.

(** What the calls of [Shutdown] do, one after the other. *)
Inductive Act :=
| Signal (o : Owner)            (* shuttingDown <- true *)
| CancelRescan | CancelSync
| CloseWallet (walletID : Z)    (* UnloadWallet, txDB.Close *)
| CloseDb.                      (* mw.db.Close, logRotator.Close *)

#[export] Instance Act_eq_dec : EqDecision Act.
Proof. solve_decision. Defined.

(** How far [CancelSync] is: not begun, it has read [cancelSync], it has
    canceled the context, it waits for the channel it has read. *)
Inductive CSPhase := CS0 | CS1 (ctx : nat) | CS2 | CS3 (ch : option nat).

(** The goroutine of a sync: none, in [syncer.Run], after it has returned
    [context.Canceled], before [resetSyncData]. *)
Inductive Runner := NoRun | Running (ctx : nat) | ClosingChannel | Resetting.

Record SyncSt := mkSyncSt {
  cancelSync : option nat;      (* the context it cancels *)
  syncCanceled : option nat;    (* the channel *)
  cancelRescan : option nat;
  closed : list nat;            (* the channels that are closed *)
  runner : Runner;
  cs : CSPhase }.

Record St := mkSt {
  listener : Owner → Listener;
  cancelFuncs : Owner → list nat;
  canceled : list nat;          (* the contexts that were canceled *)
  contexts : nat;               (* the number of contexts so far *)
  sync : SyncSt;
  todo : list Act;              (* what is left of the running call *)
  acts : list Act               (* what was done *)
}.

Definition set_listener (o : Owner) (l : Listener) (s : St) : St :=
  mkSt (<[o := l]> (listener s)) (cancelFuncs s) (canceled s) (contexts s) (sync s) (todo s) (acts s).
Definition add_canceled (c : list nat) (s : St) : St :=
  mkSt (listener s) (cancelFuncs s) (canceled s ++ c) (contexts s) (sync s) (todo s) (acts s).
Definition set_sync (y : SyncSt) (s : St) : St :=
  mkSt (listener s) (cancelFuncs s) (canceled s) (contexts s) y (todo s) (acts s).
Definition set_cs (p : CSPhase) (y : SyncSt) : SyncSt :=
  mkSyncSt (cancelSync y) (syncCanceled y) (cancelRescan y) (closed y) (runner y) p.
Definition set_runner (r : Runner) (y : SyncSt) : SyncSt :=
  mkSyncSt (cancelSync y) (syncCanceled y) (cancelRescan y) (closed y) r (cs y).

(** ** The operations *)

Definition listenForShutdown (o : Owner) (s : St) : St :=
  mkSt (<[o := Listening]> (listener s)) (<[o := []]> (cancelFuncs s)) (canceled s) (contexts s)
       (sync s) (todo s) (acts s).

(** [shutdownContextWithCancel] and [contextWithShutdownCancel]. *)
Definition contextWithCancel (o : Owner) (s : St) : nat * St :=
  (contexts s,
   mkSt (listener s) (<[o := cancelFuncs s o ++ [contexts s]]> (cancelFuncs s)) (canceled s)
        (S (contexts s)) (sync s) (todo s) (acts s)).

Definition shutdownContext (walletID : Z) (s : St) : nat * St := contextWithCancel (Some walletID) s.

Definition wallet_Shutdown (walletID : Z) : list Act :=
  [Signal (Some walletID); CloseWallet walletID].

(** [ids] are the wallets in the order of the map. *)
Definition before_db (ids : list Z) : list Act :=
  [Signal None; CancelRescan; CancelSync] ++ (ids ≫= wallet_Shutdown).
Definition Shutdown (ids : list Z) : list Act := before_db ids ++ [CloseDb].

(** [CancelRescan], a section under the mutex. *)
Definition CancelRescan_ (s : St) : St :=
  let y := sync s in
  set_sync (mkSyncSt (cancelSync y) (syncCanceled y) None (closed y) (runner y) (cs y))
    (add_canceled (option_list (cancelRescan y)) s).

(** A step of [CancelSync]: whether it returns, and [None] when it has to wait.
    Waiting for the nil channel never ends. *)
Definition CancelSync_step (s : St) : option (bool * St) :=
  let y := sync s in
  match cs y with
  | CS0 => Some (match cancelSync y with
                 | None => (true, s)
                 | Some ctx => (false, set_sync (set_cs (CS1 ctx) y) s)
                 end)
  | CS1 ctx => Some (false, set_sync (set_cs CS2 y) (add_canceled [ctx] s))
  | CS2 => Some (false, set_sync (set_cs (CS3 (syncCanceled y)) y) s)
  | CS3 ch =>
      match ch with
      | Some c => if decide (c ∈ closed y) then Some (true, set_sync (set_cs CS0 y) s) else None
      | None => None
      end
  end.

(** A step of the goroutine of the sync.  [syncer.Run] returns
    [context.Canceled] only when its context is canceled; closing a nil or
    closed channel would panic. *)
Definition runner_step (as_canceled : bool) (s : St) : option St :=
  let y := sync s in
  match runner y with
  | NoRun => None
  | Running ctx =>
      if as_canceled then
        if decide (ctx ∈ canceled s) then Some (set_sync (set_runner ClosingChannel y) s) else None
      else Some (set_sync (set_runner Resetting y) s)
  | ClosingChannel =>
      match syncCanceled y with
      | Some c =>
          if decide (c ∈ closed y) then None
          else Some (set_sync (mkSyncSt (cancelSync y) (syncCanceled y) (cancelRescan y)
                                 (c :: closed y) Resetting (cs y)) s)
      | None => None
      end
  | Resetting => Some (set_sync (mkSyncSt None None (cancelRescan y) (closed y) NoRun (cs y)) s)
  end.

(** ** Interleaving

    The call of [Shutdown] goes on, a goroutine of an owner calls the next
    function, the goroutine of the sync goes on, or some call creates a
    context. *)
Inductive Move := Main | CancelNext (o : Owner) | Sync (as_canceled : bool) | NewContext (o : Owner).

(** The head of [todo] is done. *)
Definition did (a : Act) (rest : list Act) (s : St) : St :=
  mkSt (listener s) (cancelFuncs s) (canceled s) (contexts s) (sync s) rest (acts s ++ [a]).

Definition step (s : St) (m : Move) : option St :=
  match m with
  | Main =>
      match todo s with
      | [] => None
      | a :: rest =>
          match a with
          | Signal o =>
              match listener s o with
              | Listening => Some (did a rest (set_listener o (Canceling (cancelFuncs s o)) s))
              | _ => None
              end
          | CancelRescan => Some (did a rest (CancelRescan_ s))
          | CancelSync =>
              match CancelSync_step s with
              | Some (true, s') => Some (did a rest s')
              | Some (false, s') => Some s'
              | None => None
              end
          | CloseWallet _ | CloseDb => Some (did a rest s)
          end
      end
  | CancelNext o =>
      match listener s o with
      | Canceling [] => Some (set_listener o Ended s)
      | Canceling (c :: rest) => Some (set_listener o (Canceling rest) (add_canceled [c] s))
      | _ => None
      end
  | Sync b => runner_step b s
  | NewContext o => Some (contextWithCancel o s).2
  end.

Fixpoint run (s : St) (ms : list Move) : option St :=
  match ms with
  | [] => Some s
  | m :: ms' => s' ← step s m; run s' ms'
  end.

(** ** What is left to do *)

(** The contexts of [o] that were created before the signal. *)
Definition pending (l : Listener) : list nat := match l with Canceling rest => rest | _ => [] end.

(** Every owner that is still to be signaled is listening, once. *)
Definition signals (l : list Act) : list Owner :=
  omap (λ a, match a with Signal o => Some o | _ => None end) l.

Definition ready (s : St) : Prop :=
  NoDup (signals (todo s)) ∧ ∀ o, o ∈ signals (todo s) → listener s o = Listening.

(** A context of an owner that was signaled is canceled or about to be. *)
Definition covered (o : Owner) (c : nat) (s : St) : Prop :=
  c ∈ canceled s ∨ c ∈ pending (listener s o) ∨
  (o ∈ signals (todo s) ∧ c ∈ cancelFuncs s o).

(** What a step of the call or of the sync leaves alone. *)
Lemma CancelSync_frame s b s' :
  CancelSync_step s = Some (b, s') →
  listener s' = listener s ∧ cancelFuncs s' = cancelFuncs s ∧ todo s' = todo s ∧ acts s' = acts s ∧
  canceled s ⊆ canceled s'.
Proof.
  unfold CancelSync_step. destruct (cs (sync s)) as [|ctx| |[c|]];
    [destruct (cancelSync (sync s))| | |case_decide as Hd|]; intros Hs; simplify_eq; cbn;
    split_and!; try done; set_solver.
Qed.

Lemma runner_frame b s s' :
  runner_step b s = Some s' →
  listener s' = listener s ∧ cancelFuncs s' = cancelFuncs s ∧ todo s' = todo s ∧ acts s' = acts s ∧
  canceled s' = canceled s.
Proof.
  unfold runner_step. destruct (runner (sync s)) as [|ctx| |].
  - done.
  - destruct b; [case_decide as Hd|]; intros Hs; by simplify_eq.
  - destruct (syncCanceled (sync s)); [case_decide as Hd|]; intros Hs; by simplify_eq.
  - intros Hs; by simplify_eq.
Qed.

Lemma step_acts s m s' : step s m = Some s' → acts s' ++ todo s' = acts s ++ todo s.
Proof.
  destruct m as [|o|b|o]; cbn [step].
  - destruct (todo s) as [|a rest] eqn:Ht; [done|].
    destruct a as [o| | |i|].
    + destruct (listener s o); try done; intros [= <-]; cbn; by rewrite <- app_assoc.
    + intros [= <-]; cbn; by rewrite <- app_assoc.
    + destruct (CancelSync_step s) as [[[] s1]|] eqn:E; [| |done];
        apply CancelSync_frame in E as (_ & _ & Ht1 & Ha1 & _); intros [= <-]; cbn;
        rewrite ?Ha1, ?Ht1, ?Ht; [by rewrite <- app_assoc|done].
    + intros [= <-]; cbn; by rewrite <- app_assoc.
    + intros [= <-]; cbn; by rewrite <- app_assoc.
  - destruct (listener s o) as [| |[|c rest]|]; try done; by intros [= <-].
  - intros (_ & _ & -> & -> & _)%runner_frame. done.
  - by intros [= <-].
Qed.

(** How the lists that [ready] and [covered] are about change. *)
Lemma main_cases s a rest s' :
  todo s = a :: rest → step s Main = Some s' →
  (todo s' = a :: rest ∧ a = CancelSync ∧ listener s' = listener s ∨
   todo s' = rest ∧ match a with
     | Signal o => listener s o = Listening ∧
         listener s' = <[o := Canceling (cancelFuncs s o)]> (listener s)
     | _ => listener s' = listener s
     end) ∧
  cancelFuncs s' = cancelFuncs s ∧ canceled s ⊆ canceled s'.
Proof.
  intros Ht. cbn [step]. rewrite Ht. destruct a as [o| | |i|].
  - destruct (listener s o) eqn:Ho; try done; intros [= <-]; cbn. split_and!; [by right|done|done].
  - intros [= <-]; cbn. split_and!; [by right|done|set_solver].
  - destruct (CancelSync_step s) as [[[] s1]|] eqn:E; [| |done];
      apply CancelSync_frame in E as (Hl & Hc & Ht1 & _ & Hca); intros [= <-]; cbn.
    + split_and!; [by right|done|done].
    + split_and!; [left; by rewrite Ht1|done|done].
  - intros [= <-]; cbn. split_and!; [by right|done|done].
  - intros [= <-]; cbn. split_and!; [by right|done|done].
Qed.

Lemma ready_step s m s' : ready s → step s m = Some s' → ready s'.
Proof.
  intros [Hnd Hl] Hs. destruct m as [|o|b|o].
  - destruct (todo s) as [|a rest] eqn:Ht; [cbn in Hs; by rewrite Ht in Hs|].
    destruct (main_cases _ _ _ _ Ht Hs) as [[(Ht1 & -> & Hl1)|(Ht1 & Ha)] _]; unfold ready;
      rewrite Ht1; [by rewrite Hl1|].
    destruct a as [o| | |i|]; cbn in Hnd, Hl;
      [|split; [done|]; intros o' Ho; rewrite Ha; by apply Hl..].
    apply NoDup_cons in Hnd as [Hno Hnd]. destruct Ha as [_ ->].
    split; [done|]. intros o' Ho'.
    rewrite fn_lookup_insert_ne by (by intros ->). apply Hl. set_solver.
  - cbn [step] in Hs. destruct (listener s o) as [| |[|c rest]|] eqn:Ho; try done; injection Hs as <-;
      (split; [done|]); cbn; intros o' Ho'; (rewrite fn_lookup_insert_ne; [by apply Hl|]);
      intros ->; specialize (Hl _ Ho'); congruence.
  - apply runner_frame in Hs as (Hl' & _ & Ht & _). unfold ready. by rewrite Hl', Ht.
  - injection Hs as <-. by split.
Qed.

Lemma covered_step o c s m s' : covered o c s → ready s → step s m = Some s' → covered o c s'.
Proof.
  unfold covered. intros Hc [Hnd Hl] Hs. destruct m as [|o'|b|o'].
  - destruct (todo s) as [|a rest] eqn:Ht; [cbn in Hs; by rewrite Ht in Hs|].
    destruct (main_cases _ _ _ _ Ht Hs) as [[(-> & -> & ->)|(-> & Ha)] [-> Hca]];
      [destruct Hc as [Hc|Hc]; [left; set_solver|by right]|].
    destruct Hc as [Hc|Hc]; [left; set_solver|]. right.
    destruct a as [o'| | |i|]; [|rewrite Ha; cbn in Hc; tauto..].
    destruct Ha as [Hlist ->]. cbn in Hnd, Hl, Hc.
    destruct Hc as [Hc|[Ho Hc]].
    + left. rewrite fn_lookup_insert_ne; [done|]. intros ->. by rewrite Hlist in Hc; apply elem_of_nil in Hc.
    + destruct (decide (o = o')) as [->|Hne].
      * left. by rewrite fn_lookup_insert.
      * right. split; [set_solver|done].
  - cbn [step] in Hs. destruct (listener s o') as [| |[|c' rest]|] eqn:Ho'; try done; injection Hs as <-; cbn.
    + destruct Hc as [Hc|[Hc|Hc]]; [by left| |by right; right].
      right; left. destruct (decide (o = o')) as [->|Hne]; [|by rewrite fn_lookup_insert_ne].
      rewrite Ho' in Hc. by apply elem_of_nil in Hc.
    + destruct Hc as [Hc|[Hc|Hc]]; [left; set_solver| |by right; right].
      destruct (decide (o = o')) as [->|Hne].
      * rewrite fn_lookup_insert. rewrite Ho' in Hc. cbn in *. set_solver.
      * right; left. by rewrite fn_lookup_insert_ne.
  - apply runner_frame in Hs as (-> & -> & -> & _ & ->). done.
  - injection Hs as <-. cbn. destruct Hc as [Hc|[Hc|[Ho Hc]]]; [by left|by right; left|].
    right; right. split; [done|]. destruct (decide (o = o')) as [->|Hne].
    + rewrite fn_lookup_insert. set_solver.
    + by rewrite fn_lookup_insert_ne.
Qed.

Lemma run_inv (I : St → Prop) s ms s' :
  (∀ s m s', I s → step s m = Some s' → I s') → I s → run s ms = Some s' → I s'.
Proof.
  intros Hstep. revert s. induction ms as [|m ms IH]; intros s Hs; cbn [run]; [by intros [= <-]|].
  destruct (step s m) as [s1|] eqn:Hm; simpl; [|done]. apply IH. by eapply Hstep.
Qed.

Lemma moves_app s ms1 ms2 : run s (ms1 ++ ms2) = run s ms1 ≫= λ s', run s' ms2.
Proof.
  revert s. induction ms1 as [|m ms1 IH]; intros s; cbn [run app]; [done|].
  destruct (step s m) as [s1|]; [apply IH|done].
Qed.

(** A goroutine that was signaled can call all of its functions. *)
Lemma cancels_end o s rest :
  listener s o = Canceling rest →
  ∃ s', run s (replicate (S (length rest)) (CancelNext o)) = Some s' ∧ listener s' o = Ended ∧
    canceled s' = canceled s ++ rest ∧ todo s' = todo s.
Proof.
  revert s. induction rest as [|c rest IH]; intros s Ho; cbn [replicate length run step];
    rewrite Ho; simpl.
  - eexists. split; [reflexivity|]. cbn. rewrite fn_lookup_insert. by rewrite app_nil_r.
  - destruct (IH (set_listener o (Canceling rest) (add_canceled [c] s)))
      as (s' & Hrun & Hl & Hc & Ht).
    { cbn. by rewrite fn_lookup_insert. }
    exists s'. split; [exact Hrun|]. split_and!; [done| |by rewrite Ht].
    rewrite Hc. cbn. by rewrite <- app_assoc.
Qed.

(** ** The sync

    What holds of the sync data, and what [CancelSync] has read of them. *)
Definition sync_ok (s : St) : Prop :=
  let y := sync s in
  match runner y with
  | NoRun => cancelSync y = None ∧ syncCanceled y = None
  | Running ctx => cancelSync y = Some ctx ∧ ∃ ch, syncCanceled y = Some ch ∧ ch ∉ closed y
  | ClosingChannel => is_Some (cancelSync y) ∧ ∃ ch, syncCanceled y = Some ch ∧ ch ∉ closed y
  | Resetting => is_Some (cancelSync y) ∧ is_Some (syncCanceled y)
  end ∧
  match cs y with
  | CS0 => True
  | CS1 c => head (todo s) = Some CancelSync ∧ ∀ ctx, runner y = Running ctx → ctx = c
  | CS2 => head (todo s) = Some CancelSync ∧ ∀ ctx, runner y = Running ctx → ctx ∈ canceled s
  | CS3 ch => head (todo s) = Some CancelSync ∧
      (∀ ctx, runner y = Running ctx → ctx ∈ canceled s) ∧ (runner y ≠ NoRun → ch = syncCanceled y)
  end.

(** [CancelSync] has found a sync to cancel, whose goroutine is past the point
    where it closes the channel that it waits for, or will wait for. *)
Definition doomed (s : St) : Prop :=
  let y := sync s in
  head (todo s) = Some CancelSync ∧
  match cs y with
  | CS0 => False
  | CS1 _ | CS2 =>
      match runner y with
      | NoRun => syncCanceled y = None
      | Resetting => ∀ ch, syncCanceled y = Some ch → ch ∉ closed y
      | _ => False
      end
  | CS3 None => True
  | CS3 (Some ch) => ch ∉ closed y ∧ (runner y = NoRun ∨ runner y = Resetting)
  end.

Lemma sync_ok_CancelSync s b s' rest :
  todo s = CancelSync :: rest → sync_ok s → CancelSync_step s = Some (b, s') →
  sync_ok s' ∧ (b = true → cs (sync s') = CS0).
Proof.
  unfold sync_ok, CancelSync_step. destruct s as [l f ca n [x ch cr cl r p] t a]. cbn.
  intros -> [Hr Hp]. destruct p as [|c| |[c|]].
  - destruct x as [ctx|]; intros [= <- <-]; cbn; [|by split].
    split; [|done]. split; [done|]. split; [done|]. intros ctx' ->. destruct Hr as [[= ->] _]. done.
  - intros [= <- <-]; cbn. split; [|done]. split; [done|]. destruct Hp as [_ Hp]. split; [done|].
    intros ctx Hx. rewrite (Hp ctx Hx). set_solver.
  - intros [= <- <-]; cbn. split; [|done]. split; [done|]. destruct Hp as [_ Hp]. by split_and!.
  - case_decide as Hd; [|done]. intros [= <- <-]; cbn. by split.
  - done.
Qed.

Lemma sync_ok_runner s b s' : sync_ok s → runner_step b s = Some s' → sync_ok s'.
Proof.
  unfold sync_ok, runner_step. destruct s as [l f ca n [x ch cr cl r p] t a]. cbn. intros [Hr Hp].
  destruct r as [|ctx| |]; [done| | |].
  - destruct Hr as [Hx Hch]. assert (Hp' : ∀ r', r' ≠ NoRun → (∀ ctx', r' ≠ Running ctx') →
      match p with
      | CS0 => True
      | CS1 c => head t = Some CancelSync ∧ ∀ ctx, r' = Running ctx → ctx = c
      | CS2 => head t = Some CancelSync ∧ ∀ ctx, r' = Running ctx → ctx ∈ ca
      | CS3 ch0 => head t = Some CancelSync ∧ (∀ ctx, r' = Running ctx → ctx ∈ ca) ∧
          (r' ≠ NoRun → ch0 = ch)
      end).
    { intros r' Hn Hnr. destruct p as [|c| |c]; [done|naive_solver..]. }
    destruct b; [case_decide as Hd; [|done]|]; intros [= <-]; cbn; (split; [|by apply Hp']).
    + split; [by eexists|done].
    + split; [by eexists|]. destruct Hch as (c & -> & _). by eexists.
  - destruct Hr as [Hx (c & -> & Hc)]. rewrite decide_False by done. intros [= <-]. cbn.
    split; [by split|]. destruct p as [|c'| |c']; [done|naive_solver..].
  - intros [= <-]. cbn. split; [done|]. destruct p as [|c'| |c']; [done|naive_solver..].
Qed.

(** Steps that change nothing the sync depends on. *)
Lemma sync_ok_frame s s' :
  sync_ok s → cs (sync s) = CS0 ∨ todo s' = todo s →
  cancelSync (sync s') = cancelSync (sync s) → syncCanceled (sync s') = syncCanceled (sync s) →
  closed (sync s') = closed (sync s) → runner (sync s') = runner (sync s) →
  cs (sync s') = cs (sync s) → canceled s ⊆ canceled s' → sync_ok s'.
Proof.
  unfold sync_ok. intros [Hr Hp] Ht -> -> -> -> -> Hca. split; [done|].
  destruct Ht as [Ht|Ht]; [by rewrite Ht|]. rewrite Ht.
  destruct (cs (sync s)) as [|c| |c]; [done|done|naive_solver..].
Qed.

Lemma sync_ok_step s m s' : sync_ok s → step s m = Some s' → sync_ok s'.
Proof.
  intros Hok Hs. destruct m as [|o|b|o]; cbn [step] in Hs.
  - destruct (todo s) as [|a rest] eqn:Ht; [done|].
    assert (Hcs : a ≠ CancelSync → cs (sync s) = CS0).
    { intros Ha. destruct Hok as [_ Hp]. rewrite Ht in Hp. cbn in Hp.
      destruct (cs (sync s)); [done|destruct Hp as [[= ?] _]; congruence..]. }
    destruct a as [o| | |i|].
    + destruct (listener s o); try done. injection Hs as <-.
      eapply sync_ok_frame; [exact Hok|left; by apply Hcs|done..].
    + injection Hs as <-. eapply sync_ok_frame; [exact Hok|left; by apply Hcs|try done..]. cbn. set_solver.
    + destruct (CancelSync_step s) as [[[] s1]|] eqn:E; [| |done]; injection Hs as <-.
      * destruct (sync_ok_CancelSync _ _ _ _ Ht Hok E) as [Hok1 H0].
        eapply sync_ok_frame; [exact Hok1|left; by apply H0|done..].
      * by destruct (sync_ok_CancelSync _ _ _ _ Ht Hok E).
    + injection Hs as <-. eapply sync_ok_frame; [exact Hok|left; by apply Hcs|done..].
    + injection Hs as <-. eapply sync_ok_frame; [exact Hok|left; by apply Hcs|done..].
  - destruct (listener s o) as [| |[|c rest]|]; try done; injection Hs as <-;
      (eapply sync_ok_frame; [exact Hok|by right|done..|]); cbn; set_solver.
  - by eapply sync_ok_runner.
  - injection Hs as <-. eapply sync_ok_frame; [exact Hok|by right|done..].
Qed.

(** From there the call does not go on. *)
Lemma doomed_step s m s' : doomed s → step s m = Some s' → doomed s'.
Proof.
  destruct s as [l f ca n [x ch cr cl r p] t a]. unfold doomed. cbn. intros [Ht Hp] Hs.
  destruct t as [|a0 rest]; [done|]. injection Ht as ->.
  destruct m as [|o|b|o]; cbn in Hs.
  - unfold CancelSync_step in Hs. cbn in Hs. destruct p as [|c| |[c|]]; [done|..].
    + injection Hs as <-. by split.
    + injection Hs as <-. cbn. split; [done|]. destruct r as [|?| |]; try done; [by rewrite Hp|].
      destruct ch as [ch|]; [|done]. split; [by apply Hp|by right].
    + destruct Hp as [Hp _]. by rewrite decide_False in Hs.
    + done.
  - destruct (l o) as [| |[|c' rest']|]; try done; injection Hs as <-; by split.
  - unfold runner_step in Hs. cbn in Hs. destruct r as [|ctx| |]; [done| | |].
    + destruct p as [|c| |[c|]]; try done; [by destruct Hp as [_ [?|?]]|].
      destruct b; [case_decide as Hd; [|done]|]; by injection Hs as <-.
    + destruct p as [|c| |[c|]]; try done; [by destruct Hp as [_ [?|?]]|].
      destruct ch as [c|]; [case_decide as Hd|]; [done| |done]. by injection Hs as <-.
    + injection Hs as <-. cbn. split; [done|]. destruct p as [|c| |[c|]]; try done.
      destruct Hp as [Hp _]. split; [done|by left].
  - injection Hs as <-. by split.
Qed.

(** *** Going on *)

(** The next act can be done, with steps of the call and the sync only. *)
Definition ends (rest : list Act) (s : St) : Prop :=
  ∃ ms s', run s ms = Some s' ∧ todo s' = rest ∧ cs (sync s') = CS0.

Lemma ends_step rest s m s' : step s m = Some s' → ends rest s' → ends rest s.
Proof.
  intros Hs (ms & s2 & Hr & H). exists (m :: ms), s2. split; [|done]. cbn [run]. by rewrite Hs.
Qed.

Lemma ends_now rest s m s' :
  step s m = Some s' → todo s' = rest → cs (sync s') = CS0 → ends rest s.
Proof. intros Hs Ht Hc. exists [m], s'. split_and!; [|done..]. cbn [run]. by rewrite Hs. Qed.

(** The channel [c] of the sync is closed, or will be. *)
Definition will_close (c : nat) (s : St) : Prop :=
  c ∈ closed (sync s) ∨
  syncCanceled (sync s) = Some c ∧
  (runner (sync s) = ClosingChannel ∨ ∃ ctx, runner (sync s) = Running ctx ∧ ctx ∈ canceled s).

Lemma cs3_ends rest s c :
  todo s = CancelSync :: rest → cs (sync s) = CS3 (Some c) → will_close c s → ends rest s.
Proof.
  destruct s as [l f ca n [x ch cr cl r p] t a]. unfold will_close. cbn. intros -> -> Hw.
  assert (Hclosed : ∀ x ch r cl, c ∈ cl → ends rest (mkSt l f ca n (mkSyncSt x ch cr cl r (CS3 (Some c)))
    (CancelSync :: rest) a)).
  { intros x' ch' r' cl' Hc. eapply (ends_now _ _ Main); [cbn; unfold CancelSync_step; cbn;
      rewrite decide_True by done; reflexivity|done|done]. }
  assert (Hclosing : ∀ x, ends rest (mkSt l f ca n
    (mkSyncSt x (Some c) cr cl ClosingChannel (CS3 (Some c))) (CancelSync :: rest) a)).
  { intros x'. destruct (decide (c ∈ cl)) as [Hc|Hc]; [by apply Hclosed|].
    eapply (ends_step _ _ (Sync true)).
    - cbn. unfold runner_step. cbn. rewrite decide_False by done. reflexivity.
    - cbn. apply Hclosed. set_solver. }
  destruct Hw as [Hc|[-> [->|(ctx & -> & Hctx)]]]; [by apply Hclosed|apply Hclosing|].
  eapply (ends_step _ _ (Sync true)).
  - cbn. unfold runner_step. cbn. rewrite decide_True by done. reflexivity.
  - apply Hclosing.
Qed.

Lemma cs2_ends rest s c :
  todo s = CancelSync :: rest → cs (sync s) = CS2 → syncCanceled (sync s) = Some c →
  will_close c s → ends rest s.
Proof.
  intros Ht Hc Hch Hw. eapply (ends_step _ _ Main).
  - cbn [step]. rewrite Ht. unfold CancelSync_step. rewrite Hc. reflexivity.
  - eapply (cs3_ends _ _ c); [exact Ht|cbn; by rewrite Hch|exact Hw].
Qed.

Lemma cs1_ends rest s ctx c :
  todo s = CancelSync :: rest → cs (sync s) = CS1 ctx → syncCanceled (sync s) = Some c →
  (c ∈ closed (sync s) ∨ runner (sync s) = ClosingChannel ∨ runner (sync s) = Running ctx) →
  ends rest s.
Proof.
  intros Ht Hc Hch Hw. eapply (ends_step _ _ Main).
  - cbn [step]. rewrite Ht. unfold CancelSync_step. rewrite Hc. reflexivity.
  - eapply (cs2_ends _ _ c); [exact Ht|reflexivity|exact Hch|]. unfold will_close. cbn.
    destruct Hw as [Hw|[Hw|Hw]]; [by left|right; split; [done|by left]|right; split; [done|]].
    right. exists ctx. split; [done|]. set_solver.
Qed.

Lemma cs0_ends rest s :
  todo s = CancelSync :: rest → cs (sync s) = CS0 → sync_ok s → ends rest s.
Proof.
  intros Ht Hc [Hr _].
  assert (Hidle : ∀ s, todo s = CancelSync :: rest → cs (sync s) = CS0 → cancelSync (sync s) = None →
    ends rest s).
  { intros s1 Ht1 Hc1 Hx. eapply (ends_now _ _ Main);
      [cbn [step]; rewrite Ht1; unfold CancelSync_step; rewrite Hc1, Hx; reflexivity|reflexivity|exact Hc1]. }
  assert (Hread : ∀ ctx c, cancelSync (sync s) = Some ctx → syncCanceled (sync s) = Some c →
    (runner (sync s) = ClosingChannel ∨ runner (sync s) = Running ctx) → ends rest s).
  { intros ctx c Hx Hch Hw. eapply (ends_step _ _ Main).
    - cbn [step]. rewrite Ht. unfold CancelSync_step. rewrite Hc, Hx. reflexivity.
    - eapply (cs1_ends _ _ ctx c); [exact Ht|reflexivity|exact Hch|]. by right. }
  destruct (runner (sync s)) as [|ctx| |] eqn:Er.
  - apply Hidle; [done..|apply Hr].
  - destruct Hr as [Hx (c & Hch & _)]. eapply Hread; [done..|by right].
  - destruct Hr as [[ctx Hx] (c & Hch & _)]. eapply Hread; [done..|by left].
  - eapply (ends_step _ _ (Sync true)); [cbn; unfold runner_step; rewrite Er; reflexivity|].
    by apply Hidle.
Qed.

Lemma sync_ends rest s :
  todo s = CancelSync :: rest → sync_ok s → ¬ doomed s → ends rest s.
Proof.
  intros Ht Hok Hd. destruct (cs (sync s)) as [|ctx| |ch] eqn:Ec; [by apply cs0_ends| | |];
    destruct Hok as [Hr Hp]; rewrite Ec in Hp; unfold doomed in Hd; rewrite Ht, Ec in Hd; cbn in Hd;
    destruct (runner (sync s)) as [|ctx'| |] eqn:Er.
  - destruct Hd. by split; [|apply Hr].
  - destruct Hr as [Hx (c & Hch & _)]. eapply (cs1_ends _ _ ctx c); [done..|].
    right; right. destruct Hp as [_ Hp]. by rewrite (Hp ctx' eq_refl) in Er.
  - destruct Hr as [_ (c & Hch & _)]. eapply (cs1_ends _ _ ctx c); [done..|]. right. by left.
  - destruct Hr as [_ [c Hch]]. eapply (cs1_ends _ _ ctx c); [done..|]. left.
    destruct (decide (c ∈ closed (sync s))) as [|Hc]; [done|]. destruct Hd. split; [done|].
    intros c'. rewrite Hch. by intros [= <-].
  - destruct Hd. by split; [|apply Hr].
  - destruct Hr as [Hx (c & Hch & _)]. eapply (cs2_ends _ _ c); [done..|].
    right. split; [done|]. right. exists ctx'. split; [done|]. by apply Hp.
  - destruct Hr as [_ (c & Hch & _)]. eapply (cs2_ends _ _ c); [done..|]. right. split; [done|by left].
  - destruct Hr as [_ [c Hch]]. eapply (cs2_ends _ _ c); [done..|]. left.
    destruct (decide (c ∈ closed (sync s))) as [|Hc]; [done|]. destruct Hd. split; [done|].
    intros c'. rewrite Hch. by intros [= <-].
  - destruct ch as [c|]; [|by destruct Hd]. eapply (cs3_ends _ _ c); [done..|]. left.
    destruct (decide (c ∈ closed (sync s))) as [|Hc]; [done|]. destruct Hd. split; [done|].
    split; [done|by left].
  - destruct Hp as (_ & Hctx & Hch). destruct Hr as [Hx (c & Hc & _)].
    eapply (cs3_ends _ _ c); [done|by rewrite Ec, Hch, Hc|]. right. split; [done|]. right.
    exists ctx'. split; [done|]. by apply Hctx.
  - destruct Hp as (_ & Hctx & Hch). destruct Hr as [_ (c & Hc & _)].
    eapply (cs3_ends _ _ c); [done|by rewrite Ec, Hch, Hc|]. right. split; [done|by left].
  - destruct ch as [c|]; [|by destruct Hd]. eapply (cs3_ends _ _ c); [done..|]. left.
    destruct (decide (c ∈ closed (sync s))) as [|Hc]; [done|]. destruct Hd. split; [done|].
    split; [done|by right].
Qed.

(** The call can be run to its end. *)
Lemma mains_end s :
  ready s → sync_ok s → ¬ doomed s → ∃ ms s', run s ms = Some s' ∧ todo s' = [].
Proof.
  remember (length (todo s)) as n eqn:Hn. revert s Hn.
  induction n as [|n IH]; intros s Hn Hr Hok Hd.
  { exists [], s. split; [done|]. by apply nil_length_inv. }
  destruct (todo s) as [|a rest] eqn:Ht; [done|]. injection Hn as ->.
  assert (Hends : ends rest s).
  { destruct (decide (a = CancelSync)) as [->|Ha]; [by apply sync_ends|].
    assert (Hcs : cs (sync s) = CS0).
    { destruct Hok as [_ Hp]. rewrite Ht in Hp. cbn in Hp.
      destruct (cs (sync s)); [done|destruct Hp as [[= ?] _]; congruence..]. }
    destruct Hr as [_ Hl]. rewrite Ht in Hl.
    destruct a as [o| | |i|]; try done;
      (eapply (ends_now _ _ Main);
       [cbn [step]; rewrite Ht, ?(Hl o) by (cbn; set_solver); reflexivity|reflexivity|exact Hcs]). }
  destruct Hends as (ms & s1 & Hrun & Ht1 & Hc1).
  destruct (IH s1) as (ms2 & s2 & Hrun2 & Ht2).
  - by rewrite Ht1.
  - eapply (run_inv ready); [apply ready_step|exact Hr|exact Hrun].
  - eapply (run_inv sync_ok); [apply sync_ok_step|exact Hok|exact Hrun].
  - intros [_ H]. by rewrite Hc1 in H.
  - exists (ms ++ ms2), s2. split; [|done]. by rewrite moves_app, Hrun.
Qed.

(** ** Shutting down *)

Lemma signals_shutdown ids : signals (Shutdown ids) = None :: (Some <$> ids).
Proof.
  unfold Shutdown, before_db, signals. cbn. f_equal. induction ids as [|i ids IH]; [done|].
  cbn. f_equal. exact IH.
Qed.

Lemma db_last ids : CloseDb ∉ before_db ids.
Proof.
  unfold before_db, wallet_Shutdown. intros [H|H]%elem_of_app; [set_solver|].
  apply list_elem_of_bind in H as (i & Hin & _). set_solver.
Qed.

(** A wallet that does not listen any more is still to be signaled. *)
Definition stuck (i : Z) (s : St) : Prop :=
  listener s (Some i) = Ended ∧ ∃ l, todo s = l ++ [CloseDb] ∧ Signal (Some i) ∈ l.

Lemma stuck_step i s m s' : stuck i s → step s m = Some s' → stuck i s'.
Proof.
  intros (He & l & Ht & Hin) Hs. destruct m as [|o|b|o].
  - destruct l as [|a l]; [by apply elem_of_nil in Hin|]. cbn in Ht.
    destruct (main_cases _ _ _ _ Ht Hs) as [[(Ht1 & -> & Hl1)|(Ht1 & Ha)] _].
    { split; [by rewrite Hl1|]. by exists (CancelSync :: l). }
    apply elem_of_cons in Hin. unfold stuck. rewrite Ht1.
    destruct a as [o| | |j|];
      [|rewrite Ha; split; [done|]; exists l; (split; [done|]); by destruct Hin..].
    destruct Ha as [Ho ->]. assert (Some i ≠ o) by (intros <-; congruence).
    split; [by rewrite fn_lookup_insert_ne|]. exists l. split; [done|].
    destruct Hin as [[= Hin]|]; [congruence|done].
  - cbn [step] in Hs. destruct (listener s o) as [| |[|c rest]|] eqn:Ho; try done; injection Hs as <-;
      (split; [cbn; rewrite fn_lookup_insert_ne; congruence|]); by exists l.
  - apply runner_frame in Hs as (Hl & _ & Ht' & _). unfold stuck. rewrite Hl, Ht'. split; [done|by exists l].
  - injection Hs as <-. split; [done|]. by exists l.
Qed.

Lemma acts_run s ms s' : run s ms = Some s' → acts s' ++ todo s' = acts s ++ todo s.
Proof.
  intros Hrun. eapply (run_inv (λ x, acts x ++ todo x = acts s ++ todo s)); [|done|exact Hrun].
  intros s1 m s2 H Hs. by rewrite (step_acts _ _ _ Hs).
Qed.

(** The database is closed by the last act. *)
Lemma db_not_yet ids l r : l ++ r = Shutdown ids → r ≠ [] → CloseDb ∉ l.
Proof.
  intros H Hr Hin. destruct (exists_last Hr) as (r' & a & ->). unfold Shutdown in H.
  rewrite app_assoc in H. apply app_inj_tail in H as [H _].
  apply (db_last ids). rewrite <- H. apply elem_of_app. by left.
Qed.

(** No sync is there to be canceled. *)
Definition no_sync (s : St) : Prop :=
  runner (sync s) = NoRun ∧ cancelSync (sync s) = None ∧ cs (sync s) = CS0.

Lemma no_sync_step s m s' : no_sync s → step s m = Some s' → no_sync s'.
Proof.
  unfold no_sync. intros (Hr & Hx & Hc). destruct m as [|o|b|o]; cbn [step].
  - destruct (todo s) as [|[o| | |i|] rest]; [done|destruct (listener s o); try done|..];
      try (intros [= <-]; done).
    unfold CancelSync_step. rewrite Hc, Hx. intros [= <-]. done.
  - destruct (listener s o) as [| |[|c rest]|]; try done; intros [= <-]; done.
  - unfold runner_step. by rewrite Hr.
  - intros [= <-]. done.
Qed.

(** The owners that a shutdown signals. *)
Definition owner_of (ids : list Z) (o : Owner) : Prop := o = None ∨ ∃ i, o = Some i ∧ i ∈ ids.

Lemma ready_start ids s :
  NoDup ids → todo s = Shutdown ids → (∀ o, owner_of ids o → listener s o = Listening) → ready s.
Proof.
  intros Hids Htodo Hl. unfold ready. rewrite Htodo, signals_shutdown. split.
  - apply NoDup_cons. split; [|by apply (NoDup_fmap_2 _)].
    intros (i & ? & _)%list_elem_of_fmap. done.
  - intros o [->|(i & -> & Hi)%list_elem_of_fmap]%elem_of_cons; apply Hl; [by left|right; by exists i].
Qed.

(** C29. Shutting down, while the goroutines, the end of a running sync and
    calls that create contexts interleave in any way.  What the call did at any
    time is the beginning of: signal the multiwallet, cancel the rescan and the
    sync, signal and close every wallet, close the database.  From a state where
    the multiwallet and its wallets still listen, it can go on to its end at any
    time, unless it is doomed: [CancelSync] has found a sync and the goroutine
    of the sync is past the point where it closes the channel waited for; then
    the call never ends and the database is never closed.  It is never doomed
    when no sync was running.  A goroutine that was signaled can end, calling
    all its functions; when the call is over and the goroutines are, every
    context that existed when it started is canceled.  If the goroutine of a
    wallet has received its signal before, the database is never closed. *)
Theorem Shutdown_spec (ids : list Z) (Hids : NoDup ids) (s s' : St) (ms : list Move)
    (Htodo : todo s = Shutdown ids) (Hacts : acts s = []) (Hsync : sync_ok s)
    (Hrun : run s ms = Some s') :
  acts s' ++ todo s' = Shutdown ids ∧
  ((∀ o, owner_of ids o → listener s o = Listening) →
     (¬ doomed s' → ∃ ms' s'', run s' ms' = Some s'' ∧ acts s'' = Shutdown ids) ∧
     (todo s' = [] → ∀ o c, owner_of ids o → c ∈ cancelFuncs s o →
        listener s' o = Ended → c ∈ canceled s') ∧
     (∀ o rest, listener s' o = Canceling rest →
        ∃ s'', run s' (replicate (S (length rest)) (CancelNext o)) = Some s'' ∧
               listener s'' o = Ended ∧ canceled s'' = canceled s' ++ rest)) ∧
  (doomed s' → ∀ ms' s'', run s' ms' = Some s'' → CloseDb ∉ acts s'') ∧
  (no_sync s → ¬ doomed s') ∧
  (∀ i, i ∈ ids → listener s (Some i) = Ended → CloseDb ∉ acts s').
Proof.
  assert (Hprefix : acts s' ++ todo s' = Shutdown ids).
  { by rewrite (acts_run _ _ _ Hrun), Hacts, Htodo. }
  split; [done|]. split; [|split; [|split]].
  - intros Hl. pose proof (ready_start ids s Hids Htodo Hl) as Hready.
    pose proof (run_inv _ _ _ _ ready_step Hready Hrun) as Hready'.
    pose proof (run_inv _ _ _ _ sync_ok_step Hsync Hrun) as Hsync'. split_and!.
    + intros Hd. destruct (mains_end s' Hready' Hsync' Hd) as (ms2 & s2 & Hs2 & Ht2).
      exists ms2, s2. split; [done|]. pose proof (acts_run _ _ _ Hs2) as Hend.
      rewrite Hprefix, Ht2, app_nil_r in Hend. exact Hend.
    + intros Ht o c Ho Hc Hended.
      assert (Hcov : ready s' ∧ covered o c s').
      { eapply (run_inv (λ x, ready x ∧ covered o c x)); [|split; [exact Hready|]|exact Hrun].
        - intros s1 m s2 [H1 H2] Hs. split; [by eapply ready_step|by eapply covered_step].
        - right; right. split; [|done]. rewrite Htodo, signals_shutdown.
          destruct Ho as [->|(i & -> & Hi)]; [set_solver|].
          right. by apply list_elem_of_fmap_2. }
      destruct Hcov as [_ [Hcov|[Hcov|[Hcov _]]]]; [done| |].
      * rewrite Hended in Hcov. by apply elem_of_nil in Hcov.
      * rewrite Ht in Hcov. by apply elem_of_nil in Hcov.
    + intros o rest (s2 & Hs2 & Hl2 & Hc2 & _)%cancels_end. by exists s2.
  - intros Hd ms2 s2 Hrun2. pose proof (run_inv _ _ _ _ doomed_step Hd Hrun2) as [Ht2 _].
    pose proof (acts_run _ _ _ Hrun2) as Hp2. rewrite Hprefix in Hp2.
    eapply db_not_yet; [exact Hp2|]. intros Hnil. by rewrite Hnil in Ht2.
  - intros Hn [_ Hd]. pose proof (run_inv _ _ _ _ no_sync_step Hn Hrun) as (_ & _ & Hc).
    by rewrite Hc in Hd.
  - intros i Hi Hend.
    assert (Hstuck : stuck i s').
    { eapply (run_inv (stuck i)); [apply stuck_step| |exact Hrun]. split; [done|].
      exists (before_db ids). split; [done|]. apply elem_of_app. right.
      apply list_elem_of_bind. exists i. split; [apply list_elem_of_here|done]. }
    destruct Hstuck as (_ & l & Ht & _).
    eapply db_not_yet; [exact Hprefix|]. rewrite Ht. by destruct l.
Qed.

(** ** Concrete runs *)

Definition quiet : SyncSt := mkSyncSt None None None [] NoRun CS0.
Definition shut0 : St := mkSt (λ _, NotStarted) (λ _, []) [] 0 quiet [] [].
Definition start_call (a : list Act) (s : St) : St :=
  mkSt (listener s) (cancelFuncs s) (canceled s) (contexts s) (sync s) a [].

(** A multiwallet with the wallet 1, which has a context. *)
Definition opened : St := (shutdownContext 1 (listenForShutdown None (listenForShutdown (Some 1%Z) shut0))).2.

(** The same while a sync runs, with the context 1, which is the multiwallet's,
    and the channel 7. *)
Definition syncing : St :=
  set_sync (mkSyncSt (Some 1) (Some 7) None [] (Running 1) CS0) (contextWithCancel None opened).2.

(** The call is over, and the goroutines after it; [CancelSync] waits for the
    sync. *)
Definition whole_run : list Move :=
  replicate 5 Main ++ [Sync true; Sync true; Sync true] ++ replicate 4 Main ++
  [CancelNext None; CancelNext None; CancelNext (Some 1%Z); CancelNext (Some 1%Z)].

Lemma Shutdown_spec_witness :
  ∃ s', run (start_call (Shutdown [1%Z]) syncing) whole_run = Some s' ∧ todo s' = [] ∧
    0 ∈ canceled s' ∧ acts s' = Shutdown [1%Z].
Proof.
  assert (Hend : (λ s, (todo s, listener s (Some 1%Z))) <$>
    run (start_call (Shutdown [1%Z]) syncing) whole_run = Some ([], Ended)) by (vm_compute; reflexivity).
  apply fmap_Some in Hend as (s' & Hrun & [= Htodo Hl]). exists s'. split; [exact Hrun|].
  split; [done|].
  destruct (Shutdown_spec [1%Z] (NoDup_singleton _) (start_call (Shutdown [1%Z]) syncing) s' whole_run
              eq_refl eq_refl) as (Hacts & Hlive & _).
  - split; [|exact I]. split; [reflexivity|]. exists 7. split; [reflexivity|apply not_elem_of_nil].
  - exact Hrun.
  - split; [|rewrite <- Htodo, app_nil_r in Hacts; exact Hacts].
    destruct Hlive as (_ & Hcanceled & _).
    + intros o [->|(i & -> & ->%list_elem_of_singleton)]; vm_compute; reflexivity.
    + apply (Hcanceled (eq_sym Htodo) (Some 1%Z) 0); [|apply list_elem_of_here|by symmetry].
      right. exists 1%Z. split; [reflexivity|apply list_elem_of_here].
Defined.

(** The signal that starts a shutdown also cancels the context of a running
    sync.  When the sync ends and resets its data after [CancelSync] has found
    it, and before [CancelSync] reads the channel, the call waits for the nil
    channel: it never ends, and the wallets and the database stay open. *)
Theorem shutdown_can_hang :
  let race := [Main; CancelNext None; CancelNext None; Sync true; Main; Main; Sync true; Sync true;
               Main; Main] in
  (λ s, (todo s, cs (sync s), runner (sync s), todo <$> step s Main)) <$>
    run (start_call (Shutdown [1%Z]) syncing) race =
  Some ([CancelSync; Signal (Some 1%Z); CloseWallet 1; CloseDb], CS3 None, NoRun, None).
Proof. vm_compute. reflexivity. Qed.

(** Deleting a wallet shuts it down before its files are removed; when that
    fails the wallet is kept.  The call of [Shutdown] that follows stops at its
    signal: nothing but creating contexts can happen from there. *)
Theorem shutdown_after_failed_delete :
  let deleted := run (start_call (wallet_Shutdown 1) opened)
                     (replicate 2 Main ++ replicate 2 (CancelNext (Some 1%Z))) in
  let s := (start_call (Shutdown [1%Z]) <$> deleted)
           ≫= λ s, run s (replicate 3 Main ++ [CancelNext None]) in
  todo <$> deleted = Some [] ∧
  todo <$> s = Some [Signal (Some 1%Z); CloseWallet 1; CloseDb] ∧
  (λ s, (todo <$> step s Main, todo <$> step s (CancelNext None),
         todo <$> step s (CancelNext (Some 1%Z)), todo <$> step s (Sync true))) <$> s =
    Some (None, None, None, None).
Proof. vm_compute. by split_and!. Qed.

(** A context that is created after the signal of its owner is never canceled. *)
Theorem late_context :
  (λ s, (cancelFuncs s (Some 1%Z), canceled s, listener s (Some 1%Z))) <$>
    run (start_call (Shutdown [1%Z]) opened) (replicate 6 Main ++ [NewContext (Some 1%Z);
          CancelNext (Some 1%Z); CancelNext (Some 1%Z); CancelNext None]) =
  Some ([0; 1], [0], Ended).
Proof. vm_compute. reflexivity. Qed.
