(* ===== verification/Wallet.v ===== *)
(** * [wallet.go], [errors.go] and parts of [utils.go] and [multiwallet_utils.go]

    A wallet: its saved record, its loader, its transaction index, and the
    wallet of the library behind it, whose calls are the interface [Internal];
    the encryption of its seed; files and their backups. *)
From S2P Require Import Prelude TxHelper Decode TxIndex Loader Config.

(** ** errors.go *)
Definition ErrExist : goerr := ENew "exists".
Definition ErrNotExist : goerr := ENew "not_exists".
Definition ErrInvalid : goerr := ENew "invalid".
Definition ErrEmptySeed : goerr := ENew "empty_seed".
Definition ErrInvalidPassphrase : goerr := ENew "invalid_passphrase".
Definition ErrWalletIsRestored : goerr := ENew "wallet_is_restored".
Definition ErrWalletNotLoaded : goerr := ENew "wallet_not_loaded".
Definition ErrInsufficientBalance : goerr := ENew "insufficient_balance".
Definition ErrNoPeers : goerr := ENew "no_peers".
Definition ErrReservedWalletName : goerr := EWrap KOther (ENew "wallet_name_reserved").
Definition ErrSyncAlreadyInProgress : goerr := ENew "sync_already_in_progress".
Definition ErrChangingPassphrase : goerr := ENew "err_changing_passphrase".
Definition ErrSavingWallet : goerr := ENew "err_saving_wallet".

(** The kind of an error of the errors package: [errors.E] takes over the kind
    of the error it wraps when it is given none. *)
Fixpoint err_kind (e : goerr) : option Kind :=
  match e with
  | EKind k _ => Some k
  | EWrap KOther inner => match err_kind inner with Some k => Some k | None => Some KOther end
  | EWrap k _ => Some k
  | _ => None
  end.

Definition translateError (err : goerr) : goerr :=
  match err_kind err with
  | Some KInsufficientBalance => ErrInsufficientBalance
  | Some KNotExist => ErrNotExist
  | Some KPassphrase => ErrInvalidPassphrase
  | Some KNoPeers => ErrNoPeers
  | _ => err
  end.

(** ** Files of utils.go: the paths that exist *)
Definition moveFile (sourcePath destinationPath : string) (rename : option goerr)
    (fs : gset string) : option goerr * gset string :=
  if decide (sourcePath ∈ fs) then
    match rename with
    | Some err => (Some err, fs)
    | None => (None, {[destinationPath]} ∪ fs ∖ {[sourcePath]})
    end
  else (None, fs).

Definition backup_name (fileName : string) (suffix : Z) : string :=
  String.append fileName (String.append ".bak" (Itoa suffix)).

(** The recursion counts up until a name is free; [None] is no fuel. *)
Fixpoint backupFile (fuel : nat) (fileName : string) (suffix : Z) (rename : option goerr)
    (fs : gset string) : option ((goerr + string) * gset string) :=
  match fuel with
  | O => None
  | S fuel =>
      let newName := backup_name fileName suffix in
      if decide (newName ∈ fs) then backupFile fuel fileName (suffix + 1) rename fs
      else match moveFile fileName newName rename fs with
           | (Some err, fs) => Some (inl err, fs)
           | (None, fs) => Some (inr newName, fs)
           end
  end.

(** ** Seeds: multiwallet_utils.go

    [scrypt], [nacl.Load] and [secretbox]; sealing takes a nonce. *)
Class Crypto (Key : Type) := {
  scrypt_key : bytes → goerr + bytes;
  nacl_Load : string → goerr + Key;
  EncodeHex : bytes → string;
  EasySeal : bytes → bytes → Key → bytes;
  EasyOpen : bytes → Key → goerr + bytes
}.

(** A box is opened by its key and by no other. *)
Class CryptoLaws (Key : Type) `{!Crypto Key} := {
  open_seal n m k : EasyOpen (EasySeal n m k) k = inr m;
  open_other n m k k' : k' ≠ k → ∃ e, EasyOpen (EasySeal n m k) k' = inl e
}.

Section seeds.
Context {Key : Type} `{!Crypto Key}.

Definition naclLoadFromPass (pass : bytes) : goerr + Key :=
  match scrypt_key pass with
  | inl err => inl err
  | inr hash => nacl_Load (EncodeHex hash)
  end.

Definition encryptWalletSeed (nonce pass : bytes) (seed : string) : goerr + bytes :=
  match naclLoadFromPass pass with
  | inl err => inl err
  | inr key => inr (EasySeal nonce (bs seed) key)
  end.

Definition decryptWalletSeed (pass encryptedSeed : bytes) : goerr + string :=
  match naclLoadFromPass pass with
  | inl err => inl err
  | inr key => match EasyOpen encryptedSeed key with
               | inl _ => inl ErrInvalidPassphrase
               | inr m => inr (String.string_of_list_byte m)
               end
  end.

Lemma seed_roundtrip `{!CryptoLaws Key} (nonce pass box : bytes) (seed : string) :
  encryptWalletSeed nonce pass seed = inr box → decryptWalletSeed pass box = inr seed.
Proof.
  unfold encryptWalletSeed, decryptWalletSeed. destruct (naclLoadFromPass pass); [done|].
  intros [= <-]. rewrite open_seal. unfold bs. by rewrite String.string_of_list_byte_of_string.
Qed.
End seeds.

(** ** The wallet of the library *)
Class Internal (W : Type) := {
  WatchingOnly : W → bool;
  Locked : W → bool;
  Unlock : bytes → W → option goerr * W;
  Lock : W → W;
  ChangePrivatePassphrase : bytes → bytes → W → option goerr * W;
  passphrase : W → bytes                     (* for the laws *)
}.

Class InternalLaws (W : Type) `{!Internal W} := {
  unlock_passphrase p w : passphrase (Unlock p w).2 = passphrase w;
  unlock_wrong p w : WatchingOnly w = false → p ≠ passphrase w → (Unlock p w).1 ≠ None;
  lock_passphrase w : passphrase (Lock w) = passphrase w;
  change_ok p q w w' : ChangePrivatePassphrase p q w = (None, w') →
    passphrase w = p ∧ passphrase w' = q;
  change_err p q w e w' : ChangePrivatePassphrase p q w = (Some e, w') →
    passphrase w' = passphrase w
}.

(** ** wallet.go *)
Record WalletInfo := mkInfo {
  ID : Z; Name : string; CreatedAt : Z; DbDriver : string; EncryptedSeed : option bytes;
  IsRestored : bool; HasDiscoveredAccounts : bool; PrivatePassphraseType : Z }.

#[export] Instance WalletInfo_eq_dec : EqDecision WalletInfo.
Proof. solve_decision. Defined.

Definition set_ID (i : Z) (w : WalletInfo) : WalletInfo :=
  mkInfo i (Name w) (CreatedAt w) (DbDriver w) (EncryptedSeed w) (IsRestored w)
    (HasDiscoveredAccounts w) (PrivatePassphraseType w).
Definition set_Name (n : string) (w : WalletInfo) : WalletInfo :=
  mkInfo (ID w) n (CreatedAt w) (DbDriver w) (EncryptedSeed w) (IsRestored w)
    (HasDiscoveredAccounts w) (PrivatePassphraseType w).
Definition set_DbDriver (d : string) (w : WalletInfo) : WalletInfo :=
  mkInfo (ID w) (Name w) (CreatedAt w) d (EncryptedSeed w) (IsRestored w)
    (HasDiscoveredAccounts w) (PrivatePassphraseType w).
Definition set_seed (s : option bytes) (w : WalletInfo) : WalletInfo :=
  mkInfo (ID w) (Name w) (CreatedAt w) (DbDriver w) s (IsRestored w)
    (HasDiscoveredAccounts w) (PrivatePassphraseType w).
Definition set_discovered (w : WalletInfo) : WalletInfo :=
  mkInfo (ID w) (Name w) (CreatedAt w) (DbDriver w) (EncryptedSeed w) (IsRestored w)
    true (PrivatePassphraseType w).
Definition set_pass_type (t : Z) (w : WalletInfo) : WalletInfo :=
  mkInfo (ID w) (Name w) (CreatedAt w) (DbDriver w) (EncryptedSeed w) (IsRestored w)
    (HasDiscoveredAccounts w) t.

(** The library's wallet is in [internal]; the loader knows whether it is
    loaded.  [txDB] is [None] before [prepare]. *)
Record Wallet (W S : Type) := mkWallet {
  info : WalletInfo;
  internal : option W;
  loader : Loader.St (W := unit);
  txDB : option (FS (S := S));
  synced : bool; w_syncing : bool; w_waiting : bool }.
Arguments mkWallet {_ _} _ _ _ _ _ _ _.
Arguments info {_ _} _.
Arguments internal {_ _} _.
Arguments loader {_ _} _.
Arguments txDB {_ _} _.
Arguments synced {_ _} _.
Arguments w_syncing {_ _} _.
Arguments w_waiting {_ _} _.

Section Wallet.
Context {W S : Type} `{!Internal W, !Storm S}.
Abbreviation wallet := (Wallet W S).

Definition set_info (f : WalletInfo → WalletInfo) (w : wallet) : wallet :=
  mkWallet (f (info w)) (internal w) (loader w) (txDB w) (synced w) (w_syncing w) (w_waiting w).
Definition set_internal (i : option W) (w : wallet) : wallet :=
  mkWallet (info w) i (loader w) (txDB w) (synced w) (w_syncing w) (w_waiting w).
Definition set_loader (l : Loader.St) (w : wallet) : wallet :=
  mkWallet (info w) (internal w) l (txDB w) (synced w) (w_syncing w) (w_waiting w).
Definition set_txDB (t : option FS) (w : wallet) : wallet :=
  mkWallet (info w) (internal w) (loader w) t (synced w) (w_syncing w) (w_waiting w).
Definition set_synced (b : bool) (w : wallet) : wallet :=
  mkWallet (info w) (internal w) (loader w) (txDB w) b (w_syncing w) (w_waiting w).
Definition set_syncing (b : bool) (w : wallet) : wallet :=
  mkWallet (info w) (internal w) (loader w) (txDB w) (synced w) b (w_waiting w).
Definition set_waiting (b : bool) (w : wallet) : wallet :=
  mkWallet (info w) (internal w) (loader w) (txDB w) (synced w) (w_syncing w) b.

(** utils.go: the fees are parameters of the libraries. *)
Context (defaultFeePerKb DefaultAccountGapLimit : Z).
Definition initWalletLoader (params dataDir walletDbDriver : string) : Loader.Loader (W := unit) :=
  let stakeOptions := mkStakeOptions false defaultFeePerKb false None None 0 "" in
  let walletLoader := NewLoader params dataDir stakeOptions 20 false defaultFeePerKb
                        DefaultAccountGapLimit false in
  if decide (walletDbDriver ≠ EmptyString) then SetDatabaseDriver walletDbDriver walletLoader
  else walletLoader.

(** [files] is what is on disk at the path of the index. *)
Definition prepare (rootDir params : string) (io : IOFaults) (files : FS) : GM wallet unit := λ w,
  let dataDir := String.append rootDir (String.append "/" (Itoa (ID (info w)))) in
  match Initialize io files with
  | (Ok tt, fs) =>
      (Ok tt, set_loader (set_ld (λ _, initWalletLoader params dataDir (DbDriver (info w)))
                                 (loader w)) (set_txDB (Some fs) w))
  | (Err e, _) => (Err e, w)
  | (Panic, _) => (Panic, w)
  end.

Definition is_loaded (w : wallet) : bool := bool_decide (Loader.wallet (ld (loader w)) ≠ None).

(** Errors are logged; the handle of the index is closed. *)
Definition Shutdown (env : Loader.Env (W := unit)) (w : wallet) : wallet :=
  let w := if is_loaded w then set_loader (UnloadWallet env (loader w)).2 w else w in
  match txDB w with
  | Some fs => set_txDB (Some (mkFS (file fs) (pred (open_handles fs)))) w
  | None => w
  end.

Definition WalletCreationTimeInMillis (w : wallet) : goerr + Z :=
  if IsRestored (info w) then inl ErrWalletIsRestored
  else inr (Z.quot (CreatedAt (info w)) 1000000).

Definition WalletExists (env : Loader.Env (W := unit)) (w : wallet) : outcome bool :=
  (Loader.WalletExists env (loader w)).1.

(** The loader's calls on the wallet; [opened] is what the library opens. *)
Definition on_loader {A} (m : GM (Loader.St (W := unit)) A) : GM wallet A := λ w,
  let '(r, l) := m (loader w) in (r, set_loader l w).

Definition InsecurePubPassphrase : bytes := bs "public".

Definition createWallet (decodeSeed : string → goerr + bytes) (env : Loader.Env (W := unit))
    (opened : W) (seedMnemonic : string) : GM wallet unit :=
  if decide (seedMnemonic = EmptyString) then fail ErrEmptySeed
  else match decodeSeed seedMnemonic with
       | inl err => fail err
       | inr _ =>
           on_loader (CreateNewWallet env InsecurePubPassphrase) ;;
           modify (set_internal (Some opened))
       end.

Definition createWatchingOnlyWallet (env : Loader.Env (W := unit)) (opened : W) : GM wallet unit :=
  on_loader (CreateWatchingOnlyWallet env InsecurePubPassphrase) ;;
  modify (set_internal (Some opened)).

Definition translated {A} (m : GM wallet A) : GM wallet A := λ w,
  match m w with (Err e, w') => (Err (translateError e), w') | r => r end.

Definition openWallet (env : Loader.Env (W := unit)) (opened : W) : GM wallet unit :=
  translated (on_loader (OpenExistingWallet env InsecurePubPassphrase)) ;;
  modify (set_internal (Some opened)).

Definition IsWatchingOnlyWallet (w : wallet) : bool :=
  if is_loaded w then match internal w with Some i => WatchingOnly i | None => false end else false.

Definition WalletOpened (w : wallet) : bool := bool_decide (is_Some (internal w)).

(** What is left in a passphrase that was overwritten. *)
Definition zeroed (p : bytes) : bytes := replicate (length p) x00.

(** A call of the library that returns an error. *)
Definition on_internal (f : W → option goerr * W) : GM wallet unit := λ w,
  match internal w with
  | None => (Panic, w)
  | Some i => let '(e, i') := f i in
              (match e with Some err => Err err | None => Ok tt end,
               set_internal (Some i') w)
  end.

(** The error, the wallet, and the caller's passphrase after the call. *)
Definition UnlockWallet (privPass : bytes) (w : wallet) : outcome unit * wallet * bytes :=
  if negb (is_loaded w) then (Err (ENew "wallet has not been loaded"), w, privPass)
  else (translated (on_internal (Unlock privPass)) w, zeroed privPass).

Definition LockWallet : GM wallet unit := λ w,
  match internal w with
  | None => (Panic, w)
  | Some i => (Ok tt, if negb (Locked i) then set_internal (Some (Lock i)) w else w)
  end.

Definition IsLocked (w : wallet) : outcome bool :=
  match internal w with None => Panic | Some i => Ok (Locked i) end.

(** Both passphrases are overwritten. *)
Definition changePrivatePassphrase (oldPass newPass : bytes) (w : wallet)
    : outcome unit * wallet * (bytes * bytes) :=
  (translated (on_internal (ChangePrivatePassphrase oldPass newPass)) w,
   (zeroed oldPass, zeroed newPass)).

(** [os.RemoveAll] on the paths that exist.  When it fails, [remaining] are
    paths that it has not removed. *)
Definition under (dir path : string) : bool :=
  bool_decide (path = dir) || String.prefix (String.append dir "/") path.
Definition RemoveAll (dir : string) (fault : option (goerr * gset string)) (fs : gset string)
    : option goerr * gset string :=
  match fault with
  | None => (None, filter (λ p, under dir p = false) fs)
  | Some (err, remaining) => (Some err, filter (λ p, under dir p = false ∨ p ∈ remaining) fs)
  end.

(** The same on what the loader and the index have in the directory. *)
Definition removed_data (dataDir : string) (fault : option (goerr * gset string)) (w : wallet)
    : wallet :=
  let gone (path : string) :=
    match fault with None => true | Some (_, remaining) => bool_decide (path ∉ remaining) end in
  let l := loader w in
  let l := if gone dataDir then set_dir DirMissing l else l in
  let l := if gone (String.append dataDir "/wallet.db") then set_dbfile None l else l in
  let w := set_loader l w in
  match txDB w with
  | Some fs => if gone (String.append dataDir "/tx.db")
               then set_txDB (Some (mkFS None (open_handles fs))) w else w
  | None => w
  end.

(** With the files, and the passphrase after the call, which is overwritten
    however it ends. *)
Definition deleteWallet (env : Loader.Env (W := unit)) (fault : option (goerr * gset string))
    (dataDir : string) (privatePassphrase : bytes) (w : wallet) (files : gset string)
    : outcome unit * wallet * gset string * bytes :=
  let pass := zeroed privatePassphrase in
  if negb (is_loaded w) then (Err ErrWalletNotLoaded, w, files, pass)
  else
    match (if negb (IsWatchingOnlyWallet w) then
             translated (on_internal (Unlock privatePassphrase)) ;;
             on_internal (λ i, (None, Lock i))
           else ret tt) w with
    | (Ok tt, w) =>
        let w := Shutdown env w in
        let '(err, files) := RemoveAll dataDir fault files in
        (match err with Some e => Err e | None => Ok tt end,
         removed_data dataDir fault w, files, pass)
    | (Err e, w) => (Err e, w, files, pass)
    | (Panic, w) => (Panic, w, files, pass)
    end.

Definition DecryptSeed {Key : Type} `{!Crypto Key} (privatePassphrase : bytes) (w : wallet)
    : goerr + string :=
  match EncryptedSeed (info w) with
  | None => inl ErrInvalid
  | Some s => decryptWalletSeed privatePassphrase s
  end.
End Wallet.

(** ** Theorems *)
Lemma append_inj_l (a b c : string) : String.append a b = String.append a c → b = c.
Proof. induction a as [|x a IH]; simpl; [done|]. intros [= H]. auto. Qed.

Lemma append_empty (a : string) : String.append a EmptyString = a.
Proof. induction a as [|x a IH]; [done|].
  change (String x (String.append a EmptyString) = String x a). by rewrite IH.
Qed.

Lemma Itoa_inj (i j : Z) : (0 ≤ i)%Z → (0 ≤ j)%Z → Itoa i = Itoa j → i = j.
Proof.
  intros Hi Hj H. apply (Itoa_key_inj i j EmptyString EmptyString); [done..|].
  by rewrite !append_empty.
Qed.

Lemma backup_name_inj (f : string) (i j : Z) :
  (0 ≤ i)%Z → (0 ≤ j)%Z → backup_name f i = backup_name f j → i = j.
Proof.
  intros Hi Hj H%append_inj_l%append_inj_l. by apply Itoa_inj.
Qed.

Lemma backupFile_None (fuel : nat) (f : string) (i : Z) (rename : option goerr) (fs : gset string) :
  backupFile fuel f i rename fs = None →
  ∀ k : nat, k < fuel → backup_name f (i + Z.of_nat k) ∈ fs.
Proof.
  revert i. induction fuel as [|fuel IH]; intros i H k Hk; [lia|]. simpl in H.
  destruct (decide (backup_name f i ∈ fs)) as [Hin|Hin].
  - destruct k as [|k]; [by rewrite Z.add_0_r|].
    replace (i + Z.of_nat (S k))%Z with (i + 1 + Z.of_nat k)%Z by lia. apply IH; [done|lia].
  - by destruct (moveFile _ _ _ _) as [[?|] ?].
Qed.

Lemma backupFile_result (fuel : nat) (f newName : string) (i : Z) (fs fs' : gset string) :
  backupFile fuel f i None fs = Some (inr newName, fs') →
  newName ∉ fs ∧ (∃ j, newName = backup_name f j) ∧
  fs' = if decide (f ∈ fs) then {[newName]} ∪ fs ∖ {[f]} else fs.
Proof.
  revert i. induction fuel as [|fuel IH]; intros i H; [done|]. simpl in H.
  destruct (decide (backup_name f i ∈ fs)) as [Hin|Hin]; [by eapply IH|].
  unfold moveFile in H. destruct (decide (f ∈ fs)); injection H as <- <-; by eauto.
Qed.

Lemma backupFile_ends (fuel : nat) (f : string) (i : Z) (rename : option goerr) (fs : gset string) :
  (0 ≤ i)%Z → size fs < fuel → is_Some (backupFile fuel f i rename fs).
Proof.
  intros Hi Hfuel. destruct (backupFile fuel f i rename fs) as [r|] eqn:E; [by eauto|exfalso].
  pose proof (backupFile_None _ _ _ _ _ E) as Hall.
  set (names := (λ k, backup_name f (i + Z.of_nat k)) <$> seq 0 fuel).
  assert (Hnd : NoDup names).
  { apply NoDup_fmap_2_strong; [|apply NoDup_seq]. intros x y _ _ H%backup_name_inj; lia. }
  assert (Hsub : list_to_set names ⊆ fs).
  { intros n Hn. apply elem_of_list_to_set in Hn.
    apply list_elem_of_fmap in Hn as (k & -> & Hk). apply elem_of_seq in Hk. apply Hall. lia. }
  apply subseteq_size in Hsub. rewrite size_list_to_set in Hsub by done.
  unfold names in Hsub. rewrite length_fmap, length_seq in Hsub. lia.
Qed.

Lemma backupFile_error (fuel : nat) (f : string) (i : Z) (rename : option goerr)
    (fs fs' : gset string) (e : goerr) :
  backupFile fuel f i rename fs = Some (inl e, fs') → rename = Some e ∧ fs' = fs.
Proof.
  revert i. induction fuel as [|fuel IH]; intros i H; [done|]. simpl in H.
  case_decide; [by eapply IH|]. unfold moveFile in H.
  case_decide; [destruct rename|]; by simplify_eq.
Qed.

(** Backing up a file ends: among the numbered names there is a free one
    after at most as many tries as files exist.  The file is moved to a name
    that was not there, so that no earlier backup is overwritten, and no other
    file is touched. *)
Theorem backupFile_total (fuel : nat) (f : string) (i : Z) (fs : gset string) :
  (0 ≤ i)%Z → size fs < fuel → f ∈ fs →
  ∃ newName, backupFile fuel f i None fs = Some (inr newName, {[newName]} ∪ fs ∖ {[f]}) ∧
    newName ∉ fs ∧ ∃ j, newName = backup_name f j.
Proof.
  intros Hi Hfuel Hf. destruct (backupFile_ends fuel f i None fs Hi Hfuel) as [[[e|n] fs'] E].
  - by apply backupFile_error in E as [? _].
  - exists n. rewrite E. apply backupFile_result in E as (Hn & Hj & ->). by rewrite decide_True.
Qed.

Lemma backupFile_total_witness :
  ∃ newName, backupFile 3 "wallets/1" 1 None {["wallets/1"; "wallets/1.bak1"]} =
      Some (inr newName, {[newName]} ∪ {["wallets/1"; "wallets/1.bak1"]} ∖ {["wallets/1"]}) ∧
    newName ∉ ({["wallets/1"; "wallets/1.bak1"]} : gset string).
Proof.
  destruct (backupFile_total 3 "wallets/1" 1 {["wallets/1"; "wallets/1.bak1"]})
    as (newName & H & Hn & _).
  - lia.
  - vm_compute. lia.
  - set_solver.
  - exists newName. split; [exact H|exact Hn].
Defined.
