(* ===== verification/MultiWallet.v ===== *)
(** * [multiwallet.go] and [multiwallet_utils.go]: the wallets and their database

    Wallets are in memory by id, and their records in the table of the wallets
    database, whose calls are the interface [WalletTable].  What the calls on
    files and on single wallets do is composed from [Wallet], [Loader] and
    [TxIndex]; how they fail is in [Faults]. *)
From S2P Require Import Prelude TxHelper Decode TxIndex Loader Config Wallet.

(** ** The table of wallets of the database *)
Class WalletTable (D : Type) := {
  wt_view : D → gmap Z WalletInfo;
  wt_save : D → WalletInfo → (goerr + WalletInfo) * D;   (* an id of 0 is assigned *)
  wt_delete : D → WalletInfo → option goerr * D;
  wt_one_name : D → string → goerr + WalletInfo          (* One("Name", n, ...) *)
}.

Definition ErrAlreadyExists : goerr := ELib "storm.ErrAlreadyExists".

(** Names are unique, as far as they are not empty; ids are assigned from 1
    and written to the structure. *)
Class WalletTableLaws (D Val : Type) `{!WalletTable D, !KvStore D Val} := {
  view_id d i w : wt_view d !! i = Some w → ID w = i ∧ (0 < i)%Z;
  save_new d w w' d' : ID w = 0%Z → wt_save d w = (inr w', d') →
    w' = set_ID (ID w') w ∧ wt_view d !! ID w' = None ∧
    wt_view d' = <[ID w' := w']> (wt_view d);
  save_old d w w' d' : ID w ≠ 0%Z → wt_save d w = (inr w', d') →
    w' = w ∧ wt_view d' = <[ID w := w]> (wt_view d);
  save_unique d w w' d' i w0 : wt_save d w = (inr w', d') → wt_view d !! i = Some w0 →
    Name w0 = Name w → Name w ≠ EmptyString → i = ID w';
  save_err d w e d' : wt_save d w = (inl e, d') → d' = d;
  save_taken d w d' : wt_save d w = (inl ErrAlreadyExists, d') →
    ∃ i w0, wt_view d !! i = Some w0 ∧ Name w0 = Name w ∧ i ≠ ID w ∧ Name w ≠ EmptyString;
  save_kv d w r d' b k : wt_save d w = (r, d') → kv_get d' b k = kv_get d b k;
  delete_ok d w d' : wt_delete d w = (None, d') → wt_view d' = delete (ID w) (wt_view d);
  delete_err d w e d' : wt_delete d w = (Some e, d') → d' = d;
  one_name d n : n ≠ EmptyString →
    match wt_one_name d n with
    | inr w => wt_view d !! ID w = Some w ∧ Name w = n
    | inl e => e = ErrNotFound → ∀ i w, wt_view d !! i = Some w → Name w ≠ n
    end;
  one_name_err d n e : wt_one_name d n = inl e → e ≠ ErrAlreadyExists;
  kv_set_view d b k v r d' : kv_set d b k v = (r, d') → wt_view d' = wt_view d;
  kv_delete_view d b k r d' : kv_delete d b k = (r, d') → wt_view d' = wt_view d
}.

(** [bcrypt]; hashing takes a salt. *)
Class Bcrypt := {
  GenerateFromPassword : bytes → bytes → goerr + bytes;
  CompareHashAndPassword : bytes → bytes → bool
}.

(** Passwords that [bcrypt] tells apart: at most 72 bytes and no zero byte. *)
Definition bcrypt_ok (p : bytes) : Prop := length p ≤ 72 ∧ x00 ∉ p.

Class BcryptLaws `{!Bcrypt} := {
  compare_same salt p h : GenerateFromPassword salt p = inr h → CompareHashAndPassword h p = true;
  compare_other salt p q h : GenerateFromPassword salt p = inr h →
    bcrypt_ok p → bcrypt_ok q → p ≠ q → CompareHashAndPassword h q = false
}.

Section MultiWallet.
Context {D Val W S Key : Type} `{!WalletTable D, !KvStore D Val, !Internal W, !Storm S, !Crypto Key}.
Context {bcrypt : Bcrypt}.
Context (bool_c : Codec Val bool) (int32_c : Codec Val Z) (hash_c : Codec Val (option bytes)).
Context (defaultFeePerKb DefaultAccountGapLimit : Z).
Abbreviation wallet := (Wallet W S).

(** [online] is [IsConnectedToDecredNetwork], [syncing] is [IsSyncing];
    [files] are the paths that exist. *)
Record MW := mkMW {
  rootDir : string; dbDriver : string; params : string;
  mdb : D; wallets : gmap Z wallet; files : gset string; online : bool; syncing : bool }.

Definition set_db (d : D) (s : MW) : MW :=
  mkMW (rootDir s) (dbDriver s) (params s) d (wallets s) (files s) (online s) (syncing s).
Definition set_wallets (f : gmap Z wallet → gmap Z wallet) (s : MW) : MW :=
  mkMW (rootDir s) (dbDriver s) (params s) (mdb s) (f (wallets s)) (files s) (online s) (syncing s).
Definition set_files (f : gset string) (s : MW) : MW :=
  mkMW (rootDir s) (dbDriver s) (params s) (mdb s) (wallets s) f (online s) (syncing s).

(** How the calls on files and transactions end. *)
Record Faults := mkFaults {
  f_begin : option goerr; f_commit : option goerr; f_stat : option goerr;
  f_rename : option goerr; f_mkdir : option goerr;
  f_remove_all : option (goerr * gset string) }.

Definition Join (dir name : string) : string := String.append dir (String.append "/" name).

(** ** multiwallet_utils.go *)
Definition batchDbTransaction {A} (io : Faults) (dbOp : GM MW A) : GM MW A := λ s,
  match f_begin io with
  | Some err => (Err err, s)
  | None =>
      match dbOp s with
      | (Ok a, s') =>
          match f_commit io with
          | None => (Ok a, s')
          | Some err => (Err err, set_db (mdb s) s')
          end
      | (r, s') => (r, set_db (mdb s) s')
      end
  end.

Definition Save (w : WalletInfo) : GM MW WalletInfo := λ s,
  match wt_save (mdb s) w with
  | (inl err, d) => (Err err, set_db d s)
  | (inr w', d) => (Ok w', set_db d s)
  end.

Definition WalletWithID (walletID : Z) (s : MW) : option wallet := wallets s !! walletID.

Definition markWalletAsDiscoveredAccounts (walletID : Z) : GM MW unit := λ s,
  match WalletWithID walletID s with
  | None => (Err ErrNotExist, s)
  | Some w =>
      let w := set_info set_discovered w in
      (Save (info w) ;; ret tt) (set_wallets (insert walletID w) s)
  end.

(** ** multiwallet.go: names and new wallets *)
Definition is_reserved (name : string) : bool := String.prefix "wallet-" name.

Definition WalletNameExists (walletName : string) : GM MW bool := λ s,
  if is_reserved walletName then (Err ErrReservedWalletName, s)
  else match wt_one_name (mdb s) walletName with
       | inr _ => (Ok true, s)
       | inl err => if decide (err ≠ ErrNotFound) then (Err err, s) else (Ok false, s)
       end.

Definition translated_mw {A} (m : GM MW A) : GM MW A := λ s,
  match m s with (Err e, s') => (Err (translateError e), s') | r => r end.

(** An existing directory of the new wallet is moved away. *)
Definition backup_dir (io : Faults) (walletDataDir : string) : GM MW unit := λ s,
  match f_stat io with
  | Some err => (Err err, s)
  | None =>
      if decide (walletDataDir ∈ files s) then
        match backupFile (Datatypes.S (size (files s))) walletDataDir 1 (f_rename io) (files s) with
        | Some (inr _, fs) => (Ok tt, set_files fs s)
        | Some (inl err, fs) => (Err err, set_files fs s)
        | None => (Panic, s)
        end
      else (Ok tt, s)
  end.

Definition auto_name (walletID : Z) : string := String.append "wallet-" (Itoa walletID).

(** The error is dropped. *)
Definition MkdirAll (io : Faults) (dir : string) (s : MW) : MW :=
  match f_mkdir io with Some _ => s | None => set_files ({[dir]} ∪ files s) s end.

(** The operation of the batch; [setupWallet] returns the wallet it sets up. *)
Definition save_batch (io : Faults) (w : wallet) (setupWallet : wallet → GM MW wallet)
    : GM MW wallet :=
  let! i := Save (info w) in
  let! root := gets rootDir in
  let walletDataDir := Join root (Itoa (ID i)) in
  backup_dir io walletDataDir ;;
  modify (MkdirAll io walletDataDir) ;;
  let i := if decide (Name i = EmptyString) then set_Name (auto_name (ID i)) i else i in
  let! driver := gets dbDriver in
  let i := set_DbDriver driver i in
  let! i := Save i in
  setupWallet (set_info (λ _, i) w).

Definition saveNewWallet (io : Faults) (w : wallet) (setupWallet : wallet → GM MW wallet)
    : GM MW wallet :=
  let! exists_ := WalletNameExists (Name (info w)) in
  if exists_ : bool then fail ErrExist
  else
    let! connected := gets online in
    if connected : bool then fail ErrSyncAlreadyInProgress
    else
      let! w := translated_mw (batchDbTransaction io (save_batch io w setupWallet)) in
      modify (set_wallets (insert (ID (info w)) w)) ;;
      ret w.

(** A wallet that is set up by itself. *)
Definition setup_alone (setup : GM wallet unit) (w : wallet) : GM MW wallet := λ s,
  match setup w with
  | (Ok tt, w') => (Ok w', s)
  | (Err e, _) => (Err e, s)
  | (Panic, _) => (Panic, s)
  end.

Definition prepare_in (s : MW) (io : IOFaults) (fs : FS) : GM wallet unit :=
  prepare defaultFeePerKb DefaultAccountGapLimit (rootDir s) (params s) io fs.

Definition new_wallet (i : WalletInfo) (l : Loader.St (W := unit)) : wallet :=
  mkWallet i None l None false false false.

Definition CreateWatchOnlyWallet (io : Faults) (txio : IOFaults) (env : Loader.Env (W := unit))
    (l : Loader.St (W := unit)) (opened : W) (walletName : string) : GM MW wallet := λ s,
  let wallet := new_wallet (mkInfo 0 walletName 0 "" None true true 0) l in
  saveNewWallet io wallet (setup_alone
    (prepare_in s txio (TxIndex.mkFS None 0) ;; createWatchingOnlyWallet env opened)) s.

Definition CreateNewWallet (io : Faults) (txio : IOFaults) (env : Loader.Env (W := unit))
    (l : Loader.St (W := unit)) (opened : W) (GenerateSeed : goerr + string)
    (decodeSeed : string → goerr + bytes) (now : Z) (nonce : bytes)
    (walletName : string) (privatePassphrase : bytes) (privatePassphraseType : Z) : GM MW wallet :=
  λ s,
  match GenerateSeed with
  | inl err => (Err err, s)
  | inr seed =>
      match encryptWalletSeed nonce privatePassphrase seed with
      | inl err => (Err err, s)
      | inr encryptedSeed =>
          let wallet := new_wallet (mkInfo 0 walletName now "" (Some encryptedSeed) false true
                                      privatePassphraseType) l in
          saveNewWallet io wallet (setup_alone
            (prepare_in s txio (TxIndex.mkFS None 0) ;; createWallet decodeSeed env opened seed)) s
      end
  end.

Definition RestoreWallet (io : Faults) (txio : IOFaults) (env : Loader.Env (W := unit))
    (l : Loader.St (W := unit)) (opened : W) (decodeSeed : string → goerr + bytes)
    (walletName seedMnemonic : string) (privatePassphraseType : Z) : GM MW wallet := λ s,
  let wallet := new_wallet (mkInfo 0 walletName 0 "" None true false privatePassphraseType) l in
  saveNewWallet io wallet (setup_alone
    (prepare_in s txio (TxIndex.mkFS None 0) ;; createWallet decodeSeed env opened seedMnemonic)) s.

Definition move (rename : option goerr) (source destination : string) : GM MW unit := λ s,
  let '(e, fs) := moveFile source destination rename (files s) in
  (match e with Some err => Err err | None => Ok tt end, set_files fs s).

(** The set-up of a linked wallet: its two files are moved, then [start]
    prepares and opens it; the files are moved back when that fails.  Renaming
    [wallet.db] and [tx.db] fails separately. *)
Definition link_setup (rename_wallet rename_tx : option goerr) (walletDataDir : string)
    (start : GM wallet unit) (w : wallet) : GM MW wallet := λ s,
  let newDir := Join (rootDir s) (Itoa (ID (info w))) in
  (move rename_wallet (Join walletDataDir walletDbName) (Join newDir walletDbName) ;;
   move rename_tx (Join walletDataDir "tx.db") (Join newDir "tx.db") ;;
   λ s, match setup_alone start w s with
        | (Err e, s) =>
            let s := (move rename_wallet (Join newDir walletDbName)
                                         (Join walletDataDir walletDbName) s).2 in
            let s := (move rename_tx (Join newDir "tx.db") (Join walletDataDir "tx.db") s).2 in
            (Err e, s)
        | r => r
        end) s.

(** Open the wallet of a directory, use it, and unload it again. *)
Definition loadWalletTemporarily (env : Loader.Env (W := unit)) (pubPass : bytes)
    (onLoaded : option (outcome unit)) (l : Loader.St (W := unit))
    : outcome unit * Loader.St (W := unit) :=
  let pass := if decide (pubPass = []) then InsecurePubPassphrase else pubPass in
  match OpenExistingWallet env pass l with
  | (Err e, l) => (Err (translateError e), l)
  | (Panic, l) => (Panic, l)
  | (Ok _, l) => (match onLoaded with Some r => r | None => Ok tt end, (UnloadWallet env l).2)
  end.

(** [change] is the end of [ChangePublicPassphrase] on the linked wallet. *)
Definition LinkExistingWallet (io : Faults) (rename_wallet rename_tx : option goerr)
    (txio : IOFaults) (env : Loader.Env (W := unit)) (l : Loader.St (W := unit)) (opened : W)
    (change : outcome unit) (fs : FS) (walletName walletDataDir : string)
    (originalPubPass : bytes) (privatePassphraseType : Z) : GM MW wallet := λ s,
  if decide (Join walletDataDir walletDbName ∉ files s) then (Err ErrNotExist, s)
  else
    match loadWalletTemporarily env originalPubPass None l with
    | (Err e, _) => (Err e, s)
    | (Panic, _) => (Panic, s)
    | (Ok _, l) =>
        let wallet := new_wallet (mkInfo 0 walletName 0 "" None true false privatePassphraseType) l in
        saveNewWallet io wallet (link_setup rename_wallet rename_tx walletDataDir
          (prepare_in s txio fs ;;
           if decide (originalPubPass = [] ∨ originalPubPass = InsecurePubPassphrase)
           then openWallet env opened
           else on_loader (loadWalletTemporarily env originalPubPass (Some change)) ;;
                openWallet env opened)) s
    end.

(** The name changes in memory before it is saved. *)
Definition RenameWallet (walletID : Z) (newName : string) : GM MW unit :=
  if is_reserved newName then fail ErrReservedWalletName
  else
    let! exists_ := translated_mw (WalletNameExists newName) in
    if exists_ : bool then fail ErrExist
    else
      let! s := getS in
      match WalletWithID walletID s with
      | None => fail ErrInvalid
      | Some w =>
          let w := set_info (set_Name newName) w in
          modify (set_wallets (insert walletID w)) ;;
          Save (info w) ;; ret tt
      end.

Definition DeleteWallet (io : Faults) (env : Loader.Env (W := unit)) (walletID : Z)
    (privPass : bytes) : GM MW unit := λ s,
  if online s then (Err ErrSyncAlreadyInProgress, s)
  else match WalletWithID walletID s with
       | None => (Err ErrNotExist, s)
       | Some w =>
           let dataDir := Join (rootDir s) (Itoa (ID (info w))) in
           let '(r, w, fs, _) := deleteWallet env (f_remove_all io) dataDir privPass w (files s) in
           let s := set_files fs (set_wallets (insert walletID w) s) in
           match r with
           | Err e => (Err (translateError e), s)
           | Panic => (Panic, s)
           | Ok _ =>
               match wt_delete (mdb s) (info w) with
               | (Some e, d) => (Err (translateError e), set_db d s)
               | (None, d) => (Ok tt, set_wallets (delete walletID) (set_db d s))
               end
           end
       end.

(** ** Seeds and passphrases *)
Definition VerifySeedForWallet (walletID : Z) (seedMnemonic : string) (privpass : bytes)
    : GM MW bool := λ s,
  match WalletWithID walletID s with
  | None => (Err ErrNotExist, s)
  | Some w =>
      match (match EncryptedSeed (info w) with
             | Some box => decryptWalletSeed privpass box
             | None => decryptWalletSeed privpass [] end) with
      | inl err => (Err err, s)
      | inr decryptedSeed =>
          if decide (decryptedSeed = seedMnemonic) then
            let w := set_info (set_seed None) w in
            (translated_mw (Save (info w)) ;; ret true) (set_wallets (insert walletID w) s)
          else (Err ErrInvalid, s)
      end
  end.

Definition UnlockWallet (walletID : Z) (privPass : bytes) : GM MW unit := λ s,
  match WalletWithID walletID s with
  | None => (Err ErrNotExist, s)
  | Some w => let '(r, w, _) := Wallet.UnlockWallet privPass w in
              (r, set_wallets (insert walletID w) s)
  end.

(** The second change is given the passphrases that the first has overwritten. *)
Definition ChangePrivatePassphraseForWallet (nonce : bytes) (walletID : Z)
    (oldPrivatePassphrase newPrivatePassphrase : bytes) (privatePassphraseType : Z) : GM MW unit :=
  λ s,
  if decide (privatePassphraseType ≠ PassphraseTypePin ∧ privatePassphraseType ≠ PassphraseTypePass)
  then (Err ErrInvalid, s)
  else match WalletWithID walletID s with
  | None => (Err ErrInvalid, s)
  | Some w =>
      match (match EncryptedSeed (info w) with
             | None => inr None
             | Some box =>
                 match decryptWalletSeed oldPrivatePassphrase box with
                 | inl err => inl err
                 | inr decryptedSeed =>
                     match encryptWalletSeed nonce newPrivatePassphrase decryptedSeed with
                     | inl err => inl err
                     | inr box => inr (Some box)
                     end
                 end
             end) with
      | inl err => (Err err, s)
      | inr encryptedSeed =>
          let '(r, w, (oldPass, newPass)) :=
            changePrivatePassphrase oldPrivatePassphrase newPrivatePassphrase w in
          let s := set_wallets (insert walletID w) s in
          match r with
          | Err e => (Err (translateError e), s)
          | Panic => (Panic, s)
          | Ok _ =>
              let w := set_info (λ i, set_pass_type privatePassphraseType
                                        (set_seed encryptedSeed i)) w in
              let s := set_wallets (insert walletID w) s in
              match Save (info w) s with
              | (Ok _, s) => (Ok tt, s)
              | (Panic, s) => (Panic, s)
              | (Err _, s) =>
                  let '(r2, w, _) := changePrivatePassphrase newPass oldPass w in
                  let s := set_wallets (insert walletID w) s in
                  match r2 with
                  | Err _ => (Err ErrSavingWallet, s)
                  | Panic => (Panic, s)
                  | Ok _ => (Err ErrChangingPassphrase, s)
                  end
              end
          end
      end
  end.

(** ** The startup passphrase *)
Definition walletsMetadataBucketName : string := "metadata".
Definition walletstartupPassphraseField : string := "startup-passphrase".
Definition ErrStartupPassphrase : goerr := EWrap KOther ErrInvalidPassphrase.

(** On the database alone. *)
Definition VerifyStartupPassphrase (startupPassphrase : bytes) (d : D) : option goerr :=
  let '(startupPassphraseHash, err) :=
    decode_out hash_c (kv_get d walletsMetadataBucketName walletstartupPassphraseField) in
  if decide (err ≠ None ∧ err ≠ Some ErrKeyNotFound) then err
  else match startupPassphraseHash with
       | None => if decide (startupPassphrase ≠ []) then Some ErrStartupPassphrase else None
       | Some h => if CompareHashAndPassword h startupPassphrase then None
                   else Some ErrStartupPassphrase
       end.

Definition RemoveStartupPassphrase (oldPassphrase : bytes) : GM D unit := λ d,
  match VerifyStartupPassphrase oldPassphrase d with
  | Some err => (Err err, d)
  | None =>
      match kv_delete d walletsMetadataBucketName walletstartupPassphraseField with
      | (Some err, d) => (Err err, d)
      | (None, d) =>
          let d := SaveUserConfigValue IsStartupSecuritySetConfigKey (enc bool_c false) d in
          (Ok tt, DeleteUserConfigValueForKey StartupSecurityTypeConfigKey d)
      end
  end.

Definition ChangeStartupPassphrase (salt oldPassphrase newPassphrase : bytes) (passphraseType : Z)
    : GM D unit := λ d,
  if decide (newPassphrase = []) then RemoveStartupPassphrase oldPassphrase d
  else match VerifyStartupPassphrase oldPassphrase d with
  | Some err => (Err err, d)
  | None =>
      match GenerateFromPassword salt newPassphrase with
      | inl err => (Err err, d)
      | inr startupPassphraseHash =>
          match kv_set d walletsMetadataBucketName walletstartupPassphraseField
                       (enc hash_c (Some startupPassphraseHash)) with
          | (Some err, d) => (Err err, d)
          | (None, d) =>
              let d := SaveUserConfigValue IsStartupSecuritySetConfigKey (enc bool_c true) d in
              (Ok tt, SaveUserConfigValue StartupSecurityTypeConfigKey
                        (enc int32_c passphraseType) d)
          end
      end
  end.

Definition SetStartupPassphrase (salt passphrase : bytes) (passphraseType : Z) : GM D unit :=
  ChangeStartupPassphrase salt [] passphrase passphraseType.

Definition IsStartupSecuritySet (d : D) : bool :=
  ReadBoolConfigValueForKey bool_c IsStartupSecuritySetConfigKey false d.
Definition StartupSecurityType (d : D) : Z :=
  ReadInt32ConfigValueForKey int32_c StartupSecurityTypeConfigKey PassphraseTypePass d.

(** ** Loading, opening and counting *)

(** The wallets of the database are prepared in the order of their ids. *)
Fixpoint prepare_all (txio : Z → IOFaults) (fs : Z → FS) (l : Z → Loader.St (W := unit))
    (saved : list WalletInfo) (s : MW) : outcome unit * MW :=
  match saved with
  | [] => (Ok tt, s)
  | i :: saved =>
      match prepare_in s (txio (ID i)) (fs (ID i)) (new_wallet i (l (ID i))) with
      | (Ok tt, w) => prepare_all txio fs l saved (set_wallets (insert (ID i) w) s)
      | (Err e, _) => (Err e, s)
      | (Panic, _) => (Panic, s)
      end
  end.

(** [wallet.openWallet] of the wallets in the order of the map. *)
Fixpoint open_all (env : Z → Loader.Env (W := unit)) (opened : Z → W) (ids : list Z)
    : GM MW unit := λ s,
  match ids with
  | [] => (Ok tt, s)
  | i :: ids =>
      match wallets s !! i with
      | None => (Panic, s)
      | Some w =>
          match openWallet (env i) (opened i) w with
          | (Ok tt, w) => open_all env opened ids (set_wallets (insert i w) s)
          | (r, w) => (r, set_wallets (insert i w) s)
          end
      end
  end.

Definition OpenWallets (env : Z → Loader.Env (W := unit)) (opened : Z → W)
    (startupPassphrase : bytes) : GM MW unit := λ s,
  if syncing s then (Err ErrSyncAlreadyInProgress, s)
  else match VerifyStartupPassphrase startupPassphrase (mdb s) with
       | Some err => (Err err, s)
       | None => open_all env opened (map_to_list (wallets s)).*1 s
       end.

Definition AllWalletsAreWatchOnly (s : MW) : goerr + bool :=
  if decide (wallets s = ∅) then inl ErrInvalid
  else inr (forallb IsWatchingOnlyWallet (map_to_list (wallets s)).*2).

Definition counted (P : wallet → bool) (s : MW) : Z :=
  zlen (filter (λ w, P w = true) (map_to_list (wallets s)).*2).

Definition NumWalletsNeedingSeedBackup (s : MW) : Z :=
  wrap32 (counted (λ w, WalletOpened w && bool_decide (EncryptedSeed (info w) ≠ None)) s).
Definition LoadedWalletsCount (s : MW) : Z := wrap32 (Z.of_nat (size (wallets s))).
Definition OpenedWalletIDsRaw (s : MW) : list Z :=
  (λ w, ID (info w)) <$> filter (λ w, WalletOpened w = true) (map_to_list (wallets s)).*2.
Definition OpenedWalletsCount (s : MW) : Z := wrap32 (zlen (OpenedWalletIDsRaw s)).
Definition SyncedWalletsCount (s : MW) : Z :=
  wrap32 (counted (λ w, WalletOpened w && synced w) s).

(** ** Theorems *)
Context `{!WalletTableLaws D Val, !KvStoreLaws D Val, !InternalLaws W, !CryptoLaws Key}.
Context {bcrypt_laws : BcryptLaws}.

(** The set-up changes neither the database nor the wallets in memory, nor
    what is saved of the wallet. *)
Definition setup_frame (setup : wallet → GM MW wallet) : Prop :=
  ∀ w s r s', setup w s = (r, s') →
    mdb s' = mdb s ∧ wallets s' = wallets s ∧ ∀ w', r = Ok w' → info w' = info w.

Lemma backup_dir_frame (io : Faults) (dir : string) (s s' : MW) (r : outcome unit) :
  backup_dir io dir s = (r, s') →
  mdb s' = mdb s ∧ wallets s' = wallets s ∧ dbDriver s' = dbDriver s ∧
  (r = Ok tt ∨ ∃ e, r = Err e ∧ (f_stat io = Some e ∨ f_rename io = Some e)).
Proof.
  unfold backup_dir. intros H. destruct (f_stat io) as [e|]; [injection H as <- <-; by eauto 10|].
  case_decide; [|by injection H as <- <-; auto].
  destruct (backupFile_ends (Datatypes.S (size (files s))) dir 1 (f_rename io) (files s))
    as [[[e|n] fs] E]; [lia..| |]; rewrite E in H; injection H as <- <-; [|by auto].
  apply backupFile_error in E as [? _]. by eauto 10.
Qed.

(** An error of the file system is not one of the database. *)
Definition faults_ok (io : Faults) : Prop :=
  Forall (λ f, f ≠ Some ErrAlreadyExists)
    [f_begin io; f_commit io; f_stat io; f_rename io].

Lemma WalletNameExists_cases (name : string) (s s' : MW) (r : outcome bool) :
  WalletNameExists name s = (r, s') →
  s' = s ∧ r ≠ Panic ∧
  (r = Ok false → is_reserved name = false ∧
     (name ≠ EmptyString → ∀ i w, wt_view (mdb s) !! i = Some w → Name w ≠ name)).
Proof.
  unfold WalletNameExists. destruct (is_reserved name) eqn:Er; [by intros [= <- <-]|].
  destruct (wt_one_name (mdb s) name) as [e|w] eqn:Eo; [|by intros [= <- <-]].
  case_decide as He; intros [= <- <-]; [done|]. split_and!; [done..|]. intros _. split; [done|].
  intros Hne. pose proof (one_name (mdb s) name Hne) as H. rewrite Eo in H. apply H.
  by destruct (decide (e = ErrNotFound)).
Qed.

Definition new_name (w : WalletInfo) (i : Z) : string :=
  if decide (Name w = EmptyString) then auto_name i else Name w.

Lemma MkdirAll_frame (io : Faults) (dir : string) (s : MW) :
  mdb (MkdirAll io dir s) = mdb s ∧ wallets (MkdirAll io dir s) = wallets s ∧
  dbDriver (MkdirAll io dir s) = dbDriver s.
Proof. unfold MkdirAll. by destruct (f_mkdir io). Qed.

(** What is saved in the end for a wallet that gets this id. *)
Definition final_info (driver : string) (i : Z) (w : WalletInfo) : WalletInfo :=
  set_DbDriver driver (set_Name (new_name w i) (set_ID i w)).

(** The batch stops at the first save, or for an error of the file system, or
    at the second save, or ends with the set-up. *)
Lemma save_batch_cases (io : Faults) (w : wallet) (setup : wallet → GM MW wallet) (s s' : MW)
    (r : outcome wallet) :
  ID (info w) = 0%Z → save_batch io w setup s = (r, s') →
  (wallets s' = wallets s ∧ ∃ e, r = Err e ∧ wt_save (mdb s) (info w) = (inl e, mdb s')) ∨
  ∃ i d1, (0 < i)%Z ∧ wt_view (mdb s) !! i = None ∧
    wt_save (mdb s) (info w) = (inr (set_ID i (info w)), d1) ∧
    wt_view d1 = <[i := set_ID i (info w)]> (wt_view (mdb s)) ∧
    let final := final_info (dbDriver s) i (info w) in
    ((wallets s' = wallets s ∧
      ∃ e, r = Err e ∧ (f_stat io = Some e ∨ f_rename io = Some e)) ∨
     (wallets s' = wallets s ∧ ∃ e, r = Err e ∧ wt_save d1 final = (inl e, mdb s')) ∨
     ∃ s2, wallets s2 = wallets s ∧ wt_save d1 final = (inr final, mdb s2) ∧
       setup (set_info (λ _, final) w) s2 = (r, s')).
Proof.
  intros H0 H. unfold save_batch, bind, Save, gets, modify in H.
  destruct (wt_save (mdb s) (info w)) as [[e|i1] d1] eqn:E1; [injection H as <- <-; by eauto|].
  destruct (save_new _ _ _ _ H0 E1) as (Hi1 & Hfresh & Hview).
  assert (Hpos : (0 < ID i1)%Z).
  { apply (view_id d1 (ID i1) i1). rewrite Hview. apply lookup_insert_eq. }
  right. exists (ID i1), d1. rewrite <- Hi1. split_and!; [done..|].
  assert (Hfin : set_DbDriver (dbDriver s)
    (if decide (Name i1 = EmptyString) then set_Name (auto_name (ID i1)) i1 else i1) =
    final_info (dbDriver s) (ID i1) (info w)).
  { clear -Hi1. unfold final_info, new_name. destruct i1, (info w). unfold set_ID in Hi1.
    simpl in Hi1. injection Hi1 as -> -> -> -> -> -> ->. simpl. by case_decide. }
  destruct (backup_dir io _ _) as [r1 s1] eqn:Eb.
  apply backup_dir_frame in Eb as (Hd & Hw & Hdr & Hr1). simpl in Hd, Hw, Hdr.
  destruct Hr1 as [->|(e & -> & He)]; [|injection H as <- <-; left; by eauto].
  right. simpl in H.
  destruct (MkdirAll_frame io (Join (rootDir s) (Itoa (ID i1))) s1) as (Hm & Hmw & Hmd).
  rewrite Hm, Hmd, Hd, Hdr, Hfin in H.
  destruct (wt_save d1 _) as [[e|i2] d2] eqn:E2.
  - injection H as <- <-. left. simpl. rewrite Hmw. by eauto.
  - right. destruct (save_old d1 (final_info (dbDriver s) (ID i1) (info w)) i2 d2) as [-> _];
      [simpl; lia|done|].
    eexists. split; [|split; [|exact H]]; [by simpl; rewrite Hmw|done].
Qed.

Lemma save_batch_ok (io : Faults) (w w' : wallet) (setup : wallet → GM MW wallet) (s s' : MW) :
  setup_frame setup → ID (info w) = 0%Z → save_batch io w setup s = (Ok w', s') →
  let i := ID (info w') in
  (0 < i)%Z ∧ wt_view (mdb s) !! i = None ∧ wallets s' = wallets s ∧
  info w' = final_info (dbDriver s) i (info w) ∧
  wt_view (mdb s') = <[i := info w']> (wt_view (mdb s)).
Proof.
  intros Hsetup H0 H. apply save_batch_cases in H as [(_ & e & ? & _)|H]; [done| |done].
  destruct H as (i & d1 & Hi & Hfresh & E1 & Hv1 & H). simpl in H.
  destruct H as [(_ & e & ? & _)|[(_ & e & ? & _)|(s2 & Hw2 & E2 & H)]]; [done..|].
  destruct (Hsetup _ _ _ _ H) as (Hd & Hw & Hinfo). specialize (Hinfo _ eq_refl). simpl in Hinfo.
  rewrite Hinfo, Hd, Hw, Hw2. simpl. split_and!; [done..|].
  destruct (save_old d1 (final_info (dbDriver s) i (info w)) _ _ ltac:(simpl; lia) E2) as [_ ->].
  by rewrite Hv1, insert_insert_eq.
Qed.

Lemma save_batch_wallets (io : Faults) (w : wallet) (setup : wallet → GM MW wallet) (s s' : MW)
    (r : outcome wallet) :
  setup_frame setup → ID (info w) = 0%Z → save_batch io w setup s = (r, s') →
  wallets s' = wallets s.
Proof.
  intros Hsetup H0 Eb. apply save_batch_cases in Eb as [(Hw & _)|Eb]; [done| |done].
  destruct Eb as (i & d1 & _ & _ & _ & _ & [(Hw & _)|[(Hw & _)|(s2 & Hw2 & _ & Es)]]); [done..|].
  destruct (Hsetup _ _ _ _ Es) as (_ & Hw & _). by rewrite Hw.
Qed.

Definition save_post (w : wallet) (s s' : MW) (r : outcome wallet) : Prop :=
  match r with
  | Ok w' =>
      let i := ID (info w') in
      (0 < i)%Z ∧ wt_view (mdb s) !! i = None ∧ online s = false ∧
      info w' = final_info (dbDriver s) i (info w) ∧
      wt_view (mdb s') = <[i := info w']> (wt_view (mdb s)) ∧
      wallets s' = <[i := w']> (wallets s)
  | _ => mdb s' = mdb s ∧ wallets s' = wallets s
  end.

Lemma saveNewWallet_cases (io : Faults) (w : wallet) (setup : wallet → GM MW wallet)
    (s s' : MW) (r : outcome wallet) :
  setup_frame setup → ID (info w) = 0%Z → saveNewWallet io w setup s = (r, s') →
  save_post w s s' r ∧ (∀ w', r = Ok w' → is_reserved (Name (info w)) = false).
Proof.
  intros Hsetup H0 H. unfold saveNewWallet, bind, gets, translated_mw in H.
  destruct (WalletNameExists (Name (info w)) s) as [r0 s0] eqn:E0.
  apply WalletNameExists_cases in E0 as (-> & Hr0 & Hname).
  destruct r0 as [[]|e|]; [by injection H as <- <-| |by injection H as <- <-|done].
  destruct (Hname eq_refl) as [Hres _].
  destruct (online s) eqn:Eon; [by injection H as <- <-|].
  unfold batchDbTransaction in H. destruct (f_begin io); [by injection H as <- <-|].
  destruct (save_batch io w setup s) as [[w'|e|] s1] eqn:Eb.
  - apply save_batch_ok in Eb as (Hi & Hf & Hw & Hinfo & Hv); [|done..].
    destruct (f_commit io); injection H as <- <-; simpl; [by rewrite Hw|].
    rewrite Hw. by split_and!.
  - injection H as <- <-. split; [|done]. split; [done|].
    exact (save_batch_wallets _ _ _ _ _ _ Hsetup H0 Eb).
  - injection H as <- <-. split; [|done]. split; [done|].
    exact (save_batch_wallets _ _ _ _ _ _ Hsetup H0 Eb).
Qed.

(** C9. Adding a wallet is atomic: on success it is in the database and in
    memory under a new positive id, with the name asked for, or the automatic
    one when there was none, and nothing else has changed; on failure, wherever
    it happens (a name that is taken, the network, the file system, the set-up
    of the wallet, the commit), database and wallets are as before. *)
Theorem saveNewWallet_atomic (io : Faults) (w : wallet) (setup : wallet → GM MW wallet)
    (s s' : MW) (r : outcome wallet) :
  setup_frame setup → ID (info w) = 0%Z → saveNewWallet io w setup s = (r, s') →
  save_post w s s' r.
Proof. intros. by eapply saveNewWallet_cases. Qed.

(** *** Names

    A reserved name belongs to the wallet whose id it holds. *)
Definition name_ok (i : Z) (w : WalletInfo) : Prop :=
  is_reserved (Name w) = true → Name w = auto_name i.

Record names_inv (s : MW) : Prop := {
  names_db : ∀ i w, wt_view (mdb s) !! i = Some w → name_ok i w;
  names_mem : ∀ i w, wallets s !! i = Some w →
    (0 < i)%Z ∧ ID (info w) = i ∧ name_ok i (info w) }.

(** The operations that save wallets, with everything they depend on. *)
Inductive names_step : MW → MW → Prop :=
| N_save io w setup s s' r :
    setup_frame setup → ID (info w) = 0%Z →
    saveNewWallet io w setup s = (r, s') → names_step s s'
| N_rename i n s s' r : RenameWallet i n s = (r, s') → names_step s s'
| N_delete io env i p s s' r : DeleteWallet io env i p s = (r, s') → names_step s s'
| N_verify i seed p s s' r : VerifySeedForWallet i seed p s = (r, s') → names_step s s'
| N_change nonce i p q t s s' r :
    ChangePrivatePassphraseForWallet nonce i p q t s = (r, s') → names_step s s'
| N_discovered i s s' r : markWalletAsDiscoveredAccounts i s = (r, s') → names_step s s'.

Lemma reserved_auto_name (i : Z) : is_reserved (auto_name i) = true.
Proof. unfold is_reserved, auto_name. simpl. by destruct (Itoa i). Qed.

Lemma Save_cases (w : WalletInfo) (s s' : MW) (r : outcome WalletInfo) :
  ID w ≠ 0%Z → Save w s = (r, s') →
  wallets s' = wallets s ∧ online s' = online s ∧
  ((r = Ok w ∧ wt_view (mdb s') = <[ID w := w]> (wt_view (mdb s))) ∨
   ((∃ e, r = Err e) ∧ mdb s' = mdb s)).
Proof.
  intros H0. unfold Save. destruct (wt_save (mdb s) w) as [[e|w'] d] eqn:E; intros [= <- <-].
  - split_and!; [done..|]. right. split; [by eauto|]. by apply save_err in E.
  - split_and!; [done..|]. left. by destruct (save_old _ _ _ _ H0 E) as [-> ?].
Qed.

(** Putting a wallet with an allowed name in memory, and saving it or not. *)
Lemma names_insert (i : Z) (w : wallet) (s s' : MW) :
  names_inv s → (0 < i)%Z → ID (info w) = i → name_ok i (info w) →
  wallets s' = <[i := w]> (wallets s) →
  wt_view (mdb s') = wt_view (mdb s) ∨
    (∃ v, name_ok i v ∧ wt_view (mdb s') = <[i := v]> (wt_view (mdb s))) →
  names_inv s'.
Proof.
  intros [Hd Hm] Hi Hid Hn Hw Hv. split.
  - destruct Hv as [->|(v & Hnv & ->)]; [done|]. intros j x.
    rewrite lookup_insert_Some. intros [[<- <-]|[_ ?]]; [done|by apply Hd].
  - intros j x. rewrite Hw, lookup_insert_Some. intros [[<- <-]|[_ ?]]; [done|by apply Hm].
Qed.

Lemma names_same (s s' : MW) :
  names_inv s → wallets s' = wallets s → mdb s' = mdb s → names_inv s'.
Proof. intros [Hd Hm] Hw Hv. split; rewrite ?Hw, ?Hv; done. Qed.

Lemma on_internal_info (f : W → option goerr * W) (w w' : wallet) (r : outcome unit) :
  on_internal f w = (r, w') → info w' = info w.
Proof.
  unfold on_internal. destruct (internal w) as [i|]; [|by intros [= <- <-]].
  destruct (f i). by intros [= <- <-].
Qed.

Lemma translated_info {A} (m : GM wallet A) (w w' : wallet) (r : outcome A) :
  (∀ r w', m w = (r, w') → info w' = info w) → translated m w = (r, w') → info w' = info w.
Proof.
  intros Hm. unfold translated. destruct (m w) as [[a|e|] w1] eqn:E; intros [= <- <-]; eauto.
Qed.

Lemma change_info (p q : bytes) (w w' : wallet) (r : outcome unit) b :
  changePrivatePassphrase p q w = (r, w', b) → info w' = info w ∧ b = (zeroed p, zeroed q).
Proof.
  unfold changePrivatePassphrase. intros [= H <-]. split; [|done].
  eapply translated_info; [|exact H]. intros ??. apply on_internal_info.
Qed.

Lemma Shutdown_info (env : Loader.Env (W := unit)) (w : wallet) :
  info (Shutdown env w) = info w.
Proof.
  unfold Shutdown.
  set (w1 := if is_loaded w then set_loader (UnloadWallet env (loader w)).2 w else w).
  transitivity (info w1); [by destruct (txDB w1)|]. unfold w1. by destruct (is_loaded w).
Qed.

Lemma removed_data_info (dir : string) (fault : option (goerr * gset string)) (w : wallet) :
  info (removed_data dir fault w) = info w.
Proof.
  unfold removed_data. cbn [txDB set_loader]. destruct (txDB w); [|done]. by case_match.
Qed.

(** Unlocking comes before anything else: when it fails, the data are where
    they were. *)
Lemma deleteWallet_cases (env : Loader.Env (W := unit)) (fault : option (goerr * gset string))
    (dir : string) (p : bytes) (w w' : wallet) (fs fs' : gset string) (r : outcome unit) q :
  deleteWallet env fault dir p w fs = (r, w', fs', q) →
  q = zeroed p ∧ info w' = info w ∧
  ((r = match fault with None => Ok tt | Some (e, _) => Err e end ∧
    fs' = (RemoveAll dir fault fs).2 ∧
    ∀ x, internal w = Some x → WatchingOnly x = true ∨ (Unlock p x).1 = None) ∨
   (r ≠ Ok tt ∧ fs' = fs ∧ loader w' = loader w ∧ txDB w' = txDB w)).
Proof.
  unfold deleteWallet. destruct (is_loaded w) eqn:El; cbn [negb].
  2:{ intros [= <- <- <- <-]. split_and!; auto. }
  assert (Hremove : ∀ w1, info w1 = info w →
    (∀ x, internal w = Some x → WatchingOnly x = true ∨ (Unlock p x).1 = None) →
    (let '(err, files) := RemoveAll dir fault fs in
       (match err with Some e => Err e | None => Ok tt end,
        removed_data dir fault (Shutdown env w1), files, zeroed p)) = (r, w', fs', q) →
    q = zeroed p ∧ info w' = info w ∧
    ((r = match fault with None => Ok tt | Some (e, _) => Err e end ∧
      fs' = (RemoveAll dir fault fs).2 ∧
      ∀ x, internal w = Some x → WatchingOnly x = true ∨ (Unlock p x).1 = None) ∨
     (r ≠ Ok tt ∧ fs' = fs ∧ loader w' = loader w ∧ txDB w' = txDB w))).
  { intros w1 Hi Hp. destruct (RemoveAll dir fault fs) as [err fs1] eqn:Er. intros [= <- <- <- <-].
    split; [done|]. split; [by rewrite removed_data_info, Shutdown_info|]. left.
    split_and!; [|done|done]. unfold RemoveAll in Er. destruct fault as [[e rem]|]; by injection Er as <- _. }
  destruct (IsWatchingOnlyWallet w) eqn:Ewo; cbn [negb].
  { apply Hremove; [done|]. intros x Hx. left. unfold IsWatchingOnlyWallet in Ewo.
    by rewrite El, Hx in Ewo. }
  unfold bind, translated, on_internal. destruct (internal w) as [x|] eqn:Ex.
  2:{ intros [= <- <- <- <-]. split_and!; auto. }
  destruct (Unlock p x) as [[e|] x1] eqn:Eu.
  { intros [= <- <- <- <-]. split; [done|]. split; [done|]. right. by split_and!. }
  cbn [internal set_internal]. apply Hremove; [done|]. intros y [= <-].
  right. by rewrite Eu.
Qed.

Lemma name_ok_unreserved (i : Z) (w : WalletInfo) : is_reserved (Name w) = false → name_ok i w.
Proof. unfold name_ok. congruence. Qed.

(** A wallet that is saved under the name it has. *)
Lemma names_Save (i : Z) (w : wallet) (s s1 s' : MW) (r : outcome WalletInfo) :
  names_inv s → (0 < i)%Z → ID (info w) = i → name_ok i (info w) →
  wallets s1 = <[i := w]> (wallets s) → mdb s1 = mdb s →
  Save (info w) s1 = (r, s') → names_inv s'.
Proof.
  intros Hinv Hi Hid Hn Hw1 Hd1 HS. apply Save_cases in HS as (Hw & _ & Hc); [|lia].
  eapply (names_insert i w); [done..|by rewrite Hw|]. rewrite Hid, Hd1 in Hc.
  destruct Hc as [[_ Hv]|[_ Hv]]; [right; by eauto|left; by rewrite Hv].
Qed.

Lemma save_names (io : Faults) (w : wallet) (setup : wallet → GM MW wallet) (s s' : MW)
    (r : outcome wallet) :
  setup_frame setup → ID (info w) = 0%Z → saveNewWallet io w setup s = (r, s') →
  names_inv s → names_inv s'.
Proof.
  intros Hsetup H0 H Hinv. apply saveNewWallet_cases in H as [Hpost Hres]; [|done..].
  destruct r as [w'|e|]; simpl in Hpost; [|destruct Hpost; by eapply names_same..].
  destruct Hpost as (Hi & _ & _ & Hinfo & Hv & Hw).
  assert (Hok : name_ok (ID (info w')) (info w')).
  { rewrite Hinfo. unfold name_ok, final_info, new_name. simpl. case_decide; [done|].
    by rewrite (Hres _ eq_refl). }
  eapply (names_insert (ID (info w')) w'); [done..|]. right. eauto.
Qed.

Lemma change_names (nonce : bytes) (i : Z) (p q : bytes) (t : Z) (s s' : MW) (r : outcome unit) :
  ChangePrivatePassphraseForWallet nonce i p q t s = (r, s') → names_inv s → names_inv s'.
Proof.
  unfold ChangePrivatePassphraseForWallet. intros H Hinv. case_decide; [by injection H as <- <-|].
  unfold WalletWithID in H. destruct (wallets s !! i) as [w|] eqn:Ew; [|by injection H as <- <-].
  destruct (names_mem s Hinv i w Ew) as (Hi & Hid & Hn).
  destruct (match EncryptedSeed (info w) with Some _ => _ | None => _ end) as [e|box];
    [by injection H as <- <-|].
  destruct (changePrivatePassphrase p q w) as [[r1 w1] [p1 q1]] eqn:E1.
  apply change_info in E1 as [Hi1 _].
  assert (Hmem : ∀ w2 s2, info w2 = info w → wallets s2 = <[i := w2]> (wallets s) →
    mdb s2 = mdb s → names_inv s2).
  { intros w2 s2 Hinfo Hw2 Hd2. eapply (names_insert i w2); rewrite ?Hinfo; [done..|].
    left. by rewrite Hd2. }
  destruct r1 as [[]|e|]; [|by injection H as <- <-; eapply Hmem..].
  set (w2 := set_info _ w1) in H.
  assert (H2 : ID (info w2) = i ∧ name_ok i (info w2)).
  { unfold w2. simpl. by rewrite Hi1. }
  destruct H2 as [Hid2 Hn2].
  destruct (Save (info w2) _) as [rs s3] eqn:Es.
  assert (Hw3 : wallets s3 = <[i := w2]> (wallets s)).
  { apply Save_cases in Es as (-> & _); [|lia]. simpl. by rewrite insert_insert_eq. }
  assert (Hinv3 : names_inv s3).
  { eapply (names_Save i w2 s); [done..| | |exact Es]; [|done].
    simpl. by rewrite insert_insert_eq. }
  destruct rs as [v|e|]; [by injection H as <- <-| |by injection H as <- <-].
  destruct (changePrivatePassphrase q1 p1 w2) as [[r4 w4] b4] eqn:E4.
  apply change_info in E4 as [Hi4 _].
  assert (Hinv4 : names_inv (set_wallets (insert i w4) s3)).
  { eapply (names_insert i w4 s3); rewrite ?Hi4; [done..|by left]. }
  destruct r4; by injection H as <- <-.
Qed.

Lemma names_step_inv (s s' : MW) : names_step s s' → names_inv s → names_inv s'.
Proof.
  destruct 1 as [io w setup s s' r Hsetup H0 H|i n s s' r H|io env i p s s' r H|i seed p s s' r H
    |nonce i p q t s s' r H|i s s' r H]; intros Hinv.
  - by eapply save_names.
  - unfold RenameWallet in H. destruct (is_reserved n) eqn:En; [by injection H as <- <-|].
    unfold bind, translated_mw in H. destruct (WalletNameExists n s) as [r0 s0] eqn:E0.
    apply WalletNameExists_cases in E0 as (-> & Hr0 & _).
    destruct r0 as [[]|e|]; [by injection H as <- <-| |by injection H as <- <-|done].
    unfold getS, WalletWithID in H.
    destruct (wallets s !! i) as [w|] eqn:Ew; [|by injection H as <- <-].
    destruct (names_mem s Hinv i w Ew) as (Hi & Hid & _). unfold modify in H.
    destruct (Save _ _) as [rs s1] eqn:Es.
    assert (s' = s1) as -> by (destruct rs; by injection H as <- <-).
    eapply (names_Save i (set_info (set_Name n) w) s); [..|exact Es]; try done.
    by apply name_ok_unreserved.
  - unfold DeleteWallet in H. destruct (online s); [by injection H as <- <-|].
    unfold WalletWithID in H. destruct (wallets s !! i) as [w|] eqn:Ew; [|by injection H as <- <-].
    destruct (names_mem s Hinv i w Ew) as (Hi & Hid & Hn).
    destruct (deleteWallet env _ _ p w _) as [[[r1 w1] fs1] q1] eqn:Ed.
    apply deleteWallet_cases in Ed as (_ & Ed & _).
    assert (Hinv1 : names_inv (set_files fs1 (set_wallets (insert i w1) s))).
    { eapply (names_insert i w1 s); rewrite ?Ed; [done..|by left]. }
    destruct r1 as [[]|e|]; [|by injection H as <- <-..].
    destruct (wt_delete _ _) as [[e|] d] eqn:Et; injection H as <- <-.
    + apply delete_err in Et as ->. done.
    + apply delete_ok in Et. destruct Hinv1 as [Hd Hm]. split; simpl in *.
      * intros j x. rewrite Et, lookup_delete_Some. intros [_ ?]. by apply Hd.
      * intros j x. rewrite lookup_delete_Some. intros [_ ?]. by apply Hm.
  - unfold VerifySeedForWallet, WalletWithID in H.
    destruct (wallets s !! i) as [w|] eqn:Ew; [|by injection H as <- <-].
    destruct (names_mem s Hinv i w Ew) as (Hi & Hid & Hn).
    destruct (match EncryptedSeed (info w) with Some _ => _ | None => _ end) as [e|m];
      [by injection H as <- <-|]. case_decide; [|by injection H as <- <-].
    unfold bind, translated_mw in H. destruct (Save _ _) as [rs s1] eqn:Es.
    assert (s' = s1) as -> by (destruct rs; by injection H as <- <-).
    by eapply (names_Save i (set_info (set_seed None) w) s); [..|exact Es].
  - by eapply change_names.
  - unfold markWalletAsDiscoveredAccounts, WalletWithID in H.
    destruct (wallets s !! i) as [w|] eqn:Ew; [|by injection H as <- <-].
    destruct (names_mem s Hinv i w Ew) as (Hi & Hid & Hn).
    unfold bind in H. destruct (Save _ _) as [rs s1] eqn:Es.
    assert (s' = s1) as -> by (destruct rs; by injection H as <- <-).
    by eapply (names_Save i (set_info set_discovered w) s); [..|exact Es].
Qed.

Lemma translate_exists (e : goerr) : translateError e = ErrAlreadyExists → e = ErrAlreadyExists.
Proof. unfold translateError. destruct (err_kind e) as [[]|]; done. Qed.

Lemma auto_name_inj (i j : Z) : (0 ≤ i)%Z → (0 ≤ j)%Z → auto_name i = auto_name j → i = j.
Proof. intros Hi Hj H%append_inj_l. by apply Itoa_inj. Qed.

Lemma batch_never_taken (io : Faults) (w : wallet) (setup : wallet → GM MW wallet) (s s' : MW) :
  names_inv s → ID (info w) = 0%Z → faults_ok io →
  (∀ w s s', setup w s ≠ (Err ErrAlreadyExists, s')) →
  is_reserved (Name (info w)) = false →
  (Name (info w) ≠ EmptyString → ∀ i v, wt_view (mdb s) !! i = Some v → Name v ≠ Name (info w)) →
  save_batch io w setup s ≠ (Err ErrAlreadyExists, s').
Proof.
  intros Hinv H0 Hio Hsetup Hres Hfree H. apply save_batch_cases in H as [(_ & e & [= <-] & E1)|H];
    [| |done].
  { apply save_taken in E1 as (i & v & Hv & Hn & _ & Hne). by eapply Hfree. }
  destruct H as (i & d1 & Hi & Hfresh & _ & Hv1 & H). simpl in H.
  destruct H as [(_ & e & [= <-] & He)|[(_ & e & [= <-] & E2)|(s2 & _ & _ & Es)]].
  - unfold faults_ok in Hio. rewrite !Forall_cons in Hio. tauto.
  - apply save_taken in E2 as (j & v & Hv & Hn & Hij & _). simpl in Hn, Hij.
    rewrite Hv1, lookup_insert_ne in Hv by congruence. unfold new_name in Hn.
    case_decide as Hempty; [|by eapply Hfree].
    destruct (view_id _ _ _ Hv) as [_ Hj].
    assert (Name v = auto_name j) as Hj'.
    { apply (names_db s Hinv j v Hv). rewrite Hn. apply reserved_auto_name. }
    apply Hij, auto_name_inj; [lia..|congruence].
  - by eapply Hsetup.
Qed.

(** C8. The prefix that names of users may not have does what it is for: from
    an empty database, after any sequence of operations that add, rename,
    delete or change wallets, whether they succeed or fail, adding a wallet is
    never refused by the table because the name asked for, or the automatic
    name of a wallet that asked for none, is there already.  A name that is there
    is refused before, with the error for it and nothing changed (unless the
    table cannot be read).  The file system, the transaction and the set-up are
    assumed not to fail with this error of the table. *)
Theorem auto_names_never_taken (io : Faults) (w : wallet) (setup : wallet → GM MW wallet)
    (s0 s s' : MW) (r : outcome wallet) :
  wt_view (mdb s0) = ∅ → wallets s0 = ∅ → rtc names_step s0 s →
  ID (info w) = 0%Z → faults_ok io → (∀ w s s', setup w s ≠ (Err ErrAlreadyExists, s')) →
  saveNewWallet io w setup s = (r, s') →
  r ≠ Err ErrAlreadyExists ∧
  ∀ i v, wt_view (mdb s) !! i = Some v → Name v = Name (info w) → Name v ≠ EmptyString →
    s' = s ∧
    r = if is_reserved (Name v) then Err ErrReservedWalletName
        else match wt_one_name (mdb s) (Name v) with inr _ => Err ErrExist | inl e => Err e end.
Proof.
  intros Hv0 Hw0 Hr H0 Hio Hsetup H.
  assert (Hinv : names_inv s0) by (split; rewrite ?Hv0, ?Hw0; intros i x; by rewrite lookup_empty).
  assert (Hs : names_inv s).
  { clear -Hr Hinv WalletTableLaws0. induction Hr; eauto using names_step_inv. }
  unfold saveNewWallet, bind, gets, translated_mw in H. split.
  - intros ->. destruct (WalletNameExists (Name (info w)) s) as [r1 s1] eqn:E1.
    pose proof (WalletNameExists_cases _ _ _ _ E1) as (-> & _ & Hname).
    destruct r1 as [[]|e|]; [done| | |done].
    2:{ injection H as -> _. unfold WalletNameExists in E1. destruct (is_reserved _); [done|].
        destruct (wt_one_name _ _) as [e|v] eqn:Eo; [|done]. case_decide; [|done].
        injection E1 as ->. by apply one_name_err in Eo. }
    destruct (Hname eq_refl) as [Hres Hfree]. destruct (online s); [done|].
    assert (Hbatch : ∀ s2, save_batch io w setup s ≠ (Err ErrAlreadyExists, s2)).
    { intros s2. by apply batch_never_taken. }
    unfold batchDbTransaction in H. unfold faults_ok in Hio.
    rewrite !Forall_cons in Hio. destruct Hio as (Hb & Hc & _).
    destruct (f_begin io) as [e|]; [injection H as He%translate_exists _; by subst|].
    destruct (save_batch io w setup s) as [[w'|e|] s2] eqn:Eb; [| |done].
    + destruct (f_commit io) as [e|]; [injection H as He%translate_exists _; by subst|done].
    + injection H as He%translate_exists _. subst e. by eapply Hbatch.
  - intros i v Hv Hn Hne. rewrite <- Hn in H. unfold WalletNameExists in H.
    destruct (is_reserved (Name v)); [by injection H as <- <-|].
    pose proof (one_name (mdb s) (Name v) Hne) as Hone.
    destruct (wt_one_name (mdb s) (Name v)) as [e|u]; [|by injection H as <- <-].
    case_decide as He; [by injection H as <- <-|].
    by destruct (Hone He i v Hv).
Qed.

(** C28. A wallet that holds private keys is deleted only with its passphrase:
    with a wrong one the call fails, and its record, its files, its loader and
    its index are as they were, and so is every other wallet.  (A watch-only
    wallet has no passphrase, and is deleted with any.)  When the call succeeds,
    no sync was running, the record, the wallet in memory and every file under
    its directory are gone, and the other records, wallets and files are as
    before.  A call that fails later leaves the record too; no file of another
    directory is ever removed. *)
Theorem DeleteWallet_spec (io : Faults) (env : Loader.Env (W := unit)) (i : Z) (p : bytes)
    (s s' : MW) (r : outcome unit) (w : wallet) (x : W) :
  wallets s !! i = Some w → ID (info w) = i → internal w = Some x →
  DeleteWallet io env i p s = (r, s') →
  let dir := Join (rootDir s) (Itoa i) in
  (∀ j, j ≠ i → wallets s' !! j = wallets s !! j) ∧
  (∀ path, under dir path = false → path ∈ files s' ↔ path ∈ files s) ∧
  match r with
  | Ok _ => (WatchingOnly x = true ∨ p = passphrase x) ∧ online s = false ∧
      wt_view (mdb s') = delete i (wt_view (mdb s)) ∧ wallets s' !! i = None ∧
      ∀ path, under dir path = true → path ∉ files s'
  | _ => wt_view (mdb s') = wt_view (mdb s) ∧
      ∃ w', wallets s' !! i = Some w' ∧ info w' = info w ∧
        (WatchingOnly x = false → p ≠ passphrase x →
         files s' = files s ∧ loader w' = loader w ∧ txDB w' = txDB w)
  end.
Proof.
  intros Hw Hid Hx H. cbv zeta. unfold DeleteWallet, WalletWithID in H. rewrite Hw, Hid in H.
  destruct (online s) eqn:Eon.
  { injection H as <- <-. split_and!; [done..|]. exists w. by split_and!. }
  destruct (deleteWallet env _ _ p w _) as [[[r1 w1] fs1] q1] eqn:Ed.
  pose proof (deleteWallet_cases _ _ _ _ _ _ _ _ _ _ Ed) as (_ & Hinfo & Hcase).
  set (dir := Join (rootDir s) (Itoa i)) in *.
  assert (Hout : ∀ path, under dir path = false → path ∈ fs1 ↔ path ∈ files s).
  { intros path Hu. destruct Hcase as [(_ & -> & _)|(_ & -> & _)]; [|done].
    unfold RemoveAll. destruct (f_remove_all io) as [[e rem]|]; cbn; rewrite elem_of_filter; tauto. }
  assert (Hkeep : ∃ w', wallets (set_files fs1 (set_wallets (insert i w1) s)) !! i = Some w' ∧
      info w' = info w ∧ (WatchingOnly x = false → p ≠ passphrase x →
        fs1 = files s ∧ loader w' = loader w ∧ txDB w' = txDB w)).
  { exists w1. cbn. rewrite lookup_insert_eq. split_and!; [done..|]. intros Hwo Hp.
    destruct Hcase as [(_ & _ & Hpass)|(_ & ? & ? & ?)]; [|done].
    destruct (Hpass x Hx) as [|Hu]; [congruence|]. by destruct (unlock_wrong p x Hwo Hp). }
  assert (Hother : ∀ j, j ≠ i → wallets (set_files fs1 (set_wallets (insert i w1) s)) !! j = wallets s !! j).
  { intros j Hj. cbn. by rewrite lookup_insert_ne. }
  destruct r1 as [[]|e|]; [|injection H as <- <-; by split_and!..].
  destruct (wt_delete _ (info w1)) as [[e|] d] eqn:Et; injection H as <- <-.
  - apply delete_err in Et as ->. by split_and!.
  - apply delete_ok in Et. cbn in Et. rewrite Hinfo, Hid in Et.
    destruct Hcase as [(Hr & Hfs & Hpass)|(Hr & _)]; [|done]. cbn.
    split_and!; [|done| |done|by rewrite Et|by apply lookup_delete_eq|].
    + intros j Hj. by rewrite lookup_delete_ne, lookup_insert_ne.
    + destruct (WatchingOnly x) eqn:Hwo; [by left|]. right.
      destruct (decide (p = passphrase x)) as [|Hp]; [done|].
      destruct (Hpass x Hx) as [?|Hu]; [congruence|]. by destruct (unlock_wrong p x Hwo Hp).
    + intros path Hu. subst fs1. destruct (f_remove_all io) as [[e rem]|]; [done|].
      cbn. rewrite elem_of_filter. intros [??]. congruence.
Qed.

(** *** Passphrases *)



Lemma SaveUserConfigValue_other (key b k : string) (v : Val) (d : D) :
  b ≠ userConfigBucketName → kv_get (SaveUserConfigValue key v d) b k = kv_get d b k.
Proof.
  intros Hb. unfold SaveUserConfigValue.
  destruct (kv_set d userConfigBucketName key v) as [[e|] d'] eqn:E; simpl.
  - by apply kv_set_err in E as ->.
  - apply kv_set_ok in E as [_ Ho]. apply Ho. congruence.
Qed.

Lemma DeleteUserConfigValue_other (key b k : string) (d : D) :
  b ≠ userConfigBucketName → kv_get (DeleteUserConfigValueForKey key d) b k = kv_get d b k.
Proof.
  intros Hb. unfold DeleteUserConfigValueForKey.
  destruct (kv_delete d userConfigBucketName key) as [[e|] d'] eqn:E; simpl.
  - by apply kv_delete_err in E as ->.
  - apply kv_delete_ok in E as [_ Ho]. apply Ho. congruence.
Qed.

Lemma Verify_ext (q : bytes) (d d' : D) :
  kv_get d' walletsMetadataBucketName walletstartupPassphraseField =
  kv_get d walletsMetadataBucketName walletstartupPassphraseField →
  VerifyStartupPassphrase q d' = VerifyStartupPassphrase q d.
Proof. intros H. unfold VerifyStartupPassphrase. by rewrite H. Qed.

Lemma RemoveStartup_cases (old : bytes) (d d' : D) (r : outcome unit) :
  RemoveStartupPassphrase old d = (r, d') →
  let get (d : D) := kv_get d walletsMetadataBucketName walletstartupPassphraseField in
  (r = Ok tt ∧ VerifyStartupPassphrase old d = None ∧ get d' = inl ErrKeyNotFound) ∨
  ((∃ e, r = Err e) ∧ get d' = get d).
Proof.
  unfold RemoveStartupPassphrase. destruct (VerifyStartupPassphrase old d) as [e|] eqn:Ev.
  { intros [= <- <-]. right. by eauto. }
  destruct (kv_delete _ _ _) as [[e|] d1] eqn:Ed; intros [= <- <-].
  - right. apply kv_delete_err in Ed as ->. by eauto.
  - left. apply kv_delete_ok in Ed as [Hg _]. split_and!; [done..|].
    by rewrite DeleteUserConfigValue_other, SaveUserConfigValue_other.
Qed.

(** The startup passphrase: it is changed only with the one before, and
    then exactly the new one is accepted (among passwords that bcrypt tells
    apart); an empty new passphrase removes it, and then only the empty one is
    accepted; a failed change leaves what is accepted as it was. *)
Theorem ChangeStartupPassphrase_spec (salt old new : bytes) (t : Z) (d d' : D) (r : outcome unit) :
  (∀ h, roundtrips hash_c (Some h)) → zero hash_c = None →
  ChangeStartupPassphrase salt old new t d = (r, d') →
  match r with
  | Ok _ => VerifyStartupPassphrase old d = None ∧ VerifyStartupPassphrase new d' = None ∧
      ∀ q, q ≠ new → (new ≠ [] → bcrypt_ok new ∧ bcrypt_ok q) →
        VerifyStartupPassphrase q d' = Some ErrStartupPassphrase
  | Err _ => ∀ q, VerifyStartupPassphrase q d' = VerifyStartupPassphrase q d
  | Panic => False
  end.
Proof.
  intros Hrt Hz H. unfold ChangeStartupPassphrase in H. case_decide as Hnew.
  { subst new. apply RemoveStartup_cases in H as [(-> & Hv & Hg)|[[e ->] Hg]];
      [|intros q; by apply Verify_ext].
    unfold VerifyStartupPassphrase in *. rewrite Hg. simpl. rewrite Hz. simpl.
    split_and!; [done..|]. intros q Hq _. by rewrite decide_True. }
  destruct (VerifyStartupPassphrase old d) as [e|] eqn:Ev; [by injection H as <- <-|].
  destruct (GenerateFromPassword salt new) as [e|h] eqn:Eh; [by injection H as <- <-|].
  destruct (kv_set _ _ _ _) as [[e|] d1] eqn:Es; injection H as <- <-.
  { apply kv_set_err in Es as ->. done. }
  apply kv_set_ok in Es as [Hg _].
  assert (Hv : ∀ q, VerifyStartupPassphrase q (SaveUserConfigValue StartupSecurityTypeConfigKey
      (enc int32_c t) (SaveUserConfigValue IsStartupSecuritySetConfigKey (enc bool_c true) d1)) =
    if CompareHashAndPassword h q then None else Some ErrStartupPassphrase).
  { intros q. unfold VerifyStartupPassphrase. rewrite !SaveUserConfigValue_other, Hg by done.
    simpl. by rewrite Hrt. }
  rewrite Hv, (compare_same _ _ _ Eh). split_and!; [done..|]. intros q Hq Hok.
  destruct (Hok Hnew) as [Ho Hoq]. rewrite Hv, (compare_other salt new q h); congruence.
Qed.

(** *** Linking *)

Lemma move_ok (a b : string) (s : MW) :
  a ∈ files s → move None a b s = (Ok tt, set_files ({[b]} ∪ files s ∖ {[a]}) s).
Proof. intros Ha. unfold move, moveFile. by rewrite decide_True. Qed.

Lemma move_err (a b : string) (s : MW) (e : goerr) :
  a ∈ files s → move (Some e) a b s = (Err e, s).
Proof. intros Ha. unfold move, moveFile. rewrite decide_True by done. by destruct s. Qed.

(** Linking moves the files of the wallet and, when preparing or opening
    it fails, moves them back.  When moving [tx.db] fails, [wallet.db] has
    already been moved and stays in the new directory although no wallet is
    saved. *)
Theorem link_setup_failure (dir : string) (start : GM wallet unit) (w w1 : wallet) (s : MW)
    (e : goerr) :
  let newDir := Join (rootDir s) (Itoa (ID (info w))) in
  let a := Join dir walletDbName in let b := Join dir "tx.db" in
  let a' := Join newDir walletDbName in let b' := Join newDir "tx.db" in
  NoDup [a; b; a'; b'] → a ∈ files s → b ∈ files s → a' ∉ files s → b' ∉ files s →
  (start w = (Err e, w1) → link_setup None None dir start w s = (Err e, s)) ∧
  link_setup None (Some e) dir start w s = (Err e, set_files ({[a']} ∪ files s ∖ {[a]}) s).
Proof.
  intros newDir a b a' b' Hnd Ha Hb Ha' Hb'. unfold link_setup, bind.
  fold newDir a b a' b'. rewrite !NoDup_cons, !not_elem_of_cons in Hnd.
  destruct Hnd as ((?&?&?&_)&(?&?&_)&(?&_)&_).
  rewrite move_ok by done. split.
  - intros Hs. rewrite move_ok by (simpl; set_solver). unfold setup_alone. rewrite Hs.
    rewrite (move_ok a' a) by (simpl; set_solver). cbn [snd].
    rewrite (move_ok b' b) by (simpl; set_solver). cbn [snd].
    destruct s as [? ? ? ? ? fs ? ?]. unfold set_files. simpl in *. do 2 f_equal.
    apply set_eq. intros n.
    destruct (decide (n = a)), (decide (n = b)), (decide (n = a')), (decide (n = b'));
      subst; set_solver.
  - by rewrite move_err by (simpl; set_solver).
Qed.
End MultiWallet.

(** ** A wallets database over lists, and toy libraries *)
Module ToyMW.
Inductive Val := VBool (b : bool) | VInt (z : Z) | VBytes (h : option bytes).

Record t := mk { rows : list WalletInfo; kvs : gmap (string * string) Val }.

Definition view (d : t) : gmap Z WalletInfo :=
  list_to_map ((λ w, (ID w, w)) <$> filter (λ w, 0 < ID w)%Z (rows d)).

Definition fresh_id (d : t) : Z := 1 + foldr Z.max 0%Z (ID <$> rows d).

Definition taken (d : t) (i : Z) (n : string) : bool :=
  bool_decide (n ≠ EmptyString) &&
  existsb (λ x, bool_decide (Name x.2 = n ∧ x.1 ≠ i)) (map_to_list (view d)).

Definition save (d : t) (w : WalletInfo) : (goerr + WalletInfo) * t :=
  let i := if decide (ID w = 0%Z) then fresh_id d else ID w in
  if decide (i ≤ 0)%Z then (inl (ENew "negative id"), d)
  else if taken d i (Name w) then (inl ErrAlreadyExists, d)
  else (inr (set_ID i w), mk (set_ID i w :: rows d) (kvs d)).

#[global] Instance table : WalletTable t := {|
  wt_view := view;
  wt_save := save;
  wt_delete d w := (None, mk (filter (λ x, ID x ≠ ID w) (rows d)) (kvs d));
  wt_one_name d n :=
    match filter (λ x, Name x.2 = n) (map_to_list (view d)) with
    | x :: _ => inr x.2
    | [] => inl ErrNotFound
    end
|}.

#[global] Instance kv : KvStore t Val := {|
  kv_get d b k := match kvs d !! (b, k) with Some v => inr v | None => inl ErrKeyNotFound end;
  kv_set d b k v := (None, mk (rows d) (<[(b, k) := v]> (kvs d)));
  kv_delete d b k := (None, mk (rows d) (delete (b, k) (kvs d)));
  kv_drop d b := (None, mk (rows d) (filter (λ x, x.1.1 ≠ b) (kvs d)))
|}.

#[global] Instance kv_laws : KvStoreLaws t Val.
Proof.
  split; simpl; intros; simplify_eq; try done; simpl.
  - rewrite lookup_insert_eq. split; [done|]. intros. by rewrite lookup_insert_ne.
  - rewrite lookup_delete_eq. split; [done|]. intros. by rewrite lookup_delete_ne.
Qed.

Lemma view_elem (d : t) (i : Z) (w : WalletInfo) :
  view d !! i = Some w → ID w = i ∧ (0 < i)%Z ∧ w ∈ rows d.
Proof.
  unfold view. intros H%elem_of_list_to_map_2.
  apply list_elem_of_fmap in H as (x & [= -> ->] & Hx).
  by apply list_elem_of_filter in Hx as [??].
Qed.

Lemma fresh_view (d : t) : view d !! fresh_id d = None.
Proof.
  destruct (view d !! fresh_id d) as [w|] eqn:E; [|done].
  apply view_elem in E as (Hid & _ & Hin). unfold fresh_id in Hid.
  assert (Hle : ∀ l : list WalletInfo, w ∈ l → (ID w ≤ foldr Z.max 0 (ID <$> l))%Z).
  { induction l as [|x l IH]; [set_solver|]. csimpl. intros [->|Hl]%elem_of_cons; [lia|].
    specialize (IH Hl). lia. }
  specialize (Hle _ Hin). lia.
Qed.

Lemma view_cons (w : WalletInfo) (l : list WalletInfo) k :
  (0 < ID w)%Z → view (mk (w :: l) k) = <[ID w := w]> (view (mk l k)).
Proof. intros Hw. unfold view. simpl. by rewrite filter_cons_True. Qed.

Lemma taken_true (d : t) (i : Z) (n : string) :
  taken d i n = true ↔ n ≠ EmptyString ∧ ∃ j w, view d !! j = Some w ∧ Name w = n ∧ j ≠ i.
Proof.
  unfold taken. rewrite andb_true_iff, bool_decide_eq_true, existsb_exists. f_equiv. split.
  - intros ([j w] & Hin & Hb%bool_decide_eq_true). apply list_elem_of_In, elem_of_map_to_list in Hin.
    simpl in Hb. by exists j, w.
  - intros (j & w & Hv & Hn). exists (j, w). split; [by apply list_elem_of_In, elem_of_map_to_list|].
    by apply bool_decide_eq_true.
Qed.

Lemma save_ok (d d' : t) (w w' : WalletInfo) :
  save d w = (inr w', d') →
  let i := if decide (ID w = 0%Z) then fresh_id d else ID w in
  (0 < i)%Z ∧ taken d i (Name w) = false ∧ w' = set_ID i w ∧
  view d' = <[i := w']> (view d).
Proof.
  unfold save. simpl. case_decide as Hi; [done|].
  destruct (taken d _ (Name w)) eqn:Et; [done|]. intros [= <- <-].
  split_and!; [lia|done|done|]. destruct d as [l k]. simpl. rewrite view_cons; [done|simpl; lia].
Qed.

Lemma delete_rows (i : Z) (l : list WalletInfo) :
  list_to_map ((λ w, (ID w, w)) <$> filter (λ x, ID x ≠ i) l) =
  delete i (list_to_map ((λ w, (ID w, w)) <$> l) : gmap Z WalletInfo).
Proof.
  induction l as [|x l IH]; csimpl; [by rewrite delete_empty|].
  rewrite filter_cons. destruct (decide (ID x ≠ i)) as [Hx|Hx].
  - csimpl. by rewrite IH, delete_insert_ne.
  - rewrite IH. assert (ID x = i) as -> by (destruct (decide (ID x = i)); [done|by destruct Hx]).
    by rewrite delete_insert_eq.
Qed.

#[global] Instance table_laws : WalletTableLaws t Val.
Proof.
  split; unfold wt_view, wt_save, wt_delete, wt_one_name; simpl.
  - intros d i w H. apply view_elem in H as (? & ? & _). done.
  - intros d w w' d' H0 H. apply save_ok in H as (Hi & _ & Hw' & Hv).
    rewrite decide_True in * by done.
    assert (ID w' = fresh_id d) as -> by (by rewrite Hw').
    split_and!; [done|apply fresh_view|done].
  - intros d w w' d' H0 H. apply save_ok in H as (_ & _ & -> & Hv).
    rewrite decide_False in * by done. destruct w; done.
  - intros d w w' d' i w0 H Hw0 Hn Hne. apply save_ok in H as (_ & Ht & -> & _). simpl.
    destruct (decide (i = if decide (ID w = 0%Z) then fresh_id d else ID w)) as [|Hi]; [done|].
    assert (taken d (if decide (ID w = 0%Z) then fresh_id d else ID w) (Name w) = true); [|congruence].
    apply taken_true. split; [done|]. by exists i, w0.
  - intros d w e d'. unfold save. case_decide; [by intros [= <- <-]|].
    destruct (taken _ _ _); by intros [= <- <-].
  - intros d w d'. unfold save. case_decide as Hp; [done|].
    destruct (taken _ _ _) eqn:Et; [|done]. intros _.
    apply taken_true in Et as (Hne & j & v & Hv & Hn & Hj). exists j, v. split_and!; [done..| |done].
    intros ->. pose proof Hv as (_ & ? & _)%view_elem. by rewrite decide_False in Hj by lia.
  - intros d w r d' b k. unfold save. case_decide; [by intros [= <- <-]|].
    destruct (taken _ _ _); by intros [= <- <-].
  - intros [l k] w d' [= <-]. unfold view. simpl. rewrite <- delete_rows. do 2 f_equal.
    rewrite !list_filter_filter. apply list_filter_iff. tauto.
  - done.
  - intros d n Hn. destruct (filter _ _) as [|x l] eqn:Ef.
    + intros _ i w Hv Hnw. assert (Hin : (i, w) ∈ filter (λ x : Z * WalletInfo, Name x.2 = n)
        (map_to_list (view d))) by (by apply list_elem_of_filter; split;
          [|apply elem_of_map_to_list]).
      rewrite Ef in Hin. set_solver.
    + assert (Hin : x ∈ filter (λ x : Z * WalletInfo, Name x.2 = n) (map_to_list (view d)))
        by (rewrite Ef; set_solver).
      apply list_elem_of_filter in Hin as [Hnx Hx]. destruct x as [i w].
      apply elem_of_map_to_list in Hx. simpl in *.
      pose proof Hx as (-> & _ & _)%view_elem. done.
  - intros d n e. destruct (filter _ _); by intros [= <-].
  - by intros [l k] b k0 v r d' [= <- <-].
  - by intros [l k] b k0 r d' [= <- <-].
Qed.

#[global] Instance crypto : Crypto bool := {|
  scrypt_key p := inr p;
  nacl_Load s := inr (bool_decide (s = "new"));
  EncodeHex := String.string_of_list_byte;
  EasySeal _ m k := (if k : bool then x01 else x00) :: m;
  EasyOpen box k := match box with
                    | c :: m => if decide (c = if k : bool then x01 else x00) then inr m
                                else inl (ENew "cannot open")
                    | [] => inl (ENew "cannot open") end
|}.
#[global] Instance crypto_laws : CryptoLaws bool.
Proof.
  split; simpl.
  - intros _ m k. by rewrite decide_True.
  - intros _ m [] []; try done; rewrite decide_False by done; by eauto.
Qed.

Record lib_wallet := mkLib { lw_pass : bytes; lw_locked : bool }.
#[global] Instance lib : Internal lib_wallet := {|
  WatchingOnly _ := false;
  Locked := lw_locked;
  Unlock p w := if decide (p = lw_pass w) then (None, mkLib (lw_pass w) false)
                else (Some (EKind KPassphrase "wrong"), w);
  Lock w := mkLib (lw_pass w) true;
  ChangePrivatePassphrase p q w :=
    if decide (p = lw_pass w) then (None, mkLib q (lw_locked w))
    else (Some (EKind KPassphrase "wrong"), w);
  passphrase := lw_pass
|}.
#[global] Instance lib_laws : InternalLaws lib_wallet.
Proof.
  split; simpl; try done.
  - intros p w. by case_decide.
  - intros p w _ Hp. by rewrite decide_False.
  - intros p q w w'. case_decide; [by intros [= <-]|done].
  - intros p q w e w'. case_decide; [done|by intros [= _ <-]].
Qed.

#[global] Instance bcrypt : Bcrypt := {|
  GenerateFromPassword _ p := inr p;
  CompareHashAndPassword h p := bool_decide (h = p)
|}.
#[global] Instance bcrypt_laws : BcryptLaws.
Proof.
  split; simpl.
  - intros _ p h [= ->]. by rewrite bool_decide_true.
  - intros _ p q h [= ->] _ _ Hne. by rewrite bool_decide_false.
Qed.

Definition bool_c : Codec Val bool :=
  mkCodec _ _ false VBool (λ v, match v with VBool b => Some b | _ => None end).
Definition int_c : Codec Val Z :=
  mkCodec _ _ 0%Z VInt (λ v, match v with VInt z => Some z | _ => None end).
Definition hash_c : Codec Val (option bytes) :=
  mkCodec _ _ None VBytes (λ v, match v with VBytes h => Some h | _ => None end).

Abbreviation wallet := (Wallet lib_wallet MapStorm.t).
Abbreviation mw := (MW (D := t) (W := lib_wallet) (S := MapStorm.t)).

Definition no_faults : Faults := mkFaults None None None None None None.
Definition world : Loader.St (W := unit) :=
  mkSt (NewLoader "mainnet" "" no_stake 20 false 1 10 false) DirIsDir None [] 0 [].
Definition loaded : Loader.St (W := unit) :=
  mkSt (with_load [] (Some tt) (Some 0) (NewLoader "mainnet" "" no_stake 20 false 1 10 false))
    DirIsDir (Some 0) [0] 1 [].
Definition env : Loader.Env (W := unit) :=
  mkEnv None None None None None false None None (λ _, inr tt) None None.

Definition empty : mw := mkMW "/root" "bdb" "mainnet" (mk [] ∅) ∅ ∅ false false.
Definition fresh (n : string) : wallet := new_wallet (mkInfo 0 n 0 "" None false true 0) world.
Definition set_up : wallet → GM mw wallet := setup_alone (modify (set_internal (Some (mkLib (bs "old") true)))).

(** A wallet with a seed, under the passphrase "old". *)
Definition saved : WalletInfo := mkInfo 1 "savings" 0 "bdb" (Some (x00 :: bs "seed")) false true 0.
Definition one : mw :=
  mkMW "/root" "bdb" "mainnet" (mk [saved] ∅)
    {[1%Z := mkWallet saved (Some (mkLib (bs "old") true)) loaded None false false false]} ∅ false false.

Lemma set_up_frame : setup_frame set_up.
Proof. by intros w s r s' [= <- <-]; split_and!; [..|intros w' [= <-]]. Qed.
End ToyMW.

(** ** Witnesses *)

(** A wallet without a name gets "wallet-1". *)
Lemma saveNewWallet_atomic_witness :
  ∃ (w' : ToyMW.wallet) (s' : ToyMW.mw),
    saveNewWallet ToyMW.no_faults (ToyMW.fresh "") ToyMW.set_up ToyMW.empty = (Ok w', s') ∧
    Name (info w') = "wallet-1" ∧ save_post (ToyMW.fresh "") ToyMW.empty s' (Ok w').
Proof.
  eexists _, _. split; [reflexivity|]. split; [reflexivity|].
  eapply (saveNewWallet_atomic ToyMW.no_faults (ToyMW.fresh "") ToyMW.set_up ToyMW.empty).
  - exact ToyMW.set_up_frame.
  - reflexivity.
  - reflexivity.
Defined.

(** After a wallet got an automatic name, another one can, and a name that is
    taken is refused. *)
Lemma auto_names_never_taken_witness :
  let s1 := (saveNewWallet ToyMW.no_faults (ToyMW.fresh "savings") ToyMW.set_up ToyMW.empty).2 in
  let run := saveNewWallet ToyMW.no_faults (ToyMW.fresh "savings") ToyMW.set_up s1 in
  run.1 ≠ Err ErrAlreadyExists ∧ run.2 = s1 ∧ run.1 = Err ErrExist.
Proof.
  intros s1 run.
  destruct (auto_names_never_taken ToyMW.no_faults (ToyMW.fresh "savings") ToyMW.set_up ToyMW.empty s1
    run.2 run.1) as [H1 H2].
  - reflexivity.
  - reflexivity.
  - eapply rtc_l; [|apply rtc_refl].
    eapply (N_save ToyMW.no_faults (ToyMW.fresh "savings") ToyMW.set_up).
    + exact ToyMW.set_up_frame.
    + reflexivity.
    + apply surjective_pairing.
  - reflexivity.
  - repeat (constructor; [discriminate|]). constructor.
  - intros w s s2 [=].
  - apply surjective_pairing.
  - split; [exact H1|].
    exact (H2 1%Z (mkInfo 1 "savings" 0 "bdb" None false true 0)
      ltac:(vm_compute; reflexivity) eq_refl ltac:(discriminate)).
Defined.

(** A wrong passphrase, and the right one. *)
Lemma DeleteWallet_spec_witness :
  let s := set_files {["/root/1"; "/root/1/wallet.db"; "/root/10"]} ToyMW.one in
  let run p := DeleteWallet ToyMW.no_faults ToyMW.env 1 p s in
  (∃ e, (run (bs "wrong")).1 = Err e) ∧ wt_view (mdb (run (bs "wrong")).2) = wt_view (mdb s) ∧
  (run (bs "old")).1 = Ok tt ∧ "/root/1/wallet.db" ∉ files (run (bs "old")).2 ∧
  "/root/10" ∈ files (run (bs "old")).2.
Proof.
  intros s run.
  pose proof (λ p r s' H, DeleteWallet_spec ToyMW.no_faults ToyMW.env 1 p s s' r
    (mkWallet ToyMW.saved (Some (ToyMW.mkLib (bs "old") true)) ToyMW.loaded None false false false)
    (ToyMW.mkLib (bs "old") true) eq_refl eq_refl eq_refl H) as Hspec.
  destruct (Hspec (bs "wrong") _ _ (surjective_pairing _)) as (_ & _ & Hw & _).
  destruct (Hspec (bs "old") _ _ (surjective_pairing _)) as (_ & Hout & _ & _ & _ & _ & Hin).
  split; [eexists; reflexivity|]. split; [exact Hw|]. split; [reflexivity|]. split.
  - apply Hin. reflexivity.
  - apply Hout; [reflexivity|]. set_solver.
Defined.


Lemma ChangeStartupPassphrase_spec_witness :
  ∃ d', ChangeStartupPassphrase ToyMW.bool_c ToyMW.int_c ToyMW.hash_c [] [] (bs "pin") 0
          (ToyMW.mk [] ∅) = (Ok tt, d') ∧
    VerifyStartupPassphrase ToyMW.hash_c (bs "pin") d' = None.
Proof.
  eexists. split; [reflexivity|].
  eapply (ChangeStartupPassphrase_spec ToyMW.bool_c ToyMW.int_c ToyMW.hash_c [] [] (bs "pin") 0
    (ToyMW.mk [] ∅) _ (Ok tt)).
  - intros h. reflexivity.
  - reflexivity.
  - reflexivity.
Defined.

Lemma link_setup_failure_witness :
  let s : ToyMW.mw := mkMW "/root" "bdb" "mainnet" (ToyMW.mk [] ∅) ∅
    {["/old/wallet.db"; "/old/tx.db"]} false false in
  link_setup None None "/old" (fail ErrInvalidPassphrase) (ToyMW.fresh "") s =
    (Err ErrInvalidPassphrase, s).
Proof.
  intros s.
  refine (proj1 (link_setup_failure "/old" (fail ErrInvalidPassphrase) (ToyMW.fresh "")
    (ToyMW.fresh "") s ErrInvalidPassphrase _ _ _ _ _) eq_refl).
  - apply (bool_decide_unpack _). vm_compute. exact I.
  - apply (bool_decide_unpack _). vm_compute. exact I.
  - apply (bool_decide_unpack _). vm_compute. exact I.
  - apply (bool_decide_unpack _). vm_compute. exact I.
  - apply (bool_decide_unpack _). vm_compute. exact I.
Defined.
