(* ===== verification/TxAuthor.v ===== *)
(** * [txauthor.go]: building, estimating and sending transactions

    The author of a transaction holds its destinations and the change address
    it has been given.  The library wallet that selects the inputs, signs and
    publishes is the interface [AuthorLib]; scripts are made by [TxHelper]. *)
From S2P Require Import Prelude Wire TxHelper Wallet.

Record TransactionDestination := mkDest {
  d_Address : string; d_AtomAmount : Z; d_SendMax : bool }.

Record TxAuthor := mkAuthor {
  sourceAccountNumber : Z; destinations : list TransactionDestination; changeAddress : string }.

Definition set_destinations (ds : list TransactionDestination) (tx : TxAuthor) : TxAuthor :=
  mkAuthor (sourceAccountNumber tx) ds (changeAddress tx).
Definition set_changeAddress (a : string) (tx : TxAuthor) : TxAuthor :=
  mkAuthor (sourceAccountNumber tx) (destinations tx) a.

(** [w.OutputSelectionAlgorithm] *)
Inductive OutputSelectionAlgorithm :=
| OutputSelectionAlgorithmDefault | OutputSelectionAlgorithmAll.

(** [txauthor.AuthoredTx] *)
Record AuthoredTx := mkAuthored {
  Tx : MsgTx; EstimatedSignedSerializeSize : Z; ChangeIndex : Z }.

(** The library wallet, whose state is [L], and the functions of its packages. *)
Class AuthorLib (L F : Type) := {
  NewChangeAddress : Z → L → (goerr + string) * L;
  NewUnsignedTransaction : list TxOut → Z → Z → Z → OutputSelectionAlgorithm → txChangeSource →
    L → (goerr + AuthoredTx) * L;
  FeeForSerializeSize : Z → Z → Z;
  DefaultRelayFeePerKb : Z;
  ToCoin : Z → F;
  SpendableBalance : Z → Z → L → goerr + Z;    (* CalculateAccountBalance, Spendable *)
  HasNetworkBackend : L → option goerr;
  RandomizeChangePosition : AuthoredTx → L → AuthoredTx * L;
  Serialize : MsgTx → goerr + bytes;
  Deserialize : bytes → goerr + MsgTx;
  lib_Unlock : bytes → L → option goerr * L;
  lib_Relock : L → L;                          (* the channel given to Unlock fires *)
  SignTransaction : MsgTx → L → (goerr + (MsgTx * list Z)) * L;
  PublishTransaction : MsgTx → bytes → L → (goerr + bytes) * L;
  published : L → list MsgTx;                  (* for the theorems *)
  lib_passphrase : L → bytes
}.

(** What has been published, and the passphrase. *)
Definition observed {L F} `{!AuthorLib L F} (l : L) : list MsgTx * bytes :=
  (published l, lib_passphrase l).

(** Only publishing publishes, and it publishes what it is given; only the
    passphrase unlocks; a transaction is read back as it was written. *)
Class AuthorLibLaws (L F : Type) `{!AuthorLib L F} := {
  obs_change n l : observed (NewChangeAddress n l).2 = observed l;
  obs_new o f a c alg s l : observed (NewUnsignedTransaction o f a c alg s l).2 = observed l;
  obs_randomize t l : observed (RandomizeChangePosition t l).2 = observed l;
  obs_unlock p l : observed (lib_Unlock p l).2 = observed l;
  obs_relock l : observed (lib_Relock l) = observed l;
  obs_sign t l : observed (SignTransaction t l).2 = observed l;
  publish_ok t raw l h l' : PublishTransaction t raw l = (inr h, l') →
    published l' = published l ++ [t] ∧ lib_passphrase l' = lib_passphrase l;
  publish_err t raw l e l' : PublishTransaction t raw l = (inl e, l') → observed l' = observed l;
  unlock_right p l l' : lib_Unlock p l = (None, l') → p = lib_passphrase l;
  deserialize_serialize t raw : Serialize t = inr raw → Deserialize raw = inr t
}.

Section TxAuthor.
Context {L F Params Address : Type} `{!AuthorLib L F, !TxLib Params Address}.
(** [MaxAmountAtom] is [dcrutil.MaxAmount]. *)
Context (net : Params) (MaxAmountAtom : Z) (requiredConfirmations : Z).

(** An author with the library wallet of its source. *)
Abbreviation AM := (GM (TxAuthor * L)).

(** [uint32(sourceAccountNumber)] *)
Definition NewUnsignedTx (account : Z) : TxAuthor := mkAuthor (uwrap 32 account) [] EmptyString.

Definition AddSendDestination (address : string) (atomAmount : Z) (sendMax : bool) : GM TxAuthor unit :=
  λ tx,
  match DecodeAddress address net with
  | inl err => (Err (translateError err), tx)
  | inr _ =>
      (Ok tt, set_destinations (destinations tx ++ [mkDest address atomAmount sendMax]) tx)
  end.

Definition UpdateSendDestination (index : Z) (address : string) (atomAmount : Z) (sendMax : bool)
    : GM TxAuthor unit := λ tx,
  if decide (0 ≤ index < zlen (destinations tx))%Z then
    (Ok tt, set_destinations
      (<[Z.to_nat index := mkDest address atomAmount sendMax]> (destinations tx)) tx)
  else (Panic, tx).

Definition RemoveSendDestination (index : Z) : GM TxAuthor unit := λ tx,
  if decide (zlen (destinations tx) > index)%Z then
    if decide (0 ≤ index)%Z then
      let i := Z.to_nat index in
      (Ok tt, set_destinations (take i (destinations tx) ++ drop (S i) (destinations tx)) tx)
    else (Panic, tx)
  else (Ok tt, tx).

Definition SendDestination (atIndex : Z) (tx : TxAuthor) : outcome TransactionDestination :=
  if decide (0 ≤ atIndex)%Z then
    match destinations tx !! Z.to_nat atIndex with Some d => Ok d | None => Panic end
  else Panic.

(** [Amount]: atoms and coins. *)
Definition amount (atoms : Z) : Z * F := (atoms, ToCoin atoms).

Definition TotalSendAmount (tx : TxAuthor) : Z * F :=
  amount (sum64 (d_AtomAmount <$> destinations tx)).

(** The change source of the wallet: its address is derived once. *)
Definition changeSource : AM txChangeSource := λ '(tx, l),
  match (if decide (changeAddress tx = EmptyString) then
           match NewChangeAddress (sourceAccountNumber tx) l with
           | (inl _, l) => inl l
           | (inr address, l) => inr (set_changeAddress address tx, l)
           end
         else inr (tx, l)) with
  | inl l => (Err (ENew "change address error"), (tx, l))
  | inr (tx, l) =>
      match MakeTxChangeSource (changeAddress tx) net with
      | inl _ => (Err (ENew "change source error"), (tx, l))
      | inr src => (Ok src, (tx, l))
      end
  end.

(** The loop over the destinations, with the outputs, the algorithm and the
    change source so far. *)
Fixpoint collect (ds : list TransactionDestination) (outputs : list TxOut)
    (algo : OutputSelectionAlgorithm) (src : option txChangeSource)
    : goerr + (list TxOut * OutputSelectionAlgorithm * option txChangeSource) :=
  match ds with
  | [] => inr (outputs, algo, src)
  | d :: ds' =>
      if decide (d_SendMax d = false ∧
                 (d_AtomAmount d ≤ 0 ∨ d_AtomAmount d > MaxAmountAtom)%Z) then
        inl (EKind KInvalid "invalid amount")
      else if decide (d_SendMax d = true ∧ src ≠ None) then
        inl (ENew "cannot send max amount to multiple recipients")
      else if d_SendMax d then
        match MakeTxChangeSource (d_Address d) net with
        | inl _ => inl (ENew "max amount change source error")
        | inr s => collect ds' outputs OutputSelectionAlgorithmAll (Some s)
        end
      else
        match MakeTxOutput (d_Address d) (d_AtomAmount d) net with
        | inl _ => inl (ENew "make tx output error")
        | inr output => collect ds' (outputs ++ [output]) algo src
        end
  end.

Definition constructTransaction : AM AuthoredTx :=
  let! s := getS in
  match collect (destinations s.1) [] OutputSelectionAlgorithmDefault None with
  | inl err => fail err
  | inr (outputs, algo, src) =>
      let! src := match src with Some s => ret s | None => changeSource end in
      λ '(tx, l),
        match NewUnsignedTransaction outputs DefaultRelayFeePerKb (sourceAccountNumber tx)
                requiredConfirmations algo src l with
        | (inl err, l) => (Err err, (tx, l))
        | (inr a, l) => (Ok a, (tx, l))
        end
  end.

Definition translated_tx {A} (m : AM A) : AM A := λ s,
  match m s with (Err e, s') => (Err (translateError e), s') | r => r end.

(** The fee and the size. *)
Definition EstimateFeeAndSize : AM ((Z * F) * Z) :=
  let! unsignedTx := translated_tx constructTransaction in
  let feeToSendTx := FeeForSerializeSize DefaultRelayFeePerKb
                       (EstimatedSignedSerializeSize unsignedTx) in
  ret (amount feeToSendTx, EstimatedSignedSerializeSize unsignedTx).

(** accounts.go *)
Definition SpendableForAccount (account : Z) (l : L) : goerr + Z :=
  match SpendableBalance (uwrap 32 account) requiredConfirmations l with
  | inl err => inl (translateError err)
  | inr spendable => inr spendable
  end.

Definition EstimateMaxSendAmount : AM (Z * F) :=
  let! r := EstimateFeeAndSize in
  λ '(tx, l),
    match SpendableForAccount (wrap32 (sourceAccountNumber tx)) l with
    | inl err => (Err err, (tx, l))
    | inr spendable => (Ok (amount (wrap64 (spendable - r.1.1))), (tx, l))
    end.

(** A call on the library wallet. *)
Definition lib {A} (f : L → (goerr + A) * L) : AM A := λ '(tx, l),
  match f l with (inl e, l) => (Err e, (tx, l)) | (inr a, l) => (Ok a, (tx, l)) end.
Definition pure {A} (r : goerr + A) : AM A := lib (λ l, (r, l)).





(** ** Theorems *)

(** The destinations that get an output, and those that get the rest. *)
Definition fixed (ds : list TransactionDestination) : list TransactionDestination :=
  filter (λ d, d_SendMax d = false) ds.
Definition maxed (ds : list TransactionDestination) : list TransactionDestination :=
  filter (λ d, d_SendMax d = true) ds.

Definition pays (d : TransactionDestination) (o : TxOut) : Prop :=
  (0 < d_AtomAmount d ≤ MaxAmountAtom)%Z ∧ MakeTxOutput (d_Address d) (d_AtomAmount d) net = inr o.

(** What [collect] has found, on top of what it had. *)
Lemma collect_ok (ds : list TransactionDestination) (outs outs' : list TxOut)
    (algo algo' : OutputSelectionAlgorithm) (src src' : option txChangeSource) :
  collect ds outs algo src = inr (outs', algo', src') →
  (∃ new, outs' = outs ++ new ∧ Forall2 pays (fixed ds) new) ∧
  match src with
  | Some s => maxed ds = [] ∧ algo' = algo ∧ src' = Some s
  | None =>
      (maxed ds = [] ∧ algo' = algo ∧ src' = None) ∨
      ∃ d s, maxed ds = [d] ∧ algo' = OutputSelectionAlgorithmAll ∧ src' = Some s ∧
        MakeTxChangeSource (d_Address d) net = inr s
  end.
Proof.
  revert outs algo src. induction ds as [|d ds IH]; intros outs algo src H; simpl in H.
  { injection H as <- <- <-. split; [exists []; by rewrite app_nil_r|]. destruct src; by auto. }
  case_decide as H1; [done|]. case_decide as H2; [done|]. unfold fixed, maxed in *.
  rewrite !filter_cons. destruct (d_SendMax d) eqn:Em.
  - destruct (MakeTxChangeSource (d_Address d) net) as [e|s] eqn:Es; [done|].
    apply IH in H as [Hnew (Hm & -> & ->)]. simpl. split; [done|].
    destruct src; [by destruct H2|]. right. exists d, s. by rewrite Hm.
  - destruct (MakeTxOutput _ _ net) as [e|o] eqn:Eo; [done|].
    apply IH in H as [(new & -> & Hp) Hsrc]. simpl. split; [|done].
    exists (o :: new). rewrite <- app_assoc. split; [done|]. constructor; [|done].
    split; [lia|done].
Qed.

Lemma collect_err (ds : list TransactionDestination) (outs : list TxOut)
    (algo : OutputSelectionAlgorithm) (src : option txChangeSource) :
  Forall (λ d, (0 < d_AtomAmount d ≤ MaxAmountAtom)%Z ∨ d_SendMax d = true) ds →
  Forall (λ d, ∃ script, PkScript (d_Address d) net = inr script) ds →
  length (maxed ds) + (if src then 1 else 0) ≤ 1 →
  ∃ r, collect ds outs algo src = inr r.
Proof.
  intros Ha Hs. revert outs algo src.
  induction ds as [|d ds IH]; intros outs algo src Hm; simpl; [by eauto|].
  apply Forall_cons in Ha as [Hd Ha], Hs as [(script & Hd') Hs]. unfold maxed in Hm.
  rewrite filter_cons in Hm. unfold MakeTxChangeSource, MakeTxOutput. rewrite Hd'.
  destruct (d_SendMax d); simpl in *.
  - destruct src; [lia|].
    rewrite decide_False by (intros [_ Hn]; done). apply IH; [done..|]. unfold maxed. simpl. lia.
  - rewrite decide_False by (destruct Hd; [lia|done]). by apply IH.
Qed.

Lemma changeSource_cases (tx tx' : TxAuthor) (l l' : L) (r : outcome txChangeSource) :
  changeSource (tx, l) = (r, (tx', l')) →
  sourceAccountNumber tx' = sourceAccountNumber tx ∧ destinations tx' = destinations tx ∧
  r ≠ Panic ∧ (∀ s, r = Ok s → MakeTxChangeSource (changeAddress tx') net = inr s) ∧
  (changeAddress tx ≠ EmptyString → tx' = tx ∧ l' = l) ∧
  (changeAddress tx = EmptyString → ∀ s, r = Ok s →
     NewChangeAddress (sourceAccountNumber tx) l = (inr (changeAddress tx'), l') ∧
     tx' = set_changeAddress (changeAddress tx') tx) ∧
  (l' = l ∨ l' = (NewChangeAddress (sourceAccountNumber tx) l).2).
Proof.
  unfold changeSource. case_decide as Hc.
  - destruct (NewChangeAddress _ l) as [[e|a] l1] eqn:En.
    + intros [= <- <- <-]. split_and!; try done. by right.
    + destruct (MakeTxChangeSource _ net) as [e|s] eqn:Es; intros [= <- <- <-];
        split_and!; try done; try (by right). by intros s' [= <-].
  - destruct (MakeTxChangeSource _ net) as [e|s] eqn:Es; intros [= <- <- <-];
      split_and!; try done; try (by left). by intros s' [= <-].
Qed.

(** C33. The transaction that is asked of the wallet: one output for each
    destination with an amount, in order, every amount positive and at most all
    the coins there are; at most one destination is sent the rest, then all
    outputs are selected and the change goes to it; otherwise the change goes
    to the author's change address: the one it has, so that estimates and the
    final transaction share it, or, if it has none, the one that the wallet
    derives for the source account now, which the author keeps. *)
Theorem constructTransaction_spec (tx tx' : TxAuthor) (l l' : L) (a : AuthoredTx) :
  constructTransaction (tx, l) = (Ok a, (tx', l')) →
  ∃ outs algo src l1,
    NewUnsignedTransaction outs DefaultRelayFeePerKb (sourceAccountNumber tx)
      requiredConfirmations algo src l1 = (inr a, l') ∧
    Forall2 pays (fixed (destinations tx)) outs ∧
    destinations tx' = destinations tx ∧
    match maxed (destinations tx) with
    | [] => algo = OutputSelectionAlgorithmDefault ∧
        MakeTxChangeSource (changeAddress tx') net = inr src ∧
        (if decide (changeAddress tx = EmptyString) then
           NewChangeAddress (sourceAccountNumber tx) l = (inr (changeAddress tx'), l1) ∧
           tx' = set_changeAddress (changeAddress tx') tx
         else tx' = tx ∧ l1 = l)
    | [d] => algo = OutputSelectionAlgorithmAll ∧
        MakeTxChangeSource (d_Address d) net = inr src ∧ tx' = tx ∧ l1 = l
    | _ => False
    end.
Proof.
  unfold constructTransaction, bind, getS. cbn [fst].
  destruct (collect (destinations tx) [] _ None) as [e|[[outs algo] src]] eqn:Ec; [done|].
  apply collect_ok in Ec as [(new & Hnew & Hp) Hsrc]. simpl in Hnew. subst new.
  destruct Hsrc as [(Hm & -> & ->)|(d & s & Hm & -> & -> & Hs)]; rewrite Hm.
  - destruct (changeSource (tx, l)) as [[s|e|] [tx1 l1]] eqn:Ecs; [|done..].
    apply changeSource_cases in Ecs as (Hacc & Hds & _ & Hok & Hre & Hnew & _).
    destruct (NewUnsignedTransaction _ _ _ _ _ _ _) as [[e|a'] l2] eqn:En; [done|].
    intros [= -> -> ->]. rewrite Hacc in En. exists outs, OutputSelectionAlgorithmDefault, s, l1.
    split_and!; try done; [by apply Hok|]. case_decide; [by eapply Hnew|by apply Hre].
  - unfold ret. destruct (NewUnsignedTransaction _ _ _ _ _ _ _) as [[e|a'] l2] eqn:En; [done|].
    intros [= -> -> ->]. exists outs, OutputSelectionAlgorithmAll, s, l. by split_and!.
Qed.

(** *** Calls that do not publish *)
Context `{!AuthorLibLaws L F}.

Definition quiet {A} (m : AM A) : Prop :=
  ∀ s, (m s).1 ≠ Panic ∧ observed (m s).2.2 = observed s.2.


Lemma quiet_check (e : option goerr) : quiet (check e).
Proof. by destruct e. Qed.
Lemma quiet_lib {A} (f : L → (goerr + A) * L) :
  (∀ l, observed (f l).2 = observed l) → quiet (lib f).
Proof. intros Hf [tx l]. unfold lib. specialize (Hf l). by destruct (f l) as [[e|a] l']. Qed.
Lemma quiet_pure {A} (r : goerr + A) : quiet (pure r).
Proof. by apply quiet_lib. Qed.
Lemma quiet_translated {A} (m : AM A) : quiet m → quiet (translated_tx m).
Proof.
  intros Hm s. unfold translated_tx. destruct (Hm s) as [Hp Ho]. by destruct (m s) as [[a|e|] s1].
Qed.








End TxAuthor.

(** ** Witnesses: a wallet that pays one output of 5 atoms *)
Module ToyAuthor.
Record W := mkW { w_addresses : nat; w_pub : list MsgTx; w_pass : bytes }.

#[global] Instance TxIn_eq_dec : EqDecision TxIn.
Proof. solve_decision. Defined.
#[global] Instance TxOut_eq_dec : EqDecision TxOut.
Proof. solve_decision. Defined.
#[global] Instance MsgTx_eq_dec : EqDecision MsgTx.
Proof. solve_decision. Defined.

Definition unsigned (outs : list TxOut) (src : txChangeSource) : MsgTx :=
  mkMsgTx (bs "unsigned") 1 [mkTxIn (mkOutPoint (bs "funds") 0 0) 9]
    (outs ++ [mkTxOut 3 0 (cs_script src)]) 0 0.
Definition sent : MsgTx :=
  unsigned [mkTxOut 5 0 (bs "alice")] (mkChangeSource 0 (bs "change")).
Definition signed : MsgTx :=
  mkMsgTx (bs "signed") 1 (tx_TxIn sent) (tx_TxOut sent) 0 0.

#[global] Instance author_lib : AuthorLib W Z := {
  NewChangeAddress := λ _ l, (inr "change"%string, mkW (S (w_addresses l)) (w_pub l) (w_pass l));
  NewUnsignedTransaction := λ outs _ _ _ _ src l, (inr (mkAuthored (unsigned outs src) 200 1), l);
  FeeForSerializeSize := λ rate size, (rate * size / 1000)%Z;
  DefaultRelayFeePerKb := 10000%Z;
  ToCoin := λ z, z;
  SpendableBalance := λ _ _ _, inr 9%Z;
  HasNetworkBackend := λ _, None;
  RandomizeChangePosition := λ a l, (a, l);
  Serialize := λ t, if decide (t = sent) then inr [x00]
                    else if decide (t = signed) then inr [x01] else inl (ENew "write");
  Deserialize := λ b, if decide (b = [x00]) then inr sent
                      else if decide (b = [x01]) then inr signed else inl (ENew "read");
  lib_Unlock := λ p l, (if decide (p = w_pass l) then None else Some (ENew "passphrase"), l);
  lib_Relock := λ l, l;
  SignTransaction := λ t l, (inr (signed, []), l);
  PublishTransaction := λ t _ l, (inr (TxHash t), mkW (w_addresses l) (w_pub l ++ [t]) (w_pass l));
  published := w_pub;
  lib_passphrase := w_pass
}.

#[global] Instance author_laws : AuthorLibLaws W Z.
Proof.
  split; try done.
  - intros t raw l h l' [= <- <-]. done.
  - intros p l l'. simpl. case_decide; [|done]. by intros _.
  - intros t raw. simpl. case_decide as H1.
    + intros [= <-]. by subst.
    + case_decide as H2; [|done]. intros [= <-]. by subst.
Qed.

(** An address is its own script. *)
#[global] Instance tx_lib : TxLib unit string := {
  MsgTxFromHex := λ _, inl (ENew "hex");
  SerializeSize := λ _, 200%Z;
  TxFeeRate := λ _, (2%Z, 10%Z);
  DecodeAddress := λ a _, inr a;
  PayToAddrScript := λ a, inr (bs a);
  ExtractAddrs := λ _ _ s, inr [String.string_of_list_byte s];
  AddressString := λ a, a
}.

Definition author : TxAuthor := mkAuthor 0 [mkDest "alice" 5 false] EmptyString.
Definition wallet : W := mkW 0 [] (bs "pw").
End ToyAuthor.

Lemma constructTransaction_spec_witness :
  ∃ a s, constructTransaction tt 2100000000000000 2 (ToyAuthor.author, ToyAuthor.wallet) = (Ok a, s) ∧
    Tx a = ToyAuthor.sent ∧
    NewChangeAddress 0 ToyAuthor.wallet = (inr (changeAddress s.1), s.2) ∧
    Forall2 (pays tt 2100000000000000) (fixed (destinations ToyAuthor.author)) [mkTxOut 5 0 (bs "alice")].
Proof.
  destruct (constructTransaction tt 2100000000000000 2 (ToyAuthor.author, ToyAuthor.wallet)) as [r [tx' l']] eqn:E.
  destruct r as [a|e|]; [|discriminate E..].
  destruct (constructTransaction_spec tt 2100000000000000 2 _ _ _ _ _ E) as (outs & algo & src & l1 & Hn & Hp & _ & _ & _ & Hc & _).
  injection Hn as _ ->.
  vm_compute in E. injection E as <- <- <-.
  eexists _, _. split; [reflexivity|]. split; [reflexivity|]. split; [exact Hc|].
  assert (outs = [mkTxOut 5 0 (bs "alice")]) as ->; [|exact Hp].
  apply Forall2_cons_inv_l in Hp as (o & k & [_ Ho] & Hk & ->). apply Forall2_nil_inv_l in Hk as ->.
  vm_compute in Ho. injection Ho as <-. reflexivity.
Defined.

