(* ===== verification/Accounts.v ===== *)
(** * [accounts.go], [address.go], [wallets.go]: accounts, addresses, iterators

    What the library's wallet knows of accounts and addresses is the interface
    [AccountLib]; account numbers are [uint32] there and [int32] in the calls
    of this package. *)
From Stdlib Require Import NArith DecimalN.
From S2P Require Import Prelude TxHelper Encoding Config Loader Wallet.

(** [udb.AccountProperties] and [udb.Balances] *)
Record AccountProperties := mkProps {
  ap_AccountName : string; LastUsedExternalIndex : Z; LastUsedInternalIndex : Z;
  ap_ImportedKeyCount : Z }.
Record Balances := mkBalances {
  b_Total : Z; b_Spendable : Z; ImmatureCoinbaseRewards : Z; b_ImmatureStakeGeneration : Z;
  b_LockedByTickets : Z; b_VotingAuthority : Z; b_Unconfirmed : Z }.

(** A managed address; [ExportPubKey] is there for public key addresses. *)
Record ManagedAddress := mkManaged { ma_Account : Z; ExportPubKey : option string }.

Record Balance := mkBalance {
  Total : Z; Spendable : Z; ImmatureReward : Z; ImmatureStakeGeneration : Z;
  LockedByTickets : Z; VotingAuthority : Z; UnConfirmed : Z }.
Record Account := mkAccount {
  ac_WalletID : Z; ac_Number : Z; ac_Name : string; ac_Balance : Balance; ac_TotalBalance : Z;
  ExternalKeyCount : Z; InternalKeyCount : Z; ImportedKeyCount : Z }.
Record Accounts := mkAccounts {
  Count_ : Z; Acc : list Account; CurrentBlockHash : bytes; CurrentBlockHeight : Z }.
Record AddressInfo := mkAddressInfo {
  ai_Address : string; IsMine : bool; ai_AccountNumber : Z; ai_AccountName : string }.

(** The library's wallet [L]: numbers of accounts are [uint32].  An error of
    [lib_AddressInfo] comes with the [nil] address. *)
Class AccountLib (L Address : Type) := {
  lib_Accounts : L → goerr + (list Z * bytes * Z);
  lib_AccountProperties : Z → L → goerr + AccountProperties;
  lib_CalculateAccountBalance : Z → Z → L → goerr + Balances;
  lib_NextAccount : string → L → (goerr + Z) * L;
  lib_RenameAccount : Z → string → L → option goerr * L;
  lib_AccountName : Z → L → goerr + string;
  lib_AccountNumber : string → L → goerr + Z;
  lib_CoinType : L → goerr + Z;
  lib_HaveAddress : Address → L → goerr + bool;
  lib_AddressInfo : Address → L → goerr + ManagedAddress;
  lib_CurrentAddress : Z → L → (goerr + Address) * L;
  lib_NewExternalAddress : Z → L → (goerr + Address) * L;
  acc_Unlock : bytes → L → option goerr * L;
  acc_Relock : L → L;                         (* the channel given to Unlock fires *)
  acc_passphrase : L → bytes;                 (* for the laws *)
  acc_numbers : L → list Z
}.

(** Only the passphrase unlocks; a new account gets a number that is not in
    use; unlocking and locking leave the accounts alone. *)
Class AccountLibLaws (L Address : Type) `{!AccountLib L Address} := {
  acc_unlock_right p l l' : acc_Unlock p l = (None, l') → p = acc_passphrase l;
  acc_unlock_numbers p l : acc_numbers (acc_Unlock p l).2 = acc_numbers l;
  acc_relock_numbers l : acc_numbers (acc_Relock l) = acc_numbers l;
  acc_next_ok name l n l' : lib_NextAccount name l = (inr n, l') →
    n ∉ acc_numbers l ∧ acc_numbers l' = acc_numbers l ++ [n];
  acc_next_err name l e l' : lib_NextAccount name l = (inl e, l') →
    acc_numbers l' = acc_numbers l
}.

(** ** Iterators: [AccountsIterator] and [WalletsIterator] *)
Record Iterator (A : Type) := mkIterator { currentIndex : nat; items : list A }.
Arguments mkIterator {A} _ _.
Arguments currentIndex {A} _.
Arguments items {A} _.

Definition Next {A} (it : Iterator A) : option A * Iterator A :=
  match items it !! currentIndex it with
  | Some x => (Some x, mkIterator (S (currentIndex it)) (items it))
  | None => (None, it)
  end.

Definition Reset_ {A} (it : Iterator A) : Iterator A := mkIterator 0 (items it).

(** [n] calls of [Next]. *)
Fixpoint nexts {A} (n : nat) (it : Iterator A) : list (option A) * Iterator A :=
  match n with
  | O => ([], it)
  | S n => let '(x, it) := Next it in let '(l, it) := nexts n it in (x :: l, it)
  end.

(** wallets.go: [order] is the order in which the map is read. *)
Definition AllWallets {A} (order : list Z) (wallets : gmap Z A) : list A :=
  omap (λ i, wallets !! i) order.
Definition WalletsIterator {A} (order : list Z) (wallets : gmap Z A) : Iterator A :=
  mkIterator 0 (AllWallets order wallets).

(** ** accounts.go *)
(** [int32(n + 20)] of an [uint32]. *)
Definition key_count (n : Z) : Z := wrap32 (uwrap 32 (n + 20)).

Definition TestnetHDPath : string := "m / 44' / 1' / ".
Definition LegacyTestnetHDPath : string := "m / 44’ / 11’ / ".
Definition MainnetHDPath : string := "m / 44' / 42' / ".
Definition LegacyMainnetHDPath : string := "m / 44’ / 20’ / ".

Section Accounts.
Context {L Params Address : Type} `{!AccountLib L Address, !TxLib Params Address}.
(** The wallet: its network, id, the confirmations it asks for, and its saved
    record; the texts of errors; JSON; public key addresses of the library. *)
Context (chainParams : Params) (walletID requiredConfirmations : Z) (winfo : WalletInfo).
Context (Error_ : goerr → string) (Marshal : Accounts → string).
Context (NewAddressSecpPubKey : bytes → Params → goerr + string).
(** [Name] and [LegacyCoinType] of the parameters of the network, and the name
    of the main network. *)
Context (params_name : string) (LegacyCoinType : Z) (mainnet_name : string).

Definition GetAccountBalance (accountNumber : Z) (l : L) : goerr + Balance :=
  match lib_CalculateAccountBalance (uwrap 32 accountNumber) requiredConfirmations l with
  | inl err => inl err
  | inr balance =>
      inr (mkBalance (b_Total balance) (b_Spendable balance) (ImmatureCoinbaseRewards balance)
             (b_ImmatureStakeGeneration balance) (b_LockedByTickets balance)
             (b_VotingAuthority balance) (b_Unconfirmed balance))
  end.

Definition GetAccount (accountNumber : Z) (l : L) : goerr + Account :=
  match lib_AccountProperties (uwrap 32 accountNumber) l with
  | inl err => inl err
  | inr props =>
      match GetAccountBalance accountNumber l with
      | inl err => inl err
      | inr balance =>
          inr (mkAccount walletID accountNumber (ap_AccountName props) balance (Total balance)
                 (key_count (LastUsedExternalIndex props)) (key_count (LastUsedInternalIndex props))
                 (wrap32 (ap_ImportedKeyCount props)))
      end
  end.

Fixpoint get_accounts (numbers : list Z) (l : L) : goerr + list Account :=
  match numbers with
  | [] => inr []
  | n :: rest =>
      match GetAccount (wrap32 n) l with
      | inl err => inl err
      | inr account =>
          match get_accounts rest l with
          | inl err => inl err
          | inr accounts => inr (account :: accounts)
          end
      end
  end.

Definition GetAccountsRaw (l : L) : goerr + Accounts :=
  match lib_Accounts l with
  | inl err => inl err
  | inr (numbers, hash, height) =>
      match get_accounts numbers l with
      | inl err => inl err
      | inr accounts => inr (mkAccounts (zlen numbers) accounts hash height)
      end
  end.

(** The error is always nil. *)
Definition GetAccounts (l : L) : string * option goerr :=
  match GetAccountsRaw l with
  | inl _ => (EmptyString, None)
  | inr accounts => (Marshal accounts, None)
  end.

Definition NewAccountsIterator (l : L) : goerr + Iterator Account :=
  match GetAccountsRaw l with
  | inl err => inl err
  | inr accounts => inr (mkIterator 0 (Acc accounts))
  end.

(** The number or the error, the wallet, and the caller's passphrase. *)
Definition NextAccount (accountName : string) (privPass : bytes) (l : L)
    : (goerr + Z) * L * bytes :=
  match acc_Unlock privPass l with
  | (Some _, l) => (inl ErrInvalidPassphrase, l, zeroed privPass)
  | (None, l) =>
      let '(r, l) := lib_NextAccount accountName l in
      (match r with inl err => inl err | inr n => inr (wrap32 n) end, acc_Relock l,
       zeroed privPass)
  end.

Definition RenameAccount (accountNumber : Z) (newName : string) (l : L) : option goerr * L :=
  let '(err, l) := lib_RenameAccount (uwrap 32 accountNumber) newName l in
  (translateError <$> err, l).

Definition AccountNameRaw (accountNumber : Z) (l : L) : goerr + string :=
  lib_AccountName accountNumber l.

Definition AccountName (accountNumber : Z) (l : L) : string :=
  match AccountNameRaw (uwrap 32 accountNumber) l with
  | inl _ => "Account not found"
  | inr name => name
  end.

Definition AccountNumber (accountName : string) (l : L) : goerr + Z :=
  lib_AccountNumber accountName l.

Definition HDPathForAccount (accountNumber : Z) (l : L) : goerr + string :=
  match lib_CoinType l with
  | inl err => inl (translateError err)
  | inr cointype =>
      let isLegacyCoinType := bool_decide (cointype = LegacyCoinType) in
      let hdPath :=
        if decide (params_name = mainnet_name) then
          if isLegacyCoinType then LegacyMainnetHDPath else MainnetHDPath
        else
          if isLegacyCoinType then LegacyTestnetHDPath else TestnetHDPath in
      inr (String.append hdPath (Itoa accountNumber))
  end.

(** ** address.go *)
Definition ErrAddressDiscoveryNotDone : goerr := EWrap KOther (ENew "address_discovery_not_done").

Definition IsAddressValid (address : string) : bool :=
  match DecodeAddress address chainParams with inl _ => false | inr _ => true end.

Definition HaveAddress (address : string) (l : L) : bool :=
  match DecodeAddress address chainParams with
  | inl _ => false
  | inr addr => match lib_HaveAddress addr l with inl _ => false | inr have => have end
  end.

(** The error of [AddressInfo] is not looked at. *)
Definition AccountOfAddress (address : string) (l : L) : outcome string :=
  match DecodeAddress address chainParams with
  | inl err => Ok (Error_ err)
  | inr addr =>
      match lib_AddressInfo addr l with
      | inl _ => Panic
      | inr info => Ok (AccountName (wrap32 (ma_Account info)) l)
      end
  end.

Definition AddressInfo_ (address : string) (l : L) : goerr + AddressInfo :=
  match DecodeAddress address chainParams with
  | inl err => inl err
  | inr addr =>
      inr (match lib_AddressInfo addr l with
           | inl _ => mkAddressInfo address false 0 EmptyString
           | inr info => mkAddressInfo address true (ma_Account info)
                           (AccountName (wrap32 (ma_Account info)) l)
           end)
  end.

(** Both calls wait for the discovery of a restored wallet's addresses. *)
Definition discovered_address (f : L → (goerr + Address) * L) (l : L) : (goerr + string) * L :=
  if IsRestored winfo && negb (HasDiscoveredAccounts winfo) then (inl ErrAddressDiscoveryNotDone, l)
  else match f l with
       | (inl err, l) => (inl err, l)
       | (inr addr, l) => (inr (AddressString addr), l)
       end.

Definition CurrentAddress (account : Z) : L → (goerr + string) * L :=
  discovered_address (lib_CurrentAddress (uwrap 32 account)).
Definition NextAddress (account : Z) : L → (goerr + string) * L :=
  discovered_address (lib_NewExternalAddress (uwrap 32 account)).

Definition AddressPubKey (address : string) (l : L) : goerr + string :=
  match DecodeAddress address chainParams with
  | inl err => inl err
  | inr addr =>
      match lib_AddressInfo addr l with
      | inl err => inl err
      | inr ma =>
          match ExportPubKey ma with
          | None => inl (ENew "address is not a managed pub key address")
          | Some pubKey =>
              match DecodeString (bs pubKey) with
              | inl err => inl err
              | inr pubKeyBytes => NewAddressSecpPubKey pubKeyBytes chainParams
              end
          end
      end
  end.

(** ** Theorems *)

(** [int32] and back is the identity on the numbers of the library. *)
Lemma uwrap_wrap32 (n : Z) : (0 ≤ n < 2 ^ 32)%Z → uwrap 32 (wrap32 n) = n.
Proof.
  intros Hn. unfold uwrap. destruct (wrap_shift 32 n) as [k ->].
  rewrite Z_mod_plus_full. by apply Z.mod_small.
Qed.

(** What the report of the account [n] of the library says. *)
Definition reported (l : L) (n : Z) (a : Account) : Prop :=
  ∃ props b, lib_AccountProperties n l = inr props ∧
    lib_CalculateAccountBalance n requiredConfirmations l = inr b ∧
    ac_WalletID a = walletID ∧ ac_Number a = wrap32 n ∧ ac_Name a = ap_AccountName props ∧
    ac_TotalBalance a = b_Total b ∧ Total (ac_Balance a) = b_Total b ∧
    Spendable (ac_Balance a) = b_Spendable b ∧
    ExternalKeyCount a = key_count (LastUsedExternalIndex props) ∧
    InternalKeyCount a = key_count (LastUsedInternalIndex props).

Definition answered (l : L) (n : Z) : Prop :=
  ∃ props b, lib_AccountProperties n l = inr props ∧
    lib_CalculateAccountBalance n requiredConfirmations l = inr b.

Lemma GetAccount_spec (l : L) (n : Z) :
  (0 ≤ n < 2 ^ 32)%Z →
  (∃ a, GetAccount (wrap32 n) l = inr a ∧ reported l n a) ∨
  (∃ e, GetAccount (wrap32 n) l = inl e ∧ ¬ answered l n).
Proof.
  intros Hn. unfold GetAccount, GetAccountBalance, reported, answered.
  rewrite uwrap_wrap32 by done.
  destruct (lib_AccountProperties n l) as [e|props]; [right; eexists; split; [done|];
    intros (? & ? & ? & ?); congruence|].
  destruct (lib_CalculateAccountBalance n _ l) as [e|b]; [right; eexists; split; [done|];
    intros (? & ? & ? & ?); congruence|].
  left. eexists. split; [done|]. exists props, b. by split_and!.
Qed.

(** The list of accounts is complete or an error: if every account the
    library lists answers, there is one report for each, in order, with the
    properties and the balance of that very account (the numbers survive the
    conversions); if one does not, there is no list at all. *)
Theorem GetAccountsRaw_spec (l : L) (numbers : list Z) (hash : bytes) (height : Z) :
  lib_Accounts l = inr (numbers, hash, height) → Forall (λ n, 0 ≤ n < 2 ^ 32)%Z numbers →
  match GetAccountsRaw l with
  | inr a => Count_ a = zlen (Acc a) ∧ CurrentBlockHash a = hash ∧ CurrentBlockHeight a = height ∧
      Forall2 (reported l) numbers (Acc a)
  | inl _ => ¬ Forall (answered l) numbers ∧ GetAccounts l = (EmptyString, None)
  end.
Proof.
  intros Hl Hn. unfold GetAccounts, GetAccountsRaw. rewrite Hl.
  assert (Hg : match get_accounts numbers l with
               | inr a => Forall2 (reported l) numbers a
               | inl _ => ¬ Forall (answered l) numbers
               end).
  { clear Hl. induction Hn as [|n ns Hn _ IH]; simpl; [done|].
    destruct (GetAccount_spec l n Hn) as [(a & -> & Ha)|(e & -> & Ha)].
    - destruct (get_accounts ns l) as [e|accounts]; [by intros [_ ?]%Forall_cons|].
      by constructor.
    - by intros [? _]%Forall_cons. }
  destruct (get_accounts numbers l) as [e|accounts]; [done|].
  simpl. split_and!; try done. by rewrite (Forall2_length _ _ _ Hg).
Qed.

(** The number of keys: 20 more than the last index used, and 19 when there is
    none, as the library says [2 ^ 32 - 1] then; indexes from [2 ^ 31 - 20] on
    give a negative number. *)
Theorem key_count_spec (n : Z) :
  (0 ≤ n < 2 ^ 32)%Z →
  key_count n = (if decide (n < 2 ^ 31 - 20) then n + 20 else n + 20 - 2 ^ 32)%Z.
Proof.
  intros Hn. unfold key_count, uwrap.
  destruct (decide (n < 2 ^ 32 - 20)%Z) as [Hs|Hs].
  - rewrite Z.mod_small by lia. case_decide; [by apply wrap32_id; unfold in_int; lia|].
    replace (n + 20)%Z with (n + 20 - 2 ^ 32 + 1 * 2 ^ 32)%Z at 1 by lia.
    rewrite wrap_mult. apply wrap32_id. unfold in_int. lia.
  - rewrite decide_False by lia. replace (n + 20)%Z with (n + 20 - 2 ^ 32 + 1 * 2 ^ 32)%Z at 1 by lia.
    rewrite Z_mod_plus_full, Z.mod_small by lia. apply wrap32_id. unfold in_int. lia.
Qed.

(** An account is created only with the passphrase of the wallet, with a number
    not in use; in every case the wallet's other accounts stay, and the caller's
    passphrase is overwritten. *)
Theorem NextAccount_spec `{!AccountLibLaws L Address} (name : string) (pass : bytes) (l l' : L)
    (r : goerr + Z) (pass' : bytes) :
  NextAccount name pass l = (r, l', pass') →
  pass' = zeroed pass ∧
  match r with
  | inr n => ∃ u, pass = acc_passphrase l ∧ n = wrap32 u ∧ u ∉ acc_numbers l ∧
      acc_numbers l' = acc_numbers l ++ [u]
  | inl _ => acc_numbers l' = acc_numbers l
  end.
Proof.
  unfold NextAccount. pose proof (acc_unlock_numbers pass l) as Hu.
  destruct (acc_Unlock pass l) as [[e|] l1] eqn:E; simpl in Hu; [by intros [= <- <- <-]|].
  destruct (lib_NextAccount name l1) as [[e|n] l2] eqn:En; intros [= <- <- <-]; split; try done.
  - rewrite acc_relock_numbers, (acc_next_err _ _ _ _ En). done.
  - apply acc_unlock_right in E. destruct (acc_next_ok _ _ _ _ En) as [Hin Hn].
    exists n. rewrite acc_relock_numbers, Hn, Hu. rewrite Hu in Hin. done.
Qed.

(** Before the addresses of a restored wallet are discovered no address is
    given out, and none is derived; after that, the library's. *)
Theorem addresses_wait (account : Z) (l : L) :
  (IsRestored winfo = true ∧ HasDiscoveredAccounts winfo = false →
   NextAddress account l = (inl ErrAddressDiscoveryNotDone, l) ∧
   CurrentAddress account l = (inl ErrAddressDiscoveryNotDone, l)) ∧
  (IsRestored winfo = false ∨ HasDiscoveredAccounts winfo = true →
   NextAddress account l =
     (match (lib_NewExternalAddress (uwrap 32 account) l).1 with
      | inl e => inl e | inr a => inr (AddressString a) end,
      (lib_NewExternalAddress (uwrap 32 account) l).2)).
Proof.
  unfold NextAddress, CurrentAddress, discovered_address. split.
  - by intros [-> ->].
  - intros H. replace (IsRestored winfo && negb (HasDiscoveredAccounts winfo)) with false
      by (destruct H as [-> | ->]; [done|by rewrite andb_false_r]).
    by destruct (lib_NewExternalAddress _ l) as [[e|a] l'].
Qed.

(** Paths of different accounts differ. *)
Theorem HDPath_inj (i j : Z) (l : L) (p : string) :
  (0 ≤ i)%Z → (0 ≤ j)%Z → HDPathForAccount i l = inr p → HDPathForAccount j l = inr p → i = j.
Proof.
  intros Hi Hj. unfold HDPathForAccount. destruct (lib_CoinType l); [done|].
  intros [= <-] [= H]. apply append_inj_l in H. symmetry in H. by apply Itoa_inj in H.
Qed.

(** Asking for the account of an address that is valid but not the wallet's
    panics: the error that comes with the missing address is dropped. *)
Theorem AccountOfAddress_panics (address : string) (a : Address) (l : L) (e : goerr) :
  DecodeAddress address chainParams = inr a → lib_AddressInfo a l = inl e →
  AccountOfAddress address l = Panic ∧ AddressInfo_ address l = inr (mkAddressInfo address false 0 "").
Proof. intros Ha Hi. unfold AccountOfAddress, AddressInfo_. by rewrite Ha, Hi. Qed.
End Accounts.

(** ** Iterators *)
Lemma nexts_from {A} (l : list A) (i n : nat) :
  nexts n (mkIterator i l) =
    (take n ((Some <$> drop i l) ++ replicate n None), mkIterator (min (i + n) (max i (length l))) l).
Proof.
  revert i. induction n as [|n IH]; intros i; simpl.
  { replace (min (i + 0) _) with i by lia. done. }
  unfold Next. simpl. destruct (l !! i) as [x|] eqn:Hx.
  - apply lookup_lt_Some in Hx as Hi. rewrite IH, (drop_S l x i) by done. simpl.
    replace (min (i + S n) _) with (min (S (i + n)) (max (S i) (length l))) by lia.
    rewrite replicate_cons_app, app_assoc, (take_app_le _ [_]); [done|].
    rewrite length_app, length_replicate. lia.
  - apply lookup_ge_None in Hx. rewrite IH, (drop_ge l i) by done. simpl.
    rewrite !firstn_all2 by (rewrite length_replicate; lia).
    by replace (min (i + S n) _) with (min (i + n) (max i (length l))) by lia.
Qed.

(** Iterating over the wallets meets every wallet once, whatever the order of
    the map, then [nil] for ever; after a reset it starts over. *)
Theorem iterator_spec {A} (order : list Z) (wallets : gmap Z A) (k : nat) :
  order ≡ₚ (map_to_list wallets).*1 →
  let it := WalletsIterator order wallets in
  let '(seen, it') := nexts (size wallets + k) it in
  Reset_ it' = it ∧
  ∃ ws, seen = (Some <$> ws) ++ replicate k None ∧ ws ≡ₚ (map_to_list wallets).*2.
Proof.
  intros Ho. cbv zeta. unfold WalletsIterator. rewrite nexts_from. split; [done|].
  assert (Hp : AllWallets order wallets ≡ₚ (map_to_list wallets).*2).
  { unfold AllWallets. rewrite Ho.
    assert (Hl : ∀ l, l ⊆ map_to_list wallets → omap (λ i, wallets !! i) l.*1 = l.*2).
    { induction l as [|[i x] l IH]; intros Hl; [done|]. simpl.
      rewrite (proj1 (elem_of_map_to_list wallets i x)) by (apply Hl; set_solver).
      f_equal. apply IH. set_solver. }
    by rewrite Hl. }
  exists (AllWallets order wallets). split; [|done].
  assert (Hs : length (AllWallets order wallets) = size wallets).
  { rewrite (Permutation_length Hp), length_fmap. apply length_map_to_list. }
  rewrite drop_0, (Nat.add_comm (size _)), replicate_add, app_assoc.
  apply take_app_length'. rewrite length_app, length_fmap, length_replicate. lia.
Qed.

(** ** A library with two accounts, one of them without keys *)
Module ToyAccounts.
Inductive T := Toy (names : list string) (locked : bool).

#[export] Instance ops : AccountLib T string := {|
  lib_Accounts := λ '(Toy ns _), inr (Z.of_nat <$> seq 0 (length ns), [x00], 7%Z);
  lib_AccountProperties := λ n '(Toy ns _),
    match ns !! Z.to_nat n with
    | Some name => inr (mkProps name (if decide (n = 0)%Z then 5 else 2 ^ 32 - 1) 0 0)
    | None => inl (EKind KNotExist "account")
    end;
  lib_CalculateAccountBalance := λ n _ _, inr (mkBalances (n * 10) n 0 0 0 0 0);
  lib_NextAccount := λ name '(Toy ns b), (inr (zlen ns), Toy (ns ++ [name]) b);
  lib_RenameAccount := λ n name '(Toy ns b), (None, Toy (<[Z.to_nat n := name]> ns) b);
  lib_AccountName := λ n '(Toy ns _),
    match ns !! Z.to_nat n with Some name => inr name | None => inl (EKind KNotExist "account") end;
  lib_AccountNumber := λ _ _, inl (EKind KNotExist "account");
  lib_CoinType := λ _, inr 42%Z;
  lib_HaveAddress := λ _ _, inr false;
  lib_AddressInfo := λ _ _, inl (EKind KNotExist "address");
  lib_CurrentAddress := λ _ l, (inr "a", l);
  lib_NewExternalAddress := λ _ l, (inr "b", l);
  acc_Unlock := λ p '(Toy ns b),
    if decide (p = bs "pw") then (None, Toy ns false) else (Some (EKind KPassphrase "p"), Toy ns b);
  acc_Relock := λ '(Toy ns _), Toy ns true;
  acc_passphrase := λ _, bs "pw";
  acc_numbers := λ '(Toy ns _), Z.of_nat <$> seq 0 (length ns)
|}.

#[export] Instance laws : AccountLibLaws T string.
Proof.
  split.
  - intros p [ns b] l'. simpl. by case_decide.
  - intros p [ns b]. simpl. by case_decide.
  - by intros [ns b].
  - intros name [ns b] n l' [= <- <-]. simpl. rewrite length_app, Nat.add_1_r, seq_S, fmap_app. simpl.
    split; [|done]. intros (i & Hi & Hin)%list_elem_of_fmap. apply elem_of_seq in Hin. lia.
  - by intros name [ns b] e l'.
Qed.
End ToyAccounts.
Import ToyAccounts.

Definition two_accounts : ToyAccounts.T := Toy ["default"; "savings"] true.

Lemma GetAccountsRaw_spec_witness :
  ∃ a, GetAccountsRaw (Address := string) 1 2 two_accounts = inr a ∧
    (ac_Number <$> Acc a, ExternalKeyCount <$> Acc a) = ([0; 1]%Z, [25; 19]%Z) ∧
    Count_ a = zlen (Acc a).
Proof.
  pose proof (GetAccountsRaw_spec (Address := string) 1 2 (λ _, EmptyString) two_accounts
                [0; 1]%Z [x00] 7 eq_refl ltac:(repeat constructor; lia)) as H.
  eexists. split; [vm_compute; reflexivity|]. split; [reflexivity|]. exact (proj1 H).
Defined.
