(* ===== verification/Ticket.v ===== *)
(** * [ticket.go], [ticketstatus.go]: listing and buying tickets

    The library's wallet is the interface [TicketLib], on top of [AccountLib];
    the voting service provider is a function from the address and the body of
    a request to its reply, whose JSON is read. *)
From Stdlib Require Import Floats.SpecFloat Strings.Ascii.
From S2P Require Import Prelude Float Wire TxHelper Encoding Utils Wallet Accounts.

(** ** The library's types *)
Inductive TicketStatus :=
| TicketStatusUnknown | TicketStatusUnmined | TicketStatusImmature | TicketStatusLive
| TicketStatusVoted | TicketStatusMissed | TicketStatusExpired | TicketStatusRevoked
| TicketStatusOther (n : Z).

(** [w.TransactionSummary], as far as a ticket's report copies it. *)
Record TxSummary := mkTxSummary {
  s_Hash : Hash; s_Transaction : bytes; s_MyInputs : list Z; s_MyOutputs : list Z;
  s_Fee : Z; s_Timestamp : Z; s_Type : Z }.

(** The spender is a pointer, [None] when it is nil. *)
Record TicketSummary := mkTicketSummary {
  Ticket : TxSummary; Spender : option TxSummary; Status : TicketStatus }.

Inductive BlockIdentifier := FromHash (h : Hash) | FromHeight (height : Z).

(** The network backend of a wallet: an RPC client of dcrd, or another. *)
Inductive NetBackend := RPC | NotRPC.

(** [w.PurchaseTicketsRequest] *)
Record LibRequest (Address : Type) := mkLibRequest {
  Count : Z; SourceAccount : Z; VotingAddress : option Address; MinConf : Z; lib_Expiry : Z }.
Arguments mkLibRequest {_} _ _ _ _ _.
Arguments Count {_} _.
Arguments SourceAccount {_} _.
Arguments VotingAddress {_} _.
Arguments MinConf {_} _.
Arguments lib_Expiry {_} _.

(** JSON values, as the decoder makes them. *)
Inductive json :=
| JNull | JString (s : string) | JNumber (f : f64) | JObject (m : list (string * json)) | JOther.

(** The last of equal keys wins. *)
Definition field (m : list (string * json)) (k : string) : option json :=
  list_find (λ p, p.1 = k) (rev m) ≫= λ '(_, (_, v)), Some v.

(** [lib_GetTickets]: the tickets of each block (its height is [None] for
    tickets that are not mined), in the order the library goes through them,
    and the error at the end, if any; [true] asks for precise states. *)
Class TicketLib (L Address : Type) := {
  tk_Backend : L → goerr + NetBackend;
  lib_StakeInfo : bool → L → goerr + list Z;
  lib_GetTickets : bool → option BlockIdentifier → option BlockIdentifier → L →
    list (list TicketSummary * option Z) * option goerr;
  lib_NextStakeDifficulty : L → goerr + Z;
  lib_MainChainTip : L → Hash * Z;
  net_StakeDifficulty : L → goerr + Z;
  lib_TicketFeeIncrement : L → Z;
  lib_ImportScript : bytes → L → option goerr * L;
  lib_PurchaseTickets : LibRequest Address → L → (goerr + list Hash) * L;
  NewHash : bytes → goerr + Hash;
  Hash_String : Hash → string;
  ValidPoolFeeRate : f64 → bool;
  asked : L → list (LibRequest Address)  (* the purchases asked for so far, for the theorems *)
}.

(** Every purchase that is asked for is counted, whether it succeeds or not, and
    nothing else is; the passphrase of the wallet stays the same. *)
Class TicketLibLaws (L Address : Type) `{!AccountLib L Address, !TicketLib L Address} := {
  pu_unlock p l : asked (acc_Unlock p l).2 = asked l;
  pu_relock l : asked (acc_Relock l) = asked l;
  pu_current n l : asked (lib_CurrentAddress n l).2 = asked l;
  pu_import s l : asked (lib_ImportScript s l).2 = asked l;
  pu_passphrase_current n l : acc_passphrase (lib_CurrentAddress n l).2 = acc_passphrase l;
  pu_passphrase_unlock p l : acc_passphrase (acc_Unlock p l).2 = acc_passphrase l;
  pu_passphrase_relock l : acc_passphrase (acc_Relock l) = acc_passphrase l;
  pu_passphrase_import s l : acc_passphrase (lib_ImportScript s l).2 = acc_passphrase l;
  pu_purchase r l : asked (lib_PurchaseTickets r l).2 = asked l ++ [r]
}.

(** ** types.go *)
Record PurchaseTicketsRequest := mkRequest {
  Account : Z; RequiredConfirmations : Z; NumTickets : Z; Passphrase : bytes; Expiry : Z;
  TxFee : Z; TicketAddress : string; PoolAddress : string; PoolFees : f64; TicketFee : Z }.
Record GetTicketsRequest := mkGetTickets {
  StartingBlockHash : option bytes; StartingBlockHeight : Z;
  EndingBlockHash : option bytes; EndingBlockHeight : Z; TargetTicketCount : Z }.
Record TicketInfo := mkTicketInfo {
  ti_BlockHeight : Z; ti_Status : string; ti_Ticket : TxSummary; ti_Spender : TxSummary }.
Record TicketPriceResponse := mkPrice { TicketPrice_ : Z; Height : Z }.
Record VSPTicketPurchaseInfo := mkVSPInfo {
  v_PoolAddress : string; v_PoolFees : f64; v_Script : string; v_TicketAddress : string }.

Definition set_vsp (i : VSPTicketPurchaseInfo) (r : PurchaseTicketsRequest) : PurchaseTicketsRequest :=
  mkRequest (Account r) (RequiredConfirmations r) (NumTickets r) (Passphrase r) (Expiry r) (TxFee r)
    (v_TicketAddress i) (v_PoolAddress i) (v_PoolFees i) (TicketFee r).

(** ** ticketstatus.go *)
Definition ticketStatusString (ticketStatus : TicketStatus) : string :=
  match ticketStatus with
  | TicketStatusUnknown => "UNKNOWN"
  | TicketStatusUnmined => "UNMINED"
  | TicketStatusImmature => "IMMATURE"
  | TicketStatusLive => "LIVE"
  | TicketStatusVoted => "VOTED"
  | TicketStatusMissed => "MISSED"
  | TicketStatusExpired => "EXPIRED"
  | TicketStatusRevoked => "REVOKED"
  | TicketStatusOther _ => "UNKNOWN"
  end.

(** ** Requests to the voting service provider *)

(** [strings.TrimSuffix(s, "/")] *)
Definition trim_slash (s : chars) : chars :=
  match rev s with c :: r => if decide (c = "/"%char) then rev r else s | [] => s end.

Definition vsp_url (vspHost : string) : string :=
  of_chars (trim_slash (to_chars vspHost) ++ to_chars "/api/v2/purchaseticket").
Definition vsp_body (pubKeyAddr : string) : string :=
  of_chars (to_chars "UserPubKeyAddr=" ++ QueryEscape (to_chars pubKeyAddr)).

(** The reply: an error of the connection, or the decoded body, which is an
    error when it is no JSON.  [null] leaves the map of the reply nil, other
    values that are no object are errors of the decoder. *)
Definition vsp_reply : Type := goerr + (goerr + json).

Definition assert_object (v : option json) : option (list (string * json)) :=
  match v with Some (JObject m) => Some m | _ => None end.
Definition assert_string (v : option json) : option string :=
  match v with Some (JString s) => Some s | _ => None end.
Definition assert_number (v : option json) : option f64 :=
  match v with Some (JNumber f) => Some f | _ => None end.

(** The type assertions panic. *)
Definition vsp_info (apiResponse : list (string * json)) : outcome VSPTicketPurchaseInfo :=
  match assert_object (field apiResponse "data") with
  | None => Panic
  | Some data =>
      match assert_string (field data "Script"), assert_number (field data "PoolFees"),
            assert_string (field data "PoolAddress"), assert_string (field data "TicketAddress") with
      | Some script, Some fees, Some pool, Some ticket => Ok (mkVSPInfo pool fees script ticket)
      | _, _, _, _ => Panic
      end
  end.

Definition CallVSPTicketInfoAPI (post : string → string → vsp_reply) (vspHost pubKeyAddr : string)
    : outcome VSPTicketPurchaseInfo :=
  match post (vsp_url vspHost) (vsp_body pubKeyAddr) with
  | inl err => Err err
  | inr (inl err) => Err err
  | inr (inr (JObject m)) => vsp_info m
  | inr (inr JNull) => vsp_info []
  | inr (inr _) => Err (ELib "json: cannot unmarshal")
  end.

Section Ticket.
Context {L Params Address : Type}.
Context `{!AccountLib L Address, !TicketLib L Address, !TxLib Params Address}.
Context (chainParams : Params) (winfo : WalletInfo).
Context (NewAddressSecpPubKey : bytes → Params → goerr + string).
(** The network beyond the wallet: the provider. *)
Context (post : string → string → vsp_reply).

(** ** Listing *)
Definition is_rpc (l : L) : bool :=
  match tk_Backend l with inr RPC => true | _ => false end.

Definition StakeInfo (l : L) : goerr + list Z := lib_StakeInfo (is_rpc l) l.

(** One end of the range: a hash, a height that is not 0, or nothing. *)
Definition block_identifier (hash : option bytes) (height : Z) (both : goerr)
    : goerr + option BlockIdentifier :=
  match hash with
  | Some h =>
      if decide (height ≠ 0)%Z then inl both
      else match NewHash h with
           | inl err => inl err
           | inr h => inr (Some (FromHash h))
           end
  | None => if decide (height ≠ 0)%Z then inr (Some (FromHeight height)) else inr None
  end.

(** [rangeFn]: [None] is a panic.  The tickets before a panic do not matter. *)
Fixpoint append_tickets (tickets : list TicketSummary) (block : option Z) (infos : list TicketInfo)
    : option (list TicketInfo) :=
  match tickets with
  | [] => Some infos
  | t :: rest =>
      let blockHeight := match block with Some h => wrap32 h | None => -1 end%Z in
      match Spender t with
      | None => None
      | Some spender =>
          append_tickets rest block
            (infos ++ [mkTicketInfo blockHeight (ticketStatusString (Status t)) (Ticket t) spender])
      end
  end.

Definition rangeFn (targetTicketCount : Z) (tickets : list TicketSummary) (block : option Z)
    (infos : list TicketInfo) : option (list TicketInfo * bool) :=
  match append_tickets tickets block infos with
  | None => None
  | Some infos =>
      Some (infos, bool_decide (targetTicketCount > 0)%Z && bool_decide (targetTicketCount ≤ zlen infos)%Z)
  end.

(** The library calls [rangeFn] for block after block until it says [true];
    its own error comes when it gets to the end. *)
Fixpoint drive (target : Z) (batches : list (list TicketSummary * option Z)) (final : option goerr)
    (infos : list TicketInfo) : outcome (list TicketInfo * option goerr) :=
  match batches with
  | [] => Ok (infos, final)
  | (tickets, block) :: rest =>
      match rangeFn target tickets block infos with
      | None => Panic
      | Some (infos, true) => Ok (infos, None)
      | Some (infos, false) => drive target rest final infos
      end
  end.

(** The tickets and the error; both are returned when the library fails. *)
Definition getTickets (req : GetTicketsRequest) (l : L) : outcome (list TicketInfo * option goerr) :=
  match block_identifier (StartingBlockHash req) (StartingBlockHeight req)
          (ENew "starting block hash and height may not be specified simultaneously") with
  | inl err => Ok ([], Some err)
  | inr startBlock =>
      match block_identifier (EndingBlockHash req) (EndingBlockHeight req)
              (ENew "ending block hash and height may not be specified simultaneously") with
      | inl err => Ok ([], Some err)
      | inr endBlock =>
          if decide (TargetTicketCount req < 0)%Z then
            Ok ([], Some (ENew "target ticket count may not be negative"))
          else
            let '(batches, final) := lib_GetTickets (is_rpc l) startBlock endBlock l in
            drive (TargetTicketCount req) batches final []
      end
  end.

Definition GetTickets (startingBlockHash endingBlockHash : option bytes) (targetCount : Z)
    : L → outcome (list TicketInfo * option goerr) :=
  getTickets (mkGetTickets startingBlockHash 0 endingBlockHash 0 targetCount).
Definition GetTicketsForBlockHeightRange (startHeight endHeight targetCount : Z)
    : L → outcome (list TicketInfo * option goerr) :=
  getTickets (mkGetTickets None startHeight None endHeight targetCount).

Definition TicketPrice (l : L) : goerr + TicketPriceResponse :=
  let tipHeight := (lib_MainChainTip l).2 in
  match lib_NextStakeDifficulty l with
  | inr sdiff => inr (mkPrice sdiff tipHeight)
  | inl _ =>
      match tk_Backend l with
      | inl err => inl err
      | inr _ =>
          match net_StakeDifficulty l with
          | inl err => inl (translateError err)
          | inr ticketPrice => inr (mkPrice ticketPrice tipHeight)
          end
      end
  end.

(** ** Buying *)

(** The caller's request, which is written to, and the library. *)
Abbreviation TM := (GM (PurchaseTicketsRequest * L)).

Definition tlib {A} (f : L → (goerr + A) * L) : TM A := λ '(req, l),
  match f l with (inl e, l) => (Err e, (req, l)) | (inr a, l) => (Ok a, (req, l)) end.
Definition tpure {A} (r : goerr + A) : TM A := tlib (λ l, (r, l)).

(** Errors get a prefix: the text is the kind of error here. *)
Definition prefixed {A} (msg : string) (m : TM A) : TM A := λ s,
  match m s with (Err _, s') => (Err (ENew msg), s') | r => r end.

(** [errors.Is(errors.Exist, err)], with the arguments in this order: is the
    bare kind equal to [err]? *)
Definition is_exactly (k : Kind) (err : goerr) : bool := bool_decide (err = EKind k EmptyString).

(** The error of [Unlock] is not looked at; a failed unlock leaves nothing to
    lock again. *)
Definition import_redeem_script (rs : bytes) : TM unit := λ '(req, l),
  let '(e, l) := acc_Unlock (Passphrase req) l in
  let '(err, l) := lib_ImportScript rs l in
  let l := match e with None => acc_Relock l | Some _ => l end in
  match err with
  | Some err => if is_exactly KExist err then (Ok tt, (req, l))
                else (Err (ENew "error importing vsp redeem script"), (req, l))
  | None => (Ok tt, (req, l))
  end.

Definition updateTicketPurchaseRequestWithVSPInfo (vspHost : string) : TM unit :=
  let! address := prefixed "get wallet pubkeyaddr error" (tlib (CurrentAddress winfo 0)) in
  let! s := getS in
  let! pubKeyAddr := prefixed "get wallet pubkeyaddr error"
    (tpure (AddressPubKey chainParams NewAddressSecpPubKey address s.2)) in
  let! info := prefixed "vsp connection error"
    (λ s, (CallVSPTicketInfoAPI post vspHost pubKeyAddr, s)) in
  let! rs := prefixed "invalid vsp purchase ticket response"
    (tpure (DecodeString (bs (v_Script info)))) in
  import_redeem_script rs ;;
  modify (λ '(req, l), (set_vsp info req, l)).

(** An address that may be left out. *)
Definition optional_address (address : string) (err : goerr) : goerr + option Address :=
  if decide (address = EmptyString) then inr None
  else match DecodeAddress address chainParams with inl _ => inl err | inr a => inr (Some a) end.

Definition fee_positive (f : f64) : bool := SFltb (S754_zero false) f.
Definition fee_not_positive (f : f64) : bool := SFleb f (S754_zero false).

(** The checks of the request, in order, to the address that votes. *)
Definition validate (req : PurchaseTicketsRequest) (l : L) : goerr + option Address :=
  match optional_address (TicketAddress req) (ENew "Invalid ticket address") with
  | inl err => inl err
  | inr ticketAddr =>
      match optional_address (PoolAddress req) (ENew "Invalid pool address") with
      | inl err => inl err
      | inr poolAddr =>
          let fees := PoolFees req in
          let ticketFee := if decide (TicketFee req > 0)%Z then TicketFee req
                           else lib_TicketFeeIncrement l in
          if fee_positive fees && negb (ValidPoolFeeRate fees) then
            inl (ENew "Invalid pool fees percentage")
          else if fee_positive fees && negb (bool_decide (is_Some poolAddr)) then
            inl (ENew "Pool fees set but no pool addresshelper given")
          else if fee_not_positive fees && bool_decide (is_Some poolAddr) then
            inl (ENew "Pool fees negative or unset but pool addresshelper given")
          else if decide (NumTickets req < 1)%Z then
            inl (ENew "Zero or negative number of tickets given")
          else if decide (TxFee req < 0 ∨ ticketFee < 0)%Z then
            inl (ENew "Negative fees per KB given")
          else inr ticketAddr
      end
  end.

Definition lib_request (req : PurchaseTicketsRequest) (ticketAddr : option Address)
    : LibRequest Address :=
  mkLibRequest (NumTickets req) (Account req) ticketAddr (wrap32 (RequiredConfirmations req))
    (wrap32 (Expiry req)).

Definition buy (request : LibRequest Address) (l : L) : (goerr + list string) * L :=
  match tk_Backend l with
  | inl err => (inl err, l)
  | inr _ =>
      match lib_PurchaseTickets request l with
      | (inl _, l) => (inl (ENew "unable to purchase tickets"), l)
      | (inr hashes, l) => (inr (Hash_String <$> hashes), l)
      end
  end.

(** The wallet is locked again when the call returns. *)
Definition unlocked_buy (req : PurchaseTicketsRequest) (ticketAddr : option Address) (l : L)
    : (goerr + list string) * L :=
  match acc_Unlock (Passphrase req) l with
  | (Some err, l) => (inl (translateError err), l)
  | (None, l) => let '(r, l) := buy (lib_request req ticketAddr) l in (r, acc_Relock l)
  end.

Definition PurchaseTickets (vspHost : string) : TM (list string) :=
  (if decide (vspHost ≠ EmptyString) then updateTicketPurchaseRequestWithVSPInfo vspHost
   else ret tt) ;;
  let! s := getS in
  let! ticketAddr := tpure (validate s.1 s.2) in
  tlib (unlocked_buy s.1 ticketAddr).

(** ** Theorems *)

Definition report (block : option Z) (t : TicketSummary) (spender : TxSummary) : TicketInfo :=
  mkTicketInfo (match block with Some h => wrap32 h | None => -1 end)%Z
    (ticketStatusString (Status t)) (Ticket t) spender.

(** What is reported of a block, when every ticket has a spender. *)
Definition reports (b : list TicketSummary * option Z) : list TicketInfo :=
  omap (λ t, report b.2 t <$> Spender t) b.1.
Definition spent (b : list TicketSummary * option Z) : Prop :=
  Forall (λ t, is_Some (Spender t)) b.1.

Lemma append_tickets_spec (b : list TicketSummary * option Z) (infos : list TicketInfo) :
  append_tickets b.1 b.2 infos =
    if decide (spent b) then Some (infos ++ reports b) else None.
Proof.
  destruct b as [ts block]. unfold spent, reports. simpl. revert infos.
  induction ts as [|t ts IH]; intros infos; simpl.
  { by rewrite app_nil_r. }
  destruct (Spender t) as [sp|] eqn:Es; simpl.
  - rewrite IH. destruct (decide (Forall _ ts)) as [H|H].
    + rewrite decide_True by (constructor; [by rewrite Es|done]). by rewrite <- app_assoc.
    + rewrite decide_False; [done|]. by intros [_ ?]%Forall_cons.
  - rewrite decide_False; [done|]. intros [H _]%Forall_cons. rewrite Es in H. by destruct H.
Qed.

(** How many blocks are gone through: up to the first that brings the tickets to
    the target. *)
Definition enough (target : Z) (n : nat) : bool :=
  bool_decide (target > 0)%Z && bool_decide (target ≤ Z.of_nat n)%Z.
Fixpoint visited (target : Z) (batches : list (list TicketSummary * option Z)) (n : nat)
    : list (list TicketSummary * option Z) * bool :=
  match batches with
  | [] => ([], false)
  | b :: rest =>
      let n := n + length (reports b) in
      if enough target n then ([b], true)
      else let '(v, full) := visited target rest n in (b :: v, full)
  end.

Lemma drive_spec (target : Z) (batches : list (list TicketSummary * option Z))
    (final : option goerr) (infos : list TicketInfo) :
  drive target batches final infos =
    let '(v, full) := visited target batches (length infos) in
    if decide (Forall spent v) then Ok (infos ++ (v ≫= reports), if full then None else final)
    else Panic.
Proof.
  revert infos. induction batches as [|[ts block] bs IH]; intros infos; simpl.
  { by rewrite app_nil_r. }
  unfold rangeFn. pose proof (append_tickets_spec (ts, block) infos) as Ha. simpl in Ha. rewrite Ha.
  assert (Hl : length (infos ++ reports (ts, block)) = length infos + length (reports (ts, block)))
    by apply length_app.
  destruct (decide (spent (ts, block))) as [Hs|Hs].
  - rewrite Hl. fold (enough target (length infos + length (reports (ts, block)))).
    destruct (enough target _) eqn:Ee.
    + rewrite decide_True by (repeat constructor; done). simpl. by rewrite app_nil_r.
    + rewrite IH, Hl. destruct (visited target bs _) as [v full].
      destruct (decide (Forall spent v)) as [Hv|Hv].
      * rewrite decide_True by (by constructor). simpl. by rewrite <- app_assoc.
      * rewrite decide_False; [done|]. by intros [_ ?]%Forall_cons.
  - destruct (enough target _).
    + rewrite decide_False; [done|]. by intros [? _]%Forall_cons.
    + destruct (visited target bs _) as [v full]. rewrite decide_False; [done|].
      by intros [? _]%Forall_cons.
Qed.

(** The blocks that are gone through are a prefix; it ends at a block if and
    only if that block is the first to bring the tickets to the target. *)
Lemma visited_spec (target : Z) (batches v : list (list TicketSummary * option Z)) (full : bool)
    (n : nat) :
  visited target batches n = (v, full) →
  v `prefix_of` batches ∧
  (∀ u, u `prefix_of` v → u ≠ v → u ≠ [] → enough target (n + length (u ≫= reports)) = false) ∧
  (if full then enough target (n + length (v ≫= reports)) = true
   else v = batches ∧ (v ≠ [] → enough target (n + length (v ≫= reports)) = false)).
Proof.
  revert n v. induction batches as [|b bs IH]; intros n v; simpl.
  { intros [= <- <-]. split_and!; [done| |done..]. by intros u ->%prefix_nil_inv. }
  destruct (enough target (n + length (reports b))) eqn:Ee.
  - intros [= <- <-]. simpl. rewrite app_nil_r. split_and!; [by eexists| |done].
    intros [|x u] Hu Hne Hn; [done|].
    apply prefix_cons_inv_1 in Hu as Hx. apply prefix_cons_inv_2 in Hu. subst x.
    by apply prefix_nil_inv in Hu as ->.
  - destruct (visited target bs _) as [v0 full0] eqn:Ev. intros [= <- <-].
    apply IH in Ev as (Hp & Hu & Hf). split_and!.
    + by apply prefix_cons.
    + intros [|x u] Hpu Hne Hn; [done|]. apply prefix_cons_inv_1 in Hpu as Hx.
      apply prefix_cons_inv_2 in Hpu. subst x. simpl. rewrite length_app, Nat.add_assoc.
      destruct u as [|y u]; [simpl; by rewrite Nat.add_0_r|].
      apply Hu; [done| |done]. congruence.
    + simpl. rewrite length_app, Nat.add_assoc. destruct full0; [done|].
      destruct Hf as [-> Hf]. split; [done|]. intros _.
      destruct bs as [|y bs]; [simpl; by rewrite Nat.add_0_r|]. by apply Hf.
Qed.

(** One end of a range that cannot be asked for, and what is asked for otherwise. *)
Definition refused (hash : option bytes) (height : Z) : Prop :=
  match hash with Some h => height ≠ 0%Z ∨ ∃ err, NewHash h = inl err | None => False end.
Definition names (hash : option bytes) (height : Z) (i : option BlockIdentifier) : Prop :=
  match hash with
  | Some h => height = 0%Z ∧ ∃ h', NewHash h = inr h' ∧ i = Some (FromHash h')
  | None => i = if decide (height = 0)%Z then None else Some (FromHeight height)
  end.

Lemma block_identifier_refused (hash : option bytes) (height : Z) (both : goerr) :
  refused hash height → ∃ err, block_identifier hash height both = inl err.
Proof.
  clear. unfold block_identifier. destruct hash as [h|]; simpl; [|done].
  intros [H|[err ->]]; [rewrite decide_True by done|case_decide]; by eexists.
Qed.

Lemma block_identifier_names (hash : option bytes) (height : Z) (both : goerr) (i : option BlockIdentifier) :
  names hash height i → block_identifier hash height both = inr i.
Proof.
  clear. unfold block_identifier. destruct hash as [h|]; simpl.
  - intros (-> & h' & -> & ->). by rewrite decide_False by (intros []; done).
  - intros ->. by destruct (decide (height = 0)%Z), (decide (height ≠ 0)%Z).
Qed.

(** C31. Listing tickets: a request that names a block both by hash and by
    height, whose hash is none, or that asks for a negative number, is an error
    and lists nothing.  Otherwise the blocks of the range, from the one named
    as start to the one named as end, are reported in the order of the library,
    whole blocks at a time, until the target is reached (so the last block may
    overshoot it, and no earlier one reaches it); the error of the library is
    returned only if the target is not reached.  A ticket without a spender in
    one of these blocks panics, and nothing else does. *)
Theorem getTickets_spec (req : GetTicketsRequest) (l : L) :
  (refused (StartingBlockHash req) (StartingBlockHeight req) ∨
   refused (EndingBlockHash req) (EndingBlockHeight req) ∨ (TargetTicketCount req < 0)%Z →
   ∃ err, getTickets req l = Ok ([], Some err)) ∧
  ∀ (s e : option BlockIdentifier) (batches : list (list TicketSummary * option Z))
    (final : option goerr),
  names (StartingBlockHash req) (StartingBlockHeight req) s →
  names (EndingBlockHash req) (EndingBlockHeight req) e →
  (0 ≤ TargetTicketCount req)%Z → lib_GetTickets (is_rpc l) s e l = (batches, final) →
  ∃ v, v `prefix_of` batches ∧
    match getTickets req l with
    | Ok (infos, err) => infos = v ≫= reports ∧ Forall spent v ∧
        (∀ u, u `prefix_of` v → u ≠ v → u ≠ [] →
           enough (TargetTicketCount req) (length (u ≫= reports)) = false) ∧
        (enough (TargetTicketCount req) (length infos) = true ∧ err = None ∨
         v = batches ∧ err = final)
    | Panic => ¬ Forall spent v
    | Err _ => False
    end.
Proof.
  clear chainParams winfo NewAddressSecpPubKey post. split.
  - intros H. unfold getTickets.
    destruct (block_identifier (StartingBlockHash req) _ _) as [err|s] eqn:Es; [by eexists|].
    destruct (block_identifier (EndingBlockHash req) _ _) as [err|e] eqn:Ee; [by eexists|].
    destruct H as [H|[H|H]]; [| |rewrite decide_True by done; by eexists];
      eapply block_identifier_refused in H as [err He]; rewrite He in *; done.
  - intros s e batches final Hs He Ht Hb. unfold getTickets.
    rewrite (block_identifier_names _ _ _ _ Hs), (block_identifier_names _ _ _ _ He),
      decide_False, Hb, drive_spec by lia.
    simpl length. destruct (visited _ batches 0) as [v full] eqn:Ev.
    apply visited_spec in Ev as (Hp & Hu & Hf). exists v. split; [done|].
    destruct (decide (Forall spent v)) as [Hv|Hv]; [|done]. simpl in *. split_and!; try done.
    destruct full; [by left|right]. by destruct Hf.
Qed.

(** ** Buying *)
Section buying.
Context `{!AccountLibLaws L Address, !TicketLibLaws L Address}.

(** What a call leaves of what was asked for, and of the passphrase. *)
Definition tobs (l : L) : list (LibRequest Address) * bytes := (asked l, acc_passphrase l).

(** A call that asks for no purchase and leaves the request as it is. *)
Definition silent {A} (m : TM A) : Prop := ∀ s, (m s).2.1 = s.1 ∧ tobs (m s).2.2 = tobs s.2.

Lemma silent_bind {A B} (m : TM A) (k : A → TM B) :
  silent m → (∀ a, silent (k a)) → silent (bind m k).
Proof.
  intros Hm Hk s. unfold bind. destruct (Hm s) as [H1 H2].
  destruct (m s) as [[a|e|] s1]; simpl in *; [|done..].
  destruct (Hk a s1) as [H3 H4]. by rewrite H3, H4.
Qed.

Lemma silent_prefixed {A} (msg : string) (m : TM A) : silent m → silent (prefixed msg m).
Proof. intros Hm s. unfold prefixed. destruct (Hm s). by destruct (m s) as [[a|e|] s1]. Qed.

Lemma silent_tlib {A} (f : L → (goerr + A) * L) :
  (∀ l, tobs (f l).2 = tobs l) → silent (tlib f).
Proof. intros Hf [req l]. unfold tlib. specialize (Hf l). by destruct (f l) as [[e|a] l1]. Qed.

Lemma silent_import (rs : bytes) : silent (import_redeem_script rs).
Proof.
  intros [req l]. unfold import_redeem_script, tobs. simpl.
  pose proof (pu_unlock (Passphrase req) l) as Hu.
  pose proof (pu_passphrase_unlock (Passphrase req) l) as Hp.
  destruct (acc_Unlock (Passphrase req) l) as [e l1]. simpl in Hu, Hp.
  pose proof (pu_import rs l1) as Hi. pose proof (pu_passphrase_import rs l1) as Hpi.
  destruct (lib_ImportScript rs l1) as [err l2]. simpl in Hi, Hpi.
  destruct e, err as [err|]; try destruct (is_exactly KExist err); simpl; split; try done;
    rewrite ?pu_relock, ?pu_passphrase_relock; by rewrite Hi, Hpi, Hu, Hp.
Qed.

Lemma silent_current (n : Z) (l : L) : tobs (CurrentAddress winfo n l).2 = tobs l.
Proof.
  unfold CurrentAddress, discovered_address. destruct (_ && _); [done|].
  pose proof (pu_current (uwrap 32 n) l) as Hc. pose proof (pu_passphrase_current (uwrap 32 n) l) as Hp.
  unfold tobs. destruct (lib_CurrentAddress _ l) as [[e|a] l1]; simpl in *; by rewrite Hc, Hp.
Qed.

(** The provider changes three fields of the request; no purchase is asked for. *)
Lemma update_obs (vspHost : string) (req : PurchaseTicketsRequest) (l : L) :
  let s := (updateTicketPurchaseRequestWithVSPInfo vspHost (req, l)).2 in
  tobs s.2 = tobs l ∧ (s.1 = req ∨ ∃ i, s.1 = set_vsp i req).
Proof.
  (** Everything but the last step is silent; the last one is known. *)
  cut (∀ s : PurchaseTicketsRequest * L, let s' := (updateTicketPurchaseRequestWithVSPInfo vspHost s).2 in
    tobs s'.2 = tobs s.2 ∧ (s'.1 = s.1 ∨ ∃ i, s'.1 = set_vsp i s.1)); [intros H; apply (H (req, l))|].
  assert (Hb : ∀ {A B} (m : TM A) (k : A → TM B), silent m →
    (∀ a s, tobs (k a s).2.2 = tobs s.2 ∧ ((k a s).2.1 = s.1 ∨ ∃ i, (k a s).2.1 = set_vsp i s.1)) →
    ∀ s, tobs (bind m k s).2.2 = tobs s.2 ∧
      ((bind m k s).2.1 = s.1 ∨ ∃ i, (bind m k s).2.1 = set_vsp i s.1)).
  { intros A B m k Hm Hk s. unfold bind. destruct (Hm s) as [H1 H2].
    destruct (m s) as [[a|e|] s1]; simpl in *; [|by auto..].
    destruct (Hk a s1) as [H3 H4]. rewrite H3, H2. split; [done|]. by rewrite <- H1. }
  apply Hb; [apply silent_prefixed, silent_tlib, silent_current|intros address].
  apply Hb; [by intros s|intros s].
  apply Hb; [by apply silent_prefixed, silent_tlib|intros pk].
  apply Hb; [apply silent_prefixed; by intros s'|intros i].
  apply Hb; [by apply silent_prefixed, silent_tlib|intros rs].
  apply Hb; [apply silent_import|intros _ [r l1]]. simpl. by eauto.
Qed.

(** The request may be bought: what the checks are to make sure of.  [NaN] as
    the fees of the pool is neither positive nor not. *)
Definition address_given (address : string) (a : option Address) : Prop :=
  match a with
  | None => address = EmptyString
  | Some a => address ≠ EmptyString ∧ DecodeAddress address chainParams = inr a
  end.
Definition valid_request (req : PurchaseTicketsRequest) (increment : Z) (ticketAddr : option Address)
    : Prop :=
  address_given (TicketAddress req) ticketAddr ∧
  (∃ poolAddr, address_given (PoolAddress req) poolAddr ∧
     (fee_positive (PoolFees req) = true → ValidPoolFeeRate (PoolFees req) = true ∧ is_Some poolAddr) ∧
     (fee_not_positive (PoolFees req) = true → poolAddr = None)) ∧
  (1 ≤ NumTickets req)%Z ∧ (0 ≤ TxFee req)%Z ∧ (0 < TicketFee req ∨ 0 ≤ increment)%Z.

Lemma optional_address_iff (address : string) (err : goerr) (a : option Address) :
  optional_address address err = inr a ↔ address_given address a.
Proof.
  clear. unfold optional_address, address_given. case_decide as He.
  - split; [by intros [= <-]|]. destruct a; [|done]. by intros [? _].
  - destruct (DecodeAddress address chainParams) as [e|x].
    + split; [done|]. destruct a; [by intros [_ ?]|done].
    + split; [by intros [= <-]|]. destruct a; [by intros [_ [= <-]]|done].
Qed.

Lemma address_given_inj (address : string) (a b : option Address) :
  address_given address a → address_given address b → a = b.
Proof.
  rewrite <- !(optional_address_iff _ (ENew EmptyString)). intros Ha Hb. rewrite Ha in Hb. by injection Hb.
Qed.

Lemma validate_iff (req : PurchaseTicketsRequest) (l : L) (ta : option Address) :
  validate req l = inr ta ↔ valid_request req (lib_TicketFeeIncrement l) ta.
Proof.
  unfold validate, valid_request. split.
  - destruct (optional_address (TicketAddress req) _) as [e|ta'] eqn:Et; [done|].
    destruct (optional_address (PoolAddress req) _) as [e|pa] eqn:Ep; [done|].
    apply optional_address_iff in Et, Ep.
    destruct (fee_positive _ && negb (ValidPoolFeeRate _)) eqn:E1; [done|].
    destruct (fee_positive _ && negb (bool_decide _)) eqn:E2; [done|].
    destruct (fee_not_positive _ && _) eqn:E3; [done|].
    case_decide as Hn; [done|]. case_decide as Hf; [done|]. intros [= <-].
    apply andb_false_iff in E1, E2, E3. rewrite negb_false_iff in E1, E2.
    rewrite bool_decide_eq_true in E2. rewrite bool_decide_eq_false in E3.
    assert (Hfee : (0 < TicketFee req ∨ 0 ≤ lib_TicketFeeIncrement l)%Z) by (case_decide; lia).
    split; [done|]. split; [|lia]. exists pa. split; [done|]. split.
    + intros Hp. rewrite Hp in E1, E2. by destruct E1, E2.
    + intros Hp. rewrite Hp in E3. destruct E3 as [|E3]; [done|]. by apply eq_None_not_Some.
  - intros (Ht & (pa & Hp & Hpos & Hnot) & Hn & Htx & Hfee).
    apply (optional_address_iff _ (ENew "Invalid ticket address")) in Ht as ->.
    apply (optional_address_iff _ (ENew "Invalid pool address")) in Hp as ->.
    rewrite (decide_False (P := (NumTickets req < 1)%Z)) by lia.
    rewrite (decide_False (P := (TxFee req < 0 ∨ _)%Z)) by (case_decide; lia).
    assert (E1 : fee_positive (PoolFees req) && negb (ValidPoolFeeRate (PoolFees req)) = false).
    { destruct (fee_positive _); [|done]. by destruct Hpos as [-> _]. }
    assert (E2 : fee_positive (PoolFees req) && negb (bool_decide (is_Some pa)) = false).
    { destruct (fee_positive _); [|done]. destruct Hpos as [_ H]; [done|]. by rewrite bool_decide_true. }
    assert (E3 : fee_not_positive (PoolFees req) && bool_decide (is_Some pa) = false).
    { destruct (fee_not_positive _); [|done]. by rewrite Hnot. }
    by rewrite E1, E2, E3.
Qed.

(** What the wallet answered when it was asked. *)
Lemma unlocked_buy_spec (req : PurchaseTicketsRequest) (ta : option Address) (l l' : L)
    (r : goerr + list string) :
  unlocked_buy req ta l = (r, l') →
  (asked l' = asked l ∧ ∃ e, r = inl e) ∨
  (asked l' = asked l ++ [lib_request req ta] ∧ Passphrase req = acc_passphrase l ∧
   ∃ l1, match (lib_PurchaseTickets (lib_request req ta) l1).1 with
         | inr hashes => r = inr (Hash_String <$> hashes)
         | inl _ => r = inl (ENew "unable to purchase tickets")
         end).
Proof.
  unfold unlocked_buy, buy. pose proof (pu_unlock (Passphrase req) l) as Hu.
  destruct (acc_Unlock (Passphrase req) l) as [[e|] l1] eqn:E; simpl in Hu.
  { intros [= <- <-]. left. split; [done|by eexists]. }
  apply acc_unlock_right in E. destruct (tk_Backend l1) as [e|b].
  { intros [= <- <-]. left. rewrite pu_relock. split; [done|by eexists]. }
  pose proof (pu_purchase (lib_request req ta) l1) as Hp.
  destruct (lib_PurchaseTickets _ l1) as [[e|hs] l2] eqn:Ep; simpl in Hp; intros [= <- <-];
    right; rewrite pu_relock, Hp, Hu; (split_and!; [done..|]); exists l1; by rewrite Ep.
Qed.

(** The state after the provider, if there is one, was asked. *)
Definition after_provider (vspHost : string) (req : PurchaseTicketsRequest) (l : L)
    : PurchaseTicketsRequest * L :=
  if decide (vspHost ≠ EmptyString) then (updateTicketPurchaseRequestWithVSPInfo vspHost (req, l)).2
  else (req, l).

Lemma after_provider_obs (vspHost : string) (req : PurchaseTicketsRequest) (l : L) :
  tobs (after_provider vspHost req l).2 = tobs l ∧
  ((after_provider vspHost req l).1 = req ∨
   vspHost ≠ EmptyString ∧ ∃ i, (after_provider vspHost req l).1 = set_vsp i req).
Proof.
  unfold after_provider. case_decide as Hv; [|by auto].
  pose proof (update_obs vspHost req l) as [H1 H2]. split; [done|]. naive_solver.
Qed.

Lemma PurchaseTickets_cases (vspHost : string) (req : PurchaseTicketsRequest) (l : L) :
  let s1 := after_provider vspHost req l in
  ((PurchaseTickets vspHost (req, l)).2 = s1 ∧ ∀ h, (PurchaseTickets vspHost (req, l)).1 ≠ Ok h) ∨
  (∃ ta, valid_request s1.1 (lib_TicketFeeIncrement s1.2) ta ∧
     PurchaseTickets vspHost (req, l) = tlib (unlocked_buy s1.1 ta) s1).
Proof.
  intros s1. destruct (PurchaseTickets vspHost (req, l)) as [r s2] eqn:E. revert E.
  unfold PurchaseTickets, bind at 1.
  set (m := if decide (vspHost ≠ EmptyString) then _ else _).
  assert (Hm : (m (req, l)).2 = s1) by (subst m s1; unfold after_provider; by case_decide).
  destruct (m (req, l)) as [[[]|e|] s']; simpl in Hm; subst s';
    [|intros [= <- <-]; by left..].
  unfold bind, getS, tpure, tlib at 1. destruct s1 as [req1 l1]; simpl.
  destruct (validate req1 l1) as [e|ta] eqn:Ev; [intros [= <- <-]; by left|].
  intros E. right. exists ta. by apply validate_iff in Ev.
Qed.

(** C30. Buying tickets.  The provider, if there is one, may set the two addresses
    and the pool fees of the request.  The wallet is asked to buy at most once,
    and only when the passphrase is right and the request is valid: the ticket
    and the pool address are addresses of the network where they are given, pool
    fees above 0 are a valid rate and come with a pool address, others come
    without one, at least one ticket is asked for, and neither fee is negative.
    What it is asked for is the number of tickets, the account, the
    confirmations, the expiry and the voting address of the request.  Hashes
    come back only then, and they are the texts of those the wallet returned;
    when the wallet fails, the call says only that, although tickets may have
    been bought before it failed. *)
Theorem PurchaseTickets_spec (vspHost : string) (req req' : PurchaseTicketsRequest) (l l' : L)
    (r : outcome (list string)) :
  PurchaseTickets vspHost (req, l) = (r, (req', l')) →
  (req' = req ∨ vspHost ≠ EmptyString ∧ ∃ i, req' = set_vsp i req) ∧
  ((asked l' = asked l ∧ ∀ hashes, r ≠ Ok hashes) ∨
   ∃ ta, asked l' = asked l ++ [mkLibRequest (NumTickets req) (Account req) ta
                                  (wrap32 (RequiredConfirmations req)) (wrap32 (Expiry req))] ∧
     Passphrase req = acc_passphrase l ∧
     valid_request req' (lib_TicketFeeIncrement (after_provider vspHost req l).2) ta ∧
     ∃ l1, match (lib_PurchaseTickets (lib_request req' ta) l1).1 with
           | inr hashes => r = Ok (Hash_String <$> hashes)
           | inl _ => r = Err (ENew "unable to purchase tickets")
           end).
Proof.
  intros H. destruct (after_provider_obs vspHost req l) as [Hobs Hreq].
  destruct (PurchaseTickets_cases vspHost req l) as [[Hs Hr]|(ta & Hv & Hb)].
  { rewrite H in Hs, Hr. simpl in Hs, Hr. rewrite <- Hs in Hobs, Hreq. simpl in *.
    injection Hobs as Ha _. split; [done|]. by left. }
  rewrite H in Hb. destruct (after_provider vspHost req l) as [req1 l1]. simpl in *.
  injection Hobs as Ha Hpa. destruct (unlocked_buy req1 ta l1) as [r1 l2] eqn:Eu.
  assert (req' = req1) as -> by (destruct r1; by injection Hb).
  assert (l' = l2) as -> by (destruct r1; by injection Hb).
  assert (Hf : lib_request req1 ta = lib_request req ta ∧ Passphrase req1 = Passphrase req)
    by (destruct Hreq as [->|[_ [i ->]]]; done). destruct Hf as [Hf Hp].
  split; [done|]. apply unlocked_buy_spec in Eu as [[Hno [e ->]]|(Hone & Hpass & l3 & Hl)].
  - left. split; [congruence|]. intros hashes. injection Hb as ->. done.
  - right. exists ta. split_and!; [by rewrite Hone, Ha, Hf|congruence|done|].
    exists l3. destruct (lib_PurchaseTickets _ l3).1; subst r1; by injection Hb.
Qed.
End buying.

(** The fees and the pool of a request decide only whether it is valid: what is
    bought does not depend on them. *)
Theorem PurchaseTickets_ignores (r1 r2 : PurchaseTicketsRequest) (l : L) (ta : option Address) :
  validate r1 l = inr ta → validate r2 l = inr ta →
  Account r1 = Account r2 → RequiredConfirmations r1 = RequiredConfirmations r2 →
  NumTickets r1 = NumTickets r2 → Passphrase r1 = Passphrase r2 → Expiry r1 = Expiry r2 →
  (PurchaseTickets "" (r1, l)).1 = (PurchaseTickets "" (r2, l)).1 ∧
  (PurchaseTickets "" (r1, l)).2.2 = (PurchaseTickets "" (r2, l)).2.2.
Proof.
  intros Hv1 Hv2 Ha Hc Hn Hp He. unfold PurchaseTickets, bind, getS, tpure, tlib, ret. simpl.
  rewrite Hv1, Hv2. unfold unlocked_buy, lib_request. rewrite Ha, Hc, Hn, Hp, He.
  destruct (acc_Unlock (Passphrase r2) l) as [[e|] l1]; [done|].
  by destruct (buy _ l1) as [[e|h] l2].
Qed.

(** A redeem script that the wallet has already is an error, as the error's
    kind is asked for with the arguments exchanged: only the bare kind itself
    would do. *)
Theorem known_script_fails (rs : bytes) (req : PurchaseTicketsRequest) (l l1 l2 : L)
    (e : option goerr) (inner : goerr) :
  acc_Unlock (Passphrase req) l = (e, l1) → lib_ImportScript rs l1 = (Some (EWrap KExist inner), l2) →
  is_kind KExist (EWrap KExist inner) = true ∧
  (import_redeem_script rs (req, l)).1 = Err (ENew "error importing vsp redeem script").
Proof. intros Hu Hi. split; [done|]. unfold import_redeem_script. by rewrite Hu, Hi. Qed.

(** A reply of the provider that is JSON but not of the expected form, such as
    an error report, panics. *)
Theorem vsp_reply_panics (vspHost pk : string) (m : list (string * json)) :
  post (vsp_url vspHost) (vsp_body pk) = inr (inr (JObject m)) → field m "data" = None →
  CallVSPTicketInfoAPI post vspHost pk = Panic.
Proof. intros Hp Hd. unfold CallVSPTicketInfoAPI, vsp_info. by rewrite Hp, Hd. Qed.
End Ticket.

(** ** The text of requests *)
Example vsp_request :
  vsp_url "https://vsp.example/" = "https://vsp.example/api/v2/purchaseticket" ∧
  vsp_body "Dk a+b/~" = "UserPubKeyAddr=Dk+a%2Bb%2F~".
Proof. vm_compute. done. Qed.

(** ** A library whose tickets are given, and that sells *)
Module ToyTickets.
Inductive T := Toy (batches : list (list TicketSummary * option Z)) (bought : list (LibRequest string)).
Definition batches_of (l : T) : list (list TicketSummary * option Z) := let '(Toy b _) := l in b.
Definition bought_of (l : T) : list (LibRequest string) := let '(Toy _ r) := l in r.

#[export] Instance acc : AccountLib T string := {|
  lib_Accounts := λ _, inr ([0]%Z, [x00], 7%Z);
  lib_AccountProperties := λ _ _, inl (EKind KNotExist "account");
  lib_CalculateAccountBalance := λ _ _ _, inl (EKind KNotExist "account");
  lib_NextAccount := λ _ l, (inl (EKind KNotExist "account"), l);
  lib_RenameAccount := λ _ _ l, (None, l);
  lib_AccountName := λ _ _, inl (EKind KNotExist "account");
  lib_AccountNumber := λ _ _, inl (EKind KNotExist "account");
  lib_CoinType := λ _, inr 42%Z;
  lib_HaveAddress := λ _ _, inr false;
  lib_AddressInfo := λ _ _, inr (mkManaged 0 (Some "02ab"));
  lib_CurrentAddress := λ _ l, (inr "Ds1", l);
  lib_NewExternalAddress := λ _ l, (inr "Ds2", l);
  acc_Unlock := λ p l, (if decide (p = bs "pw") then None else Some (EKind KPassphrase "p"), l);
  acc_Relock := λ l, l;
  acc_passphrase := λ _, bs "pw";
  acc_numbers := λ _, [0%Z]
|}.

#[export] Instance acc_laws : AccountLibLaws T string.
Proof.
  split; try done. intros p l l'. simpl. by case_decide.
Qed.

#[export] Instance ops : TicketLib T string := {|
  tk_Backend := λ _, inr NotRPC;
  lib_StakeInfo := λ _ _, inr [];
  lib_GetTickets := λ _ _ _ l, (batches_of l, None);
  lib_NextStakeDifficulty := λ _, inr 100%Z;
  lib_MainChainTip := λ _, ([x00], 7%Z);
  net_StakeDifficulty := λ _, inr 100%Z;
  lib_TicketFeeIncrement := λ _, 10%Z;
  lib_ImportScript := λ _ l, (None, l);
  lib_PurchaseTickets := λ r l,
    if decide (0 ≤ Count r)%Z then
      (inr (replicate (Z.to_nat (Count r)) [x00]), Toy (batches_of l) (bought_of l ++ [r]))
    else (inl (ENew "count"), Toy (batches_of l) (bought_of l ++ [r]));
  NewHash := λ b, inr b;
  Hash_String := λ _, "h";
  ValidPoolFeeRate := λ _, true;
  asked := bought_of
|}.

#[export] Instance laws : TicketLibLaws T string.
Proof. split; try done. intros r l. simpl. by case_decide. Qed.

#[export] Instance tx : TxLib unit string := {|
  MsgTxFromHex := λ _, inl (ENew "tx");
  SerializeSize := λ _, 0%Z;
  TxFeeRate := λ _, (0, 0)%Z;
  DecodeAddress := λ a _, inr a;
  PayToAddrScript := λ _, inr [];
  ExtractAddrs := λ _ _ _, inr [];
  AddressString := λ a, a
|}.
End ToyTickets.
Import ToyTickets.

Definition toy_tx (n : Z) : TxSummary := mkTxSummary [x00] [] [] [] 0 n 0.
Definition toy_ticket (n : Z) : TicketSummary :=
  mkTicketSummary (toy_tx n) (Some (toy_tx (n + 1))) TicketStatusVoted.
Definition toy_batches : list (list TicketSummary * option Z) :=
  [([toy_ticket 1], Some 10%Z); ([toy_ticket 2; toy_ticket 3], Some 11%Z);
   ([toy_ticket 4], None)].

Lemma getTickets_spec_witness :
  let req := mkGetTickets None 0 None 0 2 in
  (∃ v infos, v `prefix_of` toy_batches ∧ getTickets req (Toy toy_batches []) = Ok (infos, None) ∧
    infos = v ≫= reports ∧ (ti_BlockHeight <$> infos) = [10; 11; 11]%Z) ∧
  ∃ err, getTickets (mkGetTickets (Some [x01]) 5 None 0 2) (Toy toy_batches []) = Ok ([], Some err).
Proof.
  split; [|apply (getTickets_spec (mkGetTickets (Some [x01]) 5 None 0 2)); by left; left].
  pose proof (getTickets_spec (mkGetTickets None 0 None 0 2) (Toy toy_batches [])) as [_ H].
  destruct (H None None toy_batches None eq_refl eq_refl ltac:(simpl; lia) eq_refl) as (v & Hv & H1).
  exists v. eexists. split; [exact Hv|]. split; [vm_compute; reflexivity|].
  split; [exact (proj1 H1)|reflexivity].
Defined.

Definition toy_request : PurchaseTicketsRequest :=
  mkRequest 0 2 3 (bs "pw") 0 0 "Ds7" "" (S754_zero false) 0.
Definition toy_info : WalletInfo := mkInfo 1 "w" 0 "db" None false true 0.
Definition toy_post (url body : string) : vsp_reply := inl (ENew "offline").

Lemma PurchaseTickets_spec_witness :
  let lib := Toy [] [] in
  let run := PurchaseTickets tt toy_info (λ _ _, inr "") toy_post "" (toy_request, lib) in
  run.1 = Ok ["h"; "h"; "h"] ∧ ∃ ta, asked run.2.2 = [mkLibRequest 3 0 ta 2 0].
Proof.
  split; [vm_compute; reflexivity|].
  pose proof (PurchaseTickets_spec tt toy_info (λ _ _, inr "") toy_post "" toy_request _ (Toy [] [])
    _ _ (surjective_pairing _)) as [_ [[_ H]|(ta & H & _)]].
  - destruct (H ["h"; "h"; "h"]). vm_compute. reflexivity.
  - exists ta. exact H.
Defined.
