(* ===== verification/SyncData.v ===== *)
(** * [sync.go]: starting, canceling and reporting a sync

    The shared data of a sync under its mutex, on top of the multiwallet, and
    the calls that start, restart and cancel it.  Every section of the code
    that holds the mutex is one action; so is every access without it.  The
    handlers of the syncer's notifications are in [SyncNotify]. *)
From S2P Require Import Prelude Float Conc TxHelper Decode TxIndex Loader Config Utils Wallet.
From S2P Require Import MultiWallet.

Definition ErrListenerAlreadyExist : goerr := ENew "listener_already_exist".
Definition ErrInvalidPeers : goerr := ENew "invalid_peers".

(** ** types.go: reports *)
Record GeneralSyncProgress := mkGeneral {
  TotalSyncProgress : Z; TotalTimeRemainingSeconds : Z }.

Record HeadersFetchProgressReport := mkFetch {
  hf_general : GeneralSyncProgress;
  TotalHeadersToFetch : Z; CurrentHeaderHeight : Z; CurrentHeaderTimestamp : Z;
  HeadersFetchProgress : Z }.

Record AddressDiscoveryProgressReport := mkDiscovery {
  ad_general : GeneralSyncProgress; AddressDiscoveryProgress : Z; ad_WalletID : Z }.

Record HeadersRescanProgressReport := mkRescan {
  hr_general : GeneralSyncProgress;
  TotalHeadersToScan : Z; CurrentRescanHeight : Z; RescanProgress : Z; RescanTimeRemaining : Z;
  hr_WalletID : Z }.

Record DebugInfo := mkDebug {
  TotalTimeElapsed : Z; TotalTimeRemaining : Z; CurrentStageTimeElapsed : Z;
  CurrentStageTimeRemaining : Z }.

Record BlockInfo := mkBlockInfo { bi_Height : Z; bi_Timestamp : Z }.

(** The calls of a [SyncProgressListener]; a report is what its pointer shows
    at the time of the call. *)
Inductive ListenerCall :=
| OnSyncStarted (wasRestarted : bool)
| OnPeerConnectedOrDisconnected (numberOfConnectedPeers : Z)
| OnHeadersFetchProgress (r : HeadersFetchProgressReport)
| OnAddressDiscoveryProgress (r : AddressDiscoveryProgressReport)
| OnHeadersRescanProgress (r : HeadersRescanProgressReport)
| OnSyncCompleted
| OnSyncCanceled (willRestart : bool)
| OnSyncEndedWithError (err : goerr)
| Debug (info : DebugInfo).

Definition InvalidSyncStage : Z := -1.
Definition HeadersFetchSyncStage : Z := 0.
Definition AddressDiscoverySyncStage : Z := 1.
Definition HeadersRescanSyncStage : Z := 2.

(** [activeSyncData]; the channel is its number, [None] is [nil]. *)
Record activeSyncData := mkActive {
  syncStage : Z;
  headersFetchProgress : HeadersFetchProgressReport;
  addressDiscoveryProgress : AddressDiscoveryProgressReport;
  headersRescanProgress : HeadersRescanProgressReport;
  beginFetchTimeStamp : Z;
  startHeaderHeight : Z;
  headersFetchTimeSpent : Z;
  addressDiscoveryStartTime : Z;
  totalDiscoveryTimeSpent : Z;
  addressDiscoveryCompletedOrCanceled : option nat;
  rescanStartTime : Z;
  totalInactiveSeconds : Z;
  totalFetchedHeadersCount : Z }.
Definition set_syncStage (v : Z) (a : activeSyncData) : activeSyncData :=
  mkActive v (headersFetchProgress a) (addressDiscoveryProgress a) (headersRescanProgress a)
    (beginFetchTimeStamp a) (startHeaderHeight a) (headersFetchTimeSpent a)
    (addressDiscoveryStartTime a) (totalDiscoveryTimeSpent a)
    (addressDiscoveryCompletedOrCanceled a) (rescanStartTime a) (totalInactiveSeconds a)
    (totalFetchedHeadersCount a).
Definition set_headersFetchProgress (v : HeadersFetchProgressReport) (a : activeSyncData) :
    activeSyncData :=
  mkActive (syncStage a) v (addressDiscoveryProgress a) (headersRescanProgress a)
    (beginFetchTimeStamp a) (startHeaderHeight a) (headersFetchTimeSpent a)
    (addressDiscoveryStartTime a) (totalDiscoveryTimeSpent a)
    (addressDiscoveryCompletedOrCanceled a) (rescanStartTime a) (totalInactiveSeconds a)
    (totalFetchedHeadersCount a).
Definition set_addressDiscoveryProgress (v : AddressDiscoveryProgressReport)
    (a : activeSyncData) : activeSyncData :=
  mkActive (syncStage a) (headersFetchProgress a) v (headersRescanProgress a)
    (beginFetchTimeStamp a) (startHeaderHeight a) (headersFetchTimeSpent a)
    (addressDiscoveryStartTime a) (totalDiscoveryTimeSpent a)
    (addressDiscoveryCompletedOrCanceled a) (rescanStartTime a) (totalInactiveSeconds a)
    (totalFetchedHeadersCount a).
Definition set_headersRescanProgress (v : HeadersRescanProgressReport) (a : activeSyncData) :
    activeSyncData :=
  mkActive (syncStage a) (headersFetchProgress a) (addressDiscoveryProgress a) v
    (beginFetchTimeStamp a) (startHeaderHeight a) (headersFetchTimeSpent a)
    (addressDiscoveryStartTime a) (totalDiscoveryTimeSpent a)
    (addressDiscoveryCompletedOrCanceled a) (rescanStartTime a) (totalInactiveSeconds a)
    (totalFetchedHeadersCount a).
Definition set_beginFetchTimeStamp (v : Z) (a : activeSyncData) : activeSyncData :=
  mkActive (syncStage a) (headersFetchProgress a) (addressDiscoveryProgress a)
    (headersRescanProgress a) v (startHeaderHeight a) (headersFetchTimeSpent a)
    (addressDiscoveryStartTime a) (totalDiscoveryTimeSpent a)
    (addressDiscoveryCompletedOrCanceled a) (rescanStartTime a) (totalInactiveSeconds a)
    (totalFetchedHeadersCount a).
Definition set_startHeaderHeight (v : Z) (a : activeSyncData) : activeSyncData :=
  mkActive (syncStage a) (headersFetchProgress a) (addressDiscoveryProgress a)
    (headersRescanProgress a) (beginFetchTimeStamp a) v (headersFetchTimeSpent a)
    (addressDiscoveryStartTime a) (totalDiscoveryTimeSpent a)
    (addressDiscoveryCompletedOrCanceled a) (rescanStartTime a) (totalInactiveSeconds a)
    (totalFetchedHeadersCount a).
Definition set_headersFetchTimeSpent (v : Z) (a : activeSyncData) : activeSyncData :=
  mkActive (syncStage a) (headersFetchProgress a) (addressDiscoveryProgress a)
    (headersRescanProgress a) (beginFetchTimeStamp a) (startHeaderHeight a) v
    (addressDiscoveryStartTime a) (totalDiscoveryTimeSpent a)
    (addressDiscoveryCompletedOrCanceled a) (rescanStartTime a) (totalInactiveSeconds a)
    (totalFetchedHeadersCount a).
Definition set_addressDiscoveryStartTime (v : Z) (a : activeSyncData) : activeSyncData :=
  mkActive (syncStage a) (headersFetchProgress a) (addressDiscoveryProgress a)
    (headersRescanProgress a) (beginFetchTimeStamp a) (startHeaderHeight a)
    (headersFetchTimeSpent a) v (totalDiscoveryTimeSpent a)
    (addressDiscoveryCompletedOrCanceled a) (rescanStartTime a) (totalInactiveSeconds a)
    (totalFetchedHeadersCount a).
Definition set_totalDiscoveryTimeSpent (v : Z) (a : activeSyncData) : activeSyncData :=
  mkActive (syncStage a) (headersFetchProgress a) (addressDiscoveryProgress a)
    (headersRescanProgress a) (beginFetchTimeStamp a) (startHeaderHeight a)
    (headersFetchTimeSpent a) (addressDiscoveryStartTime a) v
    (addressDiscoveryCompletedOrCanceled a) (rescanStartTime a) (totalInactiveSeconds a)
    (totalFetchedHeadersCount a).
Definition set_addressDiscoveryCompletedOrCanceled (v : option nat) (a : activeSyncData) :
    activeSyncData :=
  mkActive (syncStage a) (headersFetchProgress a) (addressDiscoveryProgress a)
    (headersRescanProgress a) (beginFetchTimeStamp a) (startHeaderHeight a)
    (headersFetchTimeSpent a) (addressDiscoveryStartTime a) (totalDiscoveryTimeSpent a) v
    (rescanStartTime a) (totalInactiveSeconds a) (totalFetchedHeadersCount a).
Definition set_rescanStartTime (v : Z) (a : activeSyncData) : activeSyncData :=
  mkActive (syncStage a) (headersFetchProgress a) (addressDiscoveryProgress a)
    (headersRescanProgress a) (beginFetchTimeStamp a) (startHeaderHeight a)
    (headersFetchTimeSpent a) (addressDiscoveryStartTime a) (totalDiscoveryTimeSpent a)
    (addressDiscoveryCompletedOrCanceled a) v (totalInactiveSeconds a)
    (totalFetchedHeadersCount a).
Definition set_totalInactiveSeconds (v : Z) (a : activeSyncData) : activeSyncData :=
  mkActive (syncStage a) (headersFetchProgress a) (addressDiscoveryProgress a)
    (headersRescanProgress a) (beginFetchTimeStamp a) (startHeaderHeight a)
    (headersFetchTimeSpent a) (addressDiscoveryStartTime a) (totalDiscoveryTimeSpent a)
    (addressDiscoveryCompletedOrCanceled a) (rescanStartTime a) v
    (totalFetchedHeadersCount a).
Definition set_totalFetchedHeadersCount (v : Z) (a : activeSyncData) : activeSyncData :=
  mkActive (syncStage a) (headersFetchProgress a) (addressDiscoveryProgress a)
    (headersRescanProgress a) (beginFetchTimeStamp a) (startHeaderHeight a)
    (headersFetchTimeSpent a) (addressDiscoveryStartTime a) (totalDiscoveryTimeSpent a)
    (addressDiscoveryCompletedOrCanceled a) (rescanStartTime a) (totalInactiveSeconds a) v.

(** [syncData]: the listeners by their identifiers; [cancelSync] and
    [cancelRescan] are the contexts they cancel. *)
Record syncData := mkSync {
  listeners : gset string;
  showLogs : bool;
  sd_synced : bool;
  sd_syncing : bool;
  cancelSync : option nat;
  cancelRescan : option nat;
  syncCanceled : option nat;
  restartSyncRequested : bool;
  rescanning : bool;
  connectedPeers : Z;
  activeSync : option activeSyncData }.
Definition set_listeners (v : gset string) (a : syncData) : syncData :=
  mkSync v (showLogs a) (sd_synced a) (sd_syncing a) (cancelSync a) (cancelRescan a)
    (syncCanceled a) (restartSyncRequested a) (rescanning a) (connectedPeers a)
    (activeSync a).
Definition set_showLogs (v : bool) (a : syncData) : syncData :=
  mkSync (listeners a) v (sd_synced a) (sd_syncing a) (cancelSync a) (cancelRescan a)
    (syncCanceled a) (restartSyncRequested a) (rescanning a) (connectedPeers a)
    (activeSync a).
Definition set_sd_synced (v : bool) (a : syncData) : syncData :=
  mkSync (listeners a) (showLogs a) v (sd_syncing a) (cancelSync a) (cancelRescan a)
    (syncCanceled a) (restartSyncRequested a) (rescanning a) (connectedPeers a)
    (activeSync a).
Definition set_sd_syncing (v : bool) (a : syncData) : syncData :=
  mkSync (listeners a) (showLogs a) (sd_synced a) v (cancelSync a) (cancelRescan a)
    (syncCanceled a) (restartSyncRequested a) (rescanning a) (connectedPeers a)
    (activeSync a).
Definition set_cancelSync (v : option nat) (a : syncData) : syncData :=
  mkSync (listeners a) (showLogs a) (sd_synced a) (sd_syncing a) v (cancelRescan a)
    (syncCanceled a) (restartSyncRequested a) (rescanning a) (connectedPeers a)
    (activeSync a).
Definition set_cancelRescan (v : option nat) (a : syncData) : syncData :=
  mkSync (listeners a) (showLogs a) (sd_synced a) (sd_syncing a) (cancelSync a) v
    (syncCanceled a) (restartSyncRequested a) (rescanning a) (connectedPeers a)
    (activeSync a).
Definition set_syncCanceled (v : option nat) (a : syncData) : syncData :=
  mkSync (listeners a) (showLogs a) (sd_synced a) (sd_syncing a) (cancelSync a)
    (cancelRescan a) v (restartSyncRequested a) (rescanning a) (connectedPeers a)
    (activeSync a).
Definition set_restartSyncRequested (v : bool) (a : syncData) : syncData :=
  mkSync (listeners a) (showLogs a) (sd_synced a) (sd_syncing a) (cancelSync a)
    (cancelRescan a) (syncCanceled a) v (rescanning a) (connectedPeers a) (activeSync a).
Definition set_rescanning (v : bool) (a : syncData) : syncData :=
  mkSync (listeners a) (showLogs a) (sd_synced a) (sd_syncing a) (cancelSync a)
    (cancelRescan a) (syncCanceled a) (restartSyncRequested a) v (connectedPeers a)
    (activeSync a).
Definition set_connectedPeers (v : Z) (a : syncData) : syncData :=
  mkSync (listeners a) (showLogs a) (sd_synced a) (sd_syncing a) (cancelSync a)
    (cancelRescan a) (syncCanceled a) (restartSyncRequested a) (rescanning a) v
    (activeSync a).
Definition set_activeSync (v : option activeSyncData) (a : syncData) : syncData :=
  mkSync (listeners a) (showLogs a) (sd_synced a) (sd_syncing a) (cancelSync a)
    (cancelRescan a) (syncCanceled a) (restartSyncRequested a) (rescanning a)
    (connectedPeers a) v.

(** The library's wallet, as far as a sync uses it; heights are [int32]. *)
Class SyncLib (W : Type) := {
  MainChainTip : W → Z;
  BlockTimestamp : W → Z → goerr + Z;            (* BlockInfo of a height *)
  SetNetworkBackend : option nat → W → W;        (* the syncer, by the context of its run *)
  NetworkBackendOf : W → option nat              (* for the theorems *)
}.

(** The backend is a field of its own. *)
Class SyncLibLaws (W : Type) `{!Internal W, !SyncLib W} := {
  backend_set b w : NetworkBackendOf (SetNetworkBackend b w) = b;
  backend_tip b w : MainChainTip (SetNetworkBackend b w) = MainChainTip w;
  backend_locked b w : Locked (SetNetworkBackend b w) = Locked w;
  lock_backend w : NetworkBackendOf (Lock w) = NetworkBackendOf w;
  lock_tip w : MainChainTip (Lock w) = MainChainTip w;
  lock_locked w : Locked (Lock w) = true
}.

Section SyncData.
Context {D Val W S : Type} `{!WalletTable D, !KvStore D Val, !Internal W, !Storm S, !SyncLib W}.
Context (string_c : Codec Val string) (DefaultPort : string).
Abbreviation wallet := (Wallet W S).
Abbreviation MWs := (MW (D := D) (W := W) (S := S)).

(** The multiwallet, its sync data, the clock, the calls of the listeners with
    who received them, the channels that are closed ([chan struct{}] and
    [chan bool] apart), the contexts that are canceled, and the next number of a
    channel or context. *)
Record SS := mkSS {
  mw : MWs; sd : syncData; clock : Z; calls : list (gset string * ListenerCall);
  closed : gset nat; closed_bool : gset nat; canceled : gset nat; next_id : nat }.

(** [IsConnectedToDecredNetwork] and [IsSyncing] of the multiwallet. *)
Definition with_flags (d : syncData) (m : MWs) : MWs :=
  mkMW (rootDir m) (dbDriver m) (params m) (mdb m) (wallets m) (files m)
    (sd_syncing d || sd_synced d) (sd_syncing d).

Definition put_sd (d : syncData) (s : SS) : SS :=
  mkSS (with_flags d (mw s)) d (clock s) (calls s) (closed s) (closed_bool s) (canceled s) (next_id s).
Definition put_mw (m : MWs) (s : SS) : SS :=
  mkSS m (sd s) (clock s) (calls s) (closed s) (closed_bool s) (canceled s) (next_id s).
Definition put_call (c : gset string * ListenerCall) (s : SS) : SS :=
  mkSS (mw s) (sd s) (clock s) (calls s ++ [c]) (closed s) (closed_bool s) (canceled s) (next_id s).

Definition on_sd (f : syncData → syncData) : GM SS unit := modify (λ s, put_sd (f (sd s)) s).
Definition on_mw {A} (m : GM MWs A) : GM SS A := λ s,
  let '(r, m') := m (mw s) in (r, put_mw m' s).
Definition on_wallets (f : wallet → wallet) : GM SS unit :=
  on_mw (modify (set_wallets (fmap f))).

(** A field of [activeSyncData] is reached through its pointer. *)
Definition get_active {A} (f : activeSyncData → A) : GM SS A := λ s,
  match activeSync (sd s) with Some a => (Ok (f a), s) | None => (Panic, s) end.
Definition on_active (f : activeSyncData → activeSyncData) : GM SS unit := λ s,
  match activeSync (sd s) with
  | Some a => (Ok tt, put_sd (set_activeSync (Some (f a)) (sd s)) s)
  | None => (Panic, s)
  end.

(** [make(chan ...)] or a new context. *)
Definition make : GM SS nat := λ s,
  (Ok (next_id s), mkSS (mw s) (sd s) (clock s) (calls s) (closed s) (closed_bool s) (canceled s)
                     (Datatypes.S (next_id s))).
Definition close_chan (ch : option nat) : GM SS unit := λ s,
  match ch with
  | None => (Panic, s)
  | Some c =>
      if decide (c ∈ closed s) then (Panic, s)
      else (Ok tt, mkSS (mw s) (sd s) (clock s) (calls s) ({[c]} ∪ closed s) (closed_bool s) (canceled s)
                     (next_id s))
  end.
Definition close_bool (ch : option nat) : GM SS unit := λ s,
  match ch with
  | None => (Panic, s)
  | Some c =>
      if decide (c ∈ closed_bool s) then (Panic, s)
      else (Ok tt, mkSS (mw s) (sd s) (clock s) (calls s) (closed s) ({[c]} ∪ closed_bool s)
                     (canceled s) (next_id s))
  end.
Definition cancel (ctx : nat) : GM SS unit :=
  modify (λ s, mkSS (mw s) (sd s) (clock s) (calls s) (closed s) (closed_bool s) ({[ctx]} ∪ canceled s)
                 (next_id s)).

(** Receiving from a closed channel goes on; from [nil] it never does. *)
Definition is_closed (ch : option nat) (s : SS) : bool :=
  match ch with Some c => bool_decide (c ∈ closed s) | None => false end.
Definition is_closed_bool (ch : option nat) (s : SS) : bool :=
  match ch with Some c => bool_decide (c ∈ closed_bool s) | None => false end.

(** Nothing is sent to nobody. *)
Definition call (to : gset string) (c : ListenerCall) : GM SS unit :=
  if decide (to = ∅) then ret tt else modify (put_call (to, c)).

(** ** sync.go *)
Definition general0 : GeneralSyncProgress := mkGeneral 0 0.

Definition initActiveSyncData : GM SS unit :=
  on_sd (set_activeSync (Some (mkActive InvalidSyncStage
    (mkFetch general0 0 0 0 0) (mkDiscovery general0 0 0) (mkRescan general0 0 0 0 0 0)
    (-1) 0 (-1) (-1) (-1) None 0 0 0))).

Definition IsSyncProgressListenerRegisteredFor (uniqueIdentifier : string) : GM SS bool :=
  gets (λ s, bool_decide (uniqueIdentifier ∈ listeners (sd s))).

Definition PublishLastSyncProgress (uniqueIdentifier : string) : GM SS unit := λ s,
  if decide (uniqueIdentifier ∈ listeners (sd s)) then
    match activeSync (sd s) with
    | Some a =>
        if negb (sd_syncing (sd s)) then (Ok tt, s)
        else if decide (syncStage a = HeadersFetchSyncStage) then
          call {[uniqueIdentifier]} (OnHeadersFetchProgress (headersFetchProgress a)) s
        else if decide (syncStage a = AddressDiscoverySyncStage) then
          call {[uniqueIdentifier]} (OnAddressDiscoveryProgress (addressDiscoveryProgress a)) s
        else if decide (syncStage a = HeadersRescanSyncStage) then
          call {[uniqueIdentifier]} (OnHeadersRescanProgress (headersRescanProgress a)) s
        else (Ok tt, s)
    | None => (Ok tt, s)
    end
  else (Err ErrInvalid, s).

Definition RemoveSyncProgressListener (uniqueIdentifier : string) : GM SS unit :=
  on_sd (λ d, set_listeners (listeners d ∖ {[uniqueIdentifier]}) d).

Definition EnableSyncLogs : GM SS unit := on_sd (set_showLogs true).

Definition SyncInactiveForPeriod (totalInactiveSeconds_ : Z) : GM SS unit := λ s,
  if negb (sd_syncing (sd s)) then (Ok tt, s)
  else if decide (activeSync (sd s) = None) then (Ok tt, s)
  else on_active (λ a,
    let t := wrap64 (totalInactiveSeconds a + totalInactiveSeconds_) in
    set_totalInactiveSeconds
      (if decide (connectedPeers (sd s) = 0%Z) then wrap64 (t + 60) else t) a) s.

Definition IsConnectedToDecredNetwork (s : SS) : bool := sd_syncing (sd s) || sd_synced (sd s).
Definition IsSynced (s : SS) : bool := sd_synced (sd s).
Definition IsSyncing (s : SS) : bool := sd_syncing (sd s).
Definition ConnectedPeers (s : SS) : Z := connectedPeers (sd s).

Definition CurrentSyncStage : GM SS Z := λ s,
  if sd_syncing (sd s) then get_active syncStage s else (Ok InvalidSyncStage, s).

Definition GeneralSyncProgress_ : GM SS (option GeneralSyncProgress) := λ s,
  if sd_syncing (sd s) then
    get_active (λ a,
      if decide (syncStage a = HeadersFetchSyncStage) then Some (hf_general (headersFetchProgress a))
      else if decide (syncStage a = AddressDiscoverySyncStage) then
        Some (ad_general (addressDiscoveryProgress a))
      else if decide (syncStage a = HeadersRescanSyncStage) then
        Some (hr_general (headersRescanProgress a))
      else None) s
  else (Ok None, s).

(** *** Heights of wallets *)
Definition GetBestBlock (w : wallet) : Z :=
  match internal w with None => 0%Z | Some i => MainChainTip i end.

Definition GetBestBlockTimeStamp (w : wallet) : Z :=
  match internal w with
  | None => 0%Z
  | Some i => match BlockTimestamp i (MainChainTip i) with inl _ => 0%Z | inr t => t end
  end.

(** The wallets in the order the map is ranged over. *)
Fixpoint best_loop (better : Z → Z → bool) (ws : list wallet) (best : Z) (bi : option BlockInfo)
    : option BlockInfo :=
  match ws with
  | [] => bi
  | w :: ws =>
      if negb (WalletOpened w) then best_loop better ws best bi
      else
        let h := GetBestBlock w in
        if better h best || bool_decide (best = -1)%Z
        then best_loop better ws h (Some (mkBlockInfo h (GetBestBlockTimeStamp w)))
        else best_loop better ws best bi
  end.
Definition BestBlock (ws : list wallet) : option BlockInfo :=
  best_loop (λ h best, bool_decide (h > best)%Z) ws (-1) None.
Definition LowestBlock (ws : list wallet) : option BlockInfo :=
  best_loop (λ h best, bool_decide (h < best)%Z) ws (-1) None.
Definition GetBestBlock_mw (m : MWs) : option BlockInfo := BestBlock (map_to_list (wallets m)).*2.
Definition GetLowestBlock (m : MWs) : option BlockInfo := LowestBlock (map_to_list (wallets m)).*2.

Definition GetLowestBlockTimestamp (ws : list wallet) : Z :=
  foldl (λ timestamp w,
    let t := GetBestBlockTimeStamp w in
    if decide (t < timestamp ∨ timestamp = -1)%Z then t else timestamp) (-1)%Z ws.

(** *** Goroutines: a run of the syncer and the progress of address discovery

    How a run of the syncer ends; the script of a run is what it notifies. *)
Inductive Ending := EndNil | EndDeadline | EndCanceled | EndError (e : goerr).

Context {Note : Type}.
Inductive goroutine :=
| RunSync (ctx : nat) (script : list Note) (fin : Ending)
| UpdateDiscovery (totalHeadersFetchTime : f64)
| IndexAndNotify (synced_ : bool)
| Listen (walletID : Z)
| Clock.
Abbreviation Prog := (prog SS goroutine).

Definition AddSyncProgressListener (uniqueIdentifier : string) : Prog unit :=
  do! registered := act (IsSyncProgressListenerRegisteredFor uniqueIdentifier) in
  if registered : bool then Stop ErrListenerAlreadyExist
  else
    act (on_sd (λ d, set_listeners ({[uniqueIdentifier]} ∪ listeners d) d)) >>
    act (PublishLastSyncProgress uniqueIdentifier).

(** The listeners are collected first and called without the mutex. *)
Definition notify (c : ListenerCall) : Prog unit :=
  do! to := act (gets (λ s, listeners (sd s))) in act (call to c).

(** The addresses of the configuration that can be used. *)
Definition valid_peers (peerAddresses : string) : list string :=
  if decide (peerAddresses = EmptyString) then []
  else omap (λ address, match NormalizeAddress address DefaultPort with
                        | inl _ => None
                        | inr peerAddress => Some peerAddress
                        end) (Split peerAddresses (Ascii.ascii_of_nat 59)).

Definition setNetworkBackend (syncer : nat) : GM SS unit :=
  on_wallets (λ w, if WalletOpened w
                   then set_internal (SetNetworkBackend (Some syncer) <$> internal w) w else w).

(** [script] and [fin] are what the run of the syncer will do. *)
Definition SpvSync (script : list Note) (fin : Ending) : Prog unit :=
  do! syncing_ := act (gets IsSyncing) in
  do! synced_ := if syncing_ : bool then Ret true else act (gets IsSynced) in
  if synced_ : bool then Stop ErrSyncAlreadyInProgress
  else
    do! peerAddresses := act (gets (λ s,
      ReadStringConfigValueForKey string_c SpvPersistentPeerAddressesConfigKey (mdb (mw s)))) in
    let validPeerAddresses := valid_peers peerAddresses in
    if decide (peerAddresses ≠ EmptyString ∧ validPeerAddresses = []) then Stop ErrInvalidPeers
    else
      act initActiveSyncData >>
      act (on_wallets (λ w, set_syncing true (set_waiting true w))) >>
      do! ctx := act make in
      act (setNetworkBackend ctx) >>
      do! restartSyncRequested_ := act (
        let! ch := make in
        let! r := gets (λ s, restartSyncRequested (sd s)) in
        on_sd (λ d, set_syncCanceled (Some ch) (set_cancelSync (Some ctx)
                      (set_sd_syncing true (set_restartSyncRequested false d)))) ;;
        ret r) in
      notify (OnSyncStarted restartSyncRequested_) >>
      Go (RunSync ctx script fin) (Ret tt).

(** The backend of every loaded wallet is removed. *)
Definition clear_backends : GM SS unit :=
  on_wallets (λ w, if is_loaded w then set_internal (SetNetworkBackend None <$> internal w) w else w).

(** The channel is read, without the mutex, after the context is canceled. *)
Definition CancelSync : Prog unit :=
  do! cancelSync_ := act (gets (λ s, cancelSync (sd s))) in
  (match cancelSync_ with
   | None => Ret tt
   | Some ctx =>
       act (cancel ctx) >>
       do! ch := act (gets (λ s, syncCanceled (sd s))) in
       Wait (is_closed ch) (Ret tt)
   end) >>
  act clear_backends.

Definition RestartSpvSync (script : list Note) (fin : Ending) : Prog unit :=
  act (on_sd (set_restartSyncRequested true)) >>
  CancelSync >>
  SpvSync script fin.

(** *** The end of a run *)
Definition stopUpdatingAddressDiscoveryProgress : GM SS unit := λ s,
  match activeSync (sd s) with
  | Some a =>
      match addressDiscoveryCompletedOrCanceled a with
      | Some c =>
          (close_bool (Some c) ;;
           on_active (set_addressDiscoveryCompletedOrCanceled None) ;;
           let! now := gets clock in
           on_active (λ a, set_totalDiscoveryTimeSpent
                             (wrap64 (now - addressDiscoveryStartTime a)) a)) s
      | None => (Ok tt, s)
      end
  | None => (Ok tt, s)
  end.

(** A wallet that is not open makes [LockWallet] panic. *)
Definition wait_and_lock_all : GM SS unit := λ s,
  if decide (map_Forall (λ _ w, internal w ≠ None) (wallets (mw s)))
  then on_wallets (λ w, (LockWallet (set_waiting true w)).2) s
  else (Panic, s).

Definition resetSyncData : Prog unit :=
  act stopUpdatingAddressDiscoveryProgress >>
  act (on_sd (λ d, set_activeSync None (set_syncCanceled None (set_cancelSync None
                     (set_sd_synced false (set_sd_syncing false d)))))) >>
  act wait_and_lock_all.

Definition notifySyncCanceled : Prog unit :=
  do! restart := act (gets (λ s, restartSyncRequested (sd s))) in
  notify (OnSyncCanceled restart).

Definition close_syncCanceled : Prog unit :=
  do! ch := act (gets (λ s, syncCanceled (sd s))) in act (close_chan ch).

(** After [syncer.Run]; it returns [context.Canceled] only when its context is
    canceled. *)
Definition run_ended (ctx : nat) (fin : Ending) : Prog unit :=
  (match fin with
   | EndNil => Ret tt
   | EndDeadline => notify (OnSyncEndedWithError (ENew "SPV synchronization deadline exceeded"))
   | EndCanceled =>
       Wait (λ s, bool_decide (ctx ∈ canceled s)) (Ret tt) >>
       close_syncCanceled >>
       notifySyncCanceled
   | EndError e => notify (OnSyncEndedWithError e)
   end) >>
  resetSyncData.
End SyncData.

(** ** A multiwallet with one open wallet, for the witnesses *)
Module ToySync.
Record W := mkW { x_pass : bytes; x_locked : bool; x_tip : Z; x_backend : option nat }.

#[global] Instance lib : Internal W := {
  WatchingOnly := λ _, false;
  Locked := x_locked;
  Unlock := λ p w, if decide (p = x_pass w) then (None, mkW (x_pass w) false (x_tip w) (x_backend w))
                   else (Some (EKind KPassphrase "wrong"), w);
  Lock := λ w, mkW (x_pass w) true (x_tip w) (x_backend w);
  ChangePrivatePassphrase := λ p q w, (Some (EKind KPassphrase "wrong"), w);
  passphrase := x_pass
}.
#[global] Instance sync_lib : SyncLib W := {
  MainChainTip := x_tip;
  BlockTimestamp := λ _ h, inr (h * 300)%Z;
  SetNetworkBackend := λ b w, mkW (x_pass w) (x_locked w) (x_tip w) b;
  NetworkBackendOf := x_backend
}.
#[global] Instance sync_laws : SyncLibLaws W.
Proof. by split. Qed.

Definition string_c : Codec ToyMW.Val string :=
  mkCodec _ _ EmptyString (λ s, ToyMW.VBytes (Some (bs s)))
    (λ v, match v with ToyMW.VBytes (Some b) => Some (String.string_of_list_byte b) | _ => None end).

Abbreviation wallet := (Wallet W MapStorm.t).
Abbreviation state := (SS (D := ToyMW.t) (W := W) (S := MapStorm.t)).

Definition one_wallet : wallet :=
  mkWallet ToyMW.saved (Some (mkW (bs "pw") false 1000 None)) ToyMW.loaded None false false false.
Definition one : MW (D := ToyMW.t) (W := W) (S := MapStorm.t) :=
  mkMW "/root" "bdb" "mainnet" (ToyMW.mk [ToyMW.saved] ∅) {[1%Z := one_wallet]} ∅ false false.

Definition no_sync : syncData :=
  mkSync {["ui"]} false false false None None None false false 0 None.
Definition idle : state := mkSS one no_sync 1000000 [] ∅ ∅ ∅ 0.

(** A sync with the context 0 and the channel 1 that fetches headers. *)
Definition fetching : activeSyncData :=
  mkActive HeadersFetchSyncStage (mkFetch general0 0 0 0 0) (mkDiscovery general0 0 0)
    (mkRescan general0 0 0 0 0 0) 1000000 1000 (-1) (-1) (-1) None 0 0 0.
Definition running_sync : syncData :=
  mkSync {["ui"]} false false true (Some 0) None (Some 1) false false 3 (Some fetching).
Definition running : state := mkSS (with_flags running_sync one) running_sync 1000060 [] ∅ ∅ ∅ 2.
End ToySync.
