(* ===== verification/SyncNotify.v ===== *)
(** * [syncnotification.go]: what the notifications of the syncer do

    The handlers of the syncer's notifications, with their estimates in
    floating-point numbers, the goroutine that reports address discovery, and
    the goroutines of a sync. *)
From Stdlib Require Import Floats.SpecFloat.
From S2P Require Import Prelude Float Conc Wire Syncer TxHelper Decode TxIndex Loader Config Utils.
From S2P Require Import Wallet MultiWallet SyncData.

Section SyncNotify.
Context {D Val W S : Type} `{!WalletTable D, !KvStore D Val, !Internal W, !Storm S, !SyncLib W}.
(** What out-of-range conversions give, [chainParams.TargetTimePerBlock] in
    nanoseconds, the indexing of a wallet, and the listener of
    [listenForTransactions]. *)
Context (conv : Z → f64 → Z) (TargetTimePerBlock : Z).
Context (IndexTransactions_ : Wallet W S → Wallet W S).
Abbreviation St := (SS (D := D) (W := W) (S := S)).
Abbreviation routine := (goroutine (Note := Event)).
Abbreviation Prog := (prog St routine).
Context (listen : Z → Prog unit).

Definition handlePeerCountUpdate (peerCount : Z) : Prog unit :=
  act (on_sd (set_connectedPeers peerCount)) >>
  notify (OnPeerConnectedOrDisconnected peerCount).

(** A report is looked up when there is somebody to send it to. *)
Definition publish {A} (field : activeSyncData → A) (c : A → ListenerCall) : Prog unit :=
  do! to := act (gets (λ s, listeners (sd s))) in
  if decide (to = ∅) then Ret tt
  else act (let! r := get_active field in call to (c r)).

Definition publishFetchHeadersProgress : Prog unit :=
  publish headersFetchProgress OnHeadersFetchProgress.
Definition publishAddressDiscoveryProgress : Prog unit :=
  publish addressDiscoveryProgress OnAddressDiscoveryProgress.
Definition publishHeadersRescanProgress : Prog unit :=
  publish headersRescanProgress OnHeadersRescanProgress.
Definition publishDebugInfo (debugInfo : DebugInfo) : Prog unit := notify (Debug debugInfo).

(** ** Fetching headers *)
Definition fetchHeadersStarted (peerInitialHeight : Z) : Prog unit :=
  do! syncing_ := act (gets IsSyncing) in
  if negb syncing_ then Ret tt
  else
    do! headersFetchingStarted := act (get_active (λ a, bool_decide (beginFetchTimeStamp a ≠ -1)%Z)) in
    if headersFetchingStarted : bool then Ret tt
    else
      act (on_wallets (set_waiting true)) >>
      do! lowest := act (gets (λ s, GetLowestBlock (mw s))) in
      match lowest with
      | None => act panic
      | Some b =>
          act (let! now := gets clock in
               on_active (λ a, set_totalFetchedHeadersCount 0 (set_startHeaderHeight (bi_Height b)
                 (set_beginFetchTimeStamp now (set_syncStage HeadersFetchSyncStage a)))))
      end.

(** [Duration.Seconds] *)
Definition Seconds (d : Z) : f64 :=
  fadd (of_int (Z.quot d 1000000000)) (fdiv (of_int (Z.rem d 1000000000)) (of_int 1000000000)).

Definition estimateBlockHeadersCountAfter (now lastHeaderTime : Z) : Z :=
  let timeDifferenceInSeconds := of_int (wrap64 (now - lastHeaderTime)) in
  let estimatedHeadersDifference := fdiv timeDifferenceInSeconds (Seconds TargetTimePerBlock) in
  to_int conv 32 (Ceil estimatedHeadersDifference).

(** The estimates, from the headers fetched so far, the headers to fetch and
    the time taken. *)
Record FetchEstimate := mkEstimate {
  fe_progress : f64; fe_headersTime : f64; fe_total : f64; fe_totalProgress : f64; fe_remaining : Z }.

Definition fetch_estimate (totalFetched totalHeadersToFetch timeTakenSoFar : Z) : FetchEstimate :=
  let progress := fdiv (of_int totalFetched) (of_int totalHeadersToFetch) in
  let estimated := fdiv (of_int timeTakenSoFar) progress in
  let adjustmentFactor := fmul (of_ratio 1 2) (fsub (of_int 1) progress) in
  let estimated := fadd estimated (fmul estimated adjustmentFactor) in
  let discovery := fmul estimated DiscoveryPercentage in
  let rescan := fmul estimated RescanPercentage in
  let total := fadd (fadd estimated discovery) rescan in
  mkEstimate progress estimated total (fdiv (of_int timeTakenSoFar) total)
    (wrap64 (to_int conv 64 (Round total) - timeTakenSoFar)).

Definition hundred : f64 := of_int 100.

(** The section under the mutex: the new data, the estimate and the time. *)
Definition fetch_section (lastFetchedHeaderHeight lastFetchedHeaderTime now : Z) (a : activeSyncData)
    : activeSyncData * (FetchEstimate * Z) :=
  let a := if decide (lastFetchedHeaderHeight > startHeaderHeight a)%Z
           then set_totalFetchedHeadersCount
                  (wrap32 (lastFetchedHeaderHeight - startHeaderHeight a)) a
           else a in
  let headersLeftToFetch := estimateBlockHeadersCountAfter now lastFetchedHeaderTime in
  let totalHeadersToFetch := wrap32 (lastFetchedHeaderHeight + headersLeftToFetch) in
  let a := set_totalInactiveSeconds 0
             (set_beginFetchTimeStamp (wrap64 (beginFetchTimeStamp a + totalInactiveSeconds a)) a) in
  let timeTakenSoFar := Z.max 1 (wrap64 (now - beginFetchTimeStamp a)) in
  let e := fetch_estimate (totalFetchedHeadersCount a) totalHeadersToFetch timeTakenSoFar in
  (set_headersFetchProgress
     (mkFetch (mkGeneral (roundUp conv (fmul (fe_totalProgress e) hundred)) (fe_remaining e))
        totalHeadersToFetch lastFetchedHeaderHeight lastFetchedHeaderTime
        (roundUp conv (fmul (fe_progress e) hundred))) a,
   (e, timeTakenSoFar)).

Definition fetchHeadersProgress (lastFetchedHeaderHeight lastFetchedHeaderTime : Z) : Prog unit :=
  do! syncing_ := act (gets IsSyncing) in
  if negb syncing_ then Ret tt
  else
    do! completed := act (get_active (λ a, bool_decide (headersFetchTimeSpent a ≠ -1)%Z)) in
    if completed : bool then Ret tt
    else
      act (on_wallets (λ w, if w_waiting w
             then set_waiting (bool_decide (GetBestBlock w > lastFetchedHeaderHeight)%Z) w else w)) >>
      do! r := act (λ s, match activeSync (sd s) with
        | None => (Panic, s)
        | Some a => let '(a, r) := fetch_section lastFetchedHeaderHeight lastFetchedHeaderTime
                                     (clock s) a in
                    (Ok r, put_sd (set_activeSync (Some a) (sd s)) s)
        end) in
      publishFetchHeadersProgress >>
      publishDebugInfo (mkDebug r.2 (fe_remaining r.1) r.2
        (to_int conv 64 (Round (fsub (fe_headersTime r.1) (of_int r.2))))).

Definition fetchHeadersFinished : Prog unit :=
  act (λ s,
    if negb (sd_syncing (sd s)) then (Ok tt, s)
    else on_active (λ a,
      let spent := wrap64 (clock s - beginFetchTimeStamp a) in
      let spent := wrap64 (spent - totalInactiveSeconds a) in
      let spent := if decide (spent < 150)%Z then 150%Z else spent in
      set_headersFetchTimeSpent spent (set_totalInactiveSeconds 0
        (set_totalFetchedHeadersCount 0 (set_startHeaderHeight (-1) a)))) s).

(** ** Address discovery *)
Definition discoverAddressesStarted (walletID : Z) : Prog unit :=
  do! syncing_ := act (gets IsSyncing) in
  if negb syncing_ then Ret tt
  else
    do! r := act (get_active (λ a, (bool_decide (addressDiscoveryStartTime a ≠ -1)%Z,
                                    of_int (headersFetchTimeSpent a)))) in
    if r.1 : bool then Ret tt
    else
      act (let! now := gets clock in
           on_active (λ a, set_addressDiscoveryStartTime now
                             (set_syncStage AddressDiscoverySyncStage a)) ;;
           on_active (λ a, let p := addressDiscoveryProgress a in
             set_addressDiscoveryProgress
               (mkDiscovery (ad_general p) (AddressDiscoveryProgress p) walletID) a) ;;
           let! ch := make in
           on_active (set_addressDiscoveryCompletedOrCanceled (Some ch))) >>
      Go (UpdateDiscovery r.2) (Ret tt).

(** One tick of the reports, [elapsed] seconds after the start. *)
Record DiscoveryEstimate := mkDEstimate {
  de_progress : Z; de_total : Z; de_remaining : Z; de_elapsedTotal : Z; de_elapsed : Z;
  de_stageRemaining : Z }.

Definition discovery_estimate (totalHeadersFetchTime : f64) (elapsed : Z) : DiscoveryEstimate :=
  let estimatedDiscoveryTime := fmul totalHeadersFetchTime DiscoveryPercentage in
  let estimatedRescanTime := fmul totalHeadersFetchTime RescanPercentage in
  let elapsedDiscoveryTime := of_int elapsed in
  let discoveryProgress := fmul (fdiv elapsedDiscoveryTime estimatedDiscoveryTime) hundred in
  let totalSyncTime :=
    if fltb estimatedDiscoveryTime elapsedDiscoveryTime
    then fadd (fadd totalHeadersFetchTime elapsedDiscoveryTime) estimatedRescanTime
    else fadd (fadd totalHeadersFetchTime estimatedDiscoveryTime) estimatedRescanTime in
  let totalElapsedTime := fadd totalHeadersFetchTime elapsedDiscoveryTime in
  let totalProgress := fmul (fdiv totalElapsedTime totalSyncTime) hundred in
  let remaining := Round (fsub estimatedDiscoveryTime elapsedDiscoveryTime) in
  let remaining := if fltb remaining (of_int 0) then of_int 0 else remaining in
  mkDEstimate (to_int conv 32 (Round discoveryProgress)) (to_int conv 32 (Round totalProgress))
    (to_int conv 64 (Round (fadd remaining estimatedRescanTime)))
    (to_int conv 64 (Round totalElapsedTime)) (to_int conv 64 (Round elapsedDiscoveryTime))
    (to_int conv 64 (Round remaining)).

(** The loop: [Goto] is its next iteration.  The channel is read without the
    mutex. *)
Definition updateAddressDiscoveryProgress (totalHeadersFetchTime : f64) : Prog unit :=
  do! syncing_ := act (gets IsSyncing) in
  if negb syncing_ then Ret tt
  else
    do! start := act (
      on_active (λ a, set_totalInactiveSeconds 0 (set_addressDiscoveryStartTime
        (wrap64 (addressDiscoveryStartTime a + totalInactiveSeconds a)) a)) ;;
      get_active addressDiscoveryStartTime) in
    do! ch := act (get_active addressDiscoveryCompletedOrCanceled) in
    Select (is_closed_bool ch) (Ret tt)
      (do! now := act (gets clock) in
       let e := discovery_estimate totalHeadersFetchTime (wrap64 (now - start)) in
       act (on_active (λ a, set_addressDiscoveryProgress
              (mkDiscovery (mkGeneral (de_total e) (de_remaining e)) (de_progress e)
                 (ad_WalletID (addressDiscoveryProgress a))) a)) >>
       publishAddressDiscoveryProgress >>
       publishDebugInfo (mkDebug (de_elapsedTotal e) (de_remaining e) (de_elapsed e)
                           (de_stageRemaining e)) >>
       Goto (UpdateDiscovery totalHeadersFetchTime)).

Definition discoverAddressesFinished (walletID : Z) : Prog unit :=
  do! syncing_ := act (gets IsSyncing) in
  if negb syncing_ then Ret tt else act stopUpdatingAddressDiscoveryProgress.

(** ** Rescan *)
Definition set_general (g : GeneralSyncProgress) (walletID : Z) (r : HeadersRescanProgressReport)
    : HeadersRescanProgressReport :=
  mkRescan g (TotalHeadersToScan r) (CurrentRescanHeight r) (RescanProgress r)
    (RescanTimeRemaining r) walletID.

Definition rescanStarted (walletID : Z) : Prog unit :=
  act stopUpdatingAddressDiscoveryProgress >>
  act (λ s,
    if negb (sd_syncing (sd s)) then (Ok tt, s)
    else on_active (λ a,
      set_headersRescanProgress
        (set_general (mkGeneral (TotalSyncProgress (ad_general (addressDiscoveryProgress a)))
                        (TotalTimeRemainingSeconds (ad_general (addressDiscoveryProgress a))))
           walletID (headersRescanProgress a))
        (set_rescanStartTime (clock s) (set_syncStage HeadersRescanSyncStage a))) s).

(** The section under the mutex: the new data and the debug information. *)
Definition rescan_section (walletID rescannedThrough totalHeadersToScan now : Z) (a : activeSyncData)
    : activeSyncData * DebugInfo :=
  let rescanRate := fdiv (of_int rescannedThrough) (of_int totalHeadersToScan) in
  let a := set_totalInactiveSeconds 0
             (set_rescanStartTime (wrap64 (rescanStartTime a + totalInactiveSeconds a)) a) in
  let elapsedRescanTime := wrap64 (now - rescanStartTime a) in
  let estimatedTotalRescanTime := to_int conv 64 (Round (fdiv (of_int elapsedRescanTime) rescanRate)) in
  let totalTimeRemainingSeconds := wrap64 (estimatedTotalRescanTime - elapsedRescanTime) in
  let spent := wrap64 (headersFetchTimeSpent a + totalDiscoveryTimeSpent a) in
  let totalElapsedTime := wrap64 (spent + elapsedRescanTime) in
  let g := hr_general (headersRescanProgress a) in
  let g :=
    if decide (elapsedRescanTime > 0)%Z then
      let estimatedTotalSyncTime := wrap64 (spent + estimatedTotalRescanTime) in
      let totalProgress :=
        fmul (fdiv (of_int totalElapsedTime) (of_int estimatedTotalSyncTime)) hundred in
      mkGeneral (to_int conv 32 (Round totalProgress)) totalTimeRemainingSeconds
    else g in
  (set_headersRescanProgress
     (mkRescan g totalHeadersToScan rescannedThrough
        (to_int conv 32 (Round (fmul rescanRate hundred))) totalTimeRemainingSeconds walletID) a,
   mkDebug totalElapsedTime totalTimeRemainingSeconds elapsedRescanTime totalTimeRemainingSeconds).

(** The last section only logs, but reads the report for it. *)
Definition rescanProgress (walletID rescannedThrough : Z) : Prog unit :=
  do! syncing_ := act (gets IsSyncing) in
  if negb syncing_ then Ret tt
  else
    do! totalHeadersToScan := act (λ s, match wallets (mw s) !! walletID with
                                        | None => (Panic, s)
                                        | Some w => (Ok (GetBestBlock w), s)
                                        end) in
    do! d := act (λ s, match activeSync (sd s) with
      | None => (Panic, s)
      | Some a => let '(a, d) := rescan_section walletID rescannedThrough totalHeadersToScan
                                   (clock s) a in
                  (Ok d, put_sd (set_activeSync (Some a) (sd s)) s)
      end) in
    publishHeadersRescanProgress >>
    publishDebugInfo d >>
    act (λ s, if showLogs (sd s) then get_active (λ _, tt) s else (Ok tt, s)).

Definition rescanFinished (walletID : Z) : Prog unit :=
  do! syncing_ := act (gets IsSyncing) in
  if negb syncing_ then Ret tt
  else
    act (on_active (λ a,
      set_totalDiscoveryTimeSpent (-1) (set_addressDiscoveryStartTime (-1)
        (set_headersRescanProgress
           (set_general (mkGeneral 100 0) walletID (headersRescanProgress a)) a)))) >>
    publishHeadersRescanProgress.

(** ** Synced *)

(** A wallet that was unlocked for the discovery of accounts is locked and
    marked; the error of saving it is logged. *)
Definition lock_discovered (walletID : Z) : GM St unit := λ s,
  match wallets (mw s) !! walletID with
  | Some w =>
      match internal w with
      | Some i =>
          if Locked i then (Ok tt, s)
          else
            let s := put_mw (set_wallets (insert walletID (LockWallet w).2) (mw s)) s in
            (Ok tt, (try (on_mw (markWalletAsDiscoveredAccounts walletID)) s).2)
      | None => (Panic, s)
      end
  | None => (Panic, s)
  end.

Definition synced (walletID : Z) (synced_ : bool) : Prog unit :=
  do! allWalletsSynced := act (gets IsSynced) in
  if allWalletsSynced && synced_ then Ret tt
  else
    do! id := act (λ s, match wallets (mw s) !! walletID with
      | None => (Panic, s)
      | Some w => (Ok (ID (info w)),
                   put_mw (set_wallets (insert walletID (set_syncing false (set_synced synced_ w)))
                             (mw s)) s)
      end) in
    Go (Listen id)
      (act (lock_discovered walletID) >>
       do! all := act (gets (λ s, bool_decide (OpenedWalletsCount (mw s) =
                                                SyncedWalletsCount (mw s)))) in
       if negb all then Ret tt
       else
         act (on_sd (λ d, set_sd_synced true (set_sd_syncing false d))) >>
         Go (IndexAndNotify synced_) (Ret tt)).

(** Indexing all wallets, its errors logged; then the listeners are called. *)
Definition index_and_notify (synced_ : bool) : Prog unit :=
  act (on_wallets IndexTransactions_) >>
  notify (if synced_ then OnSyncCompleted else OnSyncCanceled false).

(** ** The notifications that are set *)
Definition spvSyncNotificationCallbacks (e : Event) : Prog unit :=
  match e with
  | PeerConnected n _ | PeerDisconnected n _ => handlePeerCountUpdate n
  | Synced w b => synced w b
  | FetchHeadersStarted h => fetchHeadersStarted h
  | FetchHeadersProgress h t => fetchHeadersProgress h t
  | FetchHeadersFinished => fetchHeadersFinished
  | FetchMissingCFiltersStarted _ | FetchMissingCFiltersProgress _ _ _
  | FetchMissingCFiltersFinished _ => Ret tt
  | DiscoverAddressesStarted w => discoverAddressesStarted w
  | DiscoverAddressesFinished w => discoverAddressesFinished w
  | RescanStarted w => rescanStarted w
  | Syncer.RescanProgress w h => rescanProgress w h
  | RescanFinished w => rescanFinished w
  | MempoolTxs _ _ | TipChanged _ _ _ => Ret tt       (* not set *)
  end.

Fixpoint notify_all (script : list Event) : Prog unit :=
  match script with
  | [] => Ret tt
  | e :: script => spvSyncNotificationCallbacks e >> notify_all script
  end.

(** The bodies of the goroutines. *)
Definition body (g : routine) : Prog unit :=
  match g with
  | RunSync ctx script fin => notify_all script >> run_ended ctx fin
  | UpdateDiscovery t => updateAddressDiscoveryProgress t
  | IndexAndNotify b => index_and_notify b
  | Listen walletID => listen walletID
  | Clock =>
      act (modify (λ s, mkSS (mw s) (sd s) (clock s + 1) (calls s) (closed s) (closed_bool s) (canceled s)
                          (next_id s))) >> Goto Clock
  end.
End SyncNotify.
