(* ===== verification/SyncRun.v ===== *)
(** * A sync and its callers, interleaved

    What holds of the sync data in every interleaving of the calls of sync.go,
    the handlers of syncnotification.go and the goroutines they start; when
    canceling a sync ends, and how it can fail to. *)
From S2P Require Import Prelude Float Conc Wire Syncer TxHelper Decode TxIndex Loader Config Utils.
From S2P Require Import Wallet MultiWallet SyncData SyncNotify.

Section SyncRun.
Context {D Val W S : Type} `{!WalletTable D, !KvStore D Val, !Internal W, !Storm S, !SyncLib W}.
Context (string_c : Codec Val string) (DefaultPort : string).
Context (conv : Z → f64 → Z) (TargetTimePerBlock : Z) (IndexTransactions_ : Wallet W S → Wallet W S).
Abbreviation St := (SS (D := D) (W := W) (S := S)).
Abbreviation routine := (goroutine (Note := Event)).
Abbreviation Prog := (prog St routine).
Context (listen : Z → Prog unit).
Abbreviation bodies := (body conv TargetTimePerBlock IndexTransactions_ listen).
Abbreviation callback := (spvSyncNotificationCallbacks conv TargetTimePerBlock).

(** ** An invariant of all interleavings *)
Definition stage_ok (z : Z) : Prop := (-1 ≤ z ≤ 2)%Z.

Definition active_ok (next : nat) (cb : gset nat) (a : activeSyncData) : Prop :=
  stage_ok (syncStage a) ∧
  ∀ c, addressDiscoveryCompletedOrCanceled a = Some c → c ∉ cb ∧ c < next.

(** What other calls of the multiwallet see is what the sync data says;
    [cancelSync] and its channel are there together; the channel of the
    discovery reports is open as long as it can be found. *)
Record sync_inv (s : St) : Prop := mkInv {
  inv_online : online (mw s) = IsConnectedToDecredNetwork s;
  inv_syncing : MultiWallet.syncing (mw s) = IsSyncing s;
  inv_cancel : cancelSync (sd s) = None ↔ syncCanceled (sd s) = None;
  inv_active : ∀ a, activeSync (sd s) = Some a → active_ok (next_id s) (closed_bool s) a;
  inv_closed : ∀ c, c ∈ closed_bool s → c < next_id s }.

Definition keeps {A} (m : GM St A) : Prop := ∀ s, sync_inv s → sync_inv (m s).2.

Lemma keeps_ret {A} (a : A) : keeps (ret a).
Proof. by intros s. Qed.
Lemma keeps_panic {A} : keeps (@panic _ A).
Proof. by intros s. Qed.
Lemma keeps_gets {A} (f : St → A) : keeps (gets f).
Proof. by intros s. Qed.
Lemma keeps_get_active {A} (f : activeSyncData → A) : keeps (get_active f).
Proof. intros s. unfold get_active. by destruct (activeSync (sd s)). Qed.
Lemma keeps_bind {A B} (m : GM St A) (k : A → GM St B) :
  keeps m → (∀ a, keeps (k a)) → keeps (bind m k).
Proof.
  intros Hm Hk s Hs. specialize (Hm s Hs). unfold bind.
  destruct (m s) as [[a|e|] s1]; simpl in *; [by apply Hk|done..].
Qed.
Lemma keeps_try {A} (m : GM St A) : keeps m → keeps (try m).
Proof. intros Hm s Hs. specialize (Hm s Hs). unfold try. by destruct (m s) as [[a|e|] s1]. Qed.

Lemma put_sd_inv (d : syncData) (s : St) :
  sync_inv s → (cancelSync d = None ↔ syncCanceled d = None) →
  (∀ a, activeSync d = Some a → active_ok (next_id s) (closed_bool s) a) →
  sync_inv (put_sd d s).
Proof. intros [H1 H2 H3 H4 H5] Hc Ha. by split. Qed.

Lemma keeps_on_sd (f : syncData → syncData) :
  (∀ d, (cancelSync d = None ↔ syncCanceled d = None) →
        (cancelSync (f d) = None ↔ syncCanceled (f d) = None)) →
  (∀ d a n cb, activeSync (f d) = Some a → activeSync d = Some a ∨ active_ok n cb a) →
  keeps (on_sd f).
Proof.
  intros Hc Ha s Hs. apply put_sd_inv; [done|by apply Hc, inv_cancel|].
  intros a [H|H]%(Ha (sd s) a (next_id s) (closed_bool s)); [by apply inv_active|done].
Qed.

Lemma keeps_on_active (f : activeSyncData → activeSyncData) :
  (∀ a, stage_ok (syncStage a) → stage_ok (syncStage (f a))) →
  (∀ a, addressDiscoveryCompletedOrCanceled (f a) = addressDiscoveryCompletedOrCanceled a ∨
        addressDiscoveryCompletedOrCanceled (f a) = None) →
  keeps (on_active f).
Proof.
  intros Hst Hch s Hs. unfold on_active. destruct (activeSync (sd s)) as [a|] eqn:Ea; [|done].
  simpl. apply put_sd_inv; [done|apply Hs|]. simpl. intros a' [= <-].
  destruct (inv_active _ Hs _ Ea) as [H1 H2]. split; [by apply Hst|].
  intros c Hc. destruct (Hch a) as [He|He]; rewrite He in Hc; [by apply H2|done].
Qed.

Lemma keeps_on_mw {A} (m : GM MW A) :
  (∀ s, online (m s).2 = online s ∧ MultiWallet.syncing (m s).2 = MultiWallet.syncing s) →
  keeps (on_mw m).
Proof.
  intros Hm s [H1 H2 H3 H4 H5]. unfold on_mw. specialize (Hm (mw s)).
  destruct (m (mw s)) as [r m']. destruct Hm as [Ho Hs]. simpl in *. split; simpl; try done;
    unfold IsConnectedToDecredNetwork, IsSyncing in *; simpl; congruence.
Qed.

Lemma keeps_on_wallets (f : Wallet W S → Wallet W S) : keeps (on_wallets f).
Proof. by apply keeps_on_mw. Qed.

Lemma keeps_call (to : gset string) (c : ListenerCall) : keeps (call to c).
Proof. intros s Hs. unfold call. case_decide; [done|]. simpl. by destruct Hs. Qed.

Lemma keeps_make : keeps make.
Proof.
  intros s [H1 H2 H3 H4 H5]. split; simpl; try done.
  - intros a Ha. destruct (H4 a Ha) as [Hst Hc]. split; [done|]. intros c Hc'.
    destruct (Hc c Hc'). split; [done|lia].
  - intros c Hc. specialize (H5 c Hc). lia.
Qed.

Lemma keeps_close_chan (ch : option nat) : keeps (close_chan ch).
Proof.
  intros s Hs. unfold close_chan. destruct ch as [c|]; [|done]. case_decide; [done|].
  destruct Hs. by split.
Qed.
Lemma keeps_cancel (ctx : nat) : keeps (cancel ctx).
Proof. intros s Hs. destruct Hs. by split. Qed.

Lemma keeps_stop : keeps stopUpdatingAddressDiscoveryProgress.
Proof.
  intros s Hs. unfold stopUpdatingAddressDiscoveryProgress.
  destruct (activeSync (sd s)) as [a|] eqn:Ea; [|done].
  destruct (addressDiscoveryCompletedOrCanceled a) as [c|] eqn:Ec; [|done].
  destruct (inv_active _ Hs _ Ea) as [Hst Hc]. destruct (Hc c Ec) as [Hnc Hlt].
  unfold bind, close_bool, on_active, gets. rewrite decide_False by done. simpl. rewrite Ea. simpl.
  destruct Hs as [H1 H2 H3 H4 H5]. split; simpl; try done.
  - intros a' [= <-]. by split.
  - intros c' [->%elem_of_singleton|Hc']%elem_of_union; [done|by apply H5].
Qed.

(** It never panics, and touches nothing else. *)
Lemma stop_spec (s : St) :
  sync_inv s → ∃ s', stopUpdatingAddressDiscoveryProgress s = (Ok tt, s') ∧
    wallets (mw s') = wallets (mw s) ∧ closed s' = closed s ∧
    sd_syncing (sd s') = sd_syncing (sd s).
Proof.
  intros Hs. unfold stopUpdatingAddressDiscoveryProgress.
  destruct (activeSync (sd s)) as [a|] eqn:Ea; [|by eauto].
  destruct (addressDiscoveryCompletedOrCanceled a) as [c|] eqn:Ec; [|by eauto].
  destruct (inv_active _ Hs _ Ea) as [_ Hc]. destruct (Hc c Ec) as [Hnc _].
  unfold bind, close_bool, on_active, gets. rewrite decide_False by done. simpl. rewrite Ea. simpl.
  eexists. by split_and!.
Qed.

(** The new channel is open. *)
Lemma keeps_new_discovery :
  keeps (let! ch := make in on_active (set_addressDiscoveryCompletedOrCanceled (Some ch))).
Proof.
  intros s Hs. unfold bind, make, on_active. simpl.
  destruct (activeSync (sd s)) as [a|] eqn:Ea.
  - pose proof (inv_active _ Hs _ Ea) as [H1 H2]. destruct Hs as [Ho Hy Hc Ha Hcl].
    split; simpl; try done.
    + intros a' [= <-]. split; [done|]. simpl. intros c [= <-]. split; [|lia].
      intros Hin%Hcl. lia.
    + intros c Hin%Hcl. lia.
  - by apply (keeps_make s).
Qed.

Hint Resolve keeps_ret keeps_panic keeps_gets keeps_get_active keeps_try keeps_on_wallets
  keeps_call keeps_make keeps_close_chan keeps_cancel keeps_stop keeps_new_discovery : keeps.

(** *** Calls *)
Abbreviation ok := (actions_ok (L := routine) sync_inv).

Lemma ok_act {A} (m : GM St A) : keeps m → ok (act m).
Proof. intros Hm s Hs. split; [by apply Hm|done]. Qed.

Lemma ok_notify (c : ListenerCall) : ok (notify c).
Proof.
  unfold notify. apply actions_seq; [apply ok_act, keeps_gets|]. intros to.
  apply ok_act, keeps_call.
Qed.

Lemma ok_publish {A} (f : activeSyncData → A) (c : A → ListenerCall) : ok (publish f c).
Proof.
  unfold publish. apply actions_seq; [apply ok_act, keeps_gets|]. intros to.
  case_decide; [done|]. apply ok_act, keeps_bind; [apply keeps_get_active|].
  intros r. apply keeps_call.
Qed.

Ltac ok_calls :=
  repeat (match goal with
  | |- actions_ok _ (seq _ _) => apply actions_seq; [|intros ?]
  | |- actions_ok _ (act _) => apply ok_act
  | |- actions_ok _ (Ret _) => exact I
  | |- actions_ok _ (Stop _) => exact I
  | |- actions_ok _ (Goto _) => exact I
  | |- True => exact I
  | |- actions_ok _ (Go _ _) => cbn [actions_ok]
  | |- actions_ok _ (Wait _ _) => cbn [actions_ok]
  | |- actions_ok _ (Select _ _ _) => split
  | |- actions_ok _ (if ?b then _ else _) => destruct b
  | |- actions_ok _ (notify _) => apply ok_notify
  | |- actions_ok _ (publish _ _) => apply ok_publish
  | |- keeps _ => solve [auto with keeps]
  | |- keeps (on_active _) => solve [by apply keeps_on_active; [|left]]
  | |- keeps (bind _ _) => apply keeps_bind; [|intros ?]
  end).

Lemma keeps_init : keeps initActiveSyncData.
Proof.
  apply keeps_on_sd; [done|]. intros d a n cb [= <-]. right. split; [done|]. by intros c.
Qed.
Hint Resolve keeps_init : keeps.

Lemma keeps_publish_last (u : string) : keeps (PublishLastSyncProgress u).
Proof.
  intros s Hs. unfold PublishLastSyncProgress. case_decide; [|done].
  destruct (activeSync (sd s)) as [a|]; [|done]. destruct (negb _); [done|].
  repeat case_decide; by apply keeps_call || done.
Qed.

Lemma keeps_inactive (t : Z) : keeps (SyncInactiveForPeriod t).
Proof.
  intros s Hs. unfold SyncInactiveForPeriod. destruct (negb _); [done|]. case_decide; [done|].
  by apply keeps_on_active; auto.
Qed.

Lemma keeps_lock_all : keeps wait_and_lock_all.
Proof. intros s Hs. unfold wait_and_lock_all. case_decide; [by apply keeps_on_wallets|done]. Qed.
Hint Resolve keeps_publish_last keeps_inactive keeps_lock_all : keeps.

Lemma ok_reset : ok resetSyncData.
Proof. unfold resetSyncData. ok_calls. apply keeps_on_sd; [done|]. done. Qed.

Lemma ok_cancel : ok CancelSync.
Proof. unfold CancelSync, clear_backends. ok_calls. case_match; ok_calls. Qed.

Lemma ok_SpvSync (script : list Event) (fin : Ending) : ok (SpvSync string_c DefaultPort script fin).
Proof.
  unfold SpvSync, setNetworkBackend, notify. ok_calls.
  apply keeps_on_sd; [done|]. by left.
Qed.

Lemma ok_run_ended (ctx : nat) (fin : Ending) : ok (run_ended ctx fin).
Proof.
  unfold run_ended. apply actions_seq; [|intros ?; apply ok_reset].
  destruct fin; try exact I; try apply ok_notify.
  unfold close_syncCanceled, notifySyncCanceled. ok_calls.
Qed.

Lemma keeps_section {A} (f : Z → activeSyncData → activeSyncData * A) :
  (∀ now a, syncStage (f now a).1 = syncStage a ∧
    addressDiscoveryCompletedOrCanceled (f now a).1 = addressDiscoveryCompletedOrCanceled a) →
  keeps (λ s : St, match activeSync (sd s) with
         | None => (Panic, s)
         | Some a => let '(a, r) := f (clock s) a in (Ok r, put_sd (set_activeSync (Some a) (sd s)) s)
         end).
Proof.
  intros Hf s Hs. destruct (activeSync (sd s)) as [a|] eqn:Ea; [|done].
  specialize (Hf (clock s) a). destruct (f (clock s) a) as [a' r]. destruct Hf as [H1 H2].
  simpl in *. apply put_sd_inv; [done|apply Hs|]. intros a'' [= <-].
  destruct (inv_active _ Hs _ Ea) as [Hst Hc]. unfold active_ok. by rewrite H1, H2.
Qed.

Lemma keeps_when {A} (b : St → bool) (m k : GM St A) :
  keeps m → keeps k → keeps (λ s, if b s then m s else k s).
Proof. intros Hm Hk s Hs. destruct (b s); [by apply Hm|by apply Hk]. Qed.

Lemma keeps_get {A} (f : St → outcome A) : keeps (λ s, (f s, s)).
Proof. by intros s. Qed.

Lemma on_active_at (f : St → activeSyncData → activeSyncData) :
  (∀ s, keeps (on_active (f s))) → keeps (λ s, on_active (f s) s).
Proof. intros H s. apply H. Qed.

Lemma ok_fetchHeadersStarted (h : Z) : ok (fetchHeadersStarted h).
Proof.
  unfold fetchHeadersStarted. ok_calls. case_match; ok_calls.
Qed.

Lemma ok_fetchHeadersProgress (h t : Z) : ok (fetchHeadersProgress conv TargetTimePerBlock h t).
Proof.
  unfold fetchHeadersProgress, publishFetchHeadersProgress, publishDebugInfo. ok_calls.
  apply (keeps_section (fetch_section conv TargetTimePerBlock h t)). intros now x.
  unfold fetch_section. simpl. by case_decide.
Qed.

Lemma ok_fetchHeadersFinished : ok fetchHeadersFinished.
Proof.
  unfold fetchHeadersFinished. apply ok_act, keeps_when; [apply keeps_ret|].
  apply on_active_at. intros s. by apply keeps_on_active; [|left].
Qed.

Lemma ok_discoverStarted (w : Z) : ok (discoverAddressesStarted w).
Proof.
  unfold discoverAddressesStarted. ok_calls.
Qed.

Lemma ok_updateDiscovery t : ok (updateAddressDiscoveryProgress conv t).
Proof.
  unfold updateAddressDiscoveryProgress, publishAddressDiscoveryProgress, publishDebugInfo. ok_calls.
Qed.

Lemma ok_rescanStarted (w : Z) : ok (rescanStarted w).
Proof.
  unfold rescanStarted. ok_calls. apply keeps_when; [apply keeps_ret|].
  apply on_active_at. intros s. by apply keeps_on_active; [|left].
Qed.

Lemma ok_rescanProgress (w h : Z) : ok (SyncNotify.rescanProgress conv w h).
Proof.
  unfold SyncNotify.rescanProgress, publishHeadersRescanProgress, publishDebugInfo. ok_calls.
  - intros s Hs. by destruct (wallets (mw s) !! w).
  - by apply (keeps_section (rescan_section conv w h _)).
  - apply keeps_when; [apply keeps_get_active|apply keeps_ret].
Qed.

Lemma ok_rescanFinished (w : Z) : ok (rescanFinished w).
Proof.
  unfold rescanFinished, publishHeadersRescanProgress. ok_calls.
Qed.

Lemma mark_frame (w : Z) (m : MW (D := D) (W := W) (S := S)) :
  online (markWalletAsDiscoveredAccounts w m).2 = online m ∧
  MultiWallet.syncing (markWalletAsDiscoveredAccounts w m).2 = MultiWallet.syncing m.
Proof.
  unfold markWalletAsDiscoveredAccounts, WalletWithID. destruct (wallets m !! w); [|done].
  unfold bind, Save. simpl. by destruct (wt_save _ _) as [[e|i] d].
Qed.

Lemma keeps_lock_discovered (w : Z) : keeps (lock_discovered w).
Proof.
  intros s Hs. unfold lock_discovered. destruct (wallets (mw s) !! w) as [x|]; [|done].
  destruct (internal x) as [i|]; [|done]. destruct (Locked i); [done|]. simpl.
  apply keeps_try.
  - apply keeps_on_mw. intros m. apply mark_frame.
  - apply (keeps_on_mw (modify (set_wallets (insert w (LockWallet x).2)))); [done|done].
Qed.

Lemma ok_synced (w : Z) (b : bool) : ok (SyncNotify.synced w b).
Proof.
  unfold SyncNotify.synced. ok_calls.
  - intros s Hs. destruct (wallets (mw s) !! w) as [x|]; [|done].
    by apply (keeps_on_mw (modify (set_wallets (insert w (set_syncing false (set_synced b x)))))).
  - apply keeps_lock_discovered.
  - apply keeps_on_sd; [done|]. by left.
Qed.

Lemma ok_peers (n : Z) : ok (handlePeerCountUpdate n).
Proof. unfold handlePeerCountUpdate. ok_calls. apply keeps_on_sd; [done|]. by left. Qed.

Lemma ok_discoverFinished (w : Z) : ok (discoverAddressesFinished w).
Proof. unfold discoverAddressesFinished. ok_calls. Qed.

Lemma ok_callback (e : Event) : ok (callback e).
Proof.
  destruct e; cbn [spvSyncNotificationCallbacks]; first
    [exact I|apply ok_synced|apply ok_peers|apply ok_fetchHeadersStarted|apply ok_fetchHeadersProgress
    |apply ok_fetchHeadersFinished|apply ok_discoverStarted|apply ok_discoverFinished
    |apply ok_rescanStarted|apply ok_rescanProgress|apply ok_rescanFinished].
Qed.

Lemma ok_bodies (g : routine) : (∀ w, ok (listen w)) → ok (bodies g).
Proof.
  intros Hl. destruct g as [ctx script fin|t|b|w|]; cbn [body].
  - apply actions_seq; [|intros ?; apply ok_run_ended].
    induction script as [|e script IH]; cbn [notify_all]; [done|]. apply actions_seq; [apply ok_callback|done].
  - apply ok_updateDiscovery.
  - unfold index_and_notify. ok_calls.
  - apply Hl.
  - ok_calls. intros s Hs. by destruct Hs.
Qed.

(** The calls of sync.go, and the handlers. *)
Inductive client : Prog unit → Prop :=
| cl_start script fin : client (SpvSync string_c DefaultPort script fin)
| cl_cancel : client CancelSync
| cl_restart script fin : client (RestartSpvSync string_c DefaultPort script fin)
| cl_add u : client (AddSyncProgressListener u)
| cl_remove u : client (act (RemoveSyncProgressListener u))
| cl_publish u : client (act (PublishLastSyncProgress u))
| cl_inactive t : client (act (SyncInactiveForPeriod t))
| cl_logs : client (act EnableSyncLogs)
| cl_callback e : client (callback e)
| cl_goroutine g : client (bodies g).

Lemma ok_client (p : Prog unit) : (∀ w, ok (listen w)) → client p → ok p.
Proof.
  intros Hl [script fin| |script fin|u|u|u|t| |e|g].
  - apply ok_SpvSync.
  - apply ok_cancel.
  - unfold RestartSpvSync. apply actions_seq; [|intros ?; apply actions_seq].
    + apply ok_act, keeps_on_sd; [done|]. by left.
    + apply ok_cancel.
    + intros ?. apply ok_SpvSync.
  - unfold AddSyncProgressListener, IsSyncProgressListenerRegisteredFor. ok_calls. apply keeps_on_sd; [done|]. by left.
  - apply ok_act, keeps_on_sd; [done|]. by left.
  - apply ok_act, keeps_publish_last.
  - apply ok_act, keeps_inactive.
  - apply ok_act, keeps_on_sd; [done|]. by left.
  - apply ok_callback.
  - by apply ok_bodies.
Qed.

(** C17. Whatever calls of sync.go and notifications of the syncer run at the
    same time, and however they interleave with each other and with the
    goroutines they start: the rest of the multiwallet is told the truth about
    the sync, there is a sync to cancel exactly when there is a channel to wait
    for it, the stage that is reported exists, and the channel of the discovery
    reports is never closed twice. *)
Theorem sync_invariant (sched : list (nat * bool)) (c c' : conf St routine) :
  (∀ w, ok (listen w)) → Forall client (pool c) → sync_inv (shared c) →
  run bodies sched c = Moved c' →
  sync_inv (shared c') ∧
  (stopUpdatingAddressDiscoveryProgress (shared c')).1 ≠ Panic ∧
  match (CurrentSyncStage (shared c')).1 with Ok z => (-1 ≤ z ≤ 2)%Z | Err _ => False | Panic => True end.
Proof.
  intros Hl Hc Hs Hr.
  assert (Hok : conf_ok sync_inv c').
  { eapply conf_ok_run; [|done|].
    - intros g. by apply ok_bodies.
    - split; [done|]. eapply Forall_impl; [done|]. intros p. by apply ok_client. }
  destruct Hok as [Hs' _]. split; [done|]. split.
  - by destruct (stop_spec _ Hs') as (s' & -> & _).
  - unfold CurrentSyncStage. destruct (sd_syncing _); [|done]. unfold get_active.
    destruct (activeSync (sd (shared c'))) as [a|] eqn:Ea; [|done]. apply (inv_active _ Hs' _ Ea).
Qed.
End SyncRun.

(** ** Witness *)
Lemma running_inv : sync_inv ToySync.running.
Proof.
  split; simpl; try done.
  intros a [= <-]. split; [done|]. by intros c.
Qed.

Lemma running_open : map_Forall (λ _ w, internal w ≠ None) (wallets (mw ToySync.running)).
Proof.
  intros i w Hw. change (({[1%Z := ToySync.one_wallet]} : gmap Z _) !! i = Some w) in Hw.
  by apply lookup_singleton_Some in Hw as [<- <-].
Qed.

(** A listener is added and the sync is canceled while headers are counted. *)
Definition toy_conf : conf ToySync.state (goroutine (Note := Event)) :=
  mkConf ToySync.running
    [AddSyncProgressListener "log"; CancelSync;
     spvSyncNotificationCallbacks (λ _ _, 0%Z) 300000000000 (FetchHeadersProgress 1200 900000)].
Definition toy_sched : list (nat * bool) :=
  [(0, true); (2, true); (1, true); (0, true); (2, true); (1, true); (0, true)].

Lemma sync_invariant_witness :
  ∃ c', run (body (λ _ _, 0%Z) 300000000000 (λ w, w) (λ _, Ret tt)) toy_sched toy_conf = Moved c' ∧
    sync_inv (shared c').
Proof.
  eexists. split; [reflexivity|].
  eapply (sync_invariant ToySync.string_c "9108" (λ _ _, 0%Z) 300000000000 (λ w, w) (λ _, Ret tt)
    toy_sched toy_conf).
  - intros w. exact I.
  - apply Forall_cons. split; [apply cl_add|].
    apply Forall_cons. split; [apply cl_cancel|].
    apply Forall_cons. split; [apply (cl_callback _ _ _ _ _ _ (FetchHeadersProgress 1200 900000))|].
    apply Forall_nil. exact I.
  - apply running_inv.
  - reflexivity.
Defined.
