(* ===== verification/SyncCancel.v ===== *)
(** * Canceling and restarting a sync

    [CancelSync] waits for the goroutine of the sync to close a channel.  Once
    it waits for the right one, it returns and the sync is over, however the two
    interleave; before that, or when the sync ends in another way, it can wait
    for ever.  [RestartSpvSync] can find the old sync still there. *)
From S2P Require Import Prelude Float Conc Wire Syncer TxHelper Decode TxIndex Loader Config Utils.
From S2P Require Import Wallet MultiWallet SyncData SyncNotify SyncRun.

Section SyncCancel.
Context {D Val W S : Type} `{!WalletTable D, !KvStore D Val, !Internal W, !Storm S, !SyncLib W}.
Context `{!SyncLibLaws W}.
Context (string_c : Codec Val string) (DefaultPort : string).
Context (conv : Z → f64 → Z) (TargetTimePerBlock : Z) (IndexTransactions_ : Wallet W S → Wallet W S).
Abbreviation St := (SS (D := D) (W := W) (S := S)).
Abbreviation routine := (goroutine (Note := Event)).
Abbreviation Prog := (prog St routine).
Context (listen : Z → Prog unit).
Abbreviation bodies := (body conv TargetTimePerBlock IndexTransactions_ listen).

Definition all_open (s : St) : Prop := map_Forall (λ _ w, internal w ≠ None) (wallets (mw s)).

Lemma open_some (s : St) (i : Z) (w : Wallet W S) :
  all_open s → wallets (mw s) !! i = Some w → ∃ x, internal w = Some x.
Proof.
  intros Ho Hw. pose proof (Ho i w Hw) as Hne. simpl in Hne. destruct (internal w); [by eauto|done].
Qed.

(** A loaded wallet has no network backend. *)
Definition no_backend (w : Wallet W S) : Prop :=
  is_loaded w = true → ∀ i, internal w = Some i → NetworkBackendOf i = None.

(** Nothing is left of the sync. *)
Definition over (s : St) : Prop :=
  sd_syncing (sd s) = false ∧ sd_synced (sd s) = false ∧ cancelSync (sd s) = None ∧
  syncCanceled (sd s) = None ∧ activeSync (sd s) = None.

Definition locked_all (s : St) : Prop :=
  map_Forall (λ _ w, w_waiting w = true ∧ ∃ i, internal w = Some i ∧ Locked i = true)
    (wallets (mw s)).

(** What is left of [CancelSync] when it has read the channel. *)
Definition await (ch : option nat) : Prog unit :=
  Wait (is_closed ch) (Ret tt) >> act clear_backends.

(** What is left of it, and of the goroutine of the sync, by the number of
    steps to go. *)
Definition left_of_cancel (ch : nat) (a : nat) : Prog unit :=
  match a with
  | 0 => Ret tt
  | 1 => act clear_backends
  | _ => await (Some ch)
  end.

Inductive left_of_sync (ctx ch : nat) : nat → Prog unit → Prop :=
| ls_wait : left_of_sync ctx ch 9 (run_ended ctx EndCanceled)
| ls_read : left_of_sync ctx ch 8 ((close_syncCanceled >> notifySyncCanceled) >> resetSyncData)
| ls_close : left_of_sync ctx ch 7
    ((act (close_chan (Some ch)) >> notifySyncCanceled) >> resetSyncData)
| ls_notify : left_of_sync ctx ch 6 (notifySyncCanceled >> resetSyncData)
| ls_listeners c : left_of_sync ctx ch 5 (notify c >> resetSyncData)
| ls_call to c : left_of_sync ctx ch 4 (act (call to c) >> resetSyncData)
| ls_stop : left_of_sync ctx ch 3 resetSyncData
| ls_reset : left_of_sync ctx ch 2
    (act (on_sd (λ d, set_activeSync None (set_syncCanceled None (set_cancelSync None
                        (set_sd_synced false (set_sd_syncing false d)))))) >>
     act wait_and_lock_all)
| ls_lock : left_of_sync ctx ch 1 (act wait_and_lock_all)
| ls_done : left_of_sync ctx ch 0 (Ret tt).

(** What holds with [a] and [b] steps to go. *)
Record canceling (ctx ch a b : nat) (s : St) : Prop := mkCanceling {
  ca_inv : sync_inv s;
  ca_open : all_open s;
  ca_before : 6 < b → ctx ∈ canceled s ∧ syncCanceled (sd s) = Some ch ∧ ch ∉ closed s;
  ca_closed : b ≤ 6 → ch ∈ closed s;
  ca_reset : b ≤ 1 → over s;
  ca_locked : b = 0 → locked_all s;
  ca_cleared : a = 0 → map_Forall (λ _ w, no_backend w) (wallets (mw s)) }.

(** An action of the goroutine of the sync that only needs the invariant. *)
Lemma canceling_next (ctx ch a b : nat) (s s' : St) :
  canceling ctx ch a (Datatypes.S b) s → sync_inv s' → mw s' = mw s →
  canceled s' = canceled s → (6 < b → syncCanceled (sd s') = syncCanceled (sd s)) →
  (6 < b → closed s' = closed s) → (b ≤ 6 → ch ∈ closed s') → (b = 1 → over s') → b ≠ 0 →
  canceling ctx ch a b s'.
Proof.
  intros [H1 H2 H3 H4 H5 H6 H7] Hinv Hmw Hcan Hsc Hcl Hclosed Hover Hb.
  split; unfold all_open, locked_all in *; rewrite ?Hmw; try done.
  - intros Hlt. rewrite Hcan, Hsc, Hcl by done. apply H3. lia.
  - intros Hle. apply Hover. lia.
Qed.

Lemma wallets_put_sd (d : syncData) (s : St) : wallets (mw (put_sd d s)) = wallets (mw s).
Proof. done. Qed.

Lemma Forall_on_wallets (P : Wallet W S → Prop) (f : Wallet W S → Wallet W S) (s : St) :
  (∀ i w, wallets (mw s) !! i = Some w → P (f w)) →
  map_Forall (λ _ w, P w) (wallets (mw (on_wallets f s).2)).
Proof.
  intros H i w. simpl. rewrite lookup_fmap. intros (x & Hx & ->)%fmap_Some. by eapply H.
Qed.

(** Locking keeps a wallet open and its backend, and locks it. *)
Lemma LockWallet_spec (w : Wallet W S) (i : W) :
  internal w = Some i →
  let w' := (LockWallet (set_waiting true w)).2 in
  (∃ j, internal w' = Some j ∧ Locked j = true ∧ NetworkBackendOf j = NetworkBackendOf i) ∧
  w_waiting w' = true ∧ is_loaded w' = is_loaded w.
Proof.
  intros Hi. unfold LockWallet. simpl. rewrite Hi. simpl. destruct (Locked i) eqn:El; simpl.
  - split_and!; [|done..]. by exists i.
  - split_and!; [|done..]. exists (Lock i). split_and!; [done|apply lock_locked|apply lock_backend].
Qed.

(** One step of the goroutine of the sync. *)
Lemma sync_steps (ctx ch a b : nat) (p : Prog unit) (s : St) (sel : bool) :
  left_of_sync ctx ch (Datatypes.S b) p → canceling ctx ch a (Datatypes.S b) s →
  ∃ s' p', next bodies sel p s = Goes s' p' [] ∧ left_of_sync ctx ch b p' ∧ canceling ctx ch a b s'.
Proof.
  intros Hp Hs. pose proof Hs as [Hinv Hopen Hbefore Hclosed Hreset Hlock Hclear].
  inversion Hp as [Hb|Hb|Hb|Hb|c Hb|to c Hb|Hb|Hb|Hb|]; subst; try clear Hp.
  - destruct Hbefore as (Hc & _ & _); [lia|]. eexists s, _. split_and!.
    + simpl. rewrite bool_decide_true by done. reflexivity.
    + apply ls_read.
    + by eapply canceling_next; eauto; lia.
  - destruct Hbefore as (_ & Hch & _); [lia|]. eexists s, _. split_and!.
    + simpl. rewrite Hch. reflexivity.
    + apply ls_close.
    + by eapply canceling_next; eauto; lia.
  - destruct Hbefore as (_ & _ & Hn); [lia|]. eexists _, _. split_and!.
    + simpl. rewrite decide_False by done. reflexivity.
    + apply ls_notify.
    + eapply canceling_next; [done| | | | | | | |]; try done; try lia; simpl.
      * pose proof (keeps_close_chan (Some ch) s Hinv) as Hk. simpl in Hk.
        by rewrite decide_False in Hk.
      * set_solver.
  - eexists s, _. split_and!; [reflexivity|apply ls_listeners|].
    eapply canceling_next; eauto; try lia; intros _; apply Hclosed; lia.
  - eexists s, _. split_and!; [reflexivity|apply ls_call|].
    eapply canceling_next; eauto; try lia; intros _; apply Hclosed; lia.
  - assert (Hcall : ∃ s', call to c s = (Ok tt, s') ∧ mw s' = mw s ∧ sd s' = sd s ∧
      canceled s' = canceled s ∧ closed s' = closed s).
    { unfold call. case_decide; eexists; by split_and!. }
    destruct Hcall as (s' & Hcall & H1 & H2 & H3 & H4).
    eexists s', _. split_and!.
    + simpl. rewrite Hcall. reflexivity.
    + apply ls_stop.
    + eapply canceling_next; eauto; try lia.
      * pose proof (keeps_call to c s Hinv) as Hk. by rewrite Hcall in Hk.
      * intros _. rewrite H4. apply Hclosed. lia.
  - pose proof (keeps_stop s Hinv) as Hk.
    destruct (stop_spec s Hinv) as (s' & Hstop & Hw & Hcl & _). rewrite Hstop in Hk. eexists s', _. split_and!.
    + simpl. rewrite Hstop. reflexivity.
    + apply ls_reset.
    + split; unfold all_open, locked_all in *; rewrite ?Hw; try done; try lia.
      intros _. rewrite Hcl. apply Hclosed. lia.
  - eexists _, _. split_and!; [reflexivity|apply ls_lock|].
    split; unfold all_open, locked_all; rewrite ?wallets_put_sd; try done; try lia.
    + apply put_sd_inv; simpl; done.
    + intros _. apply Hclosed. lia.
  - pose proof (keeps_lock_all s Hinv) as Hk.
    assert (Hall : wait_and_lock_all s =
      on_wallets (λ w, (LockWallet (set_waiting true w)).2) s).
    { unfold wait_and_lock_all. by rewrite decide_True. }
    rewrite Hall in Hk. eexists _, _. split_and!.
    + simpl. rewrite Hall. reflexivity.
    + apply ls_done.
    + split; unfold all_open, locked_all; try done; try lia.
      * apply (Forall_on_wallets (λ w, internal w ≠ None)). intros i w Hw.
        destruct (open_some _ _ _ Hopen Hw) as [x Ex].
        destruct (LockWallet_spec w x Ex) as ((j & -> & _) & _). done.
      * intros _. apply Hclosed. lia.
      * intros _. apply Hreset. lia.
      * intros _. apply (Forall_on_wallets (λ w, w_waiting w = true ∧
          ∃ i, internal w = Some i ∧ Locked i = true)). intros i w Hw.
        destruct (open_some _ _ _ Hopen Hw) as [x Ex].
        destruct (LockWallet_spec w x Ex) as ((j & Hj & Hl & _) & Hwt & _). by eauto.
      * intros Ha. apply (Forall_on_wallets no_backend). intros i w Hw Hl k Hki.
        destruct (open_some _ _ _ Hopen Hw) as [x Ex].
        destruct (LockWallet_spec w x Ex) as ((j & Hj & _ & Hb) & _ & Hld).
        rewrite Hj in Hki. injection Hki as <-. rewrite Hb. rewrite Hld in Hl.
        by apply (Hclear Ha i w Hw).
Qed.

(** One step of [CancelSync]. *)
Lemma cancel_steps (ctx ch a b : nat) (s s' : St) (p' : Prog unit) (l : list routine) (sel : bool) :
  a ≤ 2 → canceling ctx ch a b s →
  next bodies sel (left_of_cancel ch a) s = Goes s' p' l →
  ∃ a', a = Datatypes.S a' ∧ p' = left_of_cancel ch a' ∧ l = [] ∧ canceling ctx ch a' b s'.
Proof.
  intros Ha Hs Hn. pose proof Hs as [Hinv Hopen Hbefore Hclosed Hreset Hlock Hclear].
  destruct a as [|[|[|a]]]; [done| | |lia].
  - simpl in Hn. injection Hn as <- <- <-. exists 0. split_and!; [done..|].
    assert (Hset : ∀ (w : Wallet W S) i, internal w = Some i →
      let w' := if is_loaded w then set_internal (SetNetworkBackend None <$> internal w) w else w in
      (∃ j, internal w' = Some j ∧ Locked j = Locked i) ∧ no_backend w' ∧ w_waiting w' = w_waiting w).
    { intros w i Hi. destruct (is_loaded w) eqn:El; simpl; rewrite ?Hi; simpl.
      - split_and!; [eexists; split; [done|apply backend_locked]| |done].
        intros _ k. simpl. intros [= <-]. apply backend_set.
      - split_and!; [by eexists| |done]. unfold no_backend. by rewrite El. }
    split; unfold all_open, locked_all; try done.
    + by apply (keeps_on_wallets _ s).
    + apply (Forall_on_wallets (λ w, internal w ≠ None)). intros i w Hw.
      destruct (open_some _ _ _ Hopen Hw) as [x Ex].
      destruct (Hset w x Ex) as ((j & -> & _) & _). done.
    + intros Hb. apply (Forall_on_wallets (λ w, w_waiting w = true ∧
        ∃ i, internal w = Some i ∧ Locked i = true)). intros i w Hw.
      destruct (Hlock Hb i w Hw) as (Hwt & x & Ex & Hl).
      destruct (Hset w x Ex) as ((j & Hj & Hlj) & _ & Hww). split; [congruence|].
      exists j. split; [done|congruence].
    + intros _. apply (Forall_on_wallets no_backend). intros i w Hw.
      destruct (open_some _ _ _ Hopen Hw) as [x Ex].
      by apply (Hset w x Ex).
  - exists 1. simpl in Hn. destruct (bool_decide (ch ∈ closed s)); [|done].
    injection Hn as <- <- <-. split_and!; [done..|]. by split.
Qed.

(** A configuration on the way, by the number of steps to go. *)
Definition on_the_way (ctx ch n : nat) (c : conf St routine) : Prop :=
  ∃ a b p s, n = a + b ∧ a ≤ 2 ∧ left_of_sync ctx ch b p ∧ canceling ctx ch a b s ∧
    c = mkConf s [left_of_cancel ch a; p].

(** Both have returned, and nothing is left. *)
Definition canceled_ok (c : conf St routine) : Prop :=
  pool c = [Ret tt; Ret tt] ∧ over (shared c) ∧ locked_all (shared c) ∧
  map_Forall (λ _ w, no_backend w) (wallets (mw (shared c))).

Lemma on_the_way_step (ctx ch n : nat) (c : conf St routine) :
  on_the_way ctx ch n c →
  canceled_ok c ∨ (∃ c', step bodies c c') ∧ ¬ crashes bodies c ∧
    ∀ c', step bodies c c' → ∃ m, m < n ∧ on_the_way ctx ch m c'.
Proof.
  intros (a & b & p & s & -> & Ha & Hp & Hs & ->).
  assert (Hleft : ∀ sel s' p' l, next bodies sel (left_of_cancel ch a) s = Goes s' p' l →
    ∃ a', a = Datatypes.S a' ∧ l = [] ∧ on_the_way ctx ch (a' + b) (mkConf s' [p'; p])).
  { intros sel s' p' l Hn. destruct (cancel_steps _ _ _ _ _ _ _ _ _ Ha Hs Hn)
      as (a' & -> & -> & -> & Hs'). exists a'. split_and!; [done..|].
    exists a', b, p, s'. split_and!; [done|lia|done..]. }
  assert (Hcr : ∀ sel, next bodies sel (left_of_cancel ch a) s ≠ Panics).
  { intros sel. destruct a as [|[|a]]; simpl; [done..|]. by destruct (bool_decide _). }
  destruct b as [|b].
  - inversion Hp; subst. destruct a as [|a].
    { left. split_and!; [done|by apply (ca_reset _ _ _ _ _ Hs); lia|by apply (ca_locked _ _ _ _ _ Hs)
        |by apply (ca_cleared _ _ _ _ _ Hs)]. }
    right. split_and!.
    + destruct a as [|a].
      * eexists. eapply (pair_left bodies) with (sel := true). reflexivity.
      * eexists. eapply (pair_left bodies) with (sel := true). simpl.
        rewrite bool_decide_true by (apply (ca_closed _ _ _ _ _ Hs); lia). reflexivity.
    + intros [sel [H|H]]%crash_pair; [by apply (Hcr sel)|done].
    + intros c' [(sel & s' & p' & l & Hn & ->)|(sel & s' & q' & l & Hn & ->)]%step_pair; [|done].
      destruct (Hleft _ _ _ _ Hn) as (a' & [= ->] & -> & Hc). exists (a' + 0). split; [lia|done].
  - right. destruct (sync_steps ctx ch a b p s true Hp Hs) as (s1 & p1 & Hn1 & _). split_and!.
    + eexists. eapply (pair_right bodies). exact Hn1.
    + intros [sel [H|H]]%crash_pair; [by apply (Hcr sel)|].
      destruct (sync_steps ctx ch a b p s sel Hp Hs) as (s2 & p2 & Hn2 & _). congruence.
    + intros c' [(sel & s' & p' & l & Hn & ->)|(sel & s' & q' & l & Hn & ->)]%step_pair.
      * destruct (Hleft _ _ _ _ Hn) as (a' & -> & -> & Hc). exists (a' + Datatypes.S b).
        split; [lia|done].
      * destruct (sync_steps ctx ch a b p s sel Hp Hs) as (s2 & p2 & Hn2 & Hp2 & Hs2).
        rewrite Hn in Hn2. injection Hn2 as -> -> ->. exists (a + b). split; [lia|].
        exists a, b, p2, s2. by split_and!.
Qed.

(** C18. Canceling a running sync ends: when [CancelSync] has canceled the
    context and read the channel before the goroutine of the sync closes it,
    then, however the two interleave from there, both return, without a panic;
    the sync is over, every wallet is locked and waits, and no loaded wallet has
    a network backend. *)
Theorem cancel_completes (ctx ch : nat) (s : St) :
  sync_inv s → all_open s → cancelSync (sd s) = Some ctx → syncCanceled (sd s) = Some ch →
  ch ∉ closed s →
  ∃ c, run bodies (replicate 3 (0, true)) (mkConf s [CancelSync; run_ended ctx EndCanceled]) =
         Moved c ∧
    eventually bodies canceled_ok c.
Proof.
  intros Hi Ho Hctx Hch Hn. eexists. split.
  - simpl. unfold step_at. simpl. rewrite Hctx. simpl. rewrite Hch. reflexivity.
  - eapply (eventually_measure bodies (on_the_way ctx ch)); [apply on_the_way_step|].
    exists 2, 9, (run_ended ctx EndCanceled), (cancel ctx s).2. split_and!; try done.
    + apply ls_wait.
    + split; try lia; try done.
      * by apply keeps_cancel.
      * intros _. simpl. split_and!; [set_solver|done..].
Qed.

(** *** Schedules that go wrong *)

(** The goroutine of the sync runs to its end while the other one waits. *)
Lemma sync_runs (ctx ch a b : nat) (p q : Prog unit) (s : St) :
  left_of_sync ctx ch b p → canceling ctx ch a b s →
  ∃ s', run bodies (replicate b (1, true)) (mkConf s [q; p]) = Moved (mkConf s' [q; Ret tt]) ∧
    canceling ctx ch a 0 s'.
Proof.
  revert p s. induction b as [|b IH]; intros p s Hp Hs.
  { inversion Hp; subst. by exists s. }
  destruct (sync_steps ctx ch a b p s true Hp Hs) as (s1 & p1 & Hn & Hp1 & Hs1).
  destruct (IH p1 s1 Hp1 Hs1) as (s2 & Hr & Hs2). exists s2. split; [|done].
  simpl. unfold step_at. simpl. rewrite Hn. exact Hr.
Qed.

(** The goroutine of a sync that ends in an error, from its second step. *)
Lemma failed_sync_runs (q : Prog unit) (e : goerr) (s : St) :
  sync_inv s → all_open s →
  ∃ s', run bodies (replicate 5 (1, true))
          (mkConf s [q; notify (OnSyncEndedWithError e) >> resetSyncData]) =
        Moved (mkConf s' [q; Ret tt]) ∧ over s' ∧ closed s' = closed s.
Proof.
  intros Hi Ho.
  assert (Hcall : ∃ s1, call (listeners (sd s)) (OnSyncEndedWithError e) s = (Ok tt, s1) ∧
    sync_inv s1 ∧ all_open s1 ∧ closed s1 = closed s).
  { pose proof (keeps_call (listeners (sd s)) (OnSyncEndedWithError e) s Hi) as Hk.
    unfold call in *. case_decide; eexists; by split_and!. }
  destruct Hcall as (s1 & Hcall & Hi1 & Ho1 & Hc1).
  destruct (stop_spec s1 Hi1) as (s2 & Hstop & Hw2 & Hc2 & _).
  assert (Ho2 : all_open s2) by (unfold all_open; by rewrite Hw2).
  eexists. split.
  - cbn [replicate]. do 4 (erewrite run_right; [|cbn; rewrite ?Hcall, ?Hstop; reflexivity]).
    erewrite run_right; [reflexivity|]. cbn. unfold wait_and_lock_all.
    rewrite decide_True by exact Ho2. reflexivity.
  - simpl. split; [done|congruence].
Qed.

(** [CancelSync] can wait for ever, in two ways: the goroutine of a
    canceled sync can reset the sync data before [CancelSync] reads the channel,
    which is then [nil]; and a sync that ends in another error, while it is
    being canceled, never closes the channel.  The sync is over, and no
    goroutine can go on. *)
Theorem cancel_can_hang (ctx ch : nat) (fin : Ending) (s : St) :
  (fin = EndCanceled ∨ ∃ e, fin = EndError e) →
  sync_inv s → all_open s → cancelSync (sd s) = Some ctx → syncCanceled (sd s) = Some ch →
  ch ∉ closed s →
  ∃ sched c ch', run bodies sched (mkConf s [CancelSync; run_ended ctx fin]) = Moved c ∧
    pool c = [await ch'; Ret tt] ∧ over (shared c) ∧
    (∀ c', ¬ step bodies c c') ∧ ¬ crashes bodies c.
Proof.
  intros Hfin Hi Ho Hctx Hch Hn.
  assert (Hstuck : ∀ s' ch', is_closed ch' s' = false →
    (∀ c', ¬ step bodies (mkConf s' [await ch'; Ret tt]) c') ∧
    ¬ crashes bodies (mkConf s' [await ch'; Ret tt])).
  { intros s' ch' Hc. split.
    - intros c' [(sel & ? & ? & ? & H & _)|(sel & ? & ? & ? & H & _)]%step_pair; [|done].
      simpl in H. by rewrite Hc in H.
    - intros [sel [H|H]]%crash_pair; [|done]. simpl in H. by rewrite Hc in H. }
  pose proof (keeps_cancel ctx s Hi) as Hi1.
  destruct Hfin as [->|[e ->]].
  - assert (Hca : canceling ctx ch 2 9 (cancel ctx s).2).
    { split; try lia; try done. intros _. simpl. split_and!; [set_solver|done..]. }
    set (q := Act (gets (λ s : St, syncCanceled (sd s))) (λ b, await b) : Prog unit).
    destruct (sync_runs _ _ _ _ _ q _ (ls_wait ctx ch) Hca) as (s' & Hr & Hs').
    pose proof (ca_reset _ _ _ _ _ Hs' (Nat.le_0_l 1)) as Hover.
    assert (Hnone : syncCanceled (sd s') = None) by apply Hover.
    exists (replicate 2 (0, true) ++ replicate 9 (1, true) ++ [(0, true)]), (mkConf s' [await None; Ret tt]), None.
    split_and!; [|done|done|by apply Hstuck..].
    erewrite run_app; [erewrite run_app; [|exact Hr]|].
    + erewrite run_left; [reflexivity|]. cbn. by rewrite Hnone.
    + cbn [replicate]. erewrite run_left; [|reflexivity]. erewrite run_left; [reflexivity|].
      cbn. rewrite Hctx. reflexivity.
  - destruct (failed_sync_runs (await (Some ch)) e _ Hi1 Ho) as (s' & Hr & Hover & Hc).
    exists (replicate 3 (0, true) ++ replicate 5 (1, true)), (mkConf s' [await (Some ch); Ret tt]), (Some ch).
    split_and!; [|done|done|apply Hstuck; simpl; rewrite Hc; by apply bool_decide_false..].
    erewrite run_app; [exact Hr|]. cbn [replicate].
    do 3 (erewrite run_left; [|cbn; rewrite ?Hctx, ?Hch; reflexivity]). reflexivity.
Qed.

(** [RestartSpvSync] can fail with the error that a sync is in progress
    although it has canceled it: the channel it waits for is closed before the
    flags are reset.  No sync is left running then. *)
Theorem restart_can_fail (ctx ch : nat) (script : list Event) (fin : Ending) (s : St) :
  sync_inv s → all_open s → cancelSync (sd s) = Some ctx → syncCanceled (sd s) = Some ch →
  ch ∉ closed s → sd_syncing (sd s) = true →
  ∃ sched c, run bodies sched
      (mkConf s [RestartSpvSync string_c DefaultPort script fin; run_ended ctx EndCanceled]) = Moved c ∧
    pool c = [Stop ErrSyncAlreadyInProgress; Ret tt] ∧ over (shared c).
Proof.
  intros Hi Ho Hctx Hch Hn Hsy.
  set (s0 := (on_sd (set_restartSyncRequested true) s).2).
  set (s1 := (cancel ctx s0).2).
  assert (Hca : canceling ctx ch 2 9 s1).
  { split; try lia; try done.
    - apply keeps_cancel, keeps_on_sd; [done|by left|done].
    - intros _. simpl. split_and!; [set_solver|done..]. }
  assert (Hin : ctx ∈ canceled s1) by (simpl; set_solver).
  destruct (sync_steps _ _ _ _ _ _ true (ls_wait ctx ch) Hca) as (s2 & p2 & Hn2 & _ & Hc2).
  cbn [next run_ended seq] in Hn2. rewrite bool_decide_true in Hn2 by done. injection Hn2 as <- _.
  destruct (sync_steps _ _ _ _ _ _ true (ls_read ctx ch) Hc2) as (s3 & p3 & Hn3 & _ & Hc3).
  cbn in Hn3. injection Hn3 as <- _.
  destruct (sync_steps _ _ _ _ _ _ true (ls_close ctx ch) Hc3) as (s4 & p4 & Hn4 & _ & Hc4).
  cbn in Hn4. rewrite decide_False in Hn4 by done. injection Hn4 as <- _.
  set (s4 := mkSS _ _ _ _ _ _ _ _) in Hc4.
  assert (Hcl : bool_decide (ch ∈ closed s4) = true) by (apply bool_decide_true; simpl; set_solver).
  destruct (cancel_steps ctx ch 2 6 s4 s4 (left_of_cancel ch 1) [] true) as (a1 & Ha1 & _ & _ & Hc5);
    [lia|done|cbn [next left_of_cancel await seq is_closed]; by rewrite Hcl|]. injection Ha1 as <-.
  destruct (cancel_steps ctx ch 1 6 s4 (clear_backends s4).2 (Ret tt) [] true)
    as (a2 & Ha2 & _ & _ & Hc6); [lia|done|done|]. injection Ha2 as <-.
  destruct (sync_runs _ _ _ _ _ (Stop ErrSyncAlreadyInProgress) _ (ls_notify ctx ch) Hc6)
    as (s' & Hr & Hs').
  exists (replicate 4 (0, true) ++ replicate 3 (1, true) ++ replicate 3 (0, true) ++
          replicate 6 (1, true)), (mkConf s' [Stop ErrSyncAlreadyInProgress; Ret tt]).
  split_and!; [|done|by apply (ca_reset _ _ _ _ _ Hs'); lia].
  cbn [replicate app].
  do 4 (erewrite run_left; [|cbn; rewrite ?Hctx, ?Hch; reflexivity]).
  do 3 (erewrite run_right; [|cbn; rewrite ?Hch, ?bool_decide_true, ?decide_False by done; reflexivity]).
  erewrite run_left; [|cbn; rewrite bool_decide_true by set_solver; reflexivity].
  erewrite run_left; [|reflexivity].
  erewrite run_left; [|cbn; unfold IsSyncing; cbn; rewrite Hsy; reflexivity].
  exact Hr.
Qed.
End SyncCancel.

(** ** Witnesses: the sync of [ToySync.running] *)
Lemma cancel_completes_witness :
  ∃ c, eventually (body (λ _ _, 0%Z) 300000000000 (λ w, w) (λ _, Ret tt)) canceled_ok c ∧
    shared c = (cancel 0 ToySync.running).2.
Proof.
  destruct (cancel_completes (λ _ _, 0%Z) 300000000000 (λ w, w) (λ _, Ret tt) 0 1 ToySync.running)
    as (c & Hr & He).
  - apply running_inv.
  - apply running_open.
  - reflexivity.
  - reflexivity.
  - apply not_elem_of_empty.
  - exists c. split; [exact He|]. injection Hr as <-. reflexivity.
Defined.

Lemma cancel_can_hang_witness :
  ∃ sched c ch', run (body (λ _ _, 0%Z) 300000000000 (λ w, w) (λ _, Ret tt)) sched
      (mkConf ToySync.running [CancelSync; run_ended 0 (EndError ErrNoPeers)]) = Moved c ∧
    pool c = [await ch'; Ret tt].
Proof.
  destruct (cancel_can_hang (λ _ _, 0%Z) 300000000000 (λ w, w) (λ _, Ret tt) 0 1
    (EndError ErrNoPeers) ToySync.running) as (sched & c & ch' & Hr & Hp & _).
  - right. exists ErrNoPeers. reflexivity.
  - apply running_inv.
  - apply running_open.
  - reflexivity.
  - reflexivity.
  - apply not_elem_of_empty.
  - exists sched, c, ch'. split; [exact Hr|exact Hp].
Defined.

Lemma restart_can_fail_witness :
  ∃ sched c, run (body (λ _ _, 0%Z) 300000000000 (λ w, w) (λ _, Ret tt)) sched
      (mkConf ToySync.running
         [RestartSpvSync ToySync.string_c "9108" [] EndNil; run_ended 0 EndCanceled]) = Moved c ∧
    pool c = [Stop ErrSyncAlreadyInProgress; Ret tt].
Proof.
  destruct (restart_can_fail ToySync.string_c "9108" (λ _ _, 0%Z) 300000000000 (λ w, w)
    (λ _, Ret tt) 0 1 [] EndNil ToySync.running) as (sched & c & Hr & Hp & _).
  - apply running_inv.
  - apply running_open.
  - reflexivity.
  - reflexivity.
  - apply not_elem_of_empty.
  - reflexivity.
  - exists sched, c. split; [exact Hr|exact Hp].
Defined.
