(* ===== verification/SyncSpec.v ===== *)
(** * What a sync does, step by step

    The effect of starting a sync, of the notification that a wallet is synced,
    of the first progress reports, and what the reports of address discovery do
    when a sync ends under them. *)
From Stdlib Require Import Floats.SpecFloat.
From S2P Require Import Prelude Float Conc Wire Syncer TxHelper Decode TxIndex Loader Config Utils.
From S2P Require Import Wallet MultiWallet SyncData SyncNotify SyncRun SyncCancel.

Section SyncSpec.
Context {D Val W S : Type} `{!WalletTable D, !KvStore D Val, !Internal W, !Storm S, !SyncLib W}.
Context `{!SyncLibLaws W}.
Context (string_c : Codec Val string) (DefaultPort : string).
Context (conv : Z → f64 → Z) (TargetTimePerBlock : Z) (IndexTransactions_ : Wallet W S → Wallet W S).
Abbreviation St := (SS (D := D) (W := W) (S := S)).
Abbreviation routine := (goroutine (Note := Event)).
Abbreviation Prog := (prog St routine).
Context (listen : Z → Prog unit).
Abbreviation bodies := (body conv TargetTimePerBlock IndexTransactions_ listen).

(** ** Starting *)

(** The configured peers, and whether some can be used. *)
Definition configured_peers (s : St) : string :=
  ReadStringConfigValueForKey string_c SpvPersistentPeerAddressesConfigKey (mdb (mw s)).
Definition peers_usable (s : St) : Prop :=
  configured_peers s = EmptyString ∨ valid_peers DefaultPort (configured_peers s) ≠ [].

(** A sync that was just started, by a call that found the state [s]. *)
Record started (ctx ch : nat) (s s' : St) : Prop := mkStarted {
  st_syncing : sd_syncing (sd s') = true;
  st_cancel : cancelSync (sd s') = Some ctx;
  st_channel : syncCanceled (sd s') = Some ch;
  st_fresh : ctx = next_id s ∧ ch = Datatypes.S ctx ∧ next_id s' = Datatypes.S ch;
  st_restart : restartSyncRequested (sd s') = false;
  st_active : ∃ a, activeSync (sd s') = Some a ∧ syncStage a = InvalidSyncStage ∧
    beginFetchTimeStamp a = (-1)%Z ∧ addressDiscoveryCompletedOrCanceled a = None;
  st_calls : calls s' = calls s ++
    (if decide (listeners (sd s) = ∅) then []
     else [(listeners (sd s), OnSyncStarted (restartSyncRequested (sd s)))]);
  st_wallets : wallets (mw s') = (λ w, let w := set_syncing true (set_waiting true w) in
    if WalletOpened w then set_internal (SetNetworkBackend (Some ctx) <$> internal w) w else w)
    <$> wallets (mw s);
  st_told : online (mw s') = true ∧ MultiWallet.syncing (mw s') = true }.

(** C19. [SpvSync] refuses when a sync is running or has finished, and when
    persistent peers are configured but none of them is an address; then it
    changes nothing.  Otherwise it starts the goroutine of the sync, with a new
    context and a new channel: all wallets wait and sync, the open ones have the
    new backend, and the listeners are told, with the restart request, which is
    then forgotten. *)
Theorem SpvSync_spec (script : list Event) (fin : Ending) (s : St) :
  let r := alone (SpvSync string_c DefaultPort script fin) s [] in
  if IsSyncing s || IsSynced s then r = Returned (Err ErrSyncAlreadyInProgress) s []
  else (peers_usable s ∧ ∃ ctx ch s', r = Returned (Ok tt) s' [RunSync ctx script fin] ∧
          started ctx ch s s') ∨
       (¬ peers_usable s ∧ r = Returned (Err ErrInvalidPeers) s []).
Proof.
  intros r. subst r. unfold SpvSync, peers_usable, IsSyncing, IsSynced.
  fold (configured_peers s). destruct (sd_syncing (sd s)) eqn:Esy; [simpl; unfold IsSyncing; by rewrite Esy|].
  simpl. unfold IsSyncing, IsSynced. rewrite Esy. simpl.
  destruct (sd_synced (sd s)) eqn:Esd; [done|]. simpl. fold (configured_peers s).
  case_decide as Hp.
  { right. simpl. split; [|done]. intros [H|H]; naive_solver. }
  left. split; [destruct (decide (configured_peers s = EmptyString)); [by left|right; naive_solver]|].
  simpl. unfold call. exists (next_id s), (Datatypes.S (next_id s)).
  case_decide as Hl; simpl in Hl; simpl; eexists; (split; [reflexivity|]); split; simpl; try done;
    rewrite ?decide_True, ?decide_False, ?app_nil_r by done; try done;
    try (by eexists); rewrite <- ?map_fmap_compose; done.
Qed.

(** ** A wallet is synced *)
Lemma lock_discovered_spec (walletID : Z) (s : St) (w : Wallet W S) (i : W) :
  wallets (mw s) !! walletID = Some w → internal w = Some i →
  ∃ s' w' j, lock_discovered walletID s = (Ok tt, s') ∧
    wallets (mw s') = <[walletID := w']> (wallets (mw s)) ∧ sd s' = sd s ∧
    internal w' = Some j ∧ Locked j = true ∧ Wallet.synced w' = Wallet.synced w ∧
    w_syncing w' = w_syncing w ∧ calls s' = calls s ∧
    if Locked i then mdb (mw s') = mdb (mw s) ∧ info w' = info w
    else mdb (mw s') = (wt_save (mdb (mw s)) (info w')).2 ∧ info w' = set_discovered (info w).
Proof.
  intros Hw Hi. unfold lock_discovered. rewrite Hw, Hi. destruct (Locked i) eqn:El.
  - exists s, w, i. split_and!; try done. by rewrite insert_id.
  - unfold on_mw, try, markWalletAsDiscoveredAccounts, WalletWithID. simpl.
    rewrite lookup_insert_eq. unfold LockWallet. rewrite Hi, El. simpl. unfold bind, Save. simpl.
    destruct (wt_save _ _) as [[e|x] d] eqn:Es; simpl;
      eexists _, (set_info set_discovered (set_internal (Some (Lock i)) w)), (Lock i);
      (split; [reflexivity|]); simpl; rewrite insert_insert_eq; split_and!; try done;
      try apply lock_locked; by rewrite Es.
Qed.

(** All open wallets are synced. *)
Definition all_synced (s : St) : bool :=
  bool_decide (OpenedWalletsCount (mw s) = SyncedWalletsCount (mw s)).

(** The goroutine that indexes and notifies, at any point of its run: nobody
    is told before all wallets are indexed. *)
Definition indexed (s s' : St) : Prop :=
  wallets (mw s') = IndexTransactions_ <$> wallets (mw s).
Definition told (b : bool) (s s' : St) : Prop :=
  calls s' = calls s ++
    (if decide (listeners (sd s) = ∅) then []
     else [(listeners (sd s), if b then OnSyncCompleted else OnSyncCanceled false)]).

Lemma index_then_notify (b : bool) (s : St) sched c :
  run bodies sched (mkConf s [bodies (IndexAndNotify b)]) = Moved c →
  (calls (shared c) = calls s ∨ told b s (shared c) ∧ indexed s (shared c)).
Proof.
  destruct sched as [|[[|i] sel] sched]; [by intros [= <-]; left| |done]. simpl.
  destruct sched as [|[[|i] sel1] sched]; [by intros [= <-]; left| |done]. simpl.
  destruct sched as [|[[|i] sel2] sched]; [by intros [= <-]; left| |done]. simpl.
  unfold call, told, indexed.
  case_decide as Hl; simpl; (destruct sched as [|[[|i] sel3] sched]; [|done|done]);
    intros [= <-]; right; simpl in *; by rewrite ?app_nil_r.
Qed.

Lemma index_and_notify_ends (b : bool) (s : St) :
  ∃ s', alone (bodies (IndexAndNotify b)) s [] = Returned (Ok tt) s' [] ∧
    indexed s s' ∧ told b s s'.
Proof.
  unfold told, indexed. cbn. unfold call. case_decide as Hl; cbn; eexists; (split; [reflexivity|]);
    cbn in *; by rewrite ?app_nil_r.
Qed.

(** C20. When the syncer tells that an open wallet is synced, or no longer is,
    the wallet is marked so, and its transactions are listened to.  If it had
    been unlocked for the discovery of accounts it is locked, and that its
    accounts were discovered is recorded in memory and saved to the database;
    otherwise its record is as it was.  If then every open wallet is synced the
    sync is over, and a goroutine is started which, at every point of its run,
    has told the listeners only if all wallets are indexed, and which ends with
    both done.  But once all wallets have been synced, a wallet that has become
    unsynced is not marked synced again: the notification is dropped. *)
Theorem synced_spec (walletID : Z) (b : bool) (s : St) (w : Wallet W S) (i : W) :
  wallets (mw s) !! walletID = Some w → internal w = Some i →
  let r := alone (SyncNotify.synced walletID b : Prog unit) s [] in
  if IsSynced s && b then r = Returned (Ok tt) s []
  else ∃ s' w' j, 
    r = Returned (Ok tt) s'
          (Listen (ID (info w)) :: if all_synced s' then [IndexAndNotify b] else []) ∧
    wallets (mw s') = <[walletID := w']> (wallets (mw s)) ∧ calls s' = calls s ∧
    Wallet.synced w' = b ∧ w_syncing w' = false ∧ internal w' = Some j ∧ Locked j = true ∧
    (if Locked i then mdb (mw s') = mdb (mw s) ∧ info w' = info w
     else mdb (mw s') = (wt_save (mdb (mw s)) (info w')).2 ∧ info w' = set_discovered (info w)) ∧
    if all_synced s' then
      sd_synced (sd s') = true ∧ sd_syncing (sd s') = false ∧
      (∀ sched c, run bodies sched (mkConf s' [bodies (IndexAndNotify b)]) = Moved c →
         calls (shared c) = calls s' ∨ told b s' (shared c) ∧ indexed s' (shared c)) ∧
      ∃ s'', alone (bodies (IndexAndNotify b)) s' [] = Returned (Ok tt) s'' [] ∧
        indexed s' s'' ∧ told b s' s''
    else sd s' = sd s.
Proof.
  intros Hw Hi r. subst r. unfold SyncNotify.synced. simpl.
  destruct (IsSynced s && b) eqn:Eb; [done|]. simpl. rewrite Hw.
  set (s1 := put_mw _ s).
  destruct (lock_discovered_spec walletID s1 (set_syncing false (set_synced b w)) i)
    as (s2 & w2 & j & -> & Hw2 & Hsd & Hj & Hl & Hsy & Hsg & Hcl & Hd).
  { simpl. by rewrite lookup_insert_eq. }
  { done. }
  simpl in Hw2. rewrite insert_insert_eq in Hw2.
  destruct (bool_decide (OpenedWalletsCount (mw s2) = SyncedWalletsCount (mw s2))) eqn:Ea; simpl.
  - set (s3 := (on_sd (λ d, set_sd_synced true (set_sd_syncing false d)) s2).2).
    assert (Hall : all_synced s3 = true) by exact Ea.
    exists s3, w2, j. rewrite Hall. split_and!; try done.
    + intros sched c. apply index_then_notify.
    + apply index_and_notify_ends.
  - exists s2, w2, j. unfold all_synced. rewrite Ea. by split_and!.
Qed.

(** ** The first report of fetched headers *)
Lemma of_int_pos (t : Z) : (0 < t < 2 ^ 53)%Z → ∃ m e, of_int t = S754_finite false m e.
Proof. intros [Ht Hb]. destruct t as [|p|p]; [lia| |lia]. by apply of_int_finite. Qed.

(** While no header past the start has been fetched the estimated time is
    infinite: the progress is 0%, and the remaining seconds that listeners are
    given are what the machine makes of an infinite number, less the time taken,
    whatever that time and the headers to fetch are. *)
Theorem fetch_estimate_infinite (total t : Z) :
  (0 < total < 2 ^ 53)%Z → (0 < t < 2 ^ 53)%Z →
  let e := fetch_estimate conv 0 total t in
  fe_total e = S754_infinity false ∧
  fe_remaining e = wrap64 (conv 64 (S754_infinity false) - t) ∧
  roundUp conv (fmul (fe_progress e) hundred) = 0%Z ∧
  roundUp conv (fmul (fe_totalProgress e) hundred) = 0%Z.
Proof.
  intros Htot Ht. destruct (of_int_pos total Htot) as (m & x & Em).
  destruct (of_int_pos t Ht) as (m' & x' & Em'). unfold fetch_estimate. simpl fe_total.
  rewrite Em, Em'. change (of_int 0) with (S754_zero false). split_and!; reflexivity.
Qed.

(** ** The reports of address discovery when a sync ends *)

(** The reports of address discovery race with the end of a sync: between
    the check that the sync is still on and the next access to its data, the
    data can be removed, and the process panics. *)
Theorem discovery_report_can_crash (t : f64) (ctx : nat) (s : St) :
  sync_inv s → sd_syncing (sd s) = true →
  ∃ sched, run bodies sched
    (mkConf s [updateAddressDiscoveryProgress conv t; run_ended ctx EndNil]) = Crashed.
Proof.
  intros Hi Hsy. destruct (stop_spec s Hi) as (s1 & Hstop & _).
  exists [(0, true); (1, true); (1, true); (0, true)].
  erewrite run_left; [|cbn; unfold IsSyncing; rewrite Hsy; reflexivity].
  erewrite run_right; [|cbn; rewrite Hstop; reflexivity].
  erewrite run_right; [|reflexivity]. reflexivity.
Qed.
End SyncSpec.

(** ** Witnesses *)
Lemma synced_spec_witness :
  ∃ s' : ToySync.state, alone (SyncNotify.synced 1 true) ToySync.running [] =
      Returned (Ok tt) s' [Listen 1; IndexAndNotify true : goroutine (Note := Event)] ∧
    sd_synced (sd s') = true ∧
    ∃ s'', alone (body (λ _ _, 0%Z) 300000000000 (λ w, w) (λ _, Ret tt) (IndexAndNotify true)) s' [] =
      Returned (Ok tt) s'' [] ∧ told true s' s''.
Proof.
  destruct (synced_spec (λ _ _, 0%Z) 300000000000 (λ w, w) (λ _, Ret tt) 1 true
    ToySync.running ToySync.one_wallet (ToySync.mkW (bs "pw") false 1000 None) eq_refl eq_refl)
    as (s' & w' & j & Hr & _ & _ & _ & _ & _ & _ & _ & Hfl).
  assert (Ha : all_synced s' = true).
  { pose proof Hr as Hr'. injection Hr' as <- _. reflexivity. }
  rewrite Ha in Hr, Hfl. destruct Hfl as (H1 & _ & _ & s'' & H2 & _ & H3).
  exists s'. split; [exact Hr|]. split; [exact H1|]. exists s''. split; [exact H2|exact H3].
Defined.

(** A minute after the start, with a hundred headers to fetch: on a machine that
    converts an infinite number to the least integer, the estimate is about 292
    billion years. *)
Lemma fetch_estimate_infinite_witness :
  fe_remaining (fetch_estimate (λ w _, - 2 ^ (w - 1))%Z 0 100 60) = (2 ^ 63 - 60)%Z.
Proof.
  destruct (fetch_estimate_infinite (λ w _, - 2 ^ (w - 1))%Z 100 60 ltac:(lia) ltac:(lia))
    as (_ & -> & _). reflexivity.
Defined.

Lemma discovery_report_can_crash_witness :
  ∃ sched, run (body (λ _ _, 0%Z) 300000000000 (λ w, w) (λ _, Ret tt)) sched
    (mkConf ToySync.running [updateAddressDiscoveryProgress (λ _ _, 0%Z) (of_int 150);
                             run_ended 0 EndNil]) = Crashed.
Proof.
  destruct (discovery_report_can_crash (λ _ _, 0%Z) 300000000000 (λ w, w) (λ _, Ret tt)
    (of_int 150) 0 ToySync.running) as (sched & Hr).
  - apply running_inv.
  - reflexivity.
  - exists sched. exact Hr.
Defined.
