(* ===== verification/RescanBlocks.v ===== *)
(** * [rescan.go]: rescanning the blocks of a wallet

    The call, the goroutine it starts, and the goroutine of the library that
    sends its progress over a channel, on top of the state of [SyncData]. *)
From S2P Require Import Prelude Float Conc Wire TxHelper Decode TxIndex Loader Config Utils.
From S2P Require Import Wallet MultiWallet SyncData.

Definition ErrNotConnected : goerr := ENew "not_connected".

(** The calls of a [BlocksRescanProgressListener]. *)
Inductive RescanCall :=
| OnBlocksRescanStarted (walletID : Z)
| OnBlocksRescanProgress (r : HeadersRescanProgressReport)
| OnBlocksRescanEnded (walletID : Z) (err : option goerr).

(** What the library sends: an error, or the height it has scanned through. *)
Abbreviation progress := (goerr + Z)%type.

(** A wallet's rescan, its loop over the progress, and the library. *)
Inductive rroutine :=
| Rescan (walletID : Z) (script : list progress)
| RescanLoop (walletID : Z) (ctx ch : nat) (rescanStartTime : Z)
| Scanner (ch : nat) (script : list progress).

Section RescanBlocks.
Context {D Val W S : Type} `{!WalletTable D, !KvStore D Val, !Internal W, !Storm S, !SyncLib W}.
Abbreviation wallet := (Wallet W S).
Abbreviation St := (SS (D := D) (W := W) (S := S)).
Context (conv : Z → f64 → Z).
(** How a wallet's transactions are decoded, and its blocks; the contexts of
    the index are canceled at shutdown only. *)
Context {Summary : Type} (decode : wallet → Summary → option Z → outcome Transaction).
Context (blocks_between : wallet → Z → Z → list (Block Summary)).

(** With whether the listener is set, its calls, and the channels of progress:
    what is in them, and whether they are closed. *)
Record RS := mkRS {
  ss : St; blocksRescanProgressListener : bool; rcalls : list RescanCall;
  chans : gmap nat (list progress * bool) }.
Definition put_ss (x : St) (s : RS) : RS :=
  mkRS x (blocksRescanProgressListener s) (rcalls s) (chans s).
Definition put_chan (ch : nat) (c : list progress * bool) (s : RS) : RS :=
  mkRS (ss s) (blocksRescanProgressListener s) (rcalls s) (<[ch := c]> (chans s)).

Definition on_ss {A} (m : GM St A) : GM RS A := λ s,
  let '(r, x) := m (ss s) in (r, put_ss x s).
Abbreviation Prog := (prog RS rroutine).

(** Nothing is called when there is no listener. *)
Definition rcall (c : RescanCall) : GM RS unit :=
  modify (λ s, if blocksRescanProgressListener s
               then mkRS (ss s) true (rcalls s ++ [c]) (chans s) else s).

Definition SetBlocksRescanProgressListener (set : bool) : GM RS unit :=
  modify (λ s, mkRS (ss s) set (rcalls s) (chans s)).

(** *** Channels that hold one value *)
Definition make_progress : GM RS nat :=
  let! ch := on_ss make in modify (put_chan ch ([], false)) ;; ret ch.

Definition chan_at (ch : nat) (s : RS) : option (list progress * bool) := chans s !! ch.
Definition room (ch : nat) (s : RS) : bool :=
  match chan_at ch s with Some (q, _) => bool_decide (length q < 1) | None => false end.
Definition ready (ch : nat) (s : RS) : bool :=
  match chan_at ch s with Some (q, over) => bool_decide (q ≠ []) || over | None => false end.

Definition send (ch : nat) (p : progress) : GM RS unit := λ s,
  match chan_at ch s with
  | Some (q, over) => if over then (Panic, s) else (Ok tt, put_chan ch (q ++ [p], over) s)
  | None => (Panic, s)
  end.
Definition close_progress (ch : nat) : GM RS unit := λ s,
  match chan_at ch s with
  | Some (q, over) => if over then (Panic, s) else (Ok tt, put_chan ch (q, true) s)
  | None => (Panic, s)
  end.
(** [None] when the channel is closed and empty. *)
Definition receive (ch : nat) : GM RS (option progress) := λ s,
  match chan_at ch s with
  | Some (p :: q, over) => (Ok (Some p), put_chan ch (q, over) s)
  | _ => (Ok None, s)
  end.

(** *** The wallet *)
Definition rescan_wallet (walletID : Z) (s : RS) : option wallet := wallets (mw (ss s)) !! walletID.

(** The network backend; a wallet that is not open has no library wallet. *)
Definition rescan_backend (walletID : Z) : GM RS (option nat) := λ s,
  match rescan_wallet walletID s with
  | Some w => match internal w with Some i => (Ok (NetworkBackendOf i), s) | None => (Panic, s) end
  | None => (Panic, s)
  end.

(** [wallet.reindexTransactions()] on the wallet's index. *)
Definition reindex_wallet (w : wallet) : outcome unit * wallet :=
  match txDB w with
  | None => (Panic, w)
  | Some fs =>
      let '(r, fs) := on_file (reindexTransactions (decode w) (λ _, None) (blocks_between w)
                                 (GetBestBlock w)) fs in
      (r, set_txDB (Some fs) w)
  end.

Definition reindex (walletID : Z) : GM RS (option goerr) := λ s,
  match rescan_wallet walletID s with
  | None => (Panic, s)
  | Some w =>
      let '(r, w) := reindex_wallet w in
      let s := put_ss (put_mw (set_wallets (insert walletID w) (mw (ss s))) (ss s)) s in
      (match r with Ok _ => Ok None | Err e => Ok (Some e) | Panic => Panic end, s)
  end.

(** *** Reports *)
Definition rescan_report (walletID scannedThrough totalHeadersToScan elapsedRescanTime : Z)
    : HeadersRescanProgressReport :=
  let rescanRate := fdiv (of_int scannedThrough) (of_int totalHeadersToScan) in
  let rescanProgress := to_int conv 32 (Round (fmul rescanRate (of_int 100))) in
  let estimatedTotalRescanTime := to_int conv 64 (Round (fdiv (of_int elapsedRescanTime) rescanRate)) in
  let remaining := wrap64 (estimatedTotalRescanTime - elapsedRescanTime) in
  mkRescan (mkGeneral rescanProgress remaining) totalHeadersToScan scannedThrough rescanProgress
    remaining walletID.

Definition make_report (walletID scannedThrough rescanStartTime : Z)
    : GM RS HeadersRescanProgressReport := λ s,
  match rescan_wallet walletID s with
  | Some w => (Ok (rescan_report walletID scannedThrough (GetBestBlock w)
                     (wrap64 (clock (ss s) - rescanStartTime))), s)
  | None => (Panic, s)
  end.

(** *** The goroutines *)

(** The deferred function. *)
Definition finish : Prog unit :=
  act (on_ss (on_sd (λ d, set_cancelRescan None (set_rescanning false d)))).

Definition ended (walletID : Z) (err : option goerr) : Prog unit :=
  act (rcall (OnBlocksRescanEnded walletID err)) >> finish.

(** The context has no deadline: its error is that it was canceled. *)
Definition rescan_loop (walletID : Z) (ctx ch : nat) (rescanStartTime : Z) : Prog unit :=
  Wait (ready ch)
   (do! p := act (receive ch) in
    match p with
    | None =>
        do! err := act (reindex walletID) in
        ended walletID err
    | Some (inl err) => ended walletID (Some err)
    | Some (inr scannedThrough) =>
        do! r := act (make_report walletID scannedThrough rescanStartTime) in
        act (rcall (OnBlocksRescanProgress r)) >>
        do! done_ := act (gets (λ s, bool_decide (ctx ∈ canceled (ss s)))) in
        if done_ : bool then ended walletID None
        else Goto (RescanLoop walletID ctx ch rescanStartTime)
    end).

Definition rescan_routine (walletID : Z) (script : list progress) : Prog unit :=
  do! ctx := act (on_ss make) in
  act (on_ss (on_sd (λ d, set_cancelRescan (Some ctx) (set_rescanning true d)))) >>
  act (rcall (OnBlocksRescanStarted walletID)) >>
  do! ch := act make_progress in
  Go (Scanner ch script)
    (do! start := act (gets (λ s, clock (ss s))) in
     Goto (RescanLoop walletID ctx ch start)).

(** [RescanProgressFromHeight]: it sends and closes. *)
Definition scanner (ch : nat) (script : list progress) : Prog unit :=
  match script with
  | [] => act (close_progress ch)
  | p :: script => Wait (room ch) (act (send ch p) >> Goto (Scanner ch script))
  end.

Definition body (g : rroutine) : Prog unit :=
  match g with
  | Rescan walletID script => rescan_routine walletID script
  | RescanLoop walletID ctx ch start => rescan_loop walletID ctx ch start
  | Scanner ch script => scanner ch script
  end.

(** *** The calls *)
Definition IsRescanning (s : RS) : bool := rescanning (sd (ss s)).

Definition RescanBlocks (walletID : Z) (script : list progress) : Prog unit :=
  do! w := act (gets (rescan_wallet walletID)) in
  match w with
  | None => Stop (EWrap KOther ErrNotExist)
  | Some _ =>
      do! netBackend := act (rescan_backend walletID) in
      match netBackend with
      | None => Stop (EWrap KOther ErrNotConnected)
      | Some _ =>
          do! rescanning_ := act (gets IsRescanning) in
          do! invalid := if rescanning_ : bool then Ret true
                         else act (gets (λ s, negb (IsSynced (ss s)))) in
          if invalid : bool then Stop (EWrap KOther ErrInvalid)
          else Go (Rescan walletID script) (Ret tt)
      end
  end.

Definition CancelRescan : GM RS unit := λ s,
  match cancelRescan (sd (ss s)) with
  | Some ctx =>
      (on_ss (cancel ctx) ;; on_ss (on_sd (set_cancelRescan None))) s
  | None => (Ok tt, s)
  end.

(** ** Theorems *)

(** *** A rescan and the library, and nobody else *)
Section completes.
Context (walletID : Z) (ctx ch : nat) (start : Z) (x0 : St) (w : wallet) (err : option goerr).
Context (total : list RescanCall).

Definition elapsed : Z := wrap64 (clock x0 - start).
Definition is_canceled : bool := bool_decide (ctx ∈ canceled x0).

(** The calls that are due when [incoming] is still to come. *)
Fixpoint due (incoming : list progress) : list RescanCall :=
  match incoming with
  | [] => [OnBlocksRescanEnded walletID err]
  | inl e :: _ => [OnBlocksRescanEnded walletID (Some e)]
  | inr h :: rest =>
      OnBlocksRescanProgress (rescan_report walletID h (GetBestBlock w) elapsed) ::
      (if is_canceled then [OnBlocksRescanEnded walletID None] else due rest)
  end.

(** Where the library is: what it will send, whether it has closed the channel,
    and a bound on its steps. *)
Inductive scan_at : Prog unit → list progress → bool → nat → Prop :=
| sc_body l : scan_at (scanner ch l) l false (4 * length l + 2)
| sc_send x l : scan_at (act (send ch x) >> Goto (Scanner ch l)) (x :: l) false (4 * length l + 5)
| sc_goto l : scan_at (Goto (Scanner ch l)) l false (4 * length l + 3)
| sc_done : scan_at (Ret tt) [] true 0.

Definition after_receive (p : option progress) : Prog unit :=
  match p with
  | None => do! e := act (reindex walletID) in ended walletID e
  | Some (inl e) => ended walletID (Some e)
  | Some (inr scannedThrough) =>
      do! r := act (make_report walletID scannedThrough start) in
      act (rcall (OnBlocksRescanProgress r)) >>
      do! done_ := act (gets (λ s, bool_decide (ctx ∈ canceled (ss s)))) in
      if done_ : bool then ended walletID None else Goto (RescanLoop walletID ctx ch start)
  end.
Definition after_call : Prog unit :=
  do! done_ := act (gets (λ s, bool_decide (ctx ∈ canceled (ss s)))) in
  if done_ : bool then ended walletID None else Goto (RescanLoop walletID ctx ch start).

(** Where the loop is: the state of the wallet, the channel, what is to come and
    the calls that are due. *)
Inductive loop_at : St → Prog unit → list progress → bool → list progress → list RescanCall →
    nat → Prop :=
| la_body q over inc :
    loop_at x0 (rescan_loop walletID ctx ch start) q over inc (due inc) 5
| la_goto q over inc :
    loop_at x0 (Goto (RescanLoop walletID ctx ch start)) q over inc (due inc) 6
| la_receive q over inc : q ≠ [] ∨ over = true →
    loop_at x0 (do! p := act (receive ch) in after_receive p) q over inc (due inc) 4
| la_reindex q over inc :
    loop_at x0 (after_receive None) q over inc [OnBlocksRescanEnded walletID err] 3
| la_report h q over inc :
    loop_at x0 (after_receive (Some (inr h))) q over inc (due (inr h :: inc)) 9
| la_call h q over inc :
    loop_at x0 (act (rcall (OnBlocksRescanProgress
                  (rescan_report walletID h (GetBestBlock w) elapsed))) >> after_call) q over inc
      (due (inr h :: inc)) 8
| la_check q over inc :
    loop_at x0 after_call q over inc
      (if is_canceled then [OnBlocksRescanEnded walletID None] else due inc) 7
| la_ended x e q over inc :
    loop_at x (ended walletID e) q over inc [OnBlocksRescanEnded walletID e] 2
| la_finish x q over inc : loop_at x finish q over inc [] 1
| la_start q over inc : clock x0 = start →
    loop_at x0 (do! start := act (gets (λ s, clock (ss s))) in Goto (RescanLoop walletID ctx ch start))
      q over inc (due inc) 7
| la_ret x q over inc : rescanning (sd x) = false → cancelRescan (sd x) = None →
    loop_at x (Ret tt) q over inc [] 0.

Inductive rescan_inv : nat → conf RS rroutine → Prop :=
| rescan_inv_intro s p q queue over pending todo n1 n2 :
    chan_at ch s = Some (queue, over) → blocksRescanProgressListener s = true →
    scan_at q pending over n2 → loop_at (ss s) p queue over (queue ++ pending) todo n1 →
    rcalls s ++ todo = total →
    rescan_inv (10 * length (queue ++ pending) + n1 + n2) (mkConf s [p; q]).

Definition rescan_over (c : conf RS rroutine) : Prop :=
  rescanning (sd (ss (shared c))) = false ∧ cancelRescan (sd (ss (shared c))) = None ∧
  rcalls (shared c) = total.

Hypothesis Hw : wallets (mw x0) !! walletID = Some w.
Hypothesis Hr : match (reindex_wallet w).1 with
                | Ok _ => err = None | Err e => err = Some e | Panic => False
                end.

(** The library's steps. *)
Lemma scan_next sel s q queue over pending n :
  chan_at ch s = Some (queue, over) → scan_at q pending over n →
  match next body sel q s with
  | Goes s' q' l => l = [] ∧ ss s' = ss s ∧ rcalls s' = rcalls s ∧
      blocksRescanProgressListener s' = blocksRescanProgressListener s ∧
      ∃ queue' over' pending' n', chan_at ch s' = Some (queue', over') ∧
        scan_at q' pending' over' n' ∧ queue' ++ pending' = queue ++ pending ∧ n' < n ∧
        (queue ≠ [] ∨ over = true → queue' ≠ [] ∨ over' = true)
  | Panics => False
  | Blocks => over = true ∨ queue ≠ []
  end.
Proof.
  intros Hc Hs. destruct Hs as [l|x l|l|].
  - destruct l as [|x l]; cbn [next scanner act].
    + unfold close_progress. rewrite Hc. split_and!; try done.
      exists queue, true, [], 0. split_and!; [|constructor|done|lia|by right].
      unfold chan_at. simpl. by rewrite lookup_insert_eq.
    + unfold room. rewrite Hc. case_bool_decide as Hl.
      * split_and!; try done. exists queue, false, (x :: l), (4 * length l + 5).
        split_and!; [done|constructor|done|simpl; lia|done].
      * right. by destruct queue; [simpl in Hl; lia|].
  - simpl. unfold send. rewrite Hc. split_and!; try done.
    exists (queue ++ [x]), false, l, (4 * length l + 3). split_and!; [|constructor| |lia|].
    + unfold chan_at. simpl. by rewrite lookup_insert_eq.
    + by rewrite <- app_assoc.
    + intros _. left. by destruct queue.
  - simpl. split_and!; try done. exists queue, false, l, (4 * length l + 2).
    split_and!; [done|constructor|done|lia|done].
  - simpl. by left.
Qed.

(** The loop's steps. *)
Lemma loop_next sel s p queue over pending todo n :
  chan_at ch s = Some (queue, over) → blocksRescanProgressListener s = true →
  (over = true → pending = []) → loop_at (ss s) p queue over (queue ++ pending) todo n →
  match next body sel p s with
  | Goes s' p' l => l = [] ∧ blocksRescanProgressListener s' = true ∧
      ∃ queue' todo' n', chan_at ch s' = Some (queue', over) ∧
        loop_at (ss s') p' queue' over (queue' ++ pending) todo' n' ∧
        rcalls s' ++ todo' = rcalls s ++ todo ∧ 10 * length queue' + n' < 10 * length queue + n
  | Panics => False
  | Blocks => (queue = [] ∧ over = false) ∨
      (rescanning (sd (ss s)) = false ∧ cancelRescan (sd (ss s)) = None ∧ todo = [])
  end.
Proof.
  intros Hc Hl Hover Hp. remember (ss s) as x eqn:Ex. remember (queue ++ pending) as inc eqn:Ei.
  destruct Hp as [q over inc|q over inc|q over inc Hq|q over inc|h q over inc|h q over inc
    |q over inc|x e q over inc|x q over inc|q over inc Hst|x q over inc Hf Hn]; cbn [next rescan_loop seq act].
  - unfold ready. rewrite Hc. destruct (bool_decide (q ≠ []) || over) eqn:Er.
    + split_and!; try done. exists q, (due inc), 4. rewrite <- Ex, <- Ei.
      split_and!; [done| |done|lia]. constructor.
      apply orb_true_iff in Er as [Hq%bool_decide_eq_true|Ho]; [by left|by right].
    + left. apply orb_false_iff in Er as [Hq ->]. apply bool_decide_eq_false in Hq.
      split; [|done]. destruct q; [done|by destruct Hq].
  - split_and!; try done. exists q, (due inc), 5. rewrite <- Ex, <- Ei.
    split_and!; [done|constructor|done|lia].
  - unfold receive. rewrite Hc. destruct q as [|y q].
    + destruct Hq as [?| ->]; [done|]. rewrite (Hover eq_refl) in *. subst inc.
      split_and!; try done. eexists [], _, 3. rewrite <- Ex. split_and!; [done|constructor|done|simpl; lia].
    + split_and!; try done. subst inc. destruct y as [e|h].
      * eexists q, _, 2. split_and!; [unfold chan_at; simpl; by rewrite lookup_insert_eq
          |constructor|done|simpl; lia].
      * eexists q, _, 9. split_and!; [unfold chan_at; simpl; by rewrite lookup_insert_eq
          |simpl; rewrite <- Ex; constructor|done|simpl; lia].
  - cbn [after_receive seq act next]. unfold reindex, rescan_wallet. rewrite <- Ex, Hw.
    destruct (reindex_wallet w) as [r w'] eqn:Ew. cbn [fst] in Hr.
    destruct r as [[]|e|]; [| |done]; (split_and!; [done..|]);
      (eexists q, _, 2; split_and!; [done|constructor|by rewrite Hr|lia]).
  - cbn [after_receive seq act next]. unfold make_report, rescan_wallet. rewrite <- Ex, Hw.
    split_and!; try done. eexists q, _, 8. rewrite <- Ex, <- Ei.
    split_and!; [done|apply la_call|done|lia].
  - unfold rcall, modify. rewrite Hl. split_and!; try done. eexists q, _, 7. simpl.
    rewrite <- Ex, <- Ei. split_and!; [done|apply la_check|by rewrite <- app_assoc|lia].
  - unfold after_call. cbn [seq act next]. unfold gets. rewrite <- Ex.
    split_and!; try done. change (bool_decide (ctx ∈ canceled x0)) with is_canceled.
    destruct is_canceled.
    + eexists q, _, 2. split_and!; [done|constructor|done|lia].
    + eexists q, _, 6. rewrite <- Ei. split_and!; [done|constructor|done|lia].
  - unfold ended. cbn [seq act next]. unfold rcall, modify. rewrite Hl. split_and!; try done.
    eexists q, [], 1. simpl. split_and!; [done|constructor|by rewrite app_nil_r|lia].
  - unfold finish. cbn [act next]. split_and!; try done. eexists q, [], 0.
    split_and!; [done|by constructor|done|lia].
  - unfold gets. rewrite <- Ex, Hst. split_and!; try done. eexists q, _, 6.
    rewrite <- Ei. split_and!; [done|apply la_goto|done|lia].
  - by right.
Qed.

(** What the library does to the channel does not disturb the loop. *)
Lemma loop_weaken x p (q q' : list progress) over over' inc todo n :
  (q ≠ [] ∨ over = true → q' ≠ [] ∨ over' = true) →
  loop_at x p q over inc todo n → loop_at x p q' over' inc todo n.
Proof. intros H Hp. destruct Hp; constructor; auto. Qed.

(** Wherever the two are, every schedule ends the rescan. *)
Lemma rescan_ends n c : rescan_inv n c → eventually body rescan_over c.
Proof.
  apply (eventually_measure body rescan_inv rescan_over). clear n c. intros n c Hi.
  destruct Hi as [s p q queue over pending todo n1 n2 Hc Hl Hs Hp Ht].
  assert (Hover : over = true → pending = []) by (by destruct Hs).
  destruct (decide (rescanning (sd (ss s)) = false ∧ cancelRescan (sd (ss s)) = None ∧ todo = []))
    as [(Hf & Hn & ->)|Hne].
  { left. rewrite app_nil_r in Ht. by split_and!. }
  right. split_and!.
  - pose proof (loop_next true s p queue over pending todo n1 Hc Hl Hover Hp) as H1.
    destruct (next body true p s) as [s' p' l| |] eqn:E1; [|done|].
    + eexists. by eapply pair_left.
    + destruct H1 as [[-> ->]|H1]; [|done].
      pose proof (scan_next true s q [] false pending n2 Hc Hs) as H2.
      destruct (next body true q s) as [s' q' l| |] eqn:E2; [|done|by destruct H2].
      eexists. by eapply pair_right.
  - intros [sel [H|H]]%crash_pair.
    + pose proof (loop_next sel s p queue over pending todo n1 Hc Hl Hover Hp) as H1. by rewrite H in H1.
    + pose proof (scan_next sel s q queue over pending n2 Hc Hs) as H2. by rewrite H in H2.
  - intros c' [(sel & s' & p' & l & H & ->)|(sel & s' & q' & l & H & ->)]%step_pair.
    + pose proof (loop_next sel s p queue over pending todo n1 Hc Hl Hover Hp) as H1.
      rewrite H in H1. destruct H1 as (-> & Hl' & queue' & todo' & n' & Hc' & Hp' & Ht' & Hn).
      eexists. split; [|econstructor; [done..|by rewrite Ht']].
      rewrite !length_app. lia.
    + pose proof (scan_next sel s q queue over pending n2 Hc Hs) as H2.
      rewrite H in H2.
      destruct H2 as (-> & Hss & Hrc & Hl' & queue' & over' & pending' & n' & Hc' & Hs' & Happ & Hn & Hq).
      eexists. split; [|econstructor; [done|by rewrite Hl'|done| |by rewrite Hrc]].
      2: { rewrite Hss, Happ. by eapply loop_weaken. }
      rewrite Happ. lia.
Qed.
End completes.

(** One goroutine whose next step is known. *)
Lemma eventually_one (P : conf RS rroutine → Prop) (p p' : Prog unit) (s s' : RS) (l : list rroutine) :
  (∀ sel, next body sel p s = Goes s' p' l) →
  eventually body P (mkConf s' (p' :: (body <$> l))) → eventually body P (mkConf s [p]).
Proof.
  intros Hn He. apply ev_step.
  - eexists. exists (0, true). unfold step_at. simpl. by rewrite Hn.
  - intros [[[|i] sel] Hc]; unfold step_at in Hc; simpl in Hc; [by rewrite Hn in Hc|done].
  - intros c' [[[|i] sel] Hc]; unfold step_at in Hc; simpl in Hc; [|done].
    rewrite Hn in Hc. by injection Hc as <-.
Qed.

(** The calls of a rescan that is not canceled. *)
Fixpoint reports (walletID : Z) (w : wallet) (err : option goerr) (script : list progress)
    : list RescanCall :=
  match script with
  | [] => [OnBlocksRescanEnded walletID err]
  | inl e :: _ => [OnBlocksRescanEnded walletID (Some e)]
  | inr h :: rest =>
      OnBlocksRescanProgress (rescan_report walletID h (GetBestBlock w) 0) ::
      reports walletID w err rest
  end.

Lemma due_reports (walletID : Z) (ctx : nat) (start : Z) (x0 : St) (w : wallet)
    (err : option goerr) (script : list progress) :
  ctx ∉ canceled x0 → clock x0 = start →
  due walletID ctx start x0 w err script = reports walletID w err script.
Proof.
  intros Hc Hs. induction script as [|[e|h] script IH]; simpl; [done..|].
  unfold is_canceled. rewrite bool_decide_eq_false_2 by done. rewrite IH. do 3 f_equal.
  unfold elapsed. by rewrite Hs, Z.sub_diag.
Qed.

(** C21. A rescan that is not canceled ends under every schedule of its two
    goroutines, whatever the library sends: the listener is told that it
    started, then every height in order, up to the first error if there is one,
    and at last how it ended: with that error, or with the result of indexing
    the wallet anew.  Then the wallet is not being rescanned any more.  (The
    clock stands still here.) *)
Theorem rescan_completes (s : RS) (walletID : Z) (script : list progress) (w : wallet)
    (err : option goerr) :
  rescan_wallet walletID s = Some w → blocksRescanProgressListener s = true →
  next_id (ss s) ∉ canceled (ss s) →
  match (reindex_wallet w).1 with
  | Ok _ => err = None | Err e => err = Some e | Panic => False
  end →
  eventually body
    (rescan_over (rcalls s ++ OnBlocksRescanStarted walletID :: reports walletID w err script))
    (mkConf s [body (Rescan walletID script)]).
Proof.
  intros Hw Hl Hctx Hr. rewrite <- (due_reports walletID (next_id (ss s)) (clock (ss s)) (ss s)) by done.
  cbn [body].
  eapply eventually_one; [by intros sel; simpl|cbn [fmap list_fmap]].
  eapply eventually_one; [by intros sel; simpl|cbn [fmap list_fmap]].
  eapply eventually_one; [by intros sel; unfold rcall, modify; simpl; rewrite Hl|cbn [fmap list_fmap]].
  eapply eventually_one; [by intros sel; simpl|cbn [fmap list_fmap]].
  eapply eventually_one; [by intros sel; simpl|cbn [fmap list_fmap]].
  eapply (rescan_ends walletID (next_id (ss s)) (Datatypes.S (next_id (ss s))) (clock (ss s))
            _ w err); cycle 2.
  - eapply (rescan_inv_intro _ _ _ _ _ _ _ _ _ _ _ [] false script).
    + unfold chan_at. simpl. by rewrite lookup_insert_eq.
    + done.
    + apply sc_body.
    + by apply la_start.
    + simpl. by rewrite <- app_assoc.
  - exact Hw.
  - exact Hr.
Qed.

(** Once it is canceled, the rescan ends after the report of one more height. *)
Theorem canceled_rescan_ends (s : RS) (walletID : Z) (ctx ch : nat) (start : Z) (w : wallet)
    (h : Z) (script : list progress) :
  rescan_wallet walletID s = Some w → blocksRescanProgressListener s = true →
  ctx ∈ canceled (ss s) → chan_at ch s = Some ([], false) → (reindex_wallet w).1 = Ok tt →
  eventually body
    (rescan_over (rcalls s ++
      [OnBlocksRescanProgress (rescan_report walletID h (GetBestBlock w) (wrap64 (clock (ss s) - start)));
       OnBlocksRescanEnded walletID None]))
    (mkConf s [body (RescanLoop walletID ctx ch start); body (Scanner ch (inr h :: script))]).
Proof.
  intros Hw Hl Hctx Hch Hr.
  eapply (rescan_ends walletID ctx ch start (ss s) w None); [exact Hw|by rewrite Hr|].
  eapply (rescan_inv_intro _ _ _ _ _ _ _ _ _ _ _ [] false (inr h :: script)); [done|done| | |].
  - apply sc_body.
  - apply la_body.
  - simpl. unfold is_canceled. by rewrite bool_decide_eq_true_2.
Qed.

(** *** The calls *)

(** Starting a rescan: it needs the wallet, its network backend, that no
    rescan is known to be running, and that the wallets are synced; otherwise
    the call is an error.  In every case the call itself changes nothing: the
    mark that a rescan is running is set by the goroutine. *)
Theorem RescanBlocks_spec (s : RS) (walletID : Z) (script : list progress) :
  (∀ w, rescan_wallet walletID s = Some w → internal w ≠ None) →
  alone (RescanBlocks walletID script) s [] =
    match rescan_wallet walletID s with
    | None => Returned (Err (EWrap KOther ErrNotExist)) s []
    | Some w =>
        if decide (internal w ≫= NetworkBackendOf = None) then
          Returned (Err (EWrap KOther ErrNotConnected)) s []
        else if IsRescanning s || negb (IsSynced (ss s)) then
          Returned (Err (EWrap KOther ErrInvalid)) s []
        else Returned (Ok tt) s [Rescan walletID script]
    end.
Proof.
  intros Hopen. unfold RescanBlocks. cbn [alone seq act]. unfold gets.
  destruct (rescan_wallet walletID s) as [w|] eqn:Ew; [|done]. cbn [alone seq act].
  unfold rescan_backend. rewrite Ew. specialize (Hopen w eq_refl).
  destruct (internal w) as [i|] eqn:Ei; [|done]. simpl.
  destruct (NetworkBackendOf i) as [b|] eqn:Eb; [|by rewrite decide_True].
  rewrite decide_False by done. cbn [alone seq act]. unfold IsRescanning.
  destruct (rescanning (sd (ss s))) eqn:Er; [done|]. simpl.
  by destruct (negb (IsSynced (ss s))).
Qed.

(** A step of a schedule, in a pool of any size. *)
Lemma run_at (i : nat) (sel : bool) (sched : list (nat * bool)) (c : conf RS rroutine)
    (p p' : Prog unit) (s' : RS) (l : list rroutine) :
  pool c !! i = Some p → next body sel p (shared c) = Goes s' p' l →
  run body ((i, sel) :: sched) c = run body sched (mkConf s' (<[i := p']> (pool c) ++ (body <$> l))).
Proof. intros Hp Hn. simpl. unfold step_at. simpl. by rewrite Hp, Hn. Qed.

#[local] Ltac next_step tac :=
  erewrite run_at; [|reflexivity|tac; reflexivity];
  cbn [pool shared insert list_insert app fmap list_fmap].

(** The check that no rescan is running and the mark that one is are apart: two
    calls at the same time both start one.  When the first of the two ends, the
    other is still running, but is not known to be, and can no longer be
    canceled. *)
Theorem two_rescans (s : RS) (i j : Z) (wi wi' wj : wallet) (script : list progress) :
  rescan_wallet i s = Some wi → rescan_wallet j s = Some wj →
  internal wi ≫= NetworkBackendOf ≠ None → internal wj ≫= NetworkBackendOf ≠ None →
  IsRescanning s = false → IsSynced (ss s) = true → blocksRescanProgressListener s = true →
  reindex_wallet wi = (Ok tt, wi') →
  ∃ sched c ctx ch start, run body sched (mkConf s [RescanBlocks i []; RescanBlocks j script]) = Moved c ∧
    rcalls (shared c) = rcalls s ++
      [OnBlocksRescanStarted j; OnBlocksRescanStarted i; OnBlocksRescanEnded i None] ∧
    pool c !! 3 = Some (body (RescanLoop j ctx ch start)) ∧
    IsRescanning (shared c) = false ∧ CancelRescan (shared c) = (Ok tt, shared c).
Proof.
  intros Hi Hj Hbi Hbj Hr Hs Hl Hx.
  destruct (internal wi) as [xi|] eqn:Exi; [|done]. destruct (internal wj) as [xj|] eqn:Exj; [|done].
  simpl in Hbi, Hbj. destruct (NetworkBackendOf xi) as [bi|] eqn:Ebi; [|done].
  destruct (NetworkBackendOf xj) as [bj|] eqn:Ebj; [|done].
  exists (replicate 5 (0, true) ++ replicate 5 (1, true) ++ replicate 7 (3, true) ++
          replicate 7 (2, true) ++ [(5, true)] ++ replicate 5 (2, true)).
  eexists _, _, _, _. split; [cbn [replicate app]|].
  - do 5 next_step ltac:(cbn; unfold IsRescanning, rescan_backend, gets in *; rewrite ?Hi; cbn;
      rewrite ?Exi, ?Hr, ?Hs; cbn; rewrite ?Ebi).
    do 5 next_step ltac:(cbn; unfold IsRescanning, rescan_backend, gets in *; rewrite ?Hj; cbn;
      rewrite ?Exj, ?Hr, ?Hs; cbn; rewrite ?Ebj).
    do 2 next_step ltac:(cbn). next_step ltac:(cbn; unfold rcall, modify; cbn; rewrite Hl).
    do 4 next_step ltac:(cbn).
    do 2 next_step ltac:(cbn). next_step ltac:(cbn; unfold rcall, modify; cbn).
    do 4 next_step ltac:(cbn).
    next_step ltac:(cbn; unfold close_progress, chan_at; cbn; rewrite lookup_insert_eq; cbn).
    next_step ltac:(cbn; unfold ready, chan_at; cbn; rewrite lookup_insert_eq; cbn).
    next_step ltac:(cbn; unfold receive, chan_at; cbn; rewrite lookup_insert_eq; cbn).
    next_step ltac:(cbn; unfold reindex, rescan_wallet in *; cbn; rewrite Hi, Hx; cbn).
    do 2 next_step ltac:(cbn). reflexivity.
  - cbn [shared pool rcalls]. split_and!; [by rewrite <- !app_assoc|reflexivity|reflexivity|reflexivity].
Qed.
End RescanBlocks.

(** ** A wallet with an index, for the witnesses *)
Definition toy_decode (w : Wallet ToySync.W MapStorm.t) : string → option Z → outcome Transaction :=
  MapStorm.decode.
Definition toy_blocks (w : Wallet ToySync.W MapStorm.t) : Z → Z → list (Block string) :=
  λ _ _, [mkBlock _ (Some 7%Z) ["aa"]].
Definition indexed_wallet : Wallet ToySync.W MapStorm.t :=
  mkWallet ToyMW.saved (Some (ToySync.mkW (bs "pw") false 1000 (Some 0))) ToyMW.loaded
    (Some (mkFS (Some (MapStorm.mk ∅ [])) 1)) true false false.
Definition toy_ss : SS (D := ToyMW.t) (W := ToySync.W) (S := MapStorm.t) :=
  mkSS (mkMW "/root" "bdb" "mainnet" (ToyMW.mk [ToyMW.saved] ∅) {[1%Z := indexed_wallet]} ∅ true false)
    (mkSync {["ui"]} false true false (Some 0) None (Some 1) false false 3 None)
    1000 [] ∅ ∅ ∅ 2.
Definition toy_rs : RS := mkRS toy_ss true [] ∅.

Lemma toy_reindex : (reindex_wallet toy_decode toy_blocks indexed_wallet).1 = Ok tt.
Proof. reflexivity. Qed.

Lemma rescan_completes_witness (conv := λ (_ : Z) (_ : f64), 0%Z) :
  eventually (body conv toy_decode toy_blocks)
    (rescan_over ([] ++ OnBlocksRescanStarted 1 ::
       reports conv 1 indexed_wallet None [inr 500%Z; inr 1000%Z]))
    (mkConf toy_rs [body conv toy_decode toy_blocks (Rescan 1 [inr 500%Z; inr 1000%Z])]).
Proof.
  apply (rescan_completes conv toy_decode toy_blocks toy_rs 1 [inr 500%Z; inr 1000%Z]
           indexed_wallet None).
  - apply lookup_insert_eq.
  - reflexivity.
  - apply not_elem_of_empty.
  - rewrite toy_reindex. reflexivity.
Defined.

Lemma RescanBlocks_spec_witness :
  alone (RescanBlocks 1 []) toy_rs [] = Returned (Ok tt) toy_rs [Rescan 1 []].
Proof.
  rewrite RescanBlocks_spec; [reflexivity|]. intros w [= <-]. discriminate.
Defined.
