(* ===== verification/TxNotify.v ===== *)
(** * [txandblocknotifications.go]: transactions and blocks as they arrive

    The goroutine that listens for a wallet's transactions, and the listeners
    it calls, on top of the state of [SyncData].  The channel on which the
    library notifies a client is a queue; [Done] removes the client and closes
    its channel, which the library does in goroutines of its own. *)
From S2P Require Import Prelude Float Conc Wire TxHelper Decode TxIndex Loader Config Utils.
From S2P Require Import Wallet MultiWallet SyncData.

(** The calls of a [TxAndBlockNotificationListener]; a transaction stands for
    its JSON text. *)
Inductive TxCall :=
| OnTransaction (transaction : Transaction)
| OnTransactionConfirmed (walletID : Z) (hash : string) (blockHeight : Z)
| OnBlockAttached (walletID : Z) (blockHeight : Z).

(** [w.TransactionNotifications]: summaries of transactions, and blocks by
    their heights with theirs. *)
Record Ntfns (Summary : Type) := mkNtfns {
  UnminedTransactions : list Summary;
  AttachedBlocks : list (Z * list Summary) }.
Arguments mkNtfns {_} _ _.
Arguments UnminedTransactions {_} _.
Arguments AttachedBlocks {_} _.

(** The goroutine of a wallet: when it starts, at the head of its loop, and in
    its [select] with the channel it has read; [Done] of the library; and the
    library, sending to a client. *)
Inductive troutine (V : Type) :=
| Listener (walletID : Z)
| ListenLoop (walletID id : Z) (n : nat)
| ListenSelect (walletID id : Z) (n : nat) (ch : option nat)
| Unregister (n : nat)
| Deliver (n : nat) (v : V).
Arguments Listener {V} _.
Arguments ListenLoop {V} _ _ _.
Arguments ListenSelect {V} _ _ _ _.
Arguments Unregister {V} _.
Arguments Deliver {V} _ _.

Section TxNotify.
Context {D Val W S : Type} `{!WalletTable D, !KvStore D Val, !Internal W, !Storm S, !SyncLib W}.
Abbreviation wallet := (Wallet W S).
Abbreviation St := (SS (D := D) (W := W) (S := S)).
(** How the transactions of a wallet are decoded, in the block of a height, and
    the texts of their hashes. *)
Context {Summary : Type} (decode : Z → Summary → option Z → outcome Transaction).
Context (hash_string : Summary → string).

(** With the listeners, who was called with what, and the clients of the
    library: what was sent to them, and whether their channels are closed. *)
Record TS := mkTS {
  tss : St; txAndBlockNotificationListeners : gset string; tcalls : list (gset string * TxCall);
  clients : gmap nat (list (Ntfns Summary) * bool) }.
Abbreviation Prog := (prog TS (troutine (Ntfns Summary))).

Definition put_tss (x : St) (s : TS) : TS :=
  mkTS x (txAndBlockNotificationListeners s) (tcalls s) (clients s).
Definition put_listeners (l : gset string) (s : TS) : TS := mkTS (tss s) l (tcalls s) (clients s).
Definition put_client (n : nat) (c : list (Ntfns Summary) * bool) (s : TS) : TS :=
  mkTS (tss s) (txAndBlockNotificationListeners s) (tcalls s) (<[n := c]> (clients s)).

(** *** The listeners *)
Definition AddTxAndBlockNotificationListener (uniqueIdentifier : string) : GM TS unit := λ s,
  if decide (uniqueIdentifier ∈ txAndBlockNotificationListeners s) then (Err ErrListenerAlreadyExist, s)
  else (Ok tt, put_listeners ({[uniqueIdentifier]} ∪ txAndBlockNotificationListeners s) s).

Definition RemoveTxAndBlockNotificationListener (uniqueIdentifier : string) : GM TS unit :=
  modify (λ s, put_listeners (txAndBlockNotificationListeners s ∖ {[uniqueIdentifier]}) s).

(** All listeners are called under the mutex. *)
Definition tcall (c : TxCall) : GM TS unit := modify (λ s,
  if decide (txAndBlockNotificationListeners s = ∅) then s
  else mkTS (tss s) (txAndBlockNotificationListeners s)
         (tcalls s ++ [(txAndBlockNotificationListeners s, c)]) (clients s)).
Definition mempoolTransactionNotification (transaction : Transaction) : GM TS unit :=
  tcall (OnTransaction transaction).
Definition publishTransactionConfirmed (walletID : Z) (hash : string) (blockHeight : Z) : GM TS unit :=
  tcall (OnTransactionConfirmed walletID hash blockHeight).
Definition publishBlockAttached (walletID blockHeight : Z) : GM TS unit :=
  tcall (OnBlockAttached walletID blockHeight).

(** *** The wallet's index *)
Definition listened_wallet (walletID : Z) (s : TS) : option wallet := wallets (mw (tss s)) !! walletID.

Definition save_tx (walletID : Z) (tx : Transaction) : GM TS bool := λ s,
  match listened_wallet walletID s with
  | None => (Panic, s)
  | Some w =>
      match txDB w with
      | None => (Panic, s)
      | Some fs =>
          let '(r, fs) := on_file (SaveOrUpdate tx) fs in
          (r, put_tss (put_mw (set_wallets (insert walletID (set_txDB (Some fs) w)) (mw (tss s)))
                         (tss s)) s)
      end
  end.

(** *** Clients of the library *)
Definition client_at (n : nat) (s : TS) : option (list (Ntfns Summary) * bool) := clients s !! n.
Definition client_ready (n : nat) (s : TS) : bool :=
  match client_at n s with Some (q, over) => bool_decide (q ≠ []) || over | None => false end.

Definition new_client : GM TS nat := λ s,
  let '(r, x) := make (tss s) in
  match r with
  | Ok n => (Ok n, put_client n ([], false) (put_tss x s))
  | Err e => (Err e, s)
  | Panic => (Panic, s)
  end.
Definition client_receive (n : nat) : GM TS (option (Ntfns Summary)) := λ s,
  match client_at n s with
  | Some (v :: q, over) => (Ok (Some v), put_client n (q, over) s)
  | _ => (Ok None, s)
  end.
Definition unregister (n : nat) : GM TS unit := modify (put_client n ([], true)).
(** A client that is not registered any more gets nothing. *)
Definition deliver (n : nat) (v : Ntfns Summary) : GM TS unit := λ s,
  match client_at n s with
  | Some (q, false) => (Ok tt, put_client n (q ++ [v], false) s)
  | _ => (Ok tt, s)
  end.
(** The channel has no buffer: nothing is sent before the last was received. *)
Definition client_free (n : nat) (s : TS) : bool :=
  match client_at n s with Some (q, over) => bool_decide (q = []) || over | None => true end.

(** *** The goroutine *)

Definition report_new (overwritten : bool) (tempTransaction : Transaction) : Prog unit :=
  if overwritten then Ret tt else act (mempoolTransactionNotification tempTransaction).

(** An error ends the goroutine; it does not call [Done]. *)
Fixpoint handle_unmined (walletID : Z) (txs : list Summary) : Prog unit :=
  match txs with
  | [] => Ret tt
  | transaction :: txs =>
      do! tempTransaction := act (λ s, (decode walletID transaction None, s)) in
      do! overwritten := act (save_tx walletID tempTransaction) in
      report_new overwritten tempTransaction >>
      handle_unmined walletID txs
  end.

Fixpoint handle_block (walletID id height : Z) (txs : list Summary) : Prog unit :=
  match txs with
  | [] => act (publishBlockAttached id (wrap32 height))
  | transaction :: txs =>
      do! tempTransaction := act (λ s, (decode walletID transaction (Some height), s)) in
      do! overwritten := act (save_tx walletID tempTransaction) in
      act (publishTransactionConfirmed id (hash_string transaction) (wrap32 height)) >>
      handle_block walletID id height txs
  end.

Fixpoint handle_blocks (walletID id : Z) (blocks : list (Z * list Summary)) : Prog unit :=
  match blocks with
  | [] => Ret tt
  | (height, txs) :: blocks => handle_block walletID id height txs >> handle_blocks walletID id blocks
  end.

Definition handle (walletID id : Z) (v : Ntfns Summary) : Prog unit :=
  handle_unmined walletID (UnminedTransactions v) >>
  handle_blocks walletID id (AttachedBlocks v).

Definition notified (walletID id : Z) (n : nat) (v : Ntfns Summary) : Prog unit :=
  handle walletID id v >> Goto (ListenLoop walletID id n).

Definition listenForTransactions (walletID : Z) : Prog unit :=
  do! id := act (λ s, match listened_wallet walletID s with
                      | Some w => match internal w with Some _ => (Ok (ID (info w)), s) | None => (Panic, s) end
                      | None => (Panic, s)
                      end) in
  do! n := act new_client in
  Goto (ListenLoop walletID id n).

(** The [select] waits for its channels, and takes one that is ready; trying
    one that is not leads back to it.  The channel of the sync is read anew
    every time around the loop. *)
Definition listen_select (walletID id : Z) (n : nat) (ch : option nat) : Prog unit :=
  Wait (λ s, client_ready n s || is_closed ch (tss s))
   (Select (λ s, is_closed ch (tss s))
      (Go (Unregister n) (Goto (ListenLoop walletID id n)))
      (Select (client_ready n)
         (do! v := act (client_receive n) in
          match v with
          | None => Ret tt
          | Some v => notified walletID id n v
          end)
         (Goto (ListenSelect walletID id n ch)))).

(** The library's goroutine goes on when the value was received. *)
Definition deliver_and_wait (n : nat) (v : Ntfns Summary) : Prog unit :=
  Wait (client_free n) (act (deliver n v) >> Wait (client_free n) (Ret tt)).

Definition body (g : troutine (Ntfns Summary)) : Prog unit :=
  match g with
  | Listener walletID => listenForTransactions walletID
  | ListenLoop walletID id n =>
      do! ch := act (gets (λ s, syncCanceled (sd (tss s)))) in
      Goto (ListenSelect walletID id n ch)
  | ListenSelect walletID id n ch => listen_select walletID id n ch
  | Unregister n => act (unregister n)
  | Deliver n v => deliver_and_wait n v
  end.

(** ** Theorems *)

(** The index of the wallet. *)
Definition index_of (walletID : Z) (s : TS) : option S :=
  match listened_wallet walletID s with
  | Some w => match txDB w with Some fs => Some (default storm_new (file fs)) | None => None end
  | None => None
  end.

(** What was called while the listeners were [L]. *)
Definition called (L : gset string) (cs : list TxCall) : list (gset string * TxCall) :=
  if decide (L = ∅) then [] else (λ c, (L, c)) <$> cs.

Lemma called_app L cs1 cs2 : called L (cs1 ++ cs2) = called L cs1 ++ called L cs2.
Proof. unfold called. case_decide; [done|]. apply fmap_app. Qed.

(** Transactions the index has, with a timestamp, are not new. *)
Definition known (m : gmap string Transaction) (tx : Transaction) : bool :=
  match m !! t_Hash tx with Some old => bool_decide (t_Timestamp old > 0)%Z | None => false end.
Definition saved (m : gmap string Transaction) (tx : Transaction) : gmap string Transaction :=
  <[t_Hash tx := tx]> m.
Fixpoint fresh_calls (m : gmap string Transaction) (txs : list Transaction) : list TxCall :=
  match txs with
  | [] => []
  | tx :: txs => (if known m tx then [] else [OnTransaction tx]) ++ fresh_calls (saved m tx) txs
  end.

(** From [s] to [s'] the listeners were called with [cs], the index of the
    wallet went from one map to the other, and nothing else is seen. *)
Record noted (walletID : Z) (s s' : TS) (m m' : gmap string Transaction) (cs : list TxCall) : Prop := {
  nt_from : ∃ db, index_of walletID s = Some db ∧ storm_view db = m;
  nt_to : ∃ db, index_of walletID s' = Some db ∧ storm_view db = m';
  nt_calls : tcalls s' = tcalls s ++ called (txAndBlockNotificationListeners s) cs;
  nt_listeners : txAndBlockNotificationListeners s' = txAndBlockNotificationListeners s;
  nt_clients : clients s' = clients s
}.

Lemma noted_trans walletID s1 s2 s3 m1 m2 m3 cs1 cs2 :
  noted walletID s1 s2 m1 m2 cs1 → noted walletID s2 s3 m2 m3 cs2 →
  noted walletID s1 s3 m1 m3 (cs1 ++ cs2).
Proof.
  intros [H1 H2 H3 H4 H5] [H6 H7 H8 H9 H10]. split; [done|done| |congruence|congruence].
  by rewrite H8, H3, H4, called_app, app_assoc.
Qed.

Lemma noted_call walletID s m c :
  (∃ db, index_of walletID s = Some db ∧ storm_view db = m) →
  ∃ s', tcall c s = (Ok tt, s') ∧ noted walletID s s' m m [c].
Proof.
  intros Hi. unfold tcall, modify. eexists. split; [done|].
  split; [done| | | |]; unfold called; case_decide; simpl; rewrite ?app_nil_r; done.
Qed.

Section with_laws.
Context `{!StormLaws S}.
Hypothesis saves : ∀ tx (db : S), ∃ b db', SaveOrUpdate tx db = (Ok b, db').

Lemma noted_save walletID s m tx :
  (∃ db, index_of walletID s = Some db ∧ storm_view db = m) →
  ∃ s', save_tx walletID tx s = (Ok (known m tx), s') ∧ noted walletID s s' m (saved m tx) [].
Proof.
  intros (db & Hi & <-). unfold index_of, save_tx in *.
  destruct (listened_wallet walletID s) as [w|] eqn:Hw; [|done].
  destruct (txDB w) as [fs|] eqn:Hfs; [|done]. injection Hi as <-. unfold on_file.
  destruct (saves tx (default storm_new (file fs))) as (b & db' & Hs). rewrite Hs.
  apply SaveOrUpdate_spec in Hs as (Hv & Hb & _).
  assert (Hk : b = known (storm_view (default storm_new (file fs))) tx).
  { unfold known. destruct (storm_view _ !! t_Hash tx) as [old|] eqn:Eo.
    - case_bool_decide as Ht; [by apply Hb; eauto|]. destruct b; [|done].
      destruct (proj1 Hb eq_refl) as (old' & [= ->] & ?). done.
    - destruct b; [|done]. by destruct (proj1 Hb eq_refl) as (old' & ? & _). }
  rewrite <- Hk. eexists. split; [done|]. split; unfold index_of.
  - rewrite Hw, Hfs. by eauto.
  - unfold listened_wallet. simpl. rewrite lookup_insert_eq. simpl. by eauto.
  - unfold called. simpl. by case_decide; rewrite app_nil_r.
  - done.
  - done.
Qed.

Lemma alone_act {A B} (m : GM TS A) (k : A → Prog B) s s' a st :
  m s = (Ok a, s') → alone (seq (act m) k) s st = alone (k a) s' st.
Proof. intros H. simpl. by rewrite H. Qed.

Lemma unmined_spec walletID xs txs s m :
  Forall2 (λ x tx, decode walletID x None = Ok tx) xs txs →
  (∃ db, index_of walletID s = Some db ∧ storm_view db = m) →
  ∃ s', (∀ st, alone (handle_unmined walletID xs) s st = Returned (Ok tt) s' st) ∧
    noted walletID s s' m (foldl saved m txs) (fresh_calls m txs).
Proof.
  intros Hd. revert s m. induction Hd as [|x tx xs txs Hx _ IH]; intros s m Hi.
  { exists s. split; [done|]. split; [done..| |done|done]. unfold called. by case_decide; rewrite app_nil_r. }
  destruct (noted_save walletID s m tx Hi) as (s1 & Hs1 & Hn1).
  assert (Hcall : ∃ s2, (∀ st, alone (report_new (known m tx) tx) s1 st = Returned (Ok tt) s2 st) ∧
      noted walletID s1 s2 (saved m tx) (saved m tx) (if known m tx then [] else [OnTransaction tx])).
  { unfold report_new. destruct (known m tx).
    - exists s1. split; [done|]. destruct Hn1 as [_ H2 _ _ _]. split; [done..| |done|done].
      unfold called. by case_decide; rewrite app_nil_r.
    - destruct (noted_call walletID s1 _ (OnTransaction tx) (nt_to _ _ _ _ _ _ Hn1)) as (s2 & Hc & Hn).
      exists s2. split; [|done]. intros st. cbn [alone act]. unfold mempoolTransactionNotification. by rewrite Hc. }
  destruct Hcall as (s2 & Hc2 & Hn2).
  destruct (IH s2 (saved m tx) (nt_to _ _ _ _ _ _ Hn2)) as (s3 & Hr & Hn3).
  exists s3. split.
  - intros st. cbn [handle_unmined]. erewrite alone_act; [|by rewrite Hx].
    erewrite alone_act by done. by rewrite alone_seq, Hc2, Hr.
  - apply (noted_trans _ _ _ _ _ _ _ [] _ Hn1). by apply (noted_trans _ _ _ _ _ _ _ _ _ Hn2).
Qed.

(** The calls for a block: its transactions, then the block. *)
Definition block_calls (id height : Z) (xs : list Summary) : list TxCall :=
  ((λ x, OnTransactionConfirmed id (hash_string x) (wrap32 height)) <$> xs) ++
  [OnBlockAttached id (wrap32 height)].

Lemma block_spec walletID id height xs txs s m :
  Forall2 (λ x tx, decode walletID x (Some height) = Ok tx) xs txs →
  (∃ db, index_of walletID s = Some db ∧ storm_view db = m) →
  ∃ s', (∀ st, alone (handle_block walletID id height xs) s st = Returned (Ok tt) s' st) ∧
    noted walletID s s' m (foldl saved m txs) (block_calls id height xs).
Proof.
  intros Hd. revert s m. induction Hd as [|x tx xs txs Hx _ IH]; intros s m Hi.
  { destruct (noted_call walletID s m (OnBlockAttached id (wrap32 height)) Hi) as (s' & Hc & Hn).
    exists s'. split; [|done]. intros st. cbn [handle_block alone act]. unfold publishBlockAttached. by rewrite Hc. }
  destruct (noted_save walletID s m tx Hi) as (s1 & Hs1 & Hn1).
  destruct (noted_call walletID s1 _ (OnTransactionConfirmed id (hash_string x) (wrap32 height))
              (nt_to _ _ _ _ _ _ Hn1)) as (s2 & Hc2 & Hn2).
  destruct (IH s2 (saved m tx) (nt_to _ _ _ _ _ _ Hn2)) as (s3 & Hr & Hn3).
  exists s3. split.
  - intros st. cbn [handle_block]. erewrite alone_act; [|by rewrite Hx].
    erewrite alone_act by done. unfold publishTransactionConfirmed.
    by erewrite alone_act by done.
  - apply (noted_trans _ _ _ _ _ _ _ [] _ Hn1).
    by apply (noted_trans _ _ _ _ _ _ _ [_] _ Hn2).
Qed.

Lemma blocks_spec walletID id blocks txss s m :
  Forall2 (λ b txs, Forall2 (λ x tx, decode walletID x (Some b.1) = Ok tx) b.2 txs) blocks txss →
  (∃ db, index_of walletID s = Some db ∧ storm_view db = m) →
  ∃ s', (∀ st, alone (handle_blocks walletID id blocks) s st = Returned (Ok tt) s' st) ∧
    noted walletID s s' m (foldl saved m (concat txss))
      (blocks ≫= λ b, block_calls id b.1 b.2).
Proof.
  intros Hd. revert s m. induction Hd as [|[height xs] txs blocks txss Hb _ IH]; intros s m Hi.
  { exists s. split; [done|]. split; [done..| |done|done]. unfold called. by case_decide; rewrite app_nil_r. }
  destruct (block_spec walletID id height xs txs s m Hb Hi) as (s1 & Hr1 & Hn1).
  destruct (IH s1 _ (nt_to _ _ _ _ _ _ Hn1)) as (s2 & Hr2 & Hn2).
  exists s2. split.
  - intros st. cbn [handle_blocks]. by rewrite alone_seq, Hr1, Hr2.
  - simpl. rewrite foldl_app. by apply (noted_trans _ _ _ _ _ _ _ _ _ Hn1).
Qed.

(** C22. A notification of the library, when its transactions can be decoded and
    saved: the listeners hear of every unmined transaction that the index does
    not have with a timestamp when its turn comes, then for each attached block
    of the confirmation of every transaction in it, in order, and then of the
    block; the index has all of them in the end.  Then the goroutine listens
    again. *)
Theorem notification_spec (walletID id : Z) (n : nat) (v : Ntfns Summary) (txs : list Transaction)
    (txss : list (list Transaction)) (s : TS) (db : S) :
  Forall2 (λ x tx, decode walletID x None = Ok tx) (UnminedTransactions v) txs →
  Forall2 (λ b txs, Forall2 (λ x tx, decode walletID x (Some b.1) = Ok tx) b.2 txs)
    (AttachedBlocks v) txss →
  index_of walletID s = Some db →
  ∃ s' db', alone (notified walletID id n v) s [] =
      Became (ListenLoop walletID id n) s' ∧
    tcalls s' = tcalls s ++ called (txAndBlockNotificationListeners s)
      (fresh_calls (storm_view db) txs ++ (AttachedBlocks v ≫= λ b, block_calls id b.1 b.2)) ∧
    index_of walletID s' = Some db' ∧
    storm_view db' = foldl saved (storm_view db) (txs ++ concat txss) ∧
    clients s' = clients s.
Proof.
  intros Hu Hb Hi.
  destruct (unmined_spec walletID _ _ s (storm_view db) Hu) as (s1 & Hr1 & Hn1); [by eauto|].
  destruct (blocks_spec walletID id _ _ s1 _ Hb (nt_to _ _ _ _ _ _ Hn1)) as (s2 & Hr2 & Hn2).
  destruct (noted_trans _ _ _ _ _ _ _ _ _ Hn1 Hn2) as [_ (db' & Hi' & Hv') Hc _ Hcl].
  exists s2, db'. split_and!; [|done|done|by rewrite foldl_app|done].
  unfold notified, handle. by rewrite !alone_seq, Hr1, Hr2.
Qed.
End with_laws.

(** A transaction that cannot be decoded ends the goroutine without a call of
    [Done].  The client stays registered and nobody receives for it: when the
    library notifies it the next time, it waits for ever. *)
Theorem dead_listener_blocks_library (walletID id : Z) (n : nat) (v v' : Ntfns Summary) (x : Summary)
    (e : goerr) (s : TS) :
  UnminedTransactions v = [x] → decode walletID x None = Err e → client_at n s = Some ([], false) →
  alone (notified walletID id n v) s [] = Returned (Err e) s [] ∧
  ∃ s' p, run body [(1, true); (1, true)] (mkConf s [Stop e; deliver_and_wait n v']) =
      Moved (mkConf s' [Stop e; p]) ∧ p ≠ Ret tt ∧
    ∀ c, ¬ step body (mkConf s' [Stop e; p]) c.
Proof.
  intros Hu Hd Hn. split.
  { unfold notified, handle. rewrite Hu. cbn [handle_unmined alone seq act]. by rewrite Hd. }
  exists (put_client n ([v'], false) s), (Wait (client_free n) (Ret tt)). split_and!; [|done|].
  - unfold deliver_and_wait. erewrite run_right; [|cbn; unfold client_free; rewrite Hn; reflexivity].
    erewrite run_right; [reflexivity|]. cbn. unfold deliver. by rewrite Hn.
  - intros c [(sel & s' & p' & l & H & _)|(sel & s' & p' & l & H & _)]%step_pair; [done|].
    cbn in H. unfold client_free, client_at in H. simpl in H. by rewrite lookup_insert_eq in H.
Qed.

(** *** A sync that fails does not tell the listeners of transactions *)
Definition keeps_closed {A} (m : GM St A) : Prop := ∀ x, closed (m x).2 = closed x.

Lemma keeps_closed_bind {A B} (m : GM St A) (k : A → GM St B) :
  keeps_closed m → (∀ a, keeps_closed (k a)) → keeps_closed (bind m k).
Proof.
  intros Hm Hk x. unfold bind. pose proof (Hm x) as H. destruct (m x) as [[a|e|] x']; simpl in *; [|done..].
  by rewrite Hk.
Qed.

Lemma keeps_closed_stop : keeps_closed stopUpdatingAddressDiscoveryProgress.
Proof.
  assert (Ha : ∀ f, keeps_closed (on_active f)).
  { intros f x. unfold on_active. by destruct (activeSync (sd x)). }
  intros x. unfold stopUpdatingAddressDiscoveryProgress.
  destruct (activeSync (sd x)) as [a|]; [|done].
  destruct (addressDiscoveryCompletedOrCanceled a) as [c|]; [|done].
  apply (keeps_closed_bind (close_bool (Some c))).
  { intros y. unfold close_bool. by case_decide. }
  intros _. apply keeps_closed_bind; [done|]. intros _.
  apply keeps_closed_bind; [by intros y|]. by intros now.
Qed.

(** After a sync that ended in an error the channel that stops the goroutines
    of the wallets is forgotten but not closed: a goroutine that waits goes on
    waiting, and the next sync starts another one for the same wallet. *)
Theorem failed_sync_keeps_listeners (ctx ch : nat) (e : goerr) (x x' : St)
    (st : list (goroutine (Note := unit))) (s : TS) (walletID id : Z) (n : nat) (sel : bool) :
  syncCanceled (sd x) = Some ch → ch ∉ closed x →
  alone (run_ended ctx (EndError e)) x [] = Returned (Ok tt) x' st →
  client_at n s = Some ([], false) → tss s = x' →
  syncCanceled (sd x') = None ∧
  next body sel (listen_select walletID id n (Some ch)) s = Blocks.
Proof.
  intros Hch Hn Hr Hc Hs.
  assert (H : syncCanceled (sd x') = None ∧ closed x' = closed x).
  { revert Hr. unfold run_ended, notify, resetSyncData. rewrite !alone_seq. cbn [alone act seq].
    unfold gets. assert (Hcall : closed (call (listeners (sd x)) (OnSyncEndedWithError e) x).2 = closed x).
    { unfold call. by case_decide. }
    destruct (call _ _ x) as [[[]|?|] x1]; [|done..]. simpl in Hcall.
    pose proof (keeps_closed_stop x1) as Hstop.
    destruct (stopUpdatingAddressDiscoveryProgress x1) as [[[]|?|] x2]; [|done..]. simpl in Hstop.
    cbn [alone]. unfold on_sd, modify. cbn [alone]. unfold wait_and_lock_all. case_decide; [|done].
    simpl. intros [= <- <-]. simpl. split; [done|congruence]. }
  destruct H as [H1 H2]. split; [done|]. unfold listen_select. cbn [next].
  unfold client_ready, is_closed. rewrite Hc, Hs, H2. simpl. by rewrite bool_decide_eq_false_2.
Qed.
End TxNotify.

(** ** A wallet with a transaction in its index, for the witnesses *)
Lemma toy_saves (tx : Transaction) (db : MapStorm.t) :
  ∃ b db', SaveOrUpdate tx db = (Ok b, db').
Proof.
  unfold SaveOrUpdate. simpl.
  destruct (MapStorm.view db !! t_Hash tx) as [old|]; [|by eauto].
  case_decide; by eauto.
Qed.

Definition toy_db : MapStorm.t := MapStorm.wallet [MapStorm.tx "a" 5].
Definition listening_wallet : Wallet ToySync.W MapStorm.t :=
  mkWallet ToyMW.saved (Some (ToySync.mkW (bs "pw") false 1000 (Some 0))) ToyMW.loaded
    (Some (mkFS (Some toy_db) 1)) true false false.
Definition listening_ss : SS (D := ToyMW.t) (W := ToySync.W) (S := MapStorm.t) :=
  mkSS (mkMW "/root" "bdb" "mainnet" (ToyMW.mk [ToyMW.saved] ∅) {[1%Z := listening_wallet]} ∅ true false)
    (mkSync {["ui"]} false true false (Some 0) None (Some 1) false false 3 None)
    1000 [] ∅ ∅ ∅ 2.
Definition listening : TS (Summary := string) := mkTS listening_ss {["ui"]} [] ∅.
Definition toy_decode (walletID : Z) : string → option Z → outcome Transaction := MapStorm.decode.
Definition toy_ntfns : Ntfns string := mkNtfns ["a"; "b"; "b"] [(7%Z, ["b"])].

(** The repeated transaction has no timestamp: it is new twice. *)
Lemma notification_spec_witness :
  ∃ s', alone (notified toy_decode (λ h, h) 1 1 0 toy_ntfns) listening [] = Became (ListenLoop 1 1 0) s' ∧
    tcalls s' = called {["ui"]}
      [OnTransaction (MapStorm.tx "b" 0); OnTransaction (MapStorm.tx "b" 0);
       OnTransactionConfirmed 1 "b" 7; OnBlockAttached 1 7].
Proof.
  destruct (notification_spec toy_decode (λ h, h) toy_saves 1 1 0 toy_ntfns
    [MapStorm.tx "a" 0; MapStorm.tx "b" 0; MapStorm.tx "b" 0] [[MapStorm.tx "b" 7]] listening toy_db)
    as (s' & db' & Hr & Hc & _).
  - repeat constructor.
  - repeat constructor.
  - reflexivity.
  - exists s'. split; [exact Hr|]. rewrite Hc. vm_compute. reflexivity.
Defined.
