(* ===== verification/JsonData.v ===== *)
(** * The JSON of the source's data

    The types of [types.go] that are written or read as JSON, field by field
    with their names, and the functions whose results are JSON texts:
    accounts, transactions, the ids of wallets, proposals.  A record that is
    only written is taken apart into the tuple of its fields, where a pointer
    is an [option]. *)
From S2P Require Import Prelude Float Utils Config Encoding Wire TxHelper Decode TxIndex Loader.
From S2P Require Import Wallet Accounts Json JsonTypes Proposals.

(** [Marshal] of a value, as a Go string. *)
Definition to_string (b : bytes) : string := String.string_of_list_byte b.
Definition marshal {A} (t : jtype A) (a : A) : string := to_string (Marshal t a).

(** Discharge [jtype_ok] and [names_ok] of the types below. *)
Ltac names := split; [apply (bool_decide_unpack _); reflexivity|repeat constructor].
Ltac untuple := repeat match goal with p : _ * _ |- _ => destruct p | u : unit |- _ => destruct u end.
Ltac fields := repeat (apply fcons_ok; [solve [auto 10 with json]|]); apply fnil_ok.
Ltac record_ok := apply jstruct_ok; [fields|names|by intros []|by intros; untuple].

(** ** Accounts *)
Definition balance_fields :=
  fcons "Total" (jint 64) $ fcons "Spendable" (jint 64) $ fcons "ImmatureReward" (jint 64) $
  fcons "ImmatureStakeGeneration" (jint 64) $ fcons "LockedByTickets" (jint 64) $
  fcons "VotingAuthority" (jint 64) $ fcons "UnConfirmed" (jint 64) fnil.
Definition balance_of (b : Balance) :=
  (Total b, (Spendable b, (ImmatureReward b, (ImmatureStakeGeneration b, (LockedByTickets b,
  (VotingAuthority b, (UnConfirmed b, tt))))))).
Definition balance_from '(a, (b, (c, (d, (e, (f, (g, tt))))))) : Balance := mkBalance a b c d e f g.
Definition jBalance : jtype Balance := jstruct balance_fields balance_of balance_from.

Definition account_fields :=
  fcons "WalletID" (jint 64) $ fcons "Number" (jint 32) $ fcons "Name" jstring $
  fcons "Balance" (jptr jBalance) $ fcons "TotalBalance" (jint 64) $
  fcons "ExternalKeyCount" (jint 32) $ fcons "InternalKeyCount" (jint 32) $
  fcons "ImportedKeyCount" (jint 32) fnil.
Definition account_of (a : Account) :=
  (ac_WalletID a, (ac_Number a, (ac_Name a, (Some (ac_Balance a), (ac_TotalBalance a,
  (ExternalKeyCount a, (InternalKeyCount a, (ImportedKeyCount a, tt)))))))).
Definition jAccount := jstruct account_fields id id.

Definition accounts_fields :=
  fcons "Count" (jint 64) $ fcons "Acc" (jslice (jptr jAccount)) $
  fcons "CurrentBlockHash" jbytes $ fcons "CurrentBlockHeight" (jint 32) fnil.
Definition accounts_of (a : Accounts) :=
  (Count_ a, (Some (Some ∘ account_of <$> Acc a), (Some (CurrentBlockHash a),
  (CurrentBlockHeight a, tt)))).
Definition jAccounts := jstruct accounts_fields id id.

(** ** Transactions *)
Definition input_fields :=
  fcons "previous_transaction_hash" jstring $ fcons "previous_transaction_index" (jint 32) $
  fcons "previous_outpoint" jstring $ fcons "amount" (jint 64) $
  fcons "account_name" jstring $ fcons "account_number" (jint 32) fnil.
Definition input_of (i : TxInput) :=
  (in_PreviousTransactionHash i, (in_PreviousTransactionIndex i, (in_PreviousOutpoint i,
  (in_Amount i, (in_AccountName i, (in_AccountNumber i, tt)))))).
Definition jTxInput := jstruct input_fields id id.

Definition output_fields :=
  fcons "index" (jint 32) $ fcons "amount" (jint 64) $ fcons "version" (jint 32) $
  fcons "script_type" jstring $ fcons "address" jstring $ fcons "internal" jbool $
  fcons "account_name" jstring $ fcons "account_number" (jint 32) fnil.
Definition output_of (o : TxOutput) :=
  (out_Index o, (out_Amount o, (out_Version o, (out_ScriptType o, (out_Address o,
  (out_Internal o, (out_AccountName o, (out_AccountNumber o, tt)))))))).
Definition jTxOutput := jstruct output_fields id id.

Definition transaction_fields :=
  fcons "walletID" (jint 64) $ fcons "hash" jstring $ fcons "type" jstring $
  fcons "hex" jstring $ fcons "timestamp" (jint 64) $ fcons "block_height" (jint 32) $
  fcons "version" (jint 32) $ fcons "lock_time" (jint 32) $ fcons "expiry" (jint 32) $
  fcons "fee" (jint 64) $ fcons "fee_rate" (jint 64) $ fcons "size" (jint 64) $
  fcons "direction" (jint 32) $ fcons "amount" (jint 64) $
  fcons "inputs" (jslice (jptr jTxInput)) $ fcons "outputs" (jslice (jptr jTxOutput)) $
  fcons "vote_version" (jint 32) $ fcons "last_block_valid" jbool $ fcons "vote_bits" jstring $
  fcons "vote_reward" (jint 64) $ fcons "ticket_spent_hash" jstring $
  fcons "days_to_vote_revoke" (jint 32) fnil.
Definition transaction_of (t : Transaction) :=
  (t_WalletID t, (t_Hash t, (t_Type t, (t_Hex t, (t_Timestamp t, (t_BlockHeight t,
  (t_Version t, (t_LockTime t, (t_Expiry t, (t_Fee t, (t_FeeRate t, (t_Size t,
  (t_Direction t, (t_Amount t, (Some (Some ∘ input_of <$> t_Inputs t),
  (Some (Some ∘ output_of <$> t_Outputs t), (t_VoteVersion t, (t_LastBlockValid t,
  (t_VoteBits t, (t_VoteReward t, (t_TicketSpentHash t, (t_DaysToVoteOrRevoke t,
  tt)))))))))))))))))))))).
Definition jTransaction := jstruct transaction_fields id id.

(** ** Proposals *)
Definition policy_fields := fcons "proposallistpagesize" (jint 64) fnil.
Definition jServerPolicy : jtype ServerPolicy :=
  jstruct policy_fields (λ p, (ProposalListPageSize p, tt)) (fun '(n, tt) => mkPolicy n).

Definition file_fields :=
  fcons "name" jstring $ fcons "mime" jstring $ fcons "digest" jstring $
  fcons "payload" jstring fnil.
Definition jProposalFile : jtype ProposalFile :=
  jstruct file_fields (λ f, (pf_Name f, (Mime f, (Digest f, (Payload f, tt)))))
    (fun '(a, (b, (c, (d, tt)))) => mkFile a b c d).

Definition meta_fields :=
  fcons "name" jstring $ fcons "linkto" jstring $ fcons "linkby" (jint 64) fnil.
Definition jProposalMetaData : jtype ProposalMetaData :=
  jstruct meta_fields (λ m, (pm_Name m, (LinkTo m, (LinkBy m, tt))))
    (fun '(a, (b, (c, tt))) => mkMeta a b c).

Definition record_fields :=
  fcons "token" jstring $ fcons "merkle" jstring $ fcons "signature" jstring fnil.
Definition jCensorshipRecord : jtype ProposalCensorshipRecord :=
  jstruct record_fields (λ r, (Token r, (Merkle r, (cr_Signature r, tt))))
    (fun '(a, (b, (c, tt))) => mkRecord a b c).

Definition proposal_fields :=
  fcons "name" jstring $ fcons "state" (jint 64) $ fcons "status" (jint 64) $
  fcons "timestamp" (jint 64) $ fcons "userid" jstring $ fcons "username" jstring $
  fcons "publickey" jstring $ fcons "signature" jstring $ fcons "numcomments" (jint 64) $
  fcons "version" jstring $ fcons "publishedat" (jint 64) $
  fcons "files" (jslice jProposalFile) $ fcons "metadata" (jslice jProposalMetaData) $
  fcons "censorshiprecord" jCensorshipRecord fnil.
Definition proposal_of (p : Proposal) :=
  (p_Name p, (p_State p, (p_Status p, (p_Timestamp p, (UserID p, (Username p, (PublicKey p,
  (p_Signature p, (NumComments p, (p_Version p, (PublishedAt p, (Files p, (MetaData p,
  (CensorshipRecord p, tt)))))))))))))).
Definition proposal_from
    '(a, (b, (c, (d, (e, (f, (g, (h, (i, (j, (k, (l, (m, (n, tt)))))))))))))) : Proposal :=
  mkProposal a b c d e f g h i j k l m n.
Definition jProposal : jtype Proposal := jstruct proposal_fields proposal_of proposal_from.

(** The struct [Proposals] is its only field. *)
Definition jProposals : jtype (option (list Proposal)) :=
  jstruct (fcons "proposals" (jslice jProposal) fnil) (λ l, (l, tt)) fst.

Definition jServerVersion : jtype Z :=
  jstruct (fcons "version" (jint 64) fnil) (λ n, (n, tt)) fst.

(** ** All of them are types *)
Lemma jptr_struct {P R} (fs : Fields P) (unpack : R → P) (pack : P → R) :
  jtype_ok (jstruct fs unpack pack) → jtype_ok (jptr (jstruct fs unpack pack)).
Proof. intros H. by apply jptr_ok. Qed.
#[local] Hint Resolve jptr_struct : json.

Lemma jBalance_ok : jtype_ok jBalance.
Proof. record_ok. Qed.
#[local] Hint Resolve jBalance_ok : json.
Lemma jAccount_ok : jtype_ok jAccount.
Proof. record_ok. Qed.
#[local] Hint Resolve jAccount_ok : json.
Lemma jAccounts_ok : jtype_ok jAccounts.
Proof. record_ok. Qed.

Lemma jTxInput_ok : jtype_ok jTxInput.
Proof. record_ok. Qed.
Lemma jTxOutput_ok : jtype_ok jTxOutput.
Proof. record_ok. Qed.
#[local] Hint Resolve jTxInput_ok jTxOutput_ok : json.
Lemma jTransaction_ok : jtype_ok jTransaction.
Proof. record_ok. Qed.

Lemma jServerPolicy_ok : jtype_ok jServerPolicy.
Proof. record_ok. Qed.
Lemma jProposalFile_ok : jtype_ok jProposalFile.
Proof. record_ok. Qed.
Lemma jProposalMetaData_ok : jtype_ok jProposalMetaData.
Proof. record_ok. Qed.
Lemma jCensorshipRecord_ok : jtype_ok jCensorshipRecord.
Proof. record_ok. Qed.
#[local] Hint Resolve jProposalFile_ok jProposalMetaData_ok jCensorshipRecord_ok : json.
Lemma jProposal_ok : jtype_ok jProposal.
Proof. record_ok. Qed.
#[local] Hint Resolve jProposal_ok : json.
Lemma jProposals_ok : jtype_ok jProposals.
Proof. apply jstruct_ok; [fields|names|done|by intros [? []]]. Qed.

(** ** Results that are JSON texts *)

(** accounts.go *)
Definition accounts_text (a : Accounts) : string := marshal jAccounts (accounts_of a).

(** transactions.go: a slice in which nothing was found is what the storage
    leaves it, nil or empty. *)
Definition jTransactions := jslice jTransaction.
Definition transaction_text (t : Transaction) : string := marshal jTransaction (transaction_of t).
Definition transactions_text (l : list Transaction) : string :=
  marshal jTransactions (Some (transaction_of <$> l)).

Section texts.
Context {S : Type} `{!Storm S}.

Definition wallet_GetTransaction (GetTransactionRaw : Hash → outcome Transaction) (NewHash : bytes → goerr + Hash)
    (txHash : bytes) : outcome string :=
  match NewHash txHash with
  | inl err => Err err
  | inr hash =>
      match GetTransactionRaw hash with
      | Ok transaction => Ok (transaction_text transaction)
      | Err e => Err e
      | Panic => Panic
      end
  end.

Definition wallet_GetTransactions (left_nil : bool) (offset limit txFilter : Z) (newestFirst : bool)
    : GM S string :=
  let! transactions := Read offset limit txFilter newestFirst in
  ret (match transactions with
       | [] => marshal jTransactions (if left_nil then None else Some [])
       | l => transactions_text l
       end).

Definition CountTransactions (txFilter : Z) (s : S) : Z * option goerr := Count txFilter s.

(** What the library's wallet has as its network, and what it publishes to. *)
Definition PublishUnminedTransactions {N : Type} (NetworkBackend : goerr + N)
    (publish : N → option goerr) : option goerr :=
  match NetworkBackend with inl err => Some err | inr n => publish n end.

(** The text with the error, which is nil always. *)
Definition multi_GetTransactions (sort : bool → list Transaction → list Transaction)
    (offset limit txFilter : Z) (newestFirst : bool) (wallets : list S) : string * option goerr :=
  match GetTransactions sort offset limit txFilter newestFirst wallets with
  | None => (EmptyString, None)
  | Some transactions => (transactions_text transactions, None)
  end.
End texts.

(** multiwallet.go *)
Definition ids_text (walletIDs : list Z) : string := marshal (jslice (jint 64)) (Some walletIDs).

(** proposals.go: what decoding a body into a new variable gives; into the token
    of the session. *)
Definition read_new {A} (t : jtype A) (b : bytes) : goerr + A :=
  match Decode_into t b (zero t) with (a, None) => inr a | (_, Some e) => inl e end.
Definition to_policy : bytes → goerr + ServerPolicy := read_new jServerPolicy.
Definition to_proposals : bytes → goerr + option (list Proposal) := read_new jProposals.
Definition to_text : bytes → goerr + string := read_new jstring.
Definition proposals_text (l : option (list Proposal)) : string := marshal (jslice jProposal) l.

(** ** Reading the texts back *)
Lemma marshal_Decode {A} (t : jtype A) (a : A) :
  jtype_ok t → fits t a → Decode_into t (bs (marshal t a)) (zero t) = (a, None).
Proof.
  intros Ht Ha. unfold marshal, to_string, bs. rewrite String.list_byte_of_string_of_list_byte.
  rewrite <- (app_nil_r (Marshal t a)). by apply Marshal_Decode.
Qed.

(** Values of a type that have the same text are the same. *)
Lemma marshal_inj {A} (t : jtype A) (a b : A) :
  jtype_ok t → fits t a → fits t b → marshal t a = marshal t b → a = b.
Proof.
  intros Ht Ha Hb Hab. pose proof (marshal_Decode t a Ht Ha) as Hd.
  rewrite Hab, (marshal_Decode t b Ht Hb) in Hd. congruence.
Qed.

Definition transaction_fits (t : Transaction) : Prop := fits jTransaction (transaction_of t).

#[export] Instance input_of_inj : Inj (=) (=) input_of.
Proof. intros [] []. unfold input_of. cbn. congruence. Qed.
#[export] Instance output_of_inj : Inj (=) (=) output_of.
Proof. intros [] []. unfold output_of. cbn. congruence. Qed.
#[export] Instance transaction_of_inj : Inj (=) (=) transaction_of.
Proof.
  intros [] [] H. unfold transaction_of in H. cbn in H.
  repeat (apply pair_equal_spec in H as [? H]).
  repeat match goal with
  | E : Some (_ <$> _) = Some (_ <$> _) |- _ => injection E as E%(inj (fmap (M:=list) _))
  end.
  by subst.
Qed.

(** C36. The texts that listeners and callers get of transactions are faithful:
    a decoder reads back every field of every transaction, from the single text
    and from the list, and two transactions have the same text only when they
    are equal (for transactions whose numbers fit their Go types and whose
    strings are UTF-8). *)
Theorem transactions_text_roundtrip (l l' : list Transaction) (t : Transaction) (rest : bytes) :
  Forall transaction_fits l → Forall transaction_fits l' → transaction_fits t → num_end rest →
  Decode_into jTransaction (bs (transaction_text t) ++ rest) (zero jTransaction) = (transaction_of t, None) ∧
  Decode_into jTransactions (bs (transactions_text l)) None = (Some (transaction_of <$> l), None) ∧
  (transactions_text l = transactions_text l' → l = l').
Proof.
  intros Hl Hl' Ht Hr.
  assert (Hok : jtype_ok jTransactions) by apply jslice_ok, jTransaction_ok.
  assert (Hfit : ∀ k, Forall transaction_fits k → fits jTransactions (Some (transaction_of <$> k)))
    by (intros k Hk; by apply Forall_fmap).
  split_and!.
  - unfold transaction_text, marshal, to_string, bs. rewrite String.list_byte_of_string_of_list_byte.
    by apply Marshal_Decode; [apply jTransaction_ok|..].
  - apply (marshal_Decode jTransactions); auto.
  - intros Heq. apply (marshal_inj jTransactions) in Heq; auto. by injection Heq as Heq%(inj _).
Qed.

Definition sample_tx : Transaction :=
  mkTransaction 1 "ab12" "Regular" "01" 1600000000 (-1) 1 0 0 2530 10 253 0 (-5)
    [mkTxInput "cd" 0 "cd:0" 7 "default" 0] [] 0 false "0x0001" 0 "" 0.

Lemma transactions_text_roundtrip_witness :
  Decode_into jTransaction (bs (transaction_text sample_tx) ++ bs " ") (zero jTransaction)
    = (transaction_of sample_tx, None) ∧
  transactions_text [sample_tx] ≠ transactions_text [].
Proof.
  assert (Hfit : transaction_fits sample_tx).
  { cbn. unfold int_range. split_and!; try done; repeat constructor; try done; lia. }
  assert (Hend : num_end (bs " ")) by done.
  split.
  - apply (transactions_text_roundtrip [] [] sample_tx (bs " ")); [constructor|constructor|done|done].
  - intros H. apply (transactions_text_roundtrip [sample_tx] [] sample_tx []) in H;
      [done|by constructor|constructor|done|done].
Defined.

(** What a caller gets of the accounts. *)
Theorem accounts_text_roundtrip (a : Accounts) :
  fits jAccounts (accounts_of a) →
  Decode_into jAccounts (bs (accounts_text a)) (zero jAccounts) = (accounts_of a, None).
Proof. apply marshal_Decode, jAccounts_ok. Qed.

(** The ids of the opened wallets. *)
Theorem ids_text_roundtrip (l : list Z) :
  Forall (int_range 64) l → Decode_into (jslice (jint 64)) (bs (ids_text l)) None = (Some l, None).
Proof. intros Hl. by apply (marshal_Decode (jslice (jint 64))); [auto with json|]. Qed.

(** ** Proposals *)
Section Proposals_json.
Context (web : nat → Request → goerr + Response) (read_error : bytes → option goerr).
Abbreviation getChunk := (getProposalsChunk web read_error to_proposals to_text).
Abbreviation getAll := (GetAllProposals web read_error to_policy to_proposals to_text proposals_text).
Abbreviation page_fits := (fits (jslice jProposal)).

Lemma jpage_ok : jtype_ok (jslice jProposal).
Proof. apply jslice_ok, jProposal_ok. Qed.

Lemma read_new_fits {A} (t : jtype A) (b : bytes) (a : A) :
  jtype_ok t → read_new t b = inr a → fits t a.
Proof.
  intros Ht. unfold read_new. pose proof (Decode_fits t b (zero t) Ht (zero_fits t Ht)) as Hf.
  destruct (Decode_into t b (zero t)) as [a' [e|]]; intros [= <-]. done.
Qed.

Lemma to_proposals_fits (b : bytes) (l : option (list Proposal)) :
  to_proposals b = inr l → page_fits l.
Proof. intros H. by destruct (read_new_fits jProposals b l jProposals_ok H). Qed.

Lemma walk_fits (size : Z) (k : nat) (after : string) reqs chunks :
  walk web to_proposals size k after reqs chunks → page_fits (joined chunks).
Proof.
  intros Hw. assert (Hall : Forall page_fits chunks).
  { induction Hw as [k after page (b & _ & Hb%to_proposals_fits) _
                    |k after l x reqs chunks (b & _ & Hb%to_proposals_fits) _ _ _ IH].
    - by constructor.
    - by constructor. }
  assert (Hf : Forall (fits jProposal) (chunks ≫= default [])).
  { clear Hw. induction Hall as [|c chunks Hc _ IH]; [constructor|]. cbn. apply Forall_app.
    split; [|exact IH].
    destruct c as [c|]; [exact Hc|constructor]. }
  unfold joined. destruct (chunks ≫= default []) as [|x l]; [constructor|exact Hf].
Qed.

(** C35. What [GetAllProposals] returns from any server.  It returns a text if and
    only if the following went well, each request with status 200 and a body
    that decodes: the policy was fetched, unless one is saved, which is then
    used; then a page was fetched from the start, and after every page that is
    full, as the policy has it, the page behind the token of its last proposal,
    until a page was nil or not full.  Nothing else was requested, the policy is
    kept, and the text decodes without an error to all the proposals of these
    pages in order.  (The fuel is the number of pages.) *)
Theorem GetAllProposals_walks (fuel : nat) (p p' : Politeia) (text : string) :
  getAll fuel p = (Ok (Some text), p') ↔
  ∃ policy reqs0 reqs chunks,
    policy_fetched web to_policy p policy reqs0 ∧
    walk web to_proposals (ProposalListPageSize policy) (length (requests p ++ reqs0)) EmptyString
      reqs chunks ∧
    length reqs ≤ fuel ∧
    p' = mkPoliteia (csrfToken p) (Some policy) (requests p ++ reqs0 ++ reqs) ∧
    text = proposals_text (joined chunks) ∧
    Decode_into (jslice jProposal) (bs text) None = (joined chunks, None).
Proof.
  rewrite GetAllProposals_iff. split.
  - intros (policy & reqs0 & reqs & chunks & Hpol & Hw & Hf & -> & ->).
    exists policy, reqs0, reqs, chunks. split_and!; try done.
    apply (marshal_Decode (jslice jProposal)); [apply jpage_ok|by eapply walk_fits].
  - intros (policy & reqs0 & reqs & chunks & Hpol & Hw & Hf & -> & -> & _). eauto 10.
Qed.

(** C34. Reading all proposals terminates and loses none: from a server whose
    answers decode to pages of a list (a positive number of proposals each, each
    page after the token of the last proposal of the one before), the call
    returns after one request per full page and one more (and one for the
    policy, the first time), and what it returns is a JSON text that decodes to
    the whole list, each proposal once and in order. *)
Theorem GetAllProposals_complete (n : nat) (all : list Proposal) (fuel : nat) (p : Politeia) :
  server_lists web to_policy to_proposals n all → length all < fuel →
  serverPolicy p = None ∨ serverPolicy p = Some (mkPolicy (Z.of_nat n)) →
  ∃ text p', getAll fuel p = (Ok (Some text), p') ∧
    Decode_into (jslice jProposal) (bs text) None = (nonempty all, None) ∧
    length (requests p') = length (requests p) + (if serverPolicy p then 0 else 1) + S (length all / n).
Proof.
  intros Hsv Hf Hp.
  destruct (GetAllProposals_spec web read_error to_policy to_proposals to_text proposals_text
              n all fuel p Hsv Hf Hp) as (p' & Hr & _ & Hn).
  exists (proposals_text (nonempty all)), p'. split_and!; [done| |done].
  apply (marshal_Decode (jslice jProposal)); [apply jpage_ok|].
  assert (Hall : Forall (fits jProposal) all); [|by destruct all].
  apply Forall_lookup. intros i x Hi. destruct Hsv as [Hn0 _ Hfirst Hafter].
  destruct i as [|i].
  - destruct (Hfirst 0) as (b & _ & Hb). apply to_proposals_fits in Hb. cbn in Hb.
    rewrite Forall_lookup in Hb. apply (Hb 0). by rewrite lookup_take_lt.
  - destruct (lookup_lt_is_Some_2 all i) as [y Hy]; [apply lookup_lt_Some in Hi; lia|].
    destruct (Hafter i y Hy) as [_ Hrep]. destruct (Hrep 0) as (b & _ & Hb).
    apply to_proposals_fits in Hb. cbn in Hb. rewrite Forall_lookup in Hb. apply (Hb 0).
    rewrite lookup_take_lt, lookup_drop by lia. by rewrite Nat.add_0_r.
Qed.
End Proposals_json.

(** ** A server with two proposals, one to a page

    Fields in another order, fields that are not read, other case, spaces. *)
Definition unquoted (s : string) : bytes := (λ b, if Byte.eqb b x27 then x22 else b) <$> bs s.
Definition json_web (k : nat) (req : Request) : goerr + Response :=
  inr (mkResponse 200 (unquoted (
    if decide (Path req = "/api/v1/policy") then
      "{'mintitlelength':8,'proposallistpagesize':1} "
    else if decide (RawQuery req = "") then
      "{'proposals':[{'timestamp':1600000000,'Name':'first','votes':[1,{}],'files':[{'name':'a.md','mime':'text/plain'}],'censorshiprecord':{'merkle':'m','token':'t1'}}]}"
    else if decide (RawQuery req = "after=t1") then
      "{'proposals': [ {'name':'second','metadata':null,'censorshiprecord':{'token':'t2'}} ]}"
    else "{'proposals':[]}"))).
Definition json_first : Proposal :=
  mkProposal "first" 0 0 1600000000 "" "" "" "" 0 "" 0
    (Some [mkFile "a.md" "text/plain" "" ""]) None (mkRecord "t1" "m" "").
Definition json_second : Proposal :=
  mkProposal "second" 0 0 0 "" "" "" "" 0 "" 0 None None (mkRecord "t2" "" "").

Lemma json_server : server_lists json_web to_policy to_proposals 1 [json_first; json_second].
Proof.
  split.
  - lia.
  - intros k. eexists. split; [reflexivity|]. vm_compute. reflexivity.
  - intros k. eexists. split; [reflexivity|]. vm_compute. reflexivity.
  - intros i p Hi. do 2 (destruct i as [|i]; [injection Hi as <-; split;
      [done|intros k; eexists; split; [reflexivity|vm_compute; reflexivity]]|]). done.
Qed.

Lemma GetAllProposals_complete_witness :
  ∃ text p', GetAllProposals json_web (λ _, None) to_policy to_proposals to_text proposals_text 3
      newPoliteia = (Ok (Some text), p') ∧
    Decode_into (jslice jProposal) (bs text) None = (Some [json_first; json_second], None) ∧
    length (requests p') = 4.
Proof.
  apply (GetAllProposals_complete json_web (λ _, None) 1 [json_first; json_second] 3 newPoliteia).
  - apply json_server.
  - simpl. lia.
  - left. reflexivity.
Defined.

Lemma GetAllProposals_walks_witness :
  ∃ text p' chunks, GetAllProposals json_web (λ _, None) to_policy to_proposals to_text proposals_text 3
      newPoliteia = (Ok (Some text), p') ∧ serverPolicy p' = Some (mkPolicy 1) ∧
    Decode_into (jslice jProposal) (bs text) None = (joined chunks, None).
Proof.
  destruct (GetAllProposals json_web (λ _, None) to_policy to_proposals to_text proposals_text 3
              newPoliteia) as [[[text|]|e|] p'] eqn:E; try (vm_compute in E; discriminate E).
  destruct (proj1 (GetAllProposals_walks json_web (λ _, None) 3 newPoliteia p' text) E)
    as (policy & reqs0 & reqs & chunks & Hpol & _ & _ & Hp & _ & Hd).
  exists text, p', chunks. split; [reflexivity|]. split; [|exact Hd].
  vm_compute in E. injection E as _ <-. reflexivity.
Defined.
