(* ===== verification/Vsp.v ===== *)
(** * The reply of a voting service provider, from its text

    [CallVSPTicketInfoAPI] of ticket.go decodes the reply into a
    [map[string]interface{}], which [Ticket] takes as it is decoded; here it is
    read from the text. *)
From S2P Require Import Prelude Float Ticket Json JsonTypes JsonData.

(** Every number becomes a [float64] ([strconv.ParseFloat]; one out of its range
    is an error). *)
Section vsp.
Context (ParseFloat : bytes → option f64).

Fixpoint to_interface (j : json) : option Ticket.json :=
  match j with
  | JNull => Some Ticket.JNull
  | JBool _ => Some Ticket.JOther
  | JNum lit => Ticket.JNumber <$> ParseFloat lit
  | JStr s => Some (Ticket.JString (to_string s))
  | JArr l => (λ _, Ticket.JOther) <$> mapM to_interface l
  | JObj m => Ticket.JObject <$> mapM (λ kv, pair (to_string kv.1) <$> to_interface kv.2) m
  end.

Definition decode_reply (body : bytes) : goerr + Ticket.json :=
  match parse body with
  | inl err => inl err
  | inr j => match to_interface j with Some v => inr v | None => inl UnmarshalTypeError end
  end.

(** [client.Do] and the decoder, as [Ticket] takes them. *)
Definition vsp_post (Do : string → string → goerr + bytes) (url body : string) : Ticket.vsp_reply :=
  match Do url body with inl err => inl err | inr b => inr (decode_reply b) end.

(** What a provider that sells writes, perhaps with a message. *)
Definition vsp_text (message script : string) (fees : bytes) (pool ticket : string) : json :=
  JObj [(bs "status", JStr (bs "success")); (bs "message", JStr (bs message));
        (bs "data", JObj [(bs "PoolAddress", JStr (bs pool)); (bs "PoolFees", JNum fees);
                          (bs "Script", JStr (bs script)); (bs "TicketAddress", JStr (bs ticket))])].

Lemma to_string_bs (s : string) : to_string (bs s) = s.
Proof. apply String.string_of_list_byte_of_string. Qed.

(** The text of such a provider is read as the data it holds. *)
Theorem vsp_reply_read (Do : string → string → goerr + bytes) (host key message script pool ticket : string)
    (fees rest : bytes) (f : f64) :
  Forall (λ s, Valid (bs s) = true) [message; script; pool; ticket] → num_ok fees →
  ParseFloat fees = Some f → num_end rest →
  Do (Ticket.vsp_url host) (Ticket.vsp_body key) = inr (print (vsp_text message script fees pool ticket) ++ rest) →
  Ticket.CallVSPTicketInfoAPI (vsp_post Do) host key = Ok (Ticket.mkVSPInfo pool f script ticket).
Proof.
  intros Hv Hn Hf Hr Hdo. unfold Ticket.CallVSPTicketInfoAPI, vsp_post, decode_reply. rewrite Hdo.
  repeat (apply Forall_cons in Hv as [? Hv]).
  rewrite json_roundtrip; [|by split_and!|done]. cbn. rewrite Hf. cbn. unfold Ticket.vsp_info.
  cbn. by rewrite !to_string_bs.
Qed.
End vsp.
