(* ===== verification/Message.v ===== *)
(** * [message.go]: signing and verifying messages

    The library's wallet signs, and it must be unlocked for that: the caller's
    passphrase unlocks it until the deferred send on the channel of [Unlock],
    its timeout, locks it again, unless it was unlocked without a timeout
    before.  Addresses are values of an interface; the kinds that the
    type switches tell apart are [AddrKind]. *)
From S2P Require Import Prelude TxHelper Encoding Config Loader Wallet.

(** The dynamic type of an address; a public key hash knows its signature
    algorithm. *)
Inductive AddrKind := AddressSecpPubKey | AddressPubKeyHash (dsa : Z) | OtherAddress.
#[export] Instance AddrKind_eq_dec : EqDecision AddrKind.
Proof. solve_decision. Defined.

(** [dcrec.STEcdsaSecp256k1] *)
Definition STEcdsaSecp256k1 : Z := 0.
Definition ErrInvalidAddress : goerr := ENew "invalid_address".

(** Whether the wallet is unlocked, and if so, whether it is until a timeout. *)
Inductive Lock := Locked | UntilTimeout | Unlocked.

Class MessageLib (L Params Address : Type) := {
  addr_kind : Address → AddrKind;
  msg_Unlock : bytes → L → option goerr * L;
  msg_Relock : L → L;                        (* the channel given to Unlock fires *)
  msg_lock : L → Lock;
  lib_SignMessage : string → Address → L → goerr + bytes;
  lib_VerifyMessage : string → Address → bytes → Params → goerr + bool
}.

(** What the library documents of [Unlock]: a wrong passphrase locks the wallet;
    the right one unlocks it until the timeout, which is ignored if the wallet
    is unlocked without one.  A timeout that was not ignored locks. *)
Class MessageLibLaws (L Params Address : Type) `{!MessageLib L Params Address} := {
  msg_unlock_wrong p l e l' :
    msg_Unlock p l = (Some e, l') → is_kind KPassphrase e = true → msg_lock l' = Locked;
  msg_unlock_right p l l' :
    msg_Unlock p l = (None, l') →
    msg_lock l' = match msg_lock l with Unlocked => Unlocked | _ => UntilTimeout end;
  msg_relock l :
    msg_lock (msg_Relock l) = match msg_lock l with UntilTimeout => Locked | k => k end
}.

Section Message.
Context {L Params Address : Type} `{!TxLib Params Address, !MessageLib L Params Address}.
Context (chainParams : Params).

(** The type switch of both functions. *)
Definition signable (addr : Address) : option goerr :=
  match addr_kind addr with
  | AddressSecpPubKey => None
  | AddressPubKeyHash dsa => if decide (dsa ≠ STEcdsaSecp256k1) then Some ErrInvalidAddress else None
  | OtherAddress => Some ErrInvalidAddress
  end.

Definition sign_unlocked (address message : string) (l : L) : goerr + bytes :=
  match DecodeAddress address chainParams with
  | inl err => inl (translateError err)
  | inr addr =>
      match signable addr with
      | Some err => inl err
      | None =>
          match lib_SignMessage message addr l with
          | inl err => inl (translateError err)
          | inr sig => inr sig
          end
      end
  end.

(** The deferred send goes to a channel with room for it: after a failed
    [Unlock] nobody reads it. *)
Definition SignMessage (passphrase : bytes) (address message : string) (l : L)
    : (goerr + bytes) * L :=
  match msg_Unlock passphrase l with
  | (Some err, l) => (inl (translateError err), l)
  | (None, l) => (sign_unlocked address message l, msg_Relock l)
  end.

Definition VerifyMessage (address message signatureBase64 : string) : goerr + bool :=
  match DecodeAddress address chainParams with
  | inl err => inl (translateError err)
  | inr addr =>
      match DecodeBase64 signatureBase64 with
      | inl err => inl err
      | inr signature =>
          match signable addr with
          | Some err => inl err
          | None =>
              match lib_VerifyMessage message addr signature chainParams with
              | inl err => inl (translateError err)
              | inr valid => inr valid
              end
          end
      end
  end.

(** ** Theorems *)
Context `{!MessageLibLaws L Params Address}.

(** What the verifier of the library says about bytes. *)
Definition verdict (message : string) (addr : Address) (signature : bytes) : goerr + bool :=
  match lib_VerifyMessage message addr signature chainParams with
  | inl err => inl (translateError err)
  | inr valid => inr valid
  end.

(** An address with a secp256k1 key. *)
Definition has_key (address : string) (addr : Address) : Prop :=
  DecodeAddress address chainParams = inr addr ∧
  (addr_kind addr = AddressSecpPubKey ∨ addr_kind addr = AddressPubKeyHash STEcdsaSecp256k1).

Lemma signable_iff (addr : Address) :
  signable addr = None ↔
  addr_kind addr = AddressSecpPubKey ∨ addr_kind addr = AddressPubKeyHash STEcdsaSecp256k1.
Proof.
  clear. unfold signable. destruct (addr_kind addr) as [|dsa|].
  - split; by auto.
  - case_decide as Hd.
    + split; [done|]. intros [H|H]; [done|]. by injection H.
    + split; [|done]. intros _. right. f_equal. lia.
  - split; [done|]. intros [H|H]; done.
Qed.

Lemma sign_unlocked_iff (address message : string) (l : L) (sig : bytes) :
  sign_unlocked address message l = inr sig ↔
  ∃ addr, has_key address addr ∧ lib_SignMessage message addr l = inr sig.
Proof.
  clear. unfold sign_unlocked, has_key.
  destruct (DecodeAddress address chainParams) as [e|addr]; [naive_solver|].
  destruct (signable addr) as [e|] eqn:Ek.
  - split; [done|]. intros (? & [[= <-] Hk%signable_iff] & _). congruence.
  - apply signable_iff in Ek. destruct (lib_SignMessage message addr l) as [e|s] eqn:Es.
    + split; [done|]. intros (? & [[= <-] _] & ?). congruence.
    + split; [intros [= <-]; by exists addr|]. intros (? & [[= <-] _] & ?). congruence.
Qed.

(** Base64 with line breaks in it, for an address with a key. *)
Lemma VerifyMessage_sent (address message broken : string) (addr : Address) (sig : bytes) :
  has_key address addr → filter (λ c, ¬ line_end c) (bs broken) = Encode sig →
  VerifyMessage address message broken = verdict message addr sig.
Proof.
  clear. intros [Ha Hk%signable_iff] Hb. unfold VerifyMessage, verdict, DecodeBase64, Decode64.
  by rewrite Ha, Hb, base64_quanta, Hk.
Qed.

(** C39. Signing a message and verifying it.  When the passphrase does not unlock
    the wallet, the call fails with that error and does nothing else; a wrong
    one leaves the wallet locked.  Otherwise a signature comes back if and only
    if the address is one of this network with a secp256k1 key and the library
    signs the message for it while the wallet is unlocked; whatever comes back,
    the wallet is locked afterwards, unless it was unlocked without a timeout
    before, which it stays.  [VerifyMessage] of that address, that message and
    the signature in base64, perhaps broken into lines on the way, is what the
    library's verifier says about just this message, address and signature. *)
Theorem SignMessage_verifies (passphrase : bytes) (address message : string) (l l' : L)
    (r : goerr + bytes) :
  SignMessage passphrase address message l = (r, l') →
  match msg_Unlock passphrase l with
  | (Some e, l1) => r = inl (translateError e) ∧ l' = l1 ∧
      (is_kind KPassphrase e = true → msg_lock l' = Locked)
  | (None, l1) =>
      msg_lock l' = (match msg_lock l with Unlocked => Unlocked | _ => Locked end) ∧
      (∀ sig, r = inr sig ↔
         ∃ addr, has_key address addr ∧ lib_SignMessage message addr l1 = inr sig) ∧
      (∀ sig, r = inr sig → ∃ addr, has_key address addr ∧
         ∀ broken, filter (λ c, ¬ line_end c) (bs broken) = Encode sig →
           VerifyMessage address message broken = verdict message addr sig)
  end.
Proof.
  unfold SignMessage. destruct (msg_Unlock passphrase l) as [[e|] l1] eqn:Eu.
  { intros [= <- <-]. split_and!; [done..|]. by eapply msg_unlock_wrong. }
  intros [= <- <-]. split_and!.
  - rewrite msg_relock, (msg_unlock_right _ _ _ Eu). by destruct (msg_lock l).
  - intros sig. apply sign_unlocked_iff.
  - intros sig (addr & Hk & _)%sign_unlocked_iff. exists addr. split; [done|].
    intros broken. by apply VerifyMessage_sent.
Qed.

(** Addresses of other kinds, and texts that are no base64, are errors. *)
Theorem VerifyMessage_rejects (address message signatureBase64 : string) (addr : Address) :
  DecodeAddress address chainParams = inr addr →
  (∃ e, DecodeBase64 signatureBase64 = inl e) ∨ is_Some (signable addr) →
  ∃ e, VerifyMessage address message signatureBase64 = inl e.
Proof.
  intros Ha. unfold VerifyMessage. rewrite Ha.
  intros [[e ->]|[e He]]; [by eexists|]. destruct (DecodeBase64 _); [by eexists|].
  rewrite He. by eexists.
Qed.
End Message.

(** ** A toy wallet *)
Module ToyMessages.
#[export] Instance toy_tx : TxLib unit string := {|
  MsgTxFromHex _ := inl (ENew "no transaction");
  SerializeSize _ := 0%Z;
  TxFeeRate _ := (0, 0)%Z;
  DecodeAddress s _ := if decide (s = EmptyString) then inl (ENew "empty") else inr s;
  PayToAddrScript _ := inl (ENew "no script");
  ExtractAddrs _ _ _ := inr [];
  AddressString a := a |}.
(** A signature is the message with the address; the wallet starts locked, or
    unlocked without a timeout. *)
#[export] Instance toy_lib : MessageLib Lock unit string := {|
  addr_kind a := if decide (a = "script"%string) then OtherAddress else AddressPubKeyHash 0;
  msg_Unlock p l := if decide (p = bs "pass") then
                      (None, match l with Unlocked => Unlocked | _ => UntilTimeout end)
                    else (Some (EKind KPassphrase "wrong"), Locked);
  msg_Relock l := match l with UntilTimeout => Locked | k => k end;
  msg_lock l := l;
  lib_SignMessage m a l := match l with Locked => inl (ENew "locked") | _ => inr (bs m ++ bs a) end;
  lib_VerifyMessage m a sig _ := inr (bool_decide (sig = bs m ++ bs a)) |}.
#[export] Instance toy_laws : MessageLibLaws Lock unit string.
Proof.
  split; cbn.
  - intros p l e l'. by case_decide; intros [= _ <-].
  - intros p l l'. by case_decide; intros [= <-].
  - by intros [].
Qed.
End ToyMessages.
Import ToyMessages.

Lemma SignMessage_verifies_witness :
  SignMessage tt (bs "pass") "Ds1" "hello" Locked = (inr (bs "helloDs1"), Locked) ∧
  VerifyMessage (L := Lock) tt "Ds1" "hello" (EncodeBase64 (bs "helloDs1")) = inr true.
Proof.
  assert (H : SignMessage tt (bs "pass") "Ds1" "hello" Locked = (inr (bs "helloDs1"), Locked))
    by (vm_compute; reflexivity).
  split; [exact H|].
  destruct (SignMessage_verifies tt (bs "pass") "Ds1" "hello" Locked Locked (inr (bs "helloDs1")) H)
    as (_ & _ & Hsig).
  destruct (Hsig (bs "helloDs1") eq_refl) as (addr & [Ha _] & Hv). injection Ha as <-.
  rewrite Hv; [vm_compute; reflexivity|vm_compute; reflexivity].
Defined.
