(* ===== verification/Log.v ===== *)
(** * [log.go], [spv/log.go], [internal/loader/log.go]: loggers

    The variables of the packages: the loggers of the backend, the map of those
    by their tags, the rotator, and the [log] variable of each package that a
    logger is given to.  Levels, the names of levels and the text of a line are
    the logging library's. *)
From S2P Require Import Prelude.

Class Slog (Level : Type) := {
  LevelInfo : Level;
  level_eq_dec :: EqDecision Level;
  LevelFromString_ : string → option Level;
  enabled : Level → Level → bool;           (* level of the logger, of the message *)
  line : string → string → bytes            (* tag, message *)
}.

Section Log.
Context {Level R : Type} `{!Slog Level}.
(** [rotator.New(file, thresholdKB, tee, maxRolls)], and what it has written. *)
Context (rotator_New : string → Z → bool → Z → goerr + R).
(** The order in which a map is read. *)
Context (order : gmap string nat → list string).

(** A name that is no level is the info level, with [false]. *)
Definition LevelFromString (s : string) : Level * bool :=
  match LevelFromString_ s with Some l => (l, true) | None => (LevelInfo, false) end.

(** A logger is its index in [loggers]; a package without one is disabled. *)
Record LogState := mkLog {
  loggers : list (string * Level);
  subsystemLoggers : gmap string nat;
  logRotator : option R;
  package_log : gmap string nat;
  stdout : bytes; rotated : bytes
}.

Definition set_loggers (l : list (string * Level)) (s : LogState) : LogState :=
  mkLog l (subsystemLoggers s) (logRotator s) (package_log s) (stdout s) (rotated s).
Definition set_subsystem (m : gmap string nat) (s : LogState) : LogState :=
  mkLog (loggers s) m (logRotator s) (package_log s) (stdout s) (rotated s).

(** [backendLog.Logger(tag)] *)
Definition backendLogger (tag : string) : GM LogState nat := λ s,
  (Ok (length (loggers s)), set_loggers (loggers s ++ [(tag, LevelInfo)]) s).

(** [UseLogger] of a package, and [DisableLog] *)
Definition UseLogger (package : string) (logger : nat) (s : LogState) : LogState :=
  mkLog (loggers s) (subsystemLoggers s) (logRotator s) (<[package := logger]> (package_log s))
    (stdout s) (rotated s).
Definition DisableLog (package : string) (s : LogState) : LogState :=
  mkLog (loggers s) (subsystemLoggers s) (logRotator s) (delete package (package_log s))
    (stdout s) (rotated s).

(** The variables, in the order of their declarations: [log] is logger 0,
    [loaderLog] 1, [walletLog] 2, [tkbyLog] 3, [syncLog] 4 and so on. *)
Definition tags : list string :=
  ["DLWL"; "LODR"; "WLLT"; "TKBY"; "SYNC"; "GRPC"; "RPCS"; "CMGR"; "AMGR"]%string.
Definition initial : LogState :=
  mkLog ((λ t, (t, LevelInfo)) <$> tags) (list_to_map (zip tags (seq 0 9))) None ∅ [] [].

(** [init] of the loader's package, and of this one. *)
Definition init (s : LogState) : LogState :=
  foldl (λ s '(p, l), UseLogger p l s) (DisableLog "loader" s)
    [("loader", 1); ("wallet", 2); ("udb", 2); ("ticketbuyer", 3); ("spv", 4); ("p2p", 4);
     ("connmgr", 7); ("addrmgr", 8)]%string.

Definition initLogRotator (logFile : string) : GM LogState unit := λ s,
  match rotator_New logFile (10 * 1024) false 3 with
  | inl err => (Err (ENew "failed to create file rotator"), s)
  | inr r => (Ok tt, mkLog (loggers s) (subsystemLoggers s) (Some r) (package_log s)
                       (stdout s) (rotated s))
  end.

Definition ErrLogRotatorAlreadyInitialized : goerr :=
  EWrap KOther (ENew "log_rotator_already_initialized").
Definition ErrLoggerAlreadyRegistered : goerr := EWrap KOther (ENew "logger_already_registered").

Definition RegisterLogger (tag : string) : GM LogState nat :=
  let! s := getS in
  if decide (is_Some (logRotator s)) then fail ErrLogRotatorAlreadyInitialized
  else if decide (is_Some (subsystemLoggers s !! tag)) then fail ErrLoggerAlreadyRegistered
  else
    let! logger := backendLogger tag in
    modify (λ s, set_subsystem (<[tag := logger]> (subsystemLoggers s)) s) ;; ret logger.

(** [logger.SetLevel(level)] *)
Definition SetLevel (logger : nat) (level : Level) (s : LogState) : LogState :=
  set_loggers (alter (λ l, (l.1, level)) logger (loggers s)) s.

Definition setLogLevel (subsystemID logLevel : string) (s : LogState) : LogState :=
  match subsystemLoggers s !! subsystemID with
  | None => s
  | Some logger => SetLevel logger (LevelFromString logLevel).1 s
  end.

Definition SetLogLevels (logLevel : string) (s : LogState) : LogState :=
  if (LevelFromString logLevel).2 then
    foldl (λ s id, setLogLevel id logLevel s) s (order (subsystemLoggers s))
  else s.

(** [logWriter.Write]: without a rotator its method is called on a nil
    pointer. *)
Definition Write_ (p : bytes) : GM LogState unit := λ s,
  let s := mkLog (loggers s) (subsystemLoggers s) (logRotator s) (package_log s)
             (stdout s ++ p) (rotated s) in
  match logRotator s with
  | None => (Panic, s)
  | Some _ => (Ok tt, mkLog (loggers s) (subsystemLoggers s) (logRotator s) (package_log s)
                        (stdout s) (rotated s ++ p))
  end.

(** [logger.Info] *)
Definition Info (logger : nat) (m : string) : GM LogState unit := λ s,
  match loggers s !! logger with
  | Some (tag, level) => if enabled level LevelInfo then Write_ (line tag m) s else (Ok tt, s)
  | None => (Panic, s)
  end.

Definition Log (m : string) : GM LogState unit := Info 0 m.
Definition LogT (tag m : string) : GM LogState unit :=
  Info 0 (String.append tag (String.append ": " m)).

(** ** What callers do *)
Inductive log_call :=
| CRegister (tag : string)
| CInitRotator (logFile : string)
| CSetLevels (logLevel : string)
| CLog (m : string)
| CLogT (tag m : string).

Definition call (c : log_call) (s : LogState) : LogState :=
  match c with
  | CRegister tag => (RegisterLogger tag s).2
  | CInitRotator f => (initLogRotator f s).2
  | CSetLevels l => SetLogLevels l s
  | CLog m => (Log m s).2
  | CLogT tag m => (LogT tag m s).2
  end.

(** ** Theorems *)
Context (order_ok : ∀ m k, k ∈ order m ↔ is_Some (m !! k)).

(** The loggers and the map of them agree: every logger is registered, under its
    tag and no other. *)
Definition registered (s : LogState) : Prop :=
  ∀ id tag, (∃ lv, loggers s !! id = Some (tag, lv)) ↔ subsystemLoggers s !! tag = Some id.

Lemma initial_registered : registered (init initial).
Proof.
  intros id tag. unfold init, initial. cbn [foldl UseLogger DisableLog loggers subsystemLoggers].
  rewrite <- elem_of_list_to_map by (apply (bool_decide_unpack _); vm_compute; reflexivity).
  cbn. split.
  - intros [lv H]. do 9 (destruct id as [|id]; [injection H as <- _; set_solver|]). done.
  - intros H. repeat (apply elem_of_cons in H as [[= -> ->]|H]; [by eexists|]).
    by apply elem_of_nil in H.
Qed.

Lemma RegisterLogger_ok (tag : string) (n : nat) (s s' : LogState) :
  RegisterLogger tag s = (Ok n, s') ↔
  logRotator s = None ∧ subsystemLoggers s !! tag = None ∧ n = length (loggers s) ∧
  s' = set_subsystem (<[tag := n]> (subsystemLoggers s))
         (set_loggers (loggers s ++ [(tag, LevelInfo)]) s).
Proof.
  unfold RegisterLogger, bind, getS. case_decide as Hr; [split; [done|]|].
  { intros (H & _). rewrite H in Hr. by destruct Hr. }
  case_decide as Ht; [split; [done|]|].
  { intros (_ & H & _). rewrite H in Ht. by destruct Ht. }
  apply eq_None_not_Some in Hr, Ht. rewrite Hr, Ht. cbn. split; [by intros [= <- <-]|].
  by intros (_ & _ & -> & ->).
Qed.

Lemma registered_new (tag : string) (s : LogState) :
  registered s → subsystemLoggers s !! tag = None →
  registered (set_subsystem (<[tag := length (loggers s)]> (subsystemLoggers s))
                (set_loggers (loggers s ++ [(tag, LevelInfo)]) s)).
Proof.
  intros Hs Ht id t. cbn. destruct (decide (id = length (loggers s))) as [->|Hid].
  - rewrite list_lookup_middle by done. destruct (decide (t = tag)) as [->|Hne].
    + rewrite lookup_insert_eq. split; [done|]. intros _. by eexists.
    + rewrite lookup_insert_ne by done. split; [intros [lv [= <- _]]; done|].
      intros [lv H]%Hs. apply lookup_lt_Some in H. lia.
  - destruct (decide (id < length (loggers s))).
    + rewrite lookup_app_l by done. destruct (decide (t = tag)) as [->|Hne].
      * rewrite lookup_insert_eq. rewrite (Hs id tag), Ht. split; [done|congruence].
      * by rewrite lookup_insert_ne.
    + rewrite lookup_ge_None_2 by (rewrite length_app; cbn; lia). split; [by intros [? ?]|].
      destruct (decide (t = tag)) as [->|Hne]; [rewrite lookup_insert_eq; congruence|].
      rewrite lookup_insert_ne by done. intros [lv H]%Hs. apply lookup_lt_Some in H. lia.
Qed.

Lemma SetLevel_lookup (n id : nat) (lv : Level) (s : LogState) :
  loggers (SetLevel n lv s) !! id =
    if decide (n = id) then (λ l, (l.1, lv)) <$> loggers s !! id else loggers s !! id.
Proof.
  cbn. case_decide as E; [subst; by rewrite list_lookup_alter_eq|by rewrite list_lookup_alter_ne].
Qed.

Lemma registered_level (n : nat) (lv : Level) (s : LogState) : registered s → registered (SetLevel n lv s).
Proof.
  intros Hs id tag. rewrite SetLevel_lookup. cbn. rewrite <- (Hs id tag). case_decide; [|done].
  destruct (loggers s !! id) as [[t l]|]; cbn; split; intros [l1 H1]; simplify_eq; by eexists.
Qed.

(** Setting the levels of some tags sets those and no others. *)
Lemma set_levels_spec (ks : list string) (level : string) (lv : Level) (s : LogState) :
  registered s → LevelFromString_ level = Some lv →
  let s' := foldl (λ s id, setLogLevel id level s) s ks in
  subsystemLoggers s' = subsystemLoggers s ∧ registered s' ∧
  ∀ id tag l, loggers s !! id = Some (tag, l) →
    loggers s' !! id = Some (tag, if decide (tag ∈ ks) then lv else l).
Proof.
  intros Hs Hlv. revert s Hs. induction ks as [|k ks IH]; intros s Hs; [done|]. cbn [foldl].
  assert (H1 : subsystemLoggers (setLogLevel k level s) = subsystemLoggers s ∧
    registered (setLogLevel k level s) ∧
    ∀ id tag l, loggers s !! id = Some (tag, l) →
      loggers (setLogLevel k level s) !! id = Some (tag, if decide (tag = k) then lv else l)).
  { unfold setLogLevel, LevelFromString. rewrite Hlv.
    destruct (subsystemLoggers s !! k) as [n|] eqn:Ek; split_and!; try done.
    - by apply registered_level.
    - intros id tag l Hid. rewrite SetLevel_lookup, Hid. apply Hs in Ek as [l' Ek].
      assert (Hsub : subsystemLoggers s !! tag = Some id) by (apply Hs; by eexists).
      assert (Hk : subsystemLoggers s !! k = Some n) by (apply Hs; by eexists).
      repeat case_decide; simplify_eq; try done; congruence.
    - intros id tag l Hid. rewrite decide_False; [done|]. intros ->.
      assert (subsystemLoggers s !! k = Some id) by (apply Hs; by eexists). congruence. }
  destruct H1 as (Hsub & Hreg & Hl). destruct (IH _ Hreg) as (Hsub' & Hreg' & Hl').
  split_and!; [congruence|done|]. intros id tag l Hid.
  rewrite (Hl' _ _ _ (Hl _ _ _ Hid)). f_equal. f_equal.
  repeat case_decide; set_solver.
Qed.

Lemma loggers_tag (s : LogState) (id : nat) (tag : string) (l : Level) :
  registered s → loggers s !! id = Some (tag, l) → subsystemLoggers s !! tag = Some id.
Proof. intros Hs Hid. apply Hs. by eexists. Qed.

Lemma Info_loggers (n : nat) (m : string) (s : LogState) :
  loggers (Info n m s).2 = loggers s ∧ subsystemLoggers (Info n m s).2 = subsystemLoggers s.
Proof.
  unfold Info, Write_. destruct (loggers s !! n) as [[t l]|]; [|done]. cbn.
  destruct (enabled l LevelInfo); [|done]. by destruct (logRotator s).
Qed.

Lemma call_registered (c : log_call) (s : LogState) : registered s → registered (call c s).
Proof.
  intros Hs. destruct c as [tag|f|level|m|tag m]; cbn [call].
  - destruct (RegisterLogger tag s) as [r s'] eqn:E. cbn.
    destruct r as [n|e|].
    + apply RegisterLogger_ok in E as (_ & Ht & -> & ->). by apply registered_new.
    + revert E. unfold RegisterLogger, bind, getS. repeat case_decide; by intros [= _ <-].
    + revert E. unfold RegisterLogger, bind, getS. by repeat case_decide.
  - unfold initLogRotator. by destruct (rotator_New _ _ _ _).
  - unfold SetLogLevels, LevelFromString. destruct (LevelFromString_ level) as [lv|] eqn:E; [|done].
    by apply (set_levels_spec _ level lv).
  - unfold registered, Log. by destruct (Info_loggers 0 m s) as [-> ->].
  - unfold registered, LogT. generalize (String.append tag (String.append ": " m)). intros text.
    by destruct (Info_loggers 0 text s) as [-> ->].
Qed.

(** Every logger can be configured: whatever was registered, set and logged
    before, each logger of the backend is in the map under its own tag and no
    two share an entry, so that [SetLogLevels] with the name of a level sets all
    of them (those of other packages too) and keeps their tags; with another
    name it changes nothing. *)
Theorem levels_reach_all_loggers (calls : list log_call) (logLevel : string) :
  let s := foldl (λ s c, call c s) (init initial) calls in
  registered s ∧
  (∀ lv, LevelFromString_ logLevel = Some lv →
     loggers (SetLogLevels logLevel s) = (λ l, (l.1, lv)) <$> loggers s) ∧
  (LevelFromString_ logLevel = None → SetLogLevels logLevel s = s).
Proof using order_ok.
  intros s. assert (Hs : registered s).
  { subst s. generalize initial_registered. generalize (init initial) as s0.
    induction calls as [|c calls IH]; intros s0 Hs0; [done|]. by apply IH, call_registered. }
  clearbody s. split_and!; [done| |].
  - intros lv Hlv. unfold SetLogLevels, LevelFromString. rewrite Hlv. cbn [snd].
    destruct (set_levels_spec (order (subsystemLoggers s)) logLevel lv s Hs Hlv) as (_ & Hr & Hl).
    apply list_eq. intros id. rewrite list_lookup_fmap.
    destruct (loggers s !! id) as [[tag l]|] eqn:Hid; cbn.
    + rewrite (Hl _ _ _ Hid), decide_True; [done|]. apply order_ok.
      rewrite (loggers_tag s id tag l Hs Hid). by eexists.
    + (* no logger is made *)
      apply eq_None_not_Some. intros [[tag l] E].
      apply (loggers_tag _ _ _ _ Hr) in E.
      destruct (set_levels_spec (order (subsystemLoggers s)) logLevel lv s Hs Hlv) as (Hsub & _ & _).
      rewrite Hsub in E. apply Hs in E as [l' E]. congruence.
  - intros Hlv. unfold SetLogLevels, LevelFromString. by rewrite Hlv.
Qed.

(** A message of the enabled level panics until there is a rotator. *)
Theorem Log_needs_rotator (m : string) (s : LogState) (level : Level) :
  loggers s !! 0 = Some ("DLWL"%string, level) →
  ((Log m s).1 = Panic ↔ logRotator s = None ∧ enabled level LevelInfo = true) ∧
  ((Log m s).1 = Ok tt → enabled level LevelInfo = true →
     rotated (Log m s).2 = rotated s ++ line "DLWL" m ∧ stdout (Log m s).2 = stdout s ++ line "DLWL" m).
Proof.
  intros H0. unfold Log, Info. rewrite H0. unfold Write_. cbn.
  destruct (enabled level LevelInfo), (logRotator s); cbn; naive_solver.
Qed.
End Log.

(** ** Levels as numbers *)
#[export] Instance toy_slog : Slog nat := {|
  LevelInfo := 2;
  LevelFromString_ s := if decide (s = "debug"%string) then Some 1
                        else if decide (s = "info"%string) then Some 2 else None;
  enabled logger message := logger <=? message;
  line tag m := bs tag ++ bs m |}.

Lemma keys_ok (m : gmap string nat) (k : string) : k ∈ (map_to_list m).*1 ↔ is_Some (m !! k).
Proof.
  rewrite list_elem_of_fmap. split.
  - intros ([k' v] & -> & H%elem_of_map_to_list). by exists v.
  - intros [v H%elem_of_map_to_list]. by exists (k, v).
Qed.

Lemma levels_reach_all_loggers_witness :
  let s := foldl (λ s c, call (R := unit) (λ _ _ _ _, inr tt) (λ m, (map_to_list m).*1) c s)
             (init initial) [CRegister "MINE"; CInitRotator "x.log"; CRegister "LATE"; CLog "m"] in
  (loggers (SetLogLevels (λ m, (map_to_list m).*1) "debug" s)).*2 = replicate 10 1.
Proof.
  intros s. destruct (levels_reach_all_loggers (λ _ _ _ _, inr tt) (λ m, (map_to_list m).*1)
    keys_ok [CRegister "MINE"; CInitRotator "x.log"; CRegister "LATE"; CLog "m"]
    "debug") as (_ & H & _).
  transitivity (((λ l, (l.1, 1)) <$> loggers s).*2); [|vm_compute; reflexivity].
  exact (f_equal (λ l, l.*2) (H 1 eq_refl)).
Defined.
