(* ===== verification/Words.v ===== *)
(** * [wordlist.go]: the words of seeds

    The constant is copied line by line.  A word stands for a byte: the words of
    even lines for bytes at even places of a seed, those of odd lines for bytes
    at odd places. *)
From S2P Require Import Prelude Encoding Json JsonTypes.

Definition words_1 : string :=
"aardvark
adroitness
absurd
adviser
accrue
aftermath
acme
aggregate
adrift
alkali
adult
almighty
afflict
amulet
ahead
amusement
aimless
antenna
Algol
applicant
allow
Apollo
alone
armistice
ammo
article
ancient
asteroid
apple
Atlantic
artist
atmosphere
assume
autopsy
Athens
Babylon
atlas
backwater
Aztec
barbecue
baboon
belowground
backfield
bifocals
backward
bodyguard
banjo
bookseller
beaming
borderline
bedlamp
bottomless
beehive
Bradbury
beeswax
bravado
befriend
Brazilian
Belfast
breakaway
berserk
Burlington
billiard
businessman
bison
butterfat
blackjack
Camelot
blockade
candidate
blowtorch
cannonball
bluebird
Capricorn
bombast
caravan
bookshelf
caretaker
brackish
celebrate
breadline
cellulose
breakup
certify
brickyard
chambermaid
briefcase
Cherokee
Burbank
Chicago
button
clergyman
buzzard
coherence
cement
combustion
chairlift
commando
chatter
company
checkup
component
chisel
concurrent
choking
confidence
chopper
conformist
Christmas
congregate
clamshell
consensus
classic
consulting
classroom
corporate
cleanup
corrosion
clockwork
councilman
cobra
crossover
commence
crucifix
concert
cumbersome
cowbell
customer
".

Definition words_2 : string :=
"crackdown
Dakota
cranky
decadence
crowfoot
December
crucial
decimal
crumpled
designing
crusade
detector
cubic
detergent
dashboard
determine
deadbolt
dictator
deckhand
dinosaur
dogsled
direction
dragnet
disable
drainage
disbelief
dreadful
disruptive
drifter
distortion
dropper
document
drumbeat
embezzle
drunken
enchanting
Dupont
enrollment
dwelling
enterprise
eating
equation
edict
equipment
egghead
escapade
eightball
Eskimo
endorse
everyday
endow
examine
enlist
existence
erase
exodus
escape
fascinate
exceed
filament
eyeglass
finicky
eyetooth
forever
facial
fortitude
fallout
frequency
flagpole
gadgetry
flatfoot
Galveston
flytrap
getaway
fracture
glossary
framework
gossamer
freedom
graduate
frighten
gravity
gazelle
guitarist
Geiger
hamburger
glitter
Hamilton
glucose
handiwork
goggles
hazardous
goldfish
headwaters
gremlin
hemisphere
guidance
hesitate
hamlet
hideaway
highchair
holiness
hockey
hurricane
indoors
hydraulic
indulge
impartial
inverse
impetus
involve
inception
island
indigo
jawbone
inertia
keyboard
infancy
kickoff
inferno
kiwi
informant
klaxon
insincere
locale
insurgent
lockup
integrate
".

Definition words_3 : string :=
"merit
intention
minnow
inventive
miser
Istanbul
Mohawk
Jamaica
mural
Jupiter
music
leprosy
necklace
letterhead
Neptune
liberty
newborn
maritime
nightbird
matchmaker
Oakland
maverick
obtuse
Medusa
offload
megaton
optic
microscope
orca
microwave
payday
midsummer
peachy
millionaire
pheasant
miracle
physique
misnomer
playhouse
molasses
Pluto
molecule
preclude
Montana
prefer
monument
preshrunk
mosquito
printer
narrative
prowler
nebula
pupil
newsletter
puppy
Norwegian
python
October
quadrant
Ohio
quiver
onlooker
quota
opulent
ragtime
Orlando
ratchet
outfielder
rebirth
Pacific
reform
pandemic
regain
Pandora
reindeer
paperweight
rematch
paragon
repay
paragraph
retouch
paramount
revenge
passenger
reward
pedigree
rhythm
Pegasus
ribcage
penetrate
ringbolt
perceptive
robust
performance
rocker
pharmacy
ruffled
phonetic
sailboat
photograph
sawdust
pioneer
scallion
pocketful
scenic
politeness
scorecard
positive
Scotland
potato
seabird
processor
select
provincial
sentence
proximate
shadow
puberty
shamrock
publisher
showgirl
pyramid
skullcap
quantity
skydive
racketeer
slingshot
rebellion
".

Definition words_4 : string :=
"slowdown
recipe
snapline
recover
snapshot
repellent
snowcap
replica
snowslide
reproduce
solo
resistor
southward
responsive
soybean
retraction
spaniel
retrieval
spearhead
retrospect
spellbind
revenue
spheroid
revival
spigot
revolver
spindle
sandalwood
spyglass
sardonic
stagehand
Saturday
stagnate
savagery
stairway
scavenger
standard
sensation
stapler
sociable
steamship
souvenir
sterling
specialist
stockman
speculate
stopwatch
stethoscope
stormy
stupendous
sugar
supportive
surmount
surrender
suspense
suspicious
sweatband
sympathy
swelter
tambourine
tactics
telephone
talon
therapist
tapeworm
tobacco
tempest
tolerance
tiger
tomorrow
tissue
torpedo
tonic
tradition
topmost
travesty
tracker
trombonist
transit
truncated
trauma
typewriter
treadmill
ultimate
Trojan
undaunted
trouble
underfoot
tumor
unicorn
tunnel
unify
tycoon
universe
uncut
unravel
unearth
upcoming
unwind
vacancy
uproot
vagabond
upset
vertigo
upshot
Virginia
vapor
visitor
village
vocalist
virus
voyager
Vulcan
warranty
waffle
Waterloo
wallet
whimsical
watchword
Wichita
wayside
Wilmington
willow
Wyoming
woodlark
yesteryear
Zulu
Yucatan".

Definition AlternatingWords : string :=
  String.append words_1 (String.append words_2 (String.append words_3 words_4)).

(** [strings.Split] at a separator of one byte *)
Fixpoint Split (s : bytes) (sep : byte) : list bytes :=
  match s with
  | [] => [[]]
  | b :: s =>
      if Byte.eqb b sep then [] :: Split s sep
      else match Split s sep with
           | [] => [[b]]
           | part :: parts => (b :: part) :: parts
           end
  end.

Definition PGPWordList : list bytes := Split (bs AlternatingWords) x0a.

(** ** Theorems *)

(** [strings.Join] *)
Fixpoint Join (parts : list bytes) (sep : byte) : bytes :=
  match parts with
  | [] => []
  | [part] => part
  | part :: parts => part ++ sep :: Join parts sep
  end.

Lemma Split_nonempty (s : bytes) (sep : byte) : Split s sep ≠ [].
Proof. destruct s as [|b s]; [done|]. cbn. destruct (Byte.eqb b sep); [done|]. by destruct (Split s sep). Qed.

Lemma Split_Join (s : bytes) (sep : byte) : Join (Split s sep) sep = s.
Proof.
  induction s as [|b s IH]; [done|]. cbn [Split]. pose proof (Split_nonempty s sep) as Hne.
  destruct (Byte.eqb b sep) eqn:E.
  - apply Byte.byte_dec_bl in E as ->. destruct (Split s sep); [done|]. cbn in *. by rewrite IH.
  - destruct (Split s sep) as [|part [|part' parts]]; [done|..]; cbn in *; by rewrite IH.
Qed.

(** A letter: the words have no spaces, digits or marks. *)
Definition letter (b : byte) : bool := in_range 65 90 b || in_range 97 122 b.
(** What a reader types of a word, in any case. *)
Definition folded (w : bytes) : bytes := lower <$> w.

Fixpoint begins (p w : bytes) : bool :=
  match p, w with
  | [], _ => true
  | a :: p, b :: w => Byte.eqb a b && begins p w
  | _ :: _, [] => false
  end.
Fixpoint none_begins (ws : list bytes) : bool :=
  match ws with
  | [] => true
  | w :: ws => forallb (λ w', negb (begins w w' || begins w' w)) ws && none_begins ws
  end.

Lemma begins_prefix (p w : bytes) : p `prefix_of` w → begins p w = true.
Proof.
  intros [r ->]. induction p as [|b p IH]; [done|]. cbn. rewrite IH, andb_true_r.
  by apply Byte.byte_dec_lb.
Qed.

Lemma none_begins_spec (ws : list bytes) (i j : nat) (w w' : bytes) :
  none_begins ws = true → ws !! i = Some w → ws !! j = Some w' → w `prefix_of` w' → i = j.
Proof.
  revert i j. induction ws as [|x ws IH]; intros i j Hn Hi Hj Hp; [done|].
  cbn in Hn. apply andb_true_iff in Hn as [Hx Hn]. rewrite forallb_forall in Hx.
  assert (Hnot : ∀ y, y ∈ ws → begins x y = false ∧ begins y x = false).
  { intros y Hy. apply list_elem_of_In, Hx in Hy. by apply negb_true_iff, orb_false_iff in Hy. }
  apply begins_prefix in Hp as Hb. destruct i as [|i], j as [|j]; cbn in Hi, Hj; simplify_eq.
  - done.
  - destruct (Hnot w') as [Hf _]; [by eapply list_elem_of_lookup_2|]. congruence.
  - destruct (Hnot w) as [_ Hf]; [by eapply list_elem_of_lookup_2|]. congruence.
  - f_equal. by eapply IH.
Qed.

(** The word list is what a seed needs: 512 words, two for each byte, of 4 to
    11 letters and nothing else, which make up the constant again when joined by
    line ends; and no word is another one or the beginning of one, whatever the
    case of the letters, so that a typed word has at most one place in the list
    and a prefix that is a word needs no completion. *)
Theorem words_unambiguous :
  length PGPWordList = 2 * 256 ∧
  Forall (λ w, 4 ≤ length w ≤ 11 ∧ forallb letter w = true) PGPWordList ∧
  Join PGPWordList x0a = bs AlternatingWords ∧
  ∀ i j w w', PGPWordList !! i = Some w → PGPWordList !! j = Some w' →
    folded w `prefix_of` folded w' → i = j.
Proof.
  split_and!.
  - vm_compute. reflexivity.
  - assert (H : forallb (λ w, (4 <=? length w) && (length w <=? 11) && forallb letter w) PGPWordList = true)
      by (vm_compute; reflexivity).
    apply List.Forall_forall. intros w Hw. rewrite forallb_forall in H. specialize (H w Hw).
    apply andb_true_iff in H as [[H1%Nat.leb_le H2%Nat.leb_le]%andb_true_iff H3]. done.
  - apply Split_Join.
  - assert (H : none_begins (folded <$> PGPWordList) = true) by (vm_compute; reflexivity).
    intros i j w w' Hi Hj Hp. apply (none_begins_spec _ i j (folded w) (folded w') H); [| |done].
    + by rewrite list_lookup_fmap, Hi.
    + by rewrite list_lookup_fmap, Hj.
Qed.
