(* ===== verification/NewMulti.v ===== *)
(** * [NewMultiWallet]: the multiwallet of a directory

    The call of multiwallet.go that the app makes first, over what a process
    shares: the wallets databases by their paths with the locks on them, the
    directories, the loggers, and the goroutines that wait for a shutdown.  It
    composes the parts of the other files: the network's parameters
    ([TxHelper]), the log ([Log]), preparing the saved wallets ([MultiWallet]),
    the user configuration ([Config]), the listeners of a shutdown
    ([Shutdown]).  The lines that log errors are left out. *)
From stdpp Require Import functions.
From S2P Require Import Prelude TxHelper Decode TxIndex Loader Config Wallet MultiWallet Shutdown Log.

Definition logFileName : string := "dcrlibwallet.log".
Definition walletsDbName : string := "wallets.db".
Definition ErrWalletDatabaseInUse : goerr := EWrap KOther (ENew "wallet_db_in_use").

Section NewMulti.
Context {D Val W S Level R : Type}.
Context `{!WalletTable D, !KvStore D Val, !Internal W, !Storm S, !Slog Level}.
Abbreviation wallet := (Wallet W S).
Abbreviation mw_state := (MW (D := D) (W := W) (S := S)).
(** The networks; the rotator; the codec of strings; an empty database; what
    the storage does for [Init(&Wallet{})] and for all records by their ids. *)
Context (mainnet testnet : string) (defaultFeePerKb DefaultAccountGapLimit : Z).
Context (rotator_New : string → Z → bool → Z → goerr + R).
Context (order : gmap string nat → list string).
Context (string_c : Codec Val string) (empty_db : D).
Context (wt_init : D → option goerr * D) (wt_all : D → goerr + list WalletInfo).

Record Proc := mkProc {
  dbs : gmap string D;                  (* the databases on disk *)
  open_dbs : gset string;               (* those this process has open: they are locked *)
  dirs : gset string;
  logs : LogState (Level := Level) (R := R);
  shutdowns : Shutdown.St
}.
Definition set_dbs (m : gmap string D) (l : gset string) (p : Proc) : Proc :=
  mkProc m l (dirs p) (logs p) (shutdowns p).
Definition set_dirs (d : gset string) (p : Proc) : Proc :=
  mkProc (dbs p) (open_dbs p) d (logs p) (shutdowns p).
Definition set_logs (l : LogState) (p : Proc) : Proc :=
  mkProc (dbs p) (open_dbs p) (dirs p) l (shutdowns p).
Definition set_shutdowns (s : Shutdown.St) (p : Proc) : Proc :=
  mkProc (dbs p) (open_dbs p) (dirs p) (logs p) s.

Definition on_logs {A} (m : GM LogState A) : GM Proc A := λ p,
  let '(r, l) := m (logs p) in (r, set_logs l p).

(** How the calls on files end; [n_index] and what follows are for [prepare] of
    each wallet: the file system of its index and what its loader finds. *)
Record NewFaults := mkNew {
  n_mkdir : option goerr; n_open : option goerr;
  n_index : Z → IOFaults; n_files : Z → FS (S := S); n_loader : Z → Loader.St (W := unit)
}.
Context (io : NewFaults).

(** [storm.Open]: a database that is open already is locked; one that is not
    there is created. *)
Definition storm_Open (path : string) : GM Proc D := λ p,
  match n_open io with
  | Some err => (Err err, p)
  | None =>
      if decide (path ∈ open_dbs p) then (Err ErrTimeout, p)
      else
        let d := default empty_db (dbs p !! path) in
        (Ok d, set_dbs (<[path := d]> (dbs p)) ({[path]} ∪ open_dbs p) p)
  end.

Definition make_dir (path : string) : GM Proc unit := λ p,
  match n_mkdir io with
  | Some _ => (Err (ENew "failed to create rootDir"), p)
  | None => (Ok tt, set_dirs ({[path]} ∪ dirs p) p)
  end.

(** The database of the path, after a write to it. *)
Definition init_db (path : string) (d : D) : GM Proc D := λ p,
  match wt_init d with
  | (Some err, d) => (Err err, set_dbs (<[path := d]> (dbs p)) (open_dbs p) p)
  | (None, d) => (Ok d, set_dbs (<[path := d]> (dbs p)) (open_dbs p) p)
  end.

(** Every wallet that is prepared starts its goroutine, also when a later one
    fails. *)
Definition prepared (saved : list WalletInfo) (mw : mw_state) : list WalletInfo :=
  filter (λ i, is_Some (wallets mw !! ID i)) saved.
Definition start_listeners (l : list WalletInfo) (p : Proc) : Proc :=
  set_shutdowns (foldl (λ s i, listenForShutdown (Some (ID i)) s) (shutdowns p) l) p.

Definition load_wallets (saved : list WalletInfo) (mw : mw_state) : GM Proc mw_state := λ p,
  let '(r, mw) := prepare_all defaultFeePerKb DefaultAccountGapLimit (n_index io) (n_files io)
                    (n_loader io) saved mw in
  (match r with Ok _ => Ok mw | Err e => Err e | Panic => Panic end,
   start_listeners (prepared saved mw) p).

Definition all_saved (d : D) : GM Proc (list WalletInfo) :=
  match wt_all d with
  | inl err => if decide (err ≠ ErrNotFound) then fail err else ret []
  | inr saved => ret saved
  end.

(** The steps after the database is open. *)
Definition after_open (rootDir dbDriver chainParams db_path : string) (d : D) : GM Proc mw_state :=
  let! d := init_db db_path d in
  let! saved := all_saved d in
  let! mw := load_wallets saved (mkMW rootDir dbDriver chainParams d ∅ ∅ false false) in
  modify (λ p, set_shutdowns (listenForShutdown None (shutdowns p)) p) ;;
  modify (λ p, set_logs (SetLogLevels order (ReadStringConfigValueForKey string_c LogLevelConfigKey d)
                          (logs p)) p) ;;
  on_logs (Log (String.append "Loaded " (String.append (Itoa (LoadedWalletsCount mw)) " wallets"))) ;;
  ret mw.

(** Opening the database, and what follows. *)
Definition open_and_load (rootDir dbDriver chainParams db_path : string) : GM Proc mw_state :=
  let! r := try (storm_Open db_path) in
  match r with
  | inl err =>
      if decide (err = ErrTimeout) then fail ErrWalletDatabaseInUse
      else fail (ENew "error opening wallets database")
  | inr d => after_open rootDir dbDriver chainParams db_path d
  end.

(** [filepath.Join] of names without a slash at their ends. *)
Definition NewMultiWallet (rootDir dbDriver netType : string) : GM Proc mw_state :=
  match ChainParams id mainnet testnet netType with
  | inl err => fail err
  | inr chainParams =>
      let rootDir := Join rootDir netType in
      make_dir rootDir ;;
      let! r := try (on_logs (initLogRotator rotator_New (Join rootDir logFileName))) in
      match r with
      | inl _ => fail (ENew "failed to init logRotator")
      | inr _ => open_and_load rootDir dbDriver chainParams (Join rootDir walletsDbName)
      end
  end.
Definition db_path (rootDir netType : string) : string := Join (Join rootDir netType) walletsDbName.

(** ** Theorems *)

Definition saved_wallet (i : WalletInfo) (x : wallet) : Prop :=
  info x = i ∧ internal x = None ∧ is_Some (txDB x).

Lemma prepare_in_ok (s : mw_state) (txio : IOFaults) (fs : FS) (w w' : wallet) :
  prepare_in defaultFeePerKb DefaultAccountGapLimit s txio fs w = (Ok tt, w') →
  info w' = info w ∧ internal w' = internal w ∧ is_Some (txDB w').
Proof.
  unfold prepare_in, prepare. destruct (Initialize txio fs) as [[[]|e|] fs']; try done.
  intros [= <-]. cbn. by split_and!.
Qed.

Lemma prepare_all_ok (txio : Z → IOFaults) (fs : Z → FS) (l : Z → Loader.St) (saved : list WalletInfo)
    (s s' : mw_state) :
  prepare_all defaultFeePerKb DefaultAccountGapLimit txio fs l saved s = (Ok tt, s') →
  NoDup (ID <$> saved) →
  rootDir s' = rootDir s ∧ params s' = params s ∧ mdb s' = mdb s ∧
  (∀ i, i ∈ saved → ∃ x, wallets s' !! ID i = Some x ∧ saved_wallet i x) ∧
  (∀ k, k ∉ ID <$> saved → wallets s' !! k = wallets s !! k).
Proof.
  revert s. induction saved as [|i saved IH]; intros s; cbn [prepare_all].
  { intros [= <-] _. split_and!; try done. intros i Hi. by apply elem_of_nil in Hi. }
  destruct (prepare_in _ _ _ _ _ _) as [[[]|e|] w] eqn:E; try done.
  intros Hall [Hi Hnd]%NoDup_cons. apply prepare_in_ok in E as (Hinfo & Hint & Htx).
  destruct (IH _ Hall Hnd) as (H1 & H2 & H3 & H4 & H5). cbn in *. split_and!; [done..| |].
  - intros j [->|Hj]%elem_of_cons; [|by apply H4]. exists w. rewrite H5 by done.
    rewrite lookup_insert_eq. by split_and!.
  - intros k Hk. apply not_elem_of_cons in Hk as [Hk1 Hk2]. rewrite H5 by done.
    by rewrite lookup_insert_ne.
Qed.

Lemma start_listeners_owner (l : list WalletInfo) (p : Proc) (o : Owner) :
  listener (shutdowns (start_listeners l p)) o =
    if decide (o ∈ Some ∘ ID <$> l) then Listening else listener (shutdowns p) o.
Proof.
  unfold start_listeners, set_shutdowns. cbn [shutdowns]. generalize (shutdowns p) as s. clear p.
  induction l as [|i l IH]; intros s; cbn [foldl].
  { rewrite decide_False; [done|]. by intros ?%elem_of_nil. }
  rewrite IH. cbn [listener listenForShutdown]. cbn [fmap list_fmap compose].
  destruct (decide (o = Some (ID i))) as [->|Ho].
  - rewrite (decide_True (P := Some (ID i) ∈ _ :: _)) by apply elem_of_cons, or_introl, eq_refl.
    rewrite fn_lookup_insert. by case_decide.
  - rewrite fn_lookup_insert_ne by done. repeat case_decide; set_solver.
Qed.

(** The laws of the two calls of the storage. *)
Context (init_view : ∀ d, wt_view (wt_init d).2 = wt_view d).
Context (all_ids : ∀ d l, wt_all d = inr l → NoDup (ID <$> l) ∧
  ∀ k i, wt_view d !! k = Some i ↔ i ∈ l ∧ ID i = k).
Context (all_none : ∀ d, wt_all d = inl ErrNotFound → wt_view d = ∅).

Lemma all_saved_ok (d : D) (p p' : Proc) (l : list WalletInfo) :
  all_saved d p = (Ok l, p') →
  p' = p ∧ NoDup (ID <$> l) ∧ ∀ k i, wt_view d !! k = Some i ↔ i ∈ l ∧ ID i = k.
Proof using all_ids all_none.
  unfold all_saved. destruct (wt_all d) as [e|l'] eqn:E.
  - case_decide as He; [done|]. subst e. intros [= <- <-].
    split_and!; [done|by constructor|]. intros k i. rewrite (all_none d E), lookup_empty.
    split; [done|]. by intros [?%elem_of_nil _].
  - intros [= <- <-]. split; [done|]. by apply all_ids.
Qed.

(** What [mw] holds of the records of a database. *)
Definition loaded_all (d : D) (mw : mw_state) : Prop :=
  ∀ k, match wallets mw !! k, wt_view d !! k with
       | Some x, Some i => saved_wallet i x ∧ ID i = k
       | None, None => True
       | _, _ => False
       end.

Lemma load_wallets_ok (d : D) (l : list WalletInfo) (mw0 mw : mw_state) (p p' : Proc) :
  NoDup (ID <$> l) → (∀ k i, wt_view d !! k = Some i ↔ i ∈ l ∧ ID i = k) → wallets mw0 = ∅ →
  load_wallets l mw0 p = (Ok mw, p') →
  loaded_all d mw ∧ mdb mw = mdb mw0 ∧ rootDir mw = rootDir mw0 ∧ params mw = params mw0 ∧
  dbs p' = dbs p ∧ open_dbs p' = open_dbs p ∧ logs p' = logs p ∧
  (∀ k, is_Some (wallets mw !! k) → listener (shutdowns p') (Some k) = Listening).
Proof.
  intros Hnd Hview H0. unfold load_wallets.
  destruct (prepare_all _ _ _ _ _ _ _) as [[[]|e|] mw1] eqn:E; try done. intros [= <- <-].
  apply prepare_all_ok in E as (Hr & Hp & Hd & Hin & Hout); [|done].
  assert (Hall : loaded_all d mw1).
  { intros k. destruct (wt_view d !! k) as [i|] eqn:Ek.
    - apply Hview in Ek as [Hi <-]. destruct (Hin i Hi) as (x & -> & Hx). by split.
    - destruct (wallets mw1 !! k) as [x|] eqn:Ex; [|done].
      destruct (decide (k ∈ ID <$> l)) as [Hk|Hk].
      + apply list_elem_of_fmap in Hk as (i & -> & Hi).
        assert (wt_view d !! ID i = Some i) by (by apply Hview). congruence.
      + rewrite Hout, H0, lookup_empty in Ex by done. done. }
  split_and!; try done. intros k Hk. rewrite start_listeners_owner, decide_True; [done|].
  specialize (Hall k). destruct Hk as [x Hx]. rewrite Hx in Hall.
  destruct (wt_view d !! k) as [i|] eqn:Ek; [|done]. apply Hview in Ek as [Hi <-].
  apply list_elem_of_fmap. exists i. split; [done|]. apply list_elem_of_filter.
  split; [by eexists|done].
Qed.

Lemma after_open_locked (rootDir dbDriver chainParams db_path : string) (d : D) (p p' : Proc) r :
  after_open rootDir dbDriver chainParams db_path d p = (r, p') → open_dbs p' = open_dbs p.
Proof.
  unfold after_open, bind, init_db, all_saved, load_wallets, on_logs, modify, ret, fail.
  destruct (wt_init d) as [[e|] d1]; [by intros [= _ <-]|].
  destruct (wt_all d1) as [e|l]; [case_decide; [by intros [= _ <-]|]|];
    destruct (prepare_all _ _ _ _ _ _ _) as [[[]|e1|] mw]; try by intros [= _ <-].
  all: destruct (Log _ _) as [[[]|e1|] lg]; by intros [= _ <-].
Qed.

Lemma after_open_ok (rootDir dbDriver chainParams db_path : string) (d : D) (p p' : Proc) (mw : mw_state) :
  after_open rootDir dbDriver chainParams db_path d p = (Ok mw, p') →
  dbs p' !! db_path = Some (mdb mw) ∧ wt_view (mdb mw) = wt_view d ∧
  loaded_all (mdb mw) mw ∧ params mw = chainParams ∧
  listener (shutdowns p') None = Listening ∧
  (∀ k, is_Some (wallets mw !! k) → listener (shutdowns p') (Some k) = Listening).
Proof using All.
  unfold after_open. unfold bind at 1, init_db.
  pose proof (init_view d) as Hv. destruct (wt_init d) as [[e|] d1]; [done|]. cbn in Hv.
  unfold bind at 1. destruct (all_saved d1 _) as [[l|e|] p1] eqn:Ea; try done.
  apply all_saved_ok in Ea as (-> & Hnd & Hl).
  unfold bind at 1. destruct (load_wallets l _ _) as [[mw1|e|] p2] eqn:El; try done.
  apply (load_wallets_ok d1) in El as (Hall & Hd & Hr & Hp & Hdbs & Ho & Hlg & Hli); [|done..].
  unfold bind, modify, on_logs, ret. cbn.
  destruct (Log _ _) as [[[]|e|] lg]; try done. intros [= -> <-]. cbn in *. rewrite Hd.
  split_and!; try done. rewrite Hdbs. by rewrite lookup_insert_eq.
Qed.


Lemma open_and_load_cases (root drv net path : string) (p p' : Proc) (r : outcome mw_state) :
  open_and_load root drv net path p = (r, p') →
  (∃ e, r = Err e ∧ p' = p) ∨
  (path ∉ open_dbs p ∧ open_dbs p' = {[path]} ∪ open_dbs p ∧
   ∀ mw, r = Ok mw →
     dbs p' !! path = Some (mdb mw) ∧ wt_view (mdb mw) = wt_view (default empty_db (dbs p !! path)) ∧
     loaded_all (mdb mw) mw ∧ params mw = net ∧ listener (shutdowns p') None = Listening ∧
     (∀ k, is_Some (wallets mw !! k) → listener (shutdowns p') (Some k) = Listening)).
Proof using All.
  unfold open_and_load, bind at 1, try, storm_Open. destruct (n_open io) as [e|].
  { case_decide; intros [= <- <-]; left; by eexists. }
  case_decide as Hl.
  { rewrite decide_True by done. intros [= <- <-]. left. by eexists. }
  intros H. right. split; [done|]. split; [exact (after_open_locked _ _ _ _ _ _ _ _ H)|].
  intros mw ->. destruct (after_open_ok _ _ _ _ _ _ _ _ H) as (H1 & H2 & H3 & H4 & H5 & H6).
  by split_and!.
Qed.
End NewMulti.

Section Proc_theorems.
Context {D Val W S Level R : Type}.
Context `{!WalletTable D, !KvStore D Val, !Internal W, !Storm S, !Slog Level}.
Context (mainnet testnet : string) (fee gap : Z).
Context (order : gmap string nat → list string).
Context (string_c : Codec Val string) (empty_db : D).
Context (wt_init : D → option goerr * D) (wt_all : D → goerr + list WalletInfo).
Context (init_view : ∀ d, wt_view (wt_init d).2 = wt_view d).
Context (all_ids : ∀ d l, wt_all d = inr l → NoDup (ID <$> l) ∧
  ∀ k i, wt_view d !! k = Some i ↔ i ∈ l ∧ ID i = k).
Context (all_none : ∀ d, wt_all d = inl ErrNotFound → wt_view d = ∅).
Abbreviation Rotate := (string → Z → bool → Z → goerr + R).
Abbreviation New rot := (NewMultiWallet (W := W) (S := S) mainnet testnet fee gap rot order
                           string_c empty_db wt_init wt_all).

(** A call: what the files and the log do, and its arguments. *)
Record Call := mkCall {
  c_io : NewFaults (S := S); c_rotator : Rotate; c_root : string; c_driver : string; c_net : string }.
Definition call_New (p : Proc) (c : Call) : Proc :=
  (New (c_rotator c) (c_io c) (c_root c) (c_driver c) (c_net c) p).2.

(** No call of [NewMultiWallet] closes a database, on any of its paths. *)
Lemma New_keeps_open (rot : Rotate) (io : NewFaults) (rootDir drv net : string) (p p' : Proc)
    (r : outcome MW) :
  New rot io rootDir drv net p = (r, p') → open_dbs p ⊆ open_dbs p'.
Proof.
  unfold NewMultiWallet. destruct (ChainParams id mainnet testnet net) as [e|net']; [by intros [= _ <-]|].
  unfold bind at 1, make_dir. destruct (n_mkdir io); [by intros [= _ <-]|].
  unfold bind at 1, try, on_logs at 1, initLogRotator. destruct (rot _ _ _ _); [by intros [= _ <-]|].
  unfold open_and_load, bind at 1, try, storm_Open. destruct (n_open io).
  { case_decide; by intros [= _ <-]. }
  case_decide as Hl; [rewrite decide_True by done; by intros [= _ <-]|].
  intros Ha%after_open_locked. rewrite Ha. cbn. set_solver.
Qed.

Lemma calls_keep_open (calls : list Call) (p : Proc) :
  open_dbs p ⊆ open_dbs (foldl call_New p calls).
Proof.
  revert p. induction calls as [|c calls IH]; intros p; [done|]. cbn [foldl].
  etransitivity; [|apply IH]. unfold call_New.
  exact (New_keeps_open _ _ _ _ _ _ _ _ (surjective_pairing _)).
Qed.

(** A call for a database that is open fails, at the latest when it opens it. *)
Lemma New_locked (rot : Rotate) (io : NewFaults) (rootDir drv net : string) (p : Proc) :
  db_path rootDir net ∈ open_dbs p →
  ∃ e, (New rot io rootDir drv net p).1 = Err e ∧
    ((∃ a, ChainParams id mainnet testnet net = inr a) → n_mkdir io = None → n_open io = None →
     (∃ a, rot (Join (Join rootDir net) logFileName) (10 * 1024)%Z false 3%Z = inr a) →
     e = ErrWalletDatabaseInUse).
Proof.
  intros Hlock. unfold NewMultiWallet.
  destruct (ChainParams id mainnet testnet net) as [e|net'];
    [eexists; split; [done|]; by intros [? ?]|].
  unfold bind at 1, make_dir. destruct (n_mkdir io) as [e|]; [eexists; split; [done|]; by intros _ ?|].
  unfold bind at 1, try, on_logs at 1, initLogRotator.
  destruct (rot _ _ _ _) as [e|rotator]; [eexists; split; [done|]; by intros _ _ _ [? ?]|].
  unfold open_and_load, bind at 1, try, storm_Open. destruct (n_open io) as [e|].
  { case_decide as He; (eexists; split; [done|]; by intros _ _ ?). }
  cbn. rewrite (decide_True (P := db_path rootDir net ∈ open_dbs p)) by done. by eexists.
Qed.

(** C40. Starting a multiwallet.  When the call succeeds, the database of the
    directory and the network is open and was not before, and the multiwallet
    holds exactly the saved wallets: one per record of the database, under its
    id, with its index open and no library wallet yet; the goroutines that wait
    for a shutdown run for the multiwallet and for each of these wallets.  When
    it fails, either no database was opened or this one stays open without an
    owner.  Then, after any number of further calls for any directories, a call
    for the same directory and network fails, whatever the files and the log do:
    because the database is in use, unless making the directory, opening the log
    or opening the file fails in another way before. *)
Theorem NewMultiWallet_spec (rotator_New : Rotate) (io : NewFaults) (rootDir drv net : string)
    (p p' : Proc) (r : outcome MW) :
  New rotator_New io rootDir drv net p = (r, p') →
  let path := db_path rootDir net in
  match r with
  | Ok mw =>
      path ∉ open_dbs p ∧ path ∈ open_dbs p' ∧ dbs p' !! path = Some (mdb mw) ∧
      wt_view (mdb mw) = wt_view (default empty_db (dbs p !! path)) ∧
      loaded_all (mdb mw) mw ∧ (params mw = mainnet ∨ params mw = testnet) ∧
      listener (shutdowns p') None = Listening ∧
      (∀ k, is_Some (wallets mw !! k) → listener (shutdowns p') (Some k) = Listening)
  | Err _ | Panic =>
      open_dbs p' = open_dbs p ∨
      (path ∈ open_dbs p' ∧
       ∀ (calls : list Call) rot' io' drv', ∃ e,
         (New rot' io' rootDir drv' net (foldl call_New p' calls)).1 = Err e ∧
         (n_mkdir io' = None → n_open io' = None →
          (∃ a, rot' (Join (Join rootDir net) logFileName) (10 * 1024)%Z false 3%Z = inr a) →
          e = ErrWalletDatabaseInUse))
  end.
Proof using All.
  intros H path. unfold NewMultiWallet in H.
  destruct (ChainParams id mainnet testnet net) as [e|params_] eqn:Enet;
    [injection H as <- <-; by left|].
  unfold bind at 1, make_dir in H. destruct (n_mkdir io) as [e|] eqn:Emk; [injection H as <- <-; by left|].
  unfold bind at 1, try, on_logs at 1, initLogRotator in H.
  destruct (rotator_New _ _ _ _) as [e|rot] eqn:Erot; [injection H as <- <-; by left|].
  apply (open_and_load_cases mainnet testnet fee gap rotator_New order string_c empty_db
    wt_init wt_all io init_view all_ids all_none) in H.
  destruct H as [(e & -> & ->)|(Hout & Hin & Hok)]; [by left|].
  assert (Hlock : path ∈ open_dbs p') by set_solver.
  assert (Hagain : ∀ calls rot' io' drv', ∃ e,
    (New rot' io' rootDir drv' net (foldl call_New p' calls)).1 = Err e ∧
    (n_mkdir io' = None → n_open io' = None →
     (∃ a, rot' (Join (Join rootDir net) logFileName) (10 * 1024)%Z false 3%Z = inr a) →
     e = ErrWalletDatabaseInUse)).
  { intros calls rot' io' drv'.
    destruct (New_locked rot' io' rootDir drv' net (foldl call_New p' calls)) as (e & He & Hwhy).
    - by apply calls_keep_open.
    - exists e. split; [done|]. apply Hwhy. by exists params_. }
  destruct r as [mw|e|]; [|by right..].
  destruct (Hok mw eq_refl) as (H1 & H2 & H3 & H4 & H5 & H6). split_and!; try done.
  unfold ChainParams in Enet. repeat case_decide; simplify_eq; auto.
Qed.
End Proc_theorems.

(** ** Witness: a directory with one saved wallet, whose index cannot be opened
    in the second case *)
Module ToyNew.
Definition all (d : ToyMW.t) : goerr + list WalletInfo := inr (map_to_list (ToyMW.view d)).*2.

Lemma all_ids (d : ToyMW.t) (l : list WalletInfo) :
  all d = inr l → NoDup (ID <$> l) ∧ ∀ k i, wt_view d !! k = Some i ↔ i ∈ l ∧ ID i = k.
Proof.
  intros [= <-].
  assert (Hid : ∀ k i, ToyMW.view d !! k = Some i → ID i = k)
    by (intros k i H; exact (proj1 (view_id (Val := ToyMW.Val) d k i H))).
  split.
  - rewrite <- list_fmap_compose.
    rewrite (list_fmap_ext _ fst); [apply NoDup_fst_map_to_list|].
    intros n [k i] H. apply list_elem_of_lookup_2, elem_of_map_to_list in H. by apply Hid.
  - intros k i. cbn. rewrite list_elem_of_fmap. split.
    + intros H. split; [|by apply Hid]. exists (k, i). split; [done|]. by apply elem_of_map_to_list.
    + intros [([k' i'] & -> & H%elem_of_map_to_list) <-]. cbn. by rewrite (Hid _ _ H).
Qed.

Definition str_c : Codec ToyMW.Val string :=
  mkCodec _ _ EmptyString (λ _, ToyMW.VInt 0) (λ _, None).
Definition keys (m : gmap string nat) : list string := (map_to_list m).*1.
Definition faults (open : option goerr) : NewFaults (S := MapStorm.t) :=
  mkNew None None (λ _, TxIndex.mkFaults None open None) (λ _, TxIndex.mkFS None 0)
    (λ _, ToyMW.world).
Definition shut : Shutdown.St := Shutdown.mkSt (λ _, NotStarted) (λ _, []) [] 0 quiet [] [].
Definition disk : Proc (D := ToyMW.t) (Level := nat) (R := unit) :=
  mkProc {["/app/mainnet/wallets.db"%string := ToyMW.mk [ToyMW.saved] ∅]} ∅ ∅ (init initial) shut.
Definition New := NewMultiWallet (W := ToyMW.lib_wallet) (S := MapStorm.t) "mainnet" "testnet3" 1 20
  (λ _ _ _ _, inr tt) keys str_c (ToyMW.mk [] ∅) (λ d, (None, d)) all.
End ToyNew.

Lemma NewMultiWallet_spec_witness :
  (∃ mw p', ToyNew.New (ToyNew.faults None) "/app" "bdb" "mainnet" ToyNew.disk = (Ok mw, p') ∧
     is_Some (wallets mw !! 1%Z) ∧ listener (shutdowns p') (Some 1%Z) = Listening) ∧
  (∃ e p', ToyNew.New (ToyNew.faults (Some ErrTimeout)) "/app" "bdb" "mainnet" ToyNew.disk = (Err e, p') ∧
     let p'' := (ToyNew.New (ToyNew.faults None) "/app" "bdb" "testnet3" p').2 in
     (ToyNew.New (ToyNew.faults None) "/app" "bdb" "mainnet" p'').1 = Err ErrWalletDatabaseInUse).
Proof.
  split.
  - destruct (ToyNew.New (ToyNew.faults None) "/app" "bdb" "mainnet" ToyNew.disk) as [r p'] eqn:E.
    assert (Hr : match r with Ok mw => bool_decide (is_Some (wallets mw !! 1%Z)) | _ => false end = true)
      by (change r with (r, p').1; rewrite <- E; vm_compute; reflexivity).
    destruct r as [mw|e|]; [|discriminate Hr..]. apply bool_decide_eq_true in Hr.
    pose proof (NewMultiWallet_spec "mainnet" "testnet3" 1 20 ToyNew.keys
      ToyNew.str_c (ToyMW.mk [] ∅) (λ d, (None, d)) ToyNew.all (λ d, eq_refl) ToyNew.all_ids
      (λ d, ltac:(discriminate)) (λ _ _ _ _, inr tt) (ToyNew.faults None) "/app" "bdb" "mainnet" ToyNew.disk p' _ E) as H.
    destruct H as (_ & _ & _ & _ & _ & _ & _ & Hl).
    exists mw, p'. split; [reflexivity|]. split; [exact Hr|]. apply Hl. exact Hr.
  - destruct (ToyNew.New (ToyNew.faults (Some ErrTimeout)) "/app" "bdb" "mainnet" ToyNew.disk)
      as [r p'] eqn:E.
    assert (Hr : match r with Err _ => true | _ => false end = true)
      by (change r with (r, p').1; rewrite <- E; vm_compute; reflexivity).
    assert (Ho : bool_decide (open_dbs p' = ∅) = false)
      by (change p' with (r, p').2; rewrite <- E; vm_compute; reflexivity).
    apply bool_decide_eq_false in Ho.
    destruct r as [mw|e|]; [discriminate Hr| |discriminate Hr].
    pose proof (NewMultiWallet_spec "mainnet" "testnet3" 1 20 ToyNew.keys
      ToyNew.str_c (ToyMW.mk [] ∅) (λ d, (None, d)) ToyNew.all (λ d, eq_refl) ToyNew.all_ids
      (λ d, ltac:(discriminate)) (λ _ _ _ _, inr tt) (ToyNew.faults (Some ErrTimeout)) "/app" "bdb" "mainnet"
      ToyNew.disk p' _ E) as [H|[_ H]]; [by destruct Ho|].
    destruct (H [mkCall (ToyNew.faults None) (λ _ _ _ _, inr tt) "/app" "bdb" "testnet3"]
      (λ _ _ _ _, inr tt) (ToyNew.faults None) "bdb") as (e' & He & Hwhy).
    rewrite Hwhy in He; [|reflexivity..|by exists tt].
    exists e, p'. split; [reflexivity|]. exact He.
Defined.
