(* ===== verification/Files.v ===== *)
(** * Files: the size of the root directory, whether a wallet is there

    [RootDirFileSizeInBytes] of multiwallet_utils.go walks a tree of files;
    [fileExists] and [WalletExistsAt] of utils.go ask for one path. *)
From S2P Require Import Prelude Loader MultiWallet.

(** A name that cannot be examined, a file with its size, a directory with the
    error of reading it and its entries by name. *)
Inductive tree :=
| Unknown (err : goerr)
| File (size : Z)
| Dir (err : option goerr) (entries : list tree).

(** What a function of [filepath.Walk] is told of a path: whether it is a
    directory, and its size. *)
Record FileInfo := mkFile { IsDir : bool; Size : Z }.
Definition info_of (t : tree) : option FileInfo :=
  match t with
  | Unknown _ => None
  | File n => Some (mkFile false n)
  | Dir _ _ => Some (mkFile true 0)
  end.

(** [filepath.Walk]; no function here returns [SkipDir]. *)
Section Walk.
Context {A : Type} (fn : option FileInfo → option goerr → A → A * option goerr).
Fixpoint Walk (t : tree) (a : A) : A * option goerr :=
  match t with
  | Unknown err => fn None (Some err) a
  | File _ => fn (info_of t) None a
  | Dir err entries =>
      match fn (info_of t) err a, err with
      | (a, None), None =>
          (fix visit (l : list tree) (a : A) : A * option goerr :=
             match l with
             | [] => (a, None)
             | t :: l => match Walk t a with
                         | (a, None) => visit l a
                         | r => r
                         end
             end) entries a
      | r, _ => r
      end
  end.
End Walk.

(** The function that adds up the sizes, in an [int64]. *)
Definition add_size (info : option FileInfo) (err : option goerr) (size : Z) : Z * option goerr :=
  match err, info with
  | Some err, _ => (size, Some err)
  | None, Some info => (if IsDir info then size else wrap 64 (size + Size info)%Z, None)
  | None, None => (size, None)
  end.
Definition RootDirFileSizeInBytes (rootDir : tree) : Z * option goerr := Walk add_size rootDir 0%Z.

(** utils.go: the outcome of [os.Stat]. *)
Inductive StatResult := Found | IsNotExist | StatError (err : goerr).
Definition fileExists (stat : string → StatResult) (filePath : string) : goerr + bool :=
  match stat filePath with
  | Found => inr true
  | IsNotExist => inr false
  | StatError err => inl err
  end.
(** An error is logged, and taken for a wallet that is not there. *)
Definition WalletExistsAt (stat : string → StatResult) (directory : string) : bool :=
  match fileExists stat (Join directory walletDbName) with inr exists_ => exists_ | inl _ => false end.

(** ** Theorems *)

(** The sizes of the files of a tree, and whether all of it can be read. *)
Fixpoint total (t : tree) : Z :=
  match t with
  | Unknown _ => 0
  | File n => n
  | Dir _ l => foldr (λ t, Z.add (total t)) 0%Z l
  end.
Fixpoint readable (t : tree) : bool :=
  match t with
  | Unknown _ => false
  | File _ => true
  | Dir err l => bool_decide (err = None) && forallb readable l
  end.
Fixpoint nonneg (t : tree) : Prop :=
  match t with
  | Unknown _ => True
  | File n => (0 ≤ n)%Z
  | Dir _ l => foldr (λ t, and (nonneg t)) True l
  end.

Section tree_ind.
Context (P : tree → Prop) (P_unknown : ∀ e, P (Unknown e)) (P_file : ∀ n, P (File n))
        (P_dir : ∀ e l, Forall P l → P (Dir e l)).
Fixpoint tree_deep (t : tree) : P t :=
  match t with
  | Unknown e => P_unknown e
  | File n => P_file n
  | Dir e l => P_dir e l ((fix go l : Forall P l :=
                  match l with
                  | [] => Forall_nil_2 _
                  | t :: l => Forall_cons_2 _ _ _ (tree_deep t) (go l)
                  end) l)
  end.
End tree_ind.

Lemma total_nonneg (t : tree) : nonneg t → (0 ≤ total t)%Z.
Proof.
  induction t as [e|n|e l IH] using tree_deep; intros Ht; [done|done|]. cbn in *.
  induction IH as [|t l Hl _ IHl]; [done|]. destruct Ht as [Ht Hls]. cbn.
  specialize (Hl Ht). specialize (IHl Hls). lia.
Qed.

Lemma Walk_total (t : tree) (size : Z) :
  nonneg t → (0 ≤ size)%Z → (size + total t < 2 ^ 63)%Z →
  if readable t then Walk add_size t size = ((size + total t)%Z, None)
  else ∃ n e, Walk add_size t size = (n, Some e) ∧ (size ≤ n ≤ size + total t)%Z.
Proof.
  revert size. induction t as [e|n|e l IH] using tree_deep; intros size Ht Hs Hb.
  - exists size, e. cbn in *. split; [done|lia].
  - cbn in *. rewrite wrap_id; [done|done|]. unfold in_int. lia.
  - destruct e as [e|]; [exists size, e; split; [done|]; pose proof (total_nonneg _ Ht); lia|].
    cbn [readable]. rewrite bool_decide_true by done. cbn [andb].
    cbn [Walk add_size info_of IsDir]. cbn [total nonneg] in *.
    revert size Hs Hb. induction IH as [|t l Hl _ IHl]; intros size Hs Hb.
    + cbn. by rewrite Z.add_0_r.
    + destruct Ht as [Ht Hls]. cbn [foldr forallb] in *.
      assert (Hrest : (0 ≤ foldr (λ t, Z.add (total t)) 0 l)%Z) by exact (total_nonneg (Dir None l) Hls).
      specialize (Hl size Ht Hs ltac:(lia)). pose proof (total_nonneg _ Ht).
      destruct (readable t); cbn [andb].
      * rewrite Hl. specialize (IHl Hls (size + total t)%Z ltac:(lia) ltac:(lia)).
        destruct (forallb readable l); [by rewrite IHl, Z.add_assoc|].
        destruct IHl as (n & e & -> & Hn). exists n, e. split; [done|lia].
      * destruct Hl as (n & e & -> & Hn). exists n, e. split; [done|lia].
Qed.

(** The size of the directory is the sum of the sizes of all files below it,
    however deep, when everything there can be read and the sum fits; otherwise
    there is an error, and a size that is too small. *)
Theorem RootDirFileSizeInBytes_spec (rootDir : tree) :
  nonneg rootDir → (total rootDir < 2 ^ 63)%Z →
  if readable rootDir then RootDirFileSizeInBytes rootDir = (total rootDir, None)
  else ∃ n e, RootDirFileSizeInBytes rootDir = (n, Some e) ∧ (n ≤ total rootDir)%Z.
Proof.
  intros Ht Hb. pose proof (Walk_total rootDir 0 Ht ltac:(lia) ltac:(lia)) as H.
  unfold RootDirFileSizeInBytes. destruct (readable rootDir); [by rewrite H|].
  destruct H as (n & e & Hw & Hn). exists n, e. split; [done|lia].
Qed.
